(* ===== verification/_CoqProject ===== *)
-Q . S2P
Prelude.v
GenericFrame.v
Profile.v
Crypto.v
CryptoProofs.v
CryptoSession.v
Delivery.v
DeliverySend.v
DeliverySchedule.v
DeliveryRecv.v
PathHandshake.v
Channel.v
ChannelProofs.v
ChannelFlow.v
StreamCodec.v
StreamManager.v
StreamProofs.v
StreamSession.v
TransferManager.v
TransferStates.v
TransferFile.v
TransferProofs.v
Ordering.v
Candidates.v
CandidateProofs.v
CandidateCache.v
CandidateCacheProofs.v
Connectivity.v
ConnectivityProofs.v
Stun.v
SessionAdmission.v
EventLanes.v
CommandLedger.v
PeerSupervisor.v
PeerSupervisorRuns.v
PeerSupervisorProofs.v
PeerSupervisorLive.v
PeerLifecycle.v
PeerRegistry.v
Paths.v
PathManager.v
PathProofs.v
PathOwner.v
PathRuns.v
PathLifecycle.v
PathTheorems.v
VideoQueue.v
VideoQueueProofs.v
Rtp.v
RtpProofs.v
ScreenVideo.v
LossProofs.v
ScreenVideoProofs.v
ScreenStream.v
MediaQos.v
WebRtcPeer.v
RealtimeWire.v
Realtime.v
RealtimeClaims.v
RealtimeMedia.v
RealtimeRuns.v
RealtimeProofs.v
RealtimeLeases.v
RealtimeOrder.v
RealtimeShares.v
RealtimePairing.v
RealtimeExpiry.v
RealtimeRollback.v
RealtimeTheorems.v
