(* ===== verification/Prelude.v ===== *)
(** * Verification of the SSH Mobile native network core

    The native core (Rust, [src/native/network_core/crates]) carries messages,
    byte streams and files between two devices, directly or through a Relay. This
    development translates the parts of it that decide what happens to data into
    executable definitions and proves what they promise. File names below are
    under [crates]; a definition has the name of the function or type it models,
    with a prefix where two would clash.

    ** The program and its model

    - _Cryptography_ ([network-core/src/crypto]). A session has a traffic context
      that encrypts and decrypts envelopes, rotates keys and refuses replays; a
      manager shares contexts between the aliases of a session. [Crypto] and
      [CryptoSession] model them, [CryptoProofs] has the theorems of the context.
    - _Delivery_ ([network-core/src/delivery]). A store keeps what is to be sent,
      received and deduplicated, with retries, ordered channels and recovery.
      [Delivery] has the data and the reorder buffer, [DeliverySend] and
      [DeliveryRecv] the operations, [DeliverySchedule] the theorems of the
      sending side.
    - _Channels_ ([network-core/src/channel]). They encrypt messages, hand them to
      Delivery and turn frames into events and acknowledgements: [Channel],
      [ChannelProofs] and [ChannelFlow]. Frames of TCP and Relay routes are in
      [GenericFrame] ([connection/generic.rs]).
    - _Streams_ ([network-core/src/stream]). Logical byte streams over frames or
      QUIC: [StreamCodec] (wire format), [StreamManager] (registry and buffers),
      [StreamProofs], [StreamSession] (commands and inbound frames).
    - _File transfer_ ([network-transfer]). [TransferManager] (manifests, registry,
      cancellation) with [TransferStates], and [TransferFile] (the sending and
      receiving loops and the part file) with [TransferProofs].
    - _NAT traversal_ ([network-nat]). [Candidates] and [CandidateCache]
      ([candidate.rs], [candidate_v2.rs]) with [CandidateProofs] and
      [CandidateCacheProofs]; [Connectivity] ([exchange.rs], [attempt.rs]) with
      [ConnectivityProofs]; [Stun] ([stun.rs]). [Ordering] has Rust's comparisons,
      sorting and deduplication.
    - _Runtime_ ([network-core/src]). [SessionAdmission] ([session.rs]) decides
      which authenticated connection installs its keys, [PathHandshake]
      ([path_handshake.rs]) what its handshake agrees on, [CommandLedger]
      ([commands/ledger.rs]) which command is dispatched, and [EventLanes]
      ([runtime_event_lanes.rs]) carries events to the foreign interface.
    - _Peers_ ([network-core/src/connect/peer_supervisor]). A supervisor per peer
      joins requests to connect, runs one attempt at a time through a mailbox and
      answers the requests: [PeerSupervisor] has its operations, each critical
      section a function, [PeerSupervisorRuns] the interleaving of callers, worker
      and attempts between the sections, [PeerSupervisorProofs],
      [PeerSupervisorLive] and [PeerLifecycle] the invariants and theorems, and
      [PeerRegistry] the registry of supervisors. [Profile] has the topologies,
      transports and capabilities of connections ([connection/profile.rs]).
    - _Paths_ ([network-core/src/connect/path]). A peer's manager owns its Direct
      and Relay carriers and lends them out as leases: [Paths] (one path and the
      weak registry), [PathManager] (publication, selection, retirement),
      [PathRuns] (any sequence of calls), with the invariants in [PathProofs],
      [PathOwner] and [PathLifecycle] and the theorems in [PathTheorems].
    - _Media_ ([network-webrtc]). Screen video goes through a bounded queue,
      RTP packets and a reassembler: [VideoQueue] ([media/queue.rs]), [Rtp]
      ([media/rtp.rs]) and [ScreenVideo] ([media/video.rs], [signaling.rs]), with
      the theorems in [VideoQueueProofs], [RtpProofs], [LossProofs] and
      [ScreenVideoProofs], and their composition over two peers in
      [ScreenStream]. [MediaQos] ([qos.rs]) has the queues of other media and
      [WebRtcPeer] ([peer.rs]) the descriptions and states of a peer.
    - _Realtime sessions_ ([network-core/src/realtime], [realtime_media]). A manager
      owns the WebRTC sessions with their generations, keeps the offers of peers
      until the application claims or rejects them, and lends the media of a
      session out as endpoints: [RealtimeWire] (checks of signals and consents),
      [Realtime] (sessions, signals, unclaimed offers), [RealtimeClaims] (claims),
      [RealtimeMedia] (the registry of endpoints). [RealtimeRuns] makes each section
      under the manager's lock a step, with the claims and the expiry worker between
      two of theirs; [RealtimeProofs], [RealtimeLeases], [RealtimeOrder],
      [RealtimeShares], [RealtimePairing], [RealtimeExpiry] and [RealtimeRollback]
      have the invariants and [RealtimeTheorems] the theorems.

    This file has what they share: results and the error monad of methods that
    mutate their receiver, machine integers, bytes, strings and UTF-8, time, the
    iteration order of hash tables, tactics and generic lemmas.

    ** Correspondence

    A [w]-bit integer is a [Z] with the overflow behaviour of the operation the
    source calls; time is a [Z] of nanoseconds; bytes are lists of [Byte.byte]. A
    method that holds a lock for its whole body is one function of the state
    behind the lock. A loop that waits is split at its awaits into turns, and
    concurrency is a sequence of such functions and turns in any order. Shared
    references are a heap with explicit counts, so that the last drop is a step of
    the model. Hash maps
    are finite maps whose iteration order is an argument. Code of other packages
    is a class of operations with a class of the laws it documents: [CryptoPrims],
    [X25519], [WireCodec] (Protocol Buffers), [PayloadJson], [Sha256], [AsyncRead],
    [RecvStream], [H264Format], [RealtimeCodec]; the witnesses of theorems that use such a law instantiate it.
    Clocks, random values, file-system failures and the answers of the connection
    layer are arguments.

    ** What the theorems show

    - Cryptography: the replay window refines the history of accepted nonces; no
      nonce is used twice with a key; each key stays within its limits; a failed
      decryption changes nothing; each envelope is accepted once; what one end
      encrypts the other decrypts; associated data is injective.
    - Delivery and channels: invariants of both sides under every schedule,
      numbered transmissions, complete recovery, in-sequence and at-most-once
      delivery, the path of a message from end to end, and enqueueing returns.
    - Streams: bytes arrive in order, identities are used once, buffers are
      accounted, no wake-up is lost, and the codec is a round trip.
    - Transfers: however attempts are interrupted, a success delivers the source;
      each transfer is claimed by one attempt; terminal states are final.
    - NAT traversal: fingerprints are canonical, probes start once, the cache
      serves only fresh candidates, exchanges and attempts hold the last snapshot
      that was not stale, and the STUN parser is safe and right.
    - Runtime: session admission has a single winner, a handshake transcript binds
      both identities and the policy, lanes are accounted and fair, and the
      worker dispatches a command once among the last 4096.
    - Peers: in every interleaving requests are answered at most once and limits
      hold; when an attempt finishes after its task is stored no request of the
      current generation is stranded; the registry stays within its bounds and
      evicts only idle peers.
    - Paths: carriers, leases, references and index agree in every execution; a
      closed peer holds nothing, a drained one only what is borrowed; publishing
      and leasing return what their rules say.
    - Media: queues are ordered, bounded and account for every frame; access
      units are cut as Annex B has it; a reassembled frame comes from an unbroken
      run of packets; lost packets are counted exactly; keyframe requests are
      paced and kept; and a stream of frames sent arrives complete and in order.
    - Realtime sessions, over every interleaving: an offer is told to the
      application once, with its request, and claimed at most once, by the session
      made for it; a failed claim leaves nothing behind; media leases name live
      sessions; revisions increase within a generation; what is kept for peers
      nobody answered is bounded and expires; a consent is not taken twice.

    Some theorems state what the code does where it falls short of what it means
    to do: [encrypted_size_limit], [closed_peer_never_acknowledges],
    [failed_channel_restarts_at_zero], [large_send_kills_stream],
    [finished_file_taken_as_part], [newer_revision_freezes_cache],
    [lost_requests], [refused_worker_is_final], [front_loss_undetected] and
    [answerer_never_sends].

    ** Fuel

    Structural recursion serves wherever the source iterates over data. Fuel is
    the length of the input for UTF-8, for cutting data into pieces and for STUN
    attributes, of which each turn consumes a byte at least; the size of the map
    for the eviction of processed messages, which removes an entry per turn; the
    bytes that are missing when a file is received, and one more than the bytes
    left when it is hashed or sent, since every turn but the last moves a byte;
    the length of the payload for the scanners of media, which move past a start
    code or a unit per turn; and one more than the frames queued for a flush, which
    takes a frame per turn; and two turns for the candidates of a claim, the second
    of which finds none. Each is proved to be enough where it matters.
    The STUN parser has no result when it runs out, and is proved to have one. The
    loop that draws message identifiers runs over the values drawn, and
    [enqueue_returns] shows that it ends.

    ** Not modelled

    The dialling of connections ([connect/connectivity_attempt], [peer],
    [relay_control], [relay_data], [discovery]), transports, the FFI and the Noise handshake run as tasks over
    sockets and third-party stacks; their answers are arguments here. Path scoring
    ([network-nat/src/path_manager.rs]) is floating-point arithmetic. The I/O loop of
    a realtime session ([network-webrtc/src/driver.rs], [realtime/io.rs]) moves
    packets between sockets and the rtc library; what it does to a session is a step
    of the runs. The hello and root payloads of the handshake and the framing of Relay
    messages are state or codecs that could be modelled and are not yet. Command
    dispatch forwards to the subsystems. The Flutter applications, the Relay server and the web front end are programs of their
    own. *)
From stdpp Require Export base gmap strings list sorting.
From Stdlib Require Export ZArith Lia.
From Stdlib Require Init.Byte Strings.Byte Strings.String.

#[global] Open Scope Z_scope.

(** ** Results and the [&mut self] error monad

    [result A E] is Rust's [Result<A, E>].  [SE S E A] models a method with
    [&mut self : S] returning [Result<A, E>]: the [?] operator returns early
    but keeps every mutation made so far, so the state is returned beside the
    result in both cases. *)
Inductive result (A E : Type) : Type :=
| Ok (a : A)
| Err (e : E).
Arguments Ok {A E} a.
Arguments Err {A E} e.

#[export] Instance result_eq_dec A E `{EqDecision A} `{EqDecision E} :
  EqDecision (result A E).
Proof. solve_decision. Defined.

(** Injectivity that leaves the terms as they are. *)
Lemma Ok_inj {A E} (a b : A) : @Ok A E a = Ok b -> a = b.
Proof. by intros [= ->]. Qed.

Definition is_ok {A E} (r : result A E) : bool :=
  match r with Ok _ => true | Err _ => false end.

Definition ok_or {A E} (o : option A) (e : E) : result A E :=
  match o with Some a => Ok a | None => Err e end.

Definition map_err {A E F} (f : E -> F) (r : result A E) : result A F :=
  match r with Ok a => Ok a | Err e => Err (f e) end.

Definition SE (S E A : Type) : Type := S -> result A E * S.

#[export] Instance SE_ret {S E} : MRet (SE S E) := fun A a s => (Ok a, s).
#[export] Instance SE_bind {S E} : MBind (SE S E) := fun A B k m s =>
  match m s with
  | (Ok a, s') => k a s'
  | (Err e, s') => (Err e, s')
  end.

Definition se_get {S E} : SE S E S := fun s => (Ok s, s).
Definition se_put {S E} (s' : S) : SE S E unit := fun _ => (Ok tt, s').
Definition se_modify {S E} (f : S -> S) : SE S E unit := fun s => (Ok tt, f s).
Definition se_lift {S E A} (r : result A E) : SE S E A := fun s => (r, s).
Definition se_fail {S E A} (e : E) : SE S E A := fun s => (Err e, s).

#[export] Instance result_ret {E} : MRet (fun A => result A E) := fun A a => Ok a.
#[export] Instance result_bind {E} : MBind (fun A => result A E) := fun A B k r =>
  match r with Ok a => k a | Err e => Err e end.

Declare Scope rust_scope.
Delimit Scope rust_scope with rust.
Notation "'let?' x ':=' r 'in' k" :=
  (match r with Ok x => k | Err e => Err e end)
  (at level 10, x pattern, r at level 100, k at level 200) : rust_scope.
#[global] Open Scope rust_scope.

(** ** Machine integers

    A [w]-bit unsigned integer is a [Z] in [0, 2^w); the operations below are
    the ones the source calls, with their overflow behaviour. *)
Definition u8_max : Z := 2 ^ 8 - 1.
Definition u16_max : Z := 2 ^ 16 - 1.
Definition u32_max : Z := 2 ^ 32 - 1.
Definition u64_max : Z := 2 ^ 64 - 1.

Definition is_u16 (z : Z) : Prop := 0 <= z <= u16_max.
Definition is_u32 (z : Z) : Prop := 0 <= z <= u32_max.
Definition is_u64 (z : Z) : Prop := 0 <= z <= u64_max.

Definition checked_add (max a b : Z) : option Z :=
  if a + b <=? max then Some (a + b) else None.
Definition saturating_add (max a b : Z) : Z := Z.min max (a + b).
Definition saturating_sub (a b : Z) : Z := Z.max 0 (a - b).
(** [as u32] and friends: truncation to the low bits. *)
Definition wrap (bits z : Z) : Z := z mod 2 ^ bits.

(** ** Bytes *)
Abbreviation byte := Corelib.Init.Byte.byte.
Abbreviation bytes := (list Corelib.Init.Byte.byte).

#[export] Instance byte_eq_dec : EqDecision byte := Byte.byte_eq_dec.

Definition Z_of_byte (b : byte) : Z := Z.of_N (Byte.to_N b).
Definition byte_of_Z (z : Z) : byte :=
  match Byte.of_N (Z.to_N (z mod 256)) with
  | Some b => b
  | None => Byte.x00
  end.

#[export] Program Instance byte_countable : Countable byte :=
  inj_countable Byte.to_N Byte.of_N _.
Next Obligation. intros x. apply Byte.of_to_N. Qed.

(** [uN::to_be_bytes] for an integer of [n] bytes. *)
Fixpoint be_bytes (n : nat) (z : Z) : bytes :=
  match n with
  | O => []
  | S n' => byte_of_Z (z / 256 ^ Z.of_nat n') :: be_bytes n' z
  end.

(** [uN::from_be_bytes]. *)
Definition of_be (l : bytes) : Z :=
  foldl (fun acc b => acc * 256 + Z_of_byte b) 0 l.

(** A slice's [len()] as a [usize]. *)
Definition len {A} (l : list A) : Z := Z.of_nat (length l).

(** [&payload[from..to]], for indices the source has already checked. *)
Definition slice {A} (from to : Z) (l : list A) : list A :=
  take (Z.to_nat (to - from)) (drop (Z.to_nat from) l).

(** ** Strings

    A Rust [String] is its UTF-8 bytes.  Rocq's [string] is a list of 8-bit
    characters, so [slen] is the byte length the source's [.len()] returns. *)
Definition str_bytes (s : string) : bytes := String.list_byte_of_string s.
Definition bytes_str (b : bytes) : string := String.string_of_list_byte b.
Definition slen (s : string) : Z := Z.of_nat (String.length s).
Definition str_is_empty (s : string) : bool := String.eqb s EmptyString.

Definition in_range (lo hi : Z) (b : byte) : bool :=
  (lo <=? Z_of_byte b) && (Z_of_byte b <=? hi).

(** Well-formed UTF-8 (Unicode table 3-7), which is what [str::from_utf8]
    accepts.  The fuel is the input's length: each step consumes a byte. *)
Fixpoint utf8_valid_fuel (fuel : nat) (l : bytes) : bool :=
  match fuel with
  | O => match l with [] => true | _ => false end
  | S fuel =>
    match l with
    | [] => true
    | b0 :: l1 =>
      if in_range 0 127 b0 then utf8_valid_fuel fuel l1 else
      match l1 with
      | [] => false
      | b1 :: l2 =>
        if in_range 194 223 b0 then in_range 128 191 b1 && utf8_valid_fuel fuel l2 else
        match l2 with
        | [] => false
        | b2 :: l3 =>
          if in_range 224 239 b0 then
            (if in_range 224 224 b0 then in_range 160 191 b1
             else if in_range 237 237 b0 then in_range 128 159 b1
             else in_range 128 191 b1)
            && in_range 128 191 b2 && utf8_valid_fuel fuel l3
          else
          match l3 with
          | [] => false
          | b3 :: l4 =>
            in_range 240 244 b0 &&
            (if in_range 240 240 b0 then in_range 144 191 b1
             else if in_range 244 244 b0 then in_range 128 143 b1
             else in_range 128 191 b1)
            && in_range 128 191 b2 && in_range 128 191 b3 && utf8_valid_fuel fuel l4
          end
        end
      end
    end
  end.

Definition utf8_valid (l : bytes) : bool := utf8_valid_fuel (length l) l.

(** [std::str::from_utf8(..)] followed by [to_string()]. *)
Definition from_utf8 (l : bytes) : option string :=
  if utf8_valid l then Some (bytes_str l) else None.

(** Every Rust [String] satisfies this by construction. *)
Definition rust_string (s : string) : Prop := utf8_valid (str_bytes s) = true.

(** ** Time

    An [Instant] is a [Z] of nanoseconds and a [Duration] a non-negative one.
    [Instant + Duration] is unbounded addition. *)
Definition NANOS_PER_SEC : Z := 1000000000.
Definition duration_max : Z := u64_max * NANOS_PER_SEC + 999999999.
Definition from_millis (ms : Z) : Z := ms * 1000000.
Definition from_secs (s : Z) : Z := s * NANOS_PER_SEC.
Definition duration_saturating_mul (d k : Z) : Z := Z.min duration_max (d * k).

(** ** [HashMap] iteration

    The iteration order of a [HashMap] is unspecified.  Operations that
    depend on it take the order from this class, whose law says that it
    enumerates exactly the map's entries; every theorem holds for every
    order. *)
Class HashOrder (K V : Type) `{Countable K} := {
  hash_iter : gmap K V -> list (K * V);
  hash_iter_perm : forall m, hash_iter m ≡ₚ map_to_list m;
}.

#[export] Instance default_hash_order K V `{Countable K} : HashOrder K V | 100 := {|
  hash_iter := map_to_list;
  hash_iter_perm := fun m => reflexivity _;
|}.

(** The iteration order of a [HashSet]. *)
Class SetOrder (K : Type) `{Countable K} := {
  set_iter : gset K -> list K;
  set_iter_perm : forall s, set_iter s ≡ₚ elements s;
}.

#[export] Instance default_set_order K `{Countable K} : SetOrder K | 100 := {|
  set_iter := elements;
  set_iter_perm := fun s => reflexivity _;
|}.

(** [HashMap::len] and the sum of a measure over the values. *)
Definition map_len {K V} `{Countable K} (m : gmap K V) : Z := Z.of_nat (size m).
Definition map_sum {K V} `{Countable K} (f : V -> Z) (m : gmap K V) : Z :=
  map_fold (fun _ v acc => f v + acc) 0 m.

(** Stable sort by a key, as [slice::sort_by_key]. *)
Fixpoint insert_by_key {A} (key : A -> Z) (x : A) (l : list A) : list A :=
  match l with
  | [] => [x]
  | y :: l' => if key x <=? key y then x :: l else y :: insert_by_key key x l'
  end.
Definition sort_by_key {A} (key : A -> Z) (l : list A) : list A :=
  foldr (insert_by_key key) [] l.

(** [Iterator::min_by_key]: the first entry with the least key. *)
Fixpoint min_by_key {A} (key : A -> Z) (l : list A) : option A :=
  match l with
  | [] => None
  | x :: l' =>
    match min_by_key key l' with
    | None => Some x
    | Some y => if key x <=? key y then Some x else Some y
    end
  end.

(** ** Tactics *)

(** Case analysis on the scrutinees of the [match]es and [if]s of a
    hypothesis or of the goal, keeping the equations. *)
Ltac destruct_match_in H :=
  match type of H with
  | context [match ?x with _ => _ end] => destruct x eqn:?
  end.
Ltac destruct_match_goal :=
  match goal with
  | |- context [match ?x with _ => _ end] => destruct x eqn:?
  end.

(** Boolean tests of the code as propositions. *)
Ltac bool_facts :=
  repeat match goal with
  | H : (_ && _) = true |- _ => apply andb_true_iff in H as [? ?]
  | H : (_ || _) = false |- _ => apply orb_false_iff in H as [? ?]
  | H : negb _ = true |- _ => apply negb_true_iff in H
  | H : negb _ = false |- _ => apply negb_false_iff in H
  | H : (_ <=? _) = true |- _ => apply Z.leb_le in H
  | H : (_ <=? _) = false |- _ => apply Z.leb_gt in H
  | H : (_ <? _) = true |- _ => apply Z.ltb_lt in H
  | H : (_ <? _) = false |- _ => apply Z.ltb_ge in H
  | H : (_ =? _) = true |- _ => apply Z.eqb_eq in H
  | H : (_ =? _) = false |- _ => apply Z.eqb_neq in H
  | H : bool_decide _ = true |- _ => apply bool_decide_eq_true in H
  | H : bool_decide _ = false |- _ => apply bool_decide_eq_false in H
  end.

Create HintDb rustdb.
Create Rewrite HintDb rustdb.

(** ** Lemmas on integers and bytes *)

Lemma Z_of_byte_range b : 0 <= Z_of_byte b < 256.
Proof. unfold Z_of_byte. pose proof (Byte.to_N_bounded b). lia. Qed.

Lemma Z_of_byte_of_Z z : Z_of_byte (byte_of_Z z) = z mod 256.
Proof.
  unfold Z_of_byte, byte_of_Z.
  pose proof (Z.mod_pos_bound z 256 ltac:(lia)) as Hb.
  pose proof (Byte.to_of_N_option_map (Z.to_N (z mod 256))) as Hm.
  destruct (Byte.of_N (Z.to_N (z mod 256))) as [b|] eqn:E; simpl in Hm.
  - apply Byte.to_of_N in E. rewrite E. lia.
  - destruct (Z.to_N (z mod 256) <=? 255)%N eqn:E2; [done|].
    apply N.leb_gt in E2. lia.
Qed.

Lemma byte_of_Z_of_byte b : byte_of_Z (Z_of_byte b) = b.
Proof.
  unfold byte_of_Z. pose proof (Z_of_byte_range b).
  rewrite Z.mod_small by lia. unfold Z_of_byte. rewrite N2Z.id, Byte.of_to_N. done.
Qed.

Lemma Z_of_byte_inj b c : Z_of_byte b = Z_of_byte c -> b = c.
Proof. intros H. rewrite <- (byte_of_Z_of_byte b), <- (byte_of_Z_of_byte c). by rewrite H. Qed.

Lemma length_be_bytes n z : length (be_bytes n z) = n.
Proof. induction n as [|n IH]; simpl; congruence. Qed.

Lemma len_be_bytes n z : len (be_bytes n z) = Z.of_nat n.
Proof. unfold len. by rewrite length_be_bytes. Qed.

Lemma foldl_be_acc l acc :
  foldl (fun acc b => acc * 256 + Z_of_byte b) acc l
  = acc * 256 ^ len l + of_be l.
Proof.
  unfold of_be, len. revert acc. induction l as [|b l IH]; intros acc; cbn [foldl length].
  - change (Z.of_nat 0) with 0. lia.
  - rewrite IH, (IH (0 * 256 + _)).
    rewrite Nat2Z.inj_succ, Z.pow_succ_r by lia. ring.
Qed.

Lemma of_be_cons b l : of_be (b :: l) = Z_of_byte b * 256 ^ len l + of_be l.
Proof. unfold of_be at 1. cbn [foldl]. rewrite foldl_be_acc. f_equal. Qed.

Lemma of_be_app l1 l2 : of_be (l1 ++ l2) = of_be l1 * 256 ^ len l2 + of_be l2.
Proof. unfold of_be at 1. rewrite foldl_app. apply foldl_be_acc. Qed.

Lemma of_be_range l : 0 <= of_be l < 256 ^ len l.
Proof.
  induction l as [|b l IH]; [done|].
  rewrite of_be_cons. pose proof (Z_of_byte_range b).
  unfold len in *. cbn [length]. rewrite Nat2Z.inj_succ, Z.pow_succ_r by lia. nia.
Qed.

Lemma of_be_be_bytes_mod n z : of_be (be_bytes n z) = z mod 256 ^ Z.of_nat n.
Proof.
  induction n as [|n IH]; cbn [be_bytes].
  - change (256 ^ Z.of_nat 0) with 1. by rewrite Z.mod_1_r.
  - rewrite of_be_cons, IH, Z_of_byte_of_Z, len_be_bytes.
    rewrite Nat2Z.inj_succ, Z.pow_succ_r by lia.
    assert (0 < 256 ^ Z.of_nat n) by (apply Z.pow_pos_nonneg; lia).
    rewrite (Z.mul_comm 256), Z.rem_mul_r by lia. lia.
Qed.

Lemma of_be_be_bytes n z : 0 <= z < 256 ^ Z.of_nat n -> of_be (be_bytes n z) = z.
Proof. intros H. rewrite of_be_be_bytes_mod. by apply Z.mod_small. Qed.

Lemma be_bytes_mod n z m :
  (n <= m)%nat -> be_bytes n (z mod 256 ^ Z.of_nat m) = be_bytes n z.
Proof.
  intros Hle. induction n as [|n IH]; cbn [be_bytes]; [done|].
  rewrite IH by lia. f_equal. apply Z_of_byte_inj. rewrite !Z_of_byte_of_Z.
  replace (Z.of_nat m) with (Z.of_nat n + (1 + Z.of_nat (m - S n))) by lia.
  rewrite Z.pow_add_r, Z.pow_add_r, Z.pow_1_r by lia.
  assert (0 < 256 ^ Z.of_nat n) by (apply Z.pow_pos_nonneg; lia).
  assert (0 < 256 ^ Z.of_nat (m - S n)) by (apply Z.pow_pos_nonneg; lia).
  rewrite (Z.rem_mul_r z) by lia.
  rewrite (Z.add_comm (z mod _)), (Z.mul_comm (256 ^ Z.of_nat n)).
  rewrite Z.div_add_l, (Z.div_small (z mod _)), Z.add_0_r by (lia || apply Z.mod_pos_bound; lia).
  rewrite Z.rem_mul_r by lia.
  rewrite (Z.mul_comm 256), Z.mod_add, Z.mod_mod by lia. done.
Qed.

Lemma be_bytes_of_be l : be_bytes (length l) (of_be l) = l.
Proof.
  induction l as [|b l IH]; cbn [length be_bytes]; [done|].
  pose proof (of_be_range l) as Hr.
  assert (0 < 256 ^ len l) by (apply Z.pow_pos_nonneg; unfold len; lia).
  rewrite of_be_cons. f_equal.
  - fold (len l). rewrite Z.div_add_l, Z.div_small, Z.add_0_r by lia.
    apply byte_of_Z_of_byte.
  - rewrite <- (be_bytes_mod _ _ (length l)) by lia. fold (len l).
    rewrite Z.add_comm, Z.mod_add, Z.mod_small by lia. done.
Qed.

Lemma be_bytes_inj n a b :
  0 <= a < 256 ^ Z.of_nat n -> 0 <= b < 256 ^ Z.of_nat n ->
  be_bytes n a = be_bytes n b -> a = b.
Proof.
  intros Ha Hb H. rewrite <- (of_be_be_bytes n a Ha), <- (of_be_be_bytes n b Hb). by rewrite H.
Qed.

Lemma len_nonneg {A} (l : list A) : 0 <= len l.
Proof. unfold len. lia. Qed.

Lemma len_app {A} (l1 l2 : list A) : len (l1 ++ l2) = len l1 + len l2.
Proof. unfold len. rewrite length_app. lia. Qed.

Lemma len_cons {A} (x : A) l : len (x :: l) = 1 + len l.
Proof. unfold len. cbn [length]. lia. Qed.

Lemma len_nil {A} : len (@nil A) = 0.
Proof. done. Qed.

Lemma len_zero_nil {A} (l : list A) : len l = 0 -> l = [].
Proof. destruct l; [done|]. rewrite len_cons. pose proof (len_nonneg l). lia. Qed.

#[export] Hint Rewrite @len_app @len_cons @len_nil len_be_bytes : rustdb.
#[export] Hint Resolve len_nonneg Z_of_byte_range of_be_range : rustdb.

(** Splitting an encoded frame at a field boundary. *)
Lemma slice_app_mid {A} (l1 l2 l3 : list A) from to :
  from = len l1 -> to = len l1 + len l2 -> slice from to (l1 ++ l2 ++ l3) = l2.
Proof.
  intros -> ->. unfold slice, len. rewrite Nat2Z.id, drop_app_length.
  replace (Z.to_nat _) with (length l2) by lia. apply take_app_length.
Qed.

Lemma slice_app_end {A} (l1 l2 : list A) from to :
  from = len l1 -> to = len l1 + len l2 -> slice from to (l1 ++ l2) = l2.
Proof. intros H1 H2. rewrite <- (app_nil_r l2) at 1. by apply slice_app_mid. Qed.

Lemma slice_app_front {A} (l1 l2 : list A) to : to = len l1 -> slice 0 to (l1 ++ l2) = l1.
Proof. intros ->. by apply (slice_app_mid []). Qed.

Lemma len_slice {A} (l : list A) from to :
  0 <= from <= to -> to <= len l -> len (slice from to l) = to - from.
Proof. intros H1 H2. unfold slice, len in *. rewrite length_take, length_drop. lia. Qed.

(** A list is its slices at a cut. *)
Lemma slice_split {A} (l : list A) a b c :
  0 <= a <= b -> b <= c -> slice a c l = slice a b l ++ slice b c l.
Proof.
  intros H1 H2. unfold slice.
  rewrite <- (take_drop (Z.to_nat (b - a)) (take (Z.to_nat (c - a)) (drop (Z.to_nat a) l))).
  rewrite take_take, skipn_firstn_comm, drop_drop.
  f_equal; f_equal; try lia. f_equal. lia.
Qed.

Lemma slice_all {A} (l : list A) n : n = len l -> slice 0 n l = l.
Proof. intros ->. unfold slice, len. rewrite drop_0. apply take_ge. lia. Qed.

(** ** Lemmas on strings *)

Lemma bytes_str_bytes s : bytes_str (str_bytes s) = s.
Proof. apply String.string_of_list_byte_of_string. Qed.

Lemma str_bytes_str b : str_bytes (bytes_str b) = b.
Proof. apply String.list_byte_of_string_of_list_byte. Qed.

Lemma len_str_bytes s : len (str_bytes s) = slen s.
Proof.
  unfold len, slen, str_bytes. f_equal. unfold String.list_byte_of_string.
  rewrite length_map. induction s as [|c s IH]; cbn; [done|]. by rewrite IH.
Qed.

Lemma str_bytes_inj s t : str_bytes s = str_bytes t -> s = t.
Proof. intros H. rewrite <- (bytes_str_bytes s), <- (bytes_str_bytes t). by rewrite H. Qed.

Lemma slen_nonneg s : 0 <= slen s.
Proof. unfold slen. lia. Qed.

Lemma str_is_empty_spec s : str_is_empty s = true <-> slen s = 0.
Proof.
  unfold str_is_empty, slen. rewrite String.eqb_eq. destruct s; cbn; [split; done|].
  split; [done|]. lia.
Qed.

Lemma str_is_empty_false s : str_is_empty s = false <-> 0 < slen s.
Proof.
  pose proof (slen_nonneg s). pose proof (str_is_empty_spec s) as Hs.
  destruct (str_is_empty s); split; intros; try done.
  - assert (slen s = 0) by by apply Hs. lia.
  - destruct (Z.eq_dec (slen s) 0) as [Hz|]; [|lia]. apply Hs in Hz. done.
Qed.

Lemma from_utf8_str s : rust_string s -> from_utf8 (str_bytes s) = Some s.
Proof. intros H. unfold from_utf8. by rewrite H, bytes_str_bytes. Qed.

Lemma from_utf8_inv l s : from_utf8 l = Some s -> l = str_bytes s /\ rust_string s.
Proof.
  unfold from_utf8, rust_string. destruct (utf8_valid l) eqn:E; [|done].
  intros [= <-]. by rewrite str_bytes_str.
Qed.

#[export] Hint Rewrite len_str_bytes : rustdb.
#[export] Hint Resolve slen_nonneg : rustdb.

(** ** Lemmas on sorting and hash iteration *)

Lemma insert_by_key_perm {A} key (x : A) l : insert_by_key key x l ≡ₚ x :: l.
Proof.
  induction l as [|y l IH]; cbn; [done|]. destruct (key x <=? key y); [done|].
  rewrite IH. apply Permutation_swap.
Qed.

Lemma sort_by_key_perm {A} key (l : list A) : sort_by_key key l ≡ₚ l.
Proof.
  induction l as [|x l IH]; cbn; [done|]. rewrite insert_by_key_perm. by rewrite IH.
Qed.

Lemma insert_by_key_sorted {A} key (x : A) l :
  StronglySorted (fun a b => key a <= key b) l ->
  StronglySorted (fun a b => key a <= key b) (insert_by_key key x l).
Proof.
  induction 1 as [|y l Hs IH Hall]; cbn; [repeat constructor|].
  destruct (key x <=? key y) eqn:E; bool_facts.
  - constructor; [by constructor|]. constructor; [lia|].
    eapply Forall_impl; [exact Hall|]. cbn. intros; lia.
  - constructor; [done|]. rewrite insert_by_key_perm. constructor; [lia|done].
Qed.

Lemma sort_by_key_sorted {A} key (l : list A) :
  StronglySorted (fun a b => key a <= key b) (sort_by_key key l).
Proof. induction l; cbn; [constructor|]. by apply insert_by_key_sorted. Qed.

Lemma min_by_key_elem {A} key (l : list A) x : min_by_key key l = Some x -> x ∈ l.
Proof.
  revert x. induction l as [|y l IH]; cbn; intros x H; [done|].
  destruct (min_by_key key l) as [z|] eqn:E.
  - destruct (key y <=? key z); simplify_eq; [left|right; by apply IH].
  - simplify_eq. left.
Qed.

Lemma min_by_key_least {A} key (l : list A) x y :
  min_by_key key l = Some x -> y ∈ l -> key x <= key y.
Proof.
  revert x. induction l as [|z l IH]; cbn; intros x H Hy; [by apply not_elem_of_nil in Hy|].
  destruct (min_by_key key l) as [w|] eqn:E.
  - specialize (IH w eq_refl).
    apply elem_of_cons in Hy as [->|Hy]; destruct (key z <=? key w) eqn:Ek;
      simplify_eq; bool_facts; try lia; specialize (IH Hy); lia.
  - destruct l; [|by cbn in E; repeat destruct_match_in E; simplify_eq].
    apply list_elem_of_singleton in Hy. simplify_eq. lia.
Qed.

Lemma min_by_key_none {A} key (l : list A) : min_by_key key l = None -> l = [].
Proof. destruct l; cbn; [done|]. intros H. repeat destruct_match_in H; simplify_eq. Qed.

Section HashIter.
Context `{HashOrder K V}.
Implicit Types m : gmap K V.

Lemma elem_of_hash_iter m k v : (k, v) ∈ hash_iter m <-> m !! k = Some v.
Proof. rewrite hash_iter_perm. apply elem_of_map_to_list. Qed.

Lemma NoDup_hash_iter_fst m : NoDup (hash_iter m).*1.
Proof. rewrite hash_iter_perm. apply NoDup_fst_map_to_list. Qed.

Lemma NoDup_hash_iter m : NoDup (hash_iter m).
Proof. rewrite hash_iter_perm. apply NoDup_map_to_list. Qed.

Lemma hash_iter_nil m : hash_iter m = [] -> m = ∅.
Proof.
  intros E. apply map_to_list_empty_iff.
  apply Permutation_nil_r. by rewrite <- hash_iter_perm, E.
Qed.
End HashIter.

Lemma elem_of_set_iter `{SetOrder K} (s : gset K) k : k ∈ set_iter s <-> k ∈ s.
Proof. rewrite set_iter_perm. apply elem_of_elements. Qed.

(** ** Lemmas on map sizes and sums *)

Section MapSum.
Context {K V : Type} `{Countable K}.
Implicit Types m : gmap K V.

Lemma map_len_nonneg m : 0 <= map_len m.
Proof. unfold map_len. lia. Qed.

Lemma map_len_empty : map_len (∅ : gmap K V) = 0.
Proof. unfold map_len. by rewrite map_size_empty. Qed.

Lemma map_len_insert_new m k v : m !! k = None -> map_len (<[k := v]> m) = map_len m + 1.
Proof. intros E. unfold map_len. rewrite map_size_insert_None by done. lia. Qed.

Lemma map_len_insert_old m k v : is_Some (m !! k) -> map_len (<[k := v]> m) = map_len m.
Proof. intros [w E]. unfold map_len. by rewrite map_size_insert_Some by by exists w. Qed.

Lemma map_len_delete m k : is_Some (m !! k) -> map_len (delete k m) = map_len m - 1.
Proof.
  intros [v E]. unfold map_len. rewrite map_size_delete_Some by by exists v.
  assert (size m <> 0%nat); [|lia].
  intros Hz. apply map_size_empty_inv in Hz. by subst.
Qed.

Lemma map_len_filter_le (P : K * V -> Prop) `{!forall kv, Decision (P kv)} m :
  map_len (filter P m) <= map_len m.
Proof. unfold map_len. apply inj_le, map_subseteq_size, map_filter_subseteq. Qed.

Lemma map_len_delete_le m k : map_len (delete k m) <= map_len m.
Proof. unfold map_len. apply inj_le, map_subseteq_size, delete_subseteq. Qed.

Lemma map_sum_empty f : map_sum f (∅ : gmap K V) = 0.
Proof. unfold map_sum. by rewrite map_fold_empty. Qed.

Lemma map_sum_insert_new f m k v :
  m !! k = None -> map_sum f (<[k := v]> m) = f v + map_sum f m.
Proof. intros E. unfold map_sum. rewrite map_fold_insert_L; [done|intros; lia|done]. Qed.

Lemma map_sum_delete f m k v : m !! k = Some v -> map_sum f (delete k m) = map_sum f m - f v.
Proof.
  intros E. unfold map_sum. rewrite (map_fold_delete_L _ _ k v m); [lia|intros; lia|done].
Qed.

Lemma map_sum_insert_old f m k v w :
  m !! k = Some w -> map_sum f (<[k := v]> m) = map_sum f m - f w + f v.
Proof.
  intros E. rewrite <- insert_delete_eq, map_sum_insert_new by apply lookup_delete_eq.
  rewrite (map_sum_delete _ _ _ w) by done. lia.
Qed.

Lemma map_sum_nonneg f m : (forall v, 0 <= f v) -> 0 <= map_sum f m.
Proof.
  intros Hf. induction m as [|k v m E IH] using map_ind; [by rewrite map_sum_empty|].
  rewrite map_sum_insert_new by done. specialize (Hf v). lia.
Qed.

Lemma map_sum_lookup_le f m k v :
  (forall v, 0 <= f v) -> m !! k = Some v -> f v <= map_sum f m.
Proof.
  intros Hf E. pose proof (map_sum_delete f m k v E). 
  pose proof (map_sum_nonneg f (delete k m) Hf). lia.
Qed.

Lemma map_sum_subseteq f m1 m2 :
  (forall v, 0 <= f v) -> m1 ⊆ m2 -> map_sum f m1 <= map_sum f m2.
Proof.
  intros Hf. revert m2. induction m1 as [|k v m1 E IH] using map_ind; intros m2 Hsub.
  - rewrite map_sum_empty. by apply map_sum_nonneg.
  - assert (Hk : m2 !! k = Some v)
      by (apply (lookup_weaken _ _ _ _ (lookup_insert_eq m1 k v) Hsub)).
    rewrite map_sum_insert_new by done.
    specialize (IH (delete k m2)). rewrite (map_sum_delete _ _ _ v) in IH by done.
    assert (m1 ⊆ delete k m2); [|specialize (IH ltac:(done)); lia].
    rewrite <- (delete_insert_id m1 k v) by done. by apply delete_mono.
Qed.
End MapSum.

Lemma map_seqZ_fresh {V} (e : Z) (l : list V) :
  (map_seqZ (Z.succ e) l : gmap Z V) !! e = None.
Proof. apply lookup_map_seqZ_None. left. lia. Qed.

Lemma map_len_map_seqZ {V} (e : Z) (l : list V) : map_len (map_seqZ e l : gmap Z V) = len l.
Proof.
  revert e. induction l as [|x l IH]; intros e; [exact map_len_empty|].
  rewrite map_seqZ_cons, map_len_insert_new by apply map_seqZ_fresh.
  rewrite IH, len_cons. lia.
Qed.

Definition sum_with {A} (f : A -> Z) (l : list A) : Z := foldr (fun x acc => f x + acc) 0 l.

Lemma map_sum_map_seqZ {V} f (e : Z) (l : list V) :
  map_sum f (map_seqZ e l : gmap Z V) = sum_with f l.
Proof.
  revert e. induction l as [|x l IH]; intros e; [exact (map_sum_empty f)|].
  rewrite map_seqZ_cons, map_sum_insert_new by apply map_seqZ_fresh. by rewrite IH.
Qed.

#[export] Hint Resolve map_len_nonneg : rustdb.
#[export] Hint Rewrite @map_len_empty @map_sum_empty : rustdb.

(** The encodings are reasoned about through their lemmas. *)
#[global] Arguments be_bytes : simpl never.
#[global] Arguments of_be : simpl never.
#[global] Arguments slice : simpl never.
#[global] Arguments len : simpl never.
#[global] Arguments str_bytes : simpl never.
#[global] Arguments slen : simpl never.

(** ** Extensionality on the elements of a list *)

Lemma list_omap_ext_elem {A B} (f g : A -> option B) (l : list A) :
  (forall x, x ∈ l -> f x = g x) -> omap f l = omap g l.
Proof.
  induction l as [|x l IH]; intros H; cbn; [done|].
  rewrite (H x) by left. rewrite IH; [done|]. intros y Hy. apply H. by right.
Qed.

Lemma list_filter_iff_elem {A} (P Q : A -> Prop) `{!forall x, Decision (P x), !forall x, Decision (Q x)}
    (l : list A) :
  (forall x, x ∈ l -> P x <-> Q x) -> filter P l = filter Q l.
Proof.
  induction l as [|x l IH]; intros Hi; [done|]. rewrite !filter_cons.
  rewrite IH by (intros y Hy; apply Hi; by right).
  assert (P x <-> Q x) by (apply Hi; left). by repeat case_decide; try tauto.
Qed.

Lemma NoDup_list_filter_fst {A B} (f : A * B -> bool) (l : list (A * B)) :
  NoDup l.*1 -> NoDup (List.filter f l).*1.
Proof.
  induction l as [|[a b] l IH]; intros Hnd; [done|]. cbn in *.
  apply NoDup_cons in Hnd as [Ha Hnd]. destruct (f (a, b)); [|by apply IH].
  cbn. apply NoDup_cons. split; [|by apply IH]. contradict Ha.
  apply list_elem_of_fmap in Ha as ([a' b'] & -> & Hin). apply list_elem_of_fmap.
  apply list_elem_of_In, filter_In in Hin as [Hin _]. exists (a', b'). split; [done|].
  by apply list_elem_of_In.
Qed.

Lemma NoDup_filter_fst {A B} (P : A * B -> Prop) `{!forall x, Decision (P x)} (l : list (A * B)) :
  NoDup l.*1 -> NoDup (filter P l).*1.
Proof.
  induction l as [|[a b] l IH]; intros Hnd; [done|]. rewrite filter_cons.
  cbn in Hnd. apply NoDup_cons in Hnd as [Ha Hnd]. case_decide; [|by apply IH].
  cbn. apply NoDup_cons. split; [|by apply IH]. contradict Ha.
  apply list_elem_of_fmap in Ha as ([a' b'] & -> & Hin).
  apply list_elem_of_filter in Hin as [_ Hin]. by apply (list_elem_of_fmap_2 fst).
Qed.

Lemma seqZ_snoc base n : 0 <= n -> seqZ base n ++ [base + n] = seqZ base (n + 1).
Proof. intros. rewrite seqZ_app by lia. done. Qed.

Lemma sorted_snoc {A} (R : A -> A -> Prop) l x :
  StronglySorted R l -> Forall (fun y => R y x) l -> StronglySorted R (l ++ [x]).
Proof.
  intros HS HF. induction HS as [|y l HS IH Hy]; cbn; [by repeat constructor|].
  apply Forall_cons in HF as [H1 H2]. constructor; [auto|]. apply Forall_app. split; [done|]. by constructor.
Qed.
