(* ===== verification/GenericFrame.v ===== *)
(** * Frames of the generic routes

    Models the framing of [network-core/src/connection/generic.rs], which TCP
    and Relay routes share: magic, protocol version, kind, length, payload. *)
From S2P Require Import Prelude.

Definition MAX_CHANNEL_FRAME_BYTES : Z := 48 * 1024.
Definition GENERIC_FRAME_MAGIC : bytes := str_bytes "SMGF".
Definition GENERIC_FRAME_HEADER_BYTES : Z := 4 + 4 + 1 + 4.
Definition NETWORK_PROTOCOL_VERSION : Z := 2.

Inductive GenericFrameKind :=
| KindDataMessage
| KindDeliveryAck
| KindStreamBytes
| KindStreamOpen
| KindStreamClose.

(** [kind as u8]. *)
Definition kind_code (kind : GenericFrameKind) : Z :=
  match kind with
  | KindDataMessage => 1
  | KindDeliveryAck => 2
  | KindStreamBytes => 3
  | KindStreamOpen => 4
  | KindStreamClose => 5
  end.

Inductive ConnectionError :=
| RouteClosed
| InvalidRouteFrame
| FrameTooLarge
| RouteTransport
| RouteCancelled.

Definition kind_try_from (value : Z) : result GenericFrameKind ConnectionError :=
  match value with
  | 1 => Ok KindDataMessage
  | 2 => Ok KindDeliveryAck
  | 3 => Ok KindStreamBytes
  | 4 => Ok KindStreamOpen
  | 5 => Ok KindStreamClose
  | _ => Err InvalidRouteFrame
  end.

Record GenericInboundFrame := mkInboundFrame {
  frame_kind : GenericFrameKind;
  frame_payload : bytes;
}.

Definition encode_generic_frame (kind : GenericFrameKind) (payload : bytes) :
    result bytes ConnectionError :=
  if (len payload =? 0) || (MAX_CHANNEL_FRAME_BYTES <? len payload + GENERIC_FRAME_HEADER_BYTES)
  then Err FrameTooLarge
  else Ok (GENERIC_FRAME_MAGIC ++ be_bytes 4 NETWORK_PROTOCOL_VERSION
           ++ [byte_of_Z (kind_code kind)] ++ be_bytes 4 (len payload) ++ payload).

Definition decode_generic_frame (encoded : bytes) : result GenericInboundFrame ConnectionError :=
  if (len encoded <? GENERIC_FRAME_HEADER_BYTES)
     || negb (bool_decide (slice 0 4 encoded = GENERIC_FRAME_MAGIC))
     || negb (of_be (slice 4 8 encoded) =? NETWORK_PROTOCOL_VERSION)
  then Err InvalidRouteFrame else
  let? kind := kind_try_from (of_be (slice 8 9 encoded)) in
  let payload_len := of_be (slice 9 13 encoded) in
  if (payload_len =? 0)
     || negb (payload_len + GENERIC_FRAME_HEADER_BYTES =? len encoded)
     || (MAX_CHANNEL_FRAME_BYTES <? payload_len + GENERIC_FRAME_HEADER_BYTES)
  then Err FrameTooLarge
  else Ok (mkInboundFrame kind (slice GENERIC_FRAME_HEADER_BYTES (len encoded) encoded)).

(** ** Proofs *)

Lemma kind_of_code kind : kind_try_from (kind_code kind) = Ok kind.
Proof. by destruct kind. Qed.

Lemma kind_code_inv value kind : kind_try_from value = Ok kind -> value = kind_code kind.
Proof.
  intros H. unfold kind_try_from in H.
  repeat (match type of H with match ?v with _ => _ end = _ => destruct v; try done end);
    by injection H as <-.
Qed.

Lemma of_be_one b : of_be [b] = Z_of_byte b.
Proof. rewrite of_be_cons, len_nil. change (of_be []) with 0. lia. Qed.

(** The fixed-width field [width] of an encoding whose first fields are [l1]. *)
Lemma slice_be l1 l3 n z from :
  from = len l1 -> 0 <= z < 256 ^ Z.of_nat n ->
  of_be (slice from (from + Z.of_nat n) (l1 ++ be_bytes n z ++ l3)) = z.
Proof.
  intros -> Hz. rewrite slice_app_mid; [by apply of_be_be_bytes|done|]. by rewrite len_be_bytes.
Qed.

(** The bytes of a field that was read. *)
Lemma be_slice l from n :
  0 <= from -> from + Z.of_nat n <= len l ->
  be_bytes n (of_be (slice from (from + Z.of_nat n) l)) = slice from (from + Z.of_nat n) l.
Proof.
  intros H0 H1. pose proof (len_slice l from (from + Z.of_nat n) ltac:(lia) H1) as Hl.
  rewrite <- (be_bytes_of_be (slice from _ l)) at 2. f_equal. unfold len in Hl. lia.
Qed.

Lemma generic_decode_encode kind payload encoded :
  encode_generic_frame kind payload = Ok encoded ->
  decode_generic_frame encoded = Ok (mkInboundFrame kind payload).
Proof.
  unfold encode_generic_frame. destruct (_ || _) eqn:E; [done|]. intros <-%Ok_inj.
  unfold GENERIC_FRAME_HEADER_BYTES, MAX_CHANNEL_FRAME_BYTES in E. bool_facts.
  pose proof (len_nonneg payload).
  set (k := [byte_of_Z (kind_code kind)]). set (n := be_bytes 4 (len payload)).
  set (v := be_bytes 4 NETWORK_PROTOCOL_VERSION).
  assert (Hl : len (GENERIC_FRAME_MAGIC ++ v ++ k ++ n ++ payload) = 13 + len payload).
  { subst k n v. autorewrite with rustdb. change (len GENERIC_FRAME_MAGIC) with 4. lia. }
  unfold decode_generic_frame. rewrite Hl, (proj2 (Z.ltb_ge _ _)) by (unfold GENERIC_FRAME_HEADER_BYTES; lia).
  rewrite (slice_app_front GENERIC_FRAME_MAGIC) by done.
  rewrite bool_decide_eq_true_2 by done. cbn [negb orb].
  change 8 with (4 + Z.of_nat 4) at 1. unfold v at 1.
  rewrite slice_be by (done || (unfold NETWORK_PROTOCOL_VERSION; lia)). cbn [negb orb Z.eqb NETWORK_PROTOCOL_VERSION].
  rewrite (app_assoc _ v), (slice_app_mid (GENERIC_FRAME_MAGIC ++ v) k) by done.
  subst k. rewrite of_be_one, Z_of_byte_of_Z, Z.mod_small by (destruct kind; cbn; lia).
  rewrite kind_of_code. set (k := [byte_of_Z (kind_code kind)]).
  rewrite (app_assoc _ k). unfold n. cbv zeta.
  assert (of_be (slice 9 13 (((GENERIC_FRAME_MAGIC ++ v) ++ k) ++ be_bytes 4 (len payload) ++ payload))
          = len payload) as -> by (apply (slice_be _ _ 4); (done || lia)).
  unfold GENERIC_FRAME_HEADER_BYTES, MAX_CHANNEL_FRAME_BYTES. cbn [negb Pos.eqb].
  rewrite (proj2 (Z.eqb_neq _ _)) by lia.
  rewrite (proj2 (Z.eqb_eq _ (13 + len payload))) by lia.
  rewrite (proj2 (Z.ltb_ge _ _)) by lia. cbn [negb orb].
  rewrite (app_assoc _ (be_bytes 4 _)), slice_app_end; [done|..];
    subst v k; autorewrite with rustdb; change (len GENERIC_FRAME_MAGIC) with 4; lia.
Qed.

Lemma generic_encode_decode encoded frame :
  decode_generic_frame encoded = Ok frame ->
  encode_generic_frame (frame_kind frame) (frame_payload frame) = Ok encoded.
Proof.
  unfold decode_generic_frame. destruct (_ || _) eqn:E; [done|]. bool_facts.
  destruct (kind_try_from _) as [kind|] eqn:Hk; [|done]. apply kind_code_inv in Hk.
  destruct (_ || _) eqn:E; [done|]. bool_facts. intros [= <-]. cbn [frame_kind frame_payload].
  unfold GENERIC_FRAME_HEADER_BYTES, MAX_CHANNEL_FRAME_BYTES in *.
  set (n := of_be (slice 9 13 encoded)) in *.
  assert (Hp : len (slice 13 (len encoded) encoded) = n) by (rewrite len_slice; lia).
  unfold encode_generic_frame. change (4 + 4 + 1 + 4) with 13 in *. rewrite Hp.
  unfold MAX_CHANNEL_FRAME_BYTES, GENERIC_FRAME_HEADER_BYTES.
  rewrite (proj2 (Z.eqb_neq n 0)), (proj2 (Z.ltb_ge _ _)) by lia. cbn [orb]. f_equal.
  transitivity (slice 0 (len encoded) encoded); [|by apply slice_all].
  rewrite (slice_split encoded 0 4 (len encoded)), (slice_split encoded 4 8 (len encoded)),
    (slice_split encoded 8 9 (len encoded)), (slice_split encoded 9 13 (len encoded)) by lia.
  match goal with H : slice 0 4 _ = _ |- _ => rewrite H end. f_equal. f_equal; [|f_equal; [|f_equal]].
  - rewrite <- (be_slice encoded 4 4 ltac:(lia) ltac:(lia) : _ = slice 4 8 encoded).
    change (slice 4 (4 + Z.of_nat 4) encoded) with (slice 4 8 encoded).
    by match goal with H : of_be _ = NETWORK_PROTOCOL_VERSION |- _ => rewrite H end.
  - rewrite <- Hk.
    pose proof (len_slice encoded 8 9 ltac:(lia) ltac:(lia)) as Hl.
    destruct (slice 8 9 encoded) as [|b [|]]; [done| |rewrite !len_cons in Hl; pose proof (len_nonneg l); lia].
    by rewrite of_be_one, byte_of_Z_of_byte.
  - exact (be_slice encoded 9 4 ltac:(lia) ltac:(lia)).
Qed.

(** Framing on generic routes is a bijection: decoding an encoded frame
    gives back its kind and payload, and whatever decodes is the encoding of
    what it decodes to; the frames that can be sent are exactly those with a
    payload of 1 to [MAX_CHANNEL_FRAME_BYTES - 13] bytes. *)
Lemma generic_frame_bijection :
  (forall kind payload encoded,
     encode_generic_frame kind payload = Ok encoded ->
     decode_generic_frame encoded = Ok (mkInboundFrame kind payload)) /\
  (forall encoded frame,
     decode_generic_frame encoded = Ok frame ->
     encode_generic_frame (frame_kind frame) (frame_payload frame) = Ok encoded) /\
  (forall kind payload,
     is_ok (encode_generic_frame kind payload) = true <->
     1 <= len payload <= MAX_CHANNEL_FRAME_BYTES - 13).
Proof.
  split; [apply generic_decode_encode|]. split; [apply generic_encode_decode|].
  intros kind payload. unfold encode_generic_frame, GENERIC_FRAME_HEADER_BYTES.
  destruct (_ || _) eqn:E; cbn.
  - apply orb_true_iff in E as [E|E]; bool_facts; split; (done || lia).
  - bool_facts. pose proof (len_nonneg payload). split; [lia|done].
Qed.
