(* ===== verification/Profile.v ===== *)
(** * Routes, capabilities and the errors of peer coordination

    Models [network-core/src/connection/profile.rs] (topologies, transports and
    what a route can carry), the capability bits of [connect/mod.rs] and the
    error type of [errors.rs] that the peer and path owners return.  A
    capability mask is a [u8], kept as a [Z] under [Z.land] and [Z.lor]. *)
From S2P Require Import Prelude.

(** ** Errors ([errors.rs]) *)

Inductive CoreNetworkError :=
| InvalidPeerId | MailboxFull | SupervisorStopping | DuplicateCommand | InvalidCommandId
| NoRouteError | CancelledError | StaleAttempt | StaleIntent | CapabilityUnavailable
| ResourceLimit (what : string).

#[export] Instance CoreNetworkError_eq_dec : EqDecision CoreNetworkError.
Proof. solve_decision. Defined.

(** ** Routes ([connection/profile.rs]) *)

Inductive RouteTopology := Direct | Relay.
Inductive RouteTransport := Quic | Tcp | Udp | WebSocket.
Inductive ConnectionCapability := CapReliableStream | CapReliableMessage | CapUnreliableDatagram.
Inductive RouteType := RouteUnspecified | QuicDirect | RouteRelay | Lan.

#[export] Instance RouteTopology_eq_dec : EqDecision RouteTopology.
Proof. solve_decision. Defined.
#[export] Instance RouteTransport_eq_dec : EqDecision RouteTransport.
Proof. solve_decision. Defined.
#[export] Instance RouteType_eq_dec : EqDecision RouteType.
Proof. solve_decision. Defined.

(** [Route]; a [ConnectionProfile] is a route and nothing else. *)
Record ConnectionProfile := mkProfile { topology : RouteTopology; transport : RouteTransport }.

#[export] Instance ConnectionProfile_eq_dec : EqDecision ConnectionProfile.
Proof. solve_decision. Defined.

Definition supports (p : ConnectionProfile) (capability : ConnectionCapability) : bool :=
  match topology p, transport p, capability with
  | _, (Tcp | Quic), (CapReliableStream | CapReliableMessage) => true
  | _, WebSocket, CapReliableMessage => true
  | Relay, WebSocket, CapReliableStream => true
  | _, (Udp | Quic), CapUnreliableDatagram => true
  | _, _, _ => false
  end.

Definition from_wire (route : RouteType) : option ConnectionProfile :=
  match route with
  | QuicDirect | Lan => Some (mkProfile Direct Quic)
  | RouteRelay => Some (mkProfile Relay WebSocket)
  | RouteUnspecified => None
  end.

Definition to_wire (p : ConnectionProfile) : option RouteType :=
  match topology p, transport p with
  | Direct, Quic => Some QuicDirect
  | Relay, WebSocket => Some RouteRelay
  | _, _ => None
  end.

(** [ConnectionRouteSelector::select]; a candidate is a route and whether it is
    available. *)
Definition select_route (capability : ConnectionCapability)
    (candidates : list (ConnectionProfile * bool)) : option ConnectionProfile :=
  head (filter (fun p => supports p capability = true) (filter (fun c => c.2 = true) candidates).*1).

(** ** Capability bits ([connect/mod.rs]) *)

Definition CAPABILITY_RELIABLE_MESSAGE : Z := 1.
Definition CAPABILITY_RELIABLE_STREAM : Z := 2.
Definition CAPABILITY_UNRELIABLE_DATAGRAM : Z := 4.
Definition DEFAULT_CONNECTION_CAPABILITY : Z :=
  Z.lor CAPABILITY_RELIABLE_MESSAGE CAPABILITY_RELIABLE_STREAM.

Definition profile_capability_mask (p : ConnectionProfile) : Z :=
  let mask := if supports p CapReliableMessage then CAPABILITY_RELIABLE_MESSAGE else 0 in
  let mask := if supports p CapReliableStream then Z.lor mask CAPABILITY_RELIABLE_STREAM else mask in
  if supports p CapUnreliableDatagram then Z.lor mask CAPABILITY_UNRELIABLE_DATAGRAM else mask.

(** [provided & required == required], the test the source writes out wherever
    a path or an earlier request may answer a new one. *)
Definition covers (provided required : Z) : bool := Z.land provided required =? required.

Definition profile_satisfies (p : ConnectionProfile) (required : Z) : bool :=
  covers (profile_capability_mask p) required.

Inductive CommunicationClass :=
| ClassUnspecified | ReliableStream | ReliableMessage | BulkTransfer | UnreliableDatagram
| RealtimeMedia.

Definition default_communication_class (class : CommunicationClass) : CommunicationClass :=
  match class with ClassUnspecified => ReliableMessage | other => other end.

(** ** Lemmas *)

(** [covers] is the order of the capability lattice. *)
Lemma covers_spec provided required :
  covers provided required = true <->
  forall n, 0 <= n -> Z.testbit required n = true -> Z.testbit provided n = true.
Proof.
  unfold covers. rewrite Z.eqb_eq. split.
  - intros E n Hn Hr. rewrite <- E, Z.land_spec in Hr. by apply andb_true_iff in Hr as [? _].
  - intros H. apply Z.bits_inj'. intros n Hn. rewrite Z.land_spec.
    destruct (Z.testbit required n) eqn:E; [by rewrite (H n Hn E)|]. apply andb_false_r.
Qed.

Lemma covers_refl a : covers a a = true.
Proof. by apply covers_spec. Qed.

Lemma covers_trans a b c : covers a b = true -> covers b c = true -> covers a c = true.
Proof. rewrite !covers_spec. eauto. Qed.

Lemma covers_lor a b c : covers a (Z.lor b c) = true <-> covers a b = true /\ covers a c = true.
Proof.
  rewrite !covers_spec. split.
  - intros H; split; intros n Hn E; apply H; try done; rewrite Z.lor_spec, E; [done|apply orb_true_r].
  - intros [Hb Hc] n Hn. rewrite Z.lor_spec, orb_true_iff. intros [E|E]; eauto.
Qed.

Lemma covers_zero a : covers a 0 = true.
Proof. apply covers_spec. intros n _. by rewrite Z.testbit_0_l. Qed.

#[export] Hint Resolve covers_refl covers_zero : rustdb.
