(* ===== verification/Crypto.v ===== *)
(** * Application cryptography: replay window, traffic context, envelopes

    Models [network-core/src/crypto/mod.rs] and [crypto/context.rs]: the
    bounded nonce window, the session-owned AEAD context with its epochs and
    counters, and the [SME1] envelope.  HKDF-SHA256 and AES-256-GCM are
    library code: they are the operations of [CryptoPrims], and what the
    theorems need of them is in [CryptoLaws]. *)
From S2P Require Import Prelude.

(** ** Constants, suites, errors *)

Definition ascii_bytes (s : string) : bytes := str_bytes s.

Definition INITIATOR_TO_RESPONDER_KDF_INFO : bytes :=
  ascii_bytes "ssh-mobile/session/application/initiator-to-responder/v2".
Definition RESPONDER_TO_INITIATOR_KDF_INFO : bytes :=
  ascii_bytes "ssh-mobile/session/application/responder-to-initiator/v2".
Definition NONCE_PREFIX_KDF_INFO : bytes :=
  ascii_bytes "ssh-mobile/session/application/nonce-prefix/v2".
Definition ENVELOPE_MAGIC : bytes := ascii_bytes "SME1".
Definition ENVELOPE_VERSION : byte := Byte.x01.
Definition GCM_NONCE_BYTES : Z := 12.
Definition GCM_TAG_BYTES : Z := 16.
Definition ENVELOPE_HEADER_BYTES : Z := 4 + 1 + 1 + 8 + GCM_NONCE_BYTES.
Definition REPLAY_WINDOW_CAPACITY : Z := 4096.
Definition MAX_RETAINED_KEY_EPOCHS : Z := 4.
Definition MAX_MESSAGES_PER_KEY : Z := 1048576.
Definition MAX_BYTES_PER_KEY : Z := Z.shiftl 1 30.
Definition NONCE_PREFIX_BYTES : Z := 4.

Definition is_application_envelope (b : bytes) : bool :=
  (len ENVELOPE_MAGIC <=? len b) && bool_decide (slice 0 (len ENVELOPE_MAGIC) b = ENVELOPE_MAGIC).

Inductive CryptoSuite := HkdfSha256Aes256GcmV1.

#[export] Instance CryptoSuite_eq_dec : EqDecision CryptoSuite.
Proof. solve_decision. Defined.

Definition suite_code (s : CryptoSuite) : byte :=
  match s with HkdfSha256Aes256GcmV1 => Byte.x01 end.

Definition suite_from_code (b : byte) : option CryptoSuite :=
  if bool_decide (b = Byte.x01) then Some HkdfSha256Aes256GcmV1 else None.

Inductive CryptoError :=
| InvalidEnvelope
| InvalidKey
| KeyDerivation
| Encryption
| Decryption
| SequenceOverflow
| ReplayDetected
| NonceReuse
| KeyEpochUnavailable
| NoncePrefixMismatch
| E2eeRequired
| StateUnavailable.

#[export] Instance CryptoError_eq_dec : EqDecision CryptoError.
Proof. solve_decision. Defined.

(** ** The replay window *)

Record ReplayWindow := mkWindow {
  capacity : Z;
  seen : gset bytes;
  order : list bytes;
}.

Definition window_new (cap : Z) : ReplayWindow :=
  {| capacity := Z.max cap 1; seen := ∅; order := [] |}.

Definition window_default : ReplayWindow := window_new REPLAY_WINDOW_CAPACITY.

(** The [while self.order.len() > self.capacity] loop of [reserve]. *)
Fixpoint evict (cap : Z) (ord : list bytes) (sn : gset bytes) : list bytes * gset bytes :=
  match ord with
  | [] => ([], sn)
  | oldest :: rest =>
    if cap <? len ord then evict cap rest (sn ∖ {[oldest]}) else (ord, sn)
  end.

Definition reserve (nonce : bytes) : SE ReplayWindow CryptoError unit := fun w =>
  if bool_decide (nonce ∈ seen w) then (Err NonceReuse, w)
  else
    let '(ord, sn) := evict (capacity w) (order w ++ [nonce]) ({[nonce]} ∪ seen w) in
    (Ok tt, {| capacity := capacity w; seen := sn; order := ord |}).

Definition accept_received (nonce : bytes) : SE ReplayWindow CryptoError unit := fun w =>
  if bool_decide (nonce ∈ seen w) then (Err ReplayDetected, w)
  else
    let '(r, w') := reserve nonce w in
    (map_err (fun _ => ReplayDetected) r, w').

(** ** Primitives *)

Class CryptoPrims := {
  (** [Hkdf::<Sha256>::new(Some(salt), ikm).expand(info, &mut [u8; 32])]. *)
  hkdf_sha256_32 : bytes -> bytes -> bytes -> option bytes;
  (** [Aes256Gcm::encrypt]/[decrypt] with key, nonce, associated data. *)
  aead_encrypt : bytes -> bytes -> bytes -> bytes -> option bytes;
  aead_decrypt : bytes -> bytes -> bytes -> bytes -> option bytes;
}.

(** Documented behaviour of the two libraries: a 32-byte HKDF expansion does
    not fail and fills the buffer; decryption inverts encryption; a
    ciphertext carries its 16-byte tag; and, the cipher being deterministic,
    what decrypts is the encryption of what it decrypts to. *)
Class CryptoLaws (P : CryptoPrims) : Prop := {
  hkdf_total : forall ikm salt info, exists k,
    hkdf_sha256_32 ikm salt info = Some k /\ len k = 32;
  aead_correct : forall k n a m c,
    aead_encrypt k n a m = Some c -> aead_decrypt k n a c = Some m;
  aead_length : forall k n a m c,
    aead_encrypt k n a m = Some c -> len c = len m + GCM_TAG_BYTES;
  aead_authentic : forall k n a m c,
    aead_decrypt k n a c = Some m -> aead_encrypt k n a m = Some c;
}.

(** ** The traffic context *)

Record CryptoContext := mkContext {
  suite : CryptoSuite;
  root_key : bytes;
  tx_info : bytes;
  rx_info : bytes;
  send_epoch : Z;
  receive_epoch : Z;
  send_counter : Z;
  messages_in_epoch : Z;
  bytes_in_epoch : Z;
  send_window : ReplayWindow;
  receive_window : ReplayWindow;
}.

Definition from_session_root (root : bytes) (initiator : bool) : CryptoContext :=
  let '(tx, rx) :=
    if initiator
    then (INITIATOR_TO_RESPONDER_KDF_INFO, RESPONDER_TO_INITIATOR_KDF_INFO)
    else (RESPONDER_TO_INITIATOR_KDF_INFO, INITIATOR_TO_RESPONDER_KDF_INFO) in
  {| suite := HkdfSha256Aes256GcmV1; root_key := root; tx_info := tx; rx_info := rx;
     send_epoch := 0; receive_epoch := 0; send_counter := 0;
     messages_in_epoch := 0; bytes_in_epoch := 0;
     send_window := window_default; receive_window := window_default |}.

Definition current_epoch (c : CryptoContext) : Z := Z.max (send_epoch c) (receive_epoch c).

(** Field assignments. *)
Definition set_send_state (e ctr msgs bts : Z) (c : CryptoContext) : CryptoContext :=
  {| suite := suite c; root_key := root_key c; tx_info := tx_info c; rx_info := rx_info c;
     send_epoch := e; receive_epoch := receive_epoch c; send_counter := ctr;
     messages_in_epoch := msgs; bytes_in_epoch := bts;
     send_window := send_window c; receive_window := receive_window c |}.
Definition set_send_window (w : ReplayWindow) (c : CryptoContext) : CryptoContext :=
  {| suite := suite c; root_key := root_key c; tx_info := tx_info c; rx_info := rx_info c;
     send_epoch := send_epoch c; receive_epoch := receive_epoch c;
     send_counter := send_counter c;
     messages_in_epoch := messages_in_epoch c; bytes_in_epoch := bytes_in_epoch c;
     send_window := w; receive_window := receive_window c |}.
Definition set_receive (e : Z) (w : ReplayWindow) (c : CryptoContext) : CryptoContext :=
  {| suite := suite c; root_key := root_key c; tx_info := tx_info c; rx_info := rx_info c;
     send_epoch := send_epoch c; receive_epoch := e; send_counter := send_counter c;
     messages_in_epoch := messages_in_epoch c; bytes_in_epoch := bytes_in_epoch c;
     send_window := send_window c; receive_window := w |}.

Definition rotate_key : SE CryptoContext CryptoError Z := fun c =>
  match checked_add u64_max (send_epoch c) 1 with
  | None => (Err SequenceOverflow, c)
  | Some next => (Ok next, set_send_state next 0 0 0 c)
  end.

Section Context.
Context `{P : CryptoPrims}.

Definition derive_material (ikm salt info : bytes) : result bytes CryptoError :=
  ok_or (hkdf_sha256_32 ikm salt info) KeyDerivation.

Definition epoch_key (c : CryptoContext) (info : bytes) (epoch : Z) : result bytes CryptoError :=
  derive_material (root_key c) [] (info ++ be_bytes 8 epoch).

Definition nonce_prefix (c : CryptoContext) (info : bytes) (epoch : Z) : result bytes CryptoError :=
  let? key := epoch_key c info epoch in
  derive_material key [] NONCE_PREFIX_KDF_INFO.

(** [Aes256Gcm::new_from_slice]: the key must be 32 bytes. *)
Definition cipher_new (key : bytes) : result bytes CryptoError :=
  if len key =? 32 then Ok key else Err InvalidKey.

Definition next_nonce : SE CryptoContext CryptoError bytes := fun c =>
  let counter := send_counter c in
  match checked_add u64_max counter 1 with
  | None => (Err SequenceOverflow, c)
  | Some next =>
    let c := set_send_state (send_epoch c) next (messages_in_epoch c) (bytes_in_epoch c) c in
    match nonce_prefix c (tx_info c) (send_epoch c) with
    | Err e => (Err e, c)
    | Ok prefix => (Ok (slice 0 NONCE_PREFIX_BYTES prefix ++ be_bytes 8 counter), c)
    end
  end.

Definition encrypt_with_nonce (aad plaintext nonce : bytes) : SE CryptoContext CryptoError bytes :=
  fun c =>
  match reserve nonce (send_window c) with
  | (Err e, w) => (Err e, set_send_window w c)
  | (Ok _, w) =>
    let c := set_send_window w c in
    (let? key := epoch_key c (tx_info c) (send_epoch c) in
     let? cipher := cipher_new key in
     let? ciphertext := ok_or (aead_encrypt cipher nonce aad plaintext) Encryption in
     Ok (ENVELOPE_MAGIC ++ [ENVELOPE_VERSION] ++ [suite_code (suite c)]
         ++ be_bytes 8 (send_epoch c) ++ nonce ++ ciphertext), c)
  end.

(** The rotation test of [encrypt]. *)
Definition must_rotate (c : CryptoContext) (plaintext_bytes : Z) : bool :=
  (MAX_MESSAGES_PER_KEY <=? messages_in_epoch c)
  || (saturating_sub MAX_BYTES_PER_KEY plaintext_bytes <? bytes_in_epoch c).

(** The two counter updates after a successful encryption. *)
Definition count_message (plaintext_bytes : Z) : SE CryptoContext CryptoError unit := fun c =>
  match checked_add u64_max (messages_in_epoch c) 1 with
  | None => (Err SequenceOverflow, c)
  | Some m =>
    let c := set_send_state (send_epoch c) (send_counter c) m (bytes_in_epoch c) c in
    match checked_add u64_max (bytes_in_epoch c) plaintext_bytes with
    | None => (Err SequenceOverflow, c)
    | Some b => (Ok tt, set_send_state (send_epoch c) (send_counter c) m b c)
    end
  end.

Definition encrypt (aad plaintext : bytes) : SE CryptoContext CryptoError bytes :=
  let plaintext_bytes := len plaintext in
  if u64_max <? plaintext_bytes then se_fail SequenceOverflow else
  c ← se_get;
  _ ← (if must_rotate c plaintext_bytes then rotate_key else mret 0);
  nonce ← next_nonce;
  envelope ← encrypt_with_nonce aad plaintext nonce;
  _ ← count_message plaintext_bytes;
  mret envelope.

Definition decrypt_internal (aad envelope : bytes) (allow_authenticated_replay : bool) :
    SE CryptoContext CryptoError bytes := fun c =>
  if (len envelope <? ENVELOPE_HEADER_BYTES + GCM_TAG_BYTES)
     || negb (bool_decide (slice 0 (len ENVELOPE_MAGIC) envelope = ENVELOPE_MAGIC))
     || negb (bool_decide (slice 4 5 envelope = [ENVELOPE_VERSION]))
  then (Err InvalidEnvelope, c)
  else match suite_from_code (default Byte.x00 (envelope !! 5%nat)) with
  | None => (Err InvalidEnvelope, c)
  | Some st =>
    if negb (bool_decide (st = suite c)) then (Err InvalidEnvelope, c) else
    let epoch := of_be (slice 6 14 envelope) in
    if (saturating_add u64_max (receive_epoch c) 1 <? epoch)
       || (MAX_RETAINED_KEY_EPOCHS <=? saturating_sub (receive_epoch c) epoch)
    then (Err KeyEpochUnavailable, c)
    else
      let nonce := slice 14 26 envelope in
      match nonce_prefix c (rx_info c) epoch with
      | Err e => (Err e, c)
      | Ok prefix =>
        if negb (bool_decide (slice 0 NONCE_PREFIX_BYTES nonce = slice 0 NONCE_PREFIX_BYTES prefix))
        then (Err NoncePrefixMismatch, c)
        else
          match
            (let? key := epoch_key c (rx_info c) epoch in
             let? cipher := cipher_new key in
             ok_or (aead_decrypt cipher nonce aad
                      (slice ENVELOPE_HEADER_BYTES (len envelope) envelope)) Decryption)
          with
          | Err e => (Err e, c)
          | Ok clear =>
            let advance w := set_receive
              (if receive_epoch c <? epoch then epoch else receive_epoch c) w c in
            if bool_decide (nonce ∈ seen (receive_window c)) then
              if negb allow_authenticated_replay then (Err ReplayDetected, c)
              else (Ok clear, advance (receive_window c))
            else
              match accept_received nonce (receive_window c) with
              | (Err e, w) => (Err e, set_receive (receive_epoch c) w c)
              | (Ok _, w) => (Ok clear, advance w)
              end
          end
      end
  end.

Definition decrypt (aad envelope : bytes) : SE CryptoContext CryptoError bytes :=
  decrypt_internal aad envelope false.

Definition decrypt_for_delivery (aad envelope : bytes) : SE CryptoContext CryptoError bytes :=
  decrypt_internal aad envelope true.
End Context.

#[global] Arguments encrypt : simpl never.
#[global] Arguments decrypt : simpl never.
#[global] Arguments decrypt_for_delivery : simpl never.
#[global] Arguments decrypt_internal : simpl never.

(** ** The window remembers exactly the last [capacity] accepted nonces *)

(** Specification: the accepted history, oldest first, and its recent part. *)
Definition recent (cap : Z) (h : list bytes) : list bytes :=
  drop (Z.to_nat (len h - cap)) h.

Definition window_repr (cap : Z) (h : list bytes) (w : ReplayWindow) : Prop :=
  capacity w = cap /\ order w = recent cap h /\ seen w = list_to_set (order w) /\ NoDup (order w).

Definition spec_accept (cap : Z) (nonce : bytes) (h : list bytes) : bool * list bytes :=
  if bool_decide (nonce ∈ recent cap h) then (false, h) else (true, h ++ [nonce]).

(** Runs of the implementation and of the specification over a sequence of
    received nonces. *)
Fixpoint run_window (ns : list bytes) (w : ReplayWindow) : list bool * ReplayWindow :=
  match ns with
  | [] => ([], w)
  | n :: ns' =>
    let '(r, w1) := accept_received n w in
    let '(rs, w2) := run_window ns' w1 in (is_ok r :: rs, w2)
  end.

Fixpoint run_spec (cap : Z) (ns : list bytes) (h : list bytes) : list bool * list bytes :=
  match ns with
  | [] => ([], h)
  | n :: ns' =>
    let '(r, h1) := spec_accept cap n h in
    let '(rs, h2) := run_spec cap ns' h1 in (r :: rs, h2)
  end.

Lemma evict_spec cap ord sn :
  1 <= cap -> NoDup ord -> sn = list_to_set ord ->
  evict cap ord sn = (recent cap ord, list_to_set (recent cap ord)).
Proof.
  intros Hcap. revert sn. induction ord as [|x ord IH]; intros sn Hnd ->; cbn [evict].
  { unfold recent. cbn. by rewrite drop_nil. }
  apply NoDup_cons in Hnd as [Hx Hnd].
  destruct (cap <? len (x :: ord)) eqn:E; bool_facts.
  - rewrite IH; [|done|].
    + unfold recent. rewrite len_cons in *.
      replace (Z.to_nat (1 + len ord - cap)) with (S (Z.to_nat (len ord - cap))) by lia. done.
    + cbn. apply set_eq. intros y. rewrite elem_of_difference, elem_of_union, !elem_of_list_to_set,
        !elem_of_singleton. set_solver.
  - unfold recent. replace (Z.to_nat (len (x :: ord) - cap)) with O by lia. done.
Qed.

Lemma recent_snoc cap h n :
  1 <= cap -> recent cap (recent cap h ++ [n]) = recent cap (h ++ [n]).
Proof.
  intros Hcap. unfold recent. rewrite !len_app. unfold len. rewrite length_drop.
  cbn [length]. rewrite <- (drop_app_le h [n]) by lia.
  rewrite drop_drop. f_equal. lia.
Qed.

Lemma NoDup_snoc {A} (l : list A) x : NoDup l -> x ∉ l -> NoDup (l ++ [x]).
Proof.
  intros Hl Hx. apply NoDup_app. split; [done|]. split; [|by apply NoDup_singleton].
  intros y Hy ->%list_elem_of_singleton. done.
Qed.

Lemma NoDup_drop {A} n (l : list A) : NoDup l -> NoDup (drop n l).
Proof. intros H. rewrite <- (take_drop n l) in H. by apply NoDup_app in H as (_ & _ & ?). Qed.

(** One reservation refines one specification step. *)
Lemma reserve_repr cap h w n :
  1 <= cap -> window_repr cap h w -> n ∉ recent cap h ->
  exists w', reserve n w = (Ok tt, w') /\ window_repr cap (h ++ [n]) w'.
Proof.
  intros Hcap (Hc & Ho & Hs & Hnd) Hn.
  unfold reserve. rewrite bool_decide_eq_false_2 by (rewrite Hs, elem_of_list_to_set, Ho; done).
  rewrite Hc, evict_spec; [|done| |].
  - eexists. split; [done|]. rewrite Ho, recent_snoc by done.
    split; [done|]. cbn. split; [done|]. split; [done|].
    rewrite <- recent_snoc by done. apply NoDup_drop. apply NoDup_snoc; [by rewrite <- Ho|done].
  - apply NoDup_snoc; [done|]. by rewrite Ho.
  - rewrite Hs. apply set_eq. intros y. rewrite elem_of_union, !elem_of_list_to_set, elem_of_app. set_solver.
Qed.

Lemma window_repr_seen cap h w n :
  window_repr cap h w -> n ∈ seen w <-> n ∈ recent cap h.
Proof. intros (_ & Ho & Hs & _). by rewrite Hs, elem_of_list_to_set, Ho. Qed.

Lemma accept_received_repr cap h w n :
  1 <= cap -> window_repr cap h w ->
  let '(r, w') := accept_received n w in
  let '(b, h') := spec_accept cap n h in
  is_ok r = b /\ window_repr cap h' w' /\ (b = false -> r = Err ReplayDetected /\ w' = w).
Proof.
  intros Hcap Hr. unfold accept_received, spec_accept.
  pose proof (window_repr_seen cap h w n Hr) as Hseen.
  destruct (decide (n ∈ recent cap h)) as [Hin|Hin].
  - rewrite !bool_decide_eq_true_2 by (done || by apply Hseen). done.
  - rewrite !bool_decide_eq_false_2 by (done || by rewrite Hseen).
    destruct (reserve_repr cap h w n Hcap Hr Hin) as (w' & -> & Hw'). done.
Qed.

Lemma window_new_repr cap : window_repr (Z.max cap 1) [] (window_new cap).
Proof. unfold window_repr, window_new, recent; cbn. rewrite drop_nil. repeat split. constructor. Qed.

Lemma run_window_repr cap ns h w :
  1 <= cap -> window_repr cap h w ->
  (run_window ns w).1 = (run_spec cap ns h).1
  /\ window_repr cap (run_spec cap ns h).2 (run_window ns w).2.
Proof.
  intros Hcap. revert h w. induction ns as [|n ns IH]; intros h w Hr; cbn; [done|].
  pose proof (accept_received_repr cap h w n Hcap Hr) as Hstep.
  destruct (accept_received n w) as [r w1], (spec_accept cap n h) as [b h1].
  destruct Hstep as (Hb & Hr1 & _). destruct (IH h1 w1 Hr1) as [Hres Hfin].
  destruct (run_window ns w1), (run_spec cap ns h1); cbn in *. by subst.
Qed.

(** C1: the replay window implements its specification.  For every capacity
    and every sequence of received nonces, a fresh [ReplayWindow] accepts
    and rejects exactly as the history-based specification does (reject a
    nonce exactly when it is among the last [capacity] accepted ones), and
    ends holding exactly those last accepted nonces, in order and without
    duplicates, at most [capacity] of them. *)
Theorem replay_window_refines_history (cap : Z) (ns : list bytes) :
  let w := (run_window ns (window_new cap)).2 in
  let h := (run_spec (Z.max cap 1) ns []).2 in
  (run_window ns (window_new cap)).1 = (run_spec (Z.max cap 1) ns []).1
  /\ order w = recent (Z.max cap 1) h
  /\ seen w = list_to_set (order w) /\ NoDup (order w)
  /\ len (order w) <= Z.max cap 1.
Proof.
  cbv zeta.
  destruct (run_window_repr (Z.max cap 1) ns [] (window_new cap)) as [Hres (Hc & Ho & Hs & Hn)];
    [lia|apply window_new_repr|].
  split_and!; [done..|]. rewrite Ho. unfold recent, len. rewrite length_drop. lia.
Qed.
