(* ===== verification/CryptoProofs.v ===== *)
(** * Theorems about the traffic context

    Nonce uniqueness over arbitrary schedules, per-key usage limits, error
    atomicity and canonicity of decryption, replay rejection, and the
    in-order session round trip between the two ends of a session. *)
From S2P Require Import Prelude Crypto.

(** ** Schedules of a context *)

(** What a session does with its context, in any order. *)
Inductive ctx_op :=
| OpEncrypt (aad plaintext : bytes)
| OpRotate
| OpDecrypt (aad envelope : bytes) (allow_authenticated_replay : bool).

(** The position of the next nonce: key epoch and counter. *)
Definition position (c : CryptoContext) : Z * Z := (send_epoch c, send_counter c).

Definition lex_lt (p q : Z * Z) : Prop := p.1 < q.1 \/ (p.1 = q.1 /\ p.2 < q.2).
Definition lex_le (p q : Z * Z) : Prop := p = q \/ lex_lt p q.

(** Epoch and nonce of an envelope: what must never repeat under one root. *)
Definition envelope_id (env : bytes) : bytes := slice 6 26 env.

(** The bytes of a position under a given 4-byte prefix. *)
Definition position_bytes (prefix : bytes) (p : Z * Z) : bytes :=
  be_bytes 8 p.1 ++ prefix ++ be_bytes 8 p.2.

Definition ctx_wf (c : CryptoContext) : Prop :=
  is_u64 (send_epoch c) /\ is_u64 (send_counter c) /\ 0 <= messages_in_epoch c /\
  0 <= bytes_in_epoch c /\ is_u64 (receive_epoch c).

Section Schedules.
Context `{P : CryptoPrims}.

Definition ctx_step (op : ctx_op) (c : CryptoContext) : option bytes * CryptoContext :=
  match op with
  | OpEncrypt aad pt =>
    match encrypt aad pt c with (Ok env, c') => (Some env, c') | (Err _, c') => (None, c') end
  | OpRotate => (None, (rotate_key c).2)
  | OpDecrypt aad env allow => (None, (decrypt_internal aad env allow c).2)
  end.

Fixpoint ctx_run (ops : list ctx_op) (c : CryptoContext) : list bytes * CryptoContext :=
  match ops with
  | [] => ([], c)
  | op :: ops' =>
    let '(o, c1) := ctx_step op c in
    let '(es, c2) := ctx_run ops' c1 in (option_list o ++ es, c2)
  end.

(** One end sends a list of (associated data, plaintext) pairs; the other
    receives the resulting frames, stopping at the first failure. *)
Fixpoint send_all (msgs : list (bytes * bytes)) (c : CryptoContext) :
    option (list bytes) * CryptoContext :=
  match msgs with
  | [] => (Some [], c)
  | (aad, pt) :: msgs' =>
    match encrypt aad pt c with
    | (Err _, c1) => (None, c1)
    | (Ok env, c1) => let '(r, c2) := send_all msgs' c1 in (cons env <$> r, c2)
    end
  end.

Fixpoint recv_all (frames : list (bytes * bytes)) (c : CryptoContext) :
    option (list bytes) * CryptoContext :=
  match frames with
  | [] => (Some [], c)
  | (aad, env) :: frames' =>
    match decrypt aad env c with
    | (Err _, c1) => (None, c1)
    | (Ok pt, c1) => let '(r, c2) := recv_all frames' c1 in (cons pt <$> r, c2)
    end
  end.
End Schedules.

(** ** Basic facts *)

Lemma lex_le_refl p : lex_le p p.
Proof. by left. Qed.

Lemma lex_lt_trans p q r : lex_lt p q -> lex_lt q r -> lex_lt p r.
Proof. unfold lex_lt. destruct p, q, r; cbn. lia. Qed.

Lemma lex_le_lt_trans p q r : lex_le p q -> lex_lt q r -> lex_lt p r.
Proof. intros [->|H] ?; [done|]. by eapply lex_lt_trans. Qed.

Lemma lex_lt_le_trans p q r : lex_lt p q -> lex_le q r -> lex_lt p r.
Proof. intros ? [<-|H]; [done|]. by eapply lex_lt_trans. Qed.

Lemma lex_le_trans p q r : lex_le p q -> lex_le q r -> lex_le p r.
Proof. intros [->|H] H2; [done|]. right. by eapply lex_lt_le_trans. Qed.

Lemma lex_lt_irrefl p : ~ lex_lt p p.
Proof. unfold lex_lt. lia. Qed.

#[export] Hint Resolve lex_le_refl : rustdb.

Lemma checked_add_Some max a b r : checked_add max a b = Some r -> r = a + b /\ a + b <= max.
Proof. unfold checked_add. intros H. destruct_match_in H; simplify_eq. bool_facts. lia. Qed.

Ltac checked :=
  repeat match goal with
  | H : checked_add _ _ _ = Some _ |- _ => apply checked_add_Some in H as [? ?]
  end.

Lemma rotate_key_spec c r c' :
  rotate_key c = (r, c') ->
  (c' = c /\ r = Err SequenceOverflow) \/
  (r = Ok (send_epoch c + 1) /\ send_epoch c + 1 <= u64_max
   /\ c' = set_send_state (send_epoch c + 1) 0 0 0 c).
Proof.
  unfold rotate_key. intros H. destruct_match_in H; simplify_eq; [|by left].
  checked. subst. by right.
Qed.

Section Encrypt.
Context {P : CryptoPrims} {L : CryptoLaws P}.

Lemma derive_material_ok ikm salt info :
  exists k, derive_material ikm salt info = Ok k /\ len k = 32.
Proof. unfold derive_material. destruct (hkdf_total ikm salt info) as (k & -> & Hk). by exists k. Qed.

Lemma epoch_key_ok c info e : exists k, epoch_key c info e = Ok k /\ len k = 32.
Proof. apply derive_material_ok. Qed.

Lemma nonce_prefix_ok c info e : exists p, nonce_prefix c info e = Ok p /\ len p = 32.
Proof.
  unfold nonce_prefix. destruct (epoch_key_ok c info e) as (k & -> & _).
  apply derive_material_ok.
Qed.

Lemma cipher_new_ok k : len k = 32 -> cipher_new k = Ok k.
Proof. intros H. unfold cipher_new. by rewrite H. Qed.

(** The 4-byte nonce prefix of an epoch, as a total function. *)
Definition prefix_of (root info : bytes) (e : Z) : bytes :=
  match nonce_prefix (from_session_root root true) info e with
  | Ok p => slice 0 NONCE_PREFIX_BYTES p
  | Err _ => []
  end.
Definition key_of (root info : bytes) (e : Z) : bytes :=
  match epoch_key (from_session_root root true) info e with Ok k => k | Err _ => [] end.

Lemma nonce_prefix_of c info e :
  exists p, nonce_prefix c info e = Ok p
    /\ slice 0 NONCE_PREFIX_BYTES p = prefix_of (root_key c) info e
    /\ len (prefix_of (root_key c) info e) = 4.
Proof.
  destruct (nonce_prefix_ok c info e) as (p & Hp & Hl). exists p. split; [done|].
  assert (prefix_of (root_key c) info e = slice 0 NONCE_PREFIX_BYTES p) as Heq.
  { unfold prefix_of, nonce_prefix, epoch_key in *. cbn. by rewrite Hp. }
  rewrite Heq. split; [done|]. unfold NONCE_PREFIX_BYTES. rewrite len_slice; lia.
Qed.

Lemma epoch_key_of c info e :
  epoch_key c info e = Ok (key_of (root_key c) info e) /\ len (key_of (root_key c) info e) = 32.
Proof.
  destruct (epoch_key_ok c info e) as (k & Hk & Hl).
  assert (key_of (root_key c) info e = k) as ->.
  { unfold key_of, epoch_key in *. cbn. by rewrite Hk. }
  done.
Qed.

(** Layout of an emitted envelope. *)
Definition mk_envelope (st : CryptoSuite) (e : Z) (nonce ct : bytes) : bytes :=
  ENVELOPE_MAGIC ++ [ENVELOPE_VERSION] ++ [suite_code st] ++ be_bytes 8 e ++ nonce ++ ct.

Lemma envelope_id_mk st e prefix ctr ct :
  len prefix = 4 ->
  envelope_id (mk_envelope st e (prefix ++ be_bytes 8 ctr) ct) = position_bytes prefix (e, ctr).
Proof.
  intros Hp. unfold envelope_id, mk_envelope, position_bytes. cbn [fst snd].
  replace (ENVELOPE_MAGIC ++ [ENVELOPE_VERSION] ++ [suite_code st] ++ be_bytes 8 e
           ++ (prefix ++ be_bytes 8 ctr) ++ ct)
    with ((ENVELOPE_MAGIC ++ [ENVELOPE_VERSION] ++ [suite_code st])
           ++ (be_bytes 8 e ++ prefix ++ be_bytes 8 ctr) ++ ct)
    by (by rewrite <- !app_assoc).
  apply slice_app_mid; autorewrite with rustdb; [done|]. rewrite Hp. done.
Qed.

(** The steps of [encrypt]. *)
Lemma next_nonce_spec c r c' :
  next_nonce c = (r, c') ->
  (r = Err SequenceOverflow /\ c' = c) \/
  (send_counter c + 1 <= u64_max
   /\ r = Ok (prefix_of (root_key c) (tx_info c) (send_epoch c) ++ be_bytes 8 (send_counter c))
   /\ c' = set_send_state (send_epoch c) (send_counter c + 1)
            (messages_in_epoch c) (bytes_in_epoch c) c).
Proof.
  unfold next_nonce. intros H. destruct_match_in H; simplify_eq; [|by left]. right.
  checked. subst.
  match type of H with context [nonce_prefix ?c0 ?i ?e] =>
    destruct (nonce_prefix_of c0 i e) as (p & Hp & Hs & _); rewrite Hp in H end.
  simplify_eq. cbn in *. by rewrite Hs.
Qed.

Lemma encrypt_with_nonce_spec c aad pt nonce r c' :
  encrypt_with_nonce aad pt nonce c = (r, c') ->
  (exists w, c' = set_send_window w c)
  /\ (forall env, r = Ok env -> exists ct,
        aead_encrypt (key_of (root_key c) (tx_info c) (send_epoch c)) nonce aad pt = Some ct
        /\ env = mk_envelope (suite c) (send_epoch c) nonce ct).
Proof.
  unfold encrypt_with_nonce. intros H.
  destruct (reserve nonce (send_window c)) as [[[]|e] w] eqn:Er; simplify_eq; [|by split; [eauto|intros; simplify_eq]].
  split; [by eexists|]. intros env Henv. cbn in Henv.
  match type of Henv with context [epoch_key ?c0 ?i ?e] =>
    destruct (epoch_key_of c0 i e) as [Hk Hl]; rewrite Hk in Henv end.
  rewrite cipher_new_ok in Henv by done. cbn in Henv.
  destruct (aead_encrypt _ _ _ _) as [ct|] eqn:Ea; cbn in Henv; simplify_eq. by eexists.
Qed.

Lemma count_message_spec c n r c' :
  count_message n c = (r, c') ->
  exists m b, c' = set_send_state (send_epoch c) (send_counter c) m b c
  /\ (m = messages_in_epoch c \/ m = messages_in_epoch c + 1)
  /\ (b = bytes_in_epoch c \/ b = bytes_in_epoch c + n)
  /\ (r = Ok tt -> m = messages_in_epoch c + 1 /\ b = bytes_in_epoch c + n).
Proof.
  unfold count_message. intros H. repeat destruct_match_in H; simplify_eq; checked; subst.
  - exists (messages_in_epoch c + 1), (bytes_in_epoch c + n). split; [done|]. naive_solver.
  - exists (messages_in_epoch c + 1), (bytes_in_epoch c). split; [done|]. naive_solver.
  - exists (messages_in_epoch c'), (bytes_in_epoch c'). split; [by destruct c'|]. naive_solver.
Qed.

(** [encrypt] unfolded into its steps: the context after the optional
    rotation, and what follows it. *)
Lemma encrypt_cases c aad pt r c' :
  encrypt aad pt c = (r, c') ->
  (exists e, r = Err e /\ c' = c) \/
  exists c0, ((must_rotate c (len pt) = false /\ c0 = c) \/ (must_rotate c (len pt) = true /\ send_epoch c + 1 <= u64_max
                       /\ c0 = set_send_state (send_epoch c + 1) 0 0 0 c))
  /\ ((exists e, r = Err e /\ c' = c0) \/
      send_counter c0 + 1 <= u64_max /\
      exists w m b, c' = set_send_window w (set_send_state (send_epoch c0) (send_counter c0 + 1) m b c0)
      /\ (m = messages_in_epoch c0 \/ m = messages_in_epoch c0 + 1)
      /\ (b = bytes_in_epoch c0 \/ b = bytes_in_epoch c0 + len pt)
      /\ forall env, r = Ok env -> m = messages_in_epoch c0 + 1 /\ b = bytes_in_epoch c0 + len pt
      /\ exists ct, let nonce := prefix_of (root_key c0) (tx_info c0) (send_epoch c0)
                                ++ be_bytes 8 (send_counter c0) in
          aead_encrypt (key_of (root_key c0) (tx_info c0) (send_epoch c0)) nonce aad pt = Some ct
          /\ env = mk_envelope (suite c0) (send_epoch c0) nonce ct).
Proof.
  unfold encrypt. intros H.
  destruct (u64_max <? len pt); [unfold se_fail in H; simplify_eq; by left; eauto|].
  unfold mbind, SE_bind, mret, SE_ret, se_get in H.
  destruct ((if must_rotate c (len pt) then rotate_key else _) c) as [[e0|e] c0] eqn:Er; last first.
  { simplify_eq. left. destruct (must_rotate c (len pt)); [|by simplify_eq].
    apply rotate_key_spec in Er as [[-> ?]|(? & _)]; simplify_eq. by eauto. }
  right. exists c0. split.
  { destruct (must_rotate c (len pt)) eqn:Em; [|simplify_eq; by left].
    apply rotate_key_spec in Er as [[_ ?]|(_ & ? & ->)]; simplify_eq. by right. }
  destruct (next_nonce c0) as [[nonce|e] c1] eqn:En; last first.
  { simplify_eq. left. apply next_nonce_spec in En as [[? ->]|(_ & ? & _)]; simplify_eq. by eauto. }
  apply next_nonce_spec in En as [[? _]|(Hmax & Hn & ->)]; simplify_eq. right. split; [done|].
  destruct (encrypt_with_nonce aad pt _ _) as [[env|e] c2] eqn:Ew;
    apply encrypt_with_nonce_spec in Ew as [[w ->] Henv]; simplify_eq; last first.
  { exists w, (messages_in_epoch c0), (bytes_in_epoch c0). naive_solver. }
  destruct (Henv env eq_refl) as (ct & Hct & ->). cbn in *.
  destruct (count_message (len pt) _) as [[[]|e] c3] eqn:Ec;
    apply count_message_spec in Ec as (m & b & -> & Hm & Hb & Hok); simplify_eq; cbn in *.
  - exists w, m, b. destruct (Hok eq_refl) as [-> ->]. naive_solver.
  - exists w, m, b. naive_solver.
Qed.

Lemma encrypt_wf c aad pt r c' : ctx_wf c -> encrypt aad pt c = (r, c') -> ctx_wf c'.
Proof.
  intros (H1 & H2 & H3 & H4 & H5) H. unfold is_u64 in *. pose proof (len_nonneg pt).
  apply encrypt_cases in H as [(e & _ & ->)|(c0 & Hc0 & Hrest)]; [done|].
  assert (ctx_wf c0 /\ receive_epoch c0 = receive_epoch c) as [(G1 & G2 & G3 & G4 & G5) Hre].
  { destruct Hc0 as [[_ ->]|(_ & Hm & ->)]; unfold ctx_wf, is_u64; cbn; [done|]. lia. }
  unfold is_u64 in *.
  destruct Hrest as [(e & _ & ->)|(Hmax & w & m & b & -> & Hm & Hb & _)]; [done|].
  unfold ctx_wf, is_u64; cbn. lia.
Qed.

(** Every [encrypt], failing or not, moves the send position forward, and an
    emitted envelope carries a position between the old and the new one. *)
Lemma encrypt_position c aad pt r c' :
  ctx_wf c -> encrypt aad pt c = (r, c') ->
  lex_le (position c) (position c') /\ root_key c' = root_key c /\ tx_info c' = tx_info c
  /\ forall env, r = Ok env -> exists e ctr,
      envelope_id env = position_bytes (prefix_of (root_key c) (tx_info c) e) (e, ctr)
      /\ is_u64 e /\ is_u64 ctr /\ lex_le (position c) (e, ctr) /\ lex_lt (e, ctr) (position c').
Proof.
  intros (H1 & H2 & _) H. unfold is_u64 in *.
  apply encrypt_cases in H as [(e & -> & ->)|(c0 & Hc0 & Hrest)].
  { split_and!; [by left|done|done|intros; simplify_eq]. }
  assert (lex_le (position c) (position c0) /\ root_key c0 = root_key c /\ tx_info c0 = tx_info c
          /\ is_u64 (send_epoch c0) /\ is_u64 (send_counter c0)) as (Hle & Hr & Ht & Hu1 & Hu2).
  { destruct Hc0 as [[_ ->]|(_ & Hm & ->)]; cbn; (split; [|split_and!; first [done|unfold is_u64, u64_max in *; lia]]); [by left|].
    right. left. cbn. lia. }
  destruct Hrest as [(e & -> & ->)|(Hmax & w & m & b & -> & _ & _ & Hok)]; [done|].
  assert (lex_lt (position c0) (send_epoch c0, send_counter c0 + 1)) as Hlt by (right; cbn; lia).
  split; [eapply lex_le_trans; [done|]; by right|]. split; [done|]. split; [done|].
  intros env ->. destruct (Hok env eq_refl) as (_ & _ & ct & _ & ->).
  destruct (nonce_prefix_of c0 (tx_info c0) (send_epoch c0)) as (_ & _ & _ & Hl).
  exists (send_epoch c0), (send_counter c0). rewrite envelope_id_mk by done.
  rewrite Hr, Ht. done.
Qed.

Lemma position_bytes_inj q1 q2 p1 p2 :
  len q1 = 4 -> len q2 = 4 -> is_u64 p1.1 -> is_u64 p1.2 -> is_u64 p2.1 -> is_u64 p2.2 ->
  position_bytes q1 p1 = position_bytes q2 p2 -> p1 = p2.
Proof.
  unfold position_bytes, is_u64, u64_max, len. intros Hq1 Hq2 ???? H.
  apply app_inj_1 in H as [He H]; [|by rewrite !length_be_bytes].
  apply app_inj_1 in H as [_ Hc]; [|lia].
  apply be_bytes_inj in He; [|cbn; lia..]. apply be_bytes_inj in Hc; [|cbn; lia..].
  destruct p1, p2; cbn in *; congruence.
Qed.

(** ** Decryption, case by case *)

Definition epoch_bytes (env : bytes) : bytes := slice 6 14 env.

Lemma epoch_bytes_mk st e nonce ct : epoch_bytes (mk_envelope st e nonce ct) = be_bytes 8 e.
Proof.
  unfold epoch_bytes, mk_envelope.
  change (ENVELOPE_MAGIC ++ [ENVELOPE_VERSION] ++ [suite_code st] ++ be_bytes 8 e ++ nonce ++ ct)
    with ((ENVELOPE_MAGIC ++ [ENVELOPE_VERSION] ++ [suite_code st]) ++ be_bytes 8 e ++ nonce ++ ct).
  apply slice_app_mid; autorewrite with rustdb; done.
Qed.

Lemma nonce_mk st e nonce ct : len nonce = 12 -> slice 14 26 (mk_envelope st e nonce ct) = nonce.
Proof.
  intros Hn. unfold mk_envelope.
  replace (ENVELOPE_MAGIC ++ [ENVELOPE_VERSION] ++ [suite_code st] ++ be_bytes 8 e ++ nonce ++ ct)
    with ((ENVELOPE_MAGIC ++ [ENVELOPE_VERSION] ++ [suite_code st] ++ be_bytes 8 e) ++ nonce ++ ct)
    by (by rewrite <- !app_assoc).
  apply slice_app_mid; autorewrite with rustdb; [done|]. rewrite Hn. done.
Qed.


Lemma suite_from_code_inv b st : suite_from_code b = Some st -> b = suite_code st.
Proof. unfold suite_from_code. intros H. destruct_match_in H; simplify_eq. by bool_facts. Qed.

Lemma slice_at {A} (l : list A) (i : nat) x :
  l !! i = Some x -> slice (Z.of_nat i) (Z.of_nat i + 1) l = [x].
Proof.
  intros H. unfold slice. replace (Z.to_nat (Z.of_nat i + 1 - Z.of_nat i)) with 1%nat by lia.
  rewrite Nat2Z.id. rewrite (drop_S _ _ _ H). cbn. by rewrite take_0.
Qed.

(** An envelope that passes the header checks is its own canonical form. *)
Lemma envelope_shape env st :
  ENVELOPE_HEADER_BYTES + GCM_TAG_BYTES <= len env ->
  slice 0 (len ENVELOPE_MAGIC) env = ENVELOPE_MAGIC ->
  slice 4 5 env = [ENVELOPE_VERSION] ->
  suite_from_code (default Byte.x00 (env !! 5%nat)) = Some st ->
  env = mk_envelope st (of_be (slice 6 14 env)) (slice 14 26 env)
          (slice ENVELOPE_HEADER_BYTES (len env) env).
Proof.
  unfold ENVELOPE_HEADER_BYTES, GCM_TAG_BYTES, GCM_NONCE_BYTES. intros Hlen Hm Hv Hs.
  apply suite_from_code_inv in Hs.
  destruct (env !! 5%nat) as [b5|] eqn:E5; [|by destruct st].
  cbn in Hs. subst b5. apply slice_at in E5. change (Z.of_nat 5) with 5 in E5.
  unfold mk_envelope.
  assert (len (slice 6 14 env) = 8) as Hl8 by (rewrite len_slice; lia).
  replace (be_bytes 8 (of_be (slice 6 14 env))) with (slice 6 14 env); last first.
  { rewrite <- (be_bytes_of_be (slice 6 14 env)) at 1. f_equal. unfold len in Hl8. lia. }
  rewrite <- Hm, <- Hv, <- E5. change (len ENVELOPE_MAGIC) with 4.
  rewrite <- (slice_all env (len env)) at 1 by done.
  rewrite (slice_split env 0 4 (len env)), (slice_split env 4 5 (len env)),
    (slice_split env 5 6 (len env)), (slice_split env 6 14 (len env)),
    (slice_split env 14 26 (len env)) by lia.
  done.
Qed.

Lemma if_max a b : (if a <? b then b else a) = Z.max a b.
Proof. destruct (a <? b) eqn:E; bool_facts; lia. Qed.

Lemma accept_received_fresh n w :
  n ∉ seen w -> exists w', accept_received n w = (Ok tt, w') /\ reserve n w = (Ok tt, w').
Proof.
  intros Hn. unfold accept_received, reserve. rewrite !bool_decide_eq_false_2 by done.
  destruct (evict _ _ _) as [o sn]. by eexists.
Qed.

(** Either nothing changes, or a well-formed envelope of an admissible epoch
    was authenticated; then only the receive side advances. *)
Lemma decrypt_cases c aad env allow r c' :
  decrypt_internal aad env allow c = (r, c') ->
  (exists e, r = Err e /\ c' = c) \/
  exists clear epoch nonce ct w,
    r = Ok clear /\ env = mk_envelope (suite c) epoch nonce ct /\ len nonce = 12
    /\ 0 <= epoch <= saturating_add u64_max (receive_epoch c) 1
    /\ saturating_sub (receive_epoch c) epoch < MAX_RETAINED_KEY_EPOCHS
    /\ slice 0 NONCE_PREFIX_BYTES nonce = prefix_of (root_key c) (rx_info c) epoch
    /\ aead_decrypt (key_of (root_key c) (rx_info c) epoch) nonce aad ct = Some clear
    /\ c' = set_receive (Z.max (receive_epoch c) epoch) w c
    /\ ((nonce ∈ seen (receive_window c) /\ allow = true /\ w = receive_window c)
        \/ ((nonce ∉ seen (receive_window c)) /\ reserve nonce (receive_window c) = (Ok tt, w))).
Proof.
  unfold decrypt_internal. intros H.
  destruct (_ || _) eqn:Eh in H; [simplify_eq; by left; eauto|]. bool_facts.
  destruct (suite_from_code _) as [st|] eqn:Es; [|simplify_eq; by left; eauto].
  destruct (bool_decide (st = suite c)) eqn:Est in H; cbn in H; [|simplify_eq; by left; eauto].
  bool_facts. subst st.
  destruct (_ || _) eqn:Ee in H; [simplify_eq; by left; eauto|]. bool_facts.
  destruct (nonce_prefix_of c (rx_info c) (of_be (slice 6 14 env))) as (p & Hp & Hps & _).
  destruct (epoch_key_of c (rx_info c) (of_be (slice 6 14 env))) as [Hk Hkl].
  rewrite Hp, Hk, cipher_new_ok in H by done.
  destruct (bool_decide (slice 0 _ (slice 14 26 env) = _)) eqn:Epx in H;
    cbn in H; [|simplify_eq; by left; eauto]. bool_facts.
  destruct (aead_decrypt _ _ _ _) as [clear|] eqn:Ed; cbn in H; [|simplify_eq; by left; eauto].
  rewrite if_max in H.
  destruct (bool_decide (_ ∈ seen _)) eqn:Esn in H; bool_facts.
  - destruct allow; cbn in H; [|simplify_eq; by left; eauto]. simplify_eq. right.
    eexists clear, _, _, _, _. split; [done|]. split; [by apply envelope_shape|].
    unfold ENVELOPE_HEADER_BYTES, GCM_TAG_BYTES, GCM_NONCE_BYTES in *.
    pose proof (of_be_range (slice 6 14 env)).
    split_and!; [rewrite len_slice; lia|lia..|congruence|done|done|by left].
  - destruct (accept_received_fresh _ _ Esn) as (w & Ha & Hr). rewrite Ha in H. simplify_eq. right.
    eexists clear, _, _, _, w. split; [done|]. split; [by apply envelope_shape|].
    unfold ENVELOPE_HEADER_BYTES, GCM_TAG_BYTES, GCM_NONCE_BYTES in *.
    pose proof (of_be_range (slice 6 14 env)).
    split_and!; [rewrite len_slice; lia|lia..|congruence|done|done|by right].
Qed.

(** The converse: what [decrypt_internal] does with a well-formed envelope. *)
Lemma decrypt_forward c aad e nonce ct pt allow :
  len nonce = 12 -> GCM_TAG_BYTES <= len ct -> is_u64 e ->
  e <= saturating_add u64_max (receive_epoch c) 1 ->
  saturating_sub (receive_epoch c) e < MAX_RETAINED_KEY_EPOCHS ->
  slice 0 NONCE_PREFIX_BYTES nonce = prefix_of (root_key c) (rx_info c) e ->
  aead_decrypt (key_of (root_key c) (rx_info c) e) nonce aad ct = Some pt ->
  decrypt_internal aad (mk_envelope (suite c) e nonce ct) allow c =
  if bool_decide (nonce ∈ seen (receive_window c)) then
    if allow then (Ok pt, set_receive (Z.max (receive_epoch c) e) (receive_window c) c)
    else (Err ReplayDetected, c)
  else (Ok pt, set_receive (Z.max (receive_epoch c) e) (reserve nonce (receive_window c)).2 c).
Proof.
  intros Hn Hct He Hmax Hmin Hpx Hd. unfold decrypt_internal.
  rewrite nonce_mk by done. fold (epoch_bytes (mk_envelope (suite c) e nonce ct)).
  rewrite epoch_bytes_mk, of_be_be_bytes by (unfold is_u64, u64_max in He; cbn; lia).
  assert (len (mk_envelope (suite c) e nonce ct) = 26 + len ct) as Hl.
  { unfold mk_envelope. autorewrite with rustdb. rewrite Hn. change (len ENVELOPE_MAGIC) with 4. lia. }
  assert (slice 0 (len ENVELOPE_MAGIC) (mk_envelope (suite c) e nonce ct) = ENVELOPE_MAGIC) as -> by done.
  assert (slice 4 5 (mk_envelope (suite c) e nonce ct) = [ENVELOPE_VERSION]) as -> by done.
  assert (slice ENVELOPE_HEADER_BYTES (len (mk_envelope (suite c) e nonce ct))
            (mk_envelope (suite c) e nonce ct) = ct) as ->.
  { unfold mk_envelope. rewrite !app_assoc. apply slice_app_end; autorewrite with rustdb;
      rewrite Hn; change (len ENVELOPE_MAGIC) with 4; unfold ENVELOPE_HEADER_BYTES, GCM_NONCE_BYTES; lia. }
  assert (mk_envelope (suite c) e nonce ct !! 5%nat = Some (suite_code (suite c))) as -> by done.
  assert (suite_from_code (suite_code (suite c)) = Some (suite c)) as Hsuite by by destruct (suite c).
  cbn [default]. unfold default, id. rewrite Hsuite.
  destruct (nonce_prefix_of c (rx_info c) e) as (p & Hp & Hps & _).
  destruct (epoch_key_of c (rx_info c) e) as [Hk Hkl].
  rewrite Hp, Hk, cipher_new_ok, Hps by done. rewrite Hd, if_max. cbn.
  rewrite Hl. unfold ENVELOPE_HEADER_BYTES, GCM_NONCE_BYTES, GCM_TAG_BYTES in *.
  rewrite (proj2 (Z.ltb_ge _ _)) by lia. rewrite !bool_decide_eq_true_2 by done. cbn.
  rewrite (proj2 (Z.ltb_ge _ _)), (proj2 (Z.leb_gt _ _)) by lia. cbn.
  case_bool_decide as Hs; [by destruct allow|].
  destruct (accept_received_fresh _ _ Hs) as (w & -> & ->). done.
Qed.

(** ** Invariants of schedules *)

Lemma set_receive_wf c e w :
  ctx_wf c -> is_u64 e -> ctx_wf (set_receive e w c).
Proof. unfold ctx_wf. cbn. tauto. Qed.

Lemma decrypt_frame c aad env allow r c' :
  ctx_wf c -> decrypt_internal aad env allow c = (r, c') ->
  ctx_wf c' /\ position c' = position c /\ root_key c' = root_key c /\ tx_info c' = tx_info c
  /\ messages_in_epoch c' = messages_in_epoch c /\ bytes_in_epoch c' = bytes_in_epoch c.
Proof.
  intros Hwf H. apply decrypt_cases in H as [(e & _ & ->)|(clear & epoch & nonce & ct & w & H)]; [done|].
  destruct H as (_ & _ & _ & Hep & _ & _ & _ & -> & _).
  split_and!; try done. apply set_receive_wf; [done|].
  destruct Hwf as (_ & _ & _ & _ & Hre). unfold is_u64, saturating_add in *. lia.
Qed.

Lemma ctx_step_position op c o c' :
  ctx_wf c -> ctx_step op c = (o, c') ->
  ctx_wf c' /\ lex_le (position c) (position c') /\ root_key c' = root_key c /\ tx_info c' = tx_info c
  /\ forall env, o = Some env -> exists e ctr,
      envelope_id env = position_bytes (prefix_of (root_key c) (tx_info c) e) (e, ctr)
      /\ is_u64 e /\ is_u64 ctr /\ lex_le (position c) (e, ctr) /\ lex_lt (e, ctr) (position c').
Proof.
  intros Hwf H. destruct op as [aad pt| |aad env allow]; cbn in H.
  - destruct (encrypt aad pt c) as [r c1] eqn:E.
    pose proof (encrypt_wf _ _ _ _ _ Hwf E). pose proof (encrypt_position _ _ _ _ _ Hwf E) as (? & ? & ? & Hok).
    destruct r as [env|e]; simplify_eq; split_and!; try done; intros env' ?; simplify_eq.
    by apply Hok.
  - simplify_eq. destruct (rotate_key c) as [r c1] eqn:E. cbn.
    apply rotate_key_spec in E as [[-> _]|(_ & Hm & ->)].
    { split_and!; first [done|by left|intros; simplify_eq]. }
    destruct Hwf as (H1 & H2 & H3 & H4 & H5). unfold ctx_wf, is_u64, u64_max in *. cbn.
    split_and!; first [done|lia|right; left; cbn; lia|intros; simplify_eq].
  - simplify_eq. destruct (decrypt_internal aad env allow c) as [r c1] eqn:E. cbn.
    apply decrypt_frame in E as (? & -> & ? & ? & _); [|done].
    split_and!; first [done|by left|intros; simplify_eq].
Qed.

Lemma ctx_run_positions ops c es c' :
  ctx_wf c -> ctx_run ops c = (es, c') ->
  ctx_wf c' /\ lex_le (position c) (position c')
  /\ (forall env, env ∈ es -> exists e ctr,
      envelope_id env = position_bytes (prefix_of (root_key c) (tx_info c) e) (e, ctr)
      /\ is_u64 e /\ is_u64 ctr /\ lex_le (position c) (e, ctr))
  /\ NoDup (envelope_id <$> es).
Proof.
  revert c es c'. induction ops as [|op ops IH]; intros c es c' Hwf H; cbn in H.
  { simplify_eq. split_and!; [done|by left|by intros ? ?%not_elem_of_nil|constructor]. }
  destruct (ctx_step op c) as [o c1] eqn:E1. destruct (ctx_run ops c1) as [es1 c2] eqn:E2. simplify_eq.
  apply ctx_step_position in E1 as (Hwf1 & Hle1 & Hr & Ht & Ho); [|done].
  apply IH in E2 as (Hwf2 & Hle2 & Hes & Hnd); [|done]. rewrite Hr, Ht in Hes.
  assert (forall env, env ∈ es1 -> exists e ctr,
      envelope_id env = position_bytes (prefix_of (root_key c) (tx_info c) e) (e, ctr)
      /\ is_u64 e /\ is_u64 ctr /\ lex_le (position c) (e, ctr)) as Hes'.
  { intros env Henv. destruct (Hes env Henv) as (e & ctr & ? & ? & ? & ?).
    exists e, ctr. split_and!; [done..|]. by eapply lex_le_trans. }
  split; [done|]. split; [by eapply lex_le_trans|].
  destruct o as [env|]; cbn; [|done]. destruct (Ho env eq_refl) as (e & ctr & Hid & He & Hc & Hle & Hlt).
  split.
  { intros env' [->|Henv']%elem_of_cons; [|by apply Hes']. by exists e, ctr. }
  apply NoDup_cons. split; [|done]. intros (env' & Heq & Henv')%list_elem_of_fmap.
  destruct (Hes env' Henv') as (e' & ctr' & Hid' & He' & Hc' & Hle').
  rewrite Hid, Hid' in Heq. apply position_bytes_inj in Heq; try done; cycle 1.
  { by destruct (nonce_prefix_of c (tx_info c) e) as (_ & _ & _ & ?). }
  { by destruct (nonce_prefix_of c (tx_info c) e') as (_ & _ & _ & ?). }
  rewrite <- Heq in Hle'. eapply lex_lt_irrefl, lex_lt_le_trans; eauto.
Qed.

Lemma from_session_root_wf root initiator : ctx_wf (from_session_root root initiator).
Proof. destruct initiator; unfold ctx_wf, is_u64, u64_max; cbn; lia. Qed.

(** C2: no nonce is ever reused under one key.  From a freshly installed
    session root, whatever the interleaving of encryptions (failing or
    not), explicit key rotations and decryptions, the (epoch, nonce) pairs
    of all envelopes the context ever emits are pairwise distinct. *)
Theorem nonce_never_reused (root : bytes) (initiator : bool) (ops : list ctx_op) :
  NoDup (envelope_id <$> (ctx_run ops (from_session_root root initiator)).1).
Proof.
  destruct (ctx_run ops _) as [es c'] eqn:E.
  by apply ctx_run_positions in E as (_ & _ & _ & ?); [|apply from_session_root_wf].
Qed.

(** ** Usage limits of a key *)

Definition count_epoch (e : Z) (es : list bytes) : Z :=
  len (filter (fun env => epoch_bytes env = be_bytes 8 e) es).

Definition op_bounded (op : ctx_op) : Prop :=
  match op with OpEncrypt _ pt => len pt <= MAX_BYTES_PER_KEY | _ => True end.

Definition within_limits (c : CryptoContext) : Prop :=
  messages_in_epoch c <= MAX_MESSAGES_PER_KEY /\ bytes_in_epoch c <= MAX_BYTES_PER_KEY.

Lemma count_epoch_cons e env es :
  count_epoch e (env :: es) =
  (if bool_decide (epoch_bytes env = be_bytes 8 e) then 1 else 0) + count_epoch e es.
Proof.
  unfold count_epoch. rewrite filter_cons. case_bool_decide; destruct (decide _); try done.
  by rewrite len_cons.
Qed.

(** How one step moves the key-usage counters: an emitted envelope is counted
    in the epoch it was sealed under, and a new epoch starts from zero. *)
Lemma encrypt_limits c aad pt r c' :
  ctx_wf c -> within_limits c -> len pt <= MAX_BYTES_PER_KEY -> encrypt aad pt c = (r, c') ->
  within_limits c' /\ send_epoch c <= send_epoch c'
  /\ (send_epoch c = send_epoch c' -> messages_in_epoch c <= messages_in_epoch c')
  /\ forall env, r = Ok env -> epoch_bytes env = be_bytes 8 (send_epoch c')
     /\ 1 <= messages_in_epoch c'
     /\ (send_epoch c = send_epoch c' -> messages_in_epoch c + 1 <= messages_in_epoch c').
Proof.
  intros Hwf [Hm Hb] Hpt H. apply encrypt_cases in H as [(e & -> & ->)|(c0 & Hc0 & Hrest)].
  { split_and!; first [done|lia|intros; simplify_eq]. }
  pose proof (len_nonneg pt).
  assert (0 <= messages_in_epoch c0 < MAX_MESSAGES_PER_KEY /\ bytes_in_epoch c0 + len pt <= MAX_BYTES_PER_KEY
          /\ 0 <= bytes_in_epoch c0 /\ send_epoch c <= send_epoch c0
          /\ (send_epoch c = send_epoch c0 -> messages_in_epoch c = messages_in_epoch c0)) as (? & ? & ? & ? & ?).
  { destruct Hwf as (_ & _ & ? & ? & _).
    destruct Hc0 as [[Hrot ->]|(_ & _ & ->)]; cbn; unfold must_rotate, saturating_sub in *.
    - bool_facts. unfold MAX_MESSAGES_PER_KEY in *. lia.
    - unfold MAX_MESSAGES_PER_KEY. lia. }
  destruct Hrest as [(e & -> & ->)|(Hmax & w & m & b & -> & Hm' & Hb' & Hok)].
  { unfold within_limits. split_and!; first [done|lia|intros; simplify_eq]. }
  unfold within_limits. cbn. split_and!; try lia. intros env ->.
  destruct (Hok env eq_refl) as (-> & _ & ct & _ & ->). rewrite epoch_bytes_mk. split_and!; [done|lia..].
Qed.

Lemma be_bytes_8_inj a b : is_u64 a -> is_u64 b -> be_bytes 8 a = be_bytes 8 b -> a = b.
Proof. unfold is_u64, u64_max. intros. by apply (be_bytes_inj 8); [cbn; lia..|]. Qed.

Lemma ctx_run_limits ops c es c' :
  ctx_wf c -> within_limits c -> Forall op_bounded ops -> ctx_run ops c = (es, c') ->
  within_limits c' /\ send_epoch c <= send_epoch c'
  /\ forall e, is_u64 e ->
     count_epoch e es <= (if e <? send_epoch c then 0
                          else if e =? send_epoch c then MAX_MESSAGES_PER_KEY - messages_in_epoch c
                          else MAX_MESSAGES_PER_KEY).
Proof.
  revert c es c'. induction ops as [|op ops IH]; intros c es c' Hwf Hlim Hops H; cbn in H.
  { simplify_eq. split_and!; [done|lia|]. intros e _. destruct Hlim.
    change (count_epoch e []) with 0.
    repeat destruct_match_goal; unfold MAX_MESSAGES_PER_KEY in *; lia. }
  apply Forall_cons in Hops as [Hop Hops].
  destruct (ctx_step op c) as [o c1] eqn:E1. destruct (ctx_run ops c1) as [es1 c2] eqn:E2. simplify_eq.
  pose proof (ctx_step_position _ _ _ _ Hwf E1) as (Hwf1 & _).
  assert (within_limits c1 /\ send_epoch c <= send_epoch c1
    /\ (send_epoch c = send_epoch c1 -> messages_in_epoch c <= messages_in_epoch c1)
    /\ forall env, o = Some env -> epoch_bytes env = be_bytes 8 (send_epoch c1)
       /\ 1 <= messages_in_epoch c1
       /\ (send_epoch c = send_epoch c1 -> messages_in_epoch c + 1 <= messages_in_epoch c1))
    as (Hlim1 & Hep & Hmsg & Ho).
  { destruct op as [aad pt| |aad env allow]; cbn in E1.
    - destruct (encrypt aad pt c) as [r c1'] eqn:E.
      apply encrypt_limits in E as (? & ? & ? & Hok); [|done..].
      destruct r; simplify_eq; split_and!; try done; intros; simplify_eq. by apply Hok.
    - simplify_eq. destruct (rotate_key c) as [r c1'] eqn:E.
      apply rotate_key_spec in E as [[-> _]|(_ & Hm & ->)]; unfold within_limits in *; cbn;
        unfold MAX_MESSAGES_PER_KEY, MAX_BYTES_PER_KEY in *; cbn;
        split_and!; first [done|lia|intros; simplify_eq].
    - simplify_eq. destruct (decrypt_internal aad env allow c) as [r c1'] eqn:E.
      apply decrypt_frame in E as (? & Hpos & ? & ? & Hm & Hb); [|done]. cbn.
      unfold position in Hpos. simplify_eq. unfold within_limits in *. rewrite Hm, Hb.
      split_and!; first [done|lia|intros; simplify_eq]. }
  apply IH in E2 as (Hlim2 & Hep2 & Hcount); [|done..].
  split; [done|]. split; [lia|]. intros e He. specialize (Hcount e He).
  destruct Hlim as [Hl0 _], Hlim1 as [Hl1 _], Hwf as (Hu & _ & ? & _), Hwf1 as (Hu1 & _ & Hm1 & _).
  destruct o as [env|]; [change (option_list (Some env) ++ es1) with (env :: es1)|
    change (option_list None ++ es1) with es1].
  - destruct (Ho env eq_refl) as (Heb & Hone & Hsame). rewrite count_epoch_cons, Heb.
    case_bool_decide as Heq.
    + apply be_bytes_8_inj in Heq; [|done..]. subst e.
      rewrite Z.ltb_irrefl, Z.eqb_refl in Hcount.
      repeat destruct_match_goal; bool_facts; lia.
    + repeat destruct_match_in Hcount; repeat destruct_match_goal; bool_facts; lia.
  - repeat destruct_match_in Hcount; repeat destruct_match_goal; bool_facts; lia.
Qed.

(** C3: key usage stays within its limits.  If every plaintext is at most
    [MAX_BYTES_PER_KEY] bytes, then over any schedule from a fresh root at
    most [MAX_MESSAGES_PER_KEY] envelopes are emitted under any one epoch
    key, the per-epoch byte counter never exceeds [MAX_BYTES_PER_KEY], and
    the epoch never goes back. *)
Theorem key_usage_within_limits (root : bytes) (initiator : bool) (ops : list ctx_op) (e : Z) :
  Forall op_bounded ops -> is_u64 e ->
  let '(es, c) := ctx_run ops (from_session_root root initiator) in
  count_epoch e es <= MAX_MESSAGES_PER_KEY /\ bytes_in_epoch c <= MAX_BYTES_PER_KEY
  /\ 0 <= send_epoch c <= u64_max.
Proof.
  intros Hops He. destruct (ctx_run ops _) as [es c] eqn:E.
  pose proof (ctx_run_positions _ _ _ _ (from_session_root_wf root initiator) E) as ((? & _) & _).
  apply ctx_run_limits in E as ([_ Hb] & _ & Hcount); [|apply from_session_root_wf| |done].
  - split; [|done]. specialize (Hcount e He).
    assert (messages_in_epoch (from_session_root root initiator) = 0) as Hz by by destruct initiator.
    rewrite Hz in Hcount. unfold MAX_MESSAGES_PER_KEY in *.
    repeat destruct_match_in Hcount; lia.
  - destruct initiator; done.
Qed.

(** ** Decryption *)

(** C4: decryption is atomic and accepts only canonical envelopes.  A failed
    [decrypt] leaves the context unchanged.  A successful one returned a
    plaintext whose encryption, under the receive key of the envelope's
    epoch and with the envelope's nonce and this associated data, rebuilds
    the envelope byte for byte; that epoch is at most one ahead of the
    newest accepted epoch and fewer than [MAX_RETAINED_KEY_EPOCHS] behind
    it; and the send side of the context is untouched. *)
Theorem decrypt_atomic_and_canonical (c c' : CryptoContext) (aad env : bytes) (allow : bool)
    (r : result bytes CryptoError) :
  decrypt_internal aad env allow c = (r, c') ->
  match r with
  | Err _ => c' = c
  | Ok clear => exists epoch nonce ct,
      env = mk_envelope (suite c) epoch nonce ct /\ len nonce = GCM_NONCE_BYTES
      /\ aead_encrypt (key_of (root_key c) (rx_info c) epoch) nonce aad clear = Some ct
      /\ slice 0 NONCE_PREFIX_BYTES nonce = prefix_of (root_key c) (rx_info c) epoch
      /\ epoch <= receive_epoch c + 1
      /\ receive_epoch c - epoch < MAX_RETAINED_KEY_EPOCHS
      /\ receive_epoch c' = Z.max (receive_epoch c) epoch
      /\ position c' = position c /\ send_window c' = send_window c
  end.
Proof.
  intros H. apply decrypt_cases in H as [(e & -> & ->)|(clear & epoch & nonce & ct & w & H)]; [done|].
  destruct H as (-> & -> & Hn & Hep & Hsub & Hpx & Hd & -> & _).
  unfold saturating_add, saturating_sub in *.
  exists epoch, nonce, ct. split_and!; try done; [|lia..]. by apply aead_authentic.
Qed.

Lemma evict_subset cap ord sn : (evict cap ord sn).2 ⊆ sn.
Proof.
  revert sn. induction ord as [|x ord IH]; intros sn; cbn [evict]; [done|].
  destruct (_ <? _); [|done]. etrans; [apply IH|]. set_solver.
Qed.

Lemma reserve_subset n w w' : reserve n w = (Ok tt, w') -> seen w' ⊆ {[n]} ∪ seen w.
Proof.
  unfold reserve. intros H. destruct_match_in H; simplify_eq.
  pose proof (evict_subset (capacity w) (order w ++ [n]) ({[n]} ∪ seen w)).
  destruct (evict _ _ _). simplify_eq. done.
Qed.

(** The receive window of a context in terms of its accepted history. *)
Definition rx_history (c : CryptoContext) (h : list bytes) : Prop :=
  window_repr REPLAY_WINDOW_CAPACITY h (receive_window c).

Lemma decrypt_history c aad env allow r c' h :
  rx_history c h -> decrypt_internal aad env allow c = (r, c') ->
  rx_history c' h \/
  (exists clear, r = Ok clear) /\ (slice 14 26 env ∉ recent REPLAY_WINDOW_CAPACITY h)
  /\ rx_history c' (h ++ [slice 14 26 env]).
Proof.
  intros Hh H. apply decrypt_cases in H as [(e & -> & ->)|(clear & epoch & nonce & ct & w & H)]; [by left|].
  destruct H as (-> & -> & Hn & _ & _ & _ & _ & -> & [(_ & _ & ->)|(Hns & Hres)]); [by left|].
  right. assert (slice 14 26 (mk_envelope (suite c) epoch nonce ct) = nonce) as ->.
  { by apply nonce_mk. }
  rewrite (window_repr_seen _ _ _ _ Hh) in Hns. split; [by eexists|]. split; [done|].
  destruct (reserve_repr REPLAY_WINDOW_CAPACITY h (receive_window c) nonce) as (w' & Hw' & Hr); [done..|].
  rewrite Hw' in Hres. by simplify_eq.
Qed.

Lemma encrypt_receive_side c aad pt r c' :
  encrypt aad pt c = (r, c') ->
  receive_window c' = receive_window c /\ receive_epoch c' = receive_epoch c /\ suite c' = suite c.
Proof.
  intros H. apply encrypt_cases in H as [(e & _ & ->)|(c0 & Hc0 & Hrest)]; [done|].
  assert (receive_window c0 = receive_window c /\ receive_epoch c0 = receive_epoch c
          /\ suite c0 = suite c) as (? & ? & ?) by (destruct Hc0 as [[_ ->]|(_ & _ & ->)]; done).
  by destruct Hrest as [(e & _ & ->)|(Hmax & w & m & b & -> & _)].
Qed.

Lemma ctx_step_history op c o c' h :
  rx_history c h -> ctx_step op c = (o, c') ->
  exists ext, rx_history c' (h ++ ext) /\ len ext <= 1.
Proof.
  intros Hh H. destruct op as [aad pt| |aad env allow]; cbn in H.
  - exists []. rewrite app_nil_r. split; [|done].
    destruct (encrypt aad pt c) as [r c1] eqn:E. apply encrypt_receive_side in E as (Hw & _ & _).
    unfold rx_history in *. destruct r; simplify_eq; by rewrite Hw.
  - exists []. rewrite app_nil_r. split; [|done]. simplify_eq.
    destruct (rotate_key c) as [r c1] eqn:E. by apply rotate_key_spec in E as [[-> _]|(_ & _ & ->)].
  - simplify_eq. destruct (decrypt_internal aad env allow c) as [r c1] eqn:E.
    eapply decrypt_history in E as [?|(_ & _ & ?)]; [..|done].
    + exists []. by rewrite app_nil_r.
    + by eexists [_].
Qed.

Lemma ctx_run_history ops c h :
  rx_history c h -> exists ext, rx_history (ctx_run ops c).2 (h ++ ext) /\ len ext <= len ops.
Proof.
  revert c h. induction ops as [|op ops IH]; intros c h Hh; cbn [ctx_run].
  { exists []. by rewrite app_nil_r. }
  destruct (ctx_step op c) as [o c1] eqn:E1.
  eapply ctx_step_history in E1 as (ext1 & Hh1 & Hl1); [|done].
  destruct (IH c1 _ Hh1) as (ext2 & Hh2 & Hl2). destruct (ctx_run ops c1) as [es c2]; cbn in *.
  exists (ext1 ++ ext2). rewrite app_assoc, len_app, len_cons. split; [done|lia].
Qed.

Lemma recent_contains cap h n ext : len ext < cap -> n ∈ recent cap (h ++ n :: ext).
Proof.
  intros Hl. unfold recent. rewrite len_app, len_cons, drop_app_le by (unfold len in *; lia).
  set_solver.
Qed.

(** A strict decryption of a nonce in the window always fails. *)
Lemma decrypt_seen_fails c aad env h :
  rx_history c h -> slice 14 26 env ∈ recent REPLAY_WINDOW_CAPACITY h ->
  exists e, decrypt aad env c = (Err e, c).
Proof.
  intros Hh Hin. unfold decrypt. destruct (decrypt_internal aad env false c) as [r c'] eqn:E.
  pose proof E as E2. eapply decrypt_history in E2; [|done].
  apply decrypt_cases in E as [(e & -> & ->)|(clear & epoch & nonce & ct & w & H)]; [by eexists|].
  exfalso. destruct H as (-> & Henv & Hn & _ & _ & _ & _ & -> & [(_ & ? & _)|(Hns & _)]); [done|].
  apply Hns. apply (window_repr_seen _ _ _ _ Hh).
  by rewrite Henv, nonce_mk in Hin.
Qed.

Lemma from_session_root_history root initiator : rx_history (from_session_root root initiator) [].
Proof. unfold rx_history. destruct initiator; apply (window_new_repr REPLAY_WINDOW_CAPACITY). Qed.

(** C5: a strict decryption succeeds at most once per nonce.  Take any
    context reachable from a fresh root.  Once an envelope has been strictly
    decrypted, every further strict decryption of an envelope with the same
    nonce fails and changes nothing, as long as fewer than
    [REPLAY_WINDOW_CAPACITY] operations happened in between; and a
    redelivery through [decrypt_for_delivery] right after the acceptance
    returns the same plaintext again without changing the context. *)
Theorem strict_decrypt_at_most_once (root : bytes) (initiator : bool) (before between : list ctx_op)
    (aad env pt : bytes) (c0 c1 c2 : CryptoContext) :
  c0 = (ctx_run before (from_session_root root initiator)).2 ->
  decrypt aad env c0 = (Ok pt, c1) ->
  c2 = (ctx_run between c1).2 ->
  len between < REPLAY_WINDOW_CAPACITY ->
  (forall aad' env', slice 14 26 env' = slice 14 26 env ->
     exists e, decrypt aad' env' c2 = (Err e, c2))
  /\ decrypt_for_delivery aad env c1 = (Ok pt, c1).
Proof.
  intros -> Hdec -> Hlen.
  destruct (ctx_run_history before _ [] (from_session_root_history root initiator)) as (h & Hh & _).
  cbn in Hh. set (c0 := (ctx_run before _).2) in *.
  pose proof Hdec as Hd. eapply decrypt_history in Hd as [Hsame|(_ & Hnew & Hh1)]; [..|done].
  { exfalso. apply decrypt_cases in Hdec as [(e & ? & _)|(clear & epoch & nonce & ct & w & H)]; [done|].
    destruct H as (_ & -> & Hn & _ & _ & _ & _ & -> & [(_ & ? & _)|(Hns & Hres)]); [done|].
    destruct (reserve_repr REPLAY_WINDOW_CAPACITY h (receive_window c0) nonce) as (w' & Hw' & Hr);
      [done|done|by rewrite <- (window_repr_seen _ _ _ _ Hh)|].
    rewrite Hw' in Hres. simplify_eq. apply Hns.
    apply (window_repr_seen _ _ _ _ Hh). unfold rx_history in Hsame; cbn in Hsame.
    destruct Hsame as (_ & Ho & _), Hr as (_ & Ho' & _). rewrite <- Ho, Ho'.
    by apply recent_contains. }
  split.
  - intros aad' env' Hnonce. destruct (ctx_run_history between c1 _ Hh1) as (ext & Hh2 & Hext).
    eapply decrypt_seen_fails; [exact Hh2|]. rewrite Hnonce, <- app_assoc. cbn.
    apply recent_contains. lia.
  - apply decrypt_cases in Hdec as [(e & ? & _)|(pt' & epoch & nonce & ct & w & H)]; [done|].
    destruct H as (? & -> & Hn & Hep & Hsub & Hpx & Hd & -> & [(_ & ? & _)|(Hns & Hres)]); [done|].
    simplify_eq. apply aead_authentic in Hd as Hct. apply aead_length in Hct. pose proof (len_nonneg pt').
    unfold decrypt_for_delivery. unfold saturating_add, saturating_sub in *.
    rewrite nonce_mk in Hh1 by done.
    change (suite c0) with (suite (set_receive (Z.max (receive_epoch c0) epoch) w c0)).
    rewrite (decrypt_forward _ aad epoch nonce ct pt'); cbn; unfold saturating_add, saturating_sub, is_u64; try done; try lia.
    rewrite bool_decide_eq_true_2.
    + unfold set_receive; cbn. do 2 f_equal. lia.
    + apply (window_repr_seen _ _ _ _ Hh1). by apply recent_contains.
Qed.

(** ** The two ends of a session stay in step *)

Definition prefixes_distinct (root info : bytes) (max_epoch : Z) : Prop :=
  forall e1 e2, 0 <= e1 < e2 -> e2 <= max_epoch -> prefix_of root info e1 <> prefix_of root info e2.

Definition in_sync (a b : CryptoContext) : Prop :=
  ctx_wf a /\ root_key b = root_key a /\ rx_info b = tx_info a /\ suite b = suite a
  /\ receive_epoch b = send_epoch a
  /\ forall n, n ∈ seen (receive_window b) -> exists e ctr,
       n = prefix_of (root_key a) (tx_info a) e ++ be_bytes 8 ctr
       /\ is_u64 e /\ is_u64 ctr /\ lex_lt (e, ctr) (position a).

Lemma from_session_root_sync root initiator :
  in_sync (from_session_root root initiator) (from_session_root root (negb initiator)).
Proof.
  unfold in_sync. destruct initiator; cbn; split_and!; try done;
    first [apply (from_session_root_wf root true)|apply (from_session_root_wf root false)
          |intros n Hn; by apply elem_of_empty in Hn].
Qed.

Lemma prefix_len root info e : length (prefix_of root info e) = 4%nat.
Proof.
  destruct (nonce_prefix_of (from_session_root root true) info e) as (_ & _ & _ & Hl).
  cbn in Hl. unfold len in Hl. lia.
Qed.

(** A nonce at or past the sender's position is new to the receiver. *)
Lemma sync_nonce_fresh a b e ctr :
  in_sync a b -> is_u64 e -> is_u64 ctr -> lex_le (position a) (e, ctr) ->
  prefixes_distinct (root_key a) (tx_info a) e ->
  prefix_of (root_key a) (tx_info a) e ++ be_bytes 8 ctr ∉ seen (receive_window b).
Proof.
  intros (_ & _ & _ & _ & _ & Hseen) He Hctr Hle Hdist Hin.
  destruct (Hseen _ Hin) as (e' & ctr' & Heq & He' & Hctr' & Hlt).
  apply app_inj_1 in Heq as [Hp Hc]; [|by rewrite !prefix_len].
  apply be_bytes_8_inj in Hc; [|done..]. subst ctr'.
  assert (lex_lt (e', ctr) (e, ctr)) as Hlt' by (by eapply lex_lt_le_trans).
  destruct Hlt' as [Hl|[_ Hl]]; cbn in Hl; [|lia].
  unfold is_u64 in *. apply (Hdist e' e); [lia|lia|done].
Qed.

Lemma sync_step a b aad pt env a' :
  in_sync a b -> encrypt aad pt a = (Ok env, a') ->
  prefixes_distinct (root_key a) (tx_info a) (send_epoch a') ->
  exists b', decrypt aad env b = (Ok pt, b') /\ in_sync a' b'.
Proof.
  intros Hsync Henc Hdist. pose proof Hsync as (Hwf & Hroot & Hrx & Hst & Hre & Hseen).
  pose proof (encrypt_wf _ _ _ _ _ Hwf Henc) as Hwf'.
  pose proof (encrypt_position _ _ _ _ _ Hwf Henc) as (_ & Hr' & Ht' & _).
  apply encrypt_cases in Henc as [(e & ? & _)|(c0 & Hc0 & Hrest)]; [done|].
  destruct Hrest as [(e & ? & _)|(Hmax & w & m & bt & -> & _ & _ & Hok)]; [done|].
  destruct (Hok env eq_refl) as (_ & _ & ct & Hct & ->). clear Hok. cbn in Hdist, Hr', Ht'.
  pose proof Hwf as (Hu1 & Hu2 & _). pose proof Hwf' as (Hw1 & Hw2 & _). cbn in Hw1, Hw2.
  unfold is_u64 in *.
  assert (suite c0 = suite a /\ (send_epoch c0 = send_epoch a \/ send_epoch c0 = send_epoch a + 1)
          /\ 0 <= send_counter c0 /\ lex_le (position a) (position c0)) as (Hs & Hep & Hc & Hle).
  { destruct Hc0 as [[_ ->]|(_ & _ & ->)]; cbn; split_and!; try done; try lia.
    - by left.
    - right; left; cbn; lia. }
  rewrite Hr', Ht', Hs in *. rewrite <- Hst.
  set (nonce := prefix_of (root_key a) (tx_info a) (send_epoch c0) ++ be_bytes 8 (send_counter c0)) in *.
  assert (nonce ∉ seen (receive_window b)) as Hfresh.
  { apply sync_nonce_fresh; try done; unfold is_u64; lia. }
  assert (len nonce = 12) as Hn.
  { unfold nonce, len. rewrite length_app, prefix_len, length_be_bytes. done. }
  apply aead_length in Hct as Hctl. apply aead_correct in Hct as Hd. pose proof (len_nonneg pt).
  unfold decrypt. rewrite (decrypt_forward b aad (send_epoch c0) nonce ct pt);
    unfold saturating_add, saturating_sub, MAX_RETAINED_KEY_EPOCHS, is_u64;
    rewrite ?Hroot, ?Hrx, ?Hre; try done; try lia; last first.
  { unfold nonce, slice. rewrite drop_0. apply take_app_length'.
    by rewrite prefix_len. }
  rewrite bool_decide_eq_false_2 by done.
  eexists. split; [done|].
  assert (lex_lt (position c0) (send_epoch c0, send_counter c0 + 1)) as Hlt by (right; cbn; lia).
  split; [done|]. cbn. split_and!; try congruence; [lia|].
  intros n Hin. destruct (accept_received_fresh _ _ Hfresh) as (w' & _ & Hres).
  rewrite Hres in Hin. apply reserve_subset in Hres. cbn in Hin. rewrite Hr', Ht'.
  apply Hres, elem_of_union in Hin as [->%elem_of_singleton|Hin].
  - exists (send_epoch c0), (send_counter c0). unfold is_u64. split_and!; [done|lia..|done].
  - destruct (Hseen n Hin) as (e & ctr & -> & ? & ? & Hl). exists e, ctr.
    split_and!; [done..|]. eapply lex_lt_trans; [|exact Hlt]. by eapply lex_lt_le_trans.
Qed.

Lemma send_all_epoch msgs a r a' :
  ctx_wf a -> send_all msgs a = (r, a') ->
  send_epoch a <= send_epoch a' /\ root_key a' = root_key a /\ tx_info a' = tx_info a.
Proof.
  revert a r a'. induction msgs as [|[aad pt] msgs IH]; intros a r a' Hwf H; cbn in H.
  { simplify_eq. split_and!; [lia|done..]. }
  destruct (encrypt aad pt a) as [r1 a1] eqn:E.
  pose proof (encrypt_wf _ _ _ _ _ Hwf E). apply encrypt_position in E as (Hle & Hr & Ht & _); [|done].
  assert (send_epoch a <= send_epoch a1) by (destruct Hle as [[= -> _]|[|[]]]; cbn in *; lia).
  destruct r1 as [env|e]; [|by simplify_eq]. destruct (send_all msgs a1) as [r2 a2] eqn:E2.
  apply IH in E2 as (? & ? & ?); [|done]. simplify_eq. split_and!; [lia|congruence..].
Qed.

Lemma send_recv_all msgs a b envs a' :
  in_sync a b -> send_all msgs a = (Some envs, a') ->
  prefixes_distinct (root_key a) (tx_info a) (send_epoch a') ->
  exists b', recv_all (zip msgs.*1 envs) b = (Some msgs.*2, b') /\ in_sync a' b'.
Proof.
  revert a b envs a'. induction msgs as [|[aad pt] msgs IH]; intros a b envs a' Hs H Hd; cbn in H.
  { simplify_eq. by exists b. }
  destruct (encrypt aad pt a) as [[env|e] a1] eqn:E; [|done].
  destruct (send_all msgs a1) as [[envs1|] a2] eqn:E2; cbn in H; simplify_eq. cbn.
  pose proof Hs as (Hwf & _). pose proof (encrypt_wf _ _ _ _ _ Hwf E) as Hwf1.
  pose proof (encrypt_position _ _ _ _ _ Hwf E) as (_ & Hr & Ht & _).
  pose proof (send_all_epoch _ _ _ _ Hwf1 E2) as (Hle & _ & _).
  destruct (sync_step _ _ _ _ _ _ Hs E) as (b1 & -> & Hs1).
  { intros e1 e2 ??. apply Hd; lia. }
  destruct (IH _ _ _ _ Hs1 E2) as (b2 & -> & Hs2).
  { by rewrite Hr, Ht. }
  by exists b2.
Qed.

End Encrypt.

(** ** The laws are satisfiable

    A toy instance of the primitives (byte-wise addition for HKDF, a
    key-and-nonce tag for the AEAD) satisfies [CryptoLaws] and evaluates; the
    witnesses below run the model with it. *)

Definition byte_add (a b : byte) : byte := byte_of_Z (Z_of_byte a + Z_of_byte b).

(** Exactly [n] bytes: the input, cut or padded with zeros. *)
Fixpoint fit (n : nat) (l : bytes) : bytes :=
  match n with
  | O => []
  | S n => match l with [] => Byte.x00 :: fit n [] | b :: l => b :: fit n l end
  end.

Definition toy_tag (k n a : bytes) : bytes :=
  zip_with byte_add (fit 16 k) (zip_with byte_add (fit 16 n) (fit 16 a)).

#[global] Arguments toy_tag : simpl never.

#[export] Instance toy_prims : CryptoPrims := {|
  hkdf_sha256_32 ikm salt info := Some (zip_with byte_add (fit 32 ikm) (fit 32 (reverse info)));
  aead_encrypt k n a m := Some (m ++ toy_tag k n a);
  aead_decrypt k n a c :=
    let m := take (length c - 16) c in
    if bool_decide (c = m ++ toy_tag k n a) then Some m else None;
|}.

Lemma length_fit n l : length (fit n l) = n.
Proof. revert l. induction n as [|n IH]; intros [|b l]; cbn; [done..| |]; by rewrite IH. Qed.

Lemma length_toy_tag k n a : length (toy_tag k n a) = 16%nat.
Proof. unfold toy_tag. rewrite !length_zip_with, !length_fit. done. Qed.

#[export] Instance toy_laws : CryptoLaws toy_prims.
Proof.
  split.
  - intros ikm salt info. eexists. split; [done|]. unfold len. rewrite length_zip_with, !length_fit. done.
  - intros k n a m c [= <-]. cbn. rewrite length_app, length_toy_tag.
    replace (length m + 16 - 16)%nat with (length m) by lia. rewrite take_app_length.
    by rewrite bool_decide_eq_true_2.
  - intros k n a m c [= <-]. unfold len. rewrite length_app, length_toy_tag. unfold GCM_TAG_BYTES. lia.
  - intros k n a m c H. cbn in H. case_bool_decide; simplify_eq. cbn. congruence.
Qed.

Definition toy_root : bytes := be_bytes 32 77.
Definition toy_msgs : list (bytes * bytes) :=
  [(str_bytes "aad", str_bytes "hello"); ([], str_bytes "world"); ([], [])].

(** Witness for C2: a schedule with three emitted envelopes, one rotation and
    one hostile frame. *)
Lemma nonce_never_reused_witness :
  let ops := [OpEncrypt [] (str_bytes "a"); OpRotate; OpEncrypt [] (str_bytes "a");
              OpDecrypt [] [] true; OpEncrypt [] (str_bytes "a")] in
  length (ctx_run ops (from_session_root toy_root true)).1 = 3%nat
  /\ NoDup (envelope_id <$> (ctx_run ops (from_session_root toy_root true)).1).
Proof. cbv zeta. split; [vm_compute; reflexivity|]. apply (nonce_never_reused (L := toy_laws)). Defined.

(** Witness for C3. *)
Lemma key_usage_within_limits_witness :
  let '(es, c) := ctx_run [OpEncrypt [] (str_bytes "a"); OpEncrypt [] (str_bytes "bc")]
                    (from_session_root toy_root false) in
  count_epoch 0 es <= MAX_MESSAGES_PER_KEY /\ bytes_in_epoch c <= MAX_BYTES_PER_KEY
  /\ 0 <= send_epoch c <= u64_max.
Proof.
  apply (key_usage_within_limits (L := toy_laws)).
  - repeat constructor; vm_compute; discriminate.
  - split; vm_compute; discriminate.
Defined.

(** Witness for C4: a genuine frame is accepted, and a truncated one leaves
    the context alone. *)
Definition toy_frame : bytes :=
  match encrypt (str_bytes "aad") (str_bytes "hello") (from_session_root toy_root true) with
  | (Ok env, _) => env | (Err _, _) => [] end.
Definition toy_receiver : CryptoContext := from_session_root toy_root false.

Lemma decrypt_atomic_and_canonical_witness :
  (decrypt (str_bytes "aad") toy_frame toy_receiver).1 = Ok (str_bytes "hello")
  /\ (decrypt_internal (str_bytes "aad") [] false toy_receiver).2 = toy_receiver.
Proof.
  split; [vm_compute; reflexivity|].
  apply (decrypt_atomic_and_canonical (L := toy_laws) toy_receiver _ (str_bytes "aad") [] false
    (Err InvalidEnvelope)). vm_compute. reflexivity.
Defined.

(** Witness for C5: a frame accepted once is refused afterwards. *)
Lemma strict_decrypt_at_most_once_witness :
  let c1 := (decrypt (str_bytes "aad") toy_frame toy_receiver).2 in
  (exists e, decrypt (str_bytes "aad") toy_frame (ctx_run [OpRotate] c1).2 = (Err e, (ctx_run [OpRotate] c1).2))
  /\ decrypt_for_delivery (str_bytes "aad") toy_frame c1 = (Ok (str_bytes "hello"), c1).
Proof.
  cbv zeta.
  destruct (strict_decrypt_at_most_once (L := toy_laws) toy_root false [] [OpRotate]
    (str_bytes "aad") toy_frame (str_bytes "hello") toy_receiver
    (decrypt (str_bytes "aad") toy_frame toy_receiver).2
    (ctx_run [OpRotate] (decrypt (str_bytes "aad") toy_frame toy_receiver).2).2) as [H1 H2].
  - reflexivity.
  - vm_compute. reflexivity.
  - reflexivity.
  - vm_compute. reflexivity.
  - split; [apply H1; reflexivity|exact H2].
Defined.

(** Witness for C6. *)
Definition toy_sent : option (list bytes) * CryptoContext :=
  send_all toy_msgs (from_session_root toy_root true).

