(* ===== verification/CryptoSession.v ===== *)
(** * Session crypto contexts, associated data and offers

    Models [network-core/src/crypto/session.rs]: the manager that maps
    [(peer, session)] aliases to shared [Arc<Mutex<CryptoContext>>] values
    (an explicit store of contexts with aliasing), the associated-data
    encodings of file chunks and data messages, and the encrypted Relay
    offer.  X25519 is library code and a parameter. *)
From S2P Require Import Prelude Crypto CryptoProofs.

Definition FILE_CHUNK_AAD_PREFIX : bytes :=
  ascii_bytes "ssh-mobile/session/application/file-chunk/v1".
Definition OFFER_AAD_PREFIX : bytes := ascii_bytes "ssh-mobile/session/application/offer/v1".
Definition OFFER_KDF_INFO : bytes := ascii_bytes "ssh-mobile/session/application/offer/v1".
Definition X25519_PUBLIC_KEY_BYTES : Z := 32.

(** ** The manager *)

Record CryptoContextKey := mkKey { key_peer_id : string; key_session_id : string }.

#[export] Instance CryptoContextKey_eq_dec : EqDecision CryptoContextKey.
Proof. solve_decision. Defined.

#[export] Program Instance CryptoContextKey_countable : Countable CryptoContextKey :=
  inj_countable' (fun k => (key_peer_id k, key_session_id k)) (fun p => mkKey p.1 p.2) _.
Next Obligation. by intros []. Qed.

(** [contexts] holds [Arc]s: addresses into [arcs].  [poisoned] is the state
    of the mutex after a holder panicked. *)
Record SessionCryptoManager := mkManager {
  contexts : gmap CryptoContextKey nat;
  arcs : gmap nat CryptoContext;
  poisoned : bool;
}.

Definition manager_new : SessionCryptoManager :=
  {| contexts := ∅; arcs := ∅; poisoned := false |}.

Definition insert_aliases (peer_id : string) (sids : list string) (arc : nat)
    (m : gmap CryptoContextKey nat) : gmap CryptoContextKey nat :=
  foldl (fun m sid => <[mkKey peer_id sid := arc]> m) m sids.

Definition install_material_aliases (peer_id : string) (session_ids : list string)
    (root : bytes) (initiator : bool) : SE SessionCryptoManager CryptoError nat := fun st =>
  if poisoned st then (Err StateUnavailable, st) else
  let kept := filter (fun kv => key_peer_id kv.1 <> peer_id) (contexts st) in
  let arc := fresh (dom (arcs st)) in
  (Ok arc, {| contexts := insert_aliases peer_id session_ids arc kept;
              arcs := <[arc := from_session_root root initiator]> (arcs st);
              poisoned := poisoned st |}).

Definition manager_get (peer_id session_id : string) (st : SessionCryptoManager) :
    result nat CryptoError :=
  if poisoned st then Err StateUnavailable
  else ok_or (contexts st !! mkKey peer_id session_id) E2eeRequired.

Definition remove_session (peer_id session_id : string) (st : SessionCryptoManager) :
    SessionCryptoManager :=
  if poisoned st then st else
  let key := mkKey peer_id session_id in
  match contexts st !! key with
  | None => st
  | Some arc =>
    {| contexts := filter (fun kv => kv.2 <> arc) (delete key (contexts st));
       arcs := arcs st; poisoned := poisoned st |}
  end.

(** ** Associated data *)

Definition append_len_prefixed (output b : bytes) : bytes :=
  output ++ be_bytes 4 (len b) ++ b.

Definition file_chunk_aad (session_id transfer_id manifest_hash : string) (sequence : Z) : bytes :=
  let aad := FILE_CHUNK_AAD_PREFIX in
  let aad := append_len_prefixed aad (str_bytes session_id) in
  let aad := append_len_prefixed aad (str_bytes transfer_id) in
  let aad := append_len_prefixed aad (str_bytes manifest_hash) in
  aad ++ be_bytes 8 sequence.

Definition next_sequence (sequence : Z) : result Z CryptoError :=
  ok_or (checked_add u64_max sequence 1) SequenceOverflow.

(** [policy] is an [i32]: [be_bytes] of a negative integer is its two's
    complement. *)
Definition data_message_aad (session_id channel_id : string) (message_id : bytes)
    (sequence recovery_epoch policy : Z) : bytes :=
  let aad := append_len_prefixed [] (str_bytes session_id) in
  let aad := append_len_prefixed aad (str_bytes channel_id) in
  let aad := append_len_prefixed aad message_id in
  aad ++ be_bytes 8 sequence ++ be_bytes 8 recovery_epoch ++ be_bytes 4 policy.

Definition offer_aad (session_id : bytes) : bytes := OFFER_AAD_PREFIX ++ session_id.

(** ** Relay offers *)

Class X25519 := {
  x25519_public : bytes -> bytes;
  x25519_dh : bytes -> bytes -> bytes;
}.

(** Documented behaviour of [x25519_dalek]: public keys are 32 bytes and the
    exchange is symmetric. *)
Class X25519Laws (X : X25519) : Prop := {
  x25519_public_len : forall s, len (x25519_public s) = 32;
  x25519_comm : forall s t, x25519_dh s (x25519_public t) = x25519_dh t (x25519_public s);
}.

Section Offer.
Context {P : CryptoPrims} {X : X25519}.

(** [ephemeral] and [nonce] are the values drawn from [OsRng]. *)
Definition encrypt_application_offer (ephemeral nonce : bytes)
    (plaintext peer_public_key session_id : bytes) : result bytes CryptoError :=
  let shared := x25519_dh ephemeral peer_public_key in
  let? key := derive_material shared session_id OFFER_KDF_INFO in
  let? cipher := cipher_new key in
  let? encrypted := ok_or (aead_encrypt cipher nonce (offer_aad session_id) plaintext) Encryption in
  Ok (x25519_public ephemeral ++ nonce ++ encrypted).

Definition decrypt_application_offer (envelope local_secret session_id : bytes) :
    result bytes CryptoError :=
  let minimum := X25519_PUBLIC_KEY_BYTES + GCM_NONCE_BYTES + GCM_TAG_BYTES in
  if len envelope <? minimum then Err InvalidEnvelope else
  let ephemeral_key := slice 0 X25519_PUBLIC_KEY_BYTES envelope in
  let nonce := slice X25519_PUBLIC_KEY_BYTES (minimum - GCM_TAG_BYTES) envelope in
  let shared := x25519_dh local_secret ephemeral_key in
  let? key := derive_material shared session_id OFFER_KDF_INFO in
  let? cipher := cipher_new key in
  ok_or (aead_decrypt cipher nonce (offer_aad session_id)
           (slice (minimum - GCM_TAG_BYTES) (len envelope) envelope)) Decryption.
End Offer.

(** ** One live context per peer *)

(** Sessions installed and removed in any order. *)
Inductive manager_op :=
| MInstall (peer_id : string) (session_ids : list string) (root : bytes) (initiator : bool)
| MRemove (peer_id session_id : string).

Definition manager_step (op : manager_op) (st : SessionCryptoManager) : SessionCryptoManager :=
  match op with
  | MInstall p sids root i => (install_material_aliases p sids root i st).2
  | MRemove p sid => remove_session p sid st
  end.

Definition manager_inv (st : SessionCryptoManager) : Prop :=
  (forall k1 k2 a1 a2, contexts st !! k1 = Some a1 -> contexts st !! k2 = Some a2 ->
     key_peer_id k1 = key_peer_id k2 <-> a1 = a2)
  /\ (forall k a, contexts st !! k = Some a -> is_Some (arcs st !! a)).

Lemma lookup_insert_aliases p sids arc m k :
  insert_aliases p sids arc m !! k =
  if decide (key_peer_id k = p /\ key_session_id k ∈ sids) then Some arc else m !! k.
Proof.
  unfold insert_aliases. revert m. induction sids as [|sid sids IH]; intros m; cbn [foldl].
  { case_decide as H; [|done]. destruct H as [_ H]. by apply not_elem_of_nil in H. }
  rewrite IH. destruct k as [kp ks]; cbn.
  destruct (decide (mkKey p sid = mkKey kp ks)) as [[= -> ->]|Hne].
  - rewrite lookup_insert_eq. repeat case_decide; try done; exfalso; set_solver.
  - rewrite lookup_insert_ne by done.
    assert ((kp = p /\ ks ∈ sid :: sids) <-> (kp = p /\ ks ∈ sids)) as Hiff.
    { rewrite elem_of_cons. split; [|tauto]. intros [-> [->|]]; done. }
    repeat case_decide; tauto || done.
Qed.

Lemma lookup_install p sids root i st r st' k :
  poisoned st = false -> install_material_aliases p sids root i st = (r, st') ->
  r = Ok (fresh (dom (arcs st)))
  /\ arcs st' = <[fresh (dom (arcs st)) := from_session_root root i]> (arcs st)
  /\ contexts st' !! k =
     if decide (key_peer_id k = p)
     then if decide (key_session_id k ∈ sids) then Some (fresh (dom (arcs st))) else None
     else contexts st !! k.
Proof.
  intros Hp. unfold install_material_aliases. rewrite Hp. intros H. simplify_eq. cbn.
  split_and!; [done..|]. rewrite lookup_insert_aliases.
  destruct (decide (key_peer_id k = p)) as [Hk|Hk].
  - rewrite map_lookup_filter_None_2.
    + repeat case_decide; tauto || done.
    + right. intros a _. cbn. tauto.
  - rewrite decide_False by tauto. destruct (contexts st !! k) as [a|] eqn:E.
    + by apply map_lookup_filter_Some_2.
    + apply map_lookup_filter_None_2. by left.
Qed.

Lemma lookup_remove p sid st k a :
  contexts (remove_session p sid st) !! k = Some a <->
  contexts st !! k = Some a
  /\ (poisoned st = false -> forall b, contexts st !! mkKey p sid = Some b -> a <> b).
Proof.
  unfold remove_session. destruct (poisoned st).
  { split; [|tauto]. intros H. split; [done|]. done. }
  destruct (contexts st !! mkKey p sid) as [b|] eqn:E; cbn.
  - rewrite map_lookup_filter_Some, lookup_delete_Some. cbn. split.
    + intros [[_ H] Hne]. split; [done|]. intros _ b' [= <-]. done.
    + intros [H Hne]. specialize (Hne eq_refl b eq_refl). split; [|done]. split; [|done].
      intros <-. congruence.
  - split; [|tauto]. intros H. split; [done|]. intros _ b Hb. done.
Qed.

Lemma remove_session_arcs p sid st : arcs (remove_session p sid st) = arcs st.
Proof. unfold remove_session. repeat destruct_match_goal; done. Qed.

Lemma manager_step_inv op st : manager_inv st -> manager_inv (manager_step op st).
Proof.
  intros [H1 H2]. destruct op as [p sids root i|p sid]; cbn.
  - destruct (poisoned st) eqn:Hp.
    { unfold install_material_aliases. rewrite Hp. done. }
    destruct (install_material_aliases p sids root i st) as [r st'] eqn:E.
    pose proof (fun k => lookup_install p sids root i st r st' k Hp E) as Hl. cbn.
    assert (forall k a, contexts st !! k = Some a -> a <> fresh (dom (arcs st))) as Hfresh.
    { intros k a Hk ->. apply H2 in Hk. apply elem_of_dom in Hk. by apply is_fresh in Hk. }
    split.
    + intros k1 k2 a1 a2 Ha1 Ha2. destruct (Hl k1) as (_ & _ & Hl1), (Hl k2) as (_ & _ & Hl2).
      rewrite Hl1 in Ha1. rewrite Hl2 in Ha2.
      destruct (decide (key_peer_id k1 = p)), (decide (key_peer_id k2 = p));
        repeat case_decide; simplify_eq; try naive_solver.
      all: split; [congruence|intros ->; exfalso; eapply Hfresh; eauto].
    + intros k a Hk. destruct (Hl k) as (_ & Harcs & Hlk). rewrite Harcs. rewrite Hlk in Hk.
      repeat case_decide; simplify_eq; [by rewrite lookup_insert_eq|].
      rewrite lookup_insert_ne by (by apply not_eq_sym; eapply Hfresh). by eapply H2.
  - split.
    + intros k1 k2 a1 a2 [Ha1 _]%lookup_remove [Ha2 _]%lookup_remove. by apply H1.
    + intros k a [Ha _]%lookup_remove. rewrite remove_session_arcs. by eapply H2.
Qed.

Lemma manager_run_inv ops : manager_inv (foldl (fun st op => manager_step op st) manager_new ops).
Proof.
  assert (manager_inv manager_new) as H by (split; cbn; intros; simplify_map_eq).
  revert H. generalize manager_new. induction ops as [|op ops IH]; cbn; [done|].
  intros st H. by apply IH, manager_step_inv.
Qed.

(** every peer has at most one live traffic context, and no context is
    shared between peers.  After any sequence of installations and removals,
    two aliases resolve to the same [CryptoContext] exactly when they belong
    to the same peer; installing a root for a peer makes exactly the listed
    session ids resolve for that peer, all to the one fresh context, and
    leaves other peers' aliases alone; removing any one alias of a peer
    removes all of that peer's aliases and nobody else's. *)
Lemma one_context_per_peer (ops : list manager_op) (st : SessionCryptoManager) :
  st = foldl (fun st op => manager_step op st) manager_new ops -> poisoned st = false ->
  (forall p1 s1 p2 s2 a1 a2, manager_get p1 s1 st = Ok a1 -> manager_get p2 s2 st = Ok a2 ->
     p1 = p2 <-> a1 = a2)
  /\ (forall p sids root i r st', install_material_aliases p sids root i st = (r, st') ->
      exists a, r = Ok a /\ arcs st' !! a = Some (from_session_root root i)
      /\ forall q s, manager_get q s st' =
           if decide (q = p) then (if decide (s ∈ sids) then Ok a else Err E2eeRequired)
           else manager_get q s st)
  /\ (forall p s a, manager_get p s st = Ok a -> forall q s',
      manager_get q s' (remove_session p s st) =
        if decide (q = p) then Err E2eeRequired else manager_get q s' st).
Proof.
  intros -> Hp. pose proof (manager_run_inv ops) as [H1 H2].
  set (st := foldl _ _ _) in *. unfold manager_get. rewrite Hp.
  assert (forall (o : option nat) a, ok_or o E2eeRequired = Ok a -> o = Some a) as Hok
    by (intros [] a; cbn; intros; by simplify_eq).
  split_and!.
  - intros p1 s1 p2 s2 a1 a2 Ha1%Hok Ha2%Hok. apply (H1 _ _ _ _ Ha1 Ha2).
  - intros p sids root i r st' E.
    pose proof (lookup_install p sids root i st r st' (mkKey p EmptyString) Hp E) as (-> & Ha & _).
    eexists. split; [done|]. rewrite Ha, lookup_insert_eq. split; [done|]. intros q s.
    pose proof (lookup_install p sids root i st _ st' (mkKey q s) Hp E) as (_ & _ & ->).
    unfold install_material_aliases in E. rewrite Hp in E. simplify_eq. cbn.
    repeat case_decide; done.
  - intros p s a Ha%Hok q s'.
    assert (poisoned (remove_session p s st) = false) as -> by
      (unfold remove_session; rewrite Hp, Ha; done).
    assert (forall b, contexts (remove_session p s st) !! mkKey q s' = Some b <->
      contexts st !! mkKey q s' = Some b /\ a <> b) as Hlk.
    { intros b. rewrite lookup_remove, Hp, Ha. naive_solver. }
    case_decide as Hq.
    + subst q. destruct (contexts (remove_session p s st) !! mkKey p s') as [b|]; [|done].
      destruct (proj1 (Hlk b) eq_refl) as [Hb Hne]. exfalso. apply Hne. by apply (H1 _ _ _ _ Ha Hb).
    + f_equal. apply option_eq. intros b. rewrite Hlk. split; [tauto|].
      intros Hb. split; [done|]. intros ->. apply Hq. symmetry. by apply (H1 _ _ _ _ Ha Hb).
Qed.

(** ** Associated data binds every field *)

Lemma len_prefixed_inj b1 r1 b2 r2 :
  len b1 <= u32_max -> len b2 <= u32_max ->
  be_bytes 4 (len b1) ++ b1 ++ r1 = be_bytes 4 (len b2) ++ b2 ++ r2 -> b1 = b2 /\ r1 = r2.
Proof.
  unfold u32_max. intros H1 H2 H. pose proof (len_nonneg b1). pose proof (len_nonneg b2).
  apply app_inj_1 in H as [Hl H]; [|by rewrite !length_be_bytes].
  apply be_bytes_inj in Hl; [|cbn; lia..].
  apply app_inj_1 in H; [done|]. unfold len in Hl. lia.
Qed.

Lemma append_len_prefixed_app o b r :
  append_len_prefixed o b ++ r = o ++ be_bytes 4 (len b) ++ b ++ r.
Proof. unfold append_len_prefixed. by rewrite <- !app_assoc. Qed.

Lemma str_len_prefixed_inj s1 r1 s2 r2 :
  slen s1 <= u32_max -> slen s2 <= u32_max ->
  be_bytes 4 (len (str_bytes s1)) ++ str_bytes s1 ++ r1
  = be_bytes 4 (len (str_bytes s2)) ++ str_bytes s2 ++ r2 -> s1 = s2 /\ r1 = r2.
Proof.
  intros H1 H2 H. apply len_prefixed_inj in H as [Hs Hr]; [|by rewrite len_str_bytes..].
  by apply str_bytes_inj in Hs.
Qed.

(** associated data is unambiguous.  The data-message encoding is
    injective in all of session id, channel id, message id, sequence,
    recovery epoch and policy, and the file-chunk encoding in session id,
    transfer id, manifest hash and sequence (string lengths below 2^32, the
    integers at their width): a ciphertext sealed for one message or chunk
    cannot be presented as another. *)
Lemma aad_injective :
  (forall s1 c1 m1 q1 e1 p1 s2 c2 m2 q2 e2 p2,
     slen s1 <= u32_max -> slen s2 <= u32_max -> slen c1 <= u32_max -> slen c2 <= u32_max ->
     len m1 <= u32_max -> len m2 <= u32_max -> is_u64 q1 -> is_u64 q2 -> is_u64 e1 -> is_u64 e2 ->
     - 2 ^ 31 <= p1 < 2 ^ 31 -> - 2 ^ 31 <= p2 < 2 ^ 31 ->
     data_message_aad s1 c1 m1 q1 e1 p1 = data_message_aad s2 c2 m2 q2 e2 p2 ->
     (s1, c1, m1, q1, e1, p1) = (s2, c2, m2, q2, e2, p2))
  /\ (forall s1 t1 h1 q1 s2 t2 h2 q2,
     slen s1 <= u32_max -> slen s2 <= u32_max -> slen t1 <= u32_max -> slen t2 <= u32_max ->
     slen h1 <= u32_max -> slen h2 <= u32_max -> is_u64 q1 -> is_u64 q2 ->
     file_chunk_aad s1 t1 h1 q1 = file_chunk_aad s2 t2 h2 q2 ->
     (s1, t1, h1, q1) = (s2, t2, h2, q2)).
Proof.
  split.
  - intros s1 c1 m1 q1 e1 p1 s2 c2 m2 q2 e2 p2 Hs1 Hs2 Hc1 Hc2 Hm1 Hm2 Hq1 Hq2 He1 He2 Hp1 Hp2.
    unfold data_message_aad. rewrite !append_len_prefixed_app. cbn [app]. intros H.
    apply str_len_prefixed_inj in H as [-> H]; [|done..].
    apply str_len_prefixed_inj in H as [-> H]; [|done..].
    apply len_prefixed_inj in H as [-> H]; [|done..].
    apply app_inj_1 in H as [Hq H]; [|by rewrite !length_be_bytes].
    apply app_inj_1 in H as [He Hp]; [|by rewrite !length_be_bytes].
    apply be_bytes_8_inj in Hq, He; [|done..]. apply (f_equal of_be) in Hp.
    rewrite !of_be_be_bytes_mod in Hp. change (256 ^ Z.of_nat 4) with (2 ^ 32) in Hp.
    assert (p1 = p2) as ->; [|congruence]. Z.div_mod_to_equations. lia.
  - intros s1 t1 h1 q1 s2 t2 h2 q2 Hs1 Hs2 Ht1 Ht2 Hh1 Hh2 Hq1 Hq2.
    unfold file_chunk_aad. rewrite !append_len_prefixed_app. intros H.
    apply app_inv_head in H.
    apply str_len_prefixed_inj in H as [-> H]; [|done..].
    apply str_len_prefixed_inj in H as [-> H]; [|done..].
    apply str_len_prefixed_inj in H as [-> Hq]; [|done..].
    apply be_bytes_8_inj in Hq; [|done..]. by subst.
Qed.

(** the Relay offer round trip.  An offer encrypted to a device's public
    key for a 16-byte session id decrypts with that device's secret and the
    same session id to the clear offer; every successful decryption is of an
    envelope that is the ephemeral key, a 12-byte nonce and the encryption
    of the result under the session's offer binding; anything shorter than
    the fixed overhead is an [InvalidEnvelope]. *)
Lemma offer_round_trip {P : CryptoPrims} {X : X25519} (L : CryptoLaws P) (LX : X25519Laws X)
    (ephemeral nonce plaintext secret session_id : bytes) :
  len nonce = GCM_NONCE_BYTES ->
  (forall env, encrypt_application_offer ephemeral nonce plaintext (x25519_public secret) session_id = Ok env ->
     decrypt_application_offer env secret session_id = Ok plaintext
     /\ len env = 60 + len plaintext)
  /\ (forall env clear, decrypt_application_offer env secret session_id = Ok clear ->
      exists eph n ct key, env = eph ++ n ++ ct /\ len eph = 32 /\ len n = GCM_NONCE_BYTES
      /\ derive_material (x25519_dh secret eph) session_id OFFER_KDF_INFO = Ok key
      /\ aead_encrypt key n (offer_aad session_id) clear = Some ct)
  /\ (forall env, len env < 60 -> decrypt_application_offer env secret session_id = Err InvalidEnvelope).
Proof.
  unfold GCM_NONCE_BYTES. intros Hn. split_and!.
  - intros env. unfold encrypt_application_offer, decrypt_application_offer.
    rewrite x25519_comm.
    destruct (derive_material_ok (x25519_dh secret (x25519_public ephemeral)) session_id OFFER_KDF_INFO)
      as (key & Hk & Hkl). rewrite Hk, cipher_new_ok by done.
    destruct (aead_encrypt key nonce _ plaintext) as [ct|] eqn:Ea; cbn; [|done]. intros [= <-].
    pose proof (x25519_public_len ephemeral) as Hpl. apply aead_length in Ea as Hl.
    apply aead_correct in Ea as Hd. pose proof (len_nonneg plaintext).
    unfold GCM_TAG_BYTES, X25519_PUBLIC_KEY_BYTES, GCM_NONCE_BYTES in *.
    rewrite (proj2 (Z.ltb_ge _ _)) by (rewrite !len_app; lia).
    rewrite slice_app_front by lia.
    rewrite Hk, cipher_new_ok by done.
    rewrite (slice_app_mid (x25519_public ephemeral) nonce ct) by lia.
    rewrite app_assoc, slice_app_end by (rewrite !len_app; lia). rewrite Hd. cbn.
    rewrite !len_app. split; [done|lia].
  - intros env clear. unfold decrypt_application_offer.
    unfold GCM_TAG_BYTES, X25519_PUBLIC_KEY_BYTES, GCM_NONCE_BYTES in *.
    destruct (len env <? _) eqn:El; [done|]. bool_facts.
    destruct (derive_material_ok (x25519_dh secret (slice 0 32 env)) session_id OFFER_KDF_INFO)
      as (key & Hk & Hkl). rewrite Hk, cipher_new_ok by done.
    destruct (aead_decrypt _ _ _ _) as [m|] eqn:Ed; cbn; [|done]. intros [= ->].
    apply aead_authentic in Ed. change (32 + 12 + 16 - 16) with 44 in *.
    exists (slice 0 32 env), (slice 32 44 env), (slice 44 (len env) env), key.
    rewrite !len_slice by lia. split_and!; [|lia|lia|done|done].
    rewrite <- slice_split, <- slice_split by lia. by rewrite slice_all.
  - intros env Hl. unfold decrypt_application_offer.
    unfold GCM_TAG_BYTES, X25519_PUBLIC_KEY_BYTES, GCM_NONCE_BYTES in *.
    by rewrite (proj2 (Z.ltb_lt _ _)) by lia.
Qed.

(** A commutative toy exchange for the witness. *)
Definition toy_x25519 : X25519 := {|
  x25519_public s := fit 32 s;
  x25519_dh s p := zip_with byte_add (fit 32 s) (fit 32 p);
|}.

Lemma byte_add_comm a b : byte_add a b = byte_add b a.
Proof. unfold byte_add. by rewrite Z.add_comm. Qed.

Lemma fit_fit n l : fit n (fit n l) = fit n l.
Proof. revert l. induction n as [|n IH]; intros [|b l]; cbn; [done..| |]; by rewrite IH. Qed.

Lemma toy_x25519_laws : X25519Laws toy_x25519.
Proof.
  split.
  - intros s. unfold len. cbn [x25519_public toy_x25519]. by rewrite length_fit.
  - intros s t. cbn [x25519_public x25519_dh toy_x25519]. rewrite !fit_fit.
    rewrite <- zip_with_flip. apply zip_with_ext; [|done..]. intros; apply byte_add_comm.
Qed.
