(* ===== verification/Delivery.v ===== *)
(** * Delivery: data, ordered channels and the shared store

    Models [network-core/src/delivery/mod.rs], [store.rs] and [ordered.rs]
    and the helpers of [recovery.rs]: identities, policies, retry budgets,
    the [DeliveryStore] and the reorder buffer of one ordered channel.  The
    operations of the sender are in [DeliverySend], those of the receiver in
    [DeliveryRecv].  The theorems here are about the reorder buffer and the
    backoff schedule. *)
From S2P Require Import Prelude.

Definition MAX_SCOPE_ID_BYTES : Z := 128.
Definition MESSAGE_ID_BYTES : Z := 16.
Definition MAX_TERMINAL_OUTCOMES : Z := 4096.
Definition MAX_ACTIVE_INCOMING_RECORDS : Z := 4096.

Definition is_valid_scope_id (value : string) : bool :=
  negb (str_is_empty value) && (slen value <=? MAX_SCOPE_ID_BYTES).
Definition is_valid_peer_id (peer_id : string) : bool := is_valid_scope_id peer_id.

(** ** Identities *)

(** [MessageId([u8; 16])]; a value built by the code holds 16 bytes. *)
Record MessageId := from_bytes { to_bytes : bytes }.

#[export] Instance MessageId_eq_dec : EqDecision MessageId.
Proof. solve_decision. Defined.
#[export] Program Instance MessageId_countable : Countable MessageId :=
  inj_countable' to_bytes from_bytes _.
Next Obligation. by intros []. Qed.

Record DeliveryIdentity := mkIdentity { id_peer_id : string; id_message_id : MessageId }.

#[export] Instance DeliveryIdentity_eq_dec : EqDecision DeliveryIdentity.
Proof. solve_decision. Defined.
#[export] Program Instance DeliveryIdentity_countable : Countable DeliveryIdentity :=
  inj_countable' (fun i => (id_peer_id i, id_message_id i)) (fun p => mkIdentity p.1 p.2) _.
Next Obligation. by intros []. Qed.

Record DedupKey := dedup_key {
  dk_peer_id : string; dk_channel_id : string; dk_message_id : MessageId }.

#[export] Instance DedupKey_eq_dec : EqDecision DedupKey.
Proof. solve_decision. Defined.
#[export] Program Instance DedupKey_countable : Countable DedupKey :=
  inj_countable' (fun k => (dk_peer_id k, dk_channel_id k, dk_message_id k))
    (fun p => dedup_key p.1.1 p.1.2 p.2) _.
Next Obligation. by intros []. Qed.

(** ** Enumerations *)

Inductive BusinessRecoveryError := RecoverableTransportLoss | OperationExpired | ResumeRejected.

Inductive DeliveryPolicy :=
| BestEffort | LatestState | Acked | AckedDeduplicated | SessionBoundOrdered | ResumableTransfer.

Inductive DeliveryState :=
| StQueued | StSending | StSentUnacked | StAcked | StExpired | StCancelled | StFailed.

Inductive AckResult := AckAcknowledged | AckUnknown.

Inductive DedupDecision :=
| New | DuplicateInFlight | DuplicateProcessed | CapacityExceeded | ChannelFailed.

Inductive RetryDecision := RetryAt (at_ : Z) | RetryFailed | RetryExpired | RetryNotFound.

Inductive DeliveryError :=
| InvalidScope | PayloadTooLarge | InvalidRetryPolicy | QueueFull | NotFound | Expired
| RetryExhausted.

Inductive DeliveryTerminalOutcome := OutAcknowledged | OutExpired | OutCancelled | OutFailed.

Inductive OrderedInsertResult := Ready | Buffered | Duplicate | Rejected.

#[export] Instance DeliveryPolicy_eq_dec : EqDecision DeliveryPolicy.
Proof. solve_decision. Defined.
#[export] Instance DeliveryState_eq_dec : EqDecision DeliveryState.
Proof. solve_decision. Defined.
#[export] Instance DedupDecision_eq_dec : EqDecision DedupDecision.
Proof. solve_decision. Defined.
#[export] Instance DeliveryTerminalOutcome_eq_dec : EqDecision DeliveryTerminalOutcome.
Proof. solve_decision. Defined.
#[export] Instance OrderedInsertResult_eq_dec : EqDecision OrderedInsertResult.
Proof. solve_decision. Defined.

Definition identity_new (peer_id : string) (message_id : MessageId) :
    result DeliveryIdentity DeliveryError :=
  if negb (is_valid_peer_id peer_id) then Err InvalidScope
  else Ok (mkIdentity peer_id message_id).

Definition retry_recovery_error (d : RetryDecision) : option BusinessRecoveryError :=
  match d with
  | RetryAt _ => Some RecoverableTransportLoss
  | RetryFailed | RetryExpired => Some OperationExpired
  | RetryNotFound => None
  end.

Definition delivery_recovery_error (e : DeliveryError) : option BusinessRecoveryError :=
  match e with
  | Expired | RetryExhausted => Some OperationExpired
  | _ => None
  end.

(** ** Retry budget *)

Record RetryPolicy := mkRetryPolicy {
  max_attempts : Z;
  initial_backoff : Z;
  max_backoff : Z;
  ttl : option Z;
  max_total_retry_bytes : option Z;
}.

Definition retry_policy_default : RetryPolicy := {|
  max_attempts := 5;
  initial_backoff := from_millis 250;
  max_backoff := from_secs 5;
  ttl := Some (from_secs (10 * 60));
  max_total_retry_bytes := Some (64 * 1024 * 1024);
|}.

Definition is_valid (p : RetryPolicy) : bool :=
  (0 <? max_attempts p) && (initial_backoff p <=? max_backoff p).

(** [1u32.checked_shl(shift)] is [None] from 32 on; the shift is at most 31. *)
Definition checked_shl_1_u32 (shift : Z) : option Z :=
  if shift <? 32 then Some (wrap 32 (Z.shiftl 1 shift)) else None.

Definition delay_for_attempt (p : RetryPolicy) (attempt : Z) : Z :=
  let shift := Z.min (saturating_sub attempt 1) 31 in
  let multiplier := default u32_max (checked_shl_1_u32 shift) in
  Z.min (duration_saturating_mul (initial_backoff p) multiplier) (max_backoff p).

(** ** Messages *)

Record PendingMessage := mkPending {
  pm_message_id : MessageId;
  pm_peer_id : string;
  pm_channel_id : string;
  pm_sequence : Z;
  pm_payload : bytes;
  pm_policy : DeliveryPolicy;
  pm_state : DeliveryState;
  pm_attempts : Z;
  pm_created_at : Z;
  pm_expires_at : option Z;
  pm_recovery_epoch : Z;
  pm_retry_policy : RetryPolicy;
  pm_next_retry_at : Z;
  pm_retry_bytes : Z;
}.

(** The field assignments [message.f = ...] of the source. *)
Definition set_schedule (state : DeliveryState) (next_retry_at : Z) (m : PendingMessage) :
    PendingMessage :=
  mkPending (pm_message_id m) (pm_peer_id m) (pm_channel_id m) (pm_sequence m) (pm_payload m)
    (pm_policy m) state (pm_attempts m) (pm_created_at m) (pm_expires_at m)
    (pm_recovery_epoch m) (pm_retry_policy m) next_retry_at (pm_retry_bytes m).
Definition set_state (state : DeliveryState) (m : PendingMessage) : PendingMessage :=
  set_schedule state (pm_next_retry_at m) m.
Definition set_recovery_epoch (epoch : Z) (m : PendingMessage) : PendingMessage :=
  mkPending (pm_message_id m) (pm_peer_id m) (pm_channel_id m) (pm_sequence m) (pm_payload m)
    (pm_policy m) (pm_state m) (pm_attempts m) (pm_created_at m) (pm_expires_at m)
    epoch (pm_retry_policy m) (pm_next_retry_at m) (pm_retry_bytes m).
Definition set_attempt (attempts retry_bytes : Z) (m : PendingMessage) : PendingMessage :=
  mkPending (pm_message_id m) (pm_peer_id m) (pm_channel_id m) (pm_sequence m) (pm_payload m)
    (pm_policy m) (pm_state m) attempts (pm_created_at m) (pm_expires_at m)
    (pm_recovery_epoch m) (pm_retry_policy m) (pm_next_retry_at m) retry_bytes.

Record RecoverySnapshot := mkSnapshot {
  rs_recovery_epoch : Z; rs_messages : list PendingMessage }.

Record DeliverySendAttempt := mkAttempt {
  at_peer_id : string; at_message_id : MessageId; at_attempt : Z; at_message : PendingMessage }.

Record OrderedMessage := mkOrderedMessage {
  om_peer_id : string;
  om_session_id : string;
  om_channel_id : string;
  om_message_id : MessageId;
  om_sequence : Z;
  om_policy : DeliveryPolicy;
  om_payload : bytes;
}.

#[export] Instance OrderedMessage_eq_dec : EqDecision OrderedMessage.
Proof. solve_decision. Defined.

Record IncomingCompletion := mkCompletion {
  ic_recovery_epoch : Z; ic_next_ordered : option OrderedMessage }.

Record IncomingTimeout := mkTimeout {
  it_peer_id : string;
  it_channel_id : string;
  it_message_id : MessageId;
  it_ordered_channel_failed : bool;
}.

(** ** Configuration *)

Record DeliveryConfig := mkConfig {
  max_pending_messages : Z;
  max_pending_bytes : Z;
  max_payload_bytes : Z;
  dedup_max_entries : Z;
  dedup_ttl : Z;
  application_ack_timeout : Z;
  max_reorder_messages : Z;
  max_reorder_bytes : Z;
  max_sequence_gap : Z;
}.

Definition config_default : DeliveryConfig := {|
  max_pending_messages := 1024;
  max_pending_bytes := 16 * 1024 * 1024;
  max_payload_bytes := 1024 * 1024;
  dedup_max_entries := 4096;
  dedup_ttl := from_secs (10 * 60);
  application_ack_timeout := from_secs (5 * 60);
  max_reorder_messages := 64;
  max_reorder_bytes := 4 * 1024 * 1024;
  max_sequence_gap := 1024;
|}.

(** ** One ordered channel ([ordered.rs]) *)

Record OrderedChannelState := mkOrdered {
  expected_sequence : Z;
  in_flight : option MessageId;
  reorder_buffer : gmap Z OrderedMessage;
  reorder_bytes : Z;
}.

Definition ordered_default : OrderedChannelState := mkOrdered 0 None ∅ 0.

Definition ordered_insert (message : OrderedMessage) (max_messages max_bytes max_gap : Z)
    (st : OrderedChannelState) : OrderedInsertResult * OrderedChannelState :=
  let seq := om_sequence message in
  if seq <? expected_sequence st then (Duplicate, st) else
  if seq =? expected_sequence st then
    match in_flight st with
    | Some message_id =>
      if bool_decide (message_id = om_message_id message) then (Duplicate, st) else (Rejected, st)
    | None =>
      (Ready, mkOrdered (expected_sequence st) (Some (om_message_id message))
                (reorder_buffer st) (reorder_bytes st))
    end
  else if (max_gap <? saturating_sub seq (expected_sequence st))
       || (max_messages <=? map_len (reorder_buffer st))
       || (max_bytes <? saturating_add u64_max (reorder_bytes st) (len (om_payload message)))
  then (Rejected, st)
  else match reorder_buffer st !! seq with
  | Some existing =>
    if bool_decide (om_message_id existing = om_message_id message) then (Duplicate, st)
    else (Rejected, st)
  | None =>
    (Buffered, mkOrdered (expected_sequence st) (in_flight st)
                 (<[seq := message]> (reorder_buffer st))
                 (saturating_add u64_max (reorder_bytes st) (len (om_payload message))))
  end.

Definition ordered_acknowledge (message_id : MessageId) (st : OrderedChannelState) :
    option OrderedMessage * OrderedChannelState :=
  if negb (bool_decide (in_flight st = Some message_id)) then (None, st) else
  let expected := saturating_add u64_max (expected_sequence st) 1 in
  match reorder_buffer st !! expected with
  | None => (None, mkOrdered expected None (reorder_buffer st) (reorder_bytes st))
  | Some next =>
    (Some next, mkOrdered expected (Some (om_message_id next))
                  (delete expected (reorder_buffer st))
                  (saturating_sub (reorder_bytes st) (len (om_payload next))))
  end.

(** ** The store ([store.rs]) *)

Inductive ActiveIncomingState := InFlight | OrderedBuffered.

#[export] Instance ActiveIncomingState_eq_dec : EqDecision ActiveIncomingState.
Proof. solve_decision. Defined.

Record ActiveIncomingRecord := mkActive {
  ack_deadline : option Z; ar_recovery_epoch : Z; ar_state : ActiveIncomingState }.

Record ProcessedDedupRecord := mkProcessed {
  pr_expires_at : Z; pr_last_seen_at : Z; pr_recovery_epoch : Z }.

Record DeliveryStore := mkStore {
  pending : gmap DeliveryIdentity PendingMessage;
  pending_bytes : Z;
  terminal_outcomes : gmap DeliveryIdentity DeliveryTerminalOutcome;
  next_sequences : gmap (string * string) Z;
  recovery_epochs : gmap string Z;
  incoming_active : gmap DedupKey ActiveIncomingRecord;
  processed_dedup : gmap DedupKey ProcessedDedupRecord;
  ordered : gmap (string * string) OrderedChannelState;
  failed_ordered : gset (string * string);
}.

Definition store_new : DeliveryStore := mkStore ∅ 0 ∅ ∅ ∅ ∅ ∅ ∅ ∅.

(** Assignments to the fields of the store. *)
Definition set_pending (p : gmap DeliveryIdentity PendingMessage) (b : Z) (s : DeliveryStore) :=
  mkStore p b (terminal_outcomes s) (next_sequences s) (recovery_epochs s)
    (incoming_active s) (processed_dedup s) (ordered s) (failed_ordered s).
Definition set_terminal (t : gmap DeliveryIdentity DeliveryTerminalOutcome) (s : DeliveryStore) :=
  mkStore (pending s) (pending_bytes s) t (next_sequences s) (recovery_epochs s)
    (incoming_active s) (processed_dedup s) (ordered s) (failed_ordered s).
Definition set_next_sequences (n : gmap (string * string) Z) (s : DeliveryStore) :=
  mkStore (pending s) (pending_bytes s) (terminal_outcomes s) n (recovery_epochs s)
    (incoming_active s) (processed_dedup s) (ordered s) (failed_ordered s).
Definition set_recovery_epochs (e : gmap string Z) (s : DeliveryStore) :=
  mkStore (pending s) (pending_bytes s) (terminal_outcomes s) (next_sequences s) e
    (incoming_active s) (processed_dedup s) (ordered s) (failed_ordered s).
Definition set_incoming (a : gmap DedupKey ActiveIncomingRecord)
    (p : gmap DedupKey ProcessedDedupRecord) (s : DeliveryStore) :=
  mkStore (pending s) (pending_bytes s) (terminal_outcomes s) (next_sequences s)
    (recovery_epochs s) a p (ordered s) (failed_ordered s).
Definition set_ordered (o : gmap (string * string) OrderedChannelState)
    (f : gset (string * string)) (s : DeliveryStore) :=
  mkStore (pending s) (pending_bytes s) (terminal_outcomes s) (next_sequences s)
    (recovery_epochs s) (incoming_active s) (processed_dedup s) o f.

(** The iteration orders of the store's hash maps and of the hash sets the
    operations build. *)
Class DeliveryOrders := {
  pending_order :: HashOrder DeliveryIdentity PendingMessage;
  terminal_order :: HashOrder DeliveryIdentity DeliveryTerminalOutcome;
  active_order :: HashOrder DedupKey ActiveIncomingRecord;
  processed_order :: HashOrder DedupKey ProcessedDedupRecord;
  dedup_set_order :: SetOrder DedupKey;
  scope_set_order :: SetOrder (string * string);
}.

#[export] Instance default_delivery_orders : DeliveryOrders | 100 := {|
  pending_order := default_hash_order _ _;
  terminal_order := default_hash_order _ _;
  active_order := default_hash_order _ _;
  processed_order := default_hash_order _ _;
  dedup_set_order := default_set_order _;
  scope_set_order := default_set_order _;
|}.

(** The manager: the configuration, the store and the registry of retry
    workers. *)
Record DeliveryManager := mkDeliveryManager {
  dm_config : DeliveryConfig; dm_store : DeliveryStore; dm_retry_workers : gset string }.

Definition with_config (config : DeliveryConfig) : DeliveryManager :=
  mkDeliveryManager config store_new ∅.
Definition manager_default : DeliveryManager := with_config config_default.

Definition try_start_retry_worker (peer_id : string) (m : DeliveryManager) :
    bool * DeliveryManager :=
  (negb (bool_decide (peer_id ∈ dm_retry_workers m)),
   mkDeliveryManager (dm_config m) (dm_store m) ({[peer_id]} ∪ dm_retry_workers m)).
Definition stop_retry_worker (peer_id : string) (m : DeliveryManager) : DeliveryManager :=
  mkDeliveryManager (dm_config m) (dm_store m) (dm_retry_workers m ∖ {[peer_id]}).

(** ** Backoff *)

Lemma delay_for_attempt_eq p attempt :
  0 <= attempt ->
  delay_for_attempt p attempt
  = Z.min (Z.min duration_max (initial_backoff p * 2 ^ Z.min (saturating_sub attempt 1) 31))
      (max_backoff p).
Proof.
  intros Ha. unfold delay_for_attempt, duration_saturating_mul.
  set (shift := Z.min (saturating_sub attempt 1) 31).
  assert (0 <= shift <= 31) by (subst shift; unfold saturating_sub; lia).
  unfold checked_shl_1_u32. rewrite (proj2 (Z.ltb_lt shift 32)) by lia. cbn [default].
  rewrite Z.shiftl_1_l. unfold wrap. rewrite Z.mod_small; [done|].
  split; [apply Z.pow_nonneg; lia|apply Z.pow_lt_mono_r; lia].
Qed.

(** The delay before the next attempt starts at [initial_backoff], never
    exceeds [max_backoff], never decreases from one attempt to the next, and
    doubles until it reaches the cap: the shift saturates at 31, so no attempt
    number overflows it. *)
Lemma backoff_doubles_up_to_cap p :
  is_valid p = true -> 0 <= initial_backoff p -> max_backoff p <= duration_max ->
  delay_for_attempt p 1 = initial_backoff p /\
  (forall a, 1 <= a -> initial_backoff p <= delay_for_attempt p a <= max_backoff p) /\
  (forall a, 1 <= a -> delay_for_attempt p a <= delay_for_attempt p (a + 1)) /\
  (forall a, 1 <= a <= 31 ->
     delay_for_attempt p (a + 1) = Z.min (2 * delay_for_attempt p a) (max_backoff p)).
Proof.
  unfold is_valid. intros Hv H0 Hm. bool_facts.
  assert (Hpow : forall i j, 0 <= i <= j ->
            0 < 2 ^ i <= 2 ^ j) by (intros; split; [apply Z.pow_pos_nonneg|apply Z.pow_le_mono_r]; lia).
  split_and!.
  - rewrite delay_for_attempt_eq by lia. change (2 ^ _) with 1. lia.
  - intros a Ha. rewrite delay_for_attempt_eq by lia. unfold saturating_sub.
    pose proof (Hpow 0 (Z.min (Z.max 0 (a - 1)) 31) ltac:(lia)). nia.
  - intros a Ha. rewrite !delay_for_attempt_eq by lia. unfold saturating_sub.
    pose proof (Hpow (Z.min (Z.max 0 (a - 1)) 31) (Z.min (Z.max 0 (a + 1 - 1)) 31) ltac:(lia)).
    nia.
  - intros a Ha. rewrite !delay_for_attempt_eq by lia. unfold saturating_sub.
    replace (Z.min (Z.max 0 (a + 1 - 1)) 31) with (Z.succ (Z.min (Z.max 0 (a - 1)) 31)) by lia.
    rewrite Z.pow_succ_r by lia.
    pose proof (Hpow 0 (Z.min (Z.max 0 (a - 1)) 31) ltac:(lia)). nia.
Qed.

(** ** The reorder buffer against its specification

    A schedule of one channel: messages arrive in any order and the
    application acknowledges the message it holds. *)
Inductive channel_event := Arrive (m : OrderedMessage) | AckCurrent.

Section Channel.
Variables max_messages max_bytes max_gap : Z.

(** The messages a step hands to the application. *)
Definition channel_step (e : channel_event) (st : OrderedChannelState) :
    list OrderedMessage * OrderedChannelState :=
  match e with
  | Arrive m =>
    match ordered_insert m max_messages max_bytes max_gap st with
    | (Ready, st') => ([m], st')
    | (_, st') => ([], st')
    end
  | AckCurrent =>
    match in_flight st with
    | None => ([], st)
    | Some id => let '(next, st') := ordered_acknowledge id st in (option_list next, st')
    end
  end.

Fixpoint channel_run (es : list channel_event) (st : OrderedChannelState) :
    list OrderedMessage * OrderedChannelState :=
  match es with
  | [] => ([], st)
  | e :: es =>
    let '(out, st1) := channel_step e st in
    let '(outs, st2) := channel_run es st1 in (out ++ outs, st2)
  end.

Fixpoint arrivals (es : list channel_event) : list OrderedMessage :=
  match es with
  | [] => []
  | Arrive m :: es => m :: arrivals es
  | AckCurrent :: es => arrivals es
  end.

Lemma channel_run_app es1 es2 st :
  channel_run (es1 ++ es2) st
  = let (out1, st1) := channel_run es1 st in
    let (out2, st2) := channel_run es2 st1 in (out1 ++ out2, st2).
Proof.
  revert st. induction es1 as [|e es1 IH]; intros st; cbn; [by destruct (channel_run es2 st)|].
  destruct (channel_step e st) as [out st1]. rewrite IH.
  destruct (channel_run es1 st1) as [out1 st2], (channel_run es2 st2) as [out2 st3].
  by rewrite app_assoc.
Qed.

(** The specification: the arrived messages by sequence and the number [k]
    of acknowledged ones determine the channel's state from base [e]. *)
Definition beyond (n : Z) (R : gmap Z OrderedMessage) : gmap Z OrderedMessage :=
  filter (fun kv => n < kv.1) R.

Definition channel_of (R : gmap Z OrderedMessage) (n : Z) : OrderedChannelState :=
  mkOrdered n (om_message_id <$> R !! n) (beyond n R)
    (map_sum (fun m => len (om_payload m)) (beyond n R)).

Lemma beyond_insert_above n R s m :
  n < s -> beyond n (<[s := m]> R) = <[s := m]> (beyond n R).
Proof. intros. unfold beyond. by rewrite map_filter_insert_True. Qed.

Lemma beyond_insert_here n R m : R !! n = None -> beyond n (<[n := m]> R) = beyond n R.
Proof.
  intros E. unfold beyond. rewrite map_filter_insert_False by (cbn; lia).
  by rewrite delete_id.
Qed.

Lemma lookup_beyond n R s : n < s -> beyond n R !! s = R !! s.
Proof.
  intros Hs. unfold beyond. destruct (R !! s) as [m|] eqn:E.
  - by apply map_lookup_filter_Some.
  - apply map_lookup_filter_None. by left.
Qed.

Lemma beyond_succ n R : beyond (n + 1) R = delete (n + 1) (beyond n R).
Proof.
  apply map_eq. intros s. unfold beyond.
  destruct (decide (s = n + 1)) as [->|Hne].
  - rewrite lookup_delete_eq. apply map_lookup_filter_None. right. cbn. lia.
  - rewrite lookup_delete_ne by done. apply option_eq. intros m.
    rewrite !map_lookup_filter_Some. cbn. split; intros [? ?]; split; try done; lia.
Qed.

(** A message that has not arrived yet takes its place in the specification. *)
Lemma channel_arrive R n m :
  n <= om_sequence m <= n + max_gap -> R !! om_sequence m = None ->
  map_len (beyond n R) < max_messages ->
  map_sum (fun m => len (om_payload m)) (beyond n R) + len (om_payload m) <= max_bytes ->
  max_bytes <= u64_max ->
  channel_step (Arrive m) (channel_of R n)
  = (if om_sequence m =? n then [m] else [], channel_of (<[om_sequence m := m]> R) n).
Proof.
  intros Hs Hnew Hlen Hbytes Hu. cbn [channel_step]. unfold ordered_insert, channel_of. cbn.
  rewrite (proj2 (Z.ltb_ge _ _)) by lia.
  destruct (om_sequence m =? n) eqn:E; bool_facts.
  - rewrite E in *. rewrite Hnew. cbn. by rewrite lookup_insert_eq, beyond_insert_here.
  - rewrite (proj2 (Z.ltb_ge max_gap _)) by (unfold saturating_sub; lia).
    rewrite (proj2 (Z.leb_gt _ _)) by lia.
    rewrite (proj2 (Z.ltb_ge max_bytes _)) by (unfold saturating_add; lia). cbn.
    rewrite lookup_beyond, Hnew by lia. cbn.
    rewrite lookup_insert_ne, beyond_insert_above by lia. do 2 f_equal.
    rewrite map_sum_insert_new by (rewrite lookup_beyond; [done|lia]).
    unfold saturating_add. lia.
Qed.

(** Acknowledging the message in flight releases its successor. *)
Lemma channel_ack R n m :
  n < u64_max -> R !! n = Some m ->
  channel_step AckCurrent (channel_of R n) = (option_list (R !! (n + 1)), channel_of R (n + 1)).
Proof.
  intros Hn Hm. cbn [channel_step]. unfold channel_of at 1. cbn. rewrite Hm. cbn.
  unfold ordered_acknowledge, channel_of. cbn. rewrite Hm. cbn.
  rewrite bool_decide_eq_true_2 by done. cbn.
  replace (saturating_add u64_max n 1) with (n + 1) by (unfold saturating_add; lia).
  rewrite lookup_beyond, beyond_succ by lia.
  destruct (R !! (n + 1)) as [next|] eqn:E; cbn.
  - rewrite (map_sum_delete _ _ _ next) by (rewrite lookup_beyond; [done|lia]).
    unfold saturating_sub. rewrite Z.max_r; [done|].
    pose proof (map_sum_lookup_le (fun m => len (om_payload m)) (beyond n R) (n + 1) next
      ltac:(intros; apply len_nonneg) ltac:(rewrite lookup_beyond; [done|lia])). cbn in *. lia.
  - by rewrite delete_id by (rewrite lookup_beyond; [done|lia]).
Qed.

Lemma channel_ack_idle R n :
  R !! n = None -> channel_step AckCurrent (channel_of R n) = ([], channel_of R n).
Proof. intros E. unfold channel_of. cbn. by rewrite E. Qed.

Section Delivery.
Variables (e : Z) (msgs : list OrderedMessage).
Let M : gmap Z OrderedMessage := map_seqZ e msgs.
Let size_of (m : OrderedMessage) : Z := len (om_payload m).

Hypothesis Hseq : forall i m, msgs !! i = Some m -> om_sequence m = e + Z.of_nat i.
Hypothesis Hrange : e + len msgs <= u64_max.
Hypothesis Hmessages : len msgs <= max_messages.
Hypothesis Hgap : len msgs <= max_gap.
Hypothesis Hbytes : sum_with size_of msgs <= max_bytes.
Hypothesis Hmax : max_bytes <= u64_max.

(** Number of messages handed over when [R] arrived and [k] are acknowledged. *)
Definition emitted (R : gmap Z OrderedMessage) (k : nat) : nat :=
  (k + match R !! (e + Z.of_nat k)%Z with Some _ => 1 | None => 0 end)%nat.

Definition good (R : gmap Z OrderedMessage) (k : nat) : Prop :=
  R ⊆ M /\ (k <= length msgs)%nat /\
  forall i, (i < k)%nat -> is_Some (R !! (e + Z.of_nat i)).

Lemma lookup_M i m : M !! (e + Z.of_nat i) = Some m <-> msgs !! i = Some m.
Proof.
  unfold M. rewrite lookup_map_seqZ_Some. replace (Z.to_nat _) with i by lia.
  split; [by intros []|]. intros; split; [lia|done].
Qed.

Lemma M_sequence s m : M !! s = Some m -> om_sequence m = s /\ e <= s < e + len msgs.
Proof.
  unfold M. intros [Hs Hm]%lookup_map_seqZ_Some. pose proof (Hseq _ _ Hm).
  apply lookup_lt_Some in Hm. unfold len. lia.
Qed.

(** Room is left in the buffer for a message that has not arrived. *)
Lemma room_for R n m :
  R ⊆ M -> R !! om_sequence m = None -> M !! om_sequence m = Some m ->
  map_len (beyond n R) < max_messages /\
  map_sum size_of (beyond n R) + len (om_payload m) <= max_bytes.
Proof.
  intros HR Hn Hm.
  assert (Hsub : <[om_sequence m := m]> R ⊆ M) by by apply insert_subseteq_l.
  assert (Hlen : map_len (<[om_sequence m := m]> R) <= len msgs).
  { rewrite <- (map_len_map_seqZ e). unfold map_len. by apply inj_le, map_subseteq_size. }
  assert (Hsum : map_sum size_of (<[om_sequence m := m]> R) <= map_sum size_of M)
    by (apply map_sum_subseteq; [intros; apply len_nonneg|done]).
  unfold M in Hsum. rewrite map_sum_map_seqZ in Hsum.
  rewrite map_len_insert_new in Hlen by done. rewrite map_sum_insert_new in Hsum by done.
  unfold beyond. pose proof (map_len_filter_le (fun kv => n < kv.1) R).
  assert (map_sum size_of (filter (fun kv : Z * OrderedMessage => n < kv.1) R) <= map_sum size_of R)
    by (apply map_sum_subseteq; [intros; apply len_nonneg|apply map_filter_subseteq]).
  unfold size_of in *. lia.
Qed.

(** What one event hands over continues what was handed over before. *)
Definition continues (R R' : gmap Z OrderedMessage) (k k' : nat)
    (out : list OrderedMessage) : Prop :=
  take (emitted R k) msgs ++ out = take (emitted R' k') msgs.

Lemma take_S_lookup i m : msgs !! i = Some m -> take i msgs ++ [m] = take (S i) msgs.
Proof. intros Hm. by rewrite (take_S_r _ _ m). Qed.

Lemma arrive_good R k m :
  good R k -> M !! om_sequence m = Some m -> R !! om_sequence m = None ->
  exists out,
    channel_step (Arrive m) (channel_of R (e + Z.of_nat k))
      = (out, channel_of (<[om_sequence m := m]> R) (e + Z.of_nat k)) /\
    good (<[om_sequence m := m]> R) k /\
    continues R (<[om_sequence m := m]> R) k k out.
Proof.
  intros (HR & Hk & Hdone) Hm Hnew. destruct (M_sequence _ _ Hm) as [_ Hs].
  assert (e + Z.of_nat k <= om_sequence m).
  { destruct (Z.le_gt_cases (e + Z.of_nat k) (om_sequence m)) as [|Hlt]; [done|].
    destruct (Hdone (Z.to_nat (om_sequence m - e))) as [? Hsome]; [lia|].
    replace (e + _) with (om_sequence m) in Hsome by lia. congruence. }
  destruct (room_for R (e + Z.of_nat k) m HR Hnew Hm) as [Hroom1 Hroom2].
  eexists. split; [|split].
  - apply channel_arrive; [lia|done|done|done|done].
  - split; [by apply insert_subseteq_l|split; [done|]]. intros i Hi.
    destruct (decide (om_sequence m = e + Z.of_nat i)) as [->|];
      [rewrite lookup_insert_eq; by eexists|rewrite lookup_insert_ne by done; by apply Hdone].
  - unfold continues, emitted. destruct (om_sequence m =? e + Z.of_nat k) eqn:E; bool_facts.
    + rewrite <- E, lookup_insert_eq, Hnew, Nat.add_0_r, Nat.add_1_r.
      apply take_S_lookup, lookup_M. by rewrite <- E.
    + rewrite lookup_insert_ne by done. apply app_nil_r.
Qed.

Lemma ack_good R k :
  good R k ->
  exists k' out,
    channel_step AckCurrent (channel_of R (e + Z.of_nat k)) = (out, channel_of R (e + Z.of_nat k')) /\
    good R k' /\ continues R R k k' out /\
    k' = emitted R k.
Proof.
  intros (HR & Hk & Hdone). unfold continues, emitted.
  destruct (R !! (e + Z.of_nat k)) as [m|] eqn:Hm.
  - assert (HM : M !! (e + Z.of_nat k) = Some m) by by eapply lookup_weaken.
    destruct (M_sequence _ _ HM) as [_ Hlt].
    exists (k + 1)%nat. eexists. rewrite (channel_ack R _ m) by (done || lia).
    replace (e + Z.of_nat (k + 1)) with (e + Z.of_nat k + 1) by lia.
    split; [done|]. split; [|split; [|done]].
    + split; [done|]. split; [unfold len in *; lia|]. intros i Hi.
      destruct (decide (i = k)) as [->|]; [by eexists|apply Hdone; lia].
    + destruct (R !! (e + Z.of_nat k + 1)) as [next|] eqn:Hn; cbn.
      * rewrite !Nat.add_1_r. apply take_S_lookup, lookup_M.
        replace (e + _) with (e + Z.of_nat k + 1) by lia. by eapply lookup_weaken.
      * by rewrite app_nil_r, Nat.add_0_r.
  - exists k, []. rewrite channel_ack_idle by done.
    split; [done|]. split; [done|]. rewrite app_nil_r, Nat.add_0_r. split; [by rewrite Hm, Nat.add_0_r|done].
Qed.

Definition arrived (R : gmap Z OrderedMessage) (ms : list OrderedMessage) :=
  foldl (fun R m => <[om_sequence m := m]> R) R ms.

Lemma run_good es R k :
  good R k ->
  NoDup (om_sequence <$> arrivals es) ->
  (forall m, m ∈ arrivals es -> M !! om_sequence m = Some m /\ R !! om_sequence m = None) ->
  exists k' out,
    channel_run es (channel_of R (e + Z.of_nat k))
      = (out, channel_of (arrived R (arrivals es)) (e + Z.of_nat k')) /\
    good (arrived R (arrivals es)) k' /\ continues R (arrived R (arrivals es)) k k' out.
Proof.
  revert R k. induction es as [|[m|] es IH]; intros R k Hg Hnd Hnew; cbn [arrivals channel_run].
  - exists k, []. unfold continues. by rewrite app_nil_r.
  - cbn in Hnd. apply NoDup_cons in Hnd as [Hni Hnd].
    destruct (Hnew m) as [Hm Hmn]; [left|].
    destruct (arrive_good R k m Hg Hm Hmn) as (out & -> & Hg' & Hc).
    destruct (IH _ _ Hg' Hnd) as (k' & outs & Hrun & Hg'' & Hc').
    { intros m' Hm'. destruct (Hnew m') as [? ?]; [by right|]. split; [done|].
      rewrite lookup_insert_ne; [done|]. intros Heq. apply Hni.
      apply list_elem_of_fmap. by exists m'. }
    exists k', (out ++ outs). rewrite Hrun. split; [done|]. split; [done|].
    unfold continues in *. by rewrite app_assoc, Hc, Hc'.
  - destruct (ack_good R k Hg) as (k1 & out & -> & Hg' & Hc & _).
    destruct (IH _ _ Hg' Hnd Hnew) as (k' & outs & Hrun & Hg'' & Hc').
    exists k', (out ++ outs). rewrite Hrun. split; [done|]. split; [done|].
    unfold continues in *. by rewrite app_assoc, Hc, Hc'.
Qed.

Lemma drain_good j k :
  good M k -> (length msgs <= k + j)%nat ->
  exists out,
    channel_run (replicate j AckCurrent) (channel_of M (e + Z.of_nat k))
      = (out, channel_of M (e + len msgs)) /\
    continues M M k (length msgs) out.
Proof.
  revert k. induction j as [|j IH]; intros k Hg Hj; cbn [replicate channel_run].
  - destruct Hg as (_ & Hk & _). replace k with (length msgs) by lia.
    exists []. unfold continues. by rewrite app_nil_r.
  - destruct (ack_good M k Hg) as (k1 & out & -> & Hg1 & Hc & ->).
    destruct (IH _ Hg1) as (outs & -> & Hc').
    { unfold emitted. destruct (M !! _) eqn:Em; [lia|].
      destruct (decide (k < length msgs)%nat) as [Hlt|]; [|lia].
      apply lookup_lt_is_Some_2 in Hlt as [m Hm]. apply lookup_M in Hm. congruence. }
    exists (out ++ outs). split; [done|]. unfold continues in *. by rewrite app_assoc, Hc, Hc'.
Qed.

Lemma arrived_all R ms s :
  NoDup (om_sequence <$> ms) ->
  arrived R ms !! s
  = match list_find (fun m => om_sequence m = s) ms with Some (_, m) => Some m | None => R !! s end.
Proof.
  revert R. induction ms as [|m ms IH]; intros R Hnd; cbn in *; [done|].
  apply NoDup_cons in Hnd as [Hni Hnd]. rewrite IH by done.
  destruct (decide (om_sequence m = s)) as [Heq|Hne].
  - rewrite (proj2 (list_find_None _ _)); [by rewrite Heq, lookup_insert_eq|].
    rewrite Forall_forall. intros m' Hm' Hs. apply Hni.
    apply list_elem_of_fmap. exists m'. split; [congruence|done].
  - rewrite lookup_insert_ne by done.
    by destruct (list_find _ ms) as [[? ?]|].
Qed.
End Delivery.
End Channel.

Lemma arrived_perm e msgs ms :
  (forall i m, msgs !! i = Some m -> om_sequence m = e + Z.of_nat i) ->
  ms ≡ₚ msgs -> NoDup (om_sequence <$> ms) -> arrived ∅ ms = map_seqZ e msgs.
Proof.
  intros Hseq Hperm Hnd. apply map_eq. intros s. rewrite arrived_all by done.
  destruct (list_find _ ms) as [[i m]|] eqn:E.
  - apply list_find_Some in E as (Hi & Hs & _). symmetry. apply lookup_map_seqZ_Some.
    assert (Hm : m ∈ msgs) by (rewrite <- Hperm; by eapply list_elem_of_lookup_2).
    apply list_elem_of_lookup in Hm as [j Hj]. pose proof (Hseq _ _ Hj).
    replace (Z.to_nat _) with j by lia. split; [lia|done].
  - apply list_find_None in E. rewrite Forall_forall in E. rewrite lookup_empty. symmetry.
    destruct (map_seqZ e msgs !! s) as [m|] eqn:Em; [|done].
    apply lookup_map_seqZ_Some in Em as [Hs Hm]. pose proof (Hseq _ _ Hm).
    exfalso. apply (E m); [|lia]. rewrite Hperm. by eapply list_elem_of_lookup_2.
Qed.

Lemma numbered_NoDup e (msgs : list OrderedMessage) :
  (forall i m, msgs !! i = Some m -> om_sequence m = e + Z.of_nat i) ->
  NoDup (om_sequence <$> msgs).
Proof.
  intros Hseq. apply NoDup_alt. intros i j x Hi Hj.
  rewrite list_lookup_fmap, fmap_Some in Hi, Hj.
  destruct Hi as (m & Hm & ->), Hj as (m' & Hm' & Heq).
  rewrite (Hseq _ _ Hm), (Hseq _ _ Hm') in Heq. lia.
Qed.

(** A channel that receives the messages numbered from its expected
    sequence in any order, interleaved in any way with acknowledgements of
    the message the application holds, hands over all of them in sequence
    order once every message has been acknowledged, and ends empty at the
    next sequence: reordering loses, duplicates and swaps nothing, provided
    the batch fits the configured message, byte and gap limits. *)
Lemma ordered_channel_delivers_all max_messages max_bytes max_gap e msgs es :
  (forall i m, msgs !! i = Some m -> om_sequence m = e + Z.of_nat i) ->
  e + len msgs <= u64_max -> max_bytes <= u64_max ->
  len msgs <= max_messages -> len msgs <= max_gap ->
  sum_with (fun m => len (om_payload m)) msgs <= max_bytes ->
  arrivals es ≡ₚ msgs ->
  channel_run max_messages max_bytes max_gap
    (es ++ replicate (length msgs) AckCurrent) (mkOrdered e None ∅ 0)
  = (msgs, mkOrdered (e + len msgs) None ∅ 0).
Proof.
  intros Hseq Hr Hu Hm Hg Hb Hperm.
  assert (Hnd : NoDup (om_sequence <$> arrivals es))
    by (rewrite Hperm; by eapply numbered_NoDup).
  assert (Hstart : mkOrdered e None ∅ 0 = channel_of ∅ (e + Z.of_nat 0)).
  { unfold channel_of, beyond. rewrite lookup_empty, map_filter_empty, map_sum_empty, Z.add_0_r.
    done. }
  destruct (run_good max_messages max_bytes max_gap e msgs Hseq Hr Hm Hg Hb Hu es ∅ 0)
    as (k & out & Hrun & Hgood & Hc); [|done| |].
  { split; [apply map_empty_subseteq|]. split; lia. }
  { intros m. rewrite Hperm. intros [i Hi]%list_elem_of_lookup. pose proof (Hseq _ _ Hi) as Hs.
    rewrite lookup_empty, Hs. split; [|done]. by apply lookup_M. }
  rewrite (arrived_perm e msgs) in * by done.
  destruct (drain_good max_messages max_bytes max_gap e msgs Hseq Hr
              (length msgs) k Hgood) as (outs & Hdrain & Hc'); [lia|].
  rewrite Hstart, channel_run_app, Hrun, Hdrain. unfold continues, emitted in *.
  assert (HN : (map_seqZ e msgs : gmap Z OrderedMessage) !! (e + Z.of_nat (length msgs)) = None)
    by (apply lookup_map_seqZ_None; right; unfold len; lia).
  rewrite HN, Nat.add_0_r in Hc'. rewrite lookup_empty in Hc.
  cbn [Nat.add] in Hc. rewrite take_0, app_nil_l in Hc.
  rewrite <- Hc, firstn_all in Hc'. rewrite Hc'. f_equal.
  unfold channel_of. fold (len msgs) in HN. rewrite HN. cbn.
  replace (beyond (e + len msgs) (map_seqZ e msgs)) with (∅ : gmap Z OrderedMessage);
    [by rewrite map_sum_empty|].
  symmetry. apply map_empty. intros s. apply map_lookup_filter_None. right.
  intros m [Hs Hi]%lookup_map_seqZ_Some. apply lookup_lt_Some in Hi. unfold len. cbn. lia.
Qed.

Definition sample_message (n : Z) : OrderedMessage :=
  mkOrderedMessage "peer" "session" "chat" (from_bytes (be_bytes 16 n)) n SessionBoundOrdered
    (be_bytes 8 n).
