(* ===== verification/DeliverySend.v ===== *)
(** * Delivery: the sending side

    Models [delivery/send.rs] and the sending half of [delivery/recovery.rs]:
    queueing, the attempts of one message, retries, acknowledgement,
    cancellation and recovery after a reconnect.  Every operation takes the
    store's lock for its whole body, so it is one function of the store.  The
    theorems are about schedules of these operations. *)
From S2P Require Import Prelude Delivery.

Section Send.
Context {O : DeliveryOrders}.

(** ** Helpers of [recovery.rs] *)

(** The loop draws random identifiers until one is not in use; [draws] are
    the values the generator returns, and the result is [None] when the loop
    is still running after all of them. *)
Fixpoint next_message_id (draws : list MessageId) (peer_id : string)
    (pend : gmap DeliveryIdentity PendingMessage)
    (terminal : gmap DeliveryIdentity DeliveryTerminalOutcome) : option MessageId :=
  match draws with
  | [] => None
  | candidate :: draws =>
    let identity := mkIdentity peer_id candidate in
    if negb (bool_decide (is_Some (pend !! identity)))
       && negb (bool_decide (is_Some (terminal !! identity)))
    then Some candidate
    else next_message_id draws peer_id pend terminal
  end.

Definition resolve_pending_identity (store : DeliveryStore) (expected_peer_id : option string)
    (message_id : MessageId) : option DeliveryIdentity :=
  match expected_peer_id with
  | Some peer_id =>
    let identity := mkIdentity peer_id message_id in
    if bool_decide (is_Some (pending store !! identity)) then Some identity else None
  | None =>
    match filter (fun i => id_message_id i = message_id) (hash_iter (pending store)).*1 with
    | [only] => Some only
    | _ => None
    end
  end.

(** At capacity the entry evicted is the first of the iteration order. *)
Definition record_terminal (store : DeliveryStore) (identity : DeliveryIdentity)
    (outcome : DeliveryTerminalOutcome) : DeliveryStore :=
  let outcomes := terminal_outcomes store in
  let outcomes :=
    if negb (bool_decide (is_Some (outcomes !! identity)))
       && (MAX_TERMINAL_OUTCOMES <=? map_len outcomes)
    then match hash_iter outcomes with
         | (oldest, _) :: _ => delete oldest outcomes
         | [] => outcomes
         end
    else outcomes in
  set_terminal (match outcomes !! identity with
                | Some _ => outcomes
                | None => <[identity := outcome]> outcomes
                end) store.

Definition is_expired (message : PendingMessage) (now : Z) : bool :=
  match pm_expires_at message with Some expires_at => expires_at <=? now | None => false end.

Definition remove_pending (store : DeliveryStore) (identity : DeliveryIdentity) :
    option PendingMessage * DeliveryStore :=
  match pending store !! identity with
  | None => (None, store)
  | Some message =>
    (Some message, set_pending (delete identity (pending store))
                     (saturating_sub (pending_bytes store) (len (pm_payload message))) store)
  end.

(** The source's [remove_pending] followed by [record_terminal]. *)
Definition settle (store : DeliveryStore) (identity : DeliveryIdentity)
    (outcome : DeliveryTerminalOutcome) : DeliveryStore :=
  record_terminal (remove_pending store identity).2 identity outcome.

(** [*store.pending.get_mut(identity) = message]. *)
Definition put_message (store : DeliveryStore) (identity : DeliveryIdentity)
    (message : PendingMessage) : DeliveryStore :=
  set_pending (<[identity := message]> (pending store)) (pending_bytes store) store.

(** ** Queueing *)

(** An older [LatestState] message of the same channel is cancelled. *)
Definition cancel_obsolete (peer_id channel_id : string) (store : DeliveryStore) : DeliveryStore :=
  let obsolete :=
    (filter (fun kv => pm_peer_id kv.2 = peer_id /\ pm_channel_id kv.2 = channel_id
                       /\ pm_policy kv.2 = LatestState) (hash_iter (pending store))).*1 in
  foldl (fun store identity =>
    match remove_pending store identity with
    | (Some _, store) => record_terminal store identity OutCancelled
    | (None, store) => store
    end) store obsolete.

Definition enqueue_at_inner (config : DeliveryConfig) (draws : list MessageId)
    (peer_id channel_id : string) (payload : bytes) (policy : DeliveryPolicy)
    (retry_policy : RetryPolicy) (now : Z) (store : DeliveryStore) :
    option (result PendingMessage DeliveryError * DeliveryStore) :=
  if negb (is_valid_scope_id peer_id) || negb (is_valid_scope_id channel_id)
  then Some (Err InvalidScope, store) else
  if max_payload_bytes config <? len payload then Some (Err PayloadTooLarge, store) else
  if negb (is_valid retry_policy) then Some (Err InvalidRetryPolicy, store) else
  let store := if bool_decide (policy = LatestState)
               then cancel_obsolete peer_id channel_id store else store in
  if negb (bool_decide (policy = BestEffort))
     && ((max_pending_messages config <=? map_len (pending store))
         || (max_pending_bytes config
             <? saturating_add u64_max (pending_bytes store) (len payload)))
  then Some (Err QueueFull, store) else
  let sequence_key := (peer_id, channel_id) in
  let message_sequence := default 0 (next_sequences store !! sequence_key) in
  let store := set_next_sequences
    (<[sequence_key := saturating_add u64_max message_sequence 1]> (next_sequences store)) store in
  let recovery_epoch := default 0 (recovery_epochs store !! peer_id) in
  match next_message_id draws peer_id (pending store) (terminal_outcomes store) with
  | None => None
  | Some message_id =>
    let message := {|
      pm_message_id := message_id;
      pm_peer_id := peer_id;
      pm_channel_id := channel_id;
      pm_sequence := message_sequence;
      pm_payload := payload;
      pm_policy := policy;
      pm_state := StQueued;
      pm_attempts := 0;
      pm_created_at := now;
      pm_expires_at := (fun ttl => now + ttl) <$> ttl retry_policy;
      pm_recovery_epoch := recovery_epoch;
      pm_retry_policy := retry_policy;
      pm_next_retry_at := now;
      pm_retry_bytes := 0;
    |} in
    let store :=
      if negb (bool_decide (policy = BestEffort)) then
        set_pending (<[mkIdentity peer_id message_id := message]> (pending store))
          (pending_bytes store + len (pm_payload message)) store
      else store in
    Some (Ok message, store)
  end.

(** ** Sending attempts *)

Definition begin_send_inner (expected_peer_id : option string) (message_id : MessageId) (now : Z) :
    SE DeliveryStore DeliveryError (option PendingMessage) := fun store =>
  if match expected_peer_id with
     | Some peer_id =>
       negb (bool_decide (is_Some (pending store !! mkIdentity peer_id message_id)))
       && bool_decide (Exists (fun i => id_message_id i = message_id)
                         (hash_iter (pending store)).*1)
     | None => false
     end
  then (Err InvalidScope, store) else
  match resolve_pending_identity store expected_peer_id message_id with
  | None => (Err NotFound, store)
  | Some identity =>
  match pending store !! identity with
  | None => (Err NotFound, store)
  | Some message =>
  if is_expired message now then (Err Expired, settle store identity OutExpired) else
  if bool_decide (pm_state message = StSending) then (Ok None, store) else
  if bool_decide (pm_state message = StSentUnacked) && (now <? pm_next_retry_at message)
  then (Ok None, store) else
  if negb (bool_decide (pm_state message = StQueued))
     && negb (bool_decide (pm_state message = StSentUnacked)) then (Ok None, store) else
  if now <? pm_next_retry_at message then (Ok None, store) else
  let next_attempt := saturating_add u32_max (pm_attempts message) 1 in
  if max_attempts (pm_retry_policy message) <? next_attempt then
    (Err RetryExhausted,
     settle (put_message store identity (set_state StFailed message)) identity OutFailed) else
  let retry_bytes := saturating_add u64_max (pm_retry_bytes message)
    ((if 1 <? next_attempt then 1 else 0) * len (pm_payload message)) in
  if match max_total_retry_bytes (pm_retry_policy message) with
     | Some limit => limit <? retry_bytes
     | None => false
     end
  then (Err RetryExhausted,
        settle (put_message store identity (set_state StFailed message)) identity OutFailed) else
  let message := set_state StSending (set_attempt next_attempt retry_bytes message) in
  (Ok (Some message), put_message store identity message)
  end end.

Definition begin_send (message_id : MessageId) (now : Z) :
    SE DeliveryStore DeliveryError (option PendingMessage) :=
  begin_send_inner None message_id now.

Definition begin_send_for_peer (peer_id : string) (message_id : MessageId) (now : Z) :
    SE DeliveryStore DeliveryError (option DeliverySendAttempt) :=
  if negb (is_valid_peer_id peer_id) then se_fail InvalidScope else
  message ← begin_send_inner (Some peer_id) message_id now;
  mret ((fun m => mkAttempt peer_id message_id (pm_attempts m) m) <$> message).

Definition mark_sent_inner (expected_peer_id : option string) (expected_attempt : option Z)
    (message_id : MessageId) (now : Z) (store : DeliveryStore) : bool * DeliveryStore :=
  match resolve_pending_identity store expected_peer_id message_id with
  | None => (false, store)
  | Some identity =>
  match pending store !! identity with
  | None => (false, store)
  | Some message =>
  if negb (bool_decide (pm_state message = StSending))
     || match expected_attempt with
        | Some attempt => negb (pm_attempts message =? attempt)
        | None => false
        end
  then (false, store) else
  (true, put_message store identity
    (set_schedule StSentUnacked
       (now + delay_for_attempt (pm_retry_policy message) (pm_attempts message)) message))
  end end.

Definition mark_sent (message_id : MessageId) (now : Z) : DeliveryStore -> bool * DeliveryStore :=
  mark_sent_inner None None message_id now.
Definition mark_sent_for_attempt (attempt : DeliverySendAttempt) (now : Z) :
    DeliveryStore -> bool * DeliveryStore :=
  mark_sent_inner (Some (at_peer_id attempt)) (Some (at_attempt attempt))
    (at_message_id attempt) now.

Definition mark_send_failed_inner (expected_peer_id : option string) (expected_attempt : option Z)
    (message_id : MessageId) (now : Z) (store : DeliveryStore) : RetryDecision * DeliveryStore :=
  match resolve_pending_identity store expected_peer_id message_id with
  | None => (RetryNotFound, store)
  | Some identity =>
  match pending store !! identity with
  | None => (RetryNotFound, store)
  | Some message =>
  if is_expired message now then (RetryExpired, settle store identity OutExpired) else
  if match expected_attempt with
     | Some attempt => negb (bool_decide (pm_state message = StSending))
                       || negb (pm_attempts message =? attempt)
     | None => false
     end
  then (RetryNotFound, store) else
  if (max_attempts (pm_retry_policy message) <=? pm_attempts message)
     || match max_total_retry_bytes (pm_retry_policy message) with
        | Some limit =>
          limit <? saturating_add u64_max (pm_retry_bytes message) (len (pm_payload message))
        | None => false
        end
  then (RetryFailed,
        settle (put_message store identity (set_state StFailed message)) identity OutFailed) else
  let message := set_schedule StQueued
    (now + delay_for_attempt (pm_retry_policy message) (pm_attempts message)) message in
  (RetryAt (pm_next_retry_at message), put_message store identity message)
  end end.

Definition mark_send_failed (message_id : MessageId) (now : Z) :
    DeliveryStore -> RetryDecision * DeliveryStore :=
  mark_send_failed_inner None None message_id now.
Definition mark_send_failed_for_attempt (attempt : DeliverySendAttempt) (now : Z) :
    DeliveryStore -> RetryDecision * DeliveryStore :=
  mark_send_failed_inner (Some (at_peer_id attempt)) (Some (at_attempt attempt))
    (at_message_id attempt) now.

(** ** Settling *)

Definition acknowledge (peer_id : string) (message_id : MessageId) (store : DeliveryStore) :
    AckResult * DeliveryStore :=
  if negb (is_valid_peer_id peer_id) then (AckUnknown, store) else
  let identity := mkIdentity peer_id message_id in
  if negb (bool_decide (is_Some (pending store !! identity))) then (AckUnknown, store) else
  (AckAcknowledged, settle store identity OutAcknowledged).

Definition terminal_outcome (peer_id : string) (message_id : MessageId) (store : DeliveryStore) :
    option DeliveryTerminalOutcome :=
  if negb (is_valid_peer_id peer_id) then None
  else terminal_outcomes store !! mkIdentity peer_id message_id.

Definition cancel (message_id : MessageId) (store : DeliveryStore) : bool * DeliveryStore :=
  match resolve_pending_identity store None message_id with
  | None => (false, store)
  | Some identity =>
  match pending store !! identity with
  | None => (false, store)
  | Some message =>
    match remove_pending (put_message store identity (set_state StCancelled message)) identity with
    | (Some _, store) => (true, record_terminal store identity OutCancelled)
    | (None, store) => (false, store)
    end
  end end.

(** ** Recovery and retries *)

Definition peer_identities (peer_id : string) (store : DeliveryStore) : list DeliveryIdentity :=
  (filter (fun kv => pm_peer_id kv.2 = peer_id) (hash_iter (pending store))).*1.

Definition settle_expired (expired : list DeliveryIdentity) (store : DeliveryStore) :
    DeliveryStore :=
  foldl (fun store identity => settle store identity OutExpired) store expired.

(** One turn of the loop of [recover_peer_at]. *)
Definition recover_one (recovery_epoch now : Z)
    (acc : DeliveryStore * list PendingMessage * list DeliveryIdentity)
    (identity : DeliveryIdentity) :=
  let '(store, messages, expired) := acc in
  match pending store !! identity with
  | None => acc
  | Some message =>
    if is_expired message now then (store, messages, expired ++ [identity]) else
    let message := set_recovery_epoch recovery_epoch (set_schedule StQueued now message) in
    (put_message store identity message, messages ++ [message], expired)
  end.

Definition recover_peer_at (peer_id : string) (now : Z) (store : DeliveryStore) :
    RecoverySnapshot * DeliveryStore :=
  let recovery_epoch := match recovery_epochs store !! peer_id with
                        | Some epoch => saturating_add u64_max epoch 1
                        | None => 1
                        end in
  let store := set_recovery_epochs (<[peer_id := recovery_epoch]> (recovery_epochs store)) store in
  let '(store, messages, expired) :=
    foldl (recover_one recovery_epoch now) (store, [], []) (peer_identities peer_id store) in
  let store := settle_expired expired store in
  (mkSnapshot recovery_epoch (sort_by_key pm_sequence messages), store).

Definition recover_peer_checked (peer_id : string) (now : Z) :
    SE DeliveryStore DeliveryError RecoverySnapshot := fun store =>
  if negb (is_valid_peer_id peer_id) then (Err InvalidScope, store) else
  let '(snapshot, store) := recover_peer_at peer_id now store in (Ok snapshot, store).

Definition retry_one (now : Z)
    (acc : DeliveryStore * list PendingMessage * list DeliveryIdentity)
    (identity : DeliveryIdentity) :=
  let '(store, retryable, expired) := acc in
  match pending store !! identity with
  | None => acc
  | Some message =>
    if is_expired message now then (store, retryable, expired ++ [identity]) else
    if bool_decide (pm_state message = StSentUnacked) && (pm_next_retry_at message <=? now) then
      let message := set_schedule StQueued now message in
      (put_message store identity message, retryable ++ [message], expired)
    else if bool_decide (pm_state message = StQueued) && (pm_next_retry_at message <=? now) then
      (store, retryable ++ [message], expired)
    else acc
  end.

Definition retryable_messages (peer_id : string) (now : Z) (store : DeliveryStore) :
    list PendingMessage * DeliveryStore :=
  let '(store, retryable, expired) :=
    foldl (retry_one now) (store, [], []) (peer_identities peer_id store) in
  let store := settle_expired expired store in
  (sort_by_key pm_sequence retryable, store).

Definition retryable_messages_checked (peer_id : string) (now : Z) :
    SE DeliveryStore DeliveryError (list PendingMessage) := fun store =>
  if negb (is_valid_peer_id peer_id) then (Err InvalidScope, store) else
  let '(messages, store) := retryable_messages peer_id now store in (Ok messages, store).
End Send.

(** ** The invariant of the sending side *)

Definition live_state (st : DeliveryState) : Prop :=
  st = StQueued \/ st = StSending \/ st = StSentUnacked.

(** The retry budget of a pending message: attempts and retransmitted bytes
    are counted exactly and within its policy. *)
Record budget_ok (m : PendingMessage) : Prop := {
  bo_live : live_state (pm_state m);
  bo_max : max_attempts (pm_retry_policy m) < u32_max;
  bo_attempts : 0 <= pm_attempts m <= max_attempts (pm_retry_policy m);
  bo_bytes : pm_retry_bytes m
             = Z.min u64_max (Z.max 0 (pm_attempts m - 1) * len (pm_payload m));
  bo_limit : forall limit, max_total_retry_bytes (pm_retry_policy m) = Some limit ->
             pm_retry_bytes m <= Z.max 0 limit;
}.

Definition identity_of (m : PendingMessage) : DeliveryIdentity :=
  mkIdentity (pm_peer_id m) (pm_message_id m).

Definition channel_of_pending (m : PendingMessage) : string * string :=
  (pm_peer_id m, pm_channel_id m).

Definition next_of (s : DeliveryStore) (scope : string * string) : Z :=
  default 0 (next_sequences s !! scope).

Record pending_ok (cfg : DeliveryConfig) (s : DeliveryStore) (i : DeliveryIdentity)
    (m : PendingMessage) : Prop := {
  po_identity : i = identity_of m;
  po_policy : pm_policy m <> BestEffort;
  po_payload : len (pm_payload m) <= max_payload_bytes cfg;
  po_scope : is_valid_scope_id (pm_peer_id m) = true /\
             is_valid_scope_id (pm_channel_id m) = true;
  po_sequence : 0 <= pm_sequence m <= u64_max /\
    (pm_sequence m < next_of s (channel_of_pending m) \/
     next_of s (channel_of_pending m) = u64_max);
  po_budget : budget_ok m;
}.

Record send_inv (cfg : DeliveryConfig) (s : DeliveryStore) : Prop := {
  si_pending : forall i m, pending s !! i = Some m -> pending_ok cfg s i m;
  si_bytes : pending_bytes s = map_sum (fun m => len (pm_payload m)) (pending s);
  si_count : map_len (pending s) <= Z.max 0 (max_pending_messages cfg);
  si_total : pending_bytes s <= Z.max 0 (max_pending_bytes cfg);
  si_disjoint : forall i, is_Some (pending s !! i) -> terminal_outcomes s !! i = None;
  si_terminal : map_len (terminal_outcomes s) <= MAX_TERMINAL_OUTCOMES;
  si_sequences : forall scope, 0 <= next_of s scope <= u64_max;
  si_distinct : forall i j m n, pending s !! i = Some m -> pending s !! j = Some n ->
    channel_of_pending m = channel_of_pending n -> pm_sequence m = pm_sequence n ->
    i = j \/ pm_sequence m = u64_max;
  si_latest : forall i j m n, pending s !! i = Some m -> pending s !! j = Some n ->
    channel_of_pending m = channel_of_pending n ->
    pm_policy m = LatestState -> pm_policy n = LatestState -> i = j;
}.

Lemma send_inv_new cfg : send_inv cfg store_new.
Proof.
  constructor; cbn; unfold next_of; cbn.
  - intros i m. by rewrite lookup_empty.
  - by rewrite map_sum_empty.
  - rewrite map_len_empty. lia.
  - lia.
  - intros i. rewrite lookup_empty. by intros [].
  - by rewrite map_len_empty.
  - intros scope. rewrite lookup_empty. cbn. unfold u64_max. lia.
  - intros i j m n. by rewrite lookup_empty.
  - intros i j m n. by rewrite lookup_empty.
Qed.

(** ** Updates *)

(** The fields that identify a message and its place in the queue. *)
Definition same_message (m n : PendingMessage) : Prop :=
  pm_message_id m = pm_message_id n /\ pm_peer_id m = pm_peer_id n /\
  pm_channel_id m = pm_channel_id n /\ pm_sequence m = pm_sequence n /\
  pm_payload m = pm_payload n /\ pm_policy m = pm_policy n /\
  pm_retry_policy m = pm_retry_policy n /\ pm_expires_at m = pm_expires_at n.

#[export] Instance same_message_equiv : Equivalence same_message.
Proof.
  unfold same_message. split.
  - by intros m.
  - intros m n. naive_solver.
  - intros m n p. intros; intuition congruence.
Qed.

Lemma same_message_identity m n : same_message m n -> identity_of m = identity_of n.
Proof. unfold same_message, identity_of. intros (-> & -> & _). done. Qed.

Lemma same_message_channel m n : same_message m n -> channel_of_pending m = channel_of_pending n.
Proof. unfold same_message, channel_of_pending. intros (_ & -> & -> & _). done. Qed.

Lemma same_message_schedule st t m : same_message m (set_schedule st t m).
Proof. done. Qed.
Lemma same_message_epoch e m : same_message m (set_recovery_epoch e m).
Proof. done. Qed.
Lemma same_message_attempt a b m : same_message m (set_attempt a b m).
Proof. done. Qed.

#[export] Hint Resolve same_message_schedule same_message_epoch same_message_attempt : rustdb.

Section SendProofs.
Context {O : DeliveryOrders} (cfg : DeliveryConfig).

(** Two stores that differ in the progress of their pending messages only. *)
Definition progressed (s s' : DeliveryStore) : Prop :=
  (forall i m', pending s' !! i = Some m' ->
     exists m, pending s !! i = Some m /\ same_message m m' /\ budget_ok m') /\
  pending_bytes s' = map_sum (fun m => len (pm_payload m)) (pending s') /\
  map_len (pending s') <= map_len (pending s) /\
  pending_bytes s' <= pending_bytes s /\
  map_len (terminal_outcomes s') <= MAX_TERMINAL_OUTCOMES /\
  (forall i, is_Some (pending s' !! i) -> terminal_outcomes s' !! i = None) /\
  next_sequences s' = next_sequences s.

Lemma send_inv_progressed s s' : send_inv cfg s -> progressed s s' -> send_inv cfg s'.
Proof.
  intros [Hp Hb Hc Ht Hd Htm Hs Hu Hl] (Hsame & Hb' & Hlen & Hle & Htm' & Hd' & Hn).
  assert (Hnext : forall scope, next_of s' scope = next_of s scope)
    by (unfold next_of; by rewrite Hn).
  constructor; try done; try lia.
  - intros i m' (m & Hm & Hsm & Hbud)%Hsame. destruct (Hp _ _ Hm) as [-> Hpol Hpay Hsc Hseq _].
    pose proof (same_message_channel _ _ Hsm) as Hch.
    constructor; [by apply same_message_identity|..|done]; rewrite ?Hnext, <- ?Hch;
      destruct Hsm as (? & Heq1 & Heq2 & Heq3 & Heq4 & Heq5 & _);
      by rewrite <- ?Heq1, <- ?Heq2, <- ?Heq3, <- ?Heq4, <- ?Heq5.
  - intros scope. by rewrite Hnext.
  - intros i j m' n' (m & Hm & Hsm & _)%Hsame (n & Hnn & Hsn & _)%Hsame.
    rewrite <- (same_message_channel _ _ Hsm), <- (same_message_channel _ _ Hsn).
    destruct Hsm as (? & _ & _ & <- & _), Hsn as (? & _ & _ & <- & _). by apply Hu.
  - intros i j m' n' (m & Hm & Hsm & _)%Hsame (n & Hnn & Hsn & _)%Hsame.
    rewrite <- (same_message_channel _ _ Hsm), <- (same_message_channel _ _ Hsn).
    destruct Hsm as (? & _ & _ & _ & _ & <- & _), Hsn as (? & _ & _ & _ & _ & <- & _).
    by apply Hl.
Qed.

Lemma send_inv_put s i m m' :
  send_inv cfg s -> pending s !! i = Some m -> same_message m m' -> budget_ok m' ->
  send_inv cfg (put_message s i m').
Proof.
  intros Hi Hm Hsm Hbud. apply (send_inv_progressed s); [done|].
  destruct Hi as [Hp Hb Hc Ht Hd Htm Hs Hu Hl].
  assert (Hsum : map_sum (fun m => len (pm_payload m)) (<[i := m']> (pending s)) = pending_bytes s).
  { rewrite (map_sum_insert_old _ _ _ _ m) by done. destruct Hsm as (_ & _ & _ & _ & -> & _). lia. }
  unfold progressed. cbn.
  rewrite map_len_insert_old by by eexists.
  split_and!; [|congruence|lia|lia|done| |done].
  - intros j n Hn. apply lookup_insert_Some in Hn as [[<- <-]|[? Hn]].
    + by exists m.
    + exists n. split; [done|]. split; [reflexivity|]. apply (Hp _ _ Hn).
  - intros j Hj. apply Hd. apply lookup_insert_is_Some in Hj as [<-|[_ ?]]; [by eexists|done].
Qed.

(** *** Terminal outcomes *)

Lemma record_terminal_frame s i o :
  pending (record_terminal s i o) = pending s /\
  pending_bytes (record_terminal s i o) = pending_bytes s /\
  next_sequences (record_terminal s i o) = next_sequences s.
Proof. done. Qed.

Lemma record_terminal_lookup s i o :
  terminal_outcomes (record_terminal s i o) !! i
  = Some (default o (terminal_outcomes s !! i)).
Proof.
  unfold record_terminal. cbn. destruct (terminal_outcomes s !! i) as [x|] eqn:E.
  - rewrite bool_decide_eq_true_2 by by eexists. cbn. by rewrite E.
  - rewrite bool_decide_eq_false_2 by by intros []. cbn.
    assert (Hd : forall k, delete k (terminal_outcomes s) !! i = None).
    { intros k. destruct (decide (k = i)) as [->|]; [apply lookup_delete_eq|].
      by rewrite lookup_delete_ne. }
    destruct (MAX_TERMINAL_OUTCOMES <=? _); [destruct (hash_iter _) as [|[k v] l]|];
      rewrite ?Hd, ?E; apply lookup_insert_eq.
Qed.

Lemma record_terminal_other s i o j x :
  j <> i -> terminal_outcomes (record_terminal s i o) !! j = Some x ->
  terminal_outcomes s !! j = Some x.
Proof.
  intros Hne. unfold record_terminal. cbn.
  set (evicted := if _ && _ then _ else _).
  assert (Hsub : evicted !! j = Some x -> terminal_outcomes s !! j = Some x).
  { subst evicted. destruct (_ && _); [|done]. destruct (hash_iter _) as [|[k v] l]; [done|].
    by intros [? ?]%lookup_delete_Some. }
  destruct (evicted !! i); [done|]. by rewrite lookup_insert_ne.
Qed.

Lemma record_terminal_len s i o :
  map_len (terminal_outcomes s) <= MAX_TERMINAL_OUTCOMES ->
  map_len (terminal_outcomes (record_terminal s i o)) <= MAX_TERMINAL_OUTCOMES.
Proof.
  intros Hlen. unfold record_terminal. cbn.
  destruct (terminal_outcomes s !! i) as [x|] eqn:E.
  - rewrite bool_decide_eq_true_2 by by eexists. cbn. by rewrite E.
  - rewrite bool_decide_eq_false_2 by by intros []. cbn.
    destruct (MAX_TERMINAL_OUTCOMES <=? _) eqn:Hfull; bool_facts.
    + destruct (hash_iter (terminal_outcomes s)) as [|[k v] l] eqn:El.
      { apply hash_iter_nil in El. rewrite El, map_len_empty in Hfull. by cbn in Hfull. }
      assert (Hk : terminal_outcomes s !! k = Some v)
        by (apply elem_of_hash_iter; rewrite El; left).
      assert (Hd : delete k (terminal_outcomes s) !! i = None)
        by (apply lookup_delete_None; by right).
      rewrite Hd, map_len_insert_new, map_len_delete by (done || by eexists). lia.
    + rewrite E, map_len_insert_new by done. lia.
Qed.

(** *** Settling a message *)

Lemma settle_pending s i o : pending (settle s i o) = delete i (pending s).
Proof.
  unfold settle, remove_pending. destruct (pending s !! i) as [m|] eqn:E; cbn; [done|].
  by rewrite delete_id.
Qed.

Lemma settle_terminal_other s i o j x :
  j <> i -> terminal_outcomes (settle s i o) !! j = Some x -> terminal_outcomes s !! j = Some x.
Proof.
  intros Hne H. unfold settle in H. apply record_terminal_other in H; [|done].
  unfold remove_pending in H. by destruct (pending s !! i).
Qed.

Lemma settle_terminal s i o :
  terminal_outcomes (settle s i o) !! i = Some (default o (terminal_outcomes s !! i)).
Proof.
  unfold settle. rewrite record_terminal_lookup. unfold remove_pending.
  by destruct (pending s !! i).
Qed.

(** The source writes the terminal state into a message it then removes. *)
Lemma settle_put s i m m' o :
  pending s !! i = Some m -> same_message m m' ->
  settle (put_message s i m') i o = settle s i o.
Proof.
  intros Hm (_ & _ & _ & _ & Hpay & _). unfold settle, remove_pending, put_message. cbn.
  rewrite lookup_insert_eq, Hm, Hpay. cbn. by rewrite delete_insert_eq.
Qed.

Lemma settle_progressed s i o : send_inv cfg s -> progressed s (settle s i o).
Proof.
  intros [Hp Hb Hc Ht Hd Htm Hs Hu Hl]. unfold progressed. rewrite settle_pending.
  assert (Hpend : forall j m, delete i (pending s) !! j = Some m -> pending s !! j = Some m)
    by by intros j m [_ ?]%lookup_delete_Some.
  split_and!.
  - intros j m Hm%Hpend. exists m. split; [done|]. split; [reflexivity|]. apply (Hp _ _ Hm).
  - unfold settle, remove_pending. destruct (pending s !! i) as [m|] eqn:E; cbn.
    + rewrite (map_sum_delete _ _ _ m) by done. unfold saturating_sub.
      pose proof (map_sum_lookup_le (fun m => len (pm_payload m)) (pending s) i m
        ltac:(intros; apply len_nonneg) E). cbn in *. lia.
    + by rewrite delete_id.
  - apply map_len_delete_le.
  - unfold settle, remove_pending. destruct (pending s !! i) as [m|] eqn:E; cbn; [|lia].
    unfold saturating_sub. pose proof (len_nonneg (pm_payload m)).
    pose proof (map_sum_nonneg (fun m => len (pm_payload m)) (pending s)
      ltac:(intros; apply len_nonneg)). lia.
  - unfold settle. apply record_terminal_len. unfold remove_pending.
    by destruct (pending s !! i).
  - intros j [m Hm]. assert (j <> i) by (intros ->; by rewrite lookup_delete_eq in Hm).
    destruct (terminal_outcomes (settle s i o) !! j) as [x|] eqn:E; [|done].
    apply settle_terminal_other in E; [|done]. apply Hpend in Hm.
    rewrite Hd in E by by eexists. done.
  - unfold settle, remove_pending. by destruct (pending s !! i).
Qed.

Lemma send_inv_settle s i o : send_inv cfg s -> send_inv cfg (settle s i o).
Proof. intros H. by eapply send_inv_progressed, settle_progressed. Qed.

(** ** Atomic changes

    Every operation is a sequence of these changes of the store, labelled
    with what the outside can observe: a message handed to the transport, a
    message queued or a message settled. *)
Inductive send_label :=
| LInternal
| LAttempt (m : PendingMessage)
| LQueued (m : PendingMessage)
| LSettled (i : DeliveryIdentity) (o : DeliveryTerminalOutcome).

(** The counters of an attempt that the budget admits. *)
Definition next_attempt_ok (m m' : PendingMessage) : Prop :=
  pm_attempts m' = pm_attempts m + 1 /\
  pm_attempts m' <= max_attempts (pm_retry_policy m) /\
  pm_retry_bytes m' = saturating_add u64_max (pm_retry_bytes m)
    ((if 1 <? pm_attempts m' then 1 else 0) * len (pm_payload m)) /\
  (forall limit, max_total_retry_bytes (pm_retry_policy m) = Some limit ->
     pm_retry_bytes m' <= limit).

Definition queued_ok (s : DeliveryStore) (m : PendingMessage) : Prop :=
  pm_policy m <> BestEffort /\
  len (pm_payload m) <= max_payload_bytes cfg /\
  is_valid_scope_id (pm_peer_id m) = true /\ is_valid_scope_id (pm_channel_id m) = true /\
  pm_sequence m = next_of s (channel_of_pending m) /\
  pending s !! identity_of m = None /\ terminal_outcomes s !! identity_of m = None /\
  map_len (pending s) < max_pending_messages cfg /\
  pending_bytes s + len (pm_payload m) <= max_pending_bytes cfg /\
  pm_state m = StQueued /\ pm_attempts m = 0 /\ pm_retry_bytes m = 0 /\
  0 < max_attempts (pm_retry_policy m) < u32_max /\
  (pm_policy m = LatestState -> forall i n, pending s !! i = Some n ->
     channel_of_pending n = channel_of_pending m -> pm_policy n <> LatestState).

Definition bump_sequence (scope : string * string) (s : DeliveryStore) : DeliveryStore :=
  set_next_sequences
    (<[scope := saturating_add u64_max (next_of s scope) 1]> (next_sequences s)) s.

Inductive send_atom (s : DeliveryStore) : send_label -> DeliveryStore -> Prop :=
| AtomSchedule i m m' :
    pending s !! i = Some m -> same_message m m' ->
    pm_attempts m' = pm_attempts m -> pm_retry_bytes m' = pm_retry_bytes m ->
    live_state (pm_state m') ->
    send_atom s LInternal (put_message s i m')
| AtomAttempt i m m' :
    pending s !! i = Some m -> same_message m m' -> pm_state m' = StSending ->
    next_attempt_ok m m' -> send_atom s (LAttempt m') (put_message s i m')
| AtomSettle i o :
    is_Some (pending s !! i) -> send_atom s (LSettled i o) (settle s i o)
| AtomEpochs e : send_atom s LInternal (set_recovery_epochs e s)
| AtomSequence scope : send_atom s LInternal (bump_sequence scope s)
| AtomQueue m :
    queued_ok s m ->
    send_atom s (LQueued m)
      (set_pending (<[identity_of m := m]> (pending s)) (pending_bytes s + len (pm_payload m))
         (bump_sequence (channel_of_pending m) s)).

Inductive send_atoms : DeliveryStore -> list send_label -> DeliveryStore -> Prop :=
| AtomsNil s : send_atoms s [] s
| AtomsCons s l s1 ls s2 :
    send_atom s l s1 -> send_atoms s1 ls s2 -> send_atoms s (l :: ls) s2.

Lemma send_atoms_app s ls1 s1 ls2 s2 :
  send_atoms s ls1 s1 -> send_atoms s1 ls2 s2 -> send_atoms s (ls1 ++ ls2) s2.
Proof. induction 1; [done|]. intros. econstructor; eauto. Qed.

Lemma send_atoms_one s l s' : send_atom s l s' -> send_atoms s [l] s'.
Proof. intros. econstructor; [done|constructor]. Qed.

(** *** Atoms preserve the invariant *)

Lemma next_of_bump s scope scope' :
  next_of (bump_sequence scope s) scope'
  = if bool_decide (scope = scope') then saturating_add u64_max (next_of s scope) 1
    else next_of s scope'.
Proof.
  unfold bump_sequence, next_of at 1. cbn. case_bool_decide as E.
  - subst. by rewrite lookup_insert_eq.
  - by rewrite lookup_insert_ne.
Qed.

Lemma send_inv_bump s scope : send_inv cfg s -> send_inv cfg (bump_sequence scope s).
Proof.
  intros [Hp Hb Hc Ht Hd Htm Hs Hu Hl].
  assert (Hge : forall sc, next_of s sc <= next_of (bump_sequence scope s) sc <= u64_max).
  { intros sc. rewrite next_of_bump. pose proof (Hs sc). pose proof (Hs scope).
    unfold saturating_add. case_bool_decide; subst; lia. }
  constructor; try done.
  - intros i m Hm. destruct (Hp _ _ Hm) as [? ? ? ? Hseq ?]. constructor; try done.
    pose proof (Hge (channel_of_pending m)). lia.
  - intros sc. pose proof (Hs sc). pose proof (Hge sc). lia.
Qed.

Lemma budget_attempt m m' :
  budget_ok m -> same_message m m' -> pm_state m' = StSending -> next_attempt_ok m m' ->
  budget_ok m'.
Proof.
  intros [Hl Hm Ha Hb Hlim] Hsm Hst (Hn & Hle & Hrb & Hmax).
  destruct Hsm as (_ & _ & _ & _ & Hpay & _ & Hpol & _).
  constructor; rewrite <- ?Hpol, <- ?Hpay.
  - rewrite Hst. by right; left.
  - done.
  - lia.
  - rewrite Hrb, Hb. unfold saturating_add. pose proof (len_nonneg (pm_payload m)).
    destruct (1 <? pm_attempts m') eqn:E; bool_facts; nia.
  - intros limit Hl'. specialize (Hmax limit Hl'). lia.
Qed.

Lemma send_inv_queue s m :
  send_inv cfg s -> queued_ok s m ->
  send_inv cfg (set_pending (<[identity_of m := m]> (pending s))
    (pending_bytes s + len (pm_payload m)) (bump_sequence (channel_of_pending m) s)).
Proof.
  intros Hinv (Hpol & Hpay & Hsp & Hsc & Hseq & Hnp & Hnt & Hlen & Hbytes & Hst & Hat & Hrb & Hma & Hlat).
  pose proof (send_inv_bump s (channel_of_pending m) Hinv) as [Hp' _ _ _ _ _ Hs' _ _].
  destruct Hinv as [Hp Hb Hc Ht Hd Htm Hs Hu Hl].
  pose proof (Hs (channel_of_pending m)) as Hr.
  constructor; cbn; try done.
  - intros i n [[<- <-]|[? Hn]]%lookup_insert_Some; [|by destruct (Hp' _ _ Hn)].
    constructor; try done.
    + split; [lia|]. change (next_of (set_pending _ _ ?x) ?y) with (next_of x y).
      rewrite next_of_bump, bool_decide_eq_true_2 by done. unfold saturating_add. lia.
    + constructor; rewrite ?Hst, ?Hat, ?Hrb; [by left|lia|lia| |intros; lia].
      unfold u64_max. lia.
  - by rewrite map_sum_insert_new, Hb, Z.add_comm by done.
  - rewrite map_len_insert_new by done. lia.
  - lia.
  - intros i [<-|[_ Hi]]%lookup_insert_is_Some; [done|by apply Hd].
  - intros i j n p [[<- <-]|[Hi Hn]]%lookup_insert_Some [[<- <-]|[Hj Hp0]]%lookup_insert_Some Hch Heq.
    + by left.
    + destruct (po_sequence _ _ _ _ (Hp _ _ Hp0)) as [_ Hlt]. rewrite <- Hch in Hlt. right. lia.
    + destruct (po_sequence _ _ _ _ (Hp _ _ Hn)) as [_ Hlt]. rewrite Hch in Hlt. right. lia.
    + by apply (Hu i j n p).
  - intros i j n p [[<- <-]|[Hi Hn]]%lookup_insert_Some [[<- <-]|[Hj Hp0]]%lookup_insert_Some Hch Hn1 Hn2.
    + done.
    + by destruct (Hlat Hn1 j p Hp0 (eq_sym Hch)).
    + by destruct (Hlat Hn2 i n Hn Hch).
    + by apply (Hl i j n p).
Qed.

Lemma send_inv_atom s l s' : send_inv cfg s -> send_atom s l s' -> send_inv cfg s'.
Proof.
  intros Hinv Hatom. destruct Hatom as [i m m' Hm Hsm Ha Hb Hst|i m m' Hm Hsm Hst Hok|i o _|e|scope|m Hq].
  - eapply send_inv_put; [done|done|done|].
    destruct (po_budget _ _ _ _ (si_pending _ _ Hinv _ _ Hm)) as [Hl Hmx Hat Hby Hli].
    destruct Hsm as (_ & _ & _ & _ & Hpay & _ & Hpol & _).
    constructor; rewrite <- ?Hpay, <- ?Hpol, ?Ha, ?Hb; done.
  - eapply send_inv_put; [done|done|done|].
    eapply budget_attempt; [apply (si_pending _ _ Hinv _ _ Hm)|done..].
  - by apply send_inv_settle.
  - destruct Hinv as [Hp ? ? ? ? ? ? ? ?]. constructor; try done.
    intros i m Hm. by destruct (Hp _ _ Hm).
  - by apply send_inv_bump.
  - by apply send_inv_queue.
Qed.

Lemma send_inv_atoms s ls s' : send_inv cfg s -> send_atoms s ls s' -> send_inv cfg s'.
Proof. intros H Ha. induction Ha; [done|]. by eapply IHHa, send_inv_atom. Qed.

(** ** Operations as sequences of atoms *)

Lemma resolve_some s ep id i :
  resolve_pending_identity s ep id = Some i ->
  is_Some (pending s !! i) /\ id_message_id i = id /\
  (forall p, ep = Some p -> i = mkIdentity p id).
Proof.
  unfold resolve_pending_identity. destruct ep as [p|].
  - case_bool_decide; [|done]. intros [= <-]. split; [done|]. split; [done|]. by intros p' [= ->].
  - destruct (filter _ _) as [|j [|]] eqn:E; [done| |done]. intros [= <-].
    assert (Hj : j ∈ filter (fun i => id_message_id i = id) (hash_iter (pending s)).*1)
      by (rewrite E; left).
    apply list_elem_of_filter in Hj as [Hid Hj]. apply list_elem_of_fmap in Hj as ([? m] & -> & Hm).
    apply elem_of_hash_iter in Hm. split; [by eexists|]. done.
Qed.

(** The observable part of a sequence of labels. *)
Definition transmissions (ls : list send_label) : list PendingMessage :=
  omap (fun l => match l with LAttempt m => Some m | _ => None end) ls.
Definition queueings (ls : list send_label) : list PendingMessage :=
  omap (fun l => match l with LQueued m => Some m | _ => None end) ls.

(** [s] becomes [s'] by atoms that transmit [out] and queue nothing. *)
Definition evolves (s : DeliveryStore) (out : list PendingMessage) (s' : DeliveryStore) : Prop :=
  exists ls, send_atoms s ls s' /\ transmissions ls = out /\ queueings ls = [].

Lemma evolves_refl s : evolves s [] s.
Proof. exists []. split; [constructor|done]. Qed.

Lemma evolves_trans s o1 s1 o2 s2 :
  evolves s o1 s1 -> evolves s1 o2 s2 -> evolves s (o1 ++ o2) s2.
Proof.
  intros (l1 & Ha1 & <- & Hq1) (l2 & Ha2 & <- & Hq2). exists (l1 ++ l2).
  split; [by eapply send_atoms_app|]. unfold transmissions, queueings in *.
  rewrite !omap_app, Hq1, Hq2. done.
Qed.

Lemma evolves_inv s out s' : send_inv cfg s -> evolves s out s' -> send_inv cfg s'.
Proof. intros Hi (ls & Ha & _). by eapply send_inv_atoms. Qed.

Lemma evolves_schedule s i m m' :
  pending s !! i = Some m -> same_message m m' ->
  pm_attempts m' = pm_attempts m -> pm_retry_bytes m' = pm_retry_bytes m ->
  live_state (pm_state m') -> evolves s [] (put_message s i m').
Proof. intros. exists [LInternal]. split; [|done]. apply send_atoms_one. by eapply AtomSchedule. Qed.

Lemma evolves_settle s i o : is_Some (pending s !! i) -> evolves s [] (settle s i o).
Proof. intros. exists [LSettled i o]. split; [|done]. by apply send_atoms_one, AtomSettle. Qed.

Lemma begin_send_evolves ep id now s r s' :
  send_inv cfg s -> begin_send_inner ep id now s = (r, s') ->
  evolves s (match r with Ok (Some m) => [m] | _ => [] end) s'.
Proof.
  intros Hinv. unfold begin_send_inner.
  destruct (match ep with Some _ => _ | None => _ end); [intros [= <- <-]; apply evolves_refl|].
  destruct (resolve_pending_identity s ep id) as [i|] eqn:Hr; [|intros [= <- <-]; apply evolves_refl].
  apply resolve_some in Hr as ([m Hm] & _ & _). rewrite Hm.
  destruct (po_budget _ _ _ _ (si_pending _ _ Hinv _ _ Hm)) as [Hl Hmx Hat Hby Hli].
  destruct (is_expired m now); [intros [= <- <-]; apply evolves_settle; by eexists|].
  repeat (match goal with |- context [if ?b then (Ok None, s) else _] => destruct b eqn:? end;
          [intros [= <- <-]; apply evolves_refl|]).
  assert (Hn : saturating_add u32_max (pm_attempts m) 1 = pm_attempts m + 1)
    by (unfold saturating_add; lia). rewrite Hn.
  destruct (max_attempts _ <? _) eqn:Hmax.
  { intros [= <- <-]. rewrite (settle_put s i m) by done. apply evolves_settle. by eexists. }
  destruct (match max_total_retry_bytes (pm_retry_policy m) with Some _ => _ | None => _ end) eqn:Hlim.
  { intros [= <- <-]. rewrite (settle_put s i m) by done. apply evolves_settle. by eexists. }
  intros [= <- <-]. bool_facts. eexists [LAttempt _]. split; [|done].
  eapply send_atoms_one, AtomAttempt; [done|done|done|].
  split; [done|]. split; [cbn; lia|]. split; [done|]. cbn. intros limit Hl'.
  rewrite Hl' in Hlim. by bool_facts.
Qed.

Lemma mark_sent_evolves ep ea id now s :
  evolves s [] (mark_sent_inner ep ea id now s).2.
Proof.
  unfold mark_sent_inner. destruct (resolve_pending_identity s ep id) as [i|]; [|apply evolves_refl].
  destruct (pending s !! i) as [m|] eqn:Hm; [|apply evolves_refl].
  destruct (_ || _); [apply evolves_refl|].
  eapply evolves_schedule; [done..|]. by right; right.
Qed.

Lemma mark_send_failed_evolves ep ea id now s :
  evolves s [] (mark_send_failed_inner ep ea id now s).2.
Proof.
  unfold mark_send_failed_inner.
  destruct (resolve_pending_identity s ep id) as [i|]; [|apply evolves_refl].
  destruct (pending s !! i) as [m|] eqn:Hm; [|apply evolves_refl].
  destruct (is_expired m now); [apply evolves_settle; by eexists|].
  destruct (match ea with Some _ => _ | None => _ end); [apply evolves_refl|].
  destruct (_ || _).
  - cbn. rewrite (settle_put s i m) by done. apply evolves_settle. by eexists.
  - eapply evolves_schedule; [done..|]. by left.
Qed.

Lemma acknowledge_evolves p id s : evolves s [] (acknowledge p id s).2.
Proof.
  unfold acknowledge. destruct (negb _); [apply evolves_refl|].
  destruct (bool_decide _) eqn:E; cbn; [|apply evolves_refl].
  apply evolves_settle. by bool_facts.
Qed.

Lemma cancel_evolves id s : evolves s [] (cancel id s).2.
Proof.
  unfold cancel. destruct (resolve_pending_identity s None id) as [i|]; [|apply evolves_refl].
  destruct (pending s !! i) as [m|] eqn:Hm; [|apply evolves_refl].
  destruct (remove_pending _ i) as [[n|] s'] eqn:E.
  - change (record_terminal s' i OutCancelled) with
      (record_terminal ((Some n, s').2) i OutCancelled). rewrite <- E.
    change (record_terminal (remove_pending ?x i).2 i ?o) with (settle x i o). cbn [snd].
    rewrite (settle_put s i m) by done. apply evolves_settle. by eexists.
  - unfold remove_pending, put_message in E. cbn in E. by rewrite lookup_insert_eq in E.
Qed.

(** *** The loops of [recover_peer_at] and [retryable_messages] *)

Section Visit.
Variables (upd : PendingMessage -> PendingMessage) (sel : PendingMessage -> bool) (now : Z).

(** Both loops visit the peer's messages: expired ones are collected, the
    selected ones updated and returned. *)
Definition visit_one (acc : DeliveryStore * list PendingMessage * list DeliveryIdentity)
    (i : DeliveryIdentity) :=
  let '(s, ms, ex) := acc in
  match pending s !! i with
  | None => acc
  | Some m =>
    if is_expired m now then (s, ms, ex ++ [i]) else
    if sel m then (put_message s i (upd m), ms ++ [upd m], ex) else acc
  end.

Definition visited (m : PendingMessage) : PendingMessage :=
  if negb (is_expired m now) && sel m then upd m else m.

Definition collected (s : DeliveryStore) (i : DeliveryIdentity) : option PendingMessage :=
  match pending s !! i with
  | Some m => if negb (is_expired m now) && sel m then Some (upd m) else None
  | None => None
  end.

Definition outdated (s : DeliveryStore) (i : DeliveryIdentity) : bool :=
  match pending s !! i with Some m => is_expired m now | None => false end.

Lemma visit_fold ids s ms ex :
  NoDup ids ->
  exists s',
    foldl visit_one (s, ms, ex) ids
      = (s', ms ++ omap (collected s) ids, ex ++ filter (fun i => outdated s i = true) ids) /\
    (forall i, pending s' !! i
       = if bool_decide (i ∈ ids) then visited <$> pending s !! i else pending s !! i) /\
    (terminal_outcomes s' = terminal_outcomes s /\ recovery_epochs s' = recovery_epochs s).
Proof.
  revert s ms ex. induction ids as [|i ids IH]; intros s ms ex Hnd.
  { exists s. cbn. rewrite !app_nil_r. split; [done|]. split; [|done].
    intros i. by rewrite bool_decide_eq_false_2 by apply not_elem_of_nil. }
  apply NoDup_cons in Hnd as [Hi Hnd]. cbn [foldl].
  destruct (IH (visit_one (s, ms, ex) i).1.1 (visit_one (s, ms, ex) i).1.2
              (visit_one (s, ms, ex) i).2 Hnd) as (s' & Hf & Hp & Ht & He).
  rewrite <- !surjective_pairing in Hf. rewrite Hf. clear IH Hf.
  assert (Hsame : forall j, j <> i ->
            pending (visit_one (s, ms, ex) i).1.1 !! j = pending s !! j).
  { intros j Hj. cbn. destruct (pending s !! i) as [m|]; [|done].
    destruct (is_expired m now); [done|]. destruct (sel m); [|done].
    cbn. by rewrite lookup_insert_ne. }
  exists s'. split; [|split].
  - f_equal; [f_equal|].
    + rewrite (list_omap_ext_elem (collected (visit_one (s, ms, ex) i).1.1) (collected s));
        [|intros j Hj; unfold collected; rewrite Hsame; [done|congruence]].
      cbn. unfold collected at 2. destruct (pending s !! i) as [m|]; [|done].
      destruct (is_expired m now), (sel m); cbn; by rewrite <- ?app_assoc.
    + rewrite (list_filter_iff_elem (fun j => outdated (visit_one (s, ms, ex) i).1.1 j = true)
        (fun j => outdated s j = true));
        [|intros j Hj; unfold outdated; rewrite Hsame; [done|congruence]].
      rewrite filter_cons. cbn [visit_one]. change (outdated s i) with
        (match pending s !! i with Some m => is_expired m now | None => false end).
      destruct (pending s !! i) as [m|]; cbn [snd]; [|done].
      destruct (is_expired m now), (sel m); cbn [snd]; by rewrite <- ?app_assoc.
  - intros j. rewrite Hp. destruct (decide (j = i)) as [->|Hj].
    + rewrite bool_decide_eq_false_2, bool_decide_eq_true_2 by (done || left).
      cbn. unfold visited. destruct (pending s !! i) as [m|] eqn:Em; cbn; [|done].
      destruct (is_expired m now), (sel m); cbn; by rewrite ?lookup_insert_eq, ?Em.
    + rewrite Hsame by done. rewrite (bool_decide_ext (j ∈ i :: ids) (j ∈ ids)); [done|].
      rewrite elem_of_cons. naive_solver.
  - rewrite Ht, He. cbn. destruct (pending s !! i) as [m|]; [|done].
    by destruct (is_expired m now), (sel m).
Qed.

Hypothesis upd_same : forall m, same_message m (upd m).
Hypothesis upd_counts : forall m,
  pm_attempts (upd m) = pm_attempts m /\ pm_retry_bytes (upd m) = pm_retry_bytes m.
Hypothesis upd_live : forall m, live_state (pm_state m) -> live_state (pm_state (upd m)).

Lemma visit_evolves ids s ms ex :
  send_inv cfg s -> evolves s [] (foldl visit_one (s, ms, ex) ids).1.1.
Proof.
  revert s ms ex. induction ids as [|i ids IH]; intros s ms ex Hinv; [apply evolves_refl|].
  cbn [foldl visit_one]. destruct (pending s !! i) as [m|] eqn:Hm; [|by apply IH].
  destruct (is_expired m now); [by apply IH|]. destruct (sel m); [|by apply IH].
  assert (Hev : evolves s [] (put_message s i (upd m))).
  { eapply evolves_schedule; [done|done|apply upd_counts..|].
    apply upd_live, (si_pending _ _ Hinv _ _ Hm). }
  eapply (evolves_trans _ [] _ []); [exact Hev|]. apply IH. by eapply evolves_inv.
Qed.
End Visit.

Definition settle_all (o : DeliveryTerminalOutcome) (ids : list DeliveryIdentity)
    (s : DeliveryStore) : DeliveryStore :=
  foldl (fun s i => settle s i o) s ids.

Lemma settle_all_evolves o ids s :
  NoDup ids -> (forall i, i ∈ ids -> is_Some (pending s !! i)) ->
  evolves s [] (settle_all o ids s).
Proof.
  revert s. induction ids as [|i ids IH]; intros s Hnd Hp; [apply evolves_refl|].
  apply NoDup_cons in Hnd as [Hi Hnd]. cbn.
  eapply (evolves_trans _ [] _ []); [apply evolves_settle, Hp; left|].
  apply IH; [done|]. intros j Hj. rewrite settle_pending, lookup_delete_ne by congruence.
  apply Hp. by right.
Qed.

Lemma settle_all_pending o ids s j :
  pending (settle_all o ids s) !! j = if bool_decide (j ∈ ids) then None else pending s !! j.
Proof.
  revert s. induction ids as [|i ids IH]; intros s; cbn [settle_all foldl].
  - by rewrite bool_decide_eq_false_2 by apply not_elem_of_nil.
  - change (foldl _ ?x ids) with (settle_all o ids x). rewrite IH, settle_pending.
    clear IH. destruct (decide (j = i)) as [->|Hne].
    + rewrite (bool_decide_eq_true_2 (i ∈ i :: ids)) by left. rewrite lookup_delete_eq.
      by case_bool_decide.
    + rewrite lookup_delete_ne by done.
      rewrite (bool_decide_ext (j ∈ i :: ids) (j ∈ ids)); [done|].
      rewrite elem_of_cons. naive_solver.
Qed.

Lemma peer_identities_spec p s i :
  i ∈ peer_identities p s <-> exists m, pending s !! i = Some m /\ pm_peer_id m = p.
Proof.
  unfold peer_identities. rewrite list_elem_of_fmap. split.
  - intros ([j m] & -> & Hm). apply list_elem_of_filter in Hm as [Hp Hm].
    apply elem_of_hash_iter in Hm. by exists m.
  - intros (m & Hm & Hp). exists (i, m). split; [done|]. apply list_elem_of_filter.
    by rewrite elem_of_hash_iter.
Qed.

Lemma peer_identities_NoDup p s : NoDup (peer_identities p s).
Proof.
  unfold peer_identities. apply NoDup_filter_fst, NoDup_hash_iter_fst.
Qed.

(** Both loops of the source are visits followed by settling the expired. *)
Lemma visit_peer upd sel now p s :
  send_inv cfg s ->
  (forall m, same_message m (upd m)) ->
  (forall m, pm_attempts (upd m) = pm_attempts m /\ pm_retry_bytes (upd m) = pm_retry_bytes m) ->
  (forall m, live_state (pm_state m) -> live_state (pm_state (upd m))) ->
  exists s1,
    foldl (visit_one upd sel now) (s, [], []) (peer_identities p s)
    = (s1, omap (collected upd sel now s) (peer_identities p s),
       filter (fun i => outdated now s i = true) (peer_identities p s)) /\
    let s2 := settle_expired (filter (fun i => outdated now s i = true) (peer_identities p s)) s1 in
    evolves s [] s2 /\
    (forall i, pending s2 !! i
       = match pending s !! i with
         | Some m => if bool_decide (pm_peer_id m = p)
                     then if is_expired m now then None else Some (visited upd sel now m)
                     else Some m
         | None => None
         end).
Proof.
  intros Hinv Hsame Hcnt Hlive.
  destruct (visit_fold upd sel now (peer_identities p s) s [] [] (peer_identities_NoDup p s))
    as (s1 & Hf & Hp & _).
  exists s1. split; [done|]. intros s2.
  assert (Hex : forall i, i ∈ filter (fun i => outdated now s i = true) (peer_identities p s) <->
            exists m, pending s !! i = Some m /\ pm_peer_id m = p /\ is_expired m now = true).
  { intros i. rewrite list_elem_of_filter, peer_identities_spec. unfold outdated.
    split; [intros [Ho (m & Hm & Hpm)]; rewrite Hm in Ho; by exists m|].
    intros (m & Hm & Hpm & He). rewrite Hm. split; [done|by exists m]. }
  assert (Hs1 : forall i, pending s1 !! i = match pending s !! i with
            | Some m => Some (if bool_decide (pm_peer_id m = p) then visited upd sel now m else m)
            | None => None end).
  { intros i. rewrite Hp. destruct (pending s !! i) as [m|] eqn:Hm; [|by case_bool_decide].
    rewrite (bool_decide_ext (i ∈ _) (pm_peer_id m = p)); [by case_bool_decide|].
    rewrite peer_identities_spec, Hm. naive_solver. }
  split.
  - eapply (evolves_trans _ [] s1 []).
    + pose proof (visit_evolves upd sel now Hsame Hcnt Hlive (peer_identities p s) s [] [] Hinv) as He.
      by rewrite Hf in He.
    + apply settle_all_evolves; [apply NoDup_filter, peer_identities_NoDup|].
      intros i (m & Hm & _)%Hex. rewrite Hs1, Hm. by eexists.
  - intros i. subst s2. change settle_expired with (settle_all OutExpired).
    rewrite settle_all_pending, Hs1.
    destruct (pending s !! i) as [m|] eqn:Hm; [|by case_bool_decide].
    rewrite (bool_decide_ext _ (pm_peer_id m = p /\ is_expired m now = true))
      by (rewrite Hex, Hm; naive_solver).
    repeat case_bool_decide; destruct (is_expired m now) eqn:He; naive_solver.
Qed.

Definition recover_update (epoch now : Z) (m : PendingMessage) : PendingMessage :=
  set_recovery_epoch epoch (set_schedule StQueued now m).

Definition retry_update (now : Z) (m : PendingMessage) : PendingMessage :=
  if bool_decide (pm_state m = StSentUnacked) then set_schedule StQueued now m else m.

(** A message whose next attempt is due. *)
Definition due (now : Z) (m : PendingMessage) : bool :=
  (bool_decide (pm_state m = StSentUnacked) || bool_decide (pm_state m = StQueued))
  && (pm_next_retry_at m <=? now).

Lemma recover_one_visit epoch now acc i :
  recover_one epoch now acc i = visit_one (recover_update epoch now) (fun _ => true) now acc i.
Proof. done. Qed.

Lemma put_message_id s i m : pending s !! i = Some m -> put_message s i m = s.
Proof. intros H. unfold put_message, set_pending. rewrite insert_id by done. by destruct s. Qed.

Lemma retry_one_visit now acc i :
  retry_one now acc i = visit_one (retry_update now) (due now) now acc i.
Proof.
  destruct acc as [[s ms] ex]. unfold retry_one, visit_one, due, retry_update.
  destruct (pending s !! i) as [m|] eqn:Hm; [|done]. destruct (is_expired m now); [done|].
  destruct (pm_next_retry_at m <=? now); repeat case_bool_decide; cbn; try done; try congruence.
  by rewrite put_message_id.
Qed.

Lemma foldl_ext_fun {A B} (f g : A -> B -> A) l a :
  (forall a b, f a b = g a b) -> foldl f a l = foldl g a l.
Proof. intros H. revert a. induction l as [|b l IH]; intros a; cbn; [done|]. by rewrite H, IH. Qed.

Lemma recover_update_ok epoch now :
  (forall m, same_message m (recover_update epoch now m)) /\
  (forall m, pm_attempts (recover_update epoch now m) = pm_attempts m /\
             pm_retry_bytes (recover_update epoch now m) = pm_retry_bytes m) /\
  (forall m, live_state (pm_state m) -> live_state (pm_state (recover_update epoch now m))).
Proof. split_and!; [done|done|]. intros. by left. Qed.

Lemma retry_update_ok now :
  (forall m, same_message m (retry_update now m)) /\
  (forall m, pm_attempts (retry_update now m) = pm_attempts m /\
             pm_retry_bytes (retry_update now m) = pm_retry_bytes m) /\
  (forall m, live_state (pm_state m) -> live_state (pm_state (retry_update now m))).
Proof.
  unfold retry_update.
  split_and!; intros m; case_bool_decide; try done; by left.
Qed.

Lemma evolves_epochs s e : evolves s [] (set_recovery_epochs e s).
Proof. exists [LInternal]. split; [|done]. apply send_atoms_one, AtomEpochs. Qed.

Lemma recover_evolves p now s :
  send_inv cfg s -> evolves s [] (recover_peer_at p now s).2.
Proof.
  intros Hinv. unfold recover_peer_at. set (epoch := match _ with Some _ => _ | None => _ end).
  set (s0 := set_recovery_epochs _ s).
  assert (He : evolves s [] s0) by apply evolves_epochs.
  rewrite (foldl_ext_fun _ _ _ _ (recover_one_visit epoch now)).
  destruct (recover_update_ok epoch now) as (H1 & H2 & H3).
  destruct (visit_peer (recover_update epoch now) (fun _ => true) now p s0) as (s1 & -> & Hev & _);
    [by eapply evolves_inv|done..|].
  exact (evolves_trans _ [] _ [] _ He Hev).
Qed.

Lemma retryable_evolves p now s :
  send_inv cfg s -> evolves s [] (retryable_messages p now s).2.
Proof.
  intros Hinv. unfold retryable_messages.
  rewrite (foldl_ext_fun _ _ _ _ (retry_one_visit now)).
  destruct (retry_update_ok now) as (H1 & H2 & H3).
  by destruct (visit_peer (retry_update now) (due now) now p s Hinv H1 H2 H3) as (s1 & -> & Hev & _).
Qed.

(** *** Queueing *)

Definition obsolete (p c : string) (m : PendingMessage) : Prop :=
  pm_peer_id m = p /\ pm_channel_id m = c /\ pm_policy m = LatestState.

Lemma cancel_fold_settle ids s :
  NoDup ids -> (forall i, i ∈ ids -> is_Some (pending s !! i)) ->
  foldl (fun store identity =>
    match remove_pending store identity with
    | (Some _, store) => record_terminal store identity OutCancelled
    | (None, store) => store
    end) s ids = settle_all OutCancelled ids s.
Proof.
  revert s. induction ids as [|i ids IH]; intros s Hnd Hp; [done|].
  apply NoDup_cons in Hnd as [Hi Hnd]. cbn [foldl settle_all].
  destruct (Hp i) as [m Hm]; [left|].
  assert (Hone : (match remove_pending s i with
                  | (Some _, store) => record_terminal store i OutCancelled
                  | (None, store) => store end) = settle s i OutCancelled)
    by (unfold settle, remove_pending; by rewrite Hm).
  rewrite Hone. apply IH; [done|]. intros j Hj.
  rewrite settle_pending, lookup_delete_ne by congruence. apply Hp. by right.
Qed.

Lemma settle_all_frame o ids s :
  next_sequences (settle_all o ids s) = next_sequences s /\
  recovery_epochs (settle_all o ids s) = recovery_epochs s.
Proof.
  revert s. induction ids as [|i ids IH]; intros s; [done|]. cbn [settle_all foldl].
  destruct (IH (settle s i o)) as [H1 H2]. unfold settle_all in *. rewrite H1, H2.
  unfold settle, remove_pending. by destruct (pending s !! i).
Qed.

Lemma cancel_obsolete_spec p c s :
  evolves s [] (cancel_obsolete p c s) /\
  (forall i, pending (cancel_obsolete p c s) !! i
     = match pending s !! i with
       | Some m => if bool_decide (obsolete p c m) then None else Some m
       | None => None
       end) /\
  next_sequences (cancel_obsolete p c s) = next_sequences s /\
  recovery_epochs (cancel_obsolete p c s) = recovery_epochs s.
Proof.
  unfold cancel_obsolete. set (ids := (filter _ _).*1).
  assert (Hids : forall i, i ∈ ids <-> exists m, pending s !! i = Some m /\ obsolete p c m).
  { intros i. subst ids. rewrite list_elem_of_fmap. split.
    - intros ([j m] & -> & [Ho Hm]%list_elem_of_filter). apply elem_of_hash_iter in Hm. by exists m.
    - intros (m & Hm & Ho). exists (i, m). split; [done|]. apply list_elem_of_filter.
      by rewrite elem_of_hash_iter. }
  assert (Hnd : NoDup ids) by apply NoDup_filter_fst, NoDup_hash_iter_fst.
  assert (Hp : forall i, i ∈ ids -> is_Some (pending s !! i))
    by (intros i (m & Hm & _)%Hids; by eexists).
  rewrite cancel_fold_settle by done.
  split; [by apply settle_all_evolves|]. split; [|apply settle_all_frame].
  intros i. rewrite settle_all_pending.
  destruct (pending s !! i) as [m|] eqn:Hm; [|by case_bool_decide].
  rewrite (bool_decide_ext (i ∈ ids) (obsolete p c m)); [done|].
  rewrite Hids, Hm. naive_solver.
Qed.

Lemma next_message_id_some draws p pend term id :
  next_message_id draws p pend term = Some id ->
  id ∈ draws /\ pend !! mkIdentity p id = None /\ term !! mkIdentity p id = None.
Proof.
  induction draws as [|d draws IH]; cbn; [done|].
  repeat case_bool_decide; cbn;
    try (intros H'; destruct (IH H') as (? & ? & ?); split; [by right|done]).
  intros [= <-]. split; [left|]. by rewrite !eq_None_not_Some.
Qed.

Lemma next_message_id_none draws p pend term id :
  next_message_id draws p pend term = None -> id ∈ draws ->
  is_Some (pend !! mkIdentity p id) \/ is_Some (term !! mkIdentity p id).
Proof.
  induction draws as [|d draws IH]; cbn; [by intros _ ?%not_elem_of_nil|].
  repeat case_bool_decide; cbn; intros H'; try done;
    intros [->|Hin]%elem_of_cons; auto.
Qed.

(** The store after obsolete states were cancelled. *)
Definition prepared (p c : string) (policy : DeliveryPolicy) (s : DeliveryStore) : DeliveryStore :=
  if bool_decide (policy = LatestState) then cancel_obsolete p c s else s.

Lemma prepared_spec p c policy s :
  evolves s [] (prepared p c policy s) /\
  (forall i m, pending (prepared p c policy s) !! i = Some m ->
     pending s !! i = Some m /\ (policy = LatestState -> ~ obsolete p c m)) /\
  next_sequences (prepared p c policy s) = next_sequences s /\
  recovery_epochs (prepared p c policy s) = recovery_epochs s.
Proof.
  unfold prepared. case_bool_decide as Hpol.
  - destruct (cancel_obsolete_spec p c s) as (He & Hp & Hn & Hr). split; [done|].
    split; [|done]. intros i m. rewrite Hp. destruct (pending s !! i) as [n|]; [|done].
    case_bool_decide; [done|]. by intros [= ->].
  - split; [apply evolves_refl|]. split; [|done]. intros i m Hm. by split.
Qed.

Lemma bump_atoms s scope : send_atoms s [LInternal] (bump_sequence scope s).
Proof. apply send_atoms_one, AtomSequence. Qed.

Lemma enqueue_atoms draws p c payload policy rp now s r s' :
  send_inv cfg s -> max_attempts rp < u32_max -> max_pending_bytes cfg < u64_max ->
  enqueue_at_inner cfg draws p c payload policy rp now s = Some (r, s') ->
  exists ls, send_atoms s ls s' /\ transmissions ls = [] /\
    queueings ls = (match r with
                    | Ok m => if bool_decide (policy = BestEffort) then [] else [m]
                    | Err _ => []
                    end) /\
    (forall m, r = Ok m -> pm_message_id m ∈ draws /\ pm_peer_id m = p).
Proof.
  intros Hinv Hatt Hcfg. unfold enqueue_at_inner.
  destruct (negb (is_valid_scope_id p) || negb (is_valid_scope_id c)) eqn:Hsc;
    [intros [= <- <-]; by exists []; split; [constructor|]|].
  destruct (max_payload_bytes cfg <? len payload) eqn:Hpay;
    [intros [= <- <-]; by exists []; split; [constructor|]|].
  destruct (negb (is_valid rp)) eqn:Hrp; [intros [= <- <-]; by exists []; split; [constructor|]|].
  fold (prepared p c policy s).
  destruct (prepared_spec p c policy s) as ((ls & Hls & Htr & Hqu) & Hold & Hnext & _).
  set (s0 := prepared p c policy s) in *.
  assert (Hinv0 : send_inv cfg s0) by by eapply send_inv_atoms.
  destruct (negb (bool_decide (policy = BestEffort)) && _) eqn:Hfull.
  { intros [= <- <-]. exists ls. by rewrite Htr, Hqu. }
  destruct (next_message_id _ _ _ _) as [id|] eqn:Hid; [|done].
  apply next_message_id_some in Hid as (Hdraw & Hnp & Hnt).
  set (m := mkPending _ _ _ _ _ _ _ _ _ _ _ _ _ _).
  change (set_next_sequences _ s0) with (bump_sequence (p, c) s0).
  intros [= <- <-]. rewrite negb_if. case_bool_decide as Hbe; cbn [negb andb] in *.
  - exists (ls ++ [LInternal]). split; [eapply send_atoms_app; [done|apply bump_atoms]|].
    unfold transmissions, queueings in *. rewrite !omap_app, Htr, Hqu. cbn.
    split; [done|]. split; [done|]. by intros ? [= <-].
  - exists (ls ++ [LQueued m]). split.
    + eapply send_atoms_app; [done|]. apply send_atoms_one, (AtomQueue s0 m).
      unfold is_valid in Hrp. unfold saturating_add in Hfull. bool_facts.
      unfold queued_ok. split_and!; try done; try lia; [change (pm_payload m) with payload; lia|].
      intros Hl i n Hn Hch. destruct (Hold _ _ Hn) as [_ Ho].
      intros Hln. apply (Ho Hl). unfold obsolete. by injection Hch as -> ->.
    + unfold transmissions, queueings in *. rewrite !omap_app, Htr, Hqu. cbn.
      split; [done|]. split; [done|]. by intros ? [= <-].
Qed.
End SendProofs.
