(* ===== verification/DeliverySchedule.v ===== *)
(** * Delivery: schedules of the sending side

    Theorems about arbitrary sequences of the operations of [DeliverySend]:
    the queue's invariant, the numbering and bound of transmissions, what
    reconnecting resends, and that results of older attempts are ignored. *)
From S2P Require Import Prelude Delivery DeliverySend.

(** The public operations. *)
Inductive send_op :=
| OpEnqueue (draws : list MessageId) (peer_id channel_id : string) (payload : bytes)
    (policy : DeliveryPolicy) (retry_policy : RetryPolicy) (now : Z)
| OpBegin (message_id : MessageId) (now : Z)
| OpBeginForPeer (peer_id : string) (message_id : MessageId) (now : Z)
| OpMarkSent (message_id : MessageId) (now : Z)
| OpMarkSentForAttempt (attempt : DeliverySendAttempt) (now : Z)
| OpMarkFailed (message_id : MessageId) (now : Z)
| OpMarkFailedForAttempt (attempt : DeliverySendAttempt) (now : Z)
| OpAcknowledge (peer_id : string) (message_id : MessageId)
| OpCancel (message_id : MessageId)
| OpRecover (peer_id : string) (now : Z)
| OpRetryable (peer_id : string) (now : Z).

Section Schedule.
Context {O : DeliveryOrders} (cfg : DeliveryConfig).

(** The messages a step hands to the transport and the next store; [None]
    while an enqueue is still drawing identifiers. *)
Definition send_step (op : send_op) (s : DeliveryStore) :
    option (list PendingMessage * DeliveryStore) :=
  match op with
  | OpEnqueue draws p c payload policy rp now =>
    match enqueue_at_inner cfg draws p c payload policy rp now s with
    | Some (_, s') => Some ([], s')
    | None => None
    end
  | OpBegin id now =>
    match begin_send id now s with
    | (Ok (Some m), s') => Some ([m], s')
    | (_, s') => Some ([], s')
    end
  | OpBeginForPeer p id now =>
    match begin_send_for_peer p id now s with
    | (Ok (Some a), s') => Some ([at_message a], s')
    | (_, s') => Some ([], s')
    end
  | OpMarkSent id now => Some ([], (mark_sent id now s).2)
  | OpMarkSentForAttempt a now => Some ([], (mark_sent_for_attempt a now s).2)
  | OpMarkFailed id now => Some ([], (mark_send_failed id now s).2)
  | OpMarkFailedForAttempt a now => Some ([], (mark_send_failed_for_attempt a now s).2)
  | OpAcknowledge p id => Some ([], (acknowledge p id s).2)
  | OpCancel id => Some ([], (cancel id s).2)
  | OpRecover p now => Some ([], (recover_peer_at p now s).2)
  | OpRetryable p now => Some ([], (retryable_messages p now s).2)
  end.

Fixpoint send_run (ops : list send_op) (s : DeliveryStore) :
    option (list PendingMessage * DeliveryStore) :=
  match ops with
  | [] => Some ([], s)
  | op :: ops =>
    match send_step op s with
    | None => None
    | Some (out, s1) =>
      match send_run ops s1 with
      | None => None
      | Some (outs, s2) => Some (out ++ outs, s2)
      end
    end
  end.

(** An enqueued policy leaves the [u32] attempt counter room to count. *)
Definition op_ok (op : send_op) : Prop :=
  match op with
  | OpEnqueue _ _ _ _ _ rp _ => max_attempts rp < u32_max
  | _ => True
  end.

Definition op_draws (op : send_op) : list MessageId :=
  match op with OpEnqueue draws _ _ _ _ _ _ => draws | _ => [] end.

Hypothesis Hcfg : max_pending_bytes cfg < u64_max.

(** A step queues at most one message, whose identifier it drew. *)
Lemma send_step_atoms op s out s' :
  send_inv cfg s -> op_ok op -> send_step op s = Some (out, s') ->
  exists ls, send_atoms cfg s ls s' /\ transmissions ls = out /\
    (queueings ls = [] \/
     exists m, queueings ls = [m] /\ pm_message_id m ∈ op_draws op /\ transmissions ls = []).
Proof.
  intros Hinv Hok. assert (Hev : forall out s', evolves cfg s out s' ->
    exists ls, send_atoms cfg s ls s' /\ transmissions ls = out /\
      (queueings ls = [] \/
       exists m, queueings ls = [m] /\ pm_message_id m ∈ op_draws op /\ transmissions ls = []))
    by (intros o1 s1 (ls & Ha & Ht & Hq); exists ls; eauto).
  destruct op as [draws p c payload policy rp now|id now|p id now|id now|a now|id now|a now|p id|id|p now|p now];
    cbn [send_step op_ok op_draws] in *.
  - destruct (enqueue_at_inner _ _ _ _ _ _ _ _ _) as [[r s1]|] eqn:E; [|done].
    intros [= <- <-]. apply (enqueue_atoms cfg) in E as (ls & Ha & Ht & Hq & Hd); [|done..].
    exists ls. split; [done|]. split; [done|].
    destruct r as [m|e]; [|by left]. destruct (bool_decide _); [by left|].
    right. exists m. split; [done|]. split; [by apply Hd|done].
  - unfold begin_send. destruct (begin_send_inner None id now s) as [r s1] eqn:E.
    apply (begin_send_evolves cfg) in E; [|done]. destruct r as [[m|]|]; intros [= <- <-]; eauto.
  - unfold begin_send_for_peer. destruct (negb _); [intros [= <- <-]; apply Hev, evolves_refl|].
    unfold mbind, SE_bind. destruct (begin_send_inner (Some p) id now s) as [r s1] eqn:E.
    apply (begin_send_evolves cfg) in E; [|done]. destruct r as [[m|]|]; cbn; intros [= <- <-]; eauto.
  - intros [= <- <-]. apply Hev, mark_sent_evolves.
  - intros [= <- <-]. apply Hev, mark_sent_evolves.
  - intros [= <- <-]. apply Hev, mark_send_failed_evolves.
  - intros [= <- <-]. apply Hev, mark_send_failed_evolves.
  - intros [= <- <-]. apply Hev, acknowledge_evolves.
  - intros [= <- <-]. apply Hev, cancel_evolves.
  - intros [= <- <-]. by apply Hev, recover_evolves.
  - intros [= <- <-]. by apply Hev, retryable_evolves.
Qed.

Lemma send_step_inv op s out s' :
  send_inv cfg s -> op_ok op -> send_step op s = Some (out, s') -> send_inv cfg s'.
Proof.
  intros Hinv Hok (ls & Ha & _)%send_step_atoms; [|done..]. by eapply send_inv_atoms.
Qed.

Lemma send_run_inv ops s out s' :
  send_inv cfg s -> Forall op_ok ops -> send_run ops s = Some (out, s') -> send_inv cfg s'.
Proof.
  revert s out. induction ops as [|op ops IH]; intros s out Hinv Hok Hrun; cbn in Hrun; [by simplify_eq|].
  apply Forall_cons in Hok as [Ho Hok].
  destruct (send_step op s) as [[o1 s1]|] eqn:E; [|done].
  destruct (send_run ops s1) as [[o2 s2]|] eqn:E2; [|done]. simplify_eq.
  eapply IH; [|done|exact E2]. by eapply send_step_inv.
Qed.

(** ** Numbering of transmissions *)

Definition attempts_of (i : DeliveryIdentity) (out : list PendingMessage) : list Z :=
  pm_attempts <$> filter (fun m => identity_of m = i) out.

Lemma attempts_of_app i o1 o2 : attempts_of i (o1 ++ o2) = attempts_of i o1 ++ attempts_of i o2.
Proof. unfold attempts_of. by rewrite filter_app, fmap_app. Qed.

(** Since the message had made [base] attempts, its transmissions are numbered
    consecutively; an identifier in [fresh_ids] has not been used yet. *)
Definition tracks (i : DeliveryIdentity) (base : Z) (fresh_ids : list MessageId)
    (s : DeliveryStore) (out : list PendingMessage) : Prop :=
  match pending s !! i with
  | Some m => base <= pm_attempts m /\
              attempts_of i out = seqZ (base + 1) (pm_attempts m - base)
  | None => exists n, 0 <= n /\ attempts_of i out = seqZ (base + 1) n
  end /\
  (id_message_id i ∈ fresh_ids -> base = 0 /\ pending s !! i = None /\ attempts_of i out = []).

Definition remaining (ls : list send_label) (ids : list MessageId) : list MessageId :=
  filter (fun x => x ∉ (pm_message_id <$> queueings ls)) ids.

Lemma tracks_weaken i base f1 f2 s out : f2 ⊆ f1 -> tracks i base f1 s out -> tracks i base f2 s out.
Proof. intros Hsub [H1 H2]. split; [done|]. intros Hi. by apply H2, Hsub. Qed.

Lemma remaining_subseteq ls ids : remaining ls ids ⊆ ids.
Proof. intros x. unfold remaining. rewrite list_elem_of_filter. tauto. Qed.

(** A change that neither transmits nor queues the message. *)
Lemma tracks_other i base fs s s' out o :
  attempts_of i o = [] ->
  (pending s' !! i = None \/
   exists m m', pending s !! i = Some m /\ pending s' !! i = Some m' /\
     pm_attempts m' = pm_attempts m) ->
  tracks i base fs s out -> tracks i base fs s' (out ++ o).
Proof.
  unfold tracks. rewrite attempts_of_app. intros -> Hs [H1 H2]. rewrite app_nil_r. split.
  - destruct Hs as [Hn|(m & m' & Hm & Hm' & Ha)].
    + rewrite Hn. destruct (pending s !! i) as [m|]; [|done].
      exists (pm_attempts m - base). split; [lia|]. by destruct H1.
    + rewrite Hm in H1. by rewrite Hm', Ha.
  - intros Hi. destruct (H2 Hi) as (? & Hnone & ?). split; [done|]. split; [|done].
    destruct Hs as [?|(m & m' & Hm & _)]; [done|congruence].
Qed.

Lemma tracks_atom i base fs s l s' out :
  send_inv cfg s -> send_atom cfg s l s' ->
  (forall m, m ∈ queueings [l] -> identity_of m = i -> pm_message_id m ∈ fs) ->
  tracks i base fs s out ->
  tracks i base (remaining [l] fs) s' (out ++ transmissions [l]).
Proof.
  intros Hinv Hatom Hq Htr. eapply tracks_weaken in Htr as Htr'; [|apply (remaining_subseteq [l])].
  destruct Hatom as [j m m' Hm Hsm Ha Hb Hst|j m m' Hm Hsm Hst Hok|j o _|e|scope|m Hok];
    cbn [transmissions omap list_omap queueings] in *.
  - apply (tracks_other i base _ s); [done| |done]. cbn.
    destruct (decide (j = i)) as [->|]; [rewrite lookup_insert_eq; right; by exists m, m'|].
    rewrite lookup_insert_ne by done. destruct (pending s !! i) as [q|]; [right; by exists q, q|by left].
  - pose proof (po_identity _ _ _ _ (si_pending _ _ Hinv _ _ Hm)) as Hid.
    destruct (decide (j = i)) as [->|Hne].
    + destruct Htr' as [H1 H2]. rewrite Hm in H1. destruct H1 as [Hle Hat], Hok as [Hn _].
      split; [|intros Hi; destruct (H2 Hi) as (_ & ? & _); congruence].
      cbn. rewrite lookup_insert_eq, Hn. split; [lia|]. rewrite attempts_of_app, Hat.
      unfold attempts_of. rewrite filter_cons_True by (rewrite Hid; symmetry; by apply same_message_identity).
      cbn. rewrite Hn. replace (pm_attempts m + 1) with (base + 1 + (pm_attempts m - base)) at 1 by lia.
      rewrite seqZ_snoc by lia. f_equal. lia.
    + apply (tracks_other i base _ s); [|cbn; rewrite lookup_insert_ne by done|done].
      * unfold attempts_of. rewrite filter_cons_False; [done|].
        rewrite <- (same_message_identity _ _ Hsm). congruence.
      * destruct (pending s !! i) as [q|]; [right; by exists q, q|by left].
  - apply (tracks_other i base _ s); [done| |done]. rewrite settle_pending.
    destruct (decide (j = i)) as [->|]; [left; apply lookup_delete_eq|].
    rewrite lookup_delete_ne by done. destruct (pending s !! i) as [q|]; [right; by exists q, q|by left].
  - rewrite app_nil_r. apply Htr'.
  - rewrite app_nil_r. apply Htr'.
  - rewrite app_nil_r. destruct (decide (identity_of m = i)) as [Heq|Hne].
    + destruct Htr as [_ H2]. destruct (H2 ltac:(subst i; apply Hq; [left|done])) as (-> & _ & Hout).
      destruct Hok as (_ & _ & _ & _ & _ & _ & _ & _ & _ & _ & Hat & _).
      split; [cbn; subst i; rewrite lookup_insert_eq, Hat; split; [lia|done]|].
      unfold remaining. cbn. rewrite list_elem_of_filter, <- Heq. cbn. intros [[] _]. left.
    + destruct Htr' as [H1 H2]. split; cbn; by rewrite lookup_insert_ne.
Qed.

Lemma remaining_cons l ls fs : remaining (l :: ls) fs = remaining ls (remaining [l] fs).
Proof.
  unfold remaining. rewrite list_filter_filter. apply list_filter_iff. intros x.
  change (queueings (l :: ls)) with (omap (fun l => match l with LQueued m => Some m | _ => None end) ([l] ++ ls)).
  rewrite omap_app, fmap_app, not_elem_of_app. unfold queueings. tauto.
Qed.

Lemma tracks_atoms i base fs s ls s' out :
  send_inv cfg s -> send_atoms cfg s ls s' ->
  (forall m, m ∈ queueings ls -> identity_of m = i -> pm_message_id m ∈ fs) ->
  NoDup (pm_message_id <$> queueings ls) ->
  tracks i base fs s out ->
  tracks i base (remaining ls fs) s' (out ++ transmissions ls).
Proof.
  intros Hinv Hatoms. revert fs out. induction Hatoms as [s|s l s1 ls s2 Ha _ IH]; intros fs out Hq Hnd Htr.
  - rewrite app_nil_r. eapply tracks_weaken; [apply remaining_subseteq|done].
  - assert (Hsplit : queueings (l :: ls) = queueings [l] ++ queueings ls)
      by (unfold queueings; by rewrite <- omap_app).
    rewrite Hsplit, fmap_app in Hnd. apply NoDup_app in Hnd as (_ & Hdis & Hnd).
    rewrite remaining_cons.
    replace (transmissions (l :: ls)) with (transmissions [l] ++ transmissions ls)
      by (unfold transmissions; by rewrite <- omap_app).
    rewrite app_assoc. apply IH; [by eapply send_inv_atom| |done|].
    + intros m Hm Hid. unfold remaining. rewrite list_elem_of_filter. split.
      * intros Hin. apply (Hdis _ Hin). by apply (list_elem_of_fmap_2 pm_message_id).
      * apply Hq; [|done]. rewrite Hsplit. apply elem_of_app. by right.
    + apply (tracks_atom i base fs s); [done|done| |done].
      intros m Hm. apply Hq. rewrite Hsplit. apply elem_of_app. by left.
Qed.

Definition run_draws (ops : list send_op) : list MessageId := concat (op_draws <$> ops).

(** Following one identity through a schedule whose draws are distinct. *)
Lemma tracks_run i base ops s s' out outs :
  send_inv cfg s -> Forall op_ok ops -> NoDup (run_draws ops) ->
  tracks i base (run_draws ops) s out ->
  send_run ops s = Some (outs, s') -> tracks i base [] s' (out ++ outs).
Proof.
  revert s out outs. induction ops as [|op ops IH]; intros s out outs Hinv Hok Hnd Htr Hrun.
  { cbn in Hrun. simplify_eq. by rewrite app_nil_r. }
  cbn in Hrun. apply Forall_cons in Hok as [Ho Hok].
  destruct (send_step op s) as [[o1 s1]|] eqn:E; [|done].
  destruct (send_run ops s1) as [[o2 s2]|] eqn:E2; [|done]. simplify_eq.
  change (run_draws (op :: ops)) with (op_draws op ++ run_draws ops) in *.
  apply NoDup_app in Hnd as (Hnd1 & Hdis & Hnd).
  pose proof (send_step_inv op s _ _ Hinv Ho E) as Hinv1.
  apply send_step_atoms in E as (ls & Ha & <- & Hq); [|done..].
  rewrite app_assoc. apply IH with s1; [done|done|done| |done].
  eapply tracks_weaken with (f1 := remaining ls (op_draws op ++ run_draws ops)).
  - intros x Hx. unfold remaining. rewrite list_elem_of_filter, elem_of_app. split; [|by right].
    destruct Hq as [->|(m & -> & Hm & _)]; [apply not_elem_of_nil|]. cbn.
    intros Hxm%list_elem_of_singleton. subst x. by apply (Hdis _ Hm).
  - apply tracks_atoms with s; [done|done| | |done].
    + intros m Hm _. apply elem_of_app. left.
      destruct Hq as [Hq|(m' & Hq & Hd & _)]; rewrite Hq in Hm; [by apply not_elem_of_nil in Hm|].
      apply list_elem_of_singleton in Hm. by subst.
    + destruct Hq as [->|(m & -> & _)]; cbn; [constructor|apply NoDup_singleton].
Qed.

(** What is handed to the transport is within its budget. *)
Lemma transmissions_budget s ls s' :
  send_inv cfg s -> send_atoms cfg s ls s' ->
  Forall (fun m => pm_state m = StSending /\ budget_ok m) (transmissions ls).
Proof.
  intros Hinv Ha. induction Ha as [s|s l s1 ls s2 Ha Has IH]; [constructor|].
  specialize (IH (send_inv_atom _ _ _ _ Hinv Ha)).
  destruct Ha as [| j m m' Hm Hsm Hst Hok | | | |]; try done.
  cbn. constructor; [|done]. split; [done|].
  eapply budget_attempt; [apply (si_pending _ _ Hinv _ _ Hm)|done..].
Qed.

Lemma run_budget ops s out s' :
  send_inv cfg s -> Forall op_ok ops -> send_run ops s = Some (out, s') ->
  Forall (fun m => pm_state m = StSending /\ budget_ok m) out.
Proof.
  revert s out. induction ops as [|op ops IH]; intros s out Hinv Hok Hrun; cbn in Hrun; [by simplify_eq|].
  apply Forall_cons in Hok as [Ho Hok].
  destruct (send_step op s) as [[o1 s1]|] eqn:E; [|done].
  destruct (send_run ops s1) as [[o2 s2]|] eqn:E2; [|done]. simplify_eq.
  pose proof (send_step_inv op s _ _ Hinv Ho E) as Hinv1.
  apply send_step_atoms in E as (ls & Ha & <- & _); [|done..].
  apply Forall_app. split; [by eapply (transmissions_budget s)|by eapply (IH s1)].
Qed.
End Schedule.

(** ** Theorems *)

(** C7. Whatever is queued, sent, retried, acknowledged, cancelled and
    recovered, the queue keeps its invariant: its byte counter is exact, its
    message and byte limits hold, every pending message is live, unexhausted
    and filed under its own identity, no pending message has a terminal
    outcome, sequences of a channel are distinct below [u64::MAX], and a
    channel has at most one pending [LatestState] message. *)
Theorem sender_invariant {O : DeliveryOrders} cfg ops out s :
  max_pending_bytes cfg < u64_max -> Forall op_ok ops ->
  send_run cfg ops store_new = Some (out, s) -> send_inv cfg s.
Proof. intros Hcfg Hok Hrun. eapply send_run_inv; [done|apply send_inv_new|done|done]. Qed.

(** Over any schedule whose drawn identifiers are distinct, the
    transmissions of each message are numbered 1, 2, 3, ... without a gap or
    a repetition, whatever reconnects and reports happen in between, and each
    of them is within the message's retry budget: at most [max_attempts]
    attempts, and retransmitted bytes counted exactly and within the limit. *)
Lemma transmissions_numbered {O : DeliveryOrders} cfg ops out s :
  max_pending_bytes cfg < u64_max -> Forall op_ok ops -> NoDup (run_draws ops) ->
  send_run cfg ops store_new = Some (out, s) ->
  (forall i, exists n, 0 <= n /\ attempts_of i out = seqZ 1 n) /\
  Forall (fun m => pm_state m = StSending /\ budget_ok m) out.
Proof.
  intros Hcfg Hok Hnd Hrun. split.
  - intros i.
    destruct (tracks_run cfg Hcfg i 0 ops store_new s [] out (send_inv_new cfg) Hok Hnd) as [H _];
      [split; cbn; rewrite lookup_empty; [by exists 0|done]|done|].
    cbn in H. destruct (pending s !! i) as [m|]; [|done].
    exists (pm_attempts m - 0). destruct H. split; [lia|done].
  - eapply run_budget; [done|apply send_inv_new|done|done].
Qed.

(** A schedule with a retry, a reconnect and an acknowledgement. *)
Definition sample_id (n : Z) : MessageId := from_bytes (be_bytes 16 n).
Definition sample_ops : list send_op :=
  [OpEnqueue [sample_id 1] "peer" "chat" (be_bytes 4 7) Acked retry_policy_default 0;
   OpBeginForPeer "peer" (sample_id 1) 0;
   OpMarkSent (sample_id 1) 0;
   OpRetryable "peer" (from_secs 1);
   OpBegin (sample_id 1) (from_secs 1);
   OpRecover "peer" (from_secs 2);
   OpBeginForPeer "peer" (sample_id 1) (from_secs 2);
   OpEnqueue [sample_id 2] "peer" "state" [] LatestState retry_policy_default 0].
Definition sample_result : list PendingMessage * DeliveryStore :=
  default ([], store_new) (send_run config_default sample_ops store_new).

Lemma sample_ops_ok : Forall op_ok sample_ops.
Proof. repeat constructor. Qed.

Lemma sample_ops_run :
  send_run config_default sample_ops store_new = Some (sample_result.1, sample_result.2).
Proof. vm_compute. reflexivity. Qed.

(** Witness for C7. *)
Lemma sender_invariant_witness : send_inv config_default sample_result.2.
Proof.
  apply (sender_invariant config_default sample_ops sample_result.1 sample_result.2
    ltac:(reflexivity) sample_ops_ok sample_ops_run).
Defined.

(** ** Recovery *)

Lemma identity_of_inv cfg s i m :
  send_inv cfg s -> pending s !! i = Some m -> i = identity_of m.
Proof. intros H Hm. apply (si_pending _ _ H _ _ Hm). Qed.

Lemma NoDup_identities (f : DeliveryIdentity -> option PendingMessage) ids :
  (forall i m, f i = Some m -> identity_of m = i) ->
  NoDup ids -> NoDup (identity_of <$> omap f ids).
Proof.
  intros Hf. induction ids as [|i ids IH]; intros Hnd; [constructor|].
  apply NoDup_cons in Hnd as [Hi Hnd]. cbn. destruct (f i) as [m|] eqn:E; [|by apply IH].
  cbn. apply NoDup_cons. split; [|by apply IH]. contradict Hi.
  apply list_elem_of_fmap in Hi as (m' & Heq & Hm'). apply list_elem_of_omap in Hm' as (j & Hj & Hf').
  rewrite (Hf _ _ E), (Hf _ _ Hf') in Heq. by subst.
Qed.

Definition recovery_epoch_of (p : string) (s : DeliveryStore) : Z :=
  match recovery_epochs s !! p with Some epoch => saturating_add u64_max epoch 1 | None => 1 end.

Lemma recover_peer_spec {O : DeliveryOrders} cfg p now s :
  send_inv cfg s ->
  exists ms s', recover_peer_at p now s = (mkSnapshot (recovery_epoch_of p s) ms, s') /\
  (forall m', m' ∈ ms <-> exists m, pending s !! identity_of m = Some m /\ pm_peer_id m = p /\
     is_expired m now = false /\ m' = recover_update (recovery_epoch_of p s) now m) /\
  NoDup (identity_of <$> ms) /\ StronglySorted (fun a b => pm_sequence a <= pm_sequence b) ms /\
  (forall i, pending s' !! i
     = match pending s !! i with
       | Some m => if bool_decide (pm_peer_id m = p)
                   then if is_expired m now then None
                        else Some (recover_update (recovery_epoch_of p s) now m)
                   else Some m
       | None => None
       end).
Proof.
  intros Hinv. unfold recover_peer_at. fold (recovery_epoch_of p s).
  set (epoch := recovery_epoch_of p s). set (s0 := set_recovery_epochs _ s).
  assert (Hinv0 : send_inv cfg s0) by (eapply evolves_inv; [done|apply evolves_epochs]).
  rewrite (foldl_ext_fun _ _ _ _ (recover_one_visit epoch now)).
  destruct (recover_update_ok epoch now) as (H1 & H2 & H3).
  destruct (visit_peer cfg (recover_update epoch now) (fun _ => true) now p s0 Hinv0 H1 H2 H3)
    as (s1 & -> & _ & Hp).
  eexists _, _. split; [reflexivity|].
  assert (Hcol : forall i m', collected (recover_update epoch now) (fun _ => true) now s0 i = Some m' <->
    exists m, pending s !! i = Some m /\ is_expired m now = false /\ m' = recover_update epoch now m).
  { intros i m'. unfold collected. change (pending s0) with (pending s).
    destruct (pending s !! i) as [m|]; [|split; [done|by intros (? & ? & _)]].
    destruct (is_expired m now) eqn:E; cbn; (split; [|intros (n & [= <-] & ? & ?); congruence]);
      [done|]. intros [= <-]. by exists m. }
  split_and!.
  - intros m'. rewrite sort_by_key_perm, list_elem_of_omap. split.
    + intros (i & (m & Hm & Hpm)%peer_identities_spec & (n & Hn & He & ->)%Hcol).
      assert (n = m) as -> by (cbn in Hm; congruence).
      exists m. by rewrite <- (identity_of_inv cfg s i m).
    + intros (m & Hm & Hpm & He & ->). exists (identity_of m). split.
      * apply peer_identities_spec. by exists m.
      * apply Hcol. by exists m.
  - rewrite sort_by_key_perm. apply NoDup_identities; [|apply peer_identities_NoDup].
    intros i m' (m & Hm & He & ->)%Hcol. exact (eq_sym (identity_of_inv cfg s i m Hinv Hm)).
  - apply sort_by_key_sorted.
  - intros i. rewrite Hp. cbn. destruct (pending s !! i) as [m|]; [|done].
    case_bool_decide; [|done]. unfold visited. by destruct (is_expired m now).
Qed.

(** A queued message that is due is handed over with the next attempt number,
    unless its budget is exhausted. *)
Lemma begin_send_queued {O : DeliveryOrders} p id now s m :
  is_valid_peer_id p = true -> pending s !! mkIdentity p id = Some m ->
  is_expired m now = false -> pm_state m = StQueued -> pm_next_retry_at m = now ->
  pm_attempts m < u32_max ->
  (begin_send_for_peer p id now s).1 = Err RetryExhausted \/
  exists a, (begin_send_for_peer p id now s).1 = Ok (Some a) /\
    at_attempt a = pm_attempts m + 1 /\ same_message m (at_message a).
Proof.
  intros Hv Hm He Hq Hn Ha. unfold begin_send_for_peer. rewrite Hv. cbn [negb].
  unfold mbind, SE_bind, begin_send_inner, resolve_pending_identity.
  rewrite Hm, bool_decide_eq_true_2 by by eexists. cbn [negb andb].
  rewrite Hm, He, Hq, Hn, Z.ltb_irrefl, (bool_decide_eq_false_2 (StQueued = StSending)),
    (bool_decide_eq_false_2 (StQueued = StSentUnacked)), (bool_decide_eq_true_2 (StQueued = StQueued))
    by done.
  assert (saturating_add u32_max (pm_attempts m) 1 = pm_attempts m + 1) as ->
    by (unfold saturating_add; lia). cbn [negb andb].
  destruct (_ <? pm_attempts m + 1); [by left|].
  destruct (match max_total_retry_bytes _ with Some _ => _ | None => _ end); [by left|]. right. eexists. split; [reflexivity|]. done.
Qed.

(** When a peer reconnects, the recovery batch holds exactly its pending,
    unexpired messages, each once, under its original identifier, in sequence
    order and stamped with the new connection generation; expired ones leave
    the queue and other peers' messages are untouched.  Each message of the
    batch can be sent at once: the next send attempt hands it over with the
    next attempt number unless its retry budget is exhausted. *)
Lemma recovery_resends_all_pending {O : DeliveryOrders} cfg p now s :
  send_inv cfg s ->
  exists ms s', recover_peer_at p now s = (mkSnapshot (recovery_epoch_of p s) ms, s') /\
  (forall m', m' ∈ ms <-> exists m, pending s !! identity_of m = Some m /\ pm_peer_id m = p /\
     is_expired m now = false /\ m' = recover_update (recovery_epoch_of p s) now m) /\
  NoDup (identity_of <$> ms) /\ StronglySorted (fun a b => pm_sequence a <= pm_sequence b) ms /\
  (forall i m, pending s !! i = Some m -> pm_peer_id m = p -> is_expired m now = true ->
     pending s' !! i = None) /\
  (forall i m, pending s !! i = Some m -> pm_peer_id m <> p -> pending s' !! i = Some m) /\
  (forall m, m ∈ ms ->
     (begin_send_for_peer p (pm_message_id m) now s').1 = Err RetryExhausted \/
     exists a, (begin_send_for_peer p (pm_message_id m) now s').1 = Ok (Some a) /\
       at_attempt a = pm_attempts m + 1 /\ same_message m (at_message a)).
Proof.
  intros Hinv. destruct (recover_peer_spec cfg p now s Hinv)
    as (ms & s' & Hrec & Hms & Hnd & Hsort & Hpend).
  exists ms, s'. split; [done|]. do 3 (split; [done|]). split_and!.
  - intros i m Hm Hpm He. rewrite Hpend, Hm, bool_decide_eq_true_2 by done. by rewrite He.
  - intros i m Hm Hpm. by rewrite Hpend, Hm, bool_decide_eq_false_2 by done.
  - intros m' Hm'. pose proof Hm' as Hin. apply Hms in Hin as (m & Hm & Hpm & He & Heq).
    destruct (si_pending _ _ Hinv _ _ Hm) as [_ _ _ [Hvp _] _ [Hl Hmx Hat _ _]].
    assert (Hid : mkIdentity p (pm_message_id m') = identity_of m)
      by (rewrite Heq; unfold identity_of; cbn; congruence).
    assert (Hp' : pending s' !! identity_of m = Some m')
      by (rewrite Hpend, Hm, bool_decide_eq_true_2, He, Heq; done).
    destruct (begin_send_queued p (pm_message_id m') now s' m') as [?|(a & Ha & Hat' & Hsm)];
      rewrite ?Hid; try by rewrite Heq.
    + rewrite <- Hpm. exact Hvp.
    + done.
    + rewrite Heq. cbn. lia.
    + by left.
    + right. by exists a.
Qed.

Lemma sample_inv : send_inv config_default sample_result.2.
Proof.
  eapply (send_run_inv config_default); [reflexivity|apply send_inv_new|apply sample_ops_ok|].
  apply sample_ops_run.
Qed.

(** ** Results of older attempts *)

(** A report for an attempt that is not the one in progress. *)
Lemma stale_mark_sent {O : DeliveryOrders} a t s :
  (forall m, pending s !! mkIdentity (at_peer_id a) (at_message_id a) = Some m ->
     pm_attempts m <> at_attempt a) ->
  mark_sent_for_attempt a t s = (false, s).
Proof.
  intros Hs. unfold mark_sent_for_attempt, mark_sent_inner, resolve_pending_identity.
  case_bool_decide as Hp; [|done]. destruct Hp as [m Hm]. rewrite Hm.
  rewrite (proj2 (Z.eqb_neq _ _) (Hs _ Hm)). cbn. by rewrite orb_true_r.
Qed.

Lemma stale_mark_failed {O : DeliveryOrders} a t s :
  (forall m, pending s !! mkIdentity (at_peer_id a) (at_message_id a) = Some m ->
     pm_attempts m <> at_attempt a) ->
  mark_send_failed_for_attempt a t s = (RetryNotFound, s) \/
  (exists m, pending s !! mkIdentity (at_peer_id a) (at_message_id a) = Some m /\
     is_expired m t = true /\ (mark_send_failed_for_attempt a t s).1 = RetryExpired).
Proof.
  intros Hs. unfold mark_send_failed_for_attempt, mark_send_failed_inner, resolve_pending_identity.
  case_bool_decide as Hp; [|by left]. destruct Hp as [m Hm]. rewrite Hm.
  destruct (is_expired m t) eqn:He; [right; by exists m|]. left.
  rewrite (proj2 (Z.eqb_neq _ _) (Hs _ Hm)). cbn. by rewrite orb_true_r.
Qed.

Lemma begin_for_peer_attempt {O : DeliveryOrders} cfg p id now s a s' :
  send_inv cfg s -> begin_send_for_peer p id now s = (Ok (Some a), s') ->
  at_peer_id a = p /\ at_message_id a = id /\
  exists m', pending s' !! mkIdentity p id = Some m' /\ pm_attempts m' = at_attempt a.
Proof.
  intros Hinv. unfold begin_send_for_peer. destruct (negb _); [done|].
  unfold mbind, SE_bind. destruct (begin_send_inner (Some p) id now s) as [[[m|]|] s1] eqn:E;
    cbn; intros [= <- <-]. split; [done|]. split; [done|].
  unfold begin_send_inner in E. cbn in E. destruct (_ && _); [done|].
  case_bool_decide as Hp; [|done]. destruct Hp as [n Hn]. rewrite Hn in E.
  repeat (match type of E with (if ?b then _ else _) = _ => destruct b end; [done|]).
  injection E as <- <-. eexists. cbn. by rewrite lookup_insert_eq.
Qed.

(** Once a message has been transmitted again, acknowledged, cancelled or
    given up, a late report of an older attempt changes nothing: a success
    report is refused, and a failure report neither requeues nor fails the
    newer attempt (at most it notices that the message has expired). *)
Lemma late_reports_ignored {O : DeliveryOrders} cfg p id now s a s1 ops out s2 t :
  max_pending_bytes cfg < u64_max -> send_inv cfg s ->
  begin_send_for_peer p id now s = (Ok (Some a), s1) ->
  Forall op_ok ops -> NoDup (run_draws ops) -> id ∉ run_draws ops ->
  send_run cfg ops s1 = Some (out, s2) ->
  (exists m, m ∈ out /\ identity_of m = mkIdentity p id) \/ pending s2 !! mkIdentity p id = None ->
  mark_sent_for_attempt a t s2 = (false, s2) /\
  (mark_send_failed_for_attempt a t s2 = (RetryNotFound, s2) \/
   exists m, pending s2 !! mkIdentity p id = Some m /\ is_expired m t = true /\
     (mark_send_failed_for_attempt a t s2).1 = RetryExpired).
Proof.
  intros Hcfg Hinv Hbeg Hok Hnd Hid Hrun Hlater.
  assert (Hinv1 : send_inv cfg s1).
  { eapply (send_step_inv cfg Hcfg (OpBeginForPeer p id now) s); [done|exact I|].
    cbn. by rewrite Hbeg. }
  destruct (begin_for_peer_attempt cfg p id now s a s1 Hinv Hbeg) as (Hp & Hi & m1 & Hm1 & Hat).
  set (i := mkIdentity p id) in *.
  assert (Htr : tracks i (at_attempt a) [] s2 ([] ++ out)).
  { eapply (tracks_run cfg Hcfg i (at_attempt a) ops s1); [done|done|done| |done].
    split; [|done]. rewrite Hm1, Hat. split; [lia|]. by rewrite Z.sub_diag. }
  assert (Hne : forall m, pending s2 !! mkIdentity (at_peer_id a) (at_message_id a) = Some m ->
            pm_attempts m <> at_attempt a).
  { rewrite Hp, Hi. intros m Hm Heq. destruct Hlater as [(m' & Hin & Hid')|Hnone]; [|subst i; congruence].
    destruct Htr as [Ht _]. fold i in Hm. rewrite Hm in Ht. destruct Ht as [_ Ht].
    rewrite Heq, Z.sub_diag in Ht. cbn in Ht. unfold attempts_of in Ht. apply fmap_nil_inv in Ht.
    assert (Hf : m' ∈ filter (fun m => identity_of m = i) out) by by apply list_elem_of_filter.
    rewrite Ht in Hf. by apply not_elem_of_nil in Hf. }
  split; [by apply stale_mark_sent|].
  pose proof (stale_mark_failed a t s2 Hne) as Hf. rewrite Hp, Hi in Hf. exact Hf.
Qed.

Definition sample_attempt : DeliveryStore * DeliverySendAttempt :=
  let s := default ([], store_new) (send_run config_default (take 1 sample_ops) store_new) in
  match begin_send_for_peer "peer" (sample_id 1) 0 s.2 with
  | (Ok (Some a), s1) => (s1, a)
  | (_, s1) => (s1, mkAttempt "peer" (sample_id 1) 0
                      (mkPending (sample_id 1) "peer" "chat" 0 [] Acked StQueued 0 0 None 0
                         retry_policy_default 0 0))
  end.

(** ** Queueing returns *)

Lemma draws_exhausted p (draws : list MessageId) (P : gmap DeliveryIdentity PendingMessage)
    (T : gmap DeliveryIdentity DeliveryTerminalOutcome) :
  NoDup draws ->
  (forall id, id ∈ draws -> is_Some (P !! mkIdentity p id) \/ is_Some (T !! mkIdentity p id)) ->
  len draws <= map_len P + map_len T.
Proof.
  intros Hnd Hall.
  assert (Hsub : list_to_set (mkIdentity p <$> draws) ⊆ (dom P ∪ dom T : gset DeliveryIdentity)).
  { intros i. rewrite elem_of_list_to_set, list_elem_of_fmap, elem_of_union, !elem_of_dom.
    intros (id & -> & Hid). by apply Hall. }
  apply subseteq_size in Hsub.
  rewrite size_list_to_set in Hsub by (apply NoDup_fmap_2; [by intros ? ? [= ->]|done]).
  rewrite length_fmap in Hsub.
  assert (size (dom P ∪ dom T : gset DeliveryIdentity) <= size P + size T)%nat.
  { rewrite <- (size_dom (D := gset _) P), <- (size_dom (D := gset _) T). rewrite size_union_alt.
    pose proof (subseteq_size (dom T ∖ dom P : gset DeliveryIdentity) (dom T) ltac:(set_solver)). lia. }
  unfold len, map_len. lia.
Qed.

(** Queueing always returns: among more distinct draws than the queue and
    the outcome history can hold, the identifier loop finds a free one.  On
    success the message carries the channel's next sequence and a drawn
    identifier, the sequence advances, a reliable message is pending with no
    other [LatestState] message of the channel beside a new one, and a
    [BestEffort] one is not queued; on an error no sequence is consumed, and
    the store is unchanged unless the policy is [LatestState]. *)
Lemma enqueue_returns {O : DeliveryOrders} cfg draws p c payload policy rp now s :
  send_inv cfg s -> 0 <= max_pending_messages cfg -> NoDup draws ->
  max_pending_messages cfg + MAX_TERMINAL_OUTCOMES < len draws ->
  exists r s', enqueue_at_inner cfg draws p c payload policy rp now s = Some (r, s') /\
  match r with
  | Ok m =>
    pm_sequence m = next_of s (p, c) /\ pm_message_id m ∈ draws /\
    next_of s' (p, c) = saturating_add u64_max (next_of s (p, c)) 1 /\
    (policy = BestEffort -> pending s' = pending s) /\
    (policy <> BestEffort -> pending s' !! mkIdentity p (pm_message_id m) = Some m) /\
    (policy = LatestState -> forall i n, pending s' !! i = Some n -> obsolete p c n ->
       i = mkIdentity p (pm_message_id m))
  | Err _ => next_sequences s' = next_sequences s /\ (policy <> LatestState -> s' = s)
  end.
Proof.
  intros Hinv Hmax Hnd Hlen. unfold enqueue_at_inner.
  do 3 (destruct_match_goal; [by eexists _, _|]).
  fold (prepared p c policy s).
  destruct (prepared_spec cfg p c policy s) as (Hev & Hold & Hnext & Hep).
  assert (Hsame : policy <> LatestState -> prepared p c policy s = s)
    by (intros; unfold prepared; by rewrite bool_decide_eq_false_2).
  set (s0 := prepared p c policy s) in *.
  destruct (evolves_inv _ _ _ _ Hinv Hev) as [_ _ Hc0 _ _ Ht0 _ _ _].
  destruct (_ && _); [by eexists _, _|].
  destruct (next_message_id _ _ _ _) as [id|] eqn:Hid.
  - apply next_message_id_some in Hid as (Hdraw & Hnp & Hnt). eexists _, _. split; [reflexivity|].
    rewrite negb_if. unfold next_of. rewrite <- Hnext. split; [done|]. split; [done|].
    split_and!.
    + case_bool_decide; cbn; by rewrite lookup_insert_eq.
    + intros ->. rewrite bool_decide_eq_true_2 by done. cbn. by rewrite Hsame.
    + intros Hb. rewrite bool_decide_eq_false_2 by done. cbn. apply lookup_insert_eq.
    + intros ->. rewrite bool_decide_eq_false_2 by done. cbn.
      intros i n [[<- <-]|[_ Hn]]%lookup_insert_Some Ho; [done|].
      by destruct (Hold _ _ Hn) as [_ []].
  - exfalso. pose proof (draws_exhausted p draws (pending s0) (terminal_outcomes s0) Hnd) as Hpig.
    assert (len draws <= map_len (pending s0) + map_len (terminal_outcomes s0)); [|lia].
    apply Hpig. intros i Hi. exact (next_message_id_none _ _ _ _ _ Hid Hi).
Qed.

Lemma sample_ids_NoDup n : n <= 2 ^ 128 -> NoDup (sample_id <$> seqZ 0 n).
Proof.
  intros Hn. apply NoDup_fmap_2_strong; [|apply NoDup_seqZ].
  intros x y Hx%elem_of_seqZ Hy%elem_of_seqZ Heq%(f_equal to_bytes).
  apply (be_bytes_inj 16); [change (256 ^ Z.of_nat 16) with (2 ^ 128); lia..|exact Heq].
Qed.

Lemma sample_ids_len n : 0 <= n -> len (sample_id <$> seqZ 0 n) = n.
Proof. intros. unfold len. rewrite length_fmap, length_seqZ. lia. Qed.
