(* ===== verification/DeliveryRecv.v ===== *)
(** * Delivery: the receiving side

    Models [delivery/incoming.rs], [close_peer] and the history helpers of
    [delivery/recovery.rs], and [assert_delivery_invariants] of [store.rs]:
    deduplication, ordered acceptance, completion, rejection, abandonment and
    time-out of received messages.  As on the sending side each operation is
    one critical section.  [debug_assert!(false)] branches are modelled by
    what a release build does. *)
From S2P Require Import Prelude Delivery.

Section Recv.
Context {O : DeliveryOrders} (config : DeliveryConfig).

(** ** Processed history *)

Definition prune_processed_dedup (now : Z) (store : DeliveryStore) : DeliveryStore :=
  set_incoming (incoming_active store)
    (filter (fun kv => now < pr_expires_at kv.2) (processed_dedup store)) store.

(** The [while] loop of [remember_processed]; each turn removes an entry, so
    the size of the map is enough fuel. *)
Fixpoint evict_processed (fuel : nat) (max_entries : Z)
    (processed : gmap DedupKey ProcessedDedupRecord) : gmap DedupKey ProcessedDedupRecord :=
  match fuel with
  | 0%nat => processed
  | S fuel =>
    if max_entries <=? map_len processed then
      match min_by_key (fun kv => pr_last_seen_at kv.2) (hash_iter processed) with
      | None => processed
      | Some (oldest, _) => evict_processed fuel max_entries (delete oldest processed)
      end
    else processed
  end.

Definition remember_processed (key : DedupKey) (record : ProcessedDedupRecord) (max_entries : Z)
    (store : DeliveryStore) : DeliveryStore :=
  if max_entries =? 0 then store else
  let kept := filter (fun kv => pr_last_seen_at record < pr_expires_at kv.2)
                (processed_dedup store) in
  let kept := evict_processed (size kept) max_entries kept in
  set_incoming (incoming_active store) (<[key := record]> kept) store.

(** ** Failing an ordered channel *)

Definition scope_of (key : DedupKey) : string * string := (dk_peer_id key, dk_channel_id key).
Definition key_of (message : OrderedMessage) : DedupKey :=
  dedup_key (om_peer_id message) (om_channel_id message) (om_message_id message).

Definition buffered_values (st : OrderedChannelState) : list OrderedMessage :=
  (map_to_list (reorder_buffer st)).*2.

Definition fail_ordered_channel (scope : string * string) (store : DeliveryStore) :
    gset DedupKey * DeliveryStore :=
  let affected : gset DedupKey :=
    match ordered store !! scope with
    | Some st =>
      match in_flight st with
      | Some message_id => {[dedup_key scope.1 scope.2 message_id]}
      | None => ∅
      end ∪ list_to_set (key_of <$> buffered_values st)
    | None => ∅
    end in
  let affected :=
    affected ∪ filter (fun key => dk_peer_id key = scope.1 /\ dk_channel_id key = scope.2)
                 (dom (incoming_active store)) in
  let active := filter (fun kv => kv.1 ∉ affected) (incoming_active store) in
  (affected,
   set_ordered (delete scope (ordered store)) ({[scope]} ∪ failed_ordered store)
     (set_incoming active (processed_dedup store) store)).

(** ** Application time-outs *)

Definition timed_out (now : Z) (peer_id : option string)
    (kv : DedupKey * ActiveIncomingRecord) : bool :=
  match peer_id with None => true | Some peer => bool_decide (dk_peer_id kv.1 = peer) end
  && match ar_state kv.2 with
     | InFlight => match ack_deadline kv.2 with Some deadline => deadline <=? now | None => false end
     | OrderedBuffered => false
     end.

Definition timeout_of (failed : bool) (key : DedupKey) : IncomingTimeout :=
  mkTimeout (dk_peer_id key) (dk_channel_id key) (dk_message_id key) failed.

(** The first loop: unordered messages are released, ordered channels noted. *)
Definition expire_one
    (acc : DeliveryStore * gset (string * string) * list IncomingTimeout)
    (kv : DedupKey * ActiveIncomingRecord) :=
  let '(store, scopes, expired) := acc in
  let '(key, record) := kv in
  let is_ordered :=
    bool_decide (ar_state record = OrderedBuffered)
    || match ordered store !! scope_of key with
       | Some st => bool_decide (in_flight st = Some (dk_message_id key))
       | None => false
       end in
  if is_ordered then (store, {[scope_of key]} ∪ scopes, expired) else
  match incoming_active store !! key with
  | Some _ =>
    (set_incoming (delete key (incoming_active store)) (processed_dedup store) store, scopes,
     expired ++ [timeout_of false key])
  | None => acc
  end.

(** The second loop: the noted channels fail as a whole. *)
Definition expire_scope (acc : DeliveryStore * list IncomingTimeout) (scope : string * string) :=
  let '(store, expired) := acc in
  let '(affected, store) := fail_ordered_channel scope store in
  (store, expired ++ (timeout_of true <$> set_iter affected)).

Definition expire_incoming_locked (now : Z) (peer_id : option string) (store : DeliveryStore) :
    list IncomingTimeout * DeliveryStore :=
  let due := List.filter (timed_out now peer_id) (hash_iter (incoming_active store)) in
  let '(store, scopes, expired) := foldl expire_one (store, ∅, []) due in
  let '(store, expired) := foldl expire_scope (store, expired) (set_iter scopes) in
  (expired, store).

Definition expire_incoming (peer_id : string) (now : Z) (store : DeliveryStore) :
    list IncomingTimeout * DeliveryStore :=
  expire_incoming_locked now (Some peer_id) store.

(** ** Admission *)

(** [record.f = ...] on the active record of [key]. *)
Definition put_active (key : DedupKey) (record : ActiveIncomingRecord) (store : DeliveryStore) :
    DeliveryStore :=
  set_incoming (<[key := record]> (incoming_active store)) (processed_dedup store) store.

Definition begin_incoming (peer_id channel_id : string) (message_id : MessageId)
    (recovery_epoch now : Z) (store : DeliveryStore) : DedupDecision * DeliveryStore :=
  let '(_, store) := expire_incoming_locked now (Some peer_id) store in
  let store := prune_processed_dedup now store in
  let key := dedup_key peer_id channel_id message_id in
  let scope := (peer_id, channel_id) in
  if bool_decide (scope ∈ failed_ordered store) then (ChannelFailed, store) else
  match incoming_active store !! key with
  | Some record =>
    (DuplicateInFlight,
     put_active key (mkActive (ack_deadline record) recovery_epoch (ar_state record)) store)
  | None =>
  match processed_dedup store !! key with
  | Some record =>
    (DuplicateProcessed,
     set_incoming (incoming_active store)
       (<[key := mkProcessed (now + dedup_ttl config) now recovery_epoch]> (processed_dedup store))
       store)
  | None =>
  if MAX_ACTIVE_INCOMING_RECORDS <=? map_len (incoming_active store)
  then (CapacityExceeded, store) else
  (New, put_active key
          (mkActive (Some (now + application_ack_timeout config)) recovery_epoch InFlight) store)
  end end.

Definition begin_incoming_checked (peer_id channel_id : string) (message_id : MessageId)
    (recovery_epoch now : Z) : SE DeliveryStore DeliveryError DedupDecision := fun store =>
  if negb (is_valid_peer_id peer_id) || negb (is_valid_scope_id channel_id)
  then (Err InvalidScope, store) else
  let '(decision, store) := begin_incoming peer_id channel_id message_id recovery_epoch now store in
  (Ok decision, store).

Definition accept_ordered_at (message : OrderedMessage) (now : Z) (store : DeliveryStore) :
    OrderedInsertResult * DeliveryStore :=
  if negb (is_valid_peer_id (om_peer_id message))
     || negb (is_valid_scope_id (om_channel_id message)) then (Rejected, store) else
  let key := (om_peer_id message, om_channel_id message) in
  if bool_decide (key ∈ failed_ordered store) then (Rejected, store) else
  let active_key := key_of message in
  match incoming_active store !! active_key with
  | None => (Rejected, store)
  | Some record =>
    let '(res, st) :=
      ordered_insert message (max_reorder_messages config) (max_reorder_bytes config)
        (max_sequence_gap config) (default ordered_default (ordered store !! key)) in
    let store := set_ordered (<[key := st]> (ordered store)) (failed_ordered store) store in
    match res with
    | Ready =>
      (res, put_active active_key
              (mkActive (Some (now + application_ack_timeout config)) (ar_recovery_epoch record)
                 InFlight) store)
    | Buffered =>
      (res, put_active active_key
              (mkActive None (ar_recovery_epoch record) OrderedBuffered) store)
    | Duplicate | Rejected => (res, store)
    end
  end.

(** ** Completion *)

Definition complete_incoming_at (peer_id channel_id : string) (message_id : MessageId) (now : Z)
    (store : DeliveryStore) : option IncomingCompletion * DeliveryStore :=
  let key := dedup_key peer_id channel_id message_id in
  match incoming_active store !! key with
  | None => (None, store)
  | Some active =>
  let scope := (peer_id, channel_id) in
  if match ordered store !! scope with
     | Some st =>
       match in_flight st with
       | Some current => negb (bool_decide (current = message_id))
       | None => bool_decide (ar_state active = OrderedBuffered)
       end
     | None => bool_decide (ar_state active = OrderedBuffered)
     end
  then (None, store) else
  let next_key :=
    match ordered store !! scope with
    | Some st =>
      if bool_decide (in_flight st = Some message_id)
      then key_of <$> reorder_buffer st !! saturating_add u64_max (expected_sequence st) 1
      else None
    | None => None
    end in
  if match next_key with
     | Some next_key =>
       match incoming_active store !! next_key with
       | Some record => negb (bool_decide (ar_state record = OrderedBuffered))
       | None => true
       end
     | None => false
     end
  then (None, store) else
  let '(next_ordered, store) :=
    match ordered store !! scope with
    | Some st =>
      if bool_decide (in_flight st = Some message_id) then
        let '(next, st) := ordered_acknowledge message_id st in
        (next, set_ordered (<[scope := st]> (ordered store)) (failed_ordered store) store)
      else (None, store)
    | None => (None, store)
    end in
  let store := set_incoming (delete key (incoming_active store)) (processed_dedup store) store in
  let completed (store : DeliveryStore) :=
    (Some (mkCompletion (ar_recovery_epoch active) next_ordered),
     remember_processed key
       (mkProcessed (now + dedup_ttl config) now (ar_recovery_epoch active))
       (dedup_max_entries config) store) in
  match next_ordered with
  | None => completed store
  | Some next =>
    match incoming_active store !! key_of next with
    | Some record =>
      completed (put_active (key_of next)
        (mkActive (Some (now + application_ack_timeout config)) (ar_recovery_epoch record)
           InFlight) store)
    | None => (None, store)
    end
  end
  end.

Definition complete_incoming_checked (peer_id channel_id : string) (message_id : MessageId)
    (now : Z) : SE DeliveryStore DeliveryError (option IncomingCompletion) := fun store =>
  if negb (is_valid_peer_id peer_id) || negb (is_valid_scope_id channel_id)
  then (Err InvalidScope, store) else
  let '(completion, store) := complete_incoming_at peer_id channel_id message_id now store in
  (Ok completion, store).

Definition incoming_recovery_epoch (peer_id channel_id : string) (message_id : MessageId)
    (store : DeliveryStore) : option Z :=
  let key := dedup_key peer_id channel_id message_id in
  match incoming_active store !! key with
  | Some record => Some (ar_recovery_epoch record)
  | None => pr_recovery_epoch <$> processed_dedup store !! key
  end.

(** ** Releasing without completion *)

Definition abandon_incoming (peer_id channel_id : string) (message_id : MessageId)
    (store : DeliveryStore) : bool * DeliveryStore :=
  let key := dedup_key peer_id channel_id message_id in
  match incoming_active store !! key with
  | None => (false, store)
  | Some _ =>
    let scope := (peer_id, channel_id) in
    let is_ordered :=
      match ordered store !! scope with
      | Some st => bool_decide (in_flight st = Some message_id)
                   || existsb (fun m => bool_decide (om_message_id m = message_id))
                        (buffered_values st)
      | None => false
      end in
    (true, if is_ordered then (fail_ordered_channel scope store).2
           else set_incoming (delete key (incoming_active store)) (processed_dedup store) store)
  end.

Definition reject_incoming (peer_id channel_id : string) (message_id : MessageId)
    (store : DeliveryStore) : bool * DeliveryStore :=
  let key := dedup_key peer_id channel_id message_id in
  (bool_decide (is_Some (incoming_active store !! key)),
   set_incoming (delete key (incoming_active store)) (processed_dedup store) store).

(** Explicit disconnect: receive state of the peer is dropped, the expected
    sequences of its ordered channels are kept. *)
Definition close_peer (peer_id : string) (store : DeliveryStore) : DeliveryStore :=
  let store := set_incoming
    (filter (fun kv => dk_peer_id kv.1 <> peer_id) (incoming_active store))
    (filter (fun kv => dk_peer_id kv.1 <> peer_id) (processed_dedup store)) store in
  set_ordered
    (map_imap (fun scope st =>
       Some (if bool_decide (scope.1 = peer_id)
             then mkOrdered (expected_sequence st) None ∅ 0 else st)) (ordered store))
    (filter (fun scope => scope.1 <> peer_id) (failed_ordered store)) store.

(** ** The debug assertion *)

Definition assert_active (store : DeliveryStore) (key : DedupKey) (record : ActiveIncomingRecord) :
    bool :=
  negb (bool_decide (is_Some (processed_dedup store !! key)))
  && match ar_state record with
     | InFlight => bool_decide (is_Some (ack_deadline record))
     | OrderedBuffered =>
       bool_decide (ack_deadline record = None)
       && match ordered store !! scope_of key with
          | Some st => existsb (fun m => bool_decide (om_message_id m = dk_message_id key))
                         (buffered_values st)
          | None => false
          end
     end.

Definition assert_channel (store : DeliveryStore) (scope : string * string)
    (st : OrderedChannelState) : bool :=
  match in_flight st with
  | Some message_id =>
    match incoming_active store !! dedup_key scope.1 scope.2 message_id with
    | Some record => bool_decide (ar_state record = InFlight)
    | None => false
    end
  | None => true
  end
  && forallb (fun m =>
       match incoming_active store !! key_of m with
       | Some record => bool_decide (ar_state record = OrderedBuffered)
       | None => false
       end) (buffered_values st).

Definition assert_delivery_invariants (store : DeliveryStore) : bool :=
  forallb (fun kv => assert_active store kv.1 kv.2) (map_to_list (incoming_active store))
  && forallb (fun kv => assert_channel store kv.1 kv.2) (map_to_list (ordered store)).
End Recv.

(** ** The invariant of the receiving side

    Stronger than the assertion the code checks: besides the correspondence
    of active records with channel states it records where the buffered
    messages lie, that they are distinct, the byte counter, the limits and
    the failed channels. *)
Record channel_ok (cfg : DeliveryConfig) (active : gmap DedupKey ActiveIncomingRecord)
    (scope : string * string) (st : OrderedChannelState) : Prop := {
  co_expected : 0 <= expected_sequence st <= u64_max;
  co_flight : forall id, in_flight st = Some id ->
    exists r, active !! dedup_key scope.1 scope.2 id = Some r /\ ar_state r = InFlight;
  co_buffer : forall q m, reorder_buffer st !! q = Some m ->
    om_sequence m = q /\ expected_sequence st < q /\ om_policy m = SessionBoundOrdered /\
    scope_of (key_of m) = scope /\
    exists r, active !! key_of m = Some r /\ ar_state r = OrderedBuffered;
  co_distinct : forall q1 q2 m1 m2, reorder_buffer st !! q1 = Some m1 ->
    reorder_buffer st !! q2 = Some m2 -> om_message_id m1 = om_message_id m2 -> q1 = q2;
  co_bytes : reorder_bytes st = map_sum (fun m => len (om_payload m)) (reorder_buffer st);
  co_count : map_len (reorder_buffer st) <= Z.max 0 (max_reorder_messages cfg);
  co_total : reorder_bytes st <= Z.max 0 (max_reorder_bytes cfg);
}.

Definition record_ok (channels : gmap (string * string) OrderedChannelState) (k : DedupKey)
    (r : ActiveIncomingRecord) : Prop :=
  match ar_state r with
  | InFlight => is_Some (ack_deadline r)
  | OrderedBuffered =>
    ack_deadline r = None /\
    exists st q m, channels !! scope_of k = Some st /\ reorder_buffer st !! q = Some m /\
      om_message_id m = dk_message_id k
  end.

Record recv_inv (cfg : DeliveryConfig) (s : DeliveryStore) : Prop := {
  ri_record : forall k r, incoming_active s !! k = Some r -> record_ok (ordered s) k r;
  ri_disjoint : forall k, is_Some (incoming_active s !! k) -> processed_dedup s !! k = None;
  ri_channel : forall scope st, ordered s !! scope = Some st ->
    channel_ok cfg (incoming_active s) scope st;
  ri_failed : forall scope, scope ∈ failed_ordered s -> ordered s !! scope = None;
  ri_failed_active : forall k, is_Some (incoming_active s !! k) ->
    scope_of k ∉ failed_ordered s;
  ri_count : map_len (incoming_active s) <= MAX_ACTIVE_INCOMING_RECORDS;
  ri_history : map_len (processed_dedup s) <= Z.max 0 (dedup_max_entries cfg);
}.

Lemma recv_inv_new cfg : recv_inv cfg store_new.
Proof.
  constructor; cbn.
  - intros k r. by rewrite lookup_empty.
  - intros k. rewrite lookup_empty. by intros [].
  - intros scope st. by rewrite lookup_empty.
  - intros scope. set_solver.
  - intros k. rewrite lookup_empty. by intros [].
  - by rewrite map_len_empty.
  - rewrite map_len_empty. lia.
Qed.

Lemma dedup_key_eta k : dedup_key (scope_of k).1 (scope_of k).2 (dk_message_id k) = k.
Proof. by destruct k. Qed.

Lemma elem_of_buffered st m :
  m ∈ buffered_values st <-> exists q, reorder_buffer st !! q = Some m.
Proof.
  unfold buffered_values. rewrite list_elem_of_fmap. split.
  - intros ([q m'] & -> & H). apply elem_of_map_to_list in H. by exists q.
  - intros [q Hq]. exists (q, m). by rewrite elem_of_map_to_list.
Qed.

(** The invariant implies the assertion of the source. *)
Lemma recv_inv_assert cfg s : recv_inv cfg s -> assert_delivery_invariants s = true.
Proof.
  intros [Hr Hd Hc _ _ _ _]. apply andb_true_iff. split; apply forallb_forall.
  - intros [k r] Hin%list_elem_of_In%elem_of_map_to_list. cbn.
    specialize (Hr _ _ Hin). unfold assert_active, record_ok in *.
    rewrite Hd by by eexists. rewrite bool_decide_eq_false_2 by by intros []. cbn.
    destruct (ar_state r); [by apply bool_decide_eq_true|].
    destruct Hr as (-> & st & q & m & Hst & Hm & Hid). rewrite Hst. cbn.
    apply existsb_exists. exists m. split; [|by apply bool_decide_eq_true].
    apply list_elem_of_In, elem_of_buffered. by exists q.
  - intros [scope st] Hin%list_elem_of_In%elem_of_map_to_list. cbn.
    destruct (Hc _ _ Hin) as [_ Hf Hb _ _ _ _]. unfold assert_channel.
    apply andb_true_iff. split.
    + destruct (in_flight st) as [id|]; [|done]. destruct (Hf id eq_refl) as (r & -> & ?).
      by apply bool_decide_eq_true.
    + apply forallb_forall. intros m [q Hq]%list_elem_of_In%elem_of_buffered.
      destruct (Hb _ _ Hq) as (_ & _ & _ & _ & r & -> & ?). by apply bool_decide_eq_true.
Qed.

(** ** Preservation *)

(** The channel refers to the record of [k]. *)
Definition anchored (st : OrderedChannelState) (k : DedupKey) : Prop :=
  in_flight st = Some (dk_message_id k) \/
  exists q m, reorder_buffer st !! q = Some m /\ key_of m = k.

Section RecvProofs.
Context {O : DeliveryOrders} (cfg : DeliveryConfig).

Lemma channel_ok_mono a a' scope st :
  channel_ok cfg a scope st ->
  (forall k r, scope_of k = scope -> anchored st k -> a !! k = Some r ->
     exists r', a' !! k = Some r' /\ ar_state r' = ar_state r) ->
  channel_ok cfg a' scope st.
Proof.
  intros [He Hf Hb Hd Hby Hc Ht] Hk. constructor; try done.
  - intros id Hid. destruct (Hf id Hid) as (r & Hr & Hst).
    destruct (Hk (dedup_key scope.1 scope.2 id) r) as (r' & ? & ?);
      [by destruct scope|by left|done|]. exists r'. split; [done|congruence].
  - intros q m Hm. destruct (Hb q m Hm) as (? & ? & ? & Hs & r & Hr & Hst). do 4 (split; [done|]).
    destruct (Hk (key_of m) r) as (r' & ? & ?); [done|right; by exists q, m|done|].
    exists r'. split; [done|congruence].
Qed.

(** An anchored record is in the state the channel implies. *)
Lemma anchored_state s k r st :
  recv_inv cfg s -> incoming_active s !! k = Some r -> ordered s !! scope_of k = Some st ->
  ar_state r = InFlight -> in_flight st <> Some (dk_message_id k) -> ~ anchored st k.
Proof.
  intros Hinv Hr Hst Hfl Hne [Hin|(q & m & Hm & Hk)]; [done|].
  destruct (co_buffer _ _ _ _ (ri_channel _ _ Hinv _ _ Hst) _ _ Hm) as (_ & _ & _ & _ & r' & Hr' & Hb).
  subst k. congruence.
Qed.

Lemma recv_inv_release k s :
  recv_inv cfg s ->
  (forall st, ordered s !! scope_of k = Some st -> ~ anchored st k) ->
  recv_inv cfg (set_incoming (delete k (incoming_active s)) (processed_dedup s) s).
Proof.
  intros [Hr Hd Hc Hf Hfa Hn Hh] Hna.
  assert (Hsub : forall j r, delete k (incoming_active s) !! j = Some r ->
            incoming_active s !! j = Some r) by (by intros j r [_ ?]%lookup_delete_Some).
  constructor; cbn; try done.
  - intros j r Hj%Hsub. by apply Hr.
  - intros j [r Hj%Hsub]. apply Hd. by eexists.
  - intros scope st Hst. eapply channel_ok_mono; [by apply Hc|]. intros j r Hsc Han Hj.
    exists r. split; [|done]. rewrite lookup_delete_ne; [done|]. intros <-.
    apply (Hna st); [congruence|done].
  - intros j [r Hj%Hsub]. apply Hfa. by eexists.
  - pose proof (map_len_delete_le (incoming_active s) k). lia.
Qed.

Lemma recv_inv_processed p s :
  recv_inv cfg s ->
  (forall k r, p !! k = Some r -> is_Some (processed_dedup s !! k) \/ incoming_active s !! k = None) ->
  map_len p <= Z.max 0 (dedup_max_entries cfg) ->
  recv_inv cfg (set_incoming (incoming_active s) p s).
Proof.
  intros [Hr Hd Hc Hf Hfa Hn Hh] Hp Hlen. constructor; cbn; try done.
  intros k Hk. destruct (p !! k) as [r|] eqn:E; [|done].
  destruct (Hp _ _ E) as [[x Hx]|Hnone]; [|rewrite Hnone in Hk; by destruct Hk].
  rewrite Hd in Hx by done. done.
Qed.

(** The records of a channel that fails are exactly those of its scope. *)
Lemma fail_active scope s k :
  recv_inv cfg s ->
  incoming_active (fail_ordered_channel scope s).2 !! k
  = if bool_decide (scope_of k = scope) then None else incoming_active s !! k.
Proof.
  intros Hinv. unfold fail_ordered_channel. cbn. set (aff := _ ∪ filter _ _).
  assert (Haff : is_Some (incoming_active s !! k) -> (k ∈ aff <-> scope_of k = scope)).
  { intros Hk. subst aff. rewrite elem_of_union, elem_of_filter, elem_of_dom. split.
    - intros [Hin|[[H1 H2] _]]; [|unfold scope_of; rewrite H1, H2; by destruct scope].
      destruct (ordered s !! scope) as [st|] eqn:Hst; [|set_solver].
      destruct (ri_channel _ _ Hinv _ _ Hst) as [_ _ Hb _ _ _ _].
      apply elem_of_union in Hin as [Hin|Hin].
      + destruct (in_flight st); [|set_solver]. apply elem_of_singleton in Hin. subst k.
        by destruct scope.
      + apply elem_of_list_to_set, list_elem_of_fmap in Hin as (m & -> & [q Hq]%elem_of_buffered).
        apply (Hb _ _ Hq).
    - intros <-. right. done. }
  case_bool_decide as Hsc.
  - apply map_lookup_filter_None. destruct (incoming_active s !! k) as [r|] eqn:Hk; [|by left].
    right. intros r' _ Hn. apply Hn, Haff; [by eexists|done].
  - destruct (incoming_active s !! k) as [r|] eqn:Hk.
    + apply map_lookup_filter_Some. split; [done|]. cbn. rewrite Haff by by eexists. done.
    + apply map_lookup_filter_None. by left.
Qed.

Lemma recv_inv_fail scope s : recv_inv cfg s -> recv_inv cfg (fail_ordered_channel scope s).2.
Proof.
  intros Hinv. pose proof (fun k => fail_active scope s k Hinv) as Hact.
  destruct Hinv as [Hr Hd Hc Hf Hfa Hn Hh].
  assert (Hsub : forall k r, incoming_active (fail_ordered_channel scope s).2 !! k = Some r ->
            incoming_active s !! k = Some r /\ scope_of k <> scope).
  { intros k r. rewrite Hact. by case_bool_decide. }
  constructor.
  - intros k r [Hk Hne]%Hsub. specialize (Hr _ _ Hk). unfold record_ok in *. cbn.
    by rewrite lookup_delete_ne by done.
  - intros k [r [Hk _]%Hsub]. apply Hd. by eexists.
  - intros sc st. cbn. intros [Hne Hst]%lookup_delete_Some.
    eapply channel_ok_mono; [by apply Hc|]. intros k r Hsc _ Hk. exists r. split; [|done].
    cbn in Hact. rewrite Hact, bool_decide_eq_false_2; [done|congruence].
  - intros sc. cbn. rewrite elem_of_union, elem_of_singleton. intros [->|Hin].
    + apply lookup_delete_eq.
    + apply lookup_delete_None. right. by apply Hf.
  - intros k [r [Hk Hne]%Hsub]. cbn. rewrite not_elem_of_union, not_elem_of_singleton.
    split; [done|]. apply Hfa. by eexists.
  - cbn. etrans; [apply map_len_filter_le|done].
  - done.
Qed.

(** *** Time-outs *)

(** Records are only dropped, and a channel is kept as it is or failed. *)
Record shrinks (s s' : DeliveryStore) : Prop := {
  sh_inv : recv_inv cfg s';
  sh_active : forall k r, incoming_active s' !! k = Some r -> incoming_active s !! k = Some r;
  sh_processed : processed_dedup s' = processed_dedup s;
  sh_channel : forall scope,
    (ordered s' !! scope = ordered s !! scope /\
     (scope ∈ failed_ordered s' <-> scope ∈ failed_ordered s)) \/
    (ordered s' !! scope = None /\ scope ∈ failed_ordered s');
}.

Lemma shrinks_refl s : recv_inv cfg s -> shrinks s s.
Proof. constructor; [done|done|done|]. intros. by left. Qed.

Lemma shrinks_trans s s1 s2 : shrinks s s1 -> shrinks s1 s2 -> shrinks s s2.
Proof.
  intros [I1 A1 P1 C1] [I2 A2 P2 C2]. constructor; [done|eauto|congruence|].
  intros scope. destruct (C2 scope) as [[E2 F2]|]; [|by right].
  destruct (C1 scope) as [[E1 F1]|[E1 F1]]; [left|right].
  - split; [congruence|]. by rewrite F2.
  - split; [congruence|]. by apply F2.
Qed.

Lemma shrinks_release k s :
  recv_inv cfg s -> (forall st, ordered s !! scope_of k = Some st -> ~ anchored st k) ->
  shrinks s (set_incoming (delete k (incoming_active s)) (processed_dedup s) s).
Proof.
  intros Hinv Hna. constructor; cbn; [by apply recv_inv_release| |done|by left].
  by intros j r [_ ?]%lookup_delete_Some.
Qed.

Lemma shrinks_fail scope s : recv_inv cfg s -> shrinks s (fail_ordered_channel scope s).2.
Proof.
  intros Hinv. constructor; [by apply recv_inv_fail| |done|].
  - intros k r. rewrite fail_active by done. by case_bool_decide.
  - intros sc. cbn. destruct (decide (sc = scope)) as [->|Hne].
    + right. split; [apply lookup_delete_eq|set_solver].
    + left. split; [by apply lookup_delete_ne|set_solver].
Qed.

Lemma expire_one_shrinks s scopes ex k r :
  recv_inv cfg s -> ar_state r = InFlight ->
  (forall r', incoming_active s !! k = Some r' -> r' = r) ->
  shrinks s (expire_one (s, scopes, ex) (k, r)).1.1.
Proof.
  intros Hinv Hfl Hr. cbn. destruct (_ || _) eqn:Eo; [by apply shrinks_refl|].
  destruct (incoming_active s !! k) as [r'|] eqn:Hk; [|by apply shrinks_refl].
  cbn. apply shrinks_release; [done|]. intros st Hst. rewrite Hst in Eo. bool_facts.
  rewrite (Hr r' eq_refl) in Hk. by eapply anchored_state.
Qed.

Lemma expire_fold_shrinks l s scopes ex :
  recv_inv cfg s ->
  (forall k r, (k, r) ∈ l -> ar_state r = InFlight /\
     forall r', incoming_active s !! k = Some r' -> r' = r) ->
  shrinks s (foldl expire_one (s, scopes, ex) l).1.1.
Proof.
  revert s scopes ex. induction l as [|[k r] l IH]; intros s scopes ex Hinv Hl; [by apply shrinks_refl|].
  cbn [foldl]. destruct (Hl k r ltac:(left)) as [Hfl Hr].
  pose proof (expire_one_shrinks s scopes ex k r Hinv Hfl Hr) as Hsh.
  destruct (expire_one (s, scopes, ex) (k, r)) as [[s1 scopes1] ex1]. cbn in Hsh.
  eapply shrinks_trans; [exact Hsh|]. apply IH; [apply Hsh|].
  intros k' r' Hin. destruct (Hl k' r' ltac:(by right)) as [? Hr']. split; [done|].
  intros r'' Hk''. by apply Hr', Hsh.
Qed.

Lemma expire_scopes_shrinks l s ex :
  recv_inv cfg s -> shrinks s (foldl expire_scope (s, ex) l).1.
Proof.
  revert s ex. induction l as [|scope l IH]; intros s ex Hinv; [by apply shrinks_refl|].
  cbn [foldl expire_scope]. pose proof (shrinks_fail scope s Hinv) as Hsh.
  destruct (fail_ordered_channel scope s) as [aff s1]. cbn in Hsh.
  eapply shrinks_trans; [exact Hsh|]. apply IH, Hsh.
Qed.

Lemma expire_shrinks now p s : recv_inv cfg s -> shrinks s (expire_incoming_locked now p s).2.
Proof.
  intros Hinv. unfold expire_incoming_locked.
  set (due := List.filter _ _).
  assert (Hdue : forall k r, (k, r) ∈ due ->
    ar_state r = InFlight /\ forall r', incoming_active s !! k = Some r' -> r' = r).
  { intros k r Hin. subst due. apply list_elem_of_In, filter_In in Hin as [Hin Ht].
    apply list_elem_of_In, elem_of_hash_iter in Hin. split; [|intros; congruence].
    unfold timed_out in Ht. cbn in Ht. bool_facts. by destruct (ar_state r). }
  pose proof (expire_fold_shrinks due s ∅ [] Hinv Hdue) as Hsh.
  destruct (foldl expire_one (s, ∅, []) due) as [[s1 scopes] ex]. cbn in Hsh.
  pose proof (expire_scopes_shrinks (set_iter scopes) s1 ex (sh_inv _ _ Hsh)) as Hsh2.
  destruct (foldl expire_scope (s1, ex) (set_iter scopes)) as [s2 ex2]. cbn in *.
  by eapply shrinks_trans.
Qed.

(** Before any deadline nothing is released. *)
Lemma expire_nothing now p s :
  (forall k r d, incoming_active s !! k = Some r ->
     match p with Some peer => dk_peer_id k = peer | None => True end ->
     ack_deadline r = Some d -> now < d) ->
  expire_incoming_locked now p s = ([], s).
Proof.
  intros Hd. unfold expire_incoming_locked.
  assert (List.filter (timed_out now p) (hash_iter (incoming_active s)) = []) as ->.
  { destruct (List.filter _ _) as [|[k r] l] eqn:E; [done|exfalso].
    assert (Hin : List.In (k, r) (List.filter (timed_out now p) (hash_iter (incoming_active s))))
      by (rewrite E; by left).
    apply filter_In in Hin as [Hin Ht]. apply list_elem_of_In, elem_of_hash_iter in Hin.
    unfold timed_out in Ht. cbn in Ht. apply andb_prop in Ht as [Hpk Ht].
    destruct (ar_state r); [|done]. destruct (ack_deadline r) as [d|] eqn:Hdl; [|done].
    assert (now < d); [|bool_facts; lia].
    apply (Hd _ _ _ Hin); [|done]. destruct p; [by bool_facts|done]. }
  cbn. pose proof (set_iter_perm (∅ : gset (string * string))) as Hp.
  rewrite elements_empty in Hp. apply Permutation_nil_r in Hp. by rewrite Hp.
Qed.

(** *** Admission *)

Lemma recv_inv_prune now s : recv_inv cfg s -> recv_inv cfg (prune_processed_dedup now s).
Proof.
  intros Hinv. apply recv_inv_processed; [done| |].
  - intros k r [Hk _]%map_lookup_filter_Some. left. by eexists.
  - etrans; [apply map_len_filter_le|apply Hinv].
Qed.

Lemma not_anchored_fresh s k :
  recv_inv cfg s -> incoming_active s !! k = None ->
  forall st, ordered s !! scope_of k = Some st -> ~ anchored st k.
Proof.
  intros Hinv Hk st Hst [Hin|(q & m & Hm & <-)].
  - destruct (co_flight _ _ _ _ (ri_channel _ _ Hinv _ _ Hst) _ Hin) as (r & Hr & _).
    rewrite dedup_key_eta in Hr. congruence.
  - destruct (co_buffer _ _ _ _ (ri_channel _ _ Hinv _ _ Hst) _ _ Hm) as (_ & _ & _ & _ & r & Hr & _).
    congruence.
Qed.

Lemma recv_inv_new_record k d e s :
  recv_inv cfg s -> incoming_active s !! k = None -> processed_dedup s !! k = None ->
  scope_of k ∉ failed_ordered s -> map_len (incoming_active s) < MAX_ACTIVE_INCOMING_RECORDS ->
  recv_inv cfg (put_active k (mkActive (Some d) e InFlight) s).
Proof.
  intros Hinv Hk Hp Hf Hlen. pose proof (not_anchored_fresh s k Hinv Hk) as Hna.
  destruct Hinv as [Hr Hd Hc Hfo Hfa Hn Hh]. constructor; cbn; try done.
  - intros j r [[<- <-]|[_ Hj]]%lookup_insert_Some; [by eexists|by apply Hr].
  - intros j [<-|[_ Hj]]%lookup_insert_is_Some; [done|by apply Hd].
  - intros scope st Hst. eapply channel_ok_mono; [by apply Hc|]. intros j r Hsc Han Hj.
    exists r. split; [|done]. rewrite lookup_insert_ne; [done|congruence].
  - intros j [<-|[_ Hj]]%lookup_insert_is_Some; [done|by apply Hfa].
  - rewrite map_len_insert_new by done. lia.
Qed.

Lemma recv_inv_update k r r' s :
  recv_inv cfg s -> incoming_active s !! k = Some r -> ar_state r' = ar_state r ->
  ack_deadline r' = ack_deadline r -> recv_inv cfg (put_active k r' s).
Proof.
  intros [Hr Hd Hc Hfo Hfa Hn Hh] Hk Hs Hdl. constructor; cbn; try done.
  - intros j r0 [[<- <-]|[_ Hj]]%lookup_insert_Some; [|by apply Hr].
    specialize (Hr _ _ Hk). unfold record_ok in *. by rewrite Hs, Hdl.
  - intros j [<-|[_ Hj]]%lookup_insert_is_Some; apply Hd; [by eexists|done].
  - intros scope st Hst. eapply channel_ok_mono; [by apply Hc|]. intros j r0 Hsc Han Hj.
    destruct (decide (k = j)) as [->|].
    + exists r'. rewrite lookup_insert_eq. split; [done|congruence].
    + exists r0. by rewrite lookup_insert_ne.
  - intros j [<-|[_ Hj]]%lookup_insert_is_Some; apply Hfa; [by eexists|done].
  - rewrite map_len_insert_old by by eexists. done.
Qed.

(** What a frame finds: the store after time-outs and pruning, and the
    decision for its key. *)
Definition cleaned (now : Z) (p : string) (s : DeliveryStore) : DeliveryStore :=
  prune_processed_dedup now (expire_incoming_locked now (Some p) s).2.

Lemma begin_incoming_eq p c id ep now s :
  begin_incoming cfg p c id ep now s =
  let s1 := cleaned now p s in
  let k := dedup_key p c id in
  if bool_decide ((p, c) ∈ failed_ordered s1) then (ChannelFailed, s1) else
  match incoming_active s1 !! k with
  | Some r => (DuplicateInFlight, put_active k (mkActive (ack_deadline r) ep (ar_state r)) s1)
  | None =>
  match processed_dedup s1 !! k with
  | Some _ => (DuplicateProcessed,
      set_incoming (incoming_active s1)
        (<[k := mkProcessed (now + dedup_ttl cfg) now ep]> (processed_dedup s1)) s1)
  | None =>
  if MAX_ACTIVE_INCOMING_RECORDS <=? map_len (incoming_active s1) then (CapacityExceeded, s1) else
  (New, put_active k (mkActive (Some (now + application_ack_timeout cfg)) ep InFlight) s1)
  end end.
Proof.
  unfold begin_incoming, cleaned. by destruct (expire_incoming_locked now (Some p) s) as [ex s0].
Qed.

Lemma recv_inv_cleaned now p s : recv_inv cfg s -> recv_inv cfg (cleaned now p s).
Proof. intros Hinv. by apply recv_inv_prune, (sh_inv s), expire_shrinks. Qed.

Lemma recv_inv_begin p c id ep now s :
  recv_inv cfg s -> recv_inv cfg (begin_incoming cfg p c id ep now s).2.
Proof.
  intros Hinv. rewrite begin_incoming_eq. cbn zeta.
  pose proof (recv_inv_cleaned now p s Hinv) as H1. set (s1 := cleaned now p s) in *.
  case_bool_decide as Hf; [done|].
  destruct (incoming_active s1 !! _) as [r|] eqn:Hk; [by eapply recv_inv_update|].
  destruct (processed_dedup s1 !! _) as [r|] eqn:Hp.
  - apply recv_inv_processed; [done| |].
    + intros k r' [[<- <-]|[_ Hk']]%lookup_insert_Some; [by right|left; by eexists].
    + rewrite map_len_insert_old by by eexists. apply H1.
  - destruct (_ <=? _) eqn:Hlen; [done|]. bool_facts. by apply recv_inv_new_record.
Qed.

(** *** Ordered acceptance *)

Lemma ordered_insert_cases m mm mb mg st :
  match ordered_insert m mm mb mg st with
  | (Ready, st') =>
    om_sequence m = expected_sequence st /\ in_flight st = None /\
    st' = mkOrdered (expected_sequence st) (Some (om_message_id m)) (reorder_buffer st)
            (reorder_bytes st)
  | (Buffered, st') =>
    expected_sequence st < om_sequence m /\ reorder_buffer st !! om_sequence m = None /\
    map_len (reorder_buffer st) < mm /\
    saturating_add u64_max (reorder_bytes st) (len (om_payload m)) <= mb /\
    st' = mkOrdered (expected_sequence st) (in_flight st)
            (<[om_sequence m := m]> (reorder_buffer st))
            (saturating_add u64_max (reorder_bytes st) (len (om_payload m)))
  | (_, st') => st' = st
  end.
Proof.
  unfold ordered_insert. destruct (om_sequence m <? _) eqn:E1; [done|].
  destruct (om_sequence m =? _) eqn:E2; bool_facts.
  - destruct (in_flight st); [by case_bool_decide|done].
  - destruct (_ || _) eqn:E3; [done|]. bool_facts.
    destruct (reorder_buffer st !! om_sequence m) eqn:E4; [by case_bool_decide|].
    split_and!; try done; lia.
Qed.

Lemma recv_inv_channel_record s k r r' st' :
  recv_inv cfg s -> incoming_active s !! k = Some r ->
  (forall st, ordered s !! scope_of k = Some st -> ~ anchored st k) ->
  channel_ok cfg (<[k := r']> (incoming_active s)) (scope_of k) st' ->
  record_ok (<[scope_of k := st']> (ordered s)) k r' ->
  (forall st q m, ordered s !! scope_of k = Some st -> reorder_buffer st !! q = Some m ->
     reorder_buffer st' !! q = Some m) ->
  recv_inv cfg (put_active k r'
    (set_ordered (<[scope_of k := st']> (ordered s)) (failed_ordered s) s)).
Proof.
  intros [Hr Hd Hc Hfo Hfa Hn Hh] Hk Hna Hok Hrec Hbuf. constructor; cbn; try done.
  - intros j r0 [[<- <-]|[_ Hj]]%lookup_insert_Some; [done|].
    specialize (Hr _ _ Hj). unfold record_ok in *. destruct (ar_state r0); [done|].
    destruct Hr as (Hdl & st & q & m & Hst & Hm & Hid). split; [done|].
    destruct (decide (scope_of j = scope_of k)) as [Heq|Hne].
    + exists st', q, m. rewrite Heq, lookup_insert_eq. split; [done|]. split; [|done].
      apply (Hbuf st); [congruence|done].
    + exists st, q, m. by rewrite lookup_insert_ne.
  - intros j [<-|[_ Hj]]%lookup_insert_is_Some; apply Hd; [by eexists|done].
  - intros scope st [[<- <-]|[Hne Hst]]%lookup_insert_Some; [done|].
    eapply channel_ok_mono; [by apply Hc|]. intros j r0 Hsc Han Hj.
    exists r0. split; [|done]. rewrite lookup_insert_ne; [done|congruence].
  - intros scope Hf. apply lookup_insert_None. split; [by apply Hfo|]. intros <-.
    apply (Hfa k); [by eexists|done].
  - intros j [<-|[_ Hj]]%lookup_insert_is_Some; apply Hfa; [by eexists|done].
  - rewrite map_len_insert_old by by eexists. done.
Qed.

Lemma channel_ok_default a scope : channel_ok cfg a scope ordered_default.
Proof.
  constructor; cbn; try done.
  - rewrite map_len_empty. lia.
  - lia.
Qed.

Lemma put_active_id k r s : incoming_active s !! k = Some r -> put_active k r s = s.
Proof. intros H. unfold put_active, set_incoming. rewrite insert_id by done. by destruct s. Qed.

Definition channel_at (s : DeliveryStore) (scope : string * string) : OrderedChannelState :=
  default ordered_default (ordered s !! scope).

Lemma channel_at_ok s k r :
  recv_inv cfg s -> incoming_active s !! k = Some r -> ar_state r = InFlight ->
  (forall st, ordered s !! scope_of k = Some st -> ~ anchored st k) ->
  channel_ok cfg (incoming_active s) (scope_of k) (channel_at s (scope_of k)) /\
  ~ anchored (channel_at s (scope_of k)) k.
Proof.
  intros Hinv Hk Hs Hna. unfold channel_at.
  destruct (ordered s !! scope_of k) as [st|] eqn:E; cbn.
  - split; [by apply Hinv|by apply Hna].
  - split; [apply channel_ok_default|]. by intros [|(q & m & ? & _)].
Qed.

Lemma scope_of_key_of m : scope_of (key_of m) = (om_peer_id m, om_channel_id m).
Proof. done. Qed.

Hypothesis Hbytes : max_reorder_bytes cfg < u64_max.
Hypothesis Hentries : 0 <= dedup_max_entries cfg.

(** The channel after the message at the expected sequence was taken. *)
Lemma channel_ok_ready a scope st m r :
  channel_ok cfg a scope st -> scope_of (key_of m) = scope ->
  ~ anchored st (key_of m) -> ar_state r = InFlight ->
  channel_ok cfg (<[key_of m := r]> a) scope
    (mkOrdered (expected_sequence st) (Some (om_message_id m)) (reorder_buffer st) (reorder_bytes st)).
Proof.
  intros [He Hf Hb Hd Hby Hc Ht] Hsc Hna Hr. constructor; cbn; try done.
  - intros id [= <-]. exists r. split; [|done]. subst scope. apply lookup_insert_eq.
  - intros q n Hn. destruct (Hb _ _ Hn) as (? & ? & ? & ? & r' & Hr' & ?). do 4 (split; [done|]).
    exists r'. split; [|done]. rewrite lookup_insert_ne; [done|]. intros Heq. apply Hna. right.
    by exists q, n.
Qed.

(** The channel after a later message was buffered. *)
Lemma channel_ok_buffered a scope st m r :
  channel_ok cfg a scope st -> scope_of (key_of m) = scope -> om_policy m = SessionBoundOrdered ->
  ~ anchored st (key_of m) -> ar_state r = OrderedBuffered ->
  expected_sequence st < om_sequence m -> reorder_buffer st !! om_sequence m = None ->
  map_len (reorder_buffer st) < max_reorder_messages cfg ->
  saturating_add u64_max (reorder_bytes st) (len (om_payload m)) <= max_reorder_bytes cfg ->
  channel_ok cfg (<[key_of m := r]> a) scope
    (mkOrdered (expected_sequence st) (in_flight st) (<[om_sequence m := m]> (reorder_buffer st))
       (saturating_add u64_max (reorder_bytes st) (len (om_payload m)))).
Proof.
  intros [He Hf Hb Hd Hby Hc Ht] Hsc Hpol Hna Hr Hlt Hnone Hlen Htot.
  assert (Hkeys : forall q n, reorder_buffer st !! q = Some n -> om_message_id n <> om_message_id m).
  { intros q n Hn Heq. apply Hna. right. exists q, n. split; [done|].
    destruct (Hb _ _ Hn) as (_ & _ & _ & Hsn & _). rewrite <- Hsc in Hsn.
    unfold scope_of, key_of in *. cbn in *. injection Hsn as -> ->. by rewrite Heq. }
  constructor; cbn; try done.
  - intros id Hid. destruct (Hf id Hid) as (r' & Hr' & Hs'). exists r'. split; [|done].
    rewrite lookup_insert_ne; [done|]. intros Heq. apply Hna. left. by rewrite Heq.
  - intros q n [[<- <-]|[Hne Hn]]%lookup_insert_Some.
    + do 4 (split; [done|]). exists r. split; [apply lookup_insert_eq|done].
    + destruct (Hb _ _ Hn) as (? & ? & ? & ? & r' & Hr' & ?). do 4 (split; [done|]).
      exists r'. split; [|done]. rewrite lookup_insert_ne; [done|]. intros Heq.
      apply (Hkeys _ _ Hn). by injection Heq.
  - intros q1 q2 n1 n2 [[<- <-]|[? Hn1]]%lookup_insert_Some [[<- <-]|[? Hn2]]%lookup_insert_Some Heq.
    + done.
    + by destruct (Hkeys _ _ Hn2).
    + by destruct (Hkeys _ _ Hn1).
    + by apply (Hd q1 q2 n1 n2).
  - rewrite map_sum_insert_new by done. unfold saturating_add in *. lia.
  - rewrite map_len_insert_new by done. lia.
  - lia.
Qed.

(** Accepting a message admitted just before. *)
Lemma recv_inv_accept m now s r :
  recv_inv cfg s -> incoming_active s !! key_of m = Some r -> ar_state r = InFlight ->
  (forall st, ordered s !! scope_of (key_of m) = Some st -> ~ anchored st (key_of m)) ->
  om_policy m = SessionBoundOrdered ->
  recv_inv cfg (accept_ordered_at cfg m now s).2 /\
  ((accept_ordered_at cfg m now s).1 = Duplicate \/ (accept_ordered_at cfg m now s).1 = Rejected ->
   forall st, ordered (accept_ordered_at cfg m now s).2 !! scope_of (key_of m) = Some st ->
   ~ anchored st (key_of m)).
Proof.
  intros Hinv Hk Hs Hna Hpol. unfold accept_ordered_at.
  destruct (_ || _); [done|]. case_bool_decide; [done|]. rewrite Hk.
  fold (channel_at s (om_peer_id m, om_channel_id m)). rewrite <- scope_of_key_of.
  destruct (channel_at_ok s (key_of m) r Hinv Hk Hs Hna) as [Hok Hna'].
  set (st := channel_at s (scope_of (key_of m))) in *.
  assert (Hbuf : forall st0 q n, ordered s !! scope_of (key_of m) = Some st0 ->
            reorder_buffer st0 !! q = Some n -> reorder_buffer st !! q = Some n).
  { intros st0 q n Hst0 Hn. subst st. unfold channel_at. by rewrite Hst0. }
  assert (Hsame : recv_inv cfg (set_ordered (<[scope_of (key_of m) := st]> (ordered s)) (failed_ordered s) s)).
  { pose proof (recv_inv_channel_record s (key_of m) r r st Hinv Hk Hna) as H'.
    rewrite (put_active_id (key_of m) r) in H' by done. apply H'; [|unfold record_ok; rewrite Hs|done].
    - by rewrite insert_id.
    - pose proof (ri_record _ _ Hinv _ _ Hk) as Hrec. unfold record_ok in Hrec. by rewrite Hs in Hrec. }
  pose proof (ordered_insert_cases m (max_reorder_messages cfg) (max_reorder_bytes cfg)
    (max_sequence_gap cfg) st) as Hins.
  destruct (ordered_insert _ _ _ _ st) as [[] st'].
  - destruct Hins as (Hseq & Hfl & ->). split; [|by intros []].
    apply (recv_inv_channel_record s (key_of m) r); [done|done|done| | |done].
    + by apply channel_ok_ready.
    + by eexists.
  - destruct Hins as (Hlt & Hnone & Hlen & Htot & ->). split; [|by intros []].
    apply (recv_inv_channel_record s (key_of m) r); [done|done|done| | |].
    + by apply channel_ok_buffered.
    + cbn. split; [done|]. eexists _, (om_sequence m), m. rewrite lookup_insert_eq.
      split; [done|]. cbn. rewrite lookup_insert_eq. done.
    + intros st0 q n Hst0 Hn. cbn. specialize (Hbuf _ _ _ Hst0 Hn).
      rewrite lookup_insert_ne; [done|]. intros <-. congruence.
  - subst st'. split; [done|]. intros _ st0. cbn. rewrite lookup_insert_eq. by intros [= <-].
  - subst st'. split; [done|]. intros _ st0. cbn. rewrite lookup_insert_eq. by intros [= <-].
Qed.

(** *** Completion *)

Lemma evict_subseteq fuel n m : evict_processed fuel n m ⊆ m.
Proof.
  revert m. induction fuel as [|fuel IH]; intros m; cbn; [done|].
  destruct (n <=? map_len m); [|done]. destruct (min_by_key _ _) as [[k r]|]; [|done].
  etrans; [apply IH|apply delete_subseteq].
Qed.

(** The loop ends with room for one more entry. *)
Lemma evict_room fuel n m :
  (size m <= fuel)%nat -> 0 < n -> map_len (evict_processed fuel n m) < n.
Proof.
  revert m. induction fuel as [|fuel IH]; intros m Hf Hn; cbn.
  - unfold map_len. lia.
  - destruct (n <=? map_len m) eqn:E; bool_facts; [|done].
    destruct (min_by_key _ _) as [[k r]|] eqn:Em.
    + apply min_by_key_elem, elem_of_hash_iter in Em. apply IH; [|done].
      pose proof (map_len_delete m k ltac:(by eexists)). unfold map_len in *. lia.
    + apply min_by_key_none, hash_iter_nil in Em. subst m. rewrite map_len_empty in *. lia.
Qed.

Lemma recv_inv_remember k r s :
  recv_inv cfg s -> incoming_active s !! k = None ->
  recv_inv cfg (remember_processed k r (dedup_max_entries cfg) s).
Proof.
  intros Hinv Hk. unfold remember_processed. destruct (dedup_max_entries cfg =? 0) eqn:E0; [done|].
  bool_facts. set (kept := filter _ _).
  assert (Hsub : evict_processed (size kept) (dedup_max_entries cfg) kept ⊆ processed_dedup s)
    by (etrans; [apply evict_subseteq|apply map_filter_subseteq]).
  destruct (Z.lt_trichotomy (dedup_max_entries cfg) 0) as [Hneg|[?|Hpos]]; [|done|].
  - lia.
  - apply recv_inv_processed; [done| |].
    + intros j x [[<- <-]|[_ Hj]]%lookup_insert_Some; [by right|]. left.
      exists x. by eapply lookup_weaken.
    + pose proof (evict_room (size kept) (dedup_max_entries cfg) kept ltac:(lia) Hpos).
      destruct (evict_processed (size kept) (dedup_max_entries cfg) kept !! k) eqn:Ek;
        [rewrite map_len_insert_old by by eexists|rewrite map_len_insert_new by done]; lia.
Qed.

Definition release (k : DedupKey) (s : DeliveryStore) : DeliveryStore :=
  set_incoming (delete k (incoming_active s)) (processed_dedup s) s.

Definition set_channel (scope : string * string) (st : OrderedChannelState) (s : DeliveryStore) :
    DeliveryStore :=
  set_ordered (<[scope := st]> (ordered s)) (failed_ordered s) s.

Definition processed_at (now epoch : Z) : ProcessedDedupRecord :=
  mkProcessed (now + dedup_ttl cfg) now epoch.

(** The store just before the completed key enters the history. *)
Definition completed (p c : string) (id : MessageId) (now : Z) (s : DeliveryStore) :
    option OrderedMessage * DeliveryStore :=
  let k := dedup_key p c id in
  match ordered s !! (p, c) with
  | Some st =>
    if bool_decide (in_flight st = Some id) then
      let '(next, st') := ordered_acknowledge id st in
      let s' := release k (set_channel (p, c) st' s) in
      match next with
      | Some n =>
        match incoming_active s !! key_of n with
        | Some rn => (next, put_active (key_of n)
            (mkActive (Some (now + application_ack_timeout cfg)) (ar_recovery_epoch rn) InFlight) s')
        | None => (next, s')
        end
      | None => (None, s')
      end
    else (None, release k s)
  | None => (None, release k s)
  end.

(** A channel's record differs from the record of the message in flight. *)
Lemma buffered_key_ne s scope st id q n :
  recv_inv cfg s -> ordered s !! scope = Some st -> in_flight st = Some id ->
  reorder_buffer st !! q = Some n -> key_of n <> dedup_key scope.1 scope.2 id.
Proof.
  intros Hinv Hst Hid Hn Heq. destruct (ri_channel _ _ Hinv _ _ Hst) as [_ Hf Hb _ _ _ _].
  destruct (Hf _ Hid) as (r & Hr & Hrs), (Hb _ _ Hn) as (_ & _ & _ & _ & r' & Hr' & Hrs').
  rewrite Heq in Hr'. congruence.
Qed.

Lemma complete_cases p c id now s :
  recv_inv cfg s ->
  complete_incoming_at cfg p c id now s = (None, s) \/
  exists r, incoming_active s !! dedup_key p c id = Some r /\ ar_state r = InFlight /\
    (forall st, ordered s !! (p, c) = Some st -> in_flight st = None \/ in_flight st = Some id) /\
    complete_incoming_at cfg p c id now s
    = (Some (mkCompletion (ar_recovery_epoch r) (completed p c id now s).1),
       remember_processed (dedup_key p c id) (processed_at now (ar_recovery_epoch r))
         (dedup_max_entries cfg) (completed p c id now s).2).
Proof.
  intros Hinv. unfold complete_incoming_at, completed.
  destruct (incoming_active s !! dedup_key p c id) as [r|] eqn:Hk; [|by left].
  pose proof (ri_record _ _ Hinv _ _ Hk) as Hrec. unfold record_ok in Hrec.
  change (scope_of (dedup_key p c id)) with (p, c) in Hrec.
  destruct (ordered s !! (p, c)) as [st|] eqn:Hst.
  2:{ destruct (ar_state r) eqn:Hs.
      - right. exists r. split; [done|]. split; [done|]. split; [done|]. reflexivity.
      - by destruct Hrec as (_ & st & q & m & ? & _). }
  destruct (in_flight st) as [cur|] eqn:Hfl.
  - destruct (decide (cur = id)) as [->|Hne];
      [|left; by rewrite (bool_decide_eq_false_2 (cur = id))].
    right. exists r. rewrite (bool_decide_eq_true_2 (id = id)), (bool_decide_eq_true_2 (Some id = Some id)) by done.
    destruct (ri_channel _ _ Hinv _ _ Hst) as [_ Hf Hb _ _ _ _].
    destruct (Hf _ Hfl) as (r0 & Hr0 & Hs0). cbn in Hr0. rewrite Hk in Hr0. injection Hr0 as <-.
    split; [done|]. split; [done|]. split; [intros ? [= <-]; by right|].
    cbn [negb]. unfold ordered_acknowledge. rewrite Hfl, bool_decide_eq_true_2 by done. cbn [negb].
    set (e1 := saturating_add u64_max (expected_sequence st) 1).
    destruct (reorder_buffer st !! e1) as [n|] eqn:Hn; [|reflexivity].
    destruct (Hb _ _ Hn) as (_ & _ & _ & _ & rn & Hrn & Hsn). cbn. rewrite Hrn.
    rewrite bool_decide_eq_true_2 by done. cbn.
    rewrite lookup_delete_ne; [by rewrite Hrn|].
    apply not_eq_sym, (buffered_key_ne s (p, c) st id e1 n); done.
  - destruct (ar_state r) eqn:Hs.
    + right. exists r. split; [done|]. split; [done|]. split; [intros ? [= <-]; by left|].
      rewrite !(bool_decide_eq_false_2 (None = Some id)), bool_decide_eq_false_2 by done. reflexivity.
    + left. by rewrite bool_decide_eq_true_2.
Qed.

(** A channel is replaced and records of its own scope change with it. *)
Lemma recv_inv_scope_change s scope st' a' :
  recv_inv cfg s -> is_Some (ordered s !! scope) ->
  (forall k, scope_of k <> scope -> a' !! k = incoming_active s !! k) ->
  (forall k, is_Some (a' !! k) -> is_Some (incoming_active s !! k)) ->
  map_len a' <= map_len (incoming_active s) ->
  channel_ok cfg a' scope st' ->
  (forall k r, scope_of k = scope -> a' !! k = Some r ->
     record_ok (<[scope := st']> (ordered s)) k r) ->
  recv_inv cfg (set_incoming a' (processed_dedup s) (set_channel scope st' s)).
Proof.
  intros [Hr Hd Hc Hfo Hfa Hn Hh] Hsome Hother Hdom Hlen Hok Hrec. constructor; cbn; try done.
  - intros k r Hk. destruct (decide (scope_of k = scope)) as [Heq|Hne]; [by apply Hrec|].
    rewrite Hother in Hk by done. specialize (Hr _ _ Hk). unfold record_ok in *.
    by rewrite lookup_insert_ne.
  - intros k Hk. by apply Hd, Hdom.
  - intros sc st [[<- <-]|[Hne Hst]]%lookup_insert_Some; [done|].
    eapply channel_ok_mono; [by apply Hc|]. intros k r Hsc _ Hk. exists r. split; [|done].
    rewrite Hother; [done|congruence].
  - intros sc Hf. apply lookup_insert_None. split; [by apply Hfo|]. intros <-.
    rewrite Hfo in Hsome by done. by destruct Hsome.
  - intros k Hk. by apply Hfa, Hdom.
  - lia.
Qed.

(** Records of the channel that stay buffered when the message at [e1] leaves. *)
Lemma record_ok_after s scope st st' e1 k r :
  recv_inv cfg s -> ordered s !! scope = Some st -> scope_of k = scope ->
  incoming_active s !! k = Some r ->
  (forall m, reorder_buffer st !! e1 = Some m -> key_of m <> k) ->
  reorder_buffer st' = delete e1 (reorder_buffer st) ->
  record_ok (<[scope := st']> (ordered s)) k r.
Proof.
  intros Hinv Hst Hsc Hk Hne Hbuf. pose proof (ri_record _ _ Hinv _ _ Hk) as Hrec.
  unfold record_ok in *. destruct (ar_state r); [done|].
  destruct Hrec as (Hdl & st0 & q & m & Hst0 & Hm & Hid). split; [done|].
  rewrite Hsc, Hst in Hst0. injection Hst0 as <-.
  exists st', q, m. rewrite Hsc, lookup_insert_eq. split; [done|]. split; [|done].
  rewrite Hbuf, lookup_delete_ne; [done|]. intros <-. apply (Hne _ Hm).
  destruct (co_buffer _ _ _ _ (ri_channel _ _ Hinv _ _ Hst) _ _ Hm) as (_ & _ & _ & Hsm & _).
  rewrite <- (dedup_key_eta k), <- (dedup_key_eta (key_of m)), Hsm, Hsc. by rewrite <- Hid.
Qed.

Lemma next_expected e q : e < q -> q <> saturating_add u64_max e 1 ->
  saturating_add u64_max e 1 < q.
Proof. unfold saturating_add. lia. Qed.

(** The channel after its message in flight was acknowledged. *)
Lemma channel_ok_acked a a' scope st id :
  channel_ok cfg a scope st -> in_flight st = Some id ->
  let e1 := saturating_add u64_max (expected_sequence st) 1 in
  let st' := (ordered_acknowledge id st).2 in
  (forall q m, reorder_buffer st !! q = Some m -> q <> e1 -> a' !! key_of m = a !! key_of m) ->
  (forall m, reorder_buffer st !! e1 = Some m -> scope_of (key_of m) = scope ->
     exists r, a' !! key_of m = Some r /\ ar_state r = InFlight) ->
  channel_ok cfg a' scope st' /\ reorder_buffer st' = delete e1 (reorder_buffer st).
Proof.
  intros [He Hf Hb Hd Hby Hc Ht] Hid e1 st' Hkeep Hnext. subst st'. unfold ordered_acknowledge.
  rewrite Hid, bool_decide_eq_true_2 by done. cbn. fold e1.
  assert (He1 : 0 <= e1 <= u64_max) by (subst e1; unfold saturating_add, u64_max in *; lia).
  assert (Hb' : forall q m, delete e1 (reorder_buffer st) !! q = Some m ->
    om_sequence m = q /\ e1 < q /\ om_policy m = SessionBoundOrdered /\
    scope_of (key_of m) = scope /\ exists r, a' !! key_of m = Some r /\ ar_state r = OrderedBuffered).
  { intros q m [Hq Hm]%lookup_delete_Some. destruct (Hb _ _ Hm) as (H1 & H2 & H3 & H4 & r & Hr & Hs).
    split; [done|]. split; [by apply next_expected|]. do 2 (split; [done|]).
    exists r. split; [|done]. by rewrite (Hkeep q). }
  assert (Hd' : forall q1 q2 m1 m2, delete e1 (reorder_buffer st) !! q1 = Some m1 ->
    delete e1 (reorder_buffer st) !! q2 = Some m2 -> om_message_id m1 = om_message_id m2 -> q1 = q2).
  { intros q1 q2 m1 m2 [_ H1]%lookup_delete_Some [_ H2]%lookup_delete_Some. by apply (Hd q1 q2 m1 m2). }
  destruct (reorder_buffer st !! e1) as [n|] eqn:Hn; cbn; (split; [|done || by rewrite delete_id]).
  - pose proof (map_sum_lookup_le (fun m => len (om_payload m)) (reorder_buffer st) e1 n
      ltac:(intros; apply len_nonneg) Hn) as Hle. cbn in Hle. pose proof (len_nonneg (om_payload n)).
    constructor; cbn; try done.
    + intros i [= <-]. destruct (Hb _ _ Hn) as (_ & _ & _ & Hsc & _).
      destruct (Hnext n eq_refl Hsc) as (r & Hr & Hs). exists r. split; [|done].
      rewrite <- Hsc. exact Hr.
    + rewrite (map_sum_delete _ _ _ n) by done. unfold saturating_sub. lia.
    + pose proof (map_len_delete_le (reorder_buffer st) e1). lia.
    + unfold saturating_sub. lia.
  - rewrite delete_id in Hb', Hd' by done. constructor; cbn; done.
Qed.

Lemma recv_inv_completed p c id now s r :
  recv_inv cfg s -> incoming_active s !! dedup_key p c id = Some r -> ar_state r = InFlight ->
  (forall st, ordered s !! (p, c) = Some st -> in_flight st = None \/ in_flight st = Some id) ->
  recv_inv cfg (completed p c id now s).2 /\
  incoming_active (completed p c id now s).2 !! dedup_key p c id = None.
Proof.
  intros Hinv Hk Hs Hfl. set (k := dedup_key p c id) in *.
  assert (Hrel : (forall st, ordered s !! (p, c) = Some st -> in_flight st <> Some id) ->
            recv_inv cfg (release k s) /\ incoming_active (release k s) !! k = None).
  { intros Hne. split; [|apply lookup_delete_eq]. apply recv_inv_release; [done|].
    intros st Hst. eapply (anchored_state s k r); [done|done|done|done|]. by apply Hne. }
  unfold completed. fold k. destruct (ordered s !! (p, c)) as [st|] eqn:Hst; [|by apply Hrel].
  case_bool_decide as Hid; [|apply Hrel; by intros ? [= <-]].
  pose proof (ri_channel _ _ Hinv _ _ Hst) as Hok.
  set (e1 := saturating_add u64_max (expected_sequence st) 1).
  assert (Hkn : forall q n, reorder_buffer st !! q = Some n -> key_of n <> k)
    by (intros q n Hn; by apply (buffered_key_ne s (p, c) st id q n)).
  assert (Hack : (ordered_acknowledge id st).1 = reorder_buffer st !! e1).
  { unfold ordered_acknowledge. rewrite Hid, bool_decide_eq_true_2 by done. cbn. fold e1.
    by destruct (reorder_buffer st !! e1). }
  pose proof (fun a' => channel_ok_acked (incoming_active s) a' (p, c) st id Hok Hid) as Hch.
  destruct (ordered_acknowledge id st) as [next st']. cbn in Hack, Hch. fold e1 in Hch. subst next.
  destruct (reorder_buffer st !! e1) as [n|] eqn:Hn.
  - destruct (co_buffer _ _ _ _ Hok _ _ Hn) as (_ & _ & _ & Hsc & rn & Hrn & Hsn). rewrite Hrn.
    set (rn' := mkActive _ _ InFlight). pose proof (Hkn _ _ Hn) as Hne.
    split; [|cbn; rewrite lookup_insert_ne by done; apply lookup_delete_eq].
    destruct (Hch (<[key_of n := rn']> (delete k (incoming_active s)))) as [Hok' Hbuf].
    { intros q m Hm Hq. rewrite lookup_insert_ne, lookup_delete_ne; [done| |].
      - by apply not_eq_sym, (Hkn q).
      - intros Heq. apply Hq. symmetry. apply (co_distinct _ _ _ _ Hok _ _ _ _ Hn Hm). by injection Heq. }
    { intros m [= <-] _. exists rn'. by rewrite lookup_insert_eq. }
    apply (recv_inv_scope_change s (p, c) st' (<[key_of n := rn']> (delete k (incoming_active s))));
      [done|by eexists| | | |done|].
    + intros j Hj. rewrite lookup_insert_ne, lookup_delete_ne; [done| |]; intros <-; by apply Hj.
    + intros j [<-|[_ Hj]]%lookup_insert_is_Some; [by eexists|].
      destruct Hj as [x [_ Hx]%lookup_delete_Some]. by eexists.
    + rewrite map_len_insert_old by (rewrite lookup_delete_ne by done; by eexists).
      apply map_len_delete_le.
    + intros j rj Hj [[<- <-]|[Hjn [_ Hrj]%lookup_delete_Some]]%lookup_insert_Some; [by eexists|].
      eapply (record_ok_after s (p, c) st st' e1); [done..| |done].
      intros m Hm. rewrite Hn in Hm. by injection Hm as <-.
  - split; [|apply lookup_delete_eq].
    destruct (Hch (delete k (incoming_active s))) as [Hok' Hbuf]; [|done|].
    { intros q m Hm Hq. rewrite lookup_delete_ne; [done|]. by apply not_eq_sym, (Hkn q). }
    apply (recv_inv_scope_change s (p, c) st' (delete k (incoming_active s)));
      [done|by eexists| | |apply map_len_delete_le|done|].
    + intros j Hj. rewrite lookup_delete_ne; [done|]. intros <-. by apply Hj.
    + intros j [x [_ Hx]%lookup_delete_Some]. by eexists.
    + intros j rj Hj [_ Hrj]%lookup_delete_Some.
      eapply (record_ok_after s (p, c) st st' e1); [done..| |done]. intros m Hm. congruence.
Qed.

Lemma recv_inv_complete p c id now s :
  recv_inv cfg s -> recv_inv cfg (complete_incoming_at cfg p c id now s).2.
Proof.
  intros Hinv. destruct (complete_cases p c id now s Hinv) as [->|(r & Hk & Hs & Hfl & ->)]; [done|].
  destruct (recv_inv_completed p c id now s r Hinv Hk Hs Hfl). by apply recv_inv_remember.
Qed.

(** *** Abandoning, rejecting and closing *)

Lemma abandon_shrinks p c id s : recv_inv cfg s -> shrinks s (abandon_incoming p c id s).2.
Proof.
  intros Hinv. unfold abandon_incoming.
  destruct (incoming_active s !! dedup_key p c id) as [r|] eqn:Hk; [|by apply shrinks_refl].
  cbn. destruct (match ordered s !! (p, c) with Some _ => _ | None => _ end) eqn:Eo;
    [by apply shrinks_fail|].
  apply shrinks_release; [done|]. intros st Hst. change (scope_of _) with (p, c) in Hst.
  rewrite Hst in Eo. bool_facts. intros [Hin|(q & m & Hm & Heq)]; [done|].
  apply not_true_iff_false in H0. apply H0, existsb_exists. exists m. split.
  - apply list_elem_of_In, elem_of_buffered. by exists q.
  - apply bool_decide_eq_true. unfold key_of in Heq. by injection Heq.
Qed.

Lemma recv_inv_close p s : recv_inv cfg s -> recv_inv cfg (close_peer p s).
Proof.
  intros [Hr Hd Hc Hfo Hfa Hn Hh].
  assert (Hchan : forall scope st', map_imap (fun scope st =>
       Some (if bool_decide (scope.1 = p) then mkOrdered (expected_sequence st) None ∅ 0 else st))
       (ordered s) !! scope = Some st' ->
     exists st, ordered s !! scope = Some st /\
       st' = if bool_decide (scope.1 = p) then mkOrdered (expected_sequence st) None ∅ 0 else st).
  { intros scope st'. rewrite map_lookup_imap. destruct (ordered s !! scope) as [st|]; [|done].
    cbn. intros [= <-]. by exists st. }
  constructor; cbn.
  - intros k r [Hk Hp]%map_lookup_filter_Some. cbn in Hp. specialize (Hr _ _ Hk).
    unfold record_ok in *. destruct (ar_state r); [done|].
    destruct Hr as (Hdl & st & q & m & Hst & Hm & Hid). split; [done|]. exists st, q, m.
    rewrite map_lookup_imap, Hst. cbn. by rewrite bool_decide_eq_false_2.
  - intros k [r [Hk _]%map_lookup_filter_Some]. apply map_lookup_filter_None. left.
    apply Hd. by eexists.
  - intros scope st' (st & Hst & ->)%Hchan. case_bool_decide as Hp.
    + destruct (Hc _ _ Hst). constructor; cbn; try done; [rewrite map_len_empty|]; lia.
    + eapply channel_ok_mono; [by apply Hc|]. intros k r Hsc _ Hk. exists r. split; [|done].
      apply map_lookup_filter_Some. split; [done|]. cbn. intros <-. by rewrite <- Hsc in Hp.
  - intros scope [_ Hf]%elem_of_filter. rewrite map_lookup_imap. by rewrite Hfo.
  - intros k [r [Hk _]%map_lookup_filter_Some] [_ Hf]%elem_of_filter.
    by apply (Hfa k); [eexists|].
  - pose proof (map_len_filter_le (fun kv => dk_peer_id kv.1 <> p) (incoming_active s)). lia.
  - pose proof (map_len_filter_le (fun kv => dk_peer_id kv.1 <> p) (processed_dedup s)). lia.
Qed.
End RecvProofs.
