(* ===== verification/PathHandshake.v ===== *)
(** * Metadata of the path handshake

    Models [network-core/src/path_handshake.rs] with the cursor of
    [crypto_handshake/payload_root.rs]: the policy, path and profile that both
    ends put into the Noise payloads, their encoding, the negotiation of the
    security of a path and the transcript that binds them to the two identities.
    Hashing the transcript is library code and left out. *)
From S2P Require Import Prelude.

Definition PATH_HANDSHAKE_VERSION : Z := 2.
Definition NETWORK_DATA_PROTOCOL_VERSION : Z := 2.
Definition TRANSCRIPT_DOMAIN : bytes := str_bytes "ssh-mobile/path-handshake/transcript/v2".
Definition MAX_PEER_ID_BYTES : Z := 128.
Definition MAX_PATH_BINDING_BYTES : Z := 256.
Definition MAX_CONNECTION_PROFILE_BYTES : Z := 256.
Definition IDENTITY_KEY_BYTES : Z := 32.

Inductive E2eePolicy := Required | Disabled.
Inductive PathKind := PathDirect | PathRelay.

#[export] Instance E2eePolicy_eq_dec : EqDecision E2eePolicy.
Proof. solve_decision. Defined.
#[export] Instance PathKind_eq_dec : EqDecision PathKind.
Proof. solve_decision. Defined.

Inductive PathHandshakeError :=
| HandshakeInvalidFrame | HandshakePeerProtocolMismatch | DowngradeRejected | IdentityRequired
| PeerIdentityMismatch | IdentityProofFailed | SecurityPolicyMismatch | RelayRequiresE2ee
| PathBindingMismatch | ConnectionProfileMismatch.

Definition e2ee_code (p : E2eePolicy) : Z := match p with Required => 0 | Disabled => 1 end.
Definition e2ee_from_code (code : Z) : result E2eePolicy PathHandshakeError :=
  if code =? 0 then Ok Required else if code =? 1 then Ok Disabled else Err HandshakeInvalidFrame.

Definition path_code (k : PathKind) : Z := match k with PathDirect => 1 | PathRelay => 2 end.
Definition path_from_code (code : Z) : result PathKind PathHandshakeError :=
  if code =? 1 then Ok PathDirect else if code =? 2 then Ok PathRelay else Err HandshakeInvalidFrame.

Record PathHandshakeMetadata := mkMetadata {
  ph_version : Z;
  ph_data_version : Z;
  ph_policy : E2eePolicy;
  ph_kind : PathKind;
  ph_binding : bytes;
  ph_profile : bytes;
}.

Definition validate_bytes (b : bytes) (max : Z) : result unit PathHandshakeError :=
  if bool_decide (b = []) || (max <? len b) then Err HandshakeInvalidFrame else Ok tt.

(** [append_bytes] and [append_string], which only differ in the type of the value. *)
Definition append_bytes (output value : bytes) (max : Z) : result bytes PathHandshakeError :=
  if bool_decide (value = []) || (max <? len value) || (u16_max <? len value) then Err HandshakeInvalidFrame
  else Ok (output ++ be_bytes 2 (len value) ++ value).

Definition relay_without_e2ee (k : PathKind) (p : E2eePolicy) : bool :=
  bool_decide (k = PathRelay) && bool_decide (p = Disabled).

Definition metadata_new (policy : E2eePolicy) (kind : PathKind) (binding profile : bytes) :
    result PathHandshakeMetadata PathHandshakeError :=
  let? _ := validate_bytes binding MAX_PATH_BINDING_BYTES in
  let? _ := validate_bytes profile MAX_CONNECTION_PROFILE_BYTES in
  if relay_without_e2ee kind policy then Err RelayRequiresE2ee
  else Ok (mkMetadata PATH_HANDSHAKE_VERSION NETWORK_DATA_PROTOCOL_VERSION policy kind binding profile).

Definition metadata_encode (m : PathHandshakeMetadata) (output : bytes) : result bytes PathHandshakeError :=
  if negb (ph_version m =? PATH_HANDSHAKE_VERSION) || negb (ph_data_version m =? NETWORK_DATA_PROTOCOL_VERSION)
  then Err HandshakePeerProtocolMismatch
  else
    let output := output ++ be_bytes 4 (ph_version m) ++ be_bytes 4 (ph_data_version m)
      ++ be_bytes 1 (e2ee_code (ph_policy m)) ++ be_bytes 1 (path_code (ph_kind m)) in
    let? output := append_bytes output (ph_binding m) MAX_PATH_BINDING_BYTES in
    append_bytes output (ph_profile m) MAX_CONNECTION_PROFILE_BYTES.

(** ** Decoding *)

Record Cursor := mkCursor { cu_bytes : bytes; cu_offset : Z }.

(** [Cursor::take]; every failure of the cursor is an invalid frame here. *)
Definition cursor_take (n : Z) : SE Cursor PathHandshakeError bytes := fun c =>
  match checked_add u64_max (cu_offset c) n with
  | None => (Err HandshakeInvalidFrame, c)
  | Some last =>
    if len (cu_bytes c) <? last then (Err HandshakeInvalidFrame, c)
    else (Ok (slice (cu_offset c) last (cu_bytes c)), mkCursor (cu_bytes c) last)
  end.

Definition take_byte : SE Cursor PathHandshakeError Z := b ← cursor_take 1; mret (of_be b).
Definition take_u32 : SE Cursor PathHandshakeError Z := b ← cursor_take 4; mret (of_be b).

Definition take_bytes (max : Z) : SE Cursor PathHandshakeError bytes :=
  b ← cursor_take 2;
  let length := of_be b in
  if (length =? 0) || (max <? length) then se_fail HandshakeInvalidFrame else cursor_take length.

Definition check_version (version expected : Z) : result unit PathHandshakeError :=
  if version <? expected then Err DowngradeRejected
  else if negb (version =? expected) then Err HandshakePeerProtocolMismatch
  else Ok tt.

Definition metadata_decode : SE Cursor PathHandshakeError PathHandshakeMetadata :=
  version ← take_u32;
  _ ← se_lift (check_version version PATH_HANDSHAKE_VERSION);
  data_version ← take_u32;
  _ ← se_lift (check_version data_version NETWORK_DATA_PROTOCOL_VERSION);
  code ← take_byte;
  policy ← se_lift (e2ee_from_code code);
  code ← take_byte;
  kind ← se_lift (path_from_code code);
  binding ← take_bytes MAX_PATH_BINDING_BYTES;
  profile ← take_bytes MAX_CONNECTION_PROFILE_BYTES;
  if relay_without_e2ee kind policy then se_fail RelayRequiresE2ee
  else mret (mkMetadata version data_version policy kind binding profile).

(** ** Negotiation and transcript *)

Inductive PathSecurity := SecurityE2ee | SecurityIdentityOnly.

Definition negotiate_security (kind : PathKind) (local remote : E2eePolicy) : result PathSecurity PathHandshakeError :=
  if relay_without_e2ee kind local || relay_without_e2ee kind remote then Err RelayRequiresE2ee
  else if negb (bool_decide (local = remote)) then Err SecurityPolicyMismatch
  else Ok (match local with Required => SecurityE2ee | Disabled => SecurityIdentityOnly end).

Definition security_for (m : PathHandshakeMetadata) (local : E2eePolicy) : result PathSecurity PathHandshakeError :=
  negotiate_security (ph_kind m) local (ph_policy m).

Definition validate_peer_id (peer_id : string) : result unit PathHandshakeError :=
  if str_is_empty peer_id || (MAX_PEER_ID_BYTES <? slen peer_id) then Err IdentityRequired else Ok tt.

Definition validate_identity_key (key : bytes) : result unit PathHandshakeError :=
  if forallb (fun b => Z_of_byte b =? 0) key then Err IdentityRequired else Ok tt.

Definition transcript_bytes (m : PathHandshakeMetadata) (initiator_id : string) (initiator_key : bytes)
    (responder_id : string) (responder_key : bytes) (responder_policy : E2eePolicy) :
    result bytes PathHandshakeError :=
  let? _ := validate_peer_id initiator_id in
  let? _ := validate_peer_id responder_id in
  let? _ := validate_identity_key initiator_key in
  let? _ := validate_identity_key responder_key in
  if relay_without_e2ee (ph_kind m) (ph_policy m) || relay_without_e2ee (ph_kind m) responder_policy
  then Err RelayRequiresE2ee
  else if negb (bool_decide (ph_policy m = responder_policy)) then Err SecurityPolicyMismatch
  else
    let? output := metadata_encode m TRANSCRIPT_DOMAIN in
    let output := output ++ be_bytes 1 (e2ee_code responder_policy) in
    let? output := append_bytes output (str_bytes initiator_id) MAX_PEER_ID_BYTES in
    let output := output ++ initiator_key in
    let? output := append_bytes output (str_bytes responder_id) MAX_PEER_ID_BYTES in
    Ok (output ++ responder_key).

(** ** Encoded fields *)

(** A field with its length, and the fixed part of the metadata. *)
Definition field (v : bytes) : bytes := be_bytes 2 (len v) ++ v.

Definition field_ok (max : Z) (v : bytes) : Prop := v <> [] /\ len v <= max /\ len v <= u16_max.

Definition metadata_body (m : PathHandshakeMetadata) : bytes :=
  be_bytes 4 PATH_HANDSHAKE_VERSION ++ be_bytes 4 NETWORK_DATA_PROTOCOL_VERSION ++
  be_bytes 1 (e2ee_code (ph_policy m)) ++ be_bytes 1 (path_code (ph_kind m)) ++
  field (ph_binding m) ++ field (ph_profile m).

(** What can be encoded. *)
Definition metadata_ok (m : PathHandshakeMetadata) : Prop :=
  ph_version m = PATH_HANDSHAKE_VERSION /\ ph_data_version m = NETWORK_DATA_PROTOCOL_VERSION /\
  field_ok MAX_PATH_BINDING_BYTES (ph_binding m) /\ field_ok MAX_CONNECTION_PROFILE_BYTES (ph_profile m).

Lemma append_bytes_spec output v max r :
  append_bytes output v max = Ok r <-> field_ok max v /\ r = output ++ field v.
Proof.
  unfold append_bytes, field_ok, field. destruct (bool_decide_reflect (v = [])) as [->|Hne]; [by split; [|intros [[] ?]]|].
  destruct (Z.ltb_spec max (len v)), (Z.ltb_spec u16_max (len v)); cbn; split;
    try done; try (intros [(? & ? & ?) _]; lia).
  - by intros [= <-].
  - by intros [_ ->].
Qed.

Lemma metadata_encode_spec m output r :
  metadata_encode m output = Ok r <-> metadata_ok m /\ r = output ++ metadata_body m.
Proof.
  unfold metadata_encode, metadata_ok, metadata_body.
  destruct (Z.eqb_spec (ph_version m) PATH_HANDSHAKE_VERSION) as [->|]; [|split; [done|by intros [[? _] _]]].
  destruct (Z.eqb_spec (ph_data_version m) NETWORK_DATA_PROTOCOL_VERSION) as [->|];
    [|split; [done|by intros [(_ & ? & _) _]]]. cbn [negb orb].
  set (out := output ++ _). split.
  - destruct (append_bytes out (ph_binding m) _) as [o|] eqn:Ho; [|done]. cbn. intros Hr.
    apply append_bytes_spec in Ho as [? ->]. apply append_bytes_spec in Hr as [? ->].
    subst out. split; [done|]. by rewrite <- !app_assoc.
  - intros [(_ & _ & Hb & Hp) ->]. rewrite (proj2 (append_bytes_spec out (ph_binding m) _ _) (conj Hb eq_refl)). cbn.
    apply append_bytes_spec. split; [done|]. subst out. by rewrite <- !app_assoc.
Qed.

Lemma field_inj v w r s : len v <= u16_max -> len w <= u16_max -> field v ++ r = field w ++ s -> v = w /\ r = s.
Proof.
  intros Hv Hw H. unfold field in H. rewrite <- !app_assoc in H.
  apply app_inj_1 in H as [Hl H]; [|by rewrite !length_be_bytes].
  apply app_inj_1 in H; [done|]. unfold u16_max in *. pose proof (len_nonneg v). pose proof (len_nonneg w).
  apply be_bytes_inj in Hl; unfold len in *; cbn; lia.
Qed.

Lemma e2ee_code_inj p q : be_bytes 1 (e2ee_code p) = be_bytes 1 (e2ee_code q) -> p = q.
Proof. by destruct p, q. Qed.

Lemma path_code_inj p q : be_bytes 1 (path_code p) = be_bytes 1 (path_code q) -> p = q.
Proof. by destruct p, q. Qed.

Lemma metadata_body_inj m n r s :
  metadata_ok m -> metadata_ok n -> metadata_body m ++ r = metadata_body n ++ s -> m = n /\ r = s.
Proof.
  intros (Hv & Hd & Hb & Hp) (Hv' & Hd' & Hb' & Hp') H. unfold metadata_body in H. rewrite <- !app_assoc in H.
  do 2 (apply app_inj_1 in H as [_ H]; [|done]).
  apply app_inj_1 in H as [Hpol H]; [|done]. apply app_inj_1 in H as [Hkind H]; [|done].
  apply field_inj in H as [Hbind H]; [|apply Hb|apply Hb']. apply field_inj in H as [Hprof H]; [|apply Hp|apply Hp'].
  apply e2ee_code_inj in Hpol. apply path_code_inj in Hkind. split; [|done].
  destruct m, n; cbn in *; congruence.
Qed.

(** ** The transcript *)

Definition transcript_of (m : PathHandshakeMetadata) (i : string) (ik : bytes) (r : string) (rk : bytes)
    (p : E2eePolicy) : bytes :=
  TRANSCRIPT_DOMAIN ++ metadata_body m ++ be_bytes 1 (e2ee_code p) ++
  field (str_bytes i) ++ ik ++ field (str_bytes r) ++ rk.

Lemma transcript_spec m i ik r rk p t :
  transcript_bytes m i ik r rk p = Ok t ->
  metadata_ok m /\ field_ok MAX_PEER_ID_BYTES (str_bytes i) /\ field_ok MAX_PEER_ID_BYTES (str_bytes r) /\
  negotiate_security (ph_kind m) p (ph_policy m) = Ok (match p with Required => SecurityE2ee | Disabled => SecurityIdentityOnly end) /\
  t = transcript_of m i ik r rk p.
Proof.
  unfold transcript_bytes, transcript_of, negotiate_security.
  destruct (validate_peer_id i), (validate_peer_id r), (validate_identity_key ik), (validate_identity_key rk); cbv beta iota; try done.
  rewrite (orb_comm (relay_without_e2ee _ p)). destruct (relay_without_e2ee _ _ || _); [done|].
  destruct (bool_decide_reflect (ph_policy m = p)) as [Heq|]; [|done]. cbn [negb].
  rewrite (bool_decide_true (p = ph_policy m)) by done. cbn [negb].
  destruct (metadata_encode m TRANSCRIPT_DOMAIN) as [o|] eqn:Ho; [|done]. apply metadata_encode_spec in Ho as [Hm ->]. cbv beta iota zeta.
  destruct (append_bytes _ (str_bytes i) _) as [o1|] eqn:H1; [|done]. apply append_bytes_spec in H1 as [Hi ->]. cbv beta iota zeta.
  destruct (append_bytes _ (str_bytes r) _) as [o2|] eqn:H2; [|done]. apply append_bytes_spec in H2 as [Hr ->]. cbv beta iota zeta.
  intros Ht%Ok_inj. subst t. split_and!; try done. by rewrite <- !app_assoc.
Qed.

(** C37. A transcript binds everything the two ends have to agree on: two
    transcripts are the same bytes only if they are of the same metadata, the
    same two identities with their keys in the same roles, and the same policy.
    And there is a transcript only for a combination that negotiates: the
    policies agree, and a Relay path is end-to-end encrypted. *)
Theorem handshake_transcript_binds m i ik r rk p m' i' ik' r' rk' p' t :
  len ik = IDENTITY_KEY_BYTES -> len ik' = IDENTITY_KEY_BYTES ->
  transcript_bytes m i ik r rk p = Ok t -> transcript_bytes m' i' ik' r' rk' p' = Ok t ->
  (m = m' /\ i = i' /\ ik = ik' /\ r = r' /\ rk = rk' /\ p = p') /\
  p = ph_policy m /\ is_ok (security_for m p) = true /\
  (ph_kind m = PathRelay -> security_for m p = Ok SecurityE2ee).
Proof.
  intros Hk Hk' H H'. apply transcript_spec in H as (Hm & Hi & Hr & Hneg & Ht).
  apply transcript_spec in H' as (Hm' & Hi' & Hr' & _ & Ht'). rewrite Ht in Ht'. unfold transcript_of in Ht'.
  apply app_inj_1 in Ht' as [_ Heq]; [|done].
  apply metadata_body_inj in Heq as [Hmm Heq]; [|done..].
  apply app_inj_1 in Heq as [Hpp Heq]; [|done]. apply e2ee_code_inj in Hpp.
  apply field_inj in Heq as [Hii Heq]; [|apply Hi|apply Hi'].
  apply app_inj_1 in Heq as [Hkk Heq]; [|unfold len in *; lia].
  apply field_inj in Heq as [Hrr Hrk]; [|apply Hr|apply Hr'].
  apply str_bytes_inj in Hii. apply str_bytes_inj in Hrr. split; [by split_and!|]. unfold security_for. rewrite Hneg.
  unfold negotiate_security in Hneg. destruct (ph_kind m), p, (ph_policy m); try done; by split_and!.
Qed.

(** Witness for C37. *)
Lemma handshake_transcript_binds_witness :
  let ik := be_bytes 32 1 in
  let rk := be_bytes 32 2 in
  let m := mkMetadata 2 2 Required PathRelay (str_bytes "binding") (str_bytes "profile") in
  (m = m /\ "alice"%string = "alice"%string /\ ik = ik /\ "bob"%string = "bob"%string /\ rk = rk /\
   Required = Required) /\
  Required = ph_policy m /\ is_ok (security_for m Required) = true /\
  (ph_kind m = PathRelay -> security_for m Required = Ok SecurityE2ee).
Proof.
  intros ik rk m.
  apply (handshake_transcript_binds m "alice" ik "bob" rk Required m "alice" ik "bob" rk Required
    (transcript_of m "alice" ik "bob" rk Required)); by vm_compute.
Defined.

(** ** Reading metadata back *)

Lemma cursor_take_at packet pre l rest n :
  packet = pre ++ l ++ rest -> n = len l -> len packet <= u64_max ->
  cursor_take n (mkCursor packet (len pre)) = (Ok l, mkCursor packet (len (pre ++ l))).
Proof.
  intros -> -> Hmax. rewrite !len_app in Hmax. pose proof (len_nonneg rest).
  unfold cursor_take, checked_add. cbn [cu_offset cu_bytes].
  rewrite (proj2 (Z.leb_le _ _)) by lia. rewrite (proj2 (Z.ltb_ge _ _)) by (rewrite !len_app; lia).
  rewrite slice_app_mid by (done || lia). by rewrite len_app.
Qed.

Lemma take_int_at packet pre n z rest :
  packet = pre ++ be_bytes n z ++ rest -> 0 <= z < 256 ^ Z.of_nat n -> len packet <= u64_max ->
  (b ← cursor_take (Z.of_nat n); mret (of_be b) : SE Cursor PathHandshakeError Z) (mkCursor packet (len pre)) =
  (Ok z, mkCursor packet (len (pre ++ be_bytes n z))).
Proof.
  intros Hp Hz Hmax. unfold mbind, SE_bind. rewrite (cursor_take_at packet pre (be_bytes n z) rest);
    [|done|by rewrite len_be_bytes|done]. unfold mret, SE_ret. by rewrite of_be_be_bytes.
Qed.

Lemma take_bytes_at packet pre v rest max :
  packet = pre ++ field v ++ rest -> field_ok max v -> len packet <= u64_max ->
  take_bytes max (mkCursor packet (len pre)) = (Ok v, mkCursor packet (len (pre ++ field v))).
Proof.
  intros Hp (Hne & Hmax & H16) Hlen. unfold take_bytes, field in *. unfold mbind, SE_bind.
  rewrite <- app_assoc in Hp. rewrite (cursor_take_at packet pre _ _ 2 Hp); [|by rewrite len_be_bytes|done].
  pose proof (len_nonneg v). rewrite of_be_be_bytes by (unfold u16_max in *; cbn; lia).
  rewrite (proj2 (Z.eqb_neq (len v) 0)) by (intros H0; by apply Hne, len_zero_nil).
  rewrite (proj2 (Z.ltb_ge max _)) by done. cbn [orb]. rewrite app_assoc in Hp.
  rewrite (cursor_take_at packet _ _ _ _ Hp eq_refl Hlen). by rewrite <- app_assoc.
Qed.

Lemma metadata_decode_at packet pre m rest :
  packet = pre ++ metadata_body m ++ rest -> metadata_ok m ->
  relay_without_e2ee (ph_kind m) (ph_policy m) = false -> len packet <= u64_max ->
  metadata_decode (mkCursor packet (len pre)) = (Ok m, mkCursor packet (len (pre ++ metadata_body m))).
Proof.
  intros Hpk (Hv & Hd & Hb & Hp) Hrel Hmax. destruct m as [v dv pol kind binding profile].
  unfold metadata_body in *.
  cbn [ph_version ph_data_version ph_policy ph_kind ph_binding ph_profile] in *. subst v dv.
  rewrite <- !app_assoc in Hpk. unfold metadata_decode, mbind at 1, SE_bind at 1.
  pose proof (take_int_at packet pre 4 PATH_HANDSHAKE_VERSION _ Hpk ltac:(done) Hmax) as H1.
  rewrite app_assoc in Hpk. pose proof (take_int_at packet _ 4 NETWORK_DATA_PROTOCOL_VERSION _ Hpk ltac:(done) Hmax) as H2.
  rewrite app_assoc in Hpk.
  pose proof (take_int_at packet _ 1 (e2ee_code pol) _ Hpk ltac:(by destruct pol) Hmax) as H3.
  rewrite app_assoc in Hpk.
  pose proof (take_int_at packet _ 1 (path_code kind) _ Hpk ltac:(by destruct kind) Hmax) as H4.
  rewrite app_assoc in Hpk. pose proof (take_bytes_at packet _ binding _ _ Hpk Hb Hmax) as H5.
  rewrite app_assoc in Hpk. pose proof (take_bytes_at packet _ profile _ _ Hpk Hp Hmax) as H6.
  assert (Hpol : e2ee_from_code (e2ee_code pol) = Ok pol) by (by destruct pol).
  assert (Hkind : path_from_code (path_code kind) = Ok kind) by (by destruct kind).
  change (Z.of_nat 4) with 4 in *. change (Z.of_nat 1) with 1 in *. fold take_u32 in H1, H2. fold take_byte in H3, H4.
  unfold mbind, SE_bind. rewrite H1. cbn [se_lift check_version Z.ltb Z.eqb]. unfold se_lift.
  change (check_version PATH_HANDSHAKE_VERSION PATH_HANDSHAKE_VERSION) with (@Ok unit PathHandshakeError tt). cbv beta iota.
  rewrite H2. change (check_version NETWORK_DATA_PROTOCOL_VERSION NETWORK_DATA_PROTOCOL_VERSION)
    with (@Ok unit PathHandshakeError tt). cbv beta iota.
  rewrite H3, Hpol, H4, Hkind, H5, H6, Hrel. unfold mret, SE_ret. by rewrite <- !app_assoc.
Qed.

(** Metadata that was encoded, and that the negotiation allows, is read back, and
    the cursor stops behind it; whatever is read has the present versions and
    keeps Relay paths encrypted. *)
Lemma handshake_metadata_codec pre m rest :
  metadata_ok m -> relay_without_e2ee (ph_kind m) (ph_policy m) = false ->
  len (pre ++ metadata_body m ++ rest) <= u64_max ->
  metadata_decode (mkCursor (pre ++ metadata_body m ++ rest) (len pre)) =
    (Ok m, mkCursor (pre ++ metadata_body m ++ rest) (len (pre ++ metadata_body m))) /\
  forall c n c', metadata_decode c = (Ok n, c') ->
    ph_version n = PATH_HANDSHAKE_VERSION /\ ph_data_version n = NETWORK_DATA_PROTOCOL_VERSION /\
    relay_without_e2ee (ph_kind n) (ph_policy n) = false.
Proof.
  intros Hm Hrel Hmax. split; [by eapply metadata_decode_at|].
  intros c n c'. unfold metadata_decode, mbind, SE_bind, se_lift, mret, SE_ret, se_fail, check_version.
  repeat (case_match; try done); intros [= <- <-]; simplify_eq; bool_facts; by split_and!.
Qed.
