(* ===== verification/Channel.v ===== *)
(** * The channel layer: data messages between Delivery and the transport

    Models [network-core/src/channel/policy.rs], [inbound.rs] and [send.rs]
    with the crypto accessors of [runtime/admission.rs]: encoding, encryption
    and validation of data messages, their admission into the Delivery store
    and the events and acknowledgements that follow, one send attempt with all
    its outcomes and the replay of a recovery batch.  Protocol Buffers, the
    route table and the transport are parameters. *)
From S2P Require Import Prelude Profile PathHandshake GenericFrame Crypto CryptoSession Delivery DeliverySend.
From S2P Require Import DeliveryRecv.

(** ** Policies ([policy.rs]) *)

Definition MAX_DELIVERY_MESSAGE_PAYLOAD_BYTES : Z := MAX_CHANNEL_FRAME_BYTES - 1024.

Inductive ApplicationPayloadMode := Encrypted | Plaintext.
Inductive ApplicationPolicyError := SecurityPolicyMismatch | RelayRequiresE2ee.

Definition application_payload_mode (policy : E2eePolicy) (topology : RouteTopology)
    (has_crypto_context : bool) : result ApplicationPayloadMode ApplicationPolicyError :=
  match topology, policy with
  | Relay, Disabled => Err RelayRequiresE2ee
  | _, Required => if has_crypto_context then Ok Encrypted else Err SecurityPolicyMismatch
  | _, Disabled => if has_crypto_context then Err SecurityPolicyMismatch else Ok Plaintext
  end.

Definition policy_error_text (e : ApplicationPolicyError) : string :=
  match e with
  | SecurityPolicyMismatch => "security policy mismatch"
  | RelayRequiresE2ee => "Relay paths require E2EE"
  end.

Definition policy_code (policy : DeliveryPolicy) : Z :=
  match policy with
  | BestEffort => 0
  | LatestState => 1
  | Acked => 2
  | AckedDeduplicated => 3
  | SessionBoundOrdered => 4
  | ResumableTransfer => 5
  end.

Definition decode_policy (value : Z) : option DeliveryPolicy :=
  match value with
  | 0 => Some BestEffort
  | 1 => Some LatestState
  | 2 => Some Acked
  | 3 => Some AckedDeduplicated
  | 4 => Some SessionBoundOrdered
  | 5 => Some ResumableTransfer
  | _ => None
  end.

(** ** Wire messages *)

Record DataMessage := mkData {
  d_session_id : string;
  d_channel_id : string;
  d_message_id : bytes;
  d_sequence : Z;
  d_recovery_epoch : Z;
  d_policy : Z;
  d_payload : bytes;
}.

Record DeliveryAck := mkAck { a_session_id : string; a_message_id : bytes; a_recovery_epoch : Z }.

(** [prost]'s [encode_to_vec] and [decode]. *)
Class WireCodec := {
  encode_data : DataMessage -> bytes;
  decode_data : bytes -> option DataMessage;
  encode_ack : DeliveryAck -> bytes;
  decode_ack : bytes -> option DeliveryAck;
}.

(** The field ranges of the Rust types. *)
Definition data_wf (m : DataMessage) : Prop :=
  0 <= d_sequence m <= u64_max /\ 0 <= d_recovery_epoch m <= u64_max /\
  - 2 ^ 31 <= d_policy m < 2 ^ 31.
Definition ack_wf (a : DeliveryAck) : Prop := 0 <= a_recovery_epoch a <= u64_max.

(** Documented behaviour: decoding inverts encoding. *)
Class WireCodecLaws (W : WireCodec) : Prop := {
  decode_encode_data : forall m, data_wf m -> decode_data (encode_data m) = Some m;
  decode_encode_ack : forall a, ack_wf a -> decode_ack (encode_ack a) = Some a;
}.

(** ** Errors *)

Inductive ErrorKind := InvalidData | InvalidInput | PermissionDenied | WouldBlock | NotConnected.

(** [Box<dyn Error>]: an [io::Error] with its kind, or a boxed error. *)
Inductive BoxError :=
| IoError (kind : ErrorKind) (message : string)
| CryptoFailure (e : CryptoError)
| DeliveryFailure (e : DeliveryError)
| DecodeFailure
| TransportFailure.

Inductive NetworkErrorCode :=
| InvalidArgument | NoRoute | IoErrorCode | Cancelled | Lifecycle
| SecurityPolicyMismatchCode | RelayRequiresE2eeCode.

Record ProtocolError := mkProtocolError { pe_code : NetworkErrorCode; pe_peer : option string }.

Definition delivery_error (peer_id : string) (error : DeliveryError) : ProtocolError :=
  mkProtocolError
    match error with
    | QueueFull | PayloadTooLarge => InvalidArgument
    | InvalidScope | InvalidRetryPolicy => InvalidArgument
    | NotFound | Expired | RetryExhausted => IoErrorCode
    end (Some peer_id).

(** ** State *)

Inductive ChannelEvent :=
| ChannelMessage (m : OrderedMessage)
| DeliveryAcked (peer_id : string) (ack : DeliveryAck).

(** The parts of [RuntimeState] the channel layer works on: the Delivery
    store, the session crypto, the events sent to the application, the frames
    that left on a transport, and the registry of retry workers. *)
Record ChannelState := mkChannel {
  ch_store : DeliveryStore;
  ch_crypto : SessionCryptoManager;
  ch_events : list ChannelEvent;
  ch_acks : list (string * DeliveryAck);
  ch_frames : list (string * bytes);
  ch_workers : gset string;
}.

Definition with_store (s : DeliveryStore) (st : ChannelState) : ChannelState :=
  mkChannel s (ch_crypto st) (ch_events st) (ch_acks st) (ch_frames st) (ch_workers st).
Definition with_crypto (c : SessionCryptoManager) (st : ChannelState) : ChannelState :=
  mkChannel (ch_store st) c (ch_events st) (ch_acks st) (ch_frames st) (ch_workers st).
Definition emit (e : ChannelEvent) (st : ChannelState) : ChannelState :=
  mkChannel (ch_store st) (ch_crypto st) (ch_events st ++ [e]) (ch_acks st) (ch_frames st) (ch_workers st).
Definition put_ack (peer_id : string) (ack : DeliveryAck) (st : ChannelState) : ChannelState :=
  mkChannel (ch_store st) (ch_crypto st) (ch_events st) (ch_acks st ++ [(peer_id, ack)])
    (ch_frames st) (ch_workers st).
Definition put_frame (peer_id : string) (frame : bytes) (st : ChannelState) : ChannelState :=
  mkChannel (ch_store st) (ch_crypto st) (ch_events st) (ch_acks st)
    (ch_frames st ++ [(peer_id, frame)]) (ch_workers st).

Definition with_workers (w : gset string) (st : ChannelState) : ChannelState :=
  mkChannel (ch_store st) (ch_crypto st) (ch_events st) (ch_acks st) (ch_frames st) w.

(** Run an operation of the store. *)
Definition on_store {A} (f : DeliveryStore -> A * DeliveryStore) (st : ChannelState) :
    A * ChannelState :=
  let '(a, s) := f (ch_store st) in (a, with_store s st).

Section Channel.
Context {P : CryptoPrims} {W : WireCodec} {O : DeliveryOrders}.
Context (config : DeliveryConfig).

(** ** Session crypto ([runtime/admission.rs]) *)

(** Run an operation of the context shared by the session's aliases. *)
Definition with_context (peer_id session_id : string)
    (f : SE CryptoContext CryptoError bytes) : SE SessionCryptoManager CryptoError bytes := fun m =>
  match manager_get peer_id session_id m with
  | Err e => (Err e, m)
  | Ok arc =>
    match arcs m !! arc with
    | None => (Err StateUnavailable, m)
    | Some ctx =>
      let '(r, ctx) := f ctx in
      (r, mkManager (contexts m) (<[arc := ctx]> (arcs m)) (poisoned m))
    end
  end.

Definition encrypt_application_payload (peer_id session_id : string) (aad plaintext : bytes) :
    SE SessionCryptoManager CryptoError bytes :=
  with_context peer_id session_id (encrypt aad plaintext).
Definition decrypt_application_payload (peer_id session_id : string) (aad envelope : bytes) :
    SE SessionCryptoManager CryptoError bytes :=
  with_context peer_id session_id (decrypt aad envelope).
Definition decrypt_application_payload_for_delivery (peer_id session_id : string)
    (aad envelope : bytes) : SE SessionCryptoManager CryptoError bytes :=
  with_context peer_id session_id (decrypt_for_delivery aad envelope).

(** ** Inbound ([inbound.rs]) *)

Definition validate_data_message (m : DataMessage) : result unit BoxError :=
  if str_is_empty (d_session_id m) || (128 <? slen (d_session_id m))
     || str_is_empty (d_channel_id m) || (128 <? slen (d_channel_id m))
     || negb (len (d_message_id m) =? 16)
     || (MAX_DELIVERY_MESSAGE_PAYLOAD_BYTES <? len (d_payload m))
     || match decode_policy (d_policy m) with Some _ => false | None => true end
  then Err (IoError InvalidData "invalid DataMessage envelope")
  else Ok tt.

(** [path_profile(peer)] when present, the configured end-to-end policy, and
    whether the transport carries an acknowledgement. *)
Record PeerRoute := mkRoute {
  route_policy : E2eePolicy;
  route_topology : option RouteTopology;
  route_ack : result unit BoxError;
}.

Definition send_delivery_ack (route : PeerRoute) (peer_id : string) (ack : DeliveryAck) :
    SE ChannelState BoxError unit := fun st =>
  if negb (len (a_message_id ack) =? 16) then (Err (IoError InvalidData "invalid ACK ID"), st) else
  match route_ack route with
  | Err e => (Err e, st)
  | Ok _ => (Ok tt, put_ack peer_id ack st)
  end.

Definition emit_ordered_message (m : OrderedMessage) (st : ChannelState) : ChannelState :=
  emit (ChannelMessage m) st.

Definition data_aad (m : DataMessage) : bytes :=
  data_message_aad (d_session_id m) (d_channel_id m) (d_message_id m) (d_sequence m)
    (d_recovery_epoch m) (d_policy m).

(** The decryption of [handle_data_message], by policy and mode. *)
Definition open_payload (route : PeerRoute) (peer_id : string) (policy : DeliveryPolicy)
    (m : DataMessage) : SE ChannelState BoxError bytes := fun st =>
  let has_crypto_context := is_ok (manager_get peer_id (d_session_id m) (ch_crypto st)) in
  match application_payload_mode (route_policy route) (default Direct (route_topology route))
          has_crypto_context with
  | Err e => (Err (IoError PermissionDenied (policy_error_text e)), st)
  | Ok Encrypted =>
    if negb (is_application_envelope (d_payload m))
    then (Err (IoError PermissionDenied "required application E2EE payload is missing"), st) else
    let '(r, crypto) :=
      (if bool_decide (policy = BestEffort)
       then decrypt_application_payload peer_id (d_session_id m) (data_aad m) (d_payload m)
       else decrypt_application_payload_for_delivery peer_id (d_session_id m) (data_aad m)
              (d_payload m)) (ch_crypto st) in
    (map_err CryptoFailure r, with_crypto crypto st)
  | Ok Plaintext =>
    if is_application_envelope (d_payload m)
    then (Err (IoError PermissionDenied "disabled application E2EE policy received ciphertext"), st)
    else (Ok (d_payload m), st)
  end.

(** The admission of a reliable message: what to do after the Delivery store
    decided.  [now] and [now'] are the clock at the two calls. *)
Inductive Admission :=
| Deliver
| Silent
| ReAcknowledge
| Refuse (e : BoxError).

Definition admission (incoming : OrderedMessage) (recovery_epoch now now' : Z) :
    DeliveryStore -> Admission * DeliveryStore := fun store =>
  let peer_id := om_peer_id incoming in
  let channel_id := om_channel_id incoming in
  let message_id := om_message_id incoming in
  match begin_incoming_checked config peer_id channel_id message_id recovery_epoch now store with
  | (Err e, store) => (Refuse (DeliveryFailure e), store)
  | (Ok DuplicateInFlight, store) => (Silent, store)
  | (Ok DuplicateProcessed, store) => (ReAcknowledge, store)
  | (Ok CapacityExceeded, store) =>
    (Refuse (IoError WouldBlock "active delivery handler capacity exceeded"), store)
  | (Ok ChannelFailed, store) =>
    (Refuse (IoError InvalidData "ordered delivery channel failed after application ACK timeout"),
     store)
  | (Ok New, store) =>
    if bool_decide (om_policy incoming = SessionBoundOrdered) then
      match accept_ordered_at config incoming now' store with
      | (Ready, store) => (Deliver, store)
      | (Buffered, store) => (Silent, store)
      | (Duplicate, store) => (Silent, (reject_incoming peer_id channel_id message_id store).2)
      | (Rejected, store) =>
        (Refuse (IoError InvalidData "ordered message exceeds reorder limits"),
         (reject_incoming peer_id channel_id message_id store).2)
      end
    else (Deliver, store)
  end.

(** [handle_data_message] after the payload is open. *)
Definition receive_message (route : PeerRoute) (incoming : OrderedMessage)
    (recovery_epoch now now' : Z) : SE ChannelState BoxError unit := fun st =>
  if policy_code (om_policy incoming) =? policy_code BestEffort
  then (Ok tt, emit_ordered_message incoming st) else
  match on_store (admission incoming recovery_epoch now now') st with
  | (Deliver, st) => (Ok tt, emit_ordered_message incoming st)
  | (Silent, st) => (Ok tt, st)
  | (Refuse e, st) => (Err e, st)
  | (ReAcknowledge, st) =>
    match incoming_recovery_epoch (om_peer_id incoming) (om_channel_id incoming)
            (om_message_id incoming) (ch_store st) with
    | None => (Err (IoError InvalidData "processed message lost its dedup record"), st)
    | Some recovery_epoch =>
      send_delivery_ack route (om_peer_id incoming)
        (mkAck (om_session_id incoming) (to_bytes (om_message_id incoming)) recovery_epoch) st
    end
  end.

Definition handle_data_message (route : PeerRoute) (peer_id : string) (encoded : bytes)
    (now now' : Z) : SE ChannelState BoxError unit := fun st =>
  match decode_data encoded with
  | None => (Err DecodeFailure, st)
  | Some message =>
  match validate_data_message message with
  | Err e => (Err e, st)
  | Ok _ =>
  match decode_policy (d_policy message) with
  | None => (Err (IoError InvalidData "invalid Delivery policy"), st)
  | Some policy =>
  match open_payload route peer_id policy message st with
  | (Err e, st) => (Err e, st)
  | (Ok payload, st) =>
    let incoming := {|
      om_peer_id := peer_id;
      om_session_id := d_session_id message;
      om_channel_id := d_channel_id message;
      om_message_id := from_bytes (d_message_id message);
      om_sequence := d_sequence message;
      om_policy := policy;
      om_payload := payload;
    |} in
    receive_message route incoming (d_recovery_epoch message) now now' st
  end end end end.

(** The acknowledgement command of the application. *)
Record AcknowledgeMessageCommand := mkAcknowledge {
  ack_peer_id : string;
  ack_session_id : string;
  ack_channel_id : string;
  ack_message_id : bytes;
}.

Definition acknowledge_message (route : PeerRoute) (command : AcknowledgeMessageCommand) (now : Z) :
    SE ChannelState ProtocolError unit := fun st =>
  if negb (len (ack_message_id command) =? 16)
  then (Err (mkProtocolError InvalidArgument None), st) else
  if str_is_empty (ack_peer_id command) || str_is_empty (ack_session_id command)
     || str_is_empty (ack_channel_id command)
  then (Err (mkProtocolError InvalidArgument None), st) else
  match on_store (complete_incoming_checked config (ack_peer_id command) (ack_channel_id command)
                    (from_bytes (ack_message_id command)) now) st with
  | (Err e, st) => (Err (delivery_error (ack_peer_id command) e), st)
  | (Ok None, st) => (Err (mkProtocolError InvalidArgument (Some (ack_peer_id command))), st)
  | (Ok (Some completion), st) =>
    let ack := mkAck (ack_session_id command) (ack_message_id command)
                 (ic_recovery_epoch completion) in
    let st := match ic_next_ordered completion with
              | Some next => emit_ordered_message next st
              | None => st
              end in
    let '(r, st) := send_delivery_ack route (ack_peer_id command) ack st in
    (map_err (fun _ => mkProtocolError NoRoute (Some (ack_peer_id command))) r, st)
  end.

Definition handle_delivery_ack (peer_id : string) (encoded : bytes) :
    SE ChannelState BoxError unit := fun st =>
  match decode_ack encoded with
  | None => (Err DecodeFailure, st)
  | Some ack =>
    if str_is_empty (a_session_id ack)
    then (Err (IoError InvalidData "DeliveryAck session_id is required"), st) else
    if negb (len (a_message_id ack) =? 16) then (Err (IoError InvalidData "invalid ACK ID"), st) else
    match on_store (acknowledge peer_id (from_bytes (a_message_id ack))) st with
    | (AckAcknowledged, st) => (Ok tt, emit (DeliveryAcked peer_id ack) st)
    | (AckUnknown, st) => (Ok tt, st)
    end
  end.

(** ** Outbound ([send.rs]) *)

(** A business path lease as the sender sees it: who it belongs to, what it
    supports, whether it is active before and after the write, and whether
    the write succeeds. *)
Record PathLease := mkLease {
  lease_peer : string;
  lease_topology : RouteTopology;
  lease_reliable_message : bool;
  lease_active_before : bool;
  lease_active_after : bool;
  lease_write : bool;
}.

(** [send_business_frame] for a data message. *)
Definition send_business_frame (peer_id : string) (lease : PathLease) (payload : bytes) :
    SE ChannelState BoxError unit := fun st =>
  if negb (bool_decide (lease_peer lease = peer_id)) || negb (lease_reliable_message lease)
     || negb (lease_active_before lease)
  then (Err (IoError NotConnected "business path lease is no longer active"), st) else
  if negb (lease_write lease) then (Err TransportFailure, st) else
  let st := put_frame peer_id payload st in
  if negb (lease_active_after lease)
  then (Err (IoError NotConnected "business path was lost during send"), st) else (Ok tt, st).

(** [current] and [current'] are the session of the peer at the two checks. *)
Definition send_data_message (policy : E2eePolicy) (current current' : option string)
    (peer_id session_id : string) (lease : PathLease) (message : PendingMessage) :
    SE ChannelState BoxError unit := fun st =>
  if negb (bool_decide (current = Some session_id))
  then (Err (IoError NotConnected "connection session changed before delivery send"), st) else
  let data payload := {|
    d_session_id := session_id;
    d_channel_id := pm_channel_id message;
    d_message_id := to_bytes (pm_message_id message);
    d_sequence := pm_sequence message;
    d_recovery_epoch := pm_recovery_epoch message;
    d_policy := policy_code (pm_policy message);
    d_payload := payload;
  |} in
  let aad := data_aad (data []) in
  let has_crypto_context := is_ok (manager_get peer_id session_id (ch_crypto st)) in
  match application_payload_mode policy (lease_topology lease) has_crypto_context with
  | Err e => (Err (IoError PermissionDenied (policy_error_text e)), st)
  | Ok mode =>
    let '(r, st) :=
      match mode with
      | Encrypted =>
        let '(r, crypto) :=
          encrypt_application_payload peer_id session_id aad (pm_payload message) (ch_crypto st) in
        (map_err CryptoFailure r, with_crypto crypto st)
      | Plaintext => (Ok (pm_payload message), st)
      end in
    match r with
    | Err e => (Err e, st)
    | Ok payload =>
      let encoded := encode_data (data payload) in
      if MAX_CHANNEL_FRAME_BYTES <? len encoded
      then (Err (IoError InvalidInput "encoded channel message exceeds frame limit"), st) else
      if negb (bool_decide (current' = Some session_id))
      then (Err (IoError NotConnected "connection session changed during delivery encoding"), st)
      else send_business_frame peer_id lease encoded st
    end
  end.

(** What the surroundings answer during one send attempt: the session of the
    path that was ensured, the lease, the session at the two checks, and the
    clock when the attempt begins and when it is reported. *)
Record AttemptEnv := mkEnv {
  env_policy : E2eePolicy;
  env_session : option string;
  env_lease : option PathLease;
  env_current : option string;
  env_current' : option string;
  env_begin : Z;
  env_end : Z;
}.

Definition deliver_pending_message (env : AttemptEnv) (peer_id : string) (message : PendingMessage)
    (st : ChannelState) : ChannelState :=
  let send session_id lease message :=
    send_data_message (env_policy env) (env_current env) (env_current' env) peer_id session_id
      lease message in
  if bool_decide (pm_policy message = BestEffort) then
    match env_session env, env_lease env with
    | Some session_id, Some lease => (send session_id lease message st).2
    | _, _ => st
    end
  else
  match on_store (begin_send_for_peer peer_id (pm_message_id message) (env_begin env)) st with
  | (Ok (Some sendable), st) =>
    let failed st := (on_store (mark_send_failed_for_attempt sendable (env_end env)) st).2 in
    match env_session env with
    | None => failed st
    | Some session_id =>
    match env_lease env with
    | None => failed st
    | Some lease =>
      match send session_id lease (at_message sendable) st with
      | (Ok _, st) => (on_store (mark_sent_for_attempt sendable (env_end env)) st).2
      | (Err _, st) => failed st
      end
    end end
  | (_, st) => st
  end.

(** The messages of a batch in turn; attempt [i] gets the answers [envs i]. *)
Fixpoint deliver_all (peer_id : string) (envs : nat -> AttemptEnv) (messages : list PendingMessage)
    (st : ChannelState) : ChannelState :=
  match messages with
  | [] => st
  | message :: rest =>
    deliver_all peer_id (fun i => envs (S i)) rest
      (deliver_pending_message (envs 0%nat) peer_id message st)
  end.

(** [ensure_retry_worker]: at most one worker per peer; [spawned] says whether
    the task supervisor accepts the task. *)
Definition ensure_retry_worker (peer_id : string) (spawned : bool) (st : ChannelState) :
    ChannelState :=
  let '(started, m) :=
    try_start_retry_worker peer_id (mkDeliveryManager config (ch_store st) (ch_workers st)) in
  let st := with_workers (dm_retry_workers m) st in
  if negb started then st else
  if spawned then st else
  with_workers (dm_retry_workers (stop_retry_worker peer_id
    (mkDeliveryManager config (ch_store st) (ch_workers st)))) st.

(** One round of the worker's loop: nothing without a session; otherwise
    release what timed out and send what is due. *)
Definition retry_worker_round (peer_id : string) (current : option string) (now now' : Z)
    (envs : nat -> AttemptEnv) (st : ChannelState) : ChannelState :=
  match current with
  | None => st
  | Some _ =>
    let '(_, st) := on_store (expire_incoming peer_id now) st in
    match on_store (retryable_messages_checked peer_id now') st with
    | (Ok retryable, st) =>
      deliver_all peer_id envs retryable st
    | (Err _, st) => st
    end
  end.

Record SendMessageCommand := mkSend {
  cmd_peer_id : string;
  cmd_channel_id : string;
  cmd_payload : bytes;
  cmd_policy : Z;
}.

Definition ensure_error_code (e : CoreNetworkError) : NetworkErrorCode :=
  match e with
  | NoRouteError => NoRoute
  | CancelledError | SupervisorStopping => Cancelled
  | _ => Lifecycle
  end.

Definition validate_business_application_policy (profile : option RouteTopology)
    (policy : E2eePolicy) (peer_id session_id : string) (st : ChannelState) :
    result unit ProtocolError :=
  match profile with
  | None => Err (mkProtocolError NoRoute (Some peer_id))
  | Some topology =>
    match application_payload_mode policy topology
            (is_ok (manager_get peer_id session_id (ch_crypto st))) with
    | Ok _ => Ok tt
    | Err SecurityPolicyMismatch =>
      Err (mkProtocolError SecurityPolicyMismatchCode (Some peer_id))
    | Err RelayRequiresE2ee => Err (mkProtocolError RelayRequiresE2eeCode (Some peer_id))
    end
  end.

(** [start_send_message]: the message that the spawned task will deliver.
    [session] is the answer of [ensure_business_path], [draws] the random
    identifiers of [enqueue] (too few of them: no answer), [worker] and [task]
    whether the supervisor accepts the two tasks. *)
Definition start_send_message (session : result string CoreNetworkError)
    (profile : option RouteTopology) (policy : E2eePolicy) (draws : list MessageId) (now : Z)
    (worker task : bool) (command : SendMessageCommand) (st : ChannelState) :
    option (result PendingMessage ProtocolError * ChannelState) :=
  let peer_id := cmd_peer_id command in
  if str_is_empty peer_id || str_is_empty (cmd_channel_id command)
  then Some (Err (mkProtocolError InvalidArgument None), st) else
  if MAX_DELIVERY_MESSAGE_PAYLOAD_BYTES <? len (cmd_payload command)
  then Some (Err (mkProtocolError InvalidArgument (Some peer_id)), st) else
  match decode_policy (cmd_policy command) with
  | None => Some (Err (mkProtocolError InvalidArgument (Some peer_id)), st)
  | Some delivery_policy =>
  match session with
  | Err e => Some (Err (mkProtocolError (ensure_error_code e) (Some peer_id)), st)
  | Ok session_id =>
  match validate_business_application_policy profile policy peer_id session_id st with
  | Err e => Some (Err e, st)
  | Ok _ =>
  match enqueue_at_inner config draws peer_id (cmd_channel_id command) (cmd_payload command)
          delivery_policy retry_policy_default now (ch_store st) with
  | None => None
  | Some (Err e, s) => Some (Err (delivery_error peer_id e), with_store s st)
  | Some (Ok message, s) =>
    let st := ensure_retry_worker peer_id worker (with_store s st) in
    if task then Some (Ok message, st)
    else Some (Err (mkProtocolError Cancelled (Some peer_id)), st)
  end end end end.

Definition replay_snapshot (peer_id : string) (envs : nat -> AttemptEnv)
    (snapshot : RecoverySnapshot) : ChannelState -> ChannelState :=
  deliver_all peer_id envs (rs_messages snapshot).

Definition recover_session (peer_id : string) (now : Z) (worker : bool) (envs : nat -> AttemptEnv)
    (st : ChannelState) : ChannelState :=
  match on_store (recover_peer_checked peer_id now) st with
  | (Err _, st) => st
  | (Ok snapshot, st) =>
    replay_snapshot peer_id envs snapshot (ensure_retry_worker peer_id worker st)
  end.
End Channel.
