(* ===== verification/ChannelProofs.v ===== *)
(** * The channel layer: theorems

    Schedules of received frames, application acknowledgements, time-outs,
    abandonments and disconnects over the Delivery store (admission as in
    [handle_data_message]): the invariant, in-sequence delivery of ordered
    channels, delivery at most once; then the path of one message from
    [send_data_message] to [handle_data_message] and the fate of a send
    attempt. *)
From S2P Require Import Prelude Crypto CryptoProofs CryptoSession Delivery DeliverySend.
From S2P Require Import DeliveryRecv Channel.

(** One step of the receiving side.  A received frame carries a reliable
    policy and the clock at its two calls. *)
Inductive recv_op :=
| RReceive (m : OrderedMessage) (recovery_epoch now now' : Z)
| RComplete (peer_id channel_id : string) (message_id : MessageId) (now : Z)
| RAbandon (peer_id channel_id : string) (message_id : MessageId)
| RExpire (peer_id : string) (now : Z)
| RClose (peer_id : string).

Section Schedule.
Context {O : DeliveryOrders} (cfg : DeliveryConfig).

(** The messages handed to the application, and the next store. *)
Definition recv_step (op : recv_op) (s : DeliveryStore) : list OrderedMessage * DeliveryStore :=
  match op with
  | RReceive m epoch now now' =>
    match admission cfg m epoch now now' s with
    | (Deliver, s') => ([m], s')
    | (_, s') => ([], s')
    end
  | RComplete p c id now =>
    match complete_incoming_checked cfg p c id now s with
    | (Ok (Some completion), s') => (option_list (ic_next_ordered completion), s')
    | (_, s') => ([], s')
    end
  | RAbandon p c id => ([], (abandon_incoming p c id s).2)
  | RExpire p now => ([], (expire_incoming p now s).2)
  | RClose p => ([], close_peer p s)
  end.

Fixpoint recv_run (ops : list recv_op) (s : DeliveryStore) : list OrderedMessage * DeliveryStore :=
  match ops with
  | [] => ([], s)
  | op :: ops =>
    let '(out, s1) := recv_step op s in
    let '(outs, s2) := recv_run ops s1 in (out ++ outs, s2)
  end.

(** The store after a frame's admission, by decision. *)
Inductive admitted (m : OrderedMessage) (epoch now now' : Z) (s : DeliveryStore) :
    Admission -> DeliveryStore -> Prop :=
| AdmInvalid e : admitted m epoch now now' s (Refuse (DeliveryFailure e)) s
| AdmOld d a s1 :
    begin_incoming cfg (om_peer_id m) (om_channel_id m) (om_message_id m) epoch now s = (d, s1) ->
    d <> New -> a <> Deliver -> admitted m epoch now now' s a s1
| AdmNew s1 :
    begin_incoming cfg (om_peer_id m) (om_channel_id m) (om_message_id m) epoch now s = (New, s1) ->
    om_policy m <> SessionBoundOrdered -> admitted m epoch now now' s Deliver s1
| AdmReady s1 s2 :
    begin_incoming cfg (om_peer_id m) (om_channel_id m) (om_message_id m) epoch now s = (New, s1) ->
    om_policy m = SessionBoundOrdered -> accept_ordered_at cfg m now' s1 = (Ready, s2) ->
    admitted m epoch now now' s Deliver s2
| AdmBuffered s1 s2 :
    begin_incoming cfg (om_peer_id m) (om_channel_id m) (om_message_id m) epoch now s = (New, s1) ->
    om_policy m = SessionBoundOrdered -> accept_ordered_at cfg m now' s1 = (Buffered, s2) ->
    admitted m epoch now now' s Silent s2
| AdmRejected r a s1 s2 :
    begin_incoming cfg (om_peer_id m) (om_channel_id m) (om_message_id m) epoch now s = (New, s1) ->
    om_policy m = SessionBoundOrdered -> accept_ordered_at cfg m now' s1 = (r, s2) ->
    r = Duplicate \/ r = Rejected -> a <> Deliver ->
    admitted m epoch now now' s a (release (DeliveryRecv.key_of m) s2).

Lemma admission_cases m epoch now now' s :
  admitted m epoch now now' s (admission cfg m epoch now now' s).1 (admission cfg m epoch now now' s).2.
Proof.
  unfold admission, begin_incoming_checked. destruct (_ || _); [cbn; constructor|].
  destruct (begin_incoming _ _ _ _ _ _ _) as [[] s1] eqn:E; try (cbn; by eapply AdmOld).
  case_bool_decide as Hpol; [|cbn; by eapply AdmNew].
  destruct (accept_ordered_at cfg m now' s1) as [[] s2] eqn:Ea; cbn.
  - by eapply AdmReady.
  - by eapply AdmBuffered.
  - eapply (AdmRejected _ _ _ _ _ Duplicate); eauto.
  - eapply (AdmRejected _ _ _ _ _ Rejected); eauto.
Qed.

Hypothesis Hbytes : max_reorder_bytes cfg < u64_max.
Hypothesis Hentries : 0 <= dedup_max_entries cfg.

(** A frame decided [New] finds its key unused and registers it. *)
Lemma begin_new p c id ep now s s1 :
  recv_inv cfg s -> begin_incoming cfg p c id ep now s = (New, s1) ->
  recv_inv cfg s1 /\
  incoming_active (cleaned now p s) !! dedup_key p c id = None /\
  processed_dedup (cleaned now p s) !! dedup_key p c id = None /\
  ((p, c) ∉ failed_ordered (cleaned now p s)) /\
  s1 = put_active (dedup_key p c id)
         (mkActive (Some (now + application_ack_timeout cfg)) ep InFlight) (cleaned now p s).
Proof.
  intros Hinv E. pose proof (recv_inv_begin cfg p c id ep now s Hinv) as H1. rewrite E in H1.
  rewrite begin_incoming_eq in E. cbn zeta in E. case_bool_decide as Hf; [done|].
  destruct (incoming_active _ !! _) eqn:Ha; [done|]. destruct (processed_dedup _ !! _) eqn:Hp; [done|].
  destruct (_ <=? _); [done|]. injection E as <-. done.
Qed.

(** So a channel cannot refer to it yet. *)
Lemma begin_new_record m ep now s s1 :
  recv_inv cfg s ->
  begin_incoming cfg (om_peer_id m) (om_channel_id m) (om_message_id m) ep now s = (New, s1) ->
  exists r, incoming_active s1 !! DeliveryRecv.key_of m = Some r /\ ar_state r = InFlight /\
    forall st, ordered s1 !! scope_of (DeliveryRecv.key_of m) = Some st ->
      ~ anchored st (DeliveryRecv.key_of m).
Proof.
  intros Hinv E. destruct (begin_new _ _ _ _ _ _ _ Hinv E) as (_ & Ha & _ & _ & ->).
  eexists. cbn. split; [apply lookup_insert_eq|]. split; [done|].
  apply (not_anchored_fresh cfg (cleaned now (om_peer_id m) s)); [by apply recv_inv_cleaned|done].
Qed.

Lemma recv_inv_admission m epoch now now' s :
  recv_inv cfg s -> recv_inv cfg (admission cfg m epoch now now' s).2.
Proof.
  intros Hinv. destruct (admission_cases m epoch now now' s) as
    [e|d a s1 E|s1 E|s1 s2 E Hpol Ea|s1 s2 E Hpol Ea|r a s1 s2 E Hpol Ea Hr]; [done| | | | |].
  1-2: pose proof (recv_inv_begin cfg (om_peer_id m) (om_channel_id m) (om_message_id m) epoch now s Hinv)
         as H1; by rewrite E in H1.
  all: destruct (begin_new _ _ _ _ _ _ _ Hinv E) as (Hinv1 & _);
       destruct (begin_new_record m _ _ _ _ Hinv E) as (r1 & Hr1 & Hs1 & Hna);
       destruct (recv_inv_accept cfg Hbytes m now' s1 r1 Hinv1 Hr1 Hs1 Hna Hpol) as [Hacc Hrej];
       rewrite Ea in Hacc, Hrej; try done.
  apply recv_inv_release; [done|]. by apply Hrej.
Qed.

Lemma recv_inv_step op s : recv_inv cfg s -> recv_inv cfg (recv_step op s).2.
Proof.
  intros Hinv. destruct op as [m epoch now now'|p c id now|p c id|p now|p]; cbn [recv_step].
  - pose proof (recv_inv_admission m epoch now now' s Hinv) as H.
    by destruct (admission cfg m epoch now now' s) as [[] s1].
  - unfold complete_incoming_checked. destruct (_ || _); [done|].
    pose proof (recv_inv_complete cfg Hentries p c id now s Hinv) as H.
    by destruct (complete_incoming_at cfg p c id now s) as [[] s1].
  - by apply (abandon_shrinks cfg).
  - by apply (expire_shrinks cfg).
  - by apply recv_inv_close.
Qed.

Lemma recv_run_inv ops s : recv_inv cfg s -> recv_inv cfg (recv_run ops s).2.
Proof.
  revert s. induction ops as [|op ops IH]; intros s Hinv; cbn; [done|].
  pose proof (recv_inv_step op s Hinv) as H1. destruct (recv_step op s) as [out s1].
  specialize (IH s1 H1). by destruct (recv_run ops s1) as [outs s2].
Qed.

(** ** Ordered channels *)

(** The sequence the application gets next on a channel. *)
Definition next_of_channel (st : OrderedChannelState) : Z :=
  expected_sequence st + match in_flight st with Some _ => 1 | None => 0 end.
Definition next_emit (s : DeliveryStore) (scope : string * string) : Z :=
  next_of_channel (channel_at s scope).

(** The sequences of the ordered messages of a channel among [out]. *)
Definition ordered_out (scope : string * string) (out : list OrderedMessage) : list Z :=
  om_sequence <$> filter (fun m => om_policy m = SessionBoundOrdered /\
                                   scope_of (DeliveryRecv.key_of m) = scope) out.

(** No channel has reached the last sequence, where counting saturates. *)
Definition small_channel (st : OrderedChannelState) : Prop :=
  (in_flight st <> None -> expected_sequence st < u64_max) /\
  (forall q m, reorder_buffer st !! q = Some m -> q < u64_max).
Definition small (s : DeliveryStore) : Prop :=
  forall scope st, ordered s !! scope = Some st -> small_channel st.

(** What a step hands over on a channel continues its sequence; a failed
    channel stays failed and silent. *)
Definition continues_channel (scope : string * string) (s : DeliveryStore)
    (out : list OrderedMessage) (s' : DeliveryStore) : Prop :=
  exists n, 0 <= n /\ ordered_out scope out = seqZ (next_emit s scope) n /\
    (scope ∈ failed_ordered s -> n = 0 /\ scope ∈ failed_ordered s') /\
    (scope ∉ failed_ordered s' -> next_emit s' scope = next_emit s scope + n).

Lemma ordered_out_app scope o1 o2 :
  ordered_out scope (o1 ++ o2) = ordered_out scope o1 ++ ordered_out scope o2.
Proof. unfold ordered_out. by rewrite filter_app, fmap_app. Qed.

Lemma continues_trans scope s o1 s1 o2 s2 :
  continues_channel scope s o1 s1 -> continues_channel scope s1 o2 s2 ->
  continues_channel scope s (o1 ++ o2) s2.
Proof.
  intros (n1 & Hn1 & Ho1 & Hf1 & He1) (n2 & Hn2 & Ho2 & Hf2 & He2).
  exists (n1 + n2). split; [lia|]. rewrite ordered_out_app, Ho1, Ho2. split_and!.
  - destruct (decide (scope ∈ failed_ordered s1)) as [Hin|Hni].
    + destruct (Hf2 Hin) as [-> _]. by rewrite Z.add_0_r, app_nil_r.
    + rewrite He1 by done. by rewrite seqZ_app by lia.
  - intros Hin. destruct (Hf1 Hin) as [-> Hin1]. destruct (Hf2 Hin1) as [-> ?]. done.
  - intros Hni. destruct (decide (scope ∈ failed_ordered s1)) as [Hin|Hni1].
    + destruct (Hf2 Hin). done.
    + rewrite He2, He1 by done. lia.
Qed.

(** The channel and its failure mark are as before. *)
Lemma continues_same scope s s' :
  channel_at s' scope = channel_at s scope ->
  (scope ∈ failed_ordered s -> scope ∈ failed_ordered s') ->
  continues_channel scope s [] s'.
Proof.
  intros Hc Hf. exists 0. split; [lia|]. split; [done|]. split; [auto|].
  intros _. unfold next_emit. rewrite Hc. lia.
Qed.

Lemma continues_shrinks scope s s' : shrinks cfg s s' -> continues_channel scope s [] s'.
Proof.
  intros Hs. destruct (sh_channel _ _ _ Hs scope) as [[Ho Hf]|[Ho Hf]].
  - apply continues_same; [unfold channel_at; by rewrite Ho|]. by rewrite Hf.
  - exists 0. split; [lia|]. split; [done|]. split; [done|]. done.
Qed.

Lemma small_shrinks s s' : shrinks cfg s s' -> small s -> small s'.
Proof.
  intros Hs Hsm scope st Hst. destruct (sh_channel _ _ _ Hs scope) as [[Ho _]|[Ho _]].
  - apply (Hsm scope). by rewrite <- Ho.
  - congruence.
Qed.

Lemma small_default : small_channel ordered_default.
Proof. split; cbn; [done|]. intros q m. by rewrite lookup_empty. Qed.

Lemma small_at s scope : small s -> small_channel (channel_at s scope).
Proof.
  intros Hs. unfold channel_at. destruct (ordered s !! scope) as [st|] eqn:E; [by apply (Hs scope)|].
  apply small_default.
Qed.

Lemma channel_at_set s scope st scope' :
  channel_at (set_channel scope st s) scope' = if bool_decide (scope = scope') then st else channel_at s scope'.
Proof.
  unfold channel_at, set_channel. cbn. case_bool_decide as E.
  - subst. by rewrite lookup_insert_eq.
  - by rewrite lookup_insert_ne.
Qed.

Lemma small_set s scope st : small s -> small_channel st -> small (set_channel scope st s).
Proof.
  intros Hs Hst sc st'. cbn. intros [[<- <-]|[_ H]]%lookup_insert_Some; [done|by apply (Hs sc)].
Qed.

Lemma ordered_out_other scope m :
  om_policy m <> SessionBoundOrdered \/ scope_of (DeliveryRecv.key_of m) <> scope ->
  ordered_out scope [m] = [].
Proof. intros H. unfold ordered_out. rewrite filter_cons_False; [done|]. intros [? ?]. tauto. Qed.

Lemma ordered_out_this m :
  om_policy m = SessionBoundOrdered ->
  ordered_out (scope_of (DeliveryRecv.key_of m)) [m] = [om_sequence m].
Proof. intros H. unfold ordered_out. by rewrite filter_cons_True. Qed.

Lemma accept_channel m now s r s' :
  accept_ordered_at cfg m now s = (r, s') ->
  (r = Rejected /\ s' = s) \/
  (exists st, ordered_insert m (max_reorder_messages cfg) (max_reorder_bytes cfg)
     (max_sequence_gap cfg) (channel_at s (scope_of (DeliveryRecv.key_of m))) = (r, st) /\
   ordered s' = ordered (set_channel (scope_of (DeliveryRecv.key_of m)) st s) /\
   failed_ordered s' = failed_ordered s /\ scope_of (DeliveryRecv.key_of m) ∉ failed_ordered s).
Proof.
  unfold accept_ordered_at. destruct (_ || _); [intros [= <- <-]; by left|].
  case_bool_decide as Hf; [intros [= <- <-]; by left|].
  destruct (incoming_active s !! _) as [rec|]; [|intros [= <- <-]; by left].
  fold (channel_at s (om_peer_id m, om_channel_id m)). rewrite <- scope_of_key_of in *.
  destruct (ordered_insert _ _ _ _ _) as [[] st] eqn:E; intros [= <- <-]; right; by exists st.
Qed.

Lemma continues_accept m now s r s' scope :
  om_policy m = SessionBoundOrdered ->
  accept_ordered_at cfg m now s = (r, s') ->
  continues_channel scope s (if bool_decide (r = Ready) then [m] else []) s'.
Proof.
  intros Hpol [[-> ->]|(st & Hins & Ho & Hf & Hnf)]%accept_channel; [by apply continues_same|].
  assert (Hat : forall sc, channel_at s' sc =
            channel_at (set_channel (scope_of (DeliveryRecv.key_of m)) st s) sc)
    by (intros sc; unfold channel_at; by rewrite Ho).
  destruct (decide (scope_of (DeliveryRecv.key_of m) = scope)) as [Heq|Hne].
  2:{ exists 0. split; [lia|]. split; [case_bool_decide; [apply ordered_out_other; by right|done]|].
      rewrite Hf. split; [done|]. intros _. unfold next_emit.
      rewrite Hat, channel_at_set, bool_decide_eq_false_2 by done. lia. }
  pose proof (ordered_insert_cases m (max_reorder_messages cfg) (max_reorder_bytes cfg)
    (max_sequence_gap cfg) (channel_at s (scope_of (DeliveryRecv.key_of m)))) as Hc.
  rewrite Hins in Hc. subst scope.
  assert (Hnext : next_emit s' (scope_of (DeliveryRecv.key_of m)) = next_of_channel st)
    by (unfold next_emit; by rewrite Hat, channel_at_set, bool_decide_eq_true_2).
  assert (Hsame : next_of_channel st = next_emit s (scope_of (DeliveryRecv.key_of m)) ->
    r <> Ready -> continues_channel (scope_of (DeliveryRecv.key_of m)) s
                    (if bool_decide (r = Ready) then [m] else []) s').
  { intros Hs Hr. exists 0. rewrite bool_decide_eq_false_2, Hnext, Hs by done.
    split; [lia|]. split; [done|]. split; [done|]. lia. }
  destruct r.
  - destruct Hc as (Hseq & Hfl & ->). exists 1. rewrite bool_decide_eq_true_2, Hnext by done.
    rewrite ordered_out_this by done. unfold next_emit, next_of_channel. cbn [in_flight expected_sequence].
    rewrite Hfl. split; [lia|]. split; [rewrite Z.add_0_r, Hseq; done|]. split; [done|]. lia.
  - destruct Hc as (_ & _ & _ & _ & ->). by apply Hsame.
  - subst st. by apply Hsame.
  - subst st. by apply Hsame.
Qed.

Lemma small_accept m now s r s' :
  om_sequence m < u64_max -> small s -> accept_ordered_at cfg m now s = (r, s') -> small s'.
Proof.
  intros Hlt Hs [[-> ->]|(st & Hins & Ho & _)]%accept_channel; [done|].
  assert (Hst : small_channel st); [|intros sc st'; rewrite Ho; by apply small_set].
  pose proof (small_at s (scope_of (DeliveryRecv.key_of m)) Hs) as [H1 H2].
  pose proof (ordered_insert_cases m (max_reorder_messages cfg) (max_reorder_bytes cfg)
    (max_sequence_gap cfg) (channel_at s (scope_of (DeliveryRecv.key_of m)))) as Hc.
  rewrite Hins in Hc. destruct r.
  - destruct Hc as (Hseq & _ & ->). split; cbn; [intros; lia|done].
  - destruct Hc as (_ & _ & _ & _ & ->). split; cbn; [done|].
    intros q n [[<- <-]|[_ Hn]]%lookup_insert_Some; [done|by apply (H2 q n)].
  - by subst.
  - by subst.
Qed.

(** The state a frame finds is its channel's, unless the channel just failed. *)
Lemma continues_cleaned now p s scope :
  recv_inv cfg s -> continues_channel scope s [] (cleaned now p s).
Proof.
  intros Hinv. apply (continues_trans scope s [] (expire_incoming_locked now (Some p) s).2 []).
  - by apply continues_shrinks, expire_shrinks.
  - by apply continues_same.
Qed.

Lemma small_cleaned now p s : recv_inv cfg s -> small s -> small (cleaned now p s).
Proof. intros Hinv Hs. exact (small_shrinks _ _ (expire_shrinks cfg now (Some p) s Hinv) Hs). Qed.

Lemma continues_frame scope s s' :
  ordered s' = ordered s -> failed_ordered s' = failed_ordered s -> continues_channel scope s [] s'.
Proof. intros Ho Hf. apply continues_same; [unfold channel_at; by rewrite Ho|by rewrite Hf]. Qed.

Lemma begin_ordered p c id ep now s :
  ordered (begin_incoming cfg p c id ep now s).2 = ordered (cleaned now p s) /\
  failed_ordered (begin_incoming cfg p c id ep now s).2 = failed_ordered (cleaned now p s).
Proof.
  rewrite begin_incoming_eq. cbn zeta. case_bool_decide; [done|].
  destruct (incoming_active _ !! _); [done|]. destruct (processed_dedup _ !! _); [done|].
  by destruct (_ <=? _).
Qed.

Lemma continues_begin p c id ep now s scope :
  recv_inv cfg s -> continues_channel scope s [] (begin_incoming cfg p c id ep now s).2.
Proof.
  intros Hinv. destruct (begin_ordered p c id ep now s) as [Ho Hf].
  apply (continues_trans scope s [] (cleaned now p s) []); [by apply continues_cleaned|].
  by apply continues_frame.
Qed.

Lemma small_ordered s s' : ordered s' = ordered s -> small s -> small s'.
Proof. intros Ho Hs sc st. rewrite Ho. apply Hs. Qed.

Lemma small_begin p c id ep now s :
  recv_inv cfg s -> small s -> small (begin_incoming cfg p c id ep now s).2.
Proof.
  intros Hinv Hs. destruct (begin_ordered p c id ep now s) as [Ho _].
  by eapply small_ordered, small_cleaned.
Qed.

Lemma continues_admission m epoch now now' s scope :
  recv_inv cfg s ->
  continues_channel scope s (recv_step (RReceive m epoch now now') s).1
    (recv_step (RReceive m epoch now now') s).2.
Proof.
  intros Hinv. cbn [recv_step].
  pose proof (admission_cases m epoch now now' s) as Hadm.
  pose proof (continues_begin (om_peer_id m) (om_channel_id m) (om_message_id m) epoch now s scope Hinv)
    as Hb.
  destruct (admission cfg m epoch now now' s) as [a s']. cbn in Hadm.
  destruct Hadm as [e|d a s1 E Hd Ha|s1 E Hpol|s1 s2 E Hpol Ea|s1 s2 E Hpol Ea|r a s1 s2 E Hpol Ea Hr Ha].
  - cbn. by apply continues_same.
  - rewrite E in Hb. destruct a; [done|done..].
  - rewrite E in Hb. cbn in *. destruct Hb as (n & Hn & Ho & Hf & He). exists n.
    rewrite ordered_out_other by by left. split_and!; try done; lia.
  - rewrite E in Hb. apply (continues_accept _ _ _ _ _ scope Hpol) in Ea.
    exact (continues_trans scope s [] s1 [m] s2 Hb Ea).
  - rewrite E in Hb. apply (continues_accept _ _ _ _ _ scope Hpol) in Ea.
    exact (continues_trans scope s [] s1 [] s2 Hb Ea).
  - rewrite E in Hb. apply (continues_accept _ _ _ _ _ scope Hpol) in Ea.
    replace (if bool_decide (r = Ready) then [m] else []) with (@nil OrderedMessage) in Ea
      by (destruct Hr as [->| ->]; done).
    pose proof (continues_trans scope s [] s1 [] s2 Hb Ea) as Hc.
    assert (Hrel : continues_channel scope s2 [] (release (DeliveryRecv.key_of m) s2))
      by by apply continues_frame.
    pose proof (continues_trans scope s [] s2 [] _ Hc Hrel) as Hd. by destruct a.
Qed.

Lemma small_admission m epoch now now' s :
  recv_inv cfg s -> om_sequence m < u64_max -> small s ->
  small (recv_step (RReceive m epoch now now') s).2.
Proof.
  intros Hinv Hlt Hs. cbn [recv_step]. pose proof (admission_cases m epoch now now' s) as Hadm.
  pose proof (small_begin (om_peer_id m) (om_channel_id m) (om_message_id m) epoch now s Hinv Hs) as Hb.
  destruct (admission cfg m epoch now now' s) as [a s']. cbn in Hadm.
  assert (small s'); [|by destruct a].
  destruct Hadm as [e|d a s1 E|s1 E|s1 s2 E Hpol Ea|s1 s2 E Hpol Ea|r a s1 s2 E Hpol Ea Hr];
    rewrite ?E in Hb; try done; by eapply small_accept in Ea.
Qed.

(** Acknowledging the message in flight on a channel below the last sequence. *)
Lemma acknowledge_next a scope st id :
  channel_ok cfg a scope st -> small_channel st -> in_flight st = Some id ->
  let '(next, st') := ordered_acknowledge id st in
  small_channel st' /\
  match next with
  | Some n => om_policy n = SessionBoundOrdered /\ scope_of (DeliveryRecv.key_of n) = scope /\
              om_sequence n = next_of_channel st /\ next_of_channel st' = next_of_channel st + 1
  | None => next_of_channel st' = next_of_channel st
  end.
Proof.
  intros Hok [Hs1 Hs2] Hid. unfold ordered_acknowledge, next_of_channel.
  rewrite Hid, bool_decide_eq_true_2 by done. cbn.
  assert (He : saturating_add u64_max (expected_sequence st) 1 = expected_sequence st + 1)
    by (specialize (Hs1 ltac:(congruence)); unfold saturating_add; lia). rewrite He.
  destruct (reorder_buffer st !! (expected_sequence st + 1)) as [n|] eqn:Hn; cbn.
  - destruct (co_buffer _ _ _ _ Hok _ _ Hn) as (Hq & _ & Hpol & Hsc & _). split_and!; try done; try lia.
    split; cbn; [intros _; by apply (Hs2 _ _ Hn)|]. intros q m [_ Hm]%lookup_delete_Some.
    by apply (Hs2 q m).
  - split; [|lia]. split; cbn; done.
Qed.

Lemma continues_completed p c id now s scope :
  recv_inv cfg s -> small s ->
  continues_channel scope s (option_list (completed cfg p c id now s).1) (completed cfg p c id now s).2 /\
  small (completed cfg p c id now s).2.
Proof.
  intros Hinv Hs. unfold completed.
  assert (Hrel : continues_channel scope s [] (release (dedup_key p c id) s) /\
                 small (release (dedup_key p c id) s)) by (split; [by apply continues_frame|done]).
  destruct (ordered s !! (p, c)) as [st|] eqn:Hst; [|done].
  case_bool_decide as Hid; [|done].
  pose proof (acknowledge_next _ _ _ _ (ri_channel _ _ Hinv _ _ Hst) (Hs _ _ Hst) Hid) as Hack.
  destruct (ordered_acknowledge id st) as [next st']. destruct Hack as [Hsm Hnext].
  set (s1 := release _ (set_channel (p, c) st' s)).
  assert (Hc : continues_channel scope s (option_list next) s1 /\ small s1).
  { split; [|exact (small_set s (p, c) st' Hs Hsm)].
    assert (Hat : forall sc, channel_at s1 sc = if bool_decide ((p, c) = sc) then st' else channel_at s sc)
      by (intros sc; apply (channel_at_set s (p, c) st' sc)).
    assert (Hst' : channel_at s (p, c) = st) by (unfold channel_at; by rewrite Hst).
    destruct (decide ((p, c) = scope)) as [Heq|Hne].
    - assert (Hnf : scope ∉ failed_ordered s).
      { intros Hf. apply (ri_failed _ _ Hinv) in Hf. congruence. }
      destruct next as [n|]; cbn [option_list].
      + destruct Hnext as (Hpol & Hsc & Hseq & Hn). exists 1. split; [lia|].
        rewrite <- Heq, <- Hsc, ordered_out_this by done. rewrite Hsc.
        unfold next_emit. rewrite Hat, bool_decide_eq_true_2, Hst', Hn, Hseq by done.
        split; [done|]. split; [by rewrite Heq|done].
      + exists 0. split; [lia|]. split; [done|]. split; [done|]. intros _. subst scope.
        unfold next_emit. rewrite Hat, bool_decide_eq_true_2, Hst' by done. lia.
    - exists 0. split; [lia|]. split.
      { destruct next as [n|]; [|done]. apply ordered_out_other. right.
        destruct Hnext as (_ & -> & _). done. }
      split; [done|]. intros _. unfold next_emit. rewrite Hat, bool_decide_eq_false_2 by done. lia. }
  destruct next as [n|]; [|done]. by destruct (incoming_active s !! DeliveryRecv.key_of n).
Qed.

Lemma remember_frame k r n s :
  ordered (remember_processed k r n s) = ordered s /\
  failed_ordered (remember_processed k r n s) = failed_ordered s /\
  incoming_active (remember_processed k r n s) = incoming_active s.
Proof. unfold remember_processed. by destruct (n =? 0). Qed.

Lemma continues_complete p c id now s scope :
  recv_inv cfg s -> small s ->
  continues_channel scope s (recv_step (RComplete p c id now) s).1
    (recv_step (RComplete p c id now) s).2 /\
  small (recv_step (RComplete p c id now) s).2.
Proof.
  intros Hinv Hs. cbn [recv_step]. unfold complete_incoming_checked.
  destruct (_ || _); [split; [by apply continues_same|done]|].
  destruct (complete_cases cfg p c id now s Hinv) as [->|(r & _ & _ & _ & ->)];
    [split; [by apply continues_same|done]|]. cbn.
  destruct (continues_completed p c id now s scope Hinv Hs) as [Hc Hsm].
  edestruct remember_frame as (Ho & Hf & _). split.
  - rewrite <- (app_nil_r (option_list _)). eapply continues_trans; [exact Hc|].
    apply continues_frame; [exact Ho|exact Hf].
  - eapply small_ordered; [exact Ho|done].
Qed.

(** A disconnect of another peer. *)
Lemma continues_close p s scope :
  scope.1 <> p -> continues_channel scope s [] (close_peer p s).
Proof.
  intros Hne. apply continues_same.
  - unfold channel_at, close_peer. cbn. rewrite map_lookup_imap.
    destruct (ordered s !! scope); cbn; [|done]. by rewrite bool_decide_eq_false_2.
  - intros Hin. cbn. apply elem_of_filter. done.
Qed.

Lemma small_close p s : small s -> small (close_peer p s).
Proof.
  intros Hs scope st'. cbn. rewrite map_lookup_imap.
  destruct (ordered s !! scope) as [st|] eqn:E; cbn; [|done]. intros [= <-].
  case_bool_decide; [split; cbn; [done|]|by apply (Hs scope)]. intros q m. by rewrite lookup_empty.
Qed.

(** A frame whose sequence leaves room to count; a step that does not
    disconnect the peer of [scope]. *)
Definition recv_op_ok (scope : string * string) (op : recv_op) : Prop :=
  match op with
  | RReceive m _ _ _ => om_sequence m < u64_max
  | RClose p => scope.1 <> p
  | _ => True
  end.

Lemma continues_step op s scope :
  recv_inv cfg s -> small s -> recv_op_ok scope op ->
  continues_channel scope s (recv_step op s).1 (recv_step op s).2 /\ small (recv_step op s).2.
Proof.
  intros Hinv Hs Hok. destruct op as [m epoch now now'|p c id now|p c id|p now|p].
  - split; [by apply continues_admission|by apply small_admission].
  - by apply continues_complete.
  - pose proof (abandon_shrinks cfg p c id s Hinv) as Hsh. cbn.
    split; [by apply continues_shrinks|by eapply small_shrinks].
  - pose proof (expire_shrinks cfg now (Some p) s Hinv) as Hsh. cbn.
    split; [by apply continues_shrinks|by eapply small_shrinks].
  - split; [by apply continues_close|by apply small_close].
Qed.

Lemma continues_run ops s scope :
  recv_inv cfg s -> small s -> Forall (recv_op_ok scope) ops ->
  continues_channel scope s (recv_run ops s).1 (recv_run ops s).2.
Proof.
  revert s. induction ops as [|op ops IH]; intros s Hinv Hs Hok; [by apply continues_same|].
  apply Forall_cons in Hok as [Ho Hok]. cbn [recv_run].
  destruct (continues_step op s scope Hinv Hs Ho) as [Hc Hs1].
  pose proof (recv_inv_step op s Hinv) as Hinv1.
  destruct (recv_step op s) as [out s1]. specialize (IH s1 Hinv1 Hs1 Hok).
  destruct (recv_run ops s1) as [outs s2]. by eapply continues_trans.
Qed.

(** ** At most once *)

Section Window.
Variables t0 t1 : Z.
Hypothesis Htimeout : t1 < t0 + application_ack_timeout cfg.
Hypothesis Httl : t1 < t0 + dedup_ttl cfg.

(** Within the window nothing times out, and [E] are the keys delivered so
    far: each is in flight or in the history. *)
Record remembers (E : list DedupKey) (n : Z) (s : DeliveryStore) : Prop := {
  rm_inv : recv_inv cfg s;
  rm_deadline : forall k r d, incoming_active s !! k = Some r -> ack_deadline r = Some d -> t1 < d;
  rm_expiry : forall k r, processed_dedup s !! k = Some r -> t1 < pr_expires_at r;
  rm_history : map_len (processed_dedup s) <= n;
  rm_delivered : forall k, k ∈ E ->
    (exists r, incoming_active s !! k = Some r /\ ar_state r = InFlight) \/
    is_Some (processed_dedup s !! k);
}.

Definition op_within (op : recv_op) : Prop :=
  match op with
  | RReceive _ _ now now' => t0 <= now <= t1 /\ t0 <= now' <= t1
  | RComplete _ _ _ now => t0 <= now <= t1
  | RExpire _ now => t0 <= now <= t1
  | _ => False
  end.

Definition completions (op : recv_op) : Z :=
  match op with RComplete _ _ _ _ => 1 | _ => 0 end.

Lemma cleaned_same E n s now p :
  remembers E n s -> now <= t1 -> cleaned now p s = s.
Proof.
  intros [_ Hd He _ _] Hn. unfold cleaned.
  rewrite expire_nothing by (intros k r d Hk _ Hr; specialize (Hd _ _ _ Hk Hr); lia). cbn.
  unfold prune_processed_dedup, set_incoming. rewrite map_filter_id; [by destruct s|].
  intros k r Hk. cbn. specialize (He _ _ Hk). lia.
Qed.

(** Registering, updating or dropping a record that was not delivered. *)
Lemma remembers_replace E n s s' k r :
  remembers E n s -> recv_inv cfg s' ->
  incoming_active s' = <[k := r]> (incoming_active s) -> processed_dedup s' = processed_dedup s ->
  (forall d, ack_deadline r = Some d -> t1 < d) ->
  (k ∈ E -> ar_state r = InFlight) ->
  remembers E n s'.
Proof.
  intros [_ Hd He Hh Hdel] Hinv Ha Hp Hdl Hst. constructor; rewrite ?Ha, ?Hp; try done.
  - intros j r' d [[<- <-]|[_ Hj]]%lookup_insert_Some; [apply Hdl|by apply (Hd j r')].
  - intros j Hj. destruct (decide (k = j)) as [->|].
    + left. exists r. rewrite lookup_insert_eq. split; [done|by apply Hst].
    + rewrite lookup_insert_ne by done. by apply Hdel.
Qed.

Lemma remembers_deliver E n s k r :
  remembers E n s -> incoming_active s !! k = Some r -> ar_state r = InFlight ->
  remembers (k :: E) n s.
Proof.
  intros [Hi Hd He Hh Hdel] Hk Hs. constructor; try done.
  intros j [->|Hj]%elem_of_cons; [left; by exists r|by apply Hdel].
Qed.

Lemma remembers_drop E n s k :
  remembers E n s -> recv_inv cfg (release k s) -> k ∉ E -> remembers E n (release k s).
Proof.
  intros [_ Hd He Hh Hdel] Hinv Hk. constructor; cbn; try done.
  - intros j r d [_ Hj]%lookup_delete_Some. by apply (Hd j r).
  - intros j Hj. rewrite lookup_delete_ne by congruence. by apply Hdel.
Qed.

Lemma remembers_not_new E n s k :
  remembers E n s -> incoming_active s !! k = None -> processed_dedup s !! k = None -> k ∉ E.
Proof.
  intros Hr Ha Hp Hin. destruct (rm_delivered _ _ _ Hr _ Hin) as [(r & ? & _)|[? ?]]; congruence.
Qed.

Lemma remembers_begin E n s p c id ep now :
  remembers E n s -> t0 <= now <= t1 ->
  remembers E n (begin_incoming cfg p c id ep now s).2.
Proof.
  intros Hr Hn. pose proof (recv_inv_begin cfg p c id ep now s (rm_inv _ _ _ Hr)) as Hinv.
  rewrite begin_incoming_eq in *. cbn zeta in *. rewrite (cleaned_same E n) in * by (done || lia).
  case_bool_decide; [done|].
  destruct (incoming_active s !! _) as [r|] eqn:Ha.
  - eapply remembers_replace; [done|done|done|done| |].
    + intros d Hd. by apply (rm_deadline _ _ _ Hr (dedup_key p c id) r).
    + intros Hin. destruct (rm_delivered _ _ _ Hr _ Hin) as [(r' & Hr' & ?)|Hp]; [cbn; congruence|].
      pose proof (ri_disjoint _ _ (rm_inv _ _ _ Hr) (dedup_key p c id) ltac:(by eexists)) as Hnone.
      rewrite Hnone in Hp. by destruct Hp.
  - destruct (processed_dedup s !! _) as [r|] eqn:Hp.
    + destruct Hr as [Hi Hd He Hh Hdel]. constructor; cbn; try done.
      * intros k r' [[<- <-]|[_ Hk]]%lookup_insert_Some; [cbn; lia|by apply (He k)].
      * by rewrite map_len_insert_old by by eexists.
      * intros k Hk. destruct (Hdel k Hk) as [?|[x Hx]]; [by left|right].
        apply lookup_insert_is_Some'. right. by eexists.
    + destruct (_ <=? _); [done|]. eapply remembers_replace; [done|done|done|done| |done].
      intros d [= <-]. lia.
Qed.

Lemma accept_effect m now s r s' rec :
  accept_ordered_at cfg m now s = (r, s') -> incoming_active s !! DeliveryRecv.key_of m = Some rec ->
  processed_dedup s' = processed_dedup s /\
  exists r2, incoming_active s' = <[DeliveryRecv.key_of m := r2]> (incoming_active s) /\
    match r with
    | Ready => ar_state r2 = InFlight /\ ack_deadline r2 = Some (now + application_ack_timeout cfg)
    | Buffered => ar_state r2 = OrderedBuffered /\ ack_deadline r2 = None
    | _ => r2 = rec
    end.
Proof.
  unfold accept_ordered_at. intros Ha Hk.
  assert (Hid : incoming_active s = <[DeliveryRecv.key_of m := rec]> (incoming_active s))
    by by rewrite insert_id.
  destruct (_ || _); [injection Ha as <- <-; split; [done|]; by exists rec|].
  destruct (bool_decide _); [injection Ha as <- <-; split; [done|]; by exists rec|].
  rewrite Hk in Ha.
  destruct (ordered_insert _ _ _ _ _) as [[] st]; injection Ha as <- <-; (split; [done|]);
    [by eexists|by eexists|by exists rec|by exists rec].
Qed.

(** Delivered keys are recorded; a delivery is of a key not delivered before. *)
Lemma remembers_admission E n s m epoch now now' :
  remembers E n s -> t0 <= now <= t1 -> t0 <= now' <= t1 ->
  let '(out, s') := recv_step (RReceive m epoch now now') s in
  remembers ((DeliveryRecv.key_of <$> out) ++ E) n s' /\
  (forall x, x ∈ out -> DeliveryRecv.key_of x ∉ E) /\ (length out <= 1)%nat.
Proof.
  intros Hr Hn Hn'. cbn [recv_step]. set (k := DeliveryRecv.key_of m).
  pose proof (admission_cases m epoch now now' s) as Hadm.
  pose proof (recv_inv_admission m epoch now now' s (rm_inv _ _ _ Hr)) as Hinv'.
  pose proof (remembers_begin E n s (om_peer_id m) (om_channel_id m) (om_message_id m) epoch now Hr Hn) as Hb.
  destruct (admission cfg m epoch now now' s) as [a s']. cbn in Hadm, Hinv'.
  assert (Hquiet : forall s', remembers E n s' -> remembers ((DeliveryRecv.key_of <$> []) ++ E) n s' /\
    (forall x, x ∈ [] -> DeliveryRecv.key_of x ∉ E) /\ (length (@nil OrderedMessage) <= 1)%nat)
    by (intros s0 H0; split; [done|]; split; [by intros x ?%not_elem_of_nil|cbn; lia]).
  assert (Hnew : forall s1, begin_incoming cfg (om_peer_id m) (om_channel_id m) (om_message_id m) epoch now s
      = (New, s1) -> (k ∉ E) /\ exists r, incoming_active s1 !! k = Some r /\ ar_state r = InFlight).
  { intros s1 E1. destruct (begin_new _ _ _ _ _ _ _ (rm_inv _ _ _ Hr) E1) as (_ & Ha & Hp & _).
    rewrite (cleaned_same E n) in Ha, Hp by (done || lia).
    split; [exact (remembers_not_new E n s k Hr Ha Hp)|].
    destruct (begin_new_record m _ _ _ _ (rm_inv _ _ _ Hr) E1) as (r & ? & ? & _). by exists r. }
  assert (Hloud : forall s', (k ∉ E) -> remembers (k :: E) n s' ->
    remembers ((DeliveryRecv.key_of <$> [m]) ++ E) n s' /\
    (forall x, x ∈ [m] -> DeliveryRecv.key_of x ∉ E) /\ (length [m] <= 1)%nat).
  { intros s0 Hk H0. split; [done|]. split; [|cbn; lia]. intros x ->%list_elem_of_singleton. done. }
  destruct Hadm as [e|d a s1 E1 Hd Ha|s1 E1 Hpol|s1 s2 E1 Hpol Ea|s1 s2 E1 Hpol Ea|r a s1 s2 E1 Hpol Ea Hrj Ha];
    rewrite ?E1 in Hb; cbn in Hb.
  - by apply Hquiet.
  - destruct a; [done|by apply Hquiet..].
  - destruct (Hnew s1 E1) as (Hk & r & Hr1 & Hs1). apply Hloud; [done|].
    by eapply remembers_deliver.
  - destruct (Hnew s1 E1) as (Hk & r & Hr1 & Hs1). apply Hloud; [done|].
    destruct (accept_effect _ _ _ _ _ _ Ea Hr1) as (Hp & r2 & Ha2 & Hs2 & Hd2).
    eapply (remembers_deliver _ _ _ _ r2); [|by rewrite Ha2; apply lookup_insert_eq|done].
    eapply (remembers_replace E n s1); [done|done|done|done| |done]. rewrite Hd2. intros d [= <-]. lia.
  - destruct (Hnew s1 E1) as (Hk & r & Hr1 & Hs1). apply Hquiet.
    destruct (accept_effect _ _ _ _ _ _ Ea Hr1) as (Hp & r2 & Ha2 & Hs2 & Hd2).
    eapply (remembers_replace E n s1); [done|done|done|done|by rewrite Hd2|done].
  - destruct (Hnew s1 E1) as (Hk & r1 & Hr1 & Hs1).
    destruct (accept_effect _ _ _ _ _ _ Ea Hr1) as (Hp & r2 & Ha2 & Hs2).
    assert (r2 = r1) as -> by (destruct Hrj as [-> | ->]; done).
    assert (Hacc : remembers E n s2).
    { destruct (begin_new_record m _ _ _ _ (rm_inv _ _ _ Hr) E1) as (r0 & Hr0 & Hs0 & Hna).
      destruct (recv_inv_accept cfg Hbytes m now' s1 r0 (rm_inv _ _ _ Hb) Hr0 Hs0 Hna Hpol) as [Hi _].
      rewrite Ea in Hi. eapply (remembers_replace E n s1); [done|done|done|done| |done].
      intros d Hd. by apply (rm_deadline _ _ _ Hb k r1). }
    pose proof (remembers_drop E n s2 k Hacc Hinv' Hk) as Hdrop. by destruct a; [done|apply Hquiet..].
Qed.

Lemma completed_effect p c id now s :
  recv_inv cfg s ->
  processed_dedup (completed cfg p c id now s).2 = processed_dedup s /\
  match (completed cfg p c id now s).1 with
  | None => incoming_active (completed cfg p c id now s).2
            = delete (dedup_key p c id) (incoming_active s)
  | Some next => exists rn rn', incoming_active s !! DeliveryRecv.key_of next = Some rn /\
      ar_state rn = OrderedBuffered /\
      ar_state rn' = InFlight /\ ack_deadline rn' = Some (now + application_ack_timeout cfg) /\
      incoming_active (completed cfg p c id now s).2
      = <[DeliveryRecv.key_of next := rn']> (delete (dedup_key p c id) (incoming_active s))
  end.
Proof.
  intros Hinv. unfold completed. destruct (ordered s !! (p, c)) as [st|] eqn:Hst; [|done].
  case_bool_decide as Hid; [|done]. unfold ordered_acknowledge.
  rewrite Hid, bool_decide_eq_true_2 by done. cbn [negb].
  set (e1 := saturating_add u64_max (expected_sequence st) 1).
  destruct (reorder_buffer st !! e1) as [next|] eqn:Hn; [|done].
  destruct (co_buffer _ _ _ _ (ri_channel _ _ Hinv _ _ Hst) _ _ Hn) as (_ & _ & _ & _ & rn & Hrn & Hs).
  rewrite Hrn. split; [done|].
  by exists rn, (mkActive (Some (now + application_ack_timeout cfg)) (ar_recovery_epoch rn) InFlight).
Qed.

(** Below the limit nothing is evicted. *)
Lemma remember_keeps k r s n :
  recv_inv cfg s -> (forall j x, processed_dedup s !! j = Some x -> pr_last_seen_at r < pr_expires_at x) ->
  map_len (processed_dedup s) < n ->
  processed_dedup (remember_processed k r n s) = <[k := r]> (processed_dedup s).
Proof.
  intros Hinv He Hlen. unfold remember_processed.
  pose proof (map_len_nonneg (processed_dedup s)). rewrite (proj2 (Z.eqb_neq n 0)) by lia. cbn.
  rewrite map_filter_id by (intros j x Hj; by apply (He j x)).
  destruct (size (processed_dedup s)); cbn; [done|]. by rewrite (proj2 (Z.leb_gt _ _)).
Qed.

(** A delivered key moves from the active records to the history. *)
Lemma remembers_finish E n s t k rec :
  remembers E n s -> recv_inv cfg t -> incoming_active t !! k = None ->
  is_Some (incoming_active s !! k) -> processed_dedup t = processed_dedup s ->
  pr_last_seen_at rec <= t1 < pr_expires_at rec -> n < dedup_max_entries cfg ->
  (forall j x d, incoming_active t !! j = Some x -> ack_deadline x = Some d -> t1 < d) ->
  (forall j x, j <> k -> incoming_active s !! j = Some x -> ar_state x = InFlight ->
     exists x', incoming_active t !! j = Some x' /\ ar_state x' = InFlight) ->
  remembers E (n + 1) (remember_processed k rec (dedup_max_entries cfg) t).
Proof.
  intros [Hi Hd He Hh Hdel] Hinv Hnone Hk Hp Hrec Hlt Hda Hia.
  assert (Hkeep : processed_dedup (remember_processed k rec (dedup_max_entries cfg) t)
                  = <[k := rec]> (processed_dedup s)).
  { rewrite remember_keeps, Hp; [done|done| |rewrite Hp; lia]. rewrite Hp. intros j x Hj.
    specialize (He _ _ Hj). lia. }
  destruct (remember_frame k rec (dedup_max_entries cfg) t) as (_ & _ & Hact).
  constructor; rewrite ?Hact, ?Hkeep; [by apply recv_inv_remember|done| | |].
  - intros j x [[<- <-]|[_ Hj]]%lookup_insert_Some; [lia|by apply (He j)].
  - rewrite map_len_insert_new by by apply (ri_disjoint _ _ Hi). lia.
  - intros j Hj. destruct (decide (j = k)) as [->|Hne].
    + right. rewrite lookup_insert_eq. by eexists.
    + rewrite lookup_insert_ne by done. destruct (Hdel j Hj) as [(x & Hx & Hsx)|?]; [left|by right].
      by apply (Hia j x).
Qed.

Lemma remembers_complete E n s p c id now :
  remembers E n s -> t0 <= now <= t1 -> n < dedup_max_entries cfg ->
  let '(out, s') := recv_step (RComplete p c id now) s in
  remembers ((DeliveryRecv.key_of <$> out) ++ E) (n + 1) s' /\
  (forall x, x ∈ out -> DeliveryRecv.key_of x ∉ E) /\ (length out <= 1)%nat.
Proof.
  intros Hr Hn Hlt. cbn [recv_step]. unfold complete_incoming_checked.
  assert (Hquiet : remembers ((DeliveryRecv.key_of <$> []) ++ E) (n + 1) s /\
    (forall x, x ∈ [] -> DeliveryRecv.key_of x ∉ E) /\ (length (@nil OrderedMessage) <= 1)%nat).
  { destruct Hr. split; [constructor; try done; lia|]. split; [by intros x ?%not_elem_of_nil|cbn; lia]. }
  destruct (_ || _); [done|].
  destruct (complete_cases cfg p c id now s (rm_inv _ _ _ Hr)) as [->|(r & Hk & Hs & Hfl & ->)]; [done|].
  pose proof (recv_inv_completed cfg p c id now s r (rm_inv _ _ _ Hr) Hk Hs Hfl) as [Hinv Hnone].
  destruct (completed_effect p c id now s (rm_inv _ _ _ Hr)) as [Hp Ha].
  destruct (completed cfg p c id now s) as [next t]. cbn [fst snd ic_next_ordered] in *.
  set (k := dedup_key p c id) in *. set (rec := processed_at cfg now (ar_recovery_epoch r)).
  assert (Hda : forall j x d, delete k (incoming_active s) !! j = Some x -> ack_deadline x = Some d -> t1 < d)
    by (intros j x d [_ Hj]%lookup_delete_Some; by apply (rm_deadline _ _ _ Hr j x)).
  assert (Hrec : pr_last_seen_at rec <= t1 < pr_expires_at rec) by (cbn; lia).
  destruct next as [m|]; cbn [option_list].
  - destruct Ha as (rn & rn' & Hrn & Hsn & Hsn' & Hdn & Ha).
    assert (HmE : DeliveryRecv.key_of m ∉ E).
    { intros Hin. destruct (rm_delivered _ _ _ Hr _ Hin) as [(x & Hx & Hsx)|[x Hx]]; [congruence|].
      rewrite (ri_disjoint _ _ (rm_inv _ _ _ Hr)) in Hx by by eexists. done. }
    split; [|split; [intros x ->%list_elem_of_singleton; done|cbn; lia]].
    apply (remembers_deliver E (n + 1) _ _ rn');
      [|destruct (remember_frame k rec (dedup_max_entries cfg) t) as (_ & _ & ->);
        rewrite Ha; apply lookup_insert_eq|done].
    apply (remembers_finish E n s t); try done; rewrite ?Ha.
    + intros j x d [[<- <-]|[_ Hj]]%lookup_insert_Some Hdx; [rewrite Hdn in Hdx; injection Hdx as <-; lia|].
      by apply (Hda j x).
    + intros j x Hj Hx Hsx. exists x. rewrite lookup_insert_ne by congruence.
      by rewrite lookup_delete_ne.
  - split; [|split; [by intros x ?%not_elem_of_nil|cbn; lia]].
    apply (remembers_finish E n s t); try done; rewrite ?Ha; [done|].
    intros j x Hj Hx Hsx. exists x. by rewrite lookup_delete_ne.
Qed.

Lemma remembers_run ops E n s :
  remembers E n s -> Forall op_within ops ->
  n + sum_with completions ops <= dedup_max_entries cfg ->
  NoDup E -> NoDup ((DeliveryRecv.key_of <$> rev (recv_run ops s).1) ++ E).
Proof.
  revert E n s. induction ops as [|op ops IH]; intros E n s Hr Hok Hn Hnd; [done|].
  apply Forall_cons in Hok as [Ho Hok]. cbn [sum_with foldr] in Hn. fold (sum_with completions ops) in Hn.
  assert (Hnn : 0 <= sum_with completions ops).
  { clear. induction ops as [|[] ops IH]; cbn in *; unfold sum_with in *; lia. }
  assert (Hstep : let '(out, s1) := recv_step op s in
    remembers ((DeliveryRecv.key_of <$> out) ++ E) (n + completions op) s1 /\
    (forall x, x ∈ out -> DeliveryRecv.key_of x ∉ E) /\ (length out <= 1)%nat).
  { destruct op as [m epoch now now'|p c id now|p c id|p now|p]; cbn [op_within completions] in *; try done.
    - rewrite Z.add_0_r. destruct Ho. by apply remembers_admission.
    - apply remembers_complete; [done|done|lia].
    - cbn. unfold expire_incoming. rewrite expire_nothing.
      + rewrite Z.add_0_r. split; [done|]. split; [by intros x ?%not_elem_of_nil|cbn; lia].
      + intros k r d Hk _ Hd. pose proof (rm_deadline _ _ _ Hr _ _ _ Hk Hd). lia. }
  cbn [recv_run]. destruct (recv_step op s) as [out s1]. destruct Hstep as (Hr1 & Hout & Hlen).
  assert (Hnd1 : NoDup ((DeliveryRecv.key_of <$> out) ++ E)).
  { destruct out as [|x [|]]; [done| |cbn in Hlen; lia]. cbn. constructor; [apply Hout; left|done]. }
  specialize (IH _ _ s1 Hr1 Hok ltac:(lia) Hnd1). destruct (recv_run ops s1) as [outs s2].
  cbn in *. rewrite rev_app_distr, fmap_app, <- app_assoc.
  destruct out as [|x [|]]; [done|done|cbn in Hlen; lia].
Qed.
End Window.
End Schedule.

(** ** Theorems of the receiving side *)

(** A schedule to instantiate the theorems: two ordered messages out of order,
    a duplicate, and the acknowledgement that releases the second. *)
Definition sample_message (n : Z) : OrderedMessage :=
  mkOrderedMessage "peer" "session" "chat" (from_bytes (be_bytes 16 n)) n SessionBoundOrdered
    (be_bytes 4 n).
Definition sample_recv : list recv_op :=
  [RReceive (sample_message 1) 0 1 1; RReceive (sample_message 0) 0 2 2;
   RReceive (sample_message 0) 0 3 3;
   RComplete "peer" "chat" (om_message_id (sample_message 0)) 4; RExpire "peer" 5].



(** C9. On an ordered channel the application gets the sequence numbers
    [next], [next + 1], [next + 2], ... without a gap, a repetition or a swap,
    starting where the store stands, over any schedule of frames (in any
    order, duplicated, across reconnects), acknowledgements, time-outs and
    abandonments that does not disconnect the peer; a failed channel delivers
    nothing more. *)
Theorem ordered_delivery_in_sequence {O : DeliveryOrders} cfg s ops scope :
  max_reorder_bytes cfg < u64_max -> 0 <= dedup_max_entries cfg ->
  recv_inv cfg s -> small s -> Forall (recv_op_ok scope) ops ->
  exists n, 0 <= n /\
    ordered_out scope (recv_run cfg ops s).1 = seqZ (next_emit s scope) n /\
    (scope ∈ failed_ordered s -> n = 0).
Proof.
  intros Hb He Hinv Hs Hok.
  destruct (continues_run cfg Hb He ops s scope Hinv Hs Hok) as (n & Hn & Ho & Hf & _).
  exists n. split; [done|]. split; [done|]. intros Hin. by apply Hf.
Qed.

(** Witness for C9: both messages are delivered, in order. *)
Lemma ordered_delivery_in_sequence_witness :
  (exists n, 0 <= n /\
    ordered_out ("peer", "chat") (recv_run config_default sample_recv store_new).1
    = seqZ (next_emit store_new ("peer", "chat")) n) /\
  ordered_out ("peer", "chat") (recv_run config_default sample_recv store_new).1 = [0; 1].
Proof.
  split; [|vm_compute; reflexivity].
  destruct (ordered_delivery_in_sequence config_default store_new sample_recv ("peer", "chat"))
    as (n & Hn & Ho & _).
  - reflexivity.
  - discriminate.
  - apply recv_inv_new.
  - intros scope st Hst. discriminate Hst.
  - repeat constructor.
  - exists n. exact (conj Hn Ho).
Defined.


