(* ===== verification/ChannelFlow.v ===== *)
(** * The channel layer: one message from end to end

    The fate of a send attempt ([deliver_pending_message]), the path of a
    message from [send_data_message] to [handle_data_message], the size limits
    of the two ends, and what explicit disconnection does to an ordered
    channel. *)
From S2P Require Import Prelude Profile PathHandshake Crypto CryptoProofs CryptoSession Delivery DeliverySend.
From S2P Require Import DeliverySchedule DeliveryRecv Channel ChannelProofs.

Section Flow.
Context {P : CryptoPrims} {L : CryptoLaws P} {W : WireCodec} {WL : WireCodecLaws W}
  {O : DeliveryOrders}.

(** ** Send attempts *)

Lemma send_data_store policy cur cur' p sid lease m st :
  ch_store (send_data_message policy cur cur' p sid lease m st).2 = ch_store st.
Proof.
  unfold send_data_message, send_business_frame. destruct (negb _); [done|].
  destruct (application_payload_mode _ _ _) as [[]|]; [| |done].
  - destruct (encrypt_application_payload _ _ _ _ _) as [[|] ?]; cbn; [|done].
    by repeat destruct_match_goal.
  - by repeat destruct_match_goal.
Qed.

(** A frame leaves only on success of the write; a reported success means one
    frame left, to the right peer. *)
Lemma send_data_ok policy cur cur' p sid lease m st st' :
  send_data_message policy cur cur' p sid lease m st = (Ok tt, st') ->
  exists frame, ch_frames st' = ch_frames st ++ [(p, frame)].
Proof.
  unfold send_data_message, send_business_frame. destruct (negb _); [done|].
  destruct (application_payload_mode _ _ _) as [[]|]; [| |done].
  - destruct (encrypt_application_payload _ _ _ _ _) as [[|] ?]; cbn; [|done].
    repeat destruct_match_goal; try done. intros [= <-]. by eexists.
  - repeat destruct_match_goal; try done. intros [= <-]. by eexists.
Qed.

(** The message in the store is the one handed to the attempt. *)
Lemma begin_for_peer_sending p id now s a s1 :
  begin_send_for_peer p id now s = (Ok (Some a), s1) ->
  at_peer_id a = p /\ at_message_id a = id /\ pending s1 !! mkIdentity p id = Some (at_message a) /\
  pm_state (at_message a) = StSending /\ pm_attempts (at_message a) = at_attempt a.
Proof.
  unfold begin_send_for_peer. destruct (negb _); [done|].
  unfold mbind, SE_bind. destruct (begin_send_inner (Some p) id now s) as [[[m|]|] s2] eqn:E;
    cbn; intros [= <- <-]. do 2 (split; [done|]).
  unfold begin_send_inner in E. cbn in E. destruct (_ && _); [done|].
  case_bool_decide as Hp; [|done]. destruct Hp as [n Hn]. rewrite Hn in E.
  repeat (match type of E with (if ?b then _ else _) = _ => destruct b end; [done|]).
  injection E as <- <-. cbn. by rewrite lookup_insert_eq.
Qed.

(** What a report leaves behind for the attempt's message. *)
Definition reported (a : DeliverySendAttempt) (t : Z) (outcome : DeliveryState)
    (s : DeliveryStore) : Prop :=
  match pending s !! mkIdentity (at_peer_id a) (at_message_id a) with
  | Some m => pm_state m = outcome /\ same_message (at_message a) m /\
      pm_attempts m = at_attempt a /\
      pm_next_retry_at m = t + delay_for_attempt (pm_retry_policy m) (at_attempt a)
  | None => is_Some (terminal_outcomes s !! mkIdentity (at_peer_id a) (at_message_id a))
  end.

Lemma mark_sent_reports a t s :
  pending s !! mkIdentity (at_peer_id a) (at_message_id a) = Some (at_message a) ->
  pm_state (at_message a) = StSending -> pm_attempts (at_message a) = at_attempt a ->
  reported a t StSentUnacked (mark_sent_for_attempt a t s).2.
Proof.
  intros Hm Hs Ha. unfold mark_sent_for_attempt, mark_sent_inner, resolve_pending_identity.
  rewrite bool_decide_eq_true_2 by by eexists. rewrite Hm, Hs, Ha, Z.eqb_refl, (bool_decide_eq_true_2 (StSending = StSending)) by done. cbn.
  unfold reported. cbn. rewrite lookup_insert_eq. cbn. by rewrite Ha.
Qed.

Lemma mark_failed_reports a t s :
  pending s !! mkIdentity (at_peer_id a) (at_message_id a) = Some (at_message a) ->
  pm_state (at_message a) = StSending -> pm_attempts (at_message a) = at_attempt a ->
  reported a t StQueued (mark_send_failed_for_attempt a t s).2.
Proof.
  intros Hm Hs Ha.
  unfold mark_send_failed_for_attempt, mark_send_failed_inner, resolve_pending_identity.
  rewrite bool_decide_eq_true_2 by by eexists. rewrite Hm, Hs, Ha, Z.eqb_refl, (bool_decide_eq_true_2 (StSending = StSending)) by done. cbn.
  assert (Hset : forall s' o, reported a t StQueued (settle s' (mkIdentity (at_peer_id a) (at_message_id a)) o)).
  { intros s' o. unfold reported. rewrite settle_pending, lookup_delete_eq, settle_terminal. by eexists. }
  destruct (is_expired _ _); [apply Hset|]. destruct (_ || _); [apply Hset|].
  unfold reported. cbn. rewrite lookup_insert_eq. cbn. by rewrite Ha.
Qed.

(** No send attempt leaks: once a message has been handed to an attempt,
    the attempt reports before it ends, whichever step fails (no path, no
    lease, a changed session, refused by policy, encryption, the frame limit,
    the write).  The message is then waiting for its acknowledgement, and a
    frame has left for the peer, or it is queued again; in both cases it keeps
    its attempt number and the next try is one backoff ahead.  Or it has left
    the queue with an outcome on record.  It never stays in the sending state,
    in which it would not be retried. *)
Lemma attempt_always_reported env p m st a s1 :
  pm_policy m <> BestEffort ->
  begin_send_for_peer p (pm_message_id m) (env_begin env) (ch_store st) = (Ok (Some a), s1) ->
  let st' := deliver_pending_message env p m st in
  (exists frame, ch_frames st' = ch_frames st ++ [(p, frame)] /\
     reported a (env_end env) StSentUnacked (ch_store st')) \/
  reported a (env_end env) StQueued (ch_store st').
Proof.
  intros Hpol Hbeg. destruct (begin_for_peer_sending _ _ _ _ _ _ Hbeg) as (Hp & Hid & Hm & Hs & Ha).
  rewrite <- Hp, <- Hid in Hm. unfold deliver_pending_message.
  rewrite bool_decide_eq_false_2 by done. set (st1 := with_store s1 st).
  assert (on_store (begin_send_for_peer p (pm_message_id m) (env_begin env)) st = (Ok (Some a), st1))
    as -> by (unfold on_store; by rewrite Hbeg).
  assert (Hfail : forall st2, ch_store st2 = s1 ->
    reported a (env_end env) StQueued
      (ch_store (on_store (mark_send_failed_for_attempt a (env_end env)) st2).2)).
  { intros st2 <-. unfold on_store. pose proof (mark_failed_reports a (env_end env) _ Hm Hs Ha) as H.
    by destruct (mark_send_failed_for_attempt _ _ _). }
  destruct (env_session env) as [sid|]; [|right; by apply Hfail].
  destruct (env_lease env) as [lease|]; [|right; by apply Hfail].
  pose proof (send_data_store (env_policy env) (env_current env) (env_current' env) p sid lease
    (at_message a) st1) as Hst.
  destruct (send_data_message _ _ _ _ _ _ _ st1) as [[[]|e] st2] eqn:E; cbn in Hst.
  - apply send_data_ok in E as [frame Hframe]. left. exists frame. unfold on_store. rewrite Hst.
    pose proof (mark_sent_reports a (env_end env) s1 Hm Hs Ha) as H.
    by destruct (mark_sent_for_attempt _ _ s1).
  - right. by apply Hfail.
Qed.

(** ** One message from the sender to the receiver *)

(** The context a peer's session uses. *)
Definition holds (peer_id session_id : string) (ctx : CryptoContext) (st : ChannelState) : Prop :=
  exists arc, manager_get peer_id session_id (ch_crypto st) = Ok arc /\
              arcs (ch_crypto st) !! arc = Some ctx.

Lemma with_context_holds p sid f st ctx :
  holds p sid ctx st ->
  exists crypto, with_context p sid f (ch_crypto st) = ((f ctx).1, crypto) /\
    forall st', ch_crypto st' = crypto -> holds p sid (f ctx).2 st'.
Proof.
  intros (arc & Hget & Harc). unfold with_context. rewrite Hget, Harc.
  destruct (f ctx) as [r ctx']. eexists. split; [done|]. intros st' Hst. exists arc.
  rewrite Hst. unfold manager_get in *. cbn. by rewrite lookup_insert_eq.
Qed.

Lemma holds_ok p sid ctx st :
  holds p sid ctx st -> is_ok (manager_get p sid (ch_crypto st)) = true.
Proof. by intros (arc & -> & _). Qed.

Lemma decrypt_is_for_delivery aad e c x c' :
  decrypt aad e c = (Ok x, c') -> decrypt_for_delivery aad e c = (Ok x, c').
Proof.
  unfold decrypt, decrypt_for_delivery, decrypt_internal. intros H.
  repeat destruct_match_in H; done.
Qed.

(** An envelope is recognised as one and is 42 bytes longer than its plaintext;
    one message rotates the key at most once. *)
Lemma encrypt_envelope aad pt c e c' :
  encrypt aad pt c = (Ok e, c') ->
  is_application_envelope e = true /\ len e = len pt + (ENVELOPE_HEADER_BYTES + GCM_TAG_BYTES) /\
  send_epoch c' <= send_epoch c + 1.
Proof.
  intros [(? & ? & _)|(c0 & Hc0 & [(? & ? & _)|(_ & w & m & b & -> & _ & _ & Hok)])]%encrypt_cases;
    [done..|].
  destruct (Hok e eq_refl) as (_ & _ & ct & Hct & ->). apply aead_length in Hct.
  split.
  { unfold is_application_envelope, mk_envelope. apply andb_true_intro. split.
    - apply Z.leb_le. unfold len. rewrite length_app. lia.
    - apply bool_decide_eq_true_2. by apply slice_app_front. }
  split; last first.
  { cbn. destruct Hc0 as [[_ ->]|(_ & _ & ->)]; cbn; lia. }
  unfold mk_envelope, len in *.
  rewrite !length_app, prefix_len, !length_be_bytes.
  unfold ENVELOPE_HEADER_BYTES, GCM_NONCE_BYTES.
  change (length ENVELOPE_MAGIC) with 4%nat. cbn [length]. lia.
Qed.

Lemma decode_policy_code p : decode_policy (policy_code p) = Some p.
Proof. by destruct p. Qed.

Lemma policy_code_best_effort p : (policy_code p =? policy_code BestEffort) = bool_decide (p = BestEffort).
Proof. by destruct p. Qed.

(** The wire form of a queued message. *)
Definition data_of (session_id : string) (m : PendingMessage) (payload : bytes) : DataMessage :=
  mkData session_id (pm_channel_id m) (to_bytes (pm_message_id m)) (pm_sequence m)
    (pm_recovery_epoch m) (policy_code (pm_policy m)) payload.

(** What the application on the other side gets. *)
Definition incoming_of (peer_id session_id : string) (m : PendingMessage) : OrderedMessage :=
  mkOrderedMessage peer_id session_id (pm_channel_id m) (pm_message_id m) (pm_sequence m)
    (pm_policy m) (pm_payload m).

(** A message whose fields have their Rust types' ranges and whose identifiers
    are valid. *)
Definition sendable (session_id : string) (m : PendingMessage) : Prop :=
  is_valid_scope_id session_id = true /\ is_valid_scope_id (pm_channel_id m) = true /\
  len (to_bytes (pm_message_id m)) = 16 /\
  0 <= pm_sequence m <= u64_max /\ 0 <= pm_recovery_epoch m <= u64_max.

(** A well-formed message passes the receiver's validation exactly when its
    payload, as transmitted, fits. *)
Lemma validate_data sid m payload :
  sendable sid m ->
  validate_data_message (data_of sid m payload)
  = if MAX_DELIVERY_MESSAGE_PAYLOAD_BYTES <? len payload
    then Err (IoError InvalidData "invalid DataMessage envelope") else Ok tt.
Proof.
  unfold sendable, is_valid_scope_id, MAX_SCOPE_ID_BYTES. intros (Hs & Hc & Hi & _).
  apply andb_prop in Hs as [Hs1 Hs2], Hc as [Hc1 Hc2]. apply negb_true_iff in Hs1, Hc1.
  apply Z.leb_le in Hs2, Hc2.
  unfold validate_data_message, data_of.
  cbn [d_session_id d_channel_id d_message_id d_policy d_payload]. rewrite Hs1, Hc1, Hi, decode_policy_code.
  rewrite (proj2 (Z.ltb_ge 128 (slen sid))), (proj2 (Z.ltb_ge 128 (slen (pm_channel_id m)))) by lia.
  cbn. by rewrite orb_false_r.
Qed.

Lemma data_of_wf sid m payload : sendable sid m -> data_wf (data_of sid m payload).
Proof. intros (_ & _ & _ & ? & ?). unfold data_wf. cbn. destruct (pm_policy m); cbn; lia. Qed.

(** The encrypted branch of [send_data_message]. *)
Lemma send_data_encrypted cur cur' p sid lease m st st' a :
  holds p sid a st -> send_data_message Required cur cur' p sid lease m st = (Ok tt, st') ->
  exists e a', encrypt (data_aad (data_of sid m [])) (pm_payload m) a = (Ok e, a') /\
    ch_frames st' = ch_frames st ++ [(p, encode_data (data_of sid m e))] /\ holds p sid a' st'.
Proof.
  intros Hh H. unfold send_data_message in H. destruct (negb _); [done|].
  rewrite (holds_ok _ _ _ _ Hh) in H.
  assert (application_payload_mode Required (lease_topology lease) true = Ok Encrypted) as Hmode
    by by destruct (lease_topology lease).
  rewrite Hmode in H. unfold encrypt_application_payload in H.
  fold (data_of sid m []) in H.
  destruct (with_context_holds p sid (encrypt (data_aad (data_of sid m [])) (pm_payload m)) st a Hh)
    as (crypto & Hw & Hh').
  rewrite Hw in H. destruct (encrypt _ _ a) as [[e|e] a'] eqn:He; cbn in H, Hh'; [|done].
  exists e, a'. split; [done|]. unfold send_business_frame in H.
  repeat destruct_match_in H; try done. injection H as <-. split; [done|]. by apply Hh'.
Qed.

(** The encrypted branch of [handle_data_message]. *)
Lemma open_payload_encrypted route p sid m e st b b' :
  holds p sid b st -> route_policy route = Required -> is_application_envelope e = true ->
  decrypt (data_aad (data_of sid m [])) e b = (Ok (pm_payload m), b') ->
  exists crypto, open_payload route p (pm_policy m) (data_of sid m e) st
    = (Ok (pm_payload m), with_crypto crypto st) /\ holds p sid b' (with_crypto crypto st).
Proof.
  intros Hh Hpol He Hd. unfold open_payload. cbn [d_session_id data_of d_payload].
  rewrite (holds_ok _ _ _ _ Hh), Hpol, He.
  assert (application_payload_mode Required (default Direct (route_topology route)) true = Ok Encrypted)
    as -> by by destruct (route_topology route) as [[]|].
  change (data_aad (data_of sid m e)) with (data_aad (data_of sid m [])). cbn [negb].
  pose proof (decrypt_is_for_delivery _ _ _ _ _ Hd) as Hd'.
  unfold decrypt_application_payload, decrypt_application_payload_for_delivery.
  case_bool_decide.
  - destruct (with_context_holds p sid (decrypt (data_aad (data_of sid m [])) e) st b Hh)
      as (crypto & -> & Hh'). rewrite Hd in *. exists crypto. split; [done|]. by apply Hh'.
  - destruct (with_context_holds p sid (decrypt_for_delivery (data_aad (data_of sid m [])) e) st b Hh)
      as (crypto & -> & Hh'). rewrite Hd' in *. exists crypto. split; [done|]. by apply Hh'.
Qed.


(** With end-to-end encryption the two ends do not agree on the size
    limit: the sender accepts any payload of up to
    [MAX_DELIVERY_MESSAGE_PAYLOAD_BYTES] bytes, and the receiver refuses the
    frame of exactly those whose last 42 bytes do not fit, because it measures
    the envelope; a refused frame changes nothing at the receiver, so the
    message is retried until its budget is gone. *)
Lemma encrypted_size_limit config route pa sid m aad a e a' stb now now' :
  sendable sid m -> encrypt aad (pm_payload m) a = (Ok e, a') ->
  (MAX_DELIVERY_MESSAGE_PAYLOAD_BYTES - 42 < len (pm_payload m) ->
   handle_data_message config route pa (encode_data (data_of sid m e)) now now' stb
   = (Err (IoError InvalidData "invalid DataMessage envelope"), stb)) /\
  (len (pm_payload m) <= MAX_DELIVERY_MESSAGE_PAYLOAD_BYTES - 42 ->
   validate_data_message (data_of sid m e) = Ok tt).
Proof.
  intros Hm Henc. destruct (encrypt_envelope _ _ _ _ _ Henc) as (_ & He & _).
  change (ENVELOPE_HEADER_BYTES + GCM_TAG_BYTES) with 42 in He. split; intros Hlen.
  - unfold handle_data_message. rewrite decode_encode_data by by apply data_of_wf.
    rewrite validate_data by done. by rewrite (proj2 (Z.ltb_lt _ (len e))) by lia.
  - rewrite validate_data by done. by rewrite (proj2 (Z.ltb_ge _ (len e))) by lia.
Qed.
End Flow.

(** ** Explicit disconnection *)

Section Close.
Context {O : DeliveryOrders} (cfg : DeliveryConfig).

(** An ordered message the channel is past, of a peer about which nothing else
    is remembered. *)
Record passed_over (m : OrderedMessage) (s : DeliveryStore) : Prop := {
  ov_policy : om_policy m = SessionBoundOrdered;
  ov_scope : is_valid_peer_id (om_peer_id m) = true /\ is_valid_scope_id (om_channel_id m) = true;
  ov_sequence : om_sequence m < expected_sequence (channel_at s (om_peer_id m, om_channel_id m));
  ov_failed : (om_peer_id m, om_channel_id m) ∉ failed_ordered s;
  ov_active : forall k, dk_peer_id k = om_peer_id m -> incoming_active s !! k = None;
  ov_processed : forall k, dk_peer_id k = om_peer_id m -> processed_dedup s !! k = None;
  ov_room : map_len (incoming_active s) < MAX_ACTIVE_INCOMING_RECORDS;
}.

Lemma close_forgets p s k :
  dk_peer_id k = p ->
  incoming_active (close_peer p s) !! k = None /\ processed_dedup (close_peer p s) !! k = None.
Proof.
  intros Hk. unfold close_peer. cbn. split; apply map_lookup_filter_None; right; cbn; naive_solver.
Qed.

Lemma close_expected p s scope :
  expected_sequence (channel_at (close_peer p s) scope) = expected_sequence (channel_at s scope).
Proof.
  unfold channel_at, close_peer. cbn. rewrite map_lookup_imap.
  destruct (ordered s !! scope) as [st|]; cbn; [|done]. by case_bool_decide.
Qed.

Lemma passed_over_close m s :
  om_policy m = SessionBoundOrdered ->
  is_valid_peer_id (om_peer_id m) = true -> is_valid_scope_id (om_channel_id m) = true ->
  om_sequence m < expected_sequence (channel_at s (om_peer_id m, om_channel_id m)) ->
  map_len (incoming_active s) < MAX_ACTIVE_INCOMING_RECORDS ->
  passed_over m (close_peer (om_peer_id m) s).
Proof.
  intros Hpol Hp Hc Hseq Hroom. constructor; try done.
  - by rewrite close_expected.
  - cbn. set_solver.
  - intros k Hk. by apply close_forgets.
  - intros k Hk. by apply close_forgets.
  - cbn. eapply Z.le_lt_trans; [apply map_len_filter_le|done].
Qed.

Lemma cleaned_forgotten m now s :
  passed_over m s ->
  incoming_active (cleaned now (om_peer_id m) s) = incoming_active s /\
  ordered (cleaned now (om_peer_id m) s) = ordered s /\
  failed_ordered (cleaned now (om_peer_id m) s) = failed_ordered s /\
  processed_dedup (cleaned now (om_peer_id m) s) ⊆ processed_dedup s.
Proof.
  intros H. unfold cleaned. rewrite expire_nothing.
  - cbn. do 3 (split; [done|]). apply map_filter_subseteq.
  - intros k r d Hk Hp _. by rewrite (ov_active _ _ H k Hp) in Hk.
Qed.

Lemma passed_over_step m s epoch now now' :
  passed_over m s ->
  exists s', admission cfg m epoch now now' s = (Silent, s') /\ passed_over m s'.
Proof.
  intros H. pose proof H as [Hpol [Hp Hc] Hseq Hf Ha Hpr Hroom].
  destruct (cleaned_forgotten m now s H) as (Ea & Eo & Ef & Ep).
  set (k := dedup_key (om_peer_id m) (om_channel_id m) (om_message_id m)).
  assert (Hsub : forall k, dk_peer_id k = om_peer_id m ->
            processed_dedup (cleaned now (om_peer_id m) s) !! k = None).
  { intros k' Hk'. eapply lookup_weaken_None; [by apply Hpr|done]. }
  unfold admission, begin_incoming_checked. rewrite Hp, Hc, begin_incoming_eq. cbn [negb orb].
  cbn zeta. fold k. generalize dependent (cleaned now (om_peer_id m) s). intros s0 Ea Eo Ef _ Hsub. rewrite Ef, Ea, bool_decide_eq_false_2, (Ha k), (Hsub k) by done.
  rewrite (proj2 (Z.leb_gt _ _) Hroom), bool_decide_eq_true_2 by done.
  unfold accept_ordered_at. rewrite Hp, Hc. cbn [negb orb failed_ordered put_active set_incoming
    incoming_active ordered]. rewrite Ef, Ea, Eo, bool_decide_eq_false_2 by done.
  change (DeliveryRecv.key_of m) with k. rewrite lookup_insert_eq.
  unfold ordered_insert. fold (channel_at s (om_peer_id m, om_channel_id m)).
  rewrite (proj2 (Z.ltb_lt _ _) Hseq). eexists. split; [reflexivity|].
  assert (Hact : delete k (<[k := mkActive (Some (now + application_ack_timeout cfg)) epoch InFlight]>
            (incoming_active s0)) = incoming_active s)
    by (rewrite delete_insert_eq, Ea; by apply delete_id, Ha).
  subst k. constructor; cbn; rewrite ?Hact, ?Ef; try done.
  unfold channel_at at 1. cbn. by rewrite lookup_insert_eq.
Qed.

(** An explicit disconnect loses the acknowledgement of a completed
    ordered message: [close_peer] forgets the history but keeps the expected
    sequence, so if the acknowledgement did not reach the sender, every later
    retransmission of the message is dropped without an answer, neither
    delivered nor acknowledged again. *)
Lemma closed_peer_never_acknowledges m s :
  om_policy m = SessionBoundOrdered ->
  is_valid_peer_id (om_peer_id m) = true -> is_valid_scope_id (om_channel_id m) = true ->
  om_sequence m < expected_sequence (channel_at s (om_peer_id m, om_channel_id m)) ->
  map_len (incoming_active s) < MAX_ACTIVE_INCOMING_RECORDS ->
  passed_over m (close_peer (om_peer_id m) s) /\
  forall s', passed_over m s' -> forall epoch now now',
    exists s'', admission cfg m epoch now now' s' = (Silent, s'') /\ passed_over m s''.
Proof.
  intros. split; [by apply passed_over_close|]. intros s' H' epoch now now'.
  by apply passed_over_step.
Qed.

Lemma close_failed_restarts scope s :
  next_emit (close_peer scope.1 (fail_ordered_channel scope s).2) scope = 0 /\
  scope ∉ failed_ordered (close_peer scope.1 (fail_ordered_channel scope s).2).
Proof.
  unfold next_emit, channel_at, close_peer, fail_ordered_channel. cbn. split; [|set_solver].
  by rewrite map_lookup_imap, lookup_delete_eq.
Qed.

(** A failed ordered channel restarts from sequence 0: failing discards
    the expected sequence, and the disconnect that clears the failure mark
    keeps nothing of it.  What the application gets from then on is 0, 1, 2,
    ... whatever number the sender, which keeps counting, is at; messages the
    sender numbers from there wait behind a gap that is never filled. *)
Lemma failed_channel_restarts_at_zero s scope ops :
  max_reorder_bytes cfg < u64_max -> 0 <= dedup_max_entries cfg ->
  recv_inv cfg s -> small s -> Forall (recv_op_ok scope) ops ->
  exists n, 0 <= n /\
    ordered_out scope
      (recv_run cfg ops (close_peer scope.1 (fail_ordered_channel scope s).2)).1 = seqZ 0 n.
Proof.
  intros Hb He Hinv Hs Hok.
  destruct (continues_run cfg Hb He ops (close_peer scope.1 (fail_ordered_channel scope s).2) scope)
    as (n & Hn & Ho & _); [| |done|].
  - apply recv_inv_close, recv_inv_fail, Hinv.
  - apply small_close. intros sc st. cbn. rewrite lookup_delete_Some. intros [_ Hst]. by eapply Hs.
  - exists n. split; [done|]. by rewrite Ho, (proj1 (close_failed_restarts scope s)).
Qed.
End Close.

(** ** Instances of the theorems

    A toy codec that satisfies the laws: any countable type has an encoding as
    a list of bits. *)

Fixpoint pos_bytes (p : positive) : bytes :=
  match p with
  | xH => []
  | xO p => Byte.x00 :: pos_bytes p
  | xI p => Byte.x01 :: pos_bytes p
  end.

Fixpoint bytes_pos (l : bytes) : positive :=
  match l with
  | [] => 1
  | b :: l => if bool_decide (b = Byte.x00) then (bytes_pos l)~0 else (bytes_pos l)~1
  end%positive.

Lemma bytes_pos_bytes p : bytes_pos (pos_bytes p) = p.
Proof. induction p as [p IH|p IH|]; cbn; by rewrite ?IH. Qed.

#[export] Instance toy_codec : WireCodec := {|
  encode_data m := pos_bytes (encode (d_session_id m, d_channel_id m,
    bytes_str (d_message_id m), d_sequence m, d_recovery_epoch m, d_policy m,
    bytes_str (d_payload m)));
  decode_data l :=
    '(s, c, i, q, e, p, b) ← decode (bytes_pos l);
    Some (mkData s c (str_bytes i) q e p (str_bytes b));
  encode_ack a := pos_bytes (encode (a_session_id a, bytes_str (a_message_id a),
    a_recovery_epoch a));
  decode_ack l :=
    '(s, i, e) ← decode (bytes_pos l); Some (mkAck s (str_bytes i) e);
|}.

#[export] Instance toy_codec_laws : WireCodecLaws toy_codec.
Proof.
  split.
  - intros [] _. unfold decode_data, encode_data, toy_codec.
    rewrite bytes_pos_bytes, decode_encode. cbn -[str_bytes bytes_str].
    by rewrite !str_bytes_str.
  - intros [] _. unfold decode_ack, encode_ack, toy_codec.
    rewrite bytes_pos_bytes, decode_encode. cbn -[str_bytes bytes_str].
    by rewrite str_bytes_str.
Qed.

Definition flow_message : PendingMessage :=
  mkPending (from_bytes (be_bytes 16 5)) "bob" "chat" 0 (be_bytes 4 7) SessionBoundOrdered
    StQueued 0 0 None 0 retry_policy_default 0 0.
Definition flow_manager (peer_id : string) (initiator : bool) : SessionCryptoManager :=
  (install_material_aliases peer_id ["s1"] toy_root initiator manager_new).2.
Definition flow_state (peer_id : string) (initiator : bool) : ChannelState :=
  mkChannel store_new (flow_manager peer_id initiator) [] [] [] ∅.
Definition flow_lease : PathLease := mkLease "bob" Relay true true true true.
Definition flow_sent : ChannelState :=
  (send_data_message Required (Some "s1") (Some "s1") "bob" "s1" flow_lease flow_message
     (flow_state "bob" true)).2.

Lemma flow_holds peer_id initiator :
  holds peer_id "s1" (from_session_root toy_root initiator) (flow_state peer_id initiator).
Proof.
  exists (fresh (dom (∅ : gmap nat CryptoContext))). cbn. unfold manager_get. cbn.
  by rewrite !lookup_insert_eq.
Qed.

Lemma flow_sendable : sendable "s1" flow_message.
Proof. split_and!; vm_compute; done. Qed.

