(* ===== verification/StreamCodec.v ===== *)
(** * Reliable streams: the wire format

    Models [network-core/src/stream/codec.rs] with the constants and errors of
    [stream/mod.rs]: the generic-route frames that open, feed and close a
    logical stream, the preamble of a QUIC stream and the Relay token. *)
From stdpp Require Import pretty.
From Stdlib Require Import Strings.Ascii.
From S2P Require Import Prelude GenericFrame.

Definition STREAM_SERVICE_SSH : string := "ssh".
Definition MAX_STREAM_FRAME_BYTES : Z := 64 * 1024.
Definition MAX_PER_STREAM_BUFFER_CAPACITY : Z := 256 * 1024.
Definition MAX_CONCURRENT_STREAMS : Z := 32.
Definition MAX_SERVICE_BYTES : Z := 128.
Definition STREAM_QUIC_PREAMBLE_MAGIC : bytes := str_bytes "SMSS".

Inductive StreamError :=
| StreamNotFound
| AlreadyOpen
| StreamClosed
| InvalidFrame
| StreamInvalidArgument
| StreamCapacityExceeded
| StreamNotConnected
| UnsupportedTransport
| StreamSend (message : string).

Definition STREAM_OPENER_LENGTH_BYTES : Z := 1.
Definition STREAM_ID_BYTES : Z := 2.
Definition STREAM_GENERIC_BYTES_HEADER_BYTES : Z :=
  STREAM_OPENER_LENGTH_BYTES + STREAM_ID_BYTES + 8 + 4.
Definition STREAM_GENERIC_OPEN_HEADER_BYTES : Z := STREAM_OPENER_LENGTH_BYTES + STREAM_ID_BYTES + 2.
Definition STREAM_GENERIC_CLOSE_HEADER_BYTES : Z := STREAM_OPENER_LENGTH_BYTES + STREAM_ID_BYTES.

Definition append_stream_opener (out : bytes) (opener_peer_id : string) :
    result bytes StreamError :=
  if str_is_empty opener_peer_id || (128 <? slen opener_peer_id) then Err StreamInvalidArgument
  else Ok (out ++ [byte_of_Z (slen opener_peer_id)] ++ str_bytes opener_peer_id).

(** The opener and the cursor behind it. *)
Definition decode_stream_opener (payload : bytes) (cursor : Z) : result (string * Z) StreamError :=
  if len payload <? cursor + STREAM_OPENER_LENGTH_BYTES then Err InvalidFrame else
  let opener_len := of_be (slice cursor (cursor + 1) payload) in
  let cursor := cursor + STREAM_OPENER_LENGTH_BYTES in
  if (opener_len =? 0) || (128 <? opener_len) || (len payload <? cursor + opener_len)
  then Err InvalidFrame else
  let? opener := ok_or (from_utf8 (slice cursor (cursor + opener_len) payload)) InvalidFrame in
  Ok (opener, cursor + opener_len).

Definition encode_stream_bytes_frame (opener_peer_id : string) (stream_id seq : Z) (data : bytes) :
    result bytes StreamError :=
  if len data =? 0 then Err StreamInvalidArgument else
  let? out := append_stream_opener [] opener_peer_id in
  Ok (out ++ be_bytes 2 stream_id ++ be_bytes 8 seq ++ be_bytes 4 (len data) ++ data).

Definition decode_stream_bytes_frame (payload : bytes) :
    result (string * Z * Z * bytes) StreamError :=
  if len payload <? STREAM_GENERIC_BYTES_HEADER_BYTES then Err InvalidFrame else
  let? (opener, cursor) := decode_stream_opener payload 0 in
  if len payload <? cursor + STREAM_ID_BYTES + 8 + 4 then Err InvalidFrame else
  let stream_id := of_be (slice cursor (cursor + STREAM_ID_BYTES) payload) in
  let cursor := cursor + STREAM_ID_BYTES in
  let seq := of_be (slice cursor (cursor + 8) payload) in
  let cursor := cursor + 8 in
  let length := of_be (slice cursor (cursor + 4) payload) in
  let cursor := cursor + 4 in
  if (length =? 0) || negb (cursor + length =? len payload) then Err InvalidFrame
  else Ok (opener, stream_id, seq, slice cursor (cursor + length) payload).

Definition encode_stream_open_frame (opener_peer_id : string) (stream_id : Z) (service : string) :
    result bytes StreamError :=
  if str_is_empty service || (MAX_SERVICE_BYTES <? slen service) then Err StreamInvalidArgument else
  let? out := append_stream_opener [] opener_peer_id in
  Ok (out ++ be_bytes 2 stream_id ++ be_bytes 2 (slen service) ++ str_bytes service).

Definition decode_stream_open_frame (payload : bytes) : result (string * Z * string) StreamError :=
  if len payload <? STREAM_GENERIC_OPEN_HEADER_BYTES then Err InvalidFrame else
  let? (opener, cursor) := decode_stream_opener payload 0 in
  if len payload <? cursor + STREAM_ID_BYTES + 2 then Err InvalidFrame else
  let stream_id := of_be (slice cursor (cursor + STREAM_ID_BYTES) payload) in
  let cursor := cursor + STREAM_ID_BYTES in
  let service_len := of_be (slice cursor (cursor + 2) payload) in
  let cursor := cursor + 2 in
  if (service_len =? 0) || (MAX_SERVICE_BYTES <? service_len)
     || negb (cursor + service_len =? len payload)
  then Err InvalidFrame else
  let? service := ok_or (from_utf8 (slice cursor (cursor + service_len) payload)) InvalidFrame in
  Ok (opener, stream_id, service).

Definition encode_stream_close_frame (opener_peer_id : string) (stream_id : Z) :
    result bytes StreamError :=
  let? out := append_stream_opener [] opener_peer_id in
  Ok (out ++ be_bytes 2 stream_id).

Definition decode_stream_close_frame (payload : bytes) : result (string * Z) StreamError :=
  if len payload <? STREAM_GENERIC_CLOSE_HEADER_BYTES then Err InvalidFrame else
  let? (opener, cursor) := decode_stream_opener payload 0 in
  if negb (len payload =? cursor + STREAM_ID_BYTES) then Err InvalidFrame else
  Ok (opener, of_be (slice cursor (cursor + STREAM_ID_BYTES) payload)).

Definition decode_stream_frame_identity (kind : GenericFrameKind) (payload : bytes) :
    result (string * Z) StreamError :=
  match kind with
  | KindStreamOpen =>
    let? (opener, stream_id, _) := decode_stream_open_frame payload in Ok (opener, stream_id)
  | KindStreamBytes =>
    let? (opener, stream_id, _, _) := decode_stream_bytes_frame payload in Ok (opener, stream_id)
  | KindStreamClose => decode_stream_close_frame payload
  | _ => Err InvalidFrame
  end.

Definition encode_quic_stream_preamble (stream_id : Z) (service : string) :
    result bytes StreamError :=
  if str_is_empty service || (MAX_SERVICE_BYTES <? slen service) then Err StreamInvalidArgument
  else Ok (STREAM_QUIC_PREAMBLE_MAGIC ++ be_bytes 2 stream_id ++ be_bytes 2 (slen service)
           ++ str_bytes service).

(** The receive half of a QUIC stream (quinn): [read_exact] gives that many
    bytes and the stream behind them, or fails. *)
Class RecvStream (R : Type) := {
  recv_read_exact : R -> Z -> option (bytes * R);
}.

(** What quinn documents: the stream holds the bytes that arrive before its end,
    a read takes them from the front, and a stream that ends early fails it. *)
Class RecvStreamLaws (R : Type) {HR : RecvStream R} (pending : R -> bytes) := {
  read_exact_front : forall r n, 0 <= n <= len (pending r) ->
    exists r', recv_read_exact r n = Some (slice 0 n (pending r), r') /\
      pending r' = slice n (len (pending r)) (pending r);
  read_exact_short : forall r n, len (pending r) < n -> recv_read_exact r n = None;
}.

(** The identifier, the service and what is left of the stream. *)
Definition read_quic_stream_preamble_after_magic {R} `{RecvStream R} (receive : R) :
    result (Z * string * R) StreamError :=
  let? (id, receive) := ok_or (recv_read_exact receive 2) InvalidFrame in
  let? (n, receive) := ok_or (recv_read_exact receive 2) InvalidFrame in
  let service_len := of_be n in
  if (service_len =? 0) || (MAX_SERVICE_BYTES <? service_len) then Err InvalidFrame else
  let? (service, receive) := ok_or (recv_read_exact receive service_len) InvalidFrame in
  let? service := ok_or (from_utf8 service) InvalidFrame in
  Ok (of_be id, service, receive).

(** [format!("stream:{opener_peer_id}:{stream_id}")]. *)
Definition stream_relay_token (opener_peer_id : string) (stream_id : Z) : string :=
  ("stream:" ++ opener_peer_id ++ ":" ++ pretty stream_id)%string.

(** ** The opener *)

Definition opener_ok (opener : string) : Prop :=
  rust_string opener /\ 1 <= slen opener <= 128.

Lemma append_opener_ok out opener out' :
  append_stream_opener out opener = Ok out' ->
  1 <= slen opener <= 128 /\ out' = out ++ [byte_of_Z (slen opener)] ++ str_bytes opener.
Proof.
  unfold append_stream_opener. destruct (_ || _) eqn:E; [done|]. intros <-%Ok_inj.
  bool_facts. apply str_is_empty_false in H. pose proof (slen_nonneg opener). split; [lia|done].
Qed.

(** The encoded opener, at the front of every generic stream frame. *)
Definition opener_bytes (opener : string) : bytes :=
  [byte_of_Z (slen opener)] ++ str_bytes opener.

#[global] Arguments opener_bytes : simpl never.

Lemma len_opener_bytes opener : len (opener_bytes opener) = 1 + slen opener.
Proof. unfold opener_bytes. by autorewrite with rustdb. Qed.

(** Reading behind a prefix. *)
Lemma slice_skip {A} (l1 l2 : list A) from to a b :
  from = len l1 + a -> to = len l1 + b -> 0 <= a -> slice from to (l1 ++ l2) = slice a b l2.
Proof.
  intros -> -> Ha. unfold slice, len. f_equal; [lia|].
  replace (Z.to_nat (Z.of_nat (length l1) + a)) with (length l1 + Z.to_nat a)%nat by lia.
  by rewrite drop_app_add.
Qed.

Lemma decode_opener_app opener rest :
  opener_ok opener ->
  decode_stream_opener (opener_bytes opener ++ rest) 0 = Ok (opener, 1 + slen opener).
Proof.
  intros [Hr Hl]. unfold decode_stream_opener, opener_bytes, STREAM_OPENER_LENGTH_BYTES.
  pose proof (len_nonneg rest). autorewrite with rustdb.
  rewrite (proj2 (Z.ltb_ge _ _)) by lia. rewrite <- app_assoc. change (0 + 1) with 1.
  rewrite slice_app_front, of_be_one, Z_of_byte_of_Z, Z.mod_small by (done || lia).
  rewrite (proj2 (Z.eqb_neq _ _)), (proj2 (Z.ltb_ge 128 _)) by lia.
  rewrite (proj2 (Z.ltb_ge (_ + _ + _) _)) by lia. cbn [orb].
  rewrite slice_app_mid, from_utf8_str by (done || (rewrite len_str_bytes; done)). done.
Qed.

Lemma decode_opener_inv payload opener cursor :
  decode_stream_opener payload 0 = Ok (opener, cursor) ->
  opener_ok opener /\ cursor = 1 + slen opener /\
  exists rest, payload = opener_bytes opener ++ rest.
Proof.
  unfold decode_stream_opener, STREAM_OPENER_LENGTH_BYTES. change (0 + 1) with 1.
  destruct (_ <? _) eqn:E1; [done|]. destruct (_ || _) eqn:E2; [done|].
  set (n := of_be (slice 0 1 payload)) in *. bool_facts.
  destruct (from_utf8 _) as [s|] eqn:Eu; cbn [ok_or]; [|done]. intros [= -> <-].
  apply from_utf8_inv in Eu as [Eu Hr].
  pose proof (of_be_range (slice 0 1 payload)) as Hn. fold n in Hn.
  assert (Hs : slen opener = n).
  { rewrite <- len_str_bytes, <- Eu, len_slice; lia. }
  rewrite Hs. split; [split; [done|lia]|]. split; [done|].
  exists (slice (1 + n) (len payload) payload).
  rewrite <- (slice_all payload (len payload)) at 1 by done.
  rewrite (slice_split payload 0 1), (slice_split payload 1 (1 + n)), app_assoc by lia.
  f_equal. unfold opener_bytes. rewrite Eu. f_equal. rewrite Hs. unfold n.
  pose proof (len_slice payload 0 1 ltac:(lia) ltac:(lia)) as Hl.
  destruct (slice 0 1 payload) as [|b [|]]; [done| |rewrite !len_cons in Hl; pose proof (len_nonneg l); lia].
  by rewrite of_be_one, byte_of_Z_of_byte.
Qed.

(** ** Round trips *)

Lemma bytes_decode_encode opener id seq data f :
  rust_string opener -> is_u16 id -> is_u64 seq -> len data <= u32_max ->
  encode_stream_bytes_frame opener id seq data = Ok f ->
  decode_stream_bytes_frame f = Ok (opener, id, seq, data).
Proof.
  intros Hr Hi Hq Hd. unfold encode_stream_bytes_frame. destruct (len data =? 0) eqn:E0; [done|].
  destruct (append_stream_opener [] opener) as [out|] eqn:Ea; [|done].
  apply append_opener_ok in Ea as [Ho ->]. intros <-%Ok_inj. rewrite app_nil_l.
  fold (opener_bytes opener).
  unfold is_u16, is_u64, u16_max, u64_max, u32_max in *. bool_facts.
  pose proof (len_nonneg data). pose proof (len_opener_bytes opener) as Hol.
  unfold decode_stream_bytes_frame, STREAM_GENERIC_BYTES_HEADER_BYTES, STREAM_ID_BYTES,
    STREAM_OPENER_LENGTH_BYTES.
  set (tl := be_bytes 2 id ++ be_bytes 8 seq ++ be_bytes 4 (len data) ++ data).
  assert (Htl : len tl = 14 + len data) by (unfold tl; autorewrite with rustdb; lia).
  rewrite len_app, Hol, Htl, (proj2 (Z.ltb_ge _ _)) by lia.
  rewrite decode_opener_app by (split; [done|lia]). cbv zeta.
  rewrite (proj2 (Z.ltb_ge _ _)) by lia.
  set (c := 1 + slen opener) in *.
  rewrite (slice_skip _ tl c (c + 2) 0 2), (slice_skip _ tl (c + 2) (c + 2 + 8) 2 10),
    (slice_skip _ tl (c + 2 + 8) (c + 2 + 8 + 4) 10 14) by lia.
  assert (of_be (slice 0 2 tl) = id) as -> by (apply (slice_be [] _ 2); (done || lia)).
  assert (of_be (slice 2 10 tl) = seq) as -> by (apply (slice_be (be_bytes 2 id) _ 8); (done || lia)).
  assert (of_be (slice 10 14 tl) = len data) as ->.
  { unfold tl. rewrite (app_assoc (be_bytes 2 id)). apply (slice_be _ _ 4); [done|lia]. }
  rewrite (proj2 (Z.eqb_neq _ _)), (proj2 (Z.eqb_eq _ (_ + _))) by lia. cbn [orb negb].
  rewrite (slice_skip _ tl _ _ 14 (14 + len data)) by lia. unfold tl.
  rewrite (app_assoc (be_bytes 2 id)), (app_assoc _ (be_bytes 4 _)), slice_app_end; [done|..];
    autorewrite with rustdb; lia.
Qed.

Lemma append_opener_eq opener :
  opener_ok opener -> append_stream_opener [] opener = Ok (opener_bytes opener).
Proof.
  intros [_ H]. unfold append_stream_opener.
  rewrite (proj2 (str_is_empty_false opener)), (proj2 (Z.ltb_ge _ _)) by lia. done.
Qed.

(** Cutting a tail into its integer fields. *)
Lemma field_be l a n :
  0 <= a -> a + Z.of_nat n <= len l ->
  exists z, 0 <= z < 256 ^ Z.of_nat n /\ of_be (slice a (a + Z.of_nat n) l) = z /\
    slice a (a + Z.of_nat n) l = be_bytes n z.
Proof.
  intros Ha Hl. eexists. split; [|split; [reflexivity|by rewrite be_slice]].
  pose proof (of_be_range (slice a (a + Z.of_nat n) l)) as H. rewrite len_slice in H by lia.
  replace (a + Z.of_nat n - a) with (Z.of_nat n) in H by lia. done.
Qed.

Lemma bytes_encode_decode f opener id seq data :
  decode_stream_bytes_frame f = Ok (opener, id, seq, data) ->
  encode_stream_bytes_frame opener id seq data = Ok f /\
  opener_ok opener /\ is_u16 id /\ is_u64 seq /\ len data <= u32_max.
Proof.
  unfold decode_stream_bytes_frame, STREAM_GENERIC_BYTES_HEADER_BYTES, STREAM_ID_BYTES,
    STREAM_OPENER_LENGTH_BYTES.
  destruct (_ <? _); [done|].
  destruct (decode_stream_opener f 0) as [[o c]|] eqn:Eo; [|done].
  apply decode_opener_inv in Eo as (Ho & Hc & tl & ->). pose proof (len_opener_bytes o) as Hol.
  rewrite <- Hc in Hol. rewrite len_app, Hol.
  destruct (_ <? _) eqn:E1; [done|]. cbv zeta. bool_facts.
  rewrite (slice_skip _ tl c (c + 2) 0 2), (slice_skip _ tl (c + 2) (c + 2 + 8) 2 10),
    (slice_skip _ tl (c + 2 + 8) (c + 2 + 8 + 4) 10 14) by lia.
  destruct (field_be tl 0 2 ltac:(lia) ltac:(lia)) as (z1 & R1 & V1 & B1).
  destruct (field_be tl 2 8 ltac:(lia) ltac:(lia)) as (z2 & R2 & V2 & B2).
  destruct (field_be tl 10 4 ltac:(lia) ltac:(lia)) as (z3 & R3 & V3 & B3).
  change (0 + Z.of_nat 2) with 2 in *. change (2 + Z.of_nat 8) with 10 in *.
  change (10 + Z.of_nat 4) with 14 in *. rewrite V1, V2, V3.
  destruct (_ || _) eqn:E2; [done|]. bool_facts.
  rewrite (slice_skip _ tl (c + 2 + 8 + 4) (c + 2 + 8 + 4 + z3) 14 (14 + z3)) by lia.
  intros [= <- <- <- <-].
  assert (Hd : len (slice 14 (14 + z3) tl) = z3) by (rewrite len_slice; lia).
  unfold is_u16, is_u64, u16_max, u64_max, u32_max.
  split; [|split; [done|lia]]. unfold encode_stream_bytes_frame.
  rewrite Hd, (proj2 (Z.eqb_neq _ _)), append_opener_eq by (done || lia). f_equal. f_equal.
  rewrite <- B1, <- B2, <- B3, <- !slice_split by lia. apply slice_all. lia.
Qed.

Lemma open_decode_encode opener id service f :
  rust_string opener -> rust_string service -> is_u16 id ->
  encode_stream_open_frame opener id service = Ok f ->
  decode_stream_open_frame f = Ok (opener, id, service).
Proof.
  intros Hr Hrs Hi. unfold encode_stream_open_frame. destruct (_ || _) eqn:E0; [done|].
  destruct (append_stream_opener [] opener) as [out|] eqn:Ea; [|done].
  apply append_opener_ok in Ea as [Ho ->]. intros <-%Ok_inj. rewrite app_nil_l.
  fold (opener_bytes opener). unfold is_u16, u16_max, MAX_SERVICE_BYTES in *. bool_facts.
  apply str_is_empty_false in H. pose proof (len_opener_bytes opener) as Hol.
  unfold decode_stream_open_frame, STREAM_GENERIC_OPEN_HEADER_BYTES, STREAM_ID_BYTES,
    STREAM_OPENER_LENGTH_BYTES, MAX_SERVICE_BYTES.
  set (tl := be_bytes 2 id ++ be_bytes 2 (slen service) ++ str_bytes service).
  assert (Htl : len tl = 4 + slen service) by (unfold tl; autorewrite with rustdb; lia).
  rewrite len_app, Hol, Htl, (proj2 (Z.ltb_ge _ _)) by lia.
  rewrite decode_opener_app by (split; [done|lia]). cbv zeta.
  rewrite (proj2 (Z.ltb_ge _ _)) by lia. set (c := 1 + slen opener) in *.
  rewrite (slice_skip _ tl c (c + 2) 0 2), (slice_skip _ tl (c + 2) (c + 2 + 2) 2 4) by lia.
  assert (of_be (slice 0 2 tl) = id) as -> by (apply (slice_be [] _ 2); (done || lia)).
  assert (of_be (slice 2 4 tl) = slen service) as ->
    by (apply (slice_be (be_bytes 2 id) _ 2); (done || lia)).
  rewrite (proj2 (Z.eqb_neq _ _)), (proj2 (Z.ltb_ge _ (slen _))), (proj2 (Z.eqb_eq _ (_ + _))) by lia.
  cbn [orb negb].
  rewrite (slice_skip _ tl _ _ 4 (4 + slen service)) by lia. unfold tl.
  rewrite (app_assoc (be_bytes 2 id)), slice_app_end, from_utf8_str; [done..| |];
    autorewrite with rustdb; lia.
Qed.

Lemma open_encode_decode f opener id service :
  decode_stream_open_frame f = Ok (opener, id, service) ->
  encode_stream_open_frame opener id service = Ok f /\
  opener_ok opener /\ is_u16 id /\ rust_string service.
Proof.
  unfold decode_stream_open_frame, STREAM_GENERIC_OPEN_HEADER_BYTES, STREAM_ID_BYTES,
    STREAM_OPENER_LENGTH_BYTES, MAX_SERVICE_BYTES.
  destruct (_ <? _); [done|].
  destruct (decode_stream_opener f 0) as [[o c]|] eqn:Eo; [|done].
  apply decode_opener_inv in Eo as (Ho & Hc & tl & ->). pose proof (len_opener_bytes o) as Hol.
  rewrite <- Hc in Hol. rewrite len_app, Hol.
  destruct (_ <? _) eqn:E1; [done|]. cbv zeta. bool_facts.
  rewrite (slice_skip _ tl c (c + 2) 0 2), (slice_skip _ tl (c + 2) (c + 2 + 2) 2 4) by lia.
  destruct (field_be tl 0 2 ltac:(lia) ltac:(lia)) as (z1 & R1 & V1 & B1).
  destruct (field_be tl 2 2 ltac:(lia) ltac:(lia)) as (z2 & R2 & V2 & B2).
  change (0 + Z.of_nat 2) with 2 in *. change (2 + Z.of_nat 2) with 4 in *. rewrite V1, V2.
  destruct (_ || _) eqn:E2; [done|]. bool_facts.
  rewrite (slice_skip _ tl _ _ 4 (4 + z2)) by lia.
  destruct (from_utf8 _) as [s|] eqn:Eu; cbn [ok_or]; [|done]. intros [= <- <- <-].
  apply from_utf8_inv in Eu as [Eu Hs].
  assert (Hd : slen s = z2) by (rewrite <- len_str_bytes, <- Eu, len_slice; lia).
  unfold is_u16, u16_max. split; [|split; [done|split; [lia|done]]].
  unfold encode_stream_open_frame, MAX_SERVICE_BYTES.
  rewrite (proj2 (str_is_empty_false s)), (proj2 (Z.ltb_ge _ _)), append_opener_eq by (done || lia).
  cbn [orb]. f_equal. f_equal. rewrite Hd, <- Eu, <- B1, <- B2, <- !slice_split by lia.
  apply slice_all. lia.
Qed.

Lemma close_decode_encode opener id f :
  rust_string opener -> is_u16 id -> encode_stream_close_frame opener id = Ok f ->
  decode_stream_close_frame f = Ok (opener, id).
Proof.
  intros Hr Hi. unfold encode_stream_close_frame.
  destruct (append_stream_opener [] opener) as [out|] eqn:Ea; [|done].
  apply append_opener_ok in Ea as [Ho ->]. intros <-%Ok_inj. rewrite app_nil_l.
  fold (opener_bytes opener). unfold is_u16, u16_max in *.
  pose proof (len_opener_bytes opener) as Hol.
  unfold decode_stream_close_frame, STREAM_GENERIC_CLOSE_HEADER_BYTES, STREAM_ID_BYTES,
    STREAM_OPENER_LENGTH_BYTES.
  rewrite len_app, Hol, len_be_bytes, (proj2 (Z.ltb_ge _ _)) by lia.
  rewrite decode_opener_app by (split; [done|lia]).
  rewrite (proj2 (Z.eqb_eq _ _)) by lia. cbn [negb]. do 2 f_equal.
  rewrite (slice_skip _ _ _ _ 0 2), slice_all by (rewrite ?len_be_bytes; lia).
  apply of_be_be_bytes. lia.
Qed.

Lemma close_encode_decode f opener id :
  decode_stream_close_frame f = Ok (opener, id) ->
  encode_stream_close_frame opener id = Ok f /\ opener_ok opener /\ is_u16 id.
Proof.
  unfold decode_stream_close_frame, STREAM_GENERIC_CLOSE_HEADER_BYTES, STREAM_ID_BYTES,
    STREAM_OPENER_LENGTH_BYTES.
  destruct (_ <? _); [done|].
  destruct (decode_stream_opener f 0) as [[o c]|] eqn:Eo; [|done].
  apply decode_opener_inv in Eo as (Ho & Hc & tl & ->). pose proof (len_opener_bytes o) as Hol.
  rewrite <- Hc in Hol. rewrite len_app, Hol. destruct (negb _) eqn:E1; [done|]. bool_facts.
  destruct (field_be tl 0 2 ltac:(lia) ltac:(lia)) as (z1 & R1 & V1 & B1).
  change (0 + Z.of_nat 2) with 2 in *. rewrite (slice_skip _ tl _ _ 0 2), V1 by lia.
  intros [= <- <-]. unfold is_u16, u16_max. split; [|split; [done|lia]].
  unfold encode_stream_close_frame. rewrite append_opener_eq by done. f_equal. f_equal.
  rewrite <- B1. apply slice_all. lia.
Qed.

(** The three generic stream frames are faithful encodings: what is
    encoded decodes to the same opener, stream, sequence, data and service,
    whatever decodes is the encoding of what it decodes to (so no two payloads
    mean the same frame, and the decoded identifiers have their widths), and
    the identity that Relay extracts from a frame is that of the frame. *)
Lemma stream_frame_codec :
  (forall opener id seq data f, rust_string opener -> is_u16 id -> is_u64 seq ->
     len data <= u32_max -> encode_stream_bytes_frame opener id seq data = Ok f ->
     decode_stream_bytes_frame f = Ok (opener, id, seq, data) /\
     decode_stream_frame_identity KindStreamBytes f = Ok (opener, id)) /\
  (forall opener id service f, rust_string opener -> rust_string service -> is_u16 id ->
     encode_stream_open_frame opener id service = Ok f ->
     decode_stream_open_frame f = Ok (opener, id, service) /\
     decode_stream_frame_identity KindStreamOpen f = Ok (opener, id)) /\
  (forall opener id f, rust_string opener -> is_u16 id ->
     encode_stream_close_frame opener id = Ok f ->
     decode_stream_frame_identity KindStreamClose f = Ok (opener, id)) /\
  (forall f opener id seq data, decode_stream_bytes_frame f = Ok (opener, id, seq, data) ->
     encode_stream_bytes_frame opener id seq data = Ok f /\
     opener_ok opener /\ is_u16 id /\ is_u64 seq /\ len data <= u32_max) /\
  (forall f opener id service, decode_stream_open_frame f = Ok (opener, id, service) ->
     encode_stream_open_frame opener id service = Ok f /\
     opener_ok opener /\ is_u16 id /\ rust_string service) /\
  (forall f opener id, decode_stream_close_frame f = Ok (opener, id) ->
     encode_stream_close_frame opener id = Ok f /\ opener_ok opener /\ is_u16 id).
Proof.
  split_and!.
  - intros opener id seq data f ? ? ? ? Hf. apply bytes_decode_encode in Hf; [|done..].
    cbn. by rewrite Hf.
  - intros opener id service f ? ? ? Hf. apply open_decode_encode in Hf; [|done..].
    cbn. by rewrite Hf.
  - intros opener id f ? ? Hf. by apply close_decode_encode.
  - apply bytes_encode_decode.
  - apply open_encode_decode.
  - apply close_encode_decode.
Qed.

(** ** The QUIC preamble *)

Lemma read_exact_app {R} `{RecvStreamLaws R pending} r l rest :
  pending r = l ++ rest ->
  exists r', recv_read_exact r (len l) = Some (l, r') /\ pending r' = rest.
Proof.
  intros E. pose proof (len_nonneg l). pose proof (len_nonneg rest).
  destruct (read_exact_front r (len l)) as (r' & Hr & Hp); [rewrite E, len_app; lia|].
  exists r'. rewrite Hr, Hp, E, slice_app_front, slice_app_end by (rewrite ?len_app; lia). done.
Qed.

(** Reading from a stream that may end early. *)
Lemma read_exact_cut {R} `{RecvStreamLaws R pending} r l rest :
  pending r `prefix_of` l ++ rest ->
  recv_read_exact r (len l) = None \/
  exists r', recv_read_exact r (len l) = Some (l, r') /\ pending r' `prefix_of` rest /\
    len (pending r) = len l + len (pending r').
Proof.
  intros Hp. destruct (Z.lt_ge_cases (len (pending r)) (len l)) as [Hlt|Hge].
  { left. by apply read_exact_short. }
  right. destruct (prefix_weak_total (pending r) l (l ++ rest)) as [Hs|[tl E]];
    [done|by apply prefix_app_r| |].
  - destruct Hs as [k E]. rewrite E, len_app in Hge. destruct k as [|x k].
    + rewrite app_nil_r in E. subst l. destruct (read_exact_app r (pending r) []) as (r' & Hr & Hp').
      { by rewrite app_nil_r. }
      exists r'. rewrite Hp'. split; [done|]. split; [apply prefix_nil|]. change (len []) with 0. lia.
    + rewrite len_cons in Hge. pose proof (len_nonneg k). lia.
  - destruct (read_exact_app r l tl E) as (r' & Hr & Hp'). exists r'. rewrite Hp'.
    rewrite E in Hp. apply prefix_app_inv in Hp. rewrite E, len_app. done.
Qed.

(** The bytes behind the magic. *)
Definition preamble_tail (stream_id : Z) (service : string) : bytes :=
  be_bytes 2 stream_id ++ be_bytes 2 (slen service) ++ str_bytes service.

Lemma read_preamble_cut {R} `{RecvStreamLaws R pending} stream_id service r :
  1 <= slen service <= MAX_SERVICE_BYTES ->
  pending r `prefix_of` preamble_tail stream_id service ->
  len (pending r) < 4 + slen service ->
  read_quic_stream_preamble_after_magic r = Err InvalidFrame.
Proof.
  unfold preamble_tail, MAX_SERVICE_BYTES. intros Hs Hp Hl.
  unfold read_quic_stream_preamble_after_magic.
  destruct (read_exact_cut r _ _ Hp) as [Hr|(r1 & Hr & Hp1 & L1)];
    change (len (be_bytes 2 stream_id)) with 2 in *; rewrite Hr; [done|]. cbn [ok_or].
  destruct (read_exact_cut r1 _ _ Hp1) as [Hr1|(r2 & Hr1 & Hp2 & L2)];
    change (len (be_bytes 2 (slen service))) with 2 in *; rewrite Hr1; [done|]. cbn [ok_or].
  rewrite !of_be_be_bytes by lia. destruct (_ || _); [done|].
  rewrite <- (app_nil_r (str_bytes service)) in Hp2.
  destruct (read_exact_cut r2 _ _ Hp2) as [Hr2|(r3 & Hr2 & _ & L3)];
    rewrite len_str_bytes in *; rewrite Hr2; [done|].
  pose proof (len_nonneg (pending r3)). lia.
Qed.

Lemma read_preamble_whole {R} `{RecvStreamLaws R pending} stream_id service rest r :
  rust_string service -> is_u16 stream_id -> 1 <= slen service <= MAX_SERVICE_BYTES ->
  pending r = preamble_tail stream_id service ++ rest ->
  exists r', read_quic_stream_preamble_after_magic r = Ok (stream_id, service, r') /\
    pending r' = rest.
Proof.
  unfold preamble_tail, is_u16, u16_max, MAX_SERVICE_BYTES. intros Hu Hi Hs Hp.
  rewrite <- !app_assoc in Hp. unfold read_quic_stream_preamble_after_magic, MAX_SERVICE_BYTES.
  destruct (read_exact_app r _ _ Hp) as (r1 & Hr & Hp1).
  change (len (be_bytes 2 stream_id)) with 2 in Hr. rewrite Hr. cbn [ok_or].
  destruct (read_exact_app r1 _ _ Hp1) as (r2 & Hr1 & Hp2).
  change (len (be_bytes 2 (slen service))) with 2 in Hr1. rewrite Hr1. cbn [ok_or].
  rewrite !of_be_be_bytes by lia.
  rewrite (proj2 (Z.eqb_neq _ _)), (proj2 (Z.ltb_ge _ _)) by lia. cbn [orb].
  destruct (read_exact_app r2 _ _ Hp2) as (r3 & Hr2 & Hp3). rewrite len_str_bytes in Hr2.
  rewrite Hr2. cbn [ok_or]. rewrite from_utf8_str by done. by exists r3.
Qed.

(** The preamble of a QUIC stream is read back as the stream and service
    that were written, and the reader stops exactly at the first byte of the
    stream's data; the first four bytes are the magic that the dispatcher of
    incoming streams tests. A stream that ends within the preamble is refused. *)
Lemma quic_preamble_round_trip {R} `{RecvStreamLaws R pending} stream_id service preamble rest r :
  rust_string service -> is_u16 stream_id ->
  encode_quic_stream_preamble stream_id service = Ok preamble ->
  slice 0 4 (preamble ++ rest) = STREAM_QUIC_PREAMBLE_MAGIC /\
  (pending r = drop 4 (preamble ++ rest) ->
   exists r', read_quic_stream_preamble_after_magic r = Ok (stream_id, service, r') /\
     pending r' = rest) /\
  (forall k, (4 <= k < length preamble)%nat -> pending r = drop 4 (take k preamble) ->
   read_quic_stream_preamble_after_magic r = Err InvalidFrame).
Proof.
  intros Hu Hi. unfold encode_quic_stream_preamble. destruct (_ || _) eqn:E; [done|].
  intros <-%Ok_inj. bool_facts. apply str_is_empty_false in H0. pose proof (slen_nonneg service).
  change (STREAM_QUIC_PREAMBLE_MAGIC ++ _)
    with (STREAM_QUIC_PREAMBLE_MAGIC ++ preamble_tail stream_id service).
  split; [|split].
  - rewrite <- app_assoc. by apply slice_app_front.
  - intros Hp. apply read_preamble_whole; [done..|lia|done].
  - intros k Hk Hp. apply (read_preamble_cut stream_id service); [lia| |].
    + rewrite Hp. replace k with (4 + (k - 4))%nat by lia. rewrite <- take_drop_commute.
      apply prefix_take.
    + pose proof (len_str_bytes service) as Hl. rewrite Hp. unfold len in *.
      rewrite length_drop, length_take_le by lia.
      change (length _) with (8 + length (str_bytes service))%nat in Hk. lia.
Qed.

(** Bytes that have all arrived, as a receive stream. *)
#[local] Instance bytes_recv : RecvStream bytes := {
  recv_read_exact r n :=
    if len r <? n then None else Some (slice 0 n r, slice n (len r) r);
}.

#[local] Instance bytes_recv_laws : RecvStreamLaws bytes id.
Proof.
  split; unfold id; cbn; intros r n Hn.
  - rewrite (proj2 (Z.ltb_ge _ _)) by lia. eauto.
  - by rewrite (proj2 (Z.ltb_lt _ _)) by lia.
Qed.

(** ** Relay tokens *)

(** The characters of a decimal number. *)
Fixpoint no_colon (s : string) : bool :=
  match s with
  | EmptyString => true
  | String.String c s => negb (bool_decide (c = ":"%char)) && no_colon s
  end.

Lemma pretty_char_no_colon n : pretty_N_char n <> ":"%char.
Proof. unfold pretty_N_char. by repeat destruct_match_goal. Qed.

Lemma pretty_go_no_colon n s : no_colon s = true -> no_colon (pretty_N_go n s) = true.
Proof.
  revert s. induction (N.lt_wf_0 n) as [n _ IH]. intros s Hs.
  destruct (decide (n = 0)%N) as [->|Hn]; [done|].
  rewrite pretty_N_go_step by lia. apply IH; [apply N.div_lt; lia|].
  cbn. by rewrite bool_decide_eq_false_2 by apply pretty_char_no_colon.
Qed.

Lemma pretty_Z_no_colon z : 0 <= z -> no_colon (pretty z) = true.
Proof.
  intros Hz. destruct z as [|p|p]; [done| |lia]. unfold pretty. cbn. unfold pretty_positive, pretty, pretty_N.
  rewrite decide_False by done. by apply pretty_go_no_colon.
Qed.

Lemma no_colon_app s d : no_colon (s ++ String.String ":" d)%string = false.
Proof.
  induction s as [|c s IH]; [done|].
  change (negb (bool_decide (c = ":"%char)) && no_colon (s ++ String.String ":" d)%string = false).
  rewrite IH. apply andb_false_r.
Qed.

Lemma split_at_colon s1 s2 d1 d2 :
  no_colon d1 = true -> no_colon d2 = true ->
  (s1 ++ String.String ":" d1)%string = (s2 ++ String.String ":" d2)%string -> s1 = s2 /\ d1 = d2.
Proof.
  intros H1 H2. revert s2. induction s1 as [|c s1 IH]; intros [|c2 s2]; cbn.
  - by intros [= ->].
  - intros [= <- ->]. by rewrite no_colon_app in H1.
  - intros [= -> <-]. by rewrite no_colon_app in H2.
  - intros [= -> E]. by destruct (IH _ E) as [-> ->].
Qed.

(** A Relay token identifies one stream: two streams with the same token
    have the same opener and the same identifier, even when peer names
    contain colons and digits. *)
Lemma relay_token_injective opener1 opener2 id1 id2 :
  is_u16 id1 -> is_u16 id2 ->
  stream_relay_token opener1 id1 = stream_relay_token opener2 id2 ->
  opener1 = opener2 /\ id1 = id2.
Proof.
  intros [H1 _] [H2 _] H. unfold stream_relay_token in H. cbn in H.
  injection H as H. apply split_at_colon in H as [-> H]; [|by apply pretty_Z_no_colon..].
  split; [done|]. by apply (inj pretty).
Qed.
