(* ===== verification/StreamManager.v ===== *)
(** * Reliable streams: the per-peer manager

    Models [stream/entry.rs], [manager_registry.rs] and [manager_buffer.rs]:
    the registry of logical streams of one peer, their bounded receive buffers
    and their send state.  An operation that holds the manager's lock once is
    a function of the state; the waiting loops of [handle_bytes],
    [drain_events] and [receive] are split at their awaits, one function per
    turn of the loop, whose result says whether the turn returned or waits for
    the next wake-up. *)
From S2P Require Import Prelude StreamCodec.

Inductive StreamConsumer := EventConsumer | BridgeConsumer | PollConsumer.
Inductive StreamOpener := Local | Remote.

#[export] Instance StreamConsumer_eq_dec : EqDecision StreamConsumer.
Proof. solve_decision. Defined.
#[export] Instance StreamOpener_eq_dec : EqDecision StreamOpener.
Proof. solve_decision. Defined.

Record StreamKey := mkStreamKey { sk_opener : StreamOpener; sk_stream_id : Z }.

#[export] Instance StreamKey_eq_dec : EqDecision StreamKey.
Proof. solve_decision. Defined.
Definition key_pair (k : StreamKey) : bool * Z :=
  (match sk_opener k with Local => true | Remote => false end, sk_stream_id k).
Definition pair_key (p : bool * Z) : StreamKey :=
  mkStreamKey (if p.1 then Local else Remote) p.2.
#[export] Program Instance StreamKey_countable : Countable StreamKey :=
  inj_countable' key_pair pair_key _.
Next Obligation. by intros [[] ?]. Qed.

Definition MAX_RETIRED_STREAM_KEYS : Z := 131072.

Definition validate_peer (peer_id : string) : bool :=
  negb (str_is_empty peer_id) && (slen peer_id <=? 128).

(** A QUIC send half and a path lease are handles of other components. *)
Record SendStream := mkSendStream { send_handle : Z }.
Record PathLease := mkPathLease { lease_handle : Z }.

Record StreamEntry := mkEntry {
  consumer : StreamConsumer;
  recv_chunks : list bytes;
  recv_bytes : Z;
  recv_closed : bool;
  next_recv_seq : Z;
  wake_gen : Z;
  quic_send : option SendStream;
  next_send_seq : Z;
  send_closed : bool;
  path_lease : option PathLease;
}.

Record StreamState := mkStreams {
  streams : gmap StreamKey StreamEntry;
  retired : gset StreamKey;
}.

Section Manager.
Context {H : HashOrder StreamKey StreamEntry}.

Definition state_default : StreamState := mkStreams ∅ ∅.

Definition put_entry (key : StreamKey) (e : StreamEntry) (state : StreamState) : StreamState :=
  mkStreams (<[key := e]> (streams state)) (retired state).

(** [state.streams.remove(&key)] with the tombstone. *)
Definition retire (key : StreamKey) (state : StreamState) : StreamState :=
  mkStreams (delete key (streams state))
    (if Z.of_nat (size (retired state)) <? MAX_RETIRED_STREAM_KEYS
     then {[key]} ∪ retired state else retired state).

(** The field assignments of the source. *)
Definition set_recv (chunks : list bytes) (n : Z) (seq : Z) (e : StreamEntry) : StreamEntry :=
  mkEntry (consumer e) chunks n (recv_closed e) seq (wake_gen e) (quic_send e) (next_send_seq e)
    (send_closed e) (path_lease e).
Definition set_closed (recv send : bool) (e : StreamEntry) : StreamEntry :=
  mkEntry (consumer e) (recv_chunks e) (recv_bytes e) recv (next_recv_seq e) (wake_gen e)
    (quic_send e) (next_send_seq e) send (path_lease e).
Definition set_quic (send : option SendStream) (e : StreamEntry) : StreamEntry :=
  mkEntry (consumer e) (recv_chunks e) (recv_bytes e) (recv_closed e) (next_recv_seq e)
    (wake_gen e) send (next_send_seq e) (send_closed e) (path_lease e).
Definition set_send_seq (seq : Z) (e : StreamEntry) : StreamEntry :=
  mkEntry (consumer e) (recv_chunks e) (recv_bytes e) (recv_closed e) (next_recv_seq e)
    (wake_gen e) (quic_send e) seq (send_closed e) (path_lease e).
Definition set_lease (lease : option PathLease) (e : StreamEntry) : StreamEntry :=
  mkEntry (consumer e) (recv_chunks e) (recv_bytes e) (recv_closed e) (next_recv_seq e)
    (wake_gen e) (quic_send e) (next_send_seq e) (send_closed e) lease.
Definition wake (e : StreamEntry) : StreamEntry :=
  mkEntry (consumer e) (recv_chunks e) (recv_bytes e) (recv_closed e) (next_recv_seq e)
    (wake_gen e + 1) (quic_send e) (next_send_seq e) (send_closed e) (path_lease e).

(** ** Registry ([manager_registry.rs]) *)

Definition active_count (state : StreamState) : Z := Z.min (map_len (streams state)) u32_max.

Definition open (opener : StreamOpener) (stream_id : Z) (service : string)
    (consumer : StreamConsumer) : SE StreamState StreamError unit := fun state =>
  if str_is_empty service || (MAX_SERVICE_BYTES <? slen service)
  then (Err StreamInvalidArgument, state) else
  if MAX_CONCURRENT_STREAMS <=? map_len (streams state)
  then (Err StreamCapacityExceeded, state) else
  let key := mkStreamKey opener stream_id in
  if bool_decide (is_Some (streams state !! key)) then (Err AlreadyOpen, state) else
  if bool_decide (key ∈ retired state) then (Err StreamClosed, state) else
  if MAX_RETIRED_STREAM_KEYS <=? Z.of_nat (size (retired state))
  then (Err StreamCapacityExceeded, state) else
  (Ok tt, put_entry key (mkEntry consumer [] 0 false 0 0 None 0 false None) state).

Definition handle_open := open.

Definition bind_lease (opener : StreamOpener) (stream_id : Z) (lease : PathLease) :
    SE StreamState StreamError unit := fun state =>
  let key := mkStreamKey opener stream_id in
  match streams state !! key with
  | None => (Err StreamNotFound, state)
  | Some e =>
    match path_lease e with
    | Some _ => (Err AlreadyOpen, state)
    | None => (Ok tt, put_entry key (set_lease (Some lease) e) state)
    end
  end.

Definition take_lease (opener : StreamOpener) (stream_id : Z) :
    SE StreamState StreamError PathLease := fun state =>
  let key := mkStreamKey opener stream_id in
  match streams state !! key with
  | None => (Err StreamNotFound, state)
  | Some e =>
    if send_closed e then (Err StreamClosed, state) else
    match path_lease e with
    | None => (Err StreamNotConnected, state)
    | Some lease => (Ok lease, put_entry key (set_lease None e) state)
    end
  end.

Definition restore_lease (opener : StreamOpener) (stream_id : Z) (lease : PathLease)
    (state : StreamState) : bool * StreamState :=
  let key := mkStreamKey opener stream_id in
  match streams state !! key with
  | None => (false, state)
  | Some e =>
    if recv_closed e || match path_lease e with Some _ => true | None => false end
    then (false, state)
    else (true, put_entry key (set_lease (Some lease) e) state)
  end.

(** [handle_close] and [close_local] always return [Ok(())]. *)
Definition handle_close (opener : StreamOpener) (stream_id : Z) (state : StreamState) :
    StreamState :=
  let key := mkStreamKey opener stream_id in
  match streams state !! key with
  | None => state
  | Some e =>
    if recv_closed e then state else
    let e := wake (set_closed true (send_closed e) e) in
    if send_closed e then retire key (put_entry key e state) else put_entry key e state
  end.

Definition close_local (opener : StreamOpener) (stream_id : Z) (state : StreamState) :
    StreamState :=
  let key := mkStreamKey opener stream_id in
  match streams state !! key with
  | None => state
  | Some e =>
    if send_closed e then state else
    let e := wake (set_closed (recv_closed e) true e) in
    if recv_closed e then retire key (put_entry key e state) else put_entry key e state
  end.

Definition is_open (opener : StreamOpener) (stream_id : Z) (state : StreamState) : bool :=
  bool_decide (is_Some (streams state !! mkStreamKey opener stream_id)).

(** [close_all] and [close_inactive] return the identities, for each of which
    a closed event is emitted. *)
Definition close_all (state : StreamState) : list StreamKey * StreamState :=
  ((hash_iter (streams state)).*1, mkStreams ∅ (retired state ∪ dom (streams state))).

Definition close_inactive (is_active : PathLease -> bool) (state : StreamState) :
    list StreamKey * StreamState :=
  let ids :=
    (List.filter (fun kv => match path_lease kv.2 with
                            | Some lease => negb (is_active lease)
                            | None => false
                            end) (hash_iter (streams state))).*1 in
  (ids, foldl (fun state key => retire key state) state ids).

(** The identity of the opener in a closed event. *)
Definition opener_device (peer_id local_opener_device_id : string) (key : StreamKey) : string :=
  match sk_opener key with Local => local_opener_device_id | Remote => peer_id end.

(** ** Sending ([manager_buffer.rs]) *)

Definition register_quic_send (opener : StreamOpener) (stream_id : Z) (send : SendStream) :
    SE StreamState StreamError unit := fun state =>
  let key := mkStreamKey opener stream_id in
  match streams state !! key with
  | None => (Err StreamNotFound, state)
  | Some e => (Ok tt, put_entry key (set_quic (Some send) e) state)
  end.

(** [send_guard]: the check made before the stream's send mutex is taken. *)
Definition send_guard (opener : StreamOpener) (stream_id : Z) (state : StreamState) :
    result unit StreamError :=
  match streams state !! mkStreamKey opener stream_id with
  | None => Err StreamNotFound
  | Some e => if send_closed e then Err StreamClosed else Ok tt
  end.

Definition next_send_seq_of (opener : StreamOpener) (stream_id : Z) (state : StreamState) :
    result Z StreamError :=
  match streams state !! mkStreamKey opener stream_id with
  | None => Err StreamNotFound
  | Some e => if send_closed e then Err StreamClosed else Ok (next_send_seq e)
  end.

Definition bump_send_seq (opener : StreamOpener) (stream_id : Z) (count : Z) :
    SE StreamState StreamError unit := fun state =>
  let key := mkStreamKey opener stream_id in
  match streams state !! key with
  | None => (Err StreamNotFound, state)
  | Some e =>
    if send_closed e then (Err StreamClosed, state)
    else (Ok tt, put_entry key (set_send_seq (next_send_seq e + count) e) state)
  end.

(** [quic_send_bytes] around its await: the send half is taken out, and put
    back when the write succeeded and the stream is still open. *)
Definition quic_send_take (opener : StreamOpener) (stream_id : Z) :
    SE StreamState StreamError SendStream := fun state =>
  let key := mkStreamKey opener stream_id in
  match streams state !! key with
  | None => (Err StreamNotFound, state)
  | Some e =>
    if send_closed e then (Err StreamClosed, state) else
    match quic_send e with
    | None => (Err StreamClosed, state)
    | Some send => (Ok send, put_entry key (set_quic None e) state)
    end
  end.

Definition quic_send_put (opener : StreamOpener) (stream_id : Z) (send : SendStream)
    (written : bool) : SE StreamState StreamError unit := fun state =>
  let key := mkStreamKey opener stream_id in
  let done := if written then Ok tt else Err StreamClosed in
  match streams state !! key with
  | None => (done, state)
  | Some e =>
    if send_closed e then (Err StreamClosed, state) else
    (done, if written then put_entry key (set_quic (Some send) e) state else state)
  end.

Definition quic_finish_send (opener : StreamOpener) (stream_id : Z) :
    SE StreamState StreamError unit := fun state =>
  let key := mkStreamKey opener stream_id in
  match streams state !! key with
  | None => (Err StreamNotFound, state)
  | Some e =>
    if send_closed e then (Ok tt, state) else
    match quic_send e with
    | None => (Err StreamClosed, state)
    | Some _ => (Ok tt, put_entry key (set_quic None e) state)
    end
  end.

(** ** Receiving ([manager_buffer.rs]) *)

(** One turn of the first loop of [handle_bytes]. *)
Inductive BytesTurn :=
| BytesReturn (r : result unit StreamError)
| BytesStored (after : Z)
| BytesWait.

Definition handle_bytes_turn (opener : StreamOpener) (stream_id seq : Z) (data : bytes)
    (state : StreamState) : BytesTurn * StreamState :=
  let key := mkStreamKey opener stream_id in
  match streams state !! key with
  | None => (BytesReturn (Err StreamNotFound), state)
  | Some e =>
    if recv_closed e || send_closed e then (BytesReturn (Ok tt), state) else
    if negb (seq =? next_recv_seq e) then
      if seq <? next_recv_seq e then (BytesReturn (Ok tt), state)
      else (BytesReturn (Err InvalidFrame), state)
    else
    if recv_bytes e + len data <=? MAX_PER_STREAM_BUFFER_CAPACITY then
      let after := recv_bytes e + len data in
      (BytesStored after,
       put_entry key (wake (set_recv (recv_chunks e ++ [data]) after (next_recv_seq e + 1) e)) state)
    else (BytesWait, state)
  end.

(** One turn of the second loop: whether [handle_bytes] returns. *)
Definition handle_bytes_drained (opener : StreamOpener) (stream_id after : Z)
    (state : StreamState) : bool :=
  match streams state !! mkStreamKey opener stream_id with
  | None => true
  | Some e => negb (bool_decide (consumer e = EventConsumer)) || (recv_bytes e <? after)
  end.

(** One turn of [drain_events]. *)
Inductive DrainTurn :=
| DrainGone
| DrainEvent (chunk : bytes)
| DrainClosed
| DrainWait.

Definition drain_events_turn (opener : StreamOpener) (stream_id : Z) (state : StreamState) :
    DrainTurn * StreamState :=
  let key := mkStreamKey opener stream_id in
  match streams state !! key with
  | None => (DrainGone, state)
  | Some e =>
    match recv_chunks e with
    | chunk :: rest =>
      (DrainEvent chunk,
       put_entry key (wake (set_recv rest (recv_bytes e - len chunk) (next_recv_seq e) e)) state)
    | [] => if recv_closed e then (DrainClosed, state) else (DrainWait, state)
    end
  end.

(** The loop that fills the caller's buffer of [n] bytes: what is copied and
    the chunks that remain. *)
Fixpoint fill (n : Z) (chunks : list bytes) : bytes * list bytes :=
  if n <=? 0 then ([], chunks) else
  match chunks with
  | [] => ([], [])
  | chunk :: rest =>
    let take := Z.min (len chunk) n in
    if take =? len chunk then
      let '(out, rest) := fill (n - take) rest in (slice 0 take chunk ++ out, rest)
    else (slice 0 take chunk, slice take (len chunk) chunk :: rest)
  end.

(** One turn of [receive] with a buffer of [n] bytes. *)
Inductive ReceiveTurn :=
| ReceiveReturn (r : result bytes StreamError)
| ReceiveWait.

Definition receive_turn (opener : StreamOpener) (stream_id n : Z) (state : StreamState) :
    ReceiveTurn * StreamState :=
  let key := mkStreamKey opener stream_id in
  match streams state !! key with
  | None => (ReceiveReturn (Err StreamNotFound), state)
  | Some e =>
    if bool_decide (consumer e = EventConsumer)
    then (ReceiveReturn (Err StreamInvalidArgument), state) else
    let '(out, rest) := fill n (recv_chunks e) in
    let state := put_entry key (set_recv rest (recv_bytes e) (next_recv_seq e) e) state in
    if 0 <? len out then
      (ReceiveReturn (Ok out),
       put_entry key (wake (set_recv rest (recv_bytes e - len out) (next_recv_seq e) e)) state)
    else if recv_closed e then (ReceiveReturn (Ok []), state)
    else (ReceiveWait, state)
  end.
End Manager.
