(* ===== verification/StreamProofs.v ===== *)
(** * Reliable streams: theorems about the manager

    Schedules of the manager's operations and of the turns of its waiting
    loops, in any interleaving of readers, writers, drainers and closers: the
    invariant, identities that are never reused, the first-in first-out
    behaviour of a stream's bytes, wake-ups that are never lost, and the
    absence of a state in which the writer and the reader wait for each
    other. *)
From S2P Require Import Prelude StreamCodec StreamManager.

Inductive stream_op :=
| SOpen (opener : StreamOpener) (stream_id : Z) (service : string) (c : StreamConsumer)
| SBindLease (opener : StreamOpener) (stream_id : Z) (lease : PathLease)
| STakeLease (opener : StreamOpener) (stream_id : Z)
| SRestoreLease (opener : StreamOpener) (stream_id : Z) (lease : PathLease)
| SHandleClose (opener : StreamOpener) (stream_id : Z)
| SCloseLocal (opener : StreamOpener) (stream_id : Z)
| SCloseAll
| SCloseInactive (is_active : PathLease -> bool)
| SRegisterQuic (opener : StreamOpener) (stream_id : Z) (send : SendStream)
| SBumpSeq (opener : StreamOpener) (stream_id count : Z)
| SQuicTake (opener : StreamOpener) (stream_id : Z)
| SQuicPut (opener : StreamOpener) (stream_id : Z) (send : SendStream) (written : bool)
| SQuicFinish (opener : StreamOpener) (stream_id : Z)
| SBytes (opener : StreamOpener) (stream_id seq : Z) (data : bytes)
| SDrain (opener : StreamOpener) (stream_id : Z)
| SReceive (opener : StreamOpener) (stream_id n : Z).

(** What a step did, as seen from outside. *)
Inductive stream_event :=
| EvOpened (key : StreamKey)
| EvStored (key : StreamKey) (seq : Z) (data : bytes)
| EvDelivered (key : StreamKey) (out : bytes).

Section Schedule.
Context {H : HashOrder StreamKey StreamEntry}.

Definition stream_step (op : stream_op) (s : StreamState) : list stream_event * StreamState :=
  match op with
  | SOpen o id service c =>
    match open o id service c s with
    | (Ok _, s') => ([EvOpened (mkStreamKey o id)], s')
    | (Err _, s') => ([], s')
    end
  | SBindLease o id lease => ([], (bind_lease o id lease s).2)
  | STakeLease o id => ([], (take_lease o id s).2)
  | SRestoreLease o id lease => ([], (restore_lease o id lease s).2)
  | SHandleClose o id => ([], handle_close o id s)
  | SCloseLocal o id => ([], close_local o id s)
  | SCloseAll => ([], (close_all s).2)
  | SCloseInactive is_active => ([], (close_inactive is_active s).2)
  | SRegisterQuic o id send => ([], (register_quic_send o id send s).2)
  | SBumpSeq o id count => ([], (bump_send_seq o id count s).2)
  | SQuicTake o id => ([], (quic_send_take o id s).2)
  | SQuicPut o id send written => ([], (quic_send_put o id send written s).2)
  | SQuicFinish o id => ([], (quic_finish_send o id s).2)
  | SBytes o id seq data =>
    match handle_bytes_turn o id seq data s with
    | (BytesStored _, s') => ([EvStored (mkStreamKey o id) seq data], s')
    | (_, s') => ([], s')
    end
  | SDrain o id =>
    match drain_events_turn o id s with
    | (DrainEvent chunk, s') => ([EvDelivered (mkStreamKey o id) chunk], s')
    | (_, s') => ([], s')
    end
  | SReceive o id n =>
    match receive_turn o id n s with
    | (ReceiveReturn (Ok (b :: out)), s') => ([EvDelivered (mkStreamKey o id) (b :: out)], s')
    | (_, s') => ([], s')
    end
  end.

Fixpoint stream_run (ops : list stream_op) (s : StreamState) : list stream_event * StreamState :=
  match ops with
  | [] => ([], s)
  | op :: ops =>
    let '(ev, s1) := stream_step op s in
    let '(evs, s2) := stream_run ops s1 in (ev ++ evs, s2)
  end.

(** ** Atomic changes *)

Definition total (chunks : list bytes) : Z := len (concat chunks).

(** A change of an entry that neither stores nor delivers: the bytes waiting
    are the same, and whoever could go on because of it is woken. *)
Record calm (e e' : StreamEntry) : Prop := {
  ca_consumer : consumer e' = consumer e;
  ca_chunks : concat (recv_chunks e') = concat (recv_chunks e);
  ca_bytes : recv_bytes e' = recv_bytes e;
  ca_seq : next_recv_seq e' = next_recv_seq e;
  ca_gen : wake_gen e <= wake_gen e';
  ca_half : recv_closed e' && send_closed e' = false;
  ca_wake : wake_gen e' = wake_gen e ->
    recv_closed e' = recv_closed e /\ send_closed e' = send_closed e /\
    (consumer e = EventConsumer -> recv_chunks e' = recv_chunks e);
}.

Definition fresh_entry (c : StreamConsumer) : StreamEntry :=
  mkEntry c [] 0 false 0 0 None 0 false None.

Inductive stream_atom (s : StreamState) : list stream_event -> StreamState -> Prop :=
| at_same : stream_atom s [] s
| at_open k c :
    map_len (streams s) < MAX_CONCURRENT_STREAMS -> streams s !! k = None -> k ∉ retired s ->
    is_u16 (sk_stream_id k) ->
    stream_atom s [EvOpened k] (put_entry k (fresh_entry c) s)
| at_calm k e e' :
    streams s !! k = Some e -> calm e e' -> stream_atom s [] (put_entry k e' s)
| at_store k e data :
    streams s !! k = Some e -> recv_closed e = false -> send_closed e = false ->
    recv_bytes e + len data <= MAX_PER_STREAM_BUFFER_CAPACITY ->
    stream_atom s [EvStored k (next_recv_seq e) data]
      (put_entry k (wake (set_recv (recv_chunks e ++ [data]) (recv_bytes e + len data)
                            (next_recv_seq e + 1) e)) s)
| at_deliver k e out rest :
    streams s !! k = Some e -> concat (recv_chunks e) = out ++ concat rest ->
    stream_atom s [EvDelivered k out]
      (put_entry k (wake (set_recv rest (recv_bytes e - len out) (next_recv_seq e) e)) s)
| at_retire k e : streams s !! k = Some e -> stream_atom s [] (retire k s)
| at_clear : stream_atom s [] (mkStreams ∅ (retired s ∪ dom (streams s))).

Inductive stream_atoms : StreamState -> list stream_event -> StreamState -> Prop :=
| ats_nil s : stream_atoms s [] s
| ats_cons s ev s1 evs s2 :
    stream_atom s ev s1 -> stream_atoms s1 evs s2 -> stream_atoms s (ev ++ evs) s2.

Lemma stream_atoms_one s ev s' : stream_atom s ev s' -> stream_atoms s ev s'.
Proof. intros Ha. rewrite <- (app_nil_r ev). by eapply ats_cons, ats_nil. Qed.

Lemma stream_atoms_app s ev1 s1 ev2 s2 :
  stream_atoms s ev1 s1 -> stream_atoms s1 ev2 s2 -> stream_atoms s (ev1 ++ ev2) s2.
Proof.
  induction 1 as [|s ev s1 evs s2' Ha _ IH]; [done|]. intros H2. rewrite <- app_assoc.
  by eapply ats_cons; [|apply IH].
Qed.

(** ** The invariant *)

Record entry_ok (e : StreamEntry) : Prop := {
  eo_bytes : recv_bytes e = total (recv_chunks e);
  eo_bound : recv_bytes e <= MAX_PER_STREAM_BUFFER_CAPACITY;
  eo_half : recv_closed e && send_closed e = false;
  eo_seq : 0 <= next_recv_seq e;
}.

Record stream_inv (s : StreamState) : Prop := {
  sv_count : map_len (streams s) <= MAX_CONCURRENT_STREAMS;
  sv_entries : forall k e, streams s !! k = Some e -> entry_ok e;
  sv_disjoint : forall k, is_Some (streams s !! k) -> k ∉ retired s;
  sv_ids : forall k, is_Some (streams s !! k) \/ k ∈ retired s -> is_u16 (sk_stream_id k);
}.

Lemma stream_inv_default : stream_inv state_default.
Proof.
  constructor; cbn.
  - rewrite map_len_empty. by unfold MAX_CONCURRENT_STREAMS.
  - intros k e. by rewrite lookup_empty.
  - intros k [e He]. by rewrite lookup_empty in He.
  - intros k [[e He]|Hk]; [by rewrite lookup_empty in He|set_solver].
Qed.

(** Changing an entry that is there. *)
Lemma stream_inv_put s k e e' :
  stream_inv s -> streams s !! k = Some e -> entry_ok e' -> stream_inv (put_entry k e' s).
Proof.
  intros [Hc He Hd Hi] Hk Hok. constructor; cbn.
  - by rewrite map_len_insert_old by by exists e.
  - intros j x [[<- <-]|[_ Hj]]%lookup_insert_Some; [done|by eapply He].
  - intros j [x [[<- _]|[_ Hj]]%lookup_insert_Some]; apply Hd; [by exists e|by exists x].
  - intros j [[x [[<- _]|[_ Hj]]%lookup_insert_Some]|Hj]; apply Hi; [left; by exists e|left; by exists x|by right].
Qed.

Lemma stream_inv_sub s s' :
  stream_inv s -> streams s' ⊆ streams s ->
  (forall k, k ∈ retired s' -> is_u16 (sk_stream_id k)) ->
  (forall k, is_Some (streams s' !! k) -> k ∉ retired s') -> stream_inv s'.
Proof.
  intros [Hc He Hd Hi] Hsub Hr Hdis. constructor.
  - etrans; [|exact Hc]. apply inj_le. by apply map_subseteq_size.
  - intros k e Hk. eapply He, lookup_weaken; done.
  - done.
  - intros k [[e Hk]|Hk]; [|by apply Hr]. apply Hi. left. exists e. by eapply lookup_weaken.
Qed.

(** The identities with numbers below [n]. *)
Definition all_keys (n : Z) : list StreamKey :=
  (mkStreamKey Local <$> seqZ 0 n) ++ (mkStreamKey Remote <$> seqZ 0 n).

Lemma elem_of_all_keys n k : 0 <= sk_stream_id k < n -> k ∈ all_keys n.
Proof.
  intros Hid. unfold all_keys. destruct k as [[] id]; cbn in *;
    apply elem_of_app; [left|right]; apply list_elem_of_fmap; exists id;
    (split; [done|]); apply elem_of_seqZ; lia.
Qed.

Lemma NoDup_all_keys n : NoDup (all_keys n).
Proof.
  apply NoDup_app. split; [apply NoDup_fmap_2; [by intros ? ? [= ->]|apply NoDup_seqZ]|].
  split; [|apply NoDup_fmap_2; [by intros ? ? [= ->]|apply NoDup_seqZ]].
  intros k (x & -> & _)%list_elem_of_fmap (y & ? & _)%list_elem_of_fmap. done.
Qed.

Lemma keys_below n (K : gset StreamKey) :
  0 <= n -> (forall k, k ∈ K -> 0 <= sk_stream_id k < n) -> Z.of_nat (size K) <= 2 * n.
Proof.
  intros Hn HK.
  assert (Hsub : K ⊆ list_to_set (all_keys n)).
  { intros k Hk. apply elem_of_list_to_set, elem_of_all_keys, HK, Hk. }
  apply subseteq_size in Hsub. rewrite size_list_to_set in Hsub by apply NoDup_all_keys.
  unfold all_keys in Hsub. rewrite length_app, !length_fmap, !length_seqZ in Hsub. lia.
Qed.

Lemma keys_bounded (K : gset StreamKey) :
  (forall k, k ∈ K -> is_u16 (sk_stream_id k)) -> Z.of_nat (size K) <= MAX_RETIRED_STREAM_KEYS.
Proof.
  intros HK. apply (keys_below 65536); [done|]. intros k Hk. destruct (HK k Hk) as [H1 H2].
  unfold u16_max in H2. lia.
Qed.

(** There is always room for the tombstone of a stream. *)
Lemma tombstone_room s k :
  stream_inv s -> is_Some (streams s !! k) ->
  Z.of_nat (size (retired s)) < MAX_RETIRED_STREAM_KEYS.
Proof.
  intros [_ _ Hd Hi] Hk. pose proof (Hd k Hk) as Hnot.
  assert (Hb := keys_bounded ({[k]} ∪ retired s)).
  rewrite size_union, size_singleton in Hb by set_solver.
  rewrite Nat2Z.inj_add in Hb. assert (Z.of_nat 1 + Z.of_nat (size (retired s)) <= MAX_RETIRED_STREAM_KEYS);
    [|lia].
  apply Hb. intros j [->%elem_of_singleton|Hj]%elem_of_union; apply Hi; [by left|by right].
Qed.

Lemma retire_eq s k :
  stream_inv s -> is_Some (streams s !! k) ->
  retire k s = mkStreams (delete k (streams s)) ({[k]} ∪ retired s).
Proof.
  intros Hinv Hk. unfold retire. by rewrite (proj2 (Z.ltb_lt _ _) (tombstone_room s k Hinv Hk)).
Qed.

Lemma stream_inv_atom s ev s' : stream_inv s -> stream_atom s ev s' -> stream_inv s'.
Proof.
  intros Hinv Ha. pose proof Hinv as [Hc He Hd Hi].
  destruct Ha as [|k c Hlt Hk Hr Hid|k e e' Hk Hca|k e data Hk Hrc Hsc Hb|k e out rest Hk Hco|k e Hk|].
  - done.
  - constructor; cbn.
    + rewrite map_len_insert_new by done. lia.
    + intros j x [[<- <-]|[_ Hj]]%lookup_insert_Some; [|by eapply He]. constructor; cbn; try done.
    + intros j [x [[<- _]|[_ Hj]]%lookup_insert_Some]; [done|]. apply Hd. by exists x.
    + intros j [[x [[<- _]|[_ Hj]]%lookup_insert_Some]|Hj]; [done|apply Hi; left; by exists x|apply Hi; by right].
  - destruct (He _ _ Hk) as [E1 E2 E3 E4]. eapply stream_inv_put; [done|done|].
    constructor; rewrite ?(ca_bytes _ _ Hca), ?(ca_seq _ _ Hca); try done.
    + unfold total. by rewrite (ca_chunks _ _ Hca).
    + apply (ca_half _ _ Hca).
  - destruct (He _ _ Hk) as [E1 E2 E3 E4]. eapply stream_inv_put; [done|done|].
    constructor; cbn; try done; [|lia]. unfold total in *. rewrite concat_app, len_app. cbn.
    rewrite app_nil_r. lia.
  - destruct (He _ _ Hk) as [E1 E2 E3 E4]. eapply stream_inv_put; [done|done|].
    unfold total in E1. rewrite Hco, len_app in E1. pose proof (len_nonneg out).
    constructor; cbn; try done; unfold total; lia.
  - rewrite retire_eq by (done || by exists e). eapply stream_inv_sub; cbn; [done|apply delete_subseteq| |].
    + intros j [->%elem_of_singleton|Hj]%elem_of_union; apply Hi; [left; by exists e|by right].
    + intros j [x [Hne Hj]%lookup_delete_Some]. pose proof (Hd j ltac:(by exists x)). set_solver.
  - eapply stream_inv_sub; cbn; [done|apply map_empty_subseteq| |].
    + intros j [Hj|[x Hj]%elem_of_dom]%elem_of_union; apply Hi; [by right|left; by exists x].
    + intros j [x Hj]. by rewrite lookup_empty in Hj.
Qed.

Lemma stream_inv_atoms s ev s' : stream_inv s -> stream_atoms s ev s' -> stream_inv s'.
Proof. induction 2 as [|s ev s1 evs s2 Ha _ IH]; [done|]. apply IH. by eapply stream_inv_atom. Qed.

(** ** Operations as atomic changes *)

(** The streams of an operation have 16-bit numbers. *)
Definition stream_op_ok (op : stream_op) : Prop :=
  match op with SOpen _ id _ _ => is_u16 id | _ => True end.

Lemma calm_refl_like (e e' : StreamEntry) :
  entry_ok e -> consumer e' = consumer e -> recv_chunks e' = recv_chunks e ->
  recv_bytes e' = recv_bytes e -> next_recv_seq e' = next_recv_seq e -> wake_gen e' = wake_gen e ->
  recv_closed e' = recv_closed e -> send_closed e' = send_closed e -> calm e e'.
Proof.
  intros [_ _ Hh _] E1 E2 E3 E4 E5 E6 E7. constructor; rewrite ?E2, ?E5, ?E6, ?E7; done.
Qed.

Lemma calm_closed (e : StreamEntry) recv send :
  recv && send = false -> calm e (wake (set_closed recv send e)).
Proof. intros Hh. constructor; cbn; try done; lia. Qed.

Lemma retire_put k e s : retire k (put_entry k e s) = retire k s.
Proof. unfold retire, put_entry. cbn. by rewrite delete_insert_eq. Qed.

Lemma fill_spec n chunks :
  concat chunks = (fill n chunks).1 ++ concat (fill n chunks).2.
Proof.
  revert n. induction chunks as [|c cs IH]; intros n; cbn [fill]; [by destruct (n <=? 0)|].
  destruct (n <=? 0) eqn:En; [done|]. destruct (_ =? len c) eqn:E; bool_facts.
  - specialize (IH (n - Z.min (len c) n)). destruct (fill _ cs) as [out rest].
    cbn in *. rewrite IH, app_assoc. f_equal. rewrite slice_all by done. done.
  - cbn. rewrite app_assoc. f_equal. pose proof (len_nonneg c).
    rewrite <- slice_split by lia. by rewrite slice_all.
Qed.

Lemma fill_len n chunks : 0 <= n -> len (fill n chunks).1 = Z.min n (total chunks).
Proof.
  revert n. induction chunks as [|c cs IH]; intros n Hn; cbn [fill].
  - change (total []) with 0. destruct (n <=? 0); cbn [fst]; rewrite len_nil; lia.
  - unfold total in *. cbn [concat]. rewrite len_app. pose proof (len_nonneg c).
    pose proof (len_nonneg (concat cs)). destruct (n <=? 0) eqn:En; bool_facts;
      [cbn [fst]; rewrite len_nil; lia|].
    destruct (_ =? len c) eqn:E; bool_facts.
    + specialize (IH (n - Z.min (len c) n) ltac:(lia)). destruct (fill _ cs) as [out rest].
      cbn [fst] in *. rewrite len_app, IH, len_slice; lia.
    + cbn [fst]. rewrite len_slice; lia.
Qed.

Lemma retire_all_atoms ids s :
  stream_inv s -> NoDup ids -> (forall k, k ∈ ids -> is_Some (streams s !! k)) ->
  stream_atoms s [] (foldl (fun s k => retire k s) s ids).
Proof.
  revert s. induction ids as [|k ids IH]; intros s Hinv Hnd Hin; [constructor|].
  apply NoDup_cons in Hnd as [Hk Hnd]. destruct (Hin k) as [e He]; [by left|].
  assert (Ha : stream_atom s [] (retire k s)) by by eapply at_retire.
  apply (ats_cons s [] (retire k s) []); [done|]. apply IH; [by eapply stream_inv_atom|done|].
  intros j Hj. cbn. rewrite lookup_delete_ne by set_solver. apply Hin. by right.
Qed.

Lemma bytes_atoms o id seq data s :
  stream_atoms s (stream_step (SBytes o id seq data) s).1 (stream_step (SBytes o id seq data) s).2.
Proof.
  cbn [stream_step]. unfold handle_bytes_turn. cbv zeta.
  assert (Hsame : stream_atoms s [] s) by apply stream_atoms_one, at_same.
  destruct (streams s !! _) as [e|] eqn:E; [|done].
  destruct (_ || _) eqn:Ec; [done|]. destruct (negb _) eqn:Eq; [by destruct (_ <? _)|].
  destruct (_ <=? _) eqn:Eb; [|done]. bool_facts. subst seq. by apply stream_atoms_one, at_store.
Qed.

Lemma drain_atoms o id s :
  stream_atoms s (stream_step (SDrain o id) s).1 (stream_step (SDrain o id) s).2.
Proof.
  cbn [stream_step]. unfold drain_events_turn. cbv zeta.
  assert (Hsame : stream_atoms s [] s) by apply stream_atoms_one, at_same.
  destruct (streams s !! _) as [e|] eqn:E; [|done].
  destruct (recv_chunks e) as [|chunk rest] eqn:Ech; [by destruct (recv_closed e)|].
  apply stream_atoms_one, at_deliver; [done|]. by rewrite Ech.
Qed.

Lemma put_entry_twice k e e' s : put_entry k e' (put_entry k e s) = put_entry k e' s.
Proof. unfold put_entry. cbn. by rewrite insert_insert_eq. Qed.

(** Reading nothing drops at most empty chunks. *)
Lemma receive_quiet_atoms k e n s :
  stream_inv s -> streams s !! k = Some e -> consumer e <> EventConsumer ->
  len (fill n (recv_chunks e)).1 <= 0 ->
  stream_atom s [] (put_entry k (set_recv (fill n (recv_chunks e)).2 (recv_bytes e)
                                   (next_recv_seq e) e) s).
Proof.
  intros Hinv Hk Hc Hl. eapply at_calm; [done|].
  destruct (sv_entries _ Hinv _ _ Hk) as [_ _ Hh _]. pose proof (fill_spec n (recv_chunks e)) as Hf.
  pose proof (len_nonneg (fill n (recv_chunks e)).1).
  rewrite (len_zero_nil (fill n (recv_chunks e)).1) in Hf by lia.
  constructor; cbn; try done; lia.
Qed.

Lemma receive_atoms o id n s :
  stream_inv s ->
  stream_atoms s (stream_step (SReceive o id n) s).1 (stream_step (SReceive o id n) s).2.
Proof.
  intros Hinv. cbn [stream_step]. unfold receive_turn. cbv zeta.
  assert (Hsame : stream_atoms s [] s) by apply stream_atoms_one, at_same.
  destruct (streams s !! _) as [e|] eqn:E; [|done]. case_bool_decide as Hc; [done|].
  pose proof (fill_spec n (recv_chunks e)) as Hf.
  pose proof (receive_quiet_atoms _ e n s Hinv E Hc) as Hq.
  destruct (fill n (recv_chunks e)) as [out rest]. cbn in Hf, Hq.
  destruct (0 <? len out) eqn:El; bool_facts.
  - rewrite put_entry_twice. destruct out as [|b out]; [done|].
    by apply stream_atoms_one, at_deliver.
  - specialize (Hq ltac:(lia)). by destruct (recv_closed e); apply stream_atoms_one.
Qed.

Lemma close_inactive_atoms is_active s :
  stream_inv s -> stream_atoms s [] (close_inactive is_active s).2.
Proof.
  intros Hinv. unfold close_inactive. cbn [snd]. apply retire_all_atoms; [done| |].
  - apply NoDup_list_filter_fst, NoDup_hash_iter_fst.
  - intros k ([k' e] & -> & Hin)%list_elem_of_fmap. apply list_elem_of_In, filter_In in Hin as [Hin _].
    apply list_elem_of_In, elem_of_hash_iter in Hin. by exists e.
Qed.

(** Operations on leases and send halves, and closing. *)
Ltac quiet_op Hcalm :=
  cbv zeta; repeat destruct_match_goal;
  first [done | eapply Hcalm; [done|]; intros; by apply calm_refl_like].

Lemma close_atoms o id s :
  stream_inv s ->
  stream_atoms s [] (handle_close o id s) /\ stream_atoms s [] (close_local o id s).
Proof.
  intros Hinv. assert (Hsame : stream_atoms s [] s) by apply stream_atoms_one, at_same.
  unfold handle_close, close_local. cbv zeta.
  destruct (streams s !! _) as [e|] eqn:E; [|done]. cbn [send_closed recv_closed wake set_closed].
  split; destruct (recv_closed e) eqn:Er, (send_closed e) eqn:Es; rewrite ?retire_put; try done;
    apply stream_atoms_one; solve [by eapply at_retire|by eapply at_calm, calm_closed].
Qed.

Lemma step_atoms op s :
  stream_inv s -> stream_op_ok op -> stream_atoms s (stream_step op s).1 (stream_step op s).2.
Proof.
  intros Hinv Hok.
  assert (Hsame : stream_atoms s [] s) by apply stream_atoms_one, at_same.
  assert (Hcalm : forall k e e', streams s !! k = Some e -> (entry_ok e -> calm e e') ->
            stream_atoms s [] (put_entry k e' s)).
  { intros k e e' Hk Hc. eapply stream_atoms_one, at_calm; [done|]. apply Hc. by eapply sv_entries. }
  destruct op; cbn [stream_step].
  - unfold open. cbv zeta. destruct (_ || _); [done|].
    destruct (MAX_CONCURRENT_STREAMS <=? _) eqn:Em; [done|].
    case_bool_decide as Hs; [done|]. case_bool_decide as Hr; [done|].
    destruct (MAX_RETIRED_STREAM_KEYS <=? _); [done|].
    bool_facts. apply stream_atoms_one, at_open; try done. by apply eq_None_not_Some.
  - unfold bind_lease. quiet_op Hcalm.
  - unfold take_lease. quiet_op Hcalm.
  - unfold restore_lease. quiet_op Hcalm.
  - by apply close_atoms.
  - by apply close_atoms.
  - apply stream_atoms_one, at_clear.
  - by apply close_inactive_atoms.
  - unfold register_quic_send. quiet_op Hcalm.
  - unfold bump_send_seq. quiet_op Hcalm.
  - unfold quic_send_take. quiet_op Hcalm.
  - unfold quic_send_put. quiet_op Hcalm.
  - unfold quic_finish_send. quiet_op Hcalm.
  - by apply bytes_atoms.
  - by apply drain_atoms.
  - by apply receive_atoms.
Qed.

Lemma run_atoms ops s :
  stream_inv s -> Forall stream_op_ok ops ->
  stream_atoms s (stream_run ops s).1 (stream_run ops s).2.
Proof.
  revert s. induction ops as [|op ops IH]; intros s Hinv Hok; [constructor|].
  apply Forall_cons in Hok as [Ho Hok]. cbn [stream_run].
  pose proof (step_atoms op s Hinv Ho) as H1. destruct (stream_step op s) as [ev s1].
  specialize (IH s1 (stream_inv_atoms _ _ _ Hinv H1) Hok).
  destruct (stream_run ops s1) as [evs s2]. by eapply stream_atoms_app.
Qed.

(** ** Theorems *)

(** Properties of the events so far and the state reached. *)
Lemma atoms_accumulate (Q : list stream_event -> StreamState -> Prop) :
  (forall acc s ev s', stream_inv s -> Q acc s -> stream_atom s ev s' -> Q (acc ++ ev) s') ->
  forall s evs s', stream_inv s -> stream_atoms s evs s' ->
  forall acc, Q acc s -> Q (acc ++ evs) s'.
Proof.
  intros Hstep s evs s' Hinv Hats. induction Hats as [s|s ev s1 evs s2 Ha _ IH]; intros acc HQ.
  - by rewrite app_nil_r.
  - rewrite app_assoc. apply IH; [by eapply stream_inv_atom|]. by eapply Hstep.
Qed.

Definition opened (evs : list stream_event) : list StreamKey :=
  omap (fun ev => match ev with EvOpened k => Some k | _ => None end) evs.

(** The bytes of a stream handed to its consumer. *)
Definition delivered (k : StreamKey) (evs : list stream_event) : bytes :=
  concat (omap (fun ev => match ev with
                          | EvDelivered j out => if bool_decide (j = k) then Some out else None
                          | _ => None
                          end) evs).

Lemma opened_app l1 l2 : opened (l1 ++ l2) = opened l1 ++ opened l2.
Proof. apply omap_app. Qed.

Lemma delivered_app k l1 l2 : delivered k (l1 ++ l2) = delivered k l1 ++ delivered k l2.
Proof. unfold delivered. by rewrite omap_app, concat_app. Qed.

(** A stream that was there is there or retired, and what is retired stays so. *)
Lemma atom_known s ev s' k :
  stream_inv s -> stream_atom s ev s' ->
  is_Some (streams s !! k) \/ k ∈ retired s -> is_Some (streams s' !! k) \/ k ∈ retired s'.
Proof.
  intros Hinv Ha Hk.
  assert (Hput : forall j x, is_Some (streams (put_entry j x s) !! k) \/ k ∈ retired (put_entry j x s)).
  { intros j x. cbn. destruct Hk as [Hk|Hk]; [left|by right].
    destruct (decide (j = k)) as [->|?]; [by rewrite lookup_insert_eq|by rewrite lookup_insert_ne]. }
  destruct Ha as [|j c _ _ _ _|j e e' Hj _|j e data Hj _ _ _|j e out rest Hj _|j e Hj|]; try done.
  - rewrite retire_eq by (done || by exists e). cbn.
    destruct (decide (j = k)) as [->|?]; [right; set_solver|].
    destruct Hk as [Hk|Hk]; [left; by rewrite lookup_delete_ne|right; set_solver].
  - right. cbn. destruct Hk as [Hk|Hk]; [apply elem_of_dom in Hk|]; set_solver.
Qed.

Lemma opened_once_atom acc s ev s' :
  stream_inv s ->
  NoDup (opened acc) /\ (forall k, k ∈ opened acc -> is_Some (streams s !! k) \/ k ∈ retired s) ->
  stream_atom s ev s' ->
  NoDup (opened (acc ++ ev)) /\
  (forall k, k ∈ opened (acc ++ ev) -> is_Some (streams s' !! k) \/ k ∈ retired s').
Proof.
  intros Hinv [Hnd Hk] Ha. rewrite opened_app.
  assert (Hold : forall k, k ∈ opened acc -> is_Some (streams s' !! k) \/ k ∈ retired s')
    by (intros k Hin; eapply atom_known; [done|done|by apply Hk]).
  destruct Ha as [|j c Hlt Hj Hr Hid| | | | |]; cbn; rewrite ?app_nil_r; try done.
  assert (Hnot : j ∉ opened acc) by (intros [Hin|Hin]%Hk; [by destruct Hin; congruence|done]).
  split.
  - apply NoDup_app. split; [done|]. split; [|apply NoDup_singleton].
    by intros x Hx ->%list_elem_of_singleton.
  - intros k [Hin|Hin]%elem_of_app; [by apply Hold|]. apply list_elem_of_singleton in Hin as ->.
    left. cbn. by rewrite lookup_insert_eq.
Qed.

(** *** First in, first out *)

Section Fifo.
Variable k : StreamKey.
Variable D : Z -> bytes.

(** The first [n] frames of the sender. *)
Definition sent (n : Z) : bytes := concat (D <$> seqZ 0 n).

Definition stored_from_sender (evs : list stream_event) : Prop :=
  forall seq data, EvStored k seq data ∈ evs -> data = D seq.

(** What was delivered and what waits is what the sender sent so far. *)
Definition fifo (evs : list stream_event) (s : StreamState) : Prop :=
  match streams s !! k with
  | Some e => delivered k evs ++ concat (recv_chunks e) = sent (next_recv_seq e)
  | None => ((k ∉ retired s) /\ delivered k evs = []) \/
            (k ∈ retired s /\ exists n, 0 <= n /\ delivered k evs `prefix_of` sent n)
  end.

Lemma sent_succ n : 0 <= n -> sent (n + 1) = sent n ++ D n.
Proof.
  intros Hn. unfold sent. rewrite <- seqZ_snoc, fmap_app, concat_app by done. cbn.
  by rewrite app_nil_r.
Qed.

(** A change of another stream, or of nothing the receiver sees. *)
Lemma fifo_frame acc ev s s' :
  fifo acc s -> delivered k ev = [] ->
  (streams s' !! k = streams s !! k \/
   exists e e', streams s !! k = Some e /\ streams s' !! k = Some e' /\
     concat (recv_chunks e') = concat (recv_chunks e) /\ next_recv_seq e' = next_recv_seq e) ->
  (k ∈ retired s' <-> k ∈ retired s) -> fifo (acc ++ ev) s'.
Proof.
  intros Hf Hev Hsame Hr. unfold fifo in *. rewrite delivered_app, Hev, app_nil_r.
  destruct Hsame as [->|(e & e' & Hk & -> & Hc & Hn)].
  - destruct (streams s !! k); [done|]. by rewrite Hr.
  - rewrite Hk in Hf. by rewrite Hc, Hn.
Qed.

Lemma delivered_other j out : j <> k -> delivered k [EvDelivered j out] = [].
Proof. intros Hne. unfold delivered. cbn. by rewrite bool_decide_eq_false_2. Qed.

Lemma delivered_this out : delivered k [EvDelivered k out] = out.
Proof. unfold delivered. cbn. rewrite bool_decide_eq_true_2 by done. cbn. apply app_nil_r. Qed.

(** The stream goes away. *)
Lemma fifo_removed acc s s' :
  stream_inv s -> fifo acc s -> streams s' !! k = None ->
  (k ∈ retired s' <-> is_Some (streams s !! k) \/ k ∈ retired s) -> fifo acc s'.
Proof.
  intros Hinv Hf Hn Hr. unfold fifo in *. rewrite Hn.
  destruct (streams s !! k) as [e|] eqn:E.
  - right. split; [apply Hr; left; by exists e|]. exists (next_recv_seq e).
    split; [apply (sv_entries _ Hinv _ _ E)|]. rewrite <- Hf. by eexists.
  - destruct Hf as [[Hk Hd]|[Hk Hd]]; [left|right]; (split; [|done]).
    + rewrite Hr. by intros [[? ?]|?].
    + rewrite Hr. by right.
Qed.

Lemma fifo_atom acc s ev s' :
  stream_inv s -> fifo acc s -> stored_from_sender ev -> stream_atom s ev s' -> fifo (acc ++ ev) s'.
Proof.
  intros Hinv Hf Hev Ha.
  destruct Ha as [|j c Hlt Hj Hr Hid|j e e' Hj Hca|j e data Hj Hrc Hsc Hb|j e out rest Hj Hco|j e Hj|].
  - by rewrite app_nil_r.
  - destruct (decide (j = k)) as [->|Hne].
    + unfold fifo in *. cbn. rewrite lookup_insert_eq. rewrite Hj in Hf.
      destruct Hf as [[_ Hd]|[? _]]; [|done]. rewrite delivered_app, Hd. done.
    + apply (fifo_frame _ _ s); [done|done| |done]. left. cbn. by rewrite lookup_insert_ne.
  - apply (fifo_frame _ _ s); [done|done| |done]. cbn. destruct (decide (j = k)) as [->|Hne].
    + right. exists e, e'. rewrite lookup_insert_eq. split_and!; [done..|apply Hca|apply Hca].
    + left. by rewrite lookup_insert_ne.
  - destruct (decide (j = k)) as [->|Hne].
    + assert (data = D (next_recv_seq e)) as -> by (apply Hev; by left).
      unfold fifo in *. cbn. rewrite Hj in Hf. rewrite lookup_insert_eq. cbn.
      rewrite delivered_app. change (delivered k [EvStored _ _ _]) with (@nil byte).
      rewrite app_nil_r, concat_app, app_assoc, Hf. cbn. rewrite app_nil_r.
      symmetry. apply sent_succ, (sv_entries _ Hinv _ _ Hj).
    + apply (fifo_frame _ _ s); [done|done| |done]. left. cbn. by rewrite lookup_insert_ne.
  - destruct (decide (j = k)) as [->|Hne].
    + unfold fifo in *. cbn. rewrite Hj in Hf. rewrite lookup_insert_eq. cbn.
      by rewrite delivered_app, delivered_this, <- app_assoc, <- Hco.
    + apply (fifo_frame _ _ s); [done|by apply delivered_other| |done]. left. cbn.
      by rewrite lookup_insert_ne.
  - rewrite app_nil_r, retire_eq by (done || by exists e). destruct (decide (j = k)) as [->|Hne].
    + apply (fifo_removed _ s); [done|done|cbn; apply lookup_delete_eq|]. cbn.
      split; [intros _; left; by exists e|set_solver].
    + rewrite <- (app_nil_r acc). apply (fifo_frame _ _ s); [done|done| |cbn; set_solver].
      left. cbn. by rewrite lookup_delete_ne.
  - rewrite app_nil_r. apply (fifo_removed _ s); [done|done|apply lookup_empty|]. cbn.
    rewrite elem_of_union, elem_of_dom. tauto.
Qed.

Lemma fifo_atoms s evs s' acc :
  stream_inv s -> stream_atoms s evs s' -> fifo acc s -> stored_from_sender evs ->
  fifo (acc ++ evs) s'.
Proof.
  intros Hinv Hats. revert acc. induction Hats as [s|s ev s1 evs s2 Ha _ IH]; intros acc Hf Hev.
  - by rewrite app_nil_r.
  - rewrite app_assoc. apply IH; [by eapply stream_inv_atom| |].
    + apply (fifo_atom acc s); [done|done| |done]. intros q d Hin. apply Hev, elem_of_app. by left.
    + intros q d Hin. apply Hev, elem_of_app. by right.
Qed.
End Fifo.

(** *** Wake-ups *)

(** Nothing a waiting loop looks at has changed. *)
Record still (e e' : StreamEntry) : Prop := {
  st_consumer : consumer e' = consumer e;
  st_bytes : recv_bytes e' = recv_bytes e;
  st_seq : next_recv_seq e' = next_recv_seq e;
  st_recv : recv_closed e' = recv_closed e;
  st_send : send_closed e' = send_closed e;
  st_content : concat (recv_chunks e') = concat (recv_chunks e);
  st_chunks : consumer e = EventConsumer -> recv_chunks e' = recv_chunks e;
}.

Lemma still_refl e : still e e.
Proof. by constructor. Qed.

Lemma still_trans e1 e2 e3 : still e1 e2 -> still e2 e3 -> still e1 e3.
Proof.
  intros [A1 A2 A3 A4 A5 A6 A7] [B1 B2 B3 B4 B5 B6 B7]. constructor; try congruence.
  intros Hc. rewrite B7 by congruence. by apply A7.
Qed.

Lemma atom_wakes s ev s' k e e' :
  stream_inv s -> stream_atom s ev s' -> streams s !! k = Some e -> streams s' !! k = Some e' ->
  wake_gen e <= wake_gen e' /\ (wake_gen e' = wake_gen e -> still e e').
Proof.
  intros Hinv Ha Hk Hk'.
  assert (Hput : forall j x y, streams s !! j = Some x -> streams s' = streams (put_entry j y s) ->
    (wake_gen x <= wake_gen y /\ (wake_gen y = wake_gen x -> still x y)) ->
    wake_gen e <= wake_gen e' /\ (wake_gen e' = wake_gen e -> still e e')).
  { intros j x y Hj Heq Hxy. rewrite Heq in Hk'. cbn in Hk'.
    apply lookup_insert_Some in Hk' as [[<- <-]|[_ Hk']].
    - by assert (x = e) as <- by congruence.
    - assert (e' = e) as -> by congruence. split; [done|]. intros _. apply still_refl. }
  destruct Ha as [|j c Hlt Hj Hr Hid|j x x' Hj Hca|j x data Hj Hrc Hsc Hb|j x out rest Hj Hco|j x Hj|].
  - assert (e' = e) as -> by congruence. split; [done|]. intros _. apply still_refl.
  - cbn in Hk'. apply lookup_insert_Some in Hk' as [[<- _]|[_ Hk']]; [congruence|].
    assert (e' = e) as -> by congruence. split; [done|]. intros _. apply still_refl.
  - apply (Hput j x x'); [done|done|]. split; [apply (ca_gen _ _ Hca)|]. intros Hg.
    destruct (ca_wake _ _ Hca Hg) as (? & ? & ?). destruct Hca. by constructor.
  - eapply (Hput j x); [done|done|]. cbn. split; [lia|]. intros. lia.
  - eapply (Hput j x); [done|done|]. cbn. split; [lia|]. intros. lia.
  - cbn in Hk'. apply lookup_delete_Some in Hk' as [_ Hk'].
    assert (e' = e) as -> by congruence. split; [done|]. intros _. apply still_refl.
  - cbn in Hk'. by rewrite lookup_empty in Hk'.
Qed.

Lemma atoms_known s evs s' k :
  stream_inv s -> stream_atoms s evs s' -> k ∈ retired s -> k ∈ retired s'.
Proof.
  intros Hinv Hats. induction Hats as [s|s ev s1 evs s2 Ha _ IH]; [done|]. intros Hk.
  pose proof (stream_inv_atom _ _ _ Hinv Ha) as Hinv1. apply IH; [done|].
  assert (Hn : streams s !! k = None).
  { destruct (streams s !! k) as [e|] eqn:E; [|done]. exfalso.
    by apply (sv_disjoint _ Hinv k); [exists e|]. }
  destruct (atom_known s ev s1 k Hinv Ha (or_intror Hk)) as [[e He]|?]; [|done]. exfalso.
  destruct Ha as [|j c Hlt Hj Hr Hid|j x x' Hj _|j x data Hj _ _ _|j x out rest Hj _|j x Hj|]; cbn in He;
    rewrite ?lookup_insert_Some, ?lookup_delete_Some, ?lookup_empty in He; naive_solver congruence.
Qed.

Lemma atoms_wakes s evs s' k e e' :
  stream_inv s -> stream_atoms s evs s' -> streams s !! k = Some e -> streams s' !! k = Some e' ->
  wake_gen e <= wake_gen e' /\ (wake_gen e' = wake_gen e -> still e e').
Proof.
  intros Hinv Hats. revert e. induction Hats as [s|s ev s1 evs s2 Ha Hats IH]; intros e Hk Hk'.
  - assert (e' = e) as -> by congruence. split; [done|]. intros _. apply still_refl.
  - pose proof (stream_inv_atom _ _ _ Hinv Ha) as Hinv1.
    destruct (atom_known s ev s1 k Hinv Ha ltac:(left; by exists e)) as [[e1 He1]|Hr].
    + destruct (atom_wakes _ _ _ _ _ _ Hinv Ha Hk He1) as [G1 S1].
      destruct (IH Hinv1 e1 He1 Hk') as [G2 S2]. split; [lia|]. intros Hg.
      eapply still_trans; [apply S1; lia|apply S2; lia].
    + exfalso. pose proof (atoms_known _ _ _ _ Hinv1 Hats Hr) as Hr2.
      pose proof (stream_inv_atoms _ _ _ Hinv1 Hats) as Hinv2.
      by apply (sv_disjoint _ Hinv2 k); [exists e'|].
Qed.

Lemma still_waits s s' o id e e' :
  streams s !! mkStreamKey o id = Some e -> streams s' !! mkStreamKey o id = Some e' -> still e e' ->
  (forall seq data, (handle_bytes_turn o id seq data s).1 = BytesWait ->
     (handle_bytes_turn o id seq data s').1 = BytesWait) /\
  (forall after, handle_bytes_drained o id after s = false ->
     handle_bytes_drained o id after s' = false) /\
  (consumer e = EventConsumer -> (drain_events_turn o id s).1 = DrainWait ->
     (drain_events_turn o id s').1 = DrainWait) /\
  (forall n, 0 <= n -> (receive_turn o id n s).1 = ReceiveWait ->
     (receive_turn o id n s').1 = ReceiveWait).
Proof.
  intros Hk Hk' [S1 S2 S3 S4 S5 S6 S7]. split_and!.
  - intros seq data. unfold handle_bytes_turn. cbv zeta. rewrite Hk, Hk', S2, S3, S4, S5.
    by repeat destruct_match_goal.
  - intros after. unfold handle_bytes_drained. by rewrite Hk, Hk', S1, S2.
  - intros Hc. unfold drain_events_turn. cbv zeta. rewrite Hk, Hk', S4, (S7 Hc).
    by repeat destruct_match_goal.
  - intros n Hn. unfold receive_turn. cbv zeta. rewrite Hk, Hk', S1, S4.
    pose proof (fill_len n (recv_chunks e) Hn) as L1. pose proof (fill_len n (recv_chunks e') Hn) as L2.
    unfold total in *. rewrite S6, <- L1 in L2.
    destruct (fill n (recv_chunks e)) as [out rest], (fill n (recv_chunks e')) as [out' rest'].
    cbn in L2. rewrite L2. by repeat destruct_match_goal.
Qed.

(** Over every interleaving of the manager's operations and loop turns:
    at most [MAX_CONCURRENT_STREAMS] streams are open, every receive buffer is
    exactly accounted and within [MAX_PER_STREAM_BUFFER_CAPACITY] bytes, an
    open stream is not retired and not closed on both sides, and there is
    always room for the tombstone of an open stream, so that the capacity test
    before a tombstone is recorded never skips one. *)
Lemma stream_manager_invariant ops :
  Forall stream_op_ok ops ->
  let s := (stream_run ops state_default).2 in
  stream_inv s /\
  (forall k, is_Some (streams s !! k) ->
     Z.of_nat (size (retired s)) < MAX_RETIRED_STREAM_KEYS).
Proof.
  intros Hok s.
  assert (Hinv : stream_inv s)
    by (eapply stream_inv_atoms; [apply stream_inv_default|by apply run_atoms; [apply stream_inv_default|]]).
  split; [done|]. intros k Hk. by apply (tombstone_room s k).
Qed.

(** A stream identity is opened at most once in the life of a peer's
    manager, across closes, path losses and session teardowns: no stale handle
    can reach a newer stream.  Opening it again is always refused. *)
Lemma stream_identity_used_once ops :
  Forall stream_op_ok ops ->
  let evs := (stream_run ops state_default).1 in
  let s := (stream_run ops state_default).2 in
  NoDup (opened evs) /\
  (forall k service c, k ∈ opened evs ->
     is_ok (open (sk_opener k) (sk_stream_id k) service c s).1 = false).
Proof.
  intros Hok evs s. pose proof stream_inv_default as Hinv.
  destruct (atoms_accumulate _ opened_once_atom _ _ _ Hinv (run_atoms ops _ Hinv Hok) [])
    as [Hnd Hk]; [split; [constructor|by intros k ?%not_elem_of_nil]|].
  split; [done|]. intros k service c Hin. unfold open. cbv zeta.
  replace (mkStreamKey (sk_opener k) (sk_stream_id k)) with k by by destruct k.
  destruct (_ || _); [done|]. destruct (_ <=? _); [done|]. fold s in Hk.
  destruct (Hk k Hin) as [Hs|Hr].
  - by rewrite bool_decide_eq_true_2.
  - destruct (bool_decide _); [done|]. by rewrite bool_decide_eq_true_2.
Qed.

Lemma run_stored ops s k seq data :
  EvStored k seq data ∈ (stream_run ops s).1 ->
  exists o id, SBytes o id seq data ∈ ops /\ mkStreamKey o id = k.
Proof.
  revert s. induction ops as [|op ops IH]; intros s; cbn [stream_run]; [by intros ?%not_elem_of_nil|].
  destruct (stream_step op s) as [ev s1] eqn:E. specialize (IH s1).
  destruct (stream_run ops s1) as [evs s2]. cbn [fst] in *. intros [Hin|Hin]%elem_of_app.
  - destruct op; cbn [stream_step] in E; repeat destruct_match_in E; injection E as <- <-;
      try (by apply not_elem_of_nil in Hin); apply list_elem_of_singleton in Hin; try done.
    injection Hin as -> -> ->. eexists _, _. split; [by left|done].
  - destruct (IH Hin) as (o & id & Ho & Hk). exists o, id. split; [by right|done].
Qed.

(** C12. The bytes of a stream come out first in, first out: when the frames
    that arrive for it carry the sender's data by sequence number (in any
    order, repeated, late), what its consumer got, followed by what is still
    buffered, is exactly the data of the frames accepted so far; and whenever
    it is closed, what the consumer got is a prefix of what was sent. *)
Theorem stream_bytes_in_order ops k (D : Z -> bytes) :
  Forall stream_op_ok ops ->
  (forall o id seq data, SBytes o id seq data ∈ ops -> mkStreamKey o id = k -> data = D seq) ->
  let evs := (stream_run ops state_default).1 in
  let s := (stream_run ops state_default).2 in
  (exists n, 0 <= n /\ delivered k evs `prefix_of` sent D n) /\
  (forall e, streams s !! k = Some e ->
     delivered k evs ++ concat (recv_chunks e) = sent D (next_recv_seq e)).
Proof.
  intros Hok HD evs s. pose proof stream_inv_default as Hinv.
  assert (Hf : fifo k D ([] ++ evs) s).
  { eapply (fifo_atoms k D state_default); [done|by apply run_atoms| |].
    - unfold fifo. cbn. rewrite lookup_empty. left. split; [set_solver|done].
    - intros seq data (o & id & Hin & Hk)%run_stored. by apply (HD o id). }
  cbn [app] in Hf. unfold fifo in Hf. destruct (streams s !! k) as [e|] eqn:E.
  - pose proof (stream_inv_atoms _ _ _ Hinv (run_atoms ops _ Hinv Hok)) as Hinv'.
    split; [|by intros ? [= <-]]. exists (next_recv_seq e).
    split; [apply (sv_entries _ Hinv' _ _ E)|]. rewrite <- Hf. by eexists.
  - split; [|done]. destruct Hf as [[_ ->]|[_ Hp]]; [|done]. exists 0. split; [done|apply prefix_nil].
Qed.

(** C13. No wake-up is lost: as long as no wake-up is broadcast on a stream, a
    writer waiting for space, a writer waiting for its data to be turned into
    events, an event drainer waiting for data and a reader waiting for data
    would all still wait if they looked again; so whoever can go on has been
    woken since it decided to wait. *)
Theorem no_lost_wakeup s ops o id e e' :
  stream_inv s -> Forall stream_op_ok ops ->
  let s' := (stream_run ops s).2 in
  streams s !! mkStreamKey o id = Some e -> streams s' !! mkStreamKey o id = Some e' ->
  wake_gen e' = wake_gen e ->
  (forall seq data, (handle_bytes_turn o id seq data s).1 = BytesWait ->
     (handle_bytes_turn o id seq data s').1 = BytesWait) /\
  (forall after, handle_bytes_drained o id after s = false ->
     handle_bytes_drained o id after s' = false) /\
  (consumer e = EventConsumer -> (drain_events_turn o id s).1 = DrainWait ->
     (drain_events_turn o id s').1 = DrainWait) /\
  (forall n, 0 <= n -> (receive_turn o id n s).1 = ReceiveWait ->
     (receive_turn o id n s').1 = ReceiveWait).
Proof.
  intros Hinv Hok s' Hk Hk' Hg. eapply still_waits; [done|done|].
  eapply atoms_wakes; [done|by apply run_atoms|done|done|done].
Qed.

(** The writer and the reader never wait for each other: when a frame
    that fits a buffer has to wait for space, there is something to read, so
    the event drainer emits a chunk and a reader with a non-empty buffer
    returns bytes. *)
Lemma writer_wait_means_readable s o id e seq data n :
  stream_inv s -> streams s !! mkStreamKey o id = Some e ->
  (handle_bytes_turn o id seq data s).1 = BytesWait ->
  len data <= MAX_PER_STREAM_BUFFER_CAPACITY -> 0 < n ->
  (exists chunk, (drain_events_turn o id s).1 = DrainEvent chunk) /\
  (consumer e <> EventConsumer ->
     exists out, (receive_turn o id n s).1 = ReceiveReturn (Ok out) /\ 0 < len out).
Proof.
  intros Hinv Hk Hw Hd Hn. destruct (sv_entries _ Hinv _ _ Hk) as [Hb _ _ _].
  unfold handle_bytes_turn in Hw. cbv zeta in Hw. rewrite Hk in Hw.
  destruct (_ || _); [done|]. destruct (negb _); [by destruct (_ <? _)|].
  destruct (_ <=? _) eqn:E; [done|]. bool_facts. split.
  - unfold drain_events_turn. cbv zeta. rewrite Hk.
    destruct (recv_chunks e) as [|chunk rest]; [|by eexists]. change (total []) with 0 in Hb. lia.
  - intros Hc. unfold receive_turn. cbv zeta. rewrite Hk, bool_decide_eq_false_2 by done.
    pose proof (fill_len n (recv_chunks e) ltac:(lia)) as Hf.
    destruct (fill n (recv_chunks e)) as [out rest]. cbn in Hf.
    rewrite (proj2 (Z.ltb_lt 0 (len out))) by lia. exists out. split; [done|lia].
Qed.
End Schedule.

(** ** Instances of the theorems *)

Definition sample_stream : list stream_op :=
  [SOpen Remote 7 "ssh" BridgeConsumer; SBytes Remote 7 0 (str_bytes "ab");
   SBytes Remote 7 0 (str_bytes "ab"); SBytes Remote 7 1 (str_bytes "c"); SReceive Remote 7 2;
   SHandleClose Remote 7].
Definition sample_data (seq : Z) : bytes :=
  match seq with 0 => str_bytes "ab" | _ => str_bytes "c" end.

Lemma sample_stream_ok : Forall stream_op_ok sample_stream.
Proof. repeat constructor; cbn; done. Qed.

(** Witness for C12: two of the three bytes are read. *)
Lemma stream_bytes_in_order_witness :
  delivered (mkStreamKey Remote 7) (stream_run sample_stream state_default).1 = str_bytes "ab" /\
  exists n, 0 <= n /\
    delivered (mkStreamKey Remote 7) (stream_run sample_stream state_default).1
      `prefix_of` sent sample_data n.
Proof.
  split; [vm_compute; reflexivity|].
  apply (stream_bytes_in_order sample_stream (mkStreamKey Remote 7) sample_data sample_stream_ok).
  intros o id seq data Hin _.
  repeat (apply elem_of_cons in Hin as [Hin|Hin];
    [first [discriminate Hin|injection Hin as _ _ -> ->; reflexivity]|]).
  by apply not_elem_of_nil in Hin.
Defined.

(** Witness for C13: after the first operation a reader waits, and after an
    unrelated operation it still does. *)
Lemma no_lost_wakeup_witness :
  let s := (stream_run (take 1 sample_stream) state_default).2 in
  let s' := (stream_run [STakeLease Remote 7] s).2 in
  (receive_turn Remote 7 5 s').1 = ReceiveWait.
Proof.
  cbv zeta. set (s := (stream_run (take 1 sample_stream) state_default).2).
  assert (Hinv : stream_inv s)
    by (apply (stream_inv_atoms state_default (stream_run (take 1 sample_stream) state_default).1);
        [apply stream_inv_default|];
        apply run_atoms; [apply stream_inv_default|apply Forall_take, sample_stream_ok]).
  destruct (no_lost_wakeup s [STakeLease Remote 7] Remote 7 (fresh_entry BridgeConsumer)
    (fresh_entry BridgeConsumer) Hinv) as (_ & _ & _ & Hw).
  - repeat constructor.
  - vm_compute. reflexivity.
  - vm_compute. reflexivity.
  - reflexivity.
  - apply Hw; [done|]. vm_compute. reflexivity.
Defined.

(** A stream whose buffer is full. *)
Definition full_entry : StreamEntry :=
  mkEntry BridgeConsumer [replicate (Z.to_nat MAX_PER_STREAM_BUFFER_CAPACITY) Byte.x00]
    MAX_PER_STREAM_BUFFER_CAPACITY false 1 1 None 0 false None.
Definition full_state : StreamState := mkStreams {[mkStreamKey Remote 7 := full_entry]} ∅.

Lemma full_state_inv : stream_inv full_state.
Proof.
  constructor; cbn [streams retired full_state].
  - unfold map_len. by rewrite map_size_singleton.
  - intros k e [<- <-]%lookup_singleton_Some. constructor; [|done..].
    unfold total. cbn [recv_chunks full_entry recv_bytes concat]. rewrite app_nil_r. unfold len.
    rewrite length_replicate, Z2Nat.id; [done|]. by unfold MAX_PER_STREAM_BUFFER_CAPACITY.
  - set_solver.
  - intros k [[e [<- _]%lookup_singleton_Some]|Hk]; [by cbn|set_solver].
Qed.
