(* ===== verification/StreamSession.v ===== *)
(** * Reliable streams: sessions

    Models [stream/session.rs] and the frame handlers of [stream/inbound.rs]:
    which stream a command or a frame addresses, opening, sending, closing and
    the handling of inbound frames over the manager.  Choosing and writing to a
    path belongs to the connection layer: its answers are arguments.  A generic
    route refuses what [encode_generic_frame] refuses. *)
From S2P Require Import Prelude GenericFrame StreamCodec StreamManager StreamProofs.

(** What the surroundings answer during one operation: the local device
    identity, whether a lease is for a QUIC path, whether the lease is active
    before and after, whether the [i]-th write succeeds, and the send half of
    a new QUIC stream. *)
Record StreamEnv := mkStreamEnv {
  env_local : option string;
  env_quic : PathLease -> bool;
  env_active_before : bool;
  env_active_after : bool;
  env_write : nat -> bool;
  env_send_half : SendStream;
}.

Definition local_stream_opener_peer_id (env : StreamEnv) : result string StreamError :=
  ok_or (env_local env) StreamNotConnected.

Definition stream_opener_peer_id (env : StreamEnv) (peer_id : string) (opener : StreamOpener) :
    result string StreamError :=
  match opener with
  | Local => local_stream_opener_peer_id env
  | Remote => Ok peer_id
  end.

Record StreamHandle := mkHandle { h_opener_device_id : string; h_stream_id : Z }.

Definition command_stream_opener (env : StreamEnv) (peer_id : string) (handle : StreamHandle)
    (state : StreamState) : result (StreamOpener * Z) StreamError :=
  if negb (validate_peer (h_opener_device_id handle)) then Err StreamInvalidArgument else
  if u16_max <? h_stream_id handle then Err StreamInvalidArgument else
  if h_stream_id handle =? 0 then Err StreamInvalidArgument else
  let? local_peer_id := local_stream_opener_peer_id env in
  let? opener :=
    if String.eqb (h_opener_device_id handle) local_peer_id then Ok Local
    else if String.eqb (h_opener_device_id handle) peer_id then Ok Remote
    else Err StreamInvalidArgument in
  if is_open opener (h_stream_id handle) state then Ok (opener, h_stream_id handle)
  else Err StreamNotFound.

Definition inbound_stream_opener (env : StreamEnv) (peer_id opener_peer_id : string) :
    result StreamOpener StreamError :=
  let? local_peer_id := local_stream_opener_peer_id env in
  if String.eqb opener_peer_id local_peer_id then Ok Local
  else if String.eqb opener_peer_id peer_id then Ok Remote
  else Err InvalidFrame.

Definition close_stream_after_path_loss (opener : StreamOpener) (stream_id : Z)
    (state : StreamState) : StreamError * StreamState :=
  (StreamClosed, close_local opener stream_id (handle_close opener stream_id state)).

(** ** Sending *)

(** [data.chunks(n)]; each piece consumes a byte at least, so the length of the
    data is enough fuel. *)
Fixpoint chunks_fuel (fuel : nat) (n : Z) (data : bytes) : list bytes :=
  match fuel with
  | O => []
  | S fuel =>
    match data with
    | [] => []
    | _ => slice 0 (Z.min n (len data)) data
           :: chunks_fuel fuel n (slice (Z.min n (len data)) (len data) data)
    end
  end.
Definition chunks (n : Z) (data : bytes) : list bytes := chunks_fuel (length data) n data.

(** [send_business_frame] on a generic route: the [i]-th write of the
    operation.  The frame leaves when it can be framed and the write succeeds. *)
Definition send_frame (env : StreamEnv) (i : nat) (kind : GenericFrameKind) (payload : bytes)
    (wire : list bytes) : result unit StreamError * list bytes :=
  match encode_generic_frame kind payload with
  | Err _ => (Err (StreamSend "generic route frame is too large"), wire)
  | Ok frame =>
    if env_write env i then (Ok tt, wire ++ [frame])
    else (Err (StreamSend "route send failed"), wire)
  end.

(** The loop over the chunks: the number of frames sent. *)
Fixpoint send_chunks (env : StreamEnv) (opener_peer_id : string) (stream_id seq : Z) (i : nat)
    (pieces : list bytes) (wire : list bytes) : result nat StreamError * list bytes :=
  match pieces with
  | [] => (Ok i, wire)
  | chunk :: rest =>
    match encode_stream_bytes_frame opener_peer_id stream_id (seq + Z.of_nat i) chunk with
    | Err e => (Err e, wire)
    | Ok payload =>
      match send_frame env i KindStreamBytes payload wire with
      | (Err e, wire) => (Err e, wire)
      | (Ok _, wire) => send_chunks env opener_peer_id stream_id seq (S i) rest wire
      end
    end
  end.

(** The generic branch of [send_stream_with_opener]. *)
Definition send_generic (env : StreamEnv) (opener_peer_id : string) (opener : StreamOpener)
    (stream_id : Z) (data : bytes) (state : StreamState) (wire : list bytes) :
    result unit StreamError * StreamState * list bytes :=
  match next_send_seq_of opener stream_id state with
  | Err e => (Err e, state, wire)
  | Ok seq =>
    match send_chunks env opener_peer_id stream_id seq 0 (chunks MAX_STREAM_FRAME_BYTES data)
            wire with
    | (Err e, wire) => (Err e, state, wire)
    | (Ok n, wire) =>
      let '(r, state) := bump_send_seq opener stream_id (Z.of_nat n) state in (r, state, wire)
    end
  end.

(** The QUIC branch: the first write of the operation. *)
Definition send_quic (env : StreamEnv) (opener : StreamOpener) (stream_id : Z)
    (state : StreamState) : result unit StreamError * StreamState :=
  if negb (env_active_before env) then (Err StreamClosed, state) else
  match quic_send_take opener stream_id state with
  | (Err e, state) => (Err e, state)
  | (Ok send, state) => quic_send_put opener stream_id send (env_write env 0%nat) state
  end.

Definition send_stream_with_opener (env : StreamEnv) (peer_id : string) (opener : StreamOpener)
    (stream_id : Z) (data : bytes) (state : StreamState) (wire : list bytes) :
    result unit StreamError * StreamState * list bytes :=
  let lost state := (close_stream_after_path_loss opener stream_id state).2 in
  if len data =? 0 then (Ok tt, state, wire) else
  match stream_opener_peer_id env peer_id opener with
  | Err e => (Err e, state, wire)
  | Ok opener_peer_id =>
  match send_guard opener stream_id state with
  | Err e => (Err e, state, wire)
  | Ok _ =>
  match take_lease opener stream_id state with
  | (Err e, state) => (Err e, lost state, wire)
  | (Ok lease, state) =>
    let '(r, state, wire) :=
      if env_quic env lease
      then let '(r, state) := send_quic env opener stream_id state in (r, state, wire)
      else send_generic env opener_peer_id opener stream_id data state wire in
    if negb (env_active_after env) then (Err StreamClosed, lost state, wire) else
    match r with
    | Err e => (Err e, lost state, wire)
    | Ok _ =>
      match restore_lease opener stream_id lease state with
      | (false, state) => (Err StreamClosed, lost state, wire)
      | (true, state) => (Ok tt, state, wire)
      end
    end
  end end end.

Definition send_stream (env : StreamEnv) (peer_id : string) (handle : StreamHandle) (data : bytes)
    (state : StreamState) (wire : list bytes) :
    result unit StreamError * StreamState * list bytes :=
  match command_stream_opener env peer_id handle state with
  | Err e => (Err e, state, wire)
  | Ok (opener, stream_id) => send_stream_with_opener env peer_id opener stream_id data state wire
  end.

(** ** Opening and closing *)

(** [lease] is the path selected for the stream. *)
Definition open_stream (env : StreamEnv) (lease : option PathLease) (stream_id : Z)
    (service : string) (consumer : StreamConsumer) (state : StreamState) (wire : list bytes) :
    result unit StreamError * StreamState * list bytes :=
  let lost state := (close_stream_after_path_loss Local stream_id state).2 in
  match lease with
  | None => (Err StreamNotConnected, state, wire)
  | Some lease =>
  match local_stream_opener_peer_id env with
  | Err e => (Err e, state, wire)
  | Ok opener_peer_id =>
  match open Local stream_id service consumer state with
  | (Err e, state) => (Err e, state, wire)
  | (Ok _, state) =>
  match bind_lease Local stream_id lease state with
  | (Err e, state) => (Err e, state, wire)
  | (Ok _, state) =>
  match take_lease Local stream_id state with
  | (Err e, state) => (Err e, state, wire)
  | (Ok lease, state) =>
    let '(r, state, wire) :=
      if env_quic env lease then
        if negb (env_active_before env) then (Err StreamClosed, state, wire) else
        match encode_quic_stream_preamble stream_id service with
        | Err e => (Err e, state, wire)
        | Ok preamble =>
          if negb (env_write env 0%nat) then (Err (StreamSend "write failed"), state, wire) else
          if negb (env_active_after env) then (Err StreamClosed, state, wire ++ [preamble]) else
          let '(r, state) := register_quic_send Local stream_id (env_send_half env) state in
          (r, state, wire ++ [preamble])
        end
      else
        match encode_stream_open_frame opener_peer_id stream_id service with
        | Err e => (Err e, state, wire)
        | Ok payload =>
          let '(r, wire) := send_frame env 0 KindStreamOpen payload wire in (r, state, wire)
        end in
    match r with
    | Err e => (Err e, lost state, wire)
    | Ok _ =>
      match restore_lease Local stream_id lease state with
      | (false, state) => (Err StreamClosed, lost state, wire)
      | (true, state) => (Ok tt, state, wire)
      end
    end
  end end end end end.

Definition close_stream_with_opener (env : StreamEnv) (peer_id : string) (opener : StreamOpener)
    (stream_id : Z) (state : StreamState) (wire : list bytes) :
    result unit StreamError * StreamState * list bytes :=
  let lost state := (close_stream_after_path_loss opener stream_id state).2 in
  match stream_opener_peer_id env peer_id opener with
  | Err e => (Err e, state, wire)
  | Ok opener_peer_id =>
  match take_lease opener stream_id state with
  | (Err e, state) => (Err e, lost state, wire)
  | (Ok lease, state) =>
    let '(r, state, wire) :=
      if env_quic env lease then
        if negb (env_active_before env) then (Err StreamClosed, state, wire)
        else let '(r, state) := quic_finish_send opener stream_id state in (r, state, wire)
      else
        match encode_stream_close_frame opener_peer_id stream_id with
        | Err e => (Err e, state, wire)
        | Ok payload =>
          let '(r, wire) := send_frame env 0 KindStreamClose payload wire in (r, state, wire)
        end in
    if negb (env_active_after env) || negb (is_ok r)
    then (Err StreamClosed, lost state, wire)
    else
      let state := close_local opener stream_id state in
      (Ok tt, (restore_lease opener stream_id lease state).2, wire)
  end end.

Definition close_stream (env : StreamEnv) (peer_id : string) (handle : StreamHandle)
    (state : StreamState) (wire : list bytes) :
    result unit StreamError * StreamState * list bytes :=
  match command_stream_opener env peer_id handle state with
  | Err e => (Err e, state, wire)
  | Ok (opener, stream_id) => close_stream_with_opener env peer_id opener stream_id state wire
  end.

(** ** Inbound frames *)

(** [acquired] is the lease of the path that delivered the frame. *)
Definition bind_inbound_attempt (env : StreamEnv) (acquired : option PathLease)
    (opener : StreamOpener) (stream_id : Z) : SE StreamState StreamError unit := fun state =>
  match acquired with
  | None =>
    let '(e, state) := close_stream_after_path_loss opener stream_id state in (Err e, state)
  | Some lease =>
    if negb (env_active_before env) then (Err StreamNotConnected, state)
    else bind_lease opener stream_id lease state
  end.

Definition handle_inbound_open (env : StreamEnv) (acquired : option PathLease)
    (opener : StreamOpener) (stream_id : Z) (service : string) :
    SE StreamState StreamError unit := fun state =>
  let consumer :=
    if String.eqb service STREAM_SERVICE_SSH then BridgeConsumer else EventConsumer in
  match handle_open opener stream_id service consumer state with
  | (Err AlreadyOpen, state) => (Ok tt, state)
  | (Err e, state) => (Err e, state)
  | (Ok _, state) =>
    match bind_inbound_attempt env acquired opener stream_id state with
    | (Err e, state) => (Err e, (close_stream_after_path_loss opener stream_id state).2)
    | (Ok _, state) => (Ok tt, state)
    end
  end.

(** The handling of a frame up to its first wait. *)
Definition handle_inbound_stream_frame (env : StreamEnv) (acquired : option PathLease)
    (peer_id : string) (kind : GenericFrameKind) (payload : bytes) (state : StreamState) :
    BytesTurn * StreamState :=
  let fail e := (BytesReturn (Err e), state) in
  match kind with
  | KindStreamOpen =>
    match decode_stream_open_frame payload with
    | Err e => fail e
    | Ok (opener_peer_id, stream_id, service) =>
      match inbound_stream_opener env peer_id opener_peer_id with
      | Err e => fail e
      | Ok Local => fail InvalidFrame
      | Ok Remote =>
        let '(r, state) := handle_inbound_open env acquired Remote stream_id service state in
        (BytesReturn r, state)
      end
    end
  | KindStreamBytes =>
    match decode_stream_bytes_frame payload with
    | Err e => fail e
    | Ok (opener_peer_id, stream_id, seq, data) =>
      match inbound_stream_opener env peer_id opener_peer_id with
      | Err e => fail e
      | Ok opener => handle_bytes_turn opener stream_id seq data state
      end
    end
  | KindStreamClose =>
    match decode_stream_close_frame payload with
    | Err e => fail e
    | Ok (opener_peer_id, stream_id) =>
      match inbound_stream_opener env peer_id opener_peer_id with
      | Err e => fail e
      | Ok opener => (BytesReturn (Ok tt), handle_close opener stream_id state)
      end
    end
  | _ => fail InvalidFrame
  end.

(** ** Chunks *)

Lemma chunks_fuel_spec fuel n data :
  0 < n -> (length data <= fuel)%nat ->
  concat (chunks_fuel fuel n data) = data /\
  Forall (fun piece => 0 < len piece <= n) (chunks_fuel fuel n data) /\
  (length (chunks_fuel fuel n data) <= length data)%nat.
Proof.
  intros Hn. revert data. induction fuel as [|fuel IH]; intros data Hf.
  - destruct data; [|cbn in Hf; lia]. by split_and!.
  - destruct data as [|b data]; [by split_and!|]. cbn [chunks_fuel]. set (l := b :: data) in *.
    assert (Hl : 0 < len l) by (unfold l; rewrite len_cons; pose proof (len_nonneg data); lia).
    assert (H1 : len (slice 0 (Z.min n (len l)) l) = Z.min n (len l)) by (rewrite len_slice; lia).
    assert (H2 : len (slice (Z.min n (len l)) (len l) l) = len l - Z.min n (len l))
      by (rewrite len_slice; lia).
    destruct (IH (slice (Z.min n (len l)) (len l) l)) as (Hc & Ha & Hln); [unfold len in *; lia|].
    split_and!.
    + cbn [concat]. rewrite Hc, <- slice_split by lia. by apply slice_all.
    + apply Forall_cons. split; [lia|done].
    + cbn [length]. unfold len in *. lia.
Qed.

Lemma chunks_spec n data :
  0 < n -> concat (chunks n data) = data /\
  Forall (fun piece => 0 < len piece <= n) (chunks n data) /\
  (length (chunks n data) <= length data)%nat.
Proof. intros Hn. by apply chunks_fuel_spec. Qed.

Lemma chunks_first n data :
  0 < n -> 0 < len data -> exists rest, chunks n data = slice 0 (Z.min n (len data)) data :: rest.
Proof. intros Hn Hd. unfold chunks. destruct data as [|b data]; [done|]. by eexists. Qed.

(** ** Sending *)

(** The frame on the wire carries one piece. *)
Definition carries (opener_peer_id : string) (stream_id seq : Z) (piece frame : bytes) : Prop :=
  exists payload, decode_generic_frame frame = Ok (mkInboundFrame KindStreamBytes payload) /\
    decode_stream_bytes_frame payload = Ok (opener_peer_id, stream_id, seq, piece).

Lemma send_frame_ok env i kind payload wire wire' :
  send_frame env i kind payload wire = (Ok tt, wire') ->
  exists frame, wire' = wire ++ [frame] /\
    decode_generic_frame frame = Ok (mkInboundFrame kind payload).
Proof.
  unfold send_frame. destruct (encode_generic_frame kind payload) as [frame|] eqn:E; [|done].
  destruct (env_write env i); [|done]. intros [= <-]. exists frame. split; [done|].
  by apply generic_decode_encode.
Qed.

Lemma send_chunks_ok env opener id seq pieces i wire n wire' :
  rust_string opener -> is_u16 id -> 0 <= seq ->
  seq + Z.of_nat i + len pieces <= u64_max -> Forall (fun p => len p <= u32_max) pieces ->
  send_chunks env opener id seq i pieces wire = (Ok n, wire') ->
  n = (i + length pieces)%nat /\ exists frames, wire' = wire ++ frames /\
  Forall2 (fun qp frame => carries opener id qp.1 qp.2 frame)
    (zip (seqZ (seq + Z.of_nat i) (len pieces)) pieces) frames.
Proof.
  intros Hr Hi Hs. revert i wire. induction pieces as [|p pieces IH]; intros i wire Hlen Hall; cbn.
  - intros [= <- <-]. split; [lia|]. exists []. by rewrite app_nil_r.
  - rewrite len_cons in Hlen. pose proof (len_nonneg pieces).
    apply Forall_cons in Hall as [Hp Hall].
    destruct (encode_stream_bytes_frame _ _ _ p) as [payload|] eqn:Ee; [|done].
    destruct (send_frame _ _ _ _ _) as [[[]|] wire1] eqn:Ef; [|done]. intros Hsend.
    apply send_frame_ok in Ef as (frame & -> & Hframe).
    destruct (IH (S i) (wire ++ [frame]) ltac:(lia) Hall Hsend) as (-> & frames & -> & Hfr).
    split; [lia|]. exists (frame :: frames). split; [by rewrite <- app_assoc|].
    rewrite len_cons, seqZ_cons by lia. replace (Z.succ (seq + Z.of_nat i)) with (seq + Z.of_nat (S i)) by lia.
    replace (Z.pred (1 + len pieces)) with (len pieces) by lia.
    constructor; [|done]. exists payload. split; [done|]. cbn.
    apply bytes_decode_encode in Ee; [done|done|done| |done]. unfold is_u64. lia.
Qed.

(** A successful send over a generic route puts exactly the data on the
    wire, in order: the new frames decode at the receiver to consecutive
    pieces of the data, none empty, numbered from the stream's next sequence
    on, and the stream continues after them. *)
Lemma send_stream_frames env peer_id opener stream_id data state wire state' wire' e lease :
  streams state !! mkStreamKey opener stream_id = Some e -> path_lease e = Some lease ->
  env_quic env lease = false -> 0 < len data ->
  (forall p, stream_opener_peer_id env peer_id opener = Ok p -> rust_string p) ->
  is_u16 stream_id -> 0 <= next_send_seq e -> next_send_seq e + len data <= u64_max ->
  send_stream_with_opener env peer_id opener stream_id data state wire = (Ok tt, state', wire') ->
  exists opener_peer_id pieces frames e',
    stream_opener_peer_id env peer_id opener = Ok opener_peer_id /\
    concat pieces = data /\ Forall (fun p => 0 < len p <= MAX_STREAM_FRAME_BYTES) pieces /\
    wire' = wire ++ frames /\
    Forall2 (fun qp frame => carries opener_peer_id stream_id qp.1 qp.2 frame)
      (zip (seqZ (next_send_seq e) (len pieces)) pieces) frames /\
    streams state' !! mkStreamKey opener stream_id = Some e' /\
    next_send_seq e' = next_send_seq e + len pieces /\ path_lease e' = Some lease.
Proof.
  intros Hk Hlease Hquic Hd Hrust Hid H0 Hmax. unfold send_stream_with_opener.
  rewrite (proj2 (Z.eqb_neq _ _)) by lia.
  destruct (stream_opener_peer_id env peer_id opener) as [op|] eqn:Eo; [|done].
  unfold send_guard, take_lease. cbv zeta. rewrite Hk.
  destruct (send_closed e) eqn:Es; [done|]. rewrite Hlease, Hquic.
  unfold send_generic, next_send_seq_of. cbn [streams put_entry]. rewrite lookup_insert_eq.
  cbn [send_closed set_lease next_send_seq]. rewrite Es.
  set (pieces := chunks MAX_STREAM_FRAME_BYTES data).
  destruct (chunks_spec MAX_STREAM_FRAME_BYTES data ltac:(done)) as (Hc & Hall & Hn). fold pieces in Hc, Hall, Hn.
  destruct (send_chunks _ _ _ _ _ _ _) as [[n|] wire1] eqn:Ec; [|by destruct (env_active_after env)].
  apply send_chunks_ok in Ec as (-> & frames & -> & Hfr); [|by eauto|done|done|unfold len in *; lia|];
    last first.
  { eapply Forall_impl; [exact Hall|]. cbn. intros p Hp. unfold MAX_STREAM_FRAME_BYTES, u32_max in *. lia. }
  unfold bump_send_seq. cbv zeta. cbn [streams put_entry]. rewrite lookup_insert_eq.
  cbn [send_closed set_lease]. rewrite Es. destruct (env_active_after env); [|done]. cbn [negb].
  unfold restore_lease. cbv zeta. cbn [streams put_entry]. rewrite lookup_insert_eq.
  cbn [recv_closed set_send_seq set_lease path_lease]. destruct (recv_closed e) eqn:Er; [done|].
  cbn [orb]. intros [= <- <-]. rewrite Z.add_0_r in Hfr.
  exists op, pieces, frames, (set_lease (Some lease)
    (set_send_seq (next_send_seq e + Z.of_nat (length pieces)) (set_lease None e))).
  split_and!; try done. cbn. apply lookup_insert_eq.
Qed.

(** ** Path loss *)

(** Closing both sides removes the stream and leaves the others alone. *)
Lemma path_loss_removes opener id s e :
  streams s !! mkStreamKey opener id = Some e -> send_closed e = false ->
  streams (close_stream_after_path_loss opener id s).2 !! mkStreamKey opener id = None.
Proof.
  intros Hk Hs. unfold close_stream_after_path_loss, handle_close. cbn [snd]. cbv zeta. rewrite Hk.
  destruct (recv_closed e) eqn:Er.
  - unfold close_local. cbv zeta. rewrite Hk, Hs. cbn. rewrite Er. cbn. apply lookup_delete_eq.
  - cbn [send_closed wake set_closed]. rewrite Hs. unfold close_local. cbv zeta.
    cbn [streams put_entry]. rewrite lookup_insert_eq. cbn. apply lookup_delete_eq.
Qed.

Lemma encode_bytes_len opener id seq data f :
  encode_stream_bytes_frame opener id seq data = Ok f -> len f = 15 + slen opener + len data.
Proof.
  unfold encode_stream_bytes_frame. destruct (len data =? 0); [done|].
  destruct (append_stream_opener [] opener) as [out|] eqn:Ea; [|done].
  apply append_opener_ok in Ea as [Ho ->]. intros <-%Ok_inj. autorewrite with rustdb. cbn. lia.
Qed.

(** Sending a large block over a generic route kills the stream: a block
    of [MAX_CHANNEL_FRAME_BYTES] (48 KiB) or more is cut into pieces of up to
    [MAX_STREAM_FRAME_BYTES] (64 KiB), the first of which no generic frame can
    carry; the send fails, nothing leaves, and the stream is closed on both
    sides and removed. *)
Lemma large_send_kills_stream env peer_id opener stream_id data state wire e lease :
  streams state !! mkStreamKey opener stream_id = Some e -> path_lease e = Some lease ->
  env_quic env lease = false -> send_closed e = false ->
  is_ok (stream_opener_peer_id env peer_id opener) = true ->
  MAX_CHANNEL_FRAME_BYTES <= len data ->
  exists err state',
    send_stream_with_opener env peer_id opener stream_id data state wire = (Err err, state', wire) /\
    streams state' !! mkStreamKey opener stream_id = None.
Proof.
  intros Hk Hlease Hquic Hs Ho Hd. unfold MAX_CHANNEL_FRAME_BYTES in Hd.
  unfold send_stream_with_opener. rewrite (proj2 (Z.eqb_neq _ _)) by lia.
  destruct (stream_opener_peer_id env peer_id opener) as [op|]; [|done].
  unfold send_guard, take_lease. cbv zeta. rewrite Hk, Hs, Hlease, Hquic.
  unfold send_generic, next_send_seq_of. cbn [streams put_entry]. rewrite lookup_insert_eq.
  cbn [send_closed set_lease next_send_seq]. rewrite Hs.
  destruct (chunks_first MAX_STREAM_FRAME_BYTES data ltac:(done) ltac:(lia)) as [rest ->].
  cbn [send_chunks]. set (piece := slice 0 _ data).
  assert (Hp : 48 * 1024 <= len piece)
    by (unfold piece, MAX_STREAM_FRAME_BYTES; rewrite len_slice; lia).
  set (s1 := put_entry _ _ state).
  assert (Hgone : streams (close_stream_after_path_loss opener stream_id s1).2
                  !! mkStreamKey opener stream_id = None).
  { eapply path_loss_removes; [cbn; apply lookup_insert_eq|done]. }
  assert (Hfin : forall err, exists err' state',
    (if negb (env_active_after env)
     then (@Err unit _ StreamClosed, (close_stream_after_path_loss opener stream_id s1).2, wire)
     else (Err err, (close_stream_after_path_loss opener stream_id s1).2, wire))
    = (Err err', state', wire) /\ streams state' !! mkStreamKey opener stream_id = None)
    by (intros err; destruct (env_active_after env); by eexists _, _).
  destruct (encode_stream_bytes_frame _ _ _ piece) as [payload|err] eqn:Ee; [|apply Hfin].
  apply encode_bytes_len in Ee. unfold send_frame.
  destruct (encode_generic_frame KindStreamBytes payload) as [frame|err] eqn:Eg; [|apply Hfin].
  exfalso. unfold encode_generic_frame, MAX_CHANNEL_FRAME_BYTES, GENERIC_FRAME_HEADER_BYTES in Eg.
  pose proof (slen_nonneg op). rewrite (proj2 (Z.ltb_lt _ (len payload + _))) in Eg by lia.
  by rewrite orb_true_r in Eg.
Qed.

(** ** Isolation of inbound frames *)

Definition touches_only (k : StreamKey) (s s' : StreamState) : Prop :=
  forall j, j <> k -> streams s' !! j = streams s !! j /\ (j ∈ retired s' <-> j ∈ retired s).

#[export] Instance touches_only_preorder k : PreOrder (touches_only k).
Proof.
  split; [done|]. intros s1 s2 s3 H12 H23 j Hj. destruct (H12 j Hj), (H23 j Hj).
  split; [congruence|tauto].
Qed.

Lemma touches_put k e s : touches_only k s (put_entry k e s).
Proof. intros j Hj. cbn. by rewrite lookup_insert_ne. Qed.

Lemma touches_retire k s : touches_only k s (retire k s).
Proof.
  intros j Hj. cbn. rewrite lookup_delete_ne by done. split; [done|].
  destruct (_ <? _); [set_solver|done].
Qed.

Create HintDb touches.
#[export] Hint Resolve touches_put touches_retire : touches.
#[export] Hint Extern 1 (touches_only _ ?s ?s) => reflexivity : touches.

(** Each manager operation touches the stream it names. *)
Ltac touches_op :=
  cbv zeta; repeat destruct_match_goal; cbn [snd]; rewrite ?retire_put; auto with touches.

Lemma touches_open o id service c s : touches_only (mkStreamKey o id) s (open o id service c s).2.
Proof. unfold open. touches_op. Qed.

Lemma touches_bind o id lease s : touches_only (mkStreamKey o id) s (bind_lease o id lease s).2.
Proof. unfold bind_lease. touches_op. Qed.

Lemma touches_bytes o id seq data s :
  touches_only (mkStreamKey o id) s (handle_bytes_turn o id seq data s).2.
Proof. unfold handle_bytes_turn. touches_op. Qed.

Lemma touches_handle_close o id s : touches_only (mkStreamKey o id) s (handle_close o id s).
Proof. unfold handle_close. touches_op. Qed.

Lemma touches_close_local o id s : touches_only (mkStreamKey o id) s (close_local o id s).
Proof. unfold close_local. touches_op. Qed.

Lemma touches_path_loss o id s :
  touches_only (mkStreamKey o id) s (close_stream_after_path_loss o id s).2.
Proof. cbn. etrans; [apply touches_handle_close|apply touches_close_local]. Qed.

Lemma touches_inbound_open env acq o id service s :
  touches_only (mkStreamKey o id) s (handle_inbound_open env acq o id service s).2.
Proof.
  unfold handle_inbound_open, handle_open. cbv zeta.
  pose proof (touches_open o id service
    (if String.eqb service STREAM_SERVICE_SSH then BridgeConsumer else EventConsumer) s) as H1.
  destruct (open _ _ _ _ s) as [[[]|[]] s1]; cbn in H1; try done.
  assert (H2 : touches_only (mkStreamKey o id) s1 (bind_inbound_attempt env acq o id s1).2).
  { unfold bind_inbound_attempt. destruct acq as [lease|].
    - destruct (negb _); [done|apply touches_bind].
    - apply (touches_path_loss o id s1). }
  destruct (bind_inbound_attempt _ _ _ _ s1) as [[[]|e] s2]; cbn in H2; cbn [snd].
  - by etrans.
  - etrans; [exact H1|]. etrans; [exact H2|apply touches_path_loss].
Qed.

(** A frame concerns one stream: a frame that does not decode, or whose
    opener is neither end of the connection, changes nothing; any other
    changes at most the stream its identity names, under the namespace of its
    opener, and can open only streams of the remote end.  Opening a stream
    that is open, again, changes nothing. *)
Lemma inbound_frame_isolated env acq peer_id kind payload s :
  let s' := (handle_inbound_stream_frame env acq peer_id kind payload s).2 in
  (s' = s \/
   exists opener_peer_id stream_id opener,
     decode_stream_frame_identity kind payload = Ok (opener_peer_id, stream_id) /\
     inbound_stream_opener env peer_id opener_peer_id = Ok opener /\
     (kind = KindStreamOpen -> opener = Remote) /\
     touches_only (mkStreamKey opener stream_id) s s') /\
  (forall opener_peer_id stream_id service,
     kind = KindStreamOpen -> decode_stream_open_frame payload = Ok (opener_peer_id, stream_id, service) ->
     is_Some (streams s !! mkStreamKey Remote stream_id) -> s' = s).
Proof.
  cbv zeta. split.
  - destruct kind; cbn [handle_inbound_stream_frame decode_stream_frame_identity]; try by left.
    + destruct (decode_stream_bytes_frame payload) as [[[[op id] q] data]|] eqn:E; [|by left].
      destruct (inbound_stream_opener env peer_id op) as [o|] eqn:Eo; [|by left].
      right. exists op, id, o. split_and!; [done..|]. apply touches_bytes.
    + destruct (decode_stream_open_frame payload) as [[[op id] service]|] eqn:E; [|by left].
      destruct (inbound_stream_opener env peer_id op) as [[]|] eqn:Eo; [by left| |by left].
      right. exists op, id, Remote. split_and!; [done..|].
      pose proof (touches_inbound_open env acq Remote id service s) as Ht.
      by destruct (handle_inbound_open _ _ _ _ _ s).
    + destruct (decode_stream_close_frame payload) as [[op id]|] eqn:E; [|by left].
      destruct (inbound_stream_opener env peer_id op) as [o|] eqn:Eo; [|by left].
      right. exists op, id, o. split_and!; [done..|]. apply touches_handle_close.
  - intros op id service -> Hd Hk. cbn [handle_inbound_stream_frame]. rewrite Hd.
    destruct (inbound_stream_opener env peer_id op) as [[]|]; try done.
    unfold handle_inbound_open, handle_open, open. cbv zeta.
    destruct (_ || _); [done|]. destruct (_ <=? _); [done|]. by rewrite bool_decide_eq_true_2.
Qed.

(** ** Instances of the theorems *)

Definition sample_env : StreamEnv :=
  mkStreamEnv (Some "alice") (fun _ => false) true true (fun _ => true) (mkSendStream 0).
Definition sample_open : StreamState :=
  (bind_lease Local 7 (mkPathLease 1) (open Local 7 "ssh" PollConsumer state_default).2).2.
Definition sample_entry : StreamEntry := set_lease (Some (mkPathLease 1)) (fresh_entry PollConsumer).
Definition sample_send := send_stream_with_opener sample_env "bob" Local 7 (str_bytes "hi") sample_open [].

(** Witness for C27: the peer opens the same stream twice. *)
Definition sample_open_frame : bytes :=
  match encode_stream_open_frame "bob" 9 "ssh" with Ok f => f | Err _ => [] end.
Definition sample_inbound (s : StreamState) : StreamState :=
  (handle_inbound_stream_frame sample_env (Some (mkPathLease 2)) "bob" KindStreamOpen
     sample_open_frame s).2.
