(* ===== verification/TransferManager.v ===== *)
(** * File transfers: manifests and the transfer manager

    Models [network-transfer/src/manifest.rs], [cancellation.rs] and
    [manager.rs]: the manifest a sender offers and its validation, the shared
    cancellation flags, and the registry of transfers with its state machine.
    Each method of the manager holds its lock once and is a function of the
    registry. *)
From S2P Require Import Prelude.

(** ** Manifests *)

Definition DEFAULT_TRANSFER_BUFFER : Z := 512 * 1024.
Definition NETWORK_TRANSFER_PROTOCOL_VERSION : Z := 1.

Record FileManifest := mkManifest {
  fm_transfer_id : string;
  fm_file_name : string;
  fm_file_size : Z;
  fm_modified_at : Z;
  fm_content_hash : string;
  fm_protocol_version : Z;
}.

#[export] Instance FileManifest_eq_dec : EqDecision FileManifest.
Proof. solve_decision. Defined.

(** [u8::is_ascii_alphanumeric] and [is_ascii_hexdigit]. *)
Definition is_ascii_alphanumeric (b : byte) : bool :=
  in_range 48 57 b || in_range 65 90 b || in_range 97 122 b.
Definition is_ascii_hexdigit (b : byte) : bool :=
  in_range 48 57 b || in_range 65 70 b || in_range 97 102 b.

(** [std::path::Path::components] on Unix: [/] separates, a leading one is the
    root, empty pieces and inner [.] pieces are skipped. *)
Inductive Component :=
| RootDir
| CurDir
| ParentDir
| Normal (piece : bytes).

Definition slash : byte := Byte.x2f.
Definition backslash : byte := Byte.x5c.

Fixpoint split_slash (l : bytes) : list bytes :=
  match l with
  | [] => [[]]
  | b :: l =>
    if bool_decide (b = slash) then [] :: split_slash l
    else match split_slash l with
         | piece :: rest => (b :: piece) :: rest
         | [] => [[b]]
         end
  end.

Definition piece_component (first : bool) (piece : bytes) : option Component :=
  if bool_decide (piece = []) then None
  else if bool_decide (piece = str_bytes ".") then (if first then Some CurDir else None)
  else if bool_decide (piece = str_bytes "..") then Some ParentDir
  else Some (Normal piece).

Definition components (path : string) : list Component :=
  match split_slash (str_bytes path) with
  | [] => []
  | [piece] => option_list (piece_component true piece)
  | piece :: rest =>
    (if bool_decide (piece = []) then [RootDir] else option_list (piece_component true piece))
    ++ omap (piece_component false) rest
  end.

Definition validate (m : FileManifest) : result unit string :=
  if str_is_empty (fm_transfer_id m) || (128 <? slen (fm_transfer_id m))
     || negb (forallb (fun b => is_ascii_alphanumeric b || bool_decide (b = Byte.x2d)
                                || bool_decide (b = Byte.x5f)) (str_bytes (fm_transfer_id m)))
  then Err "transfer_id contains unsafe characters"%string
  else if str_is_empty (fm_file_name m) || (255 <? slen (fm_file_name m))
     || existsb (fun b => bool_decide (b = slash) || bool_decide (b = backslash))
          (str_bytes (fm_file_name m))
     || negb (len (components (fm_file_name m)) =? 1)
     || match components (fm_file_name m) with
        | (ParentDir | CurDir) :: _ => true
        | _ => false
        end
  then Err "file_name must be a single safe path component"%string
  else if negb (slen (fm_content_hash m) =? 64)
     || negb (forallb is_ascii_hexdigit (str_bytes (fm_content_hash m)))
  then Err "content_hash must be a SHA-256 hex digest"%string
  else if negb (fm_protocol_version m =? NETWORK_TRANSFER_PROTOCOL_VERSION)
  then Err "unsupported transfer protocol version"%string
  else Ok tt.

(** ** Transfers *)

Inductive TransferFailureReason :=
| HashMismatch | SourceChanged | UserRejected | Protocol | Permission
| RetryBudgetExhausted | Io | SessionReplaced.

Inductive TransferState :=
| Offering | WaitingApproval | Transferring | Paused | Resuming | Verifying
| Completed | Cancelled | Failed (reason : TransferFailureReason).

#[export] Instance TransferFailureReason_eq_dec : EqDecision TransferFailureReason.
Proof. solve_decision. Defined.
#[export] Instance TransferState_eq_dec : EqDecision TransferState.
Proof. solve_decision. Defined.

(** A clone of a token shares its flag: the token is the flag's place among
    [flags]. *)
Record TransferCancellation := mkCancellation { cancelled : nat }.

Record TransferSession := mkTransfer {
  ts_transfer_id : string;
  ts_peer_id : string;
  ts_manifest : FileManifest;
  ts_confirmed_offset : Z;
  ts_state : TransferState;
  ts_cancellation : TransferCancellation;
  ts_source_path : option string;
}.

Record ResumableTransfer := mkResumable {
  rt_transfer_id : string;
  rt_peer_id : string;
  rt_session_id : string;
  rt_source_path : string;
  rt_manifest : FileManifest;
  rt_offset : Z;
}.

Record TransferSnapshot := mkSnapshot {
  sn_transfer_id : string;
  sn_peer_id : string;
  sn_confirmed_offset : Z;
  sn_state : TransferState;
}.

Record TransferManager := mkTransfers {
  transfers : gmap string TransferSession;
  flags : list bool;
}.

Definition is_cancelled_flag (c : TransferCancellation) (s : TransferManager) : bool :=
  default false (flags s !! cancelled c).
Definition cancel_flag (c : TransferCancellation) (s : TransferManager) : TransferManager :=
  mkTransfers (transfers s) (<[cancelled c := true]> (flags s)).

Definition with_state (state : TransferState) (t : TransferSession) : TransferSession :=
  mkTransfer (ts_transfer_id t) (ts_peer_id t) (ts_manifest t) (ts_confirmed_offset t) state
    (ts_cancellation t) (ts_source_path t).
Definition with_offset (bytes : Z) (t : TransferSession) : TransferSession :=
  mkTransfer (ts_transfer_id t) (ts_peer_id t) (ts_manifest t) bytes (ts_state t)
    (ts_cancellation t) (ts_source_path t).
Definition put_transfer (id : string) (t : TransferSession) (s : TransferManager) : TransferManager :=
  mkTransfers (<[id := t]> (transfers s)) (flags s).

(** The tests of the code on a state. *)
Definition is_terminal (state : TransferState) : bool :=
  match state with Completed | Cancelled | Failed _ => true | _ => false end.
Definition is_running (state : TransferState) : bool :=
  match state with
  | Offering | WaitingApproval | Transferring | Resuming | Verifying => true
  | _ => false
  end.

Definition transfers_new : TransferManager := mkTransfers ∅ [].

(** A new session and the flag allocated for it. *)
Definition new_session (manifest : FileManifest) (peer_id : string) (source_path : option string)
    (state : TransferState) (s : TransferManager) : TransferSession :=
  mkTransfer (fm_transfer_id manifest) peer_id manifest 0 state
    (mkCancellation (length (flags s))) source_path.
Definition insert_session (t : TransferSession) (s : TransferManager) : TransferManager :=
  mkTransfers (<[ts_transfer_id t := t]> (transfers s)) (flags s ++ [false]).

Definition same_paused (manifest : FileManifest) (peer_id : string) (t : TransferSession) : bool :=
  bool_decide (ts_state t = Paused) && bool_decide (ts_peer_id t = peer_id)
  && bool_decide (ts_manifest t = manifest).

Definition register_incoming (manifest : FileManifest) (peer_id : string) (s : TransferManager) :
    bool * TransferManager :=
  match transfers s !! fm_transfer_id manifest with
  | None => (true, insert_session (new_session manifest peer_id None WaitingApproval s) s)
  | Some item =>
    if same_paused manifest peer_id item
    then (true, put_transfer (fm_transfer_id manifest) (with_state WaitingApproval item) s)
    else (false, s)
  end.

Definition claim_incoming_resume (manifest : FileManifest) (peer_id : string) (s : TransferManager) :
    option Z * TransferManager :=
  match transfers s !! fm_transfer_id manifest with
  | None => (None, s)
  | Some item =>
    if same_paused manifest peer_id item
    then (Some (ts_confirmed_offset item),
          put_transfer (fm_transfer_id manifest) (with_state Resuming item) s)
    else (None, s)
  end.

Definition register_outgoing (manifest : FileManifest) (source_path peer_id : string)
    (s : TransferManager) : bool * TransferManager :=
  match transfers s !! fm_transfer_id manifest with
  | None => (true, insert_session (new_session manifest peer_id (Some source_path) Offering s) s)
  | Some _ => (false, s)
  end.

(** The methods that change one session when its state allows it. *)
Definition change_when (allowed : TransferState -> bool) (f : TransferSession -> TransferSession)
    (id : string) (s : TransferManager) : bool * TransferManager :=
  match transfers s !! id with
  | None => (false, s)
  | Some item => if allowed (ts_state item) then (true, put_transfer id (f item) s) else (false, s)
  end.

Definition mark_transferring : string -> TransferManager -> bool * TransferManager :=
  change_when (fun state => match state with Offering | WaitingApproval | Resuming => true | _ => false end)
    (with_state Transferring).

Definition mark_verifying : string -> TransferManager -> bool * TransferManager :=
  change_when (fun state => bool_decide (state = Transferring)) (with_state Verifying).

Definition mark_completed : string -> TransferManager -> bool * TransferManager :=
  change_when (fun state => match state with Transferring | Verifying => true | _ => false end)
    (with_state Completed).

Definition update_progress (id : string) (bytes : Z) : TransferManager -> bool * TransferManager :=
  change_when is_running (with_offset bytes) id.

Definition pause_for_network : string -> TransferManager -> bool * TransferManager :=
  change_when is_running (with_state Paused).

Definition fail_transfer (id : string) (reason : TransferFailureReason) :
    TransferManager -> bool * TransferManager :=
  change_when (fun state => negb (is_terminal state)) (with_state (Failed reason)) id.

Definition cancel_transfer (id : string) (s : TransferManager) : bool * TransferManager :=
  match transfers s !! id with
  | None => (false, s)
  | Some item =>
    if is_terminal (ts_state item) then (false, s)
    else (true, put_transfer id (with_state Cancelled item) (cancel_flag (ts_cancellation item) s))
  end.

Section Iteration.
Context {H : HashOrder string TransferSession}.

(** The transfer [take_resumable_for_peer] makes of an item, if any. *)
Definition resumable (peer_id session_id : string) (item : TransferSession) : option ResumableTransfer :=
  if negb (bool_decide (ts_state item = Paused)) || negb (bool_decide (ts_peer_id item = peer_id))
  then None
  else match ts_source_path item with
       | None => None
       | Some source_path =>
         Some (mkResumable (ts_transfer_id item) (ts_peer_id item) session_id source_path
                 (ts_manifest item) (ts_confirmed_offset item))
       end.

Definition take_resumable_for_peer (peer_id session_id : string) (s : TransferManager) :
    list ResumableTransfer * TransferManager :=
  (omap (fun kv => resumable peer_id session_id kv.2) (hash_iter (transfers s)),
   mkTransfers ((fun item => match resumable peer_id session_id item with
                             | Some _ => with_state Resuming item
                             | None => item
                             end) <$> transfers s) (flags s)).

Definition pausable (peer_id : string) (item : TransferSession) : bool :=
  bool_decide (ts_peer_id item = peer_id) && is_running (ts_state item).

Definition pause_peer_transfers (peer_id : string) (s : TransferManager) :
    list string * TransferManager :=
  (omap (fun kv => if pausable peer_id kv.2 then Some (ts_transfer_id kv.2) else None)
     (hash_iter (transfers s)),
   mkTransfers ((fun item => if pausable peer_id item then with_state Paused item else item)
                <$> transfers s) (flags s)).

Definition active_ids_for_peer (peer_id : string) (s : TransferManager) : list string :=
  omap (fun kv => if bool_decide (ts_peer_id kv.2 = peer_id) && negb (is_terminal (ts_state kv.2))
                  then Some (ts_transfer_id kv.2) else None) (hash_iter (transfers s)).

Definition active_count_for_peer (peer_id : string) (s : TransferManager) : Z :=
  Z.min (len (List.filter (fun kv => bool_decide (ts_peer_id kv.2 = peer_id)
                                     && negb (is_terminal (ts_state kv.2)))
                (hash_iter (transfers s)))) u32_max.
End Iteration.

Definition is_cancelled (id : string) (s : TransferManager) : bool :=
  match transfers s !! id with
  | Some item => bool_decide (ts_state item = Cancelled)
  | None => false
  end.

Definition cancellation_token (id : string) (s : TransferManager) : option TransferCancellation :=
  ts_cancellation <$> transfers s !! id.

Definition snapshot (id : string) (s : TransferManager) : option TransferSnapshot :=
  (fun item => mkSnapshot (ts_transfer_id item) (ts_peer_id item) (ts_confirmed_offset item)
                 (ts_state item)) <$> transfers s !! id.

Definition remove_transfer (id : string) (s : TransferManager) : TransferManager :=
  mkTransfers (delete id (transfers s)) (flags s).
