(* ===== verification/TransferStates.v ===== *)
(** * File transfers: theorems about the manager

    Runs of the manager's operations in any order: the registry's invariant,
    the life cycle of a transfer, cancellation seen through every clone of a
    token, and the exclusive claim of a transfer by one attempt at a time. *)
From S2P Require Import Prelude TransferManager.

Inductive transfer_op :=
| TRegisterIncoming (manifest : FileManifest) (peer_id : string)
| TClaimIncoming (manifest : FileManifest) (peer_id : string)
| TRegisterOutgoing (manifest : FileManifest) (source_path peer_id : string)
| TTransferring (id : string)
| TVerifying (id : string)
| TCompleted (id : string)
| TProgress (id : string) (bytes : Z)
| TPause (id : string)
| TFail (id : string) (reason : TransferFailureReason)
| TCancel (id : string)
| TTakeResumable (peer_id session_id : string)
| TPausePeer (peer_id : string)
| TRemove (id : string).

(** An attempt takes a transfer, or the transfer is free again. *)
Inductive transfer_event :=
| EvClaim (id : string)
| EvRelease (id : string).

Section States.
Context {H : HashOrder string TransferSession}.

Definition transfer_step (op : transfer_op) (s : TransferManager) :
    list transfer_event * TransferManager :=
  match op with
  | TRegisterIncoming m peer =>
    let '(ok, s') := register_incoming m peer s in
    (if ok then [EvClaim (fm_transfer_id m)] else [], s')
  | TClaimIncoming m peer =>
    let '(offset, s') := claim_incoming_resume m peer s in
    (match offset with Some _ => [EvClaim (fm_transfer_id m)] | None => [] end, s')
  | TRegisterOutgoing m path peer =>
    let '(ok, s') := register_outgoing m path peer s in
    (if ok then [EvClaim (fm_transfer_id m)] else [], s')
  | TTransferring id => ([], (mark_transferring id s).2)
  | TVerifying id => ([], (mark_verifying id s).2)
  | TCompleted id => ([], (mark_completed id s).2)
  | TProgress id bytes => ([], (update_progress id bytes s).2)
  | TPause id =>
    let '(ok, s') := pause_for_network id s in (if ok then [EvRelease id] else [], s')
  | TFail id reason => ([], (fail_transfer id reason s).2)
  | TCancel id => ([], (cancel_transfer id s).2)
  | TTakeResumable peer session =>
    let '(taken, s') := take_resumable_for_peer peer session s in
    ((fun t => EvClaim (rt_transfer_id t)) <$> taken, s')
  | TPausePeer peer =>
    let '(ids, s') := pause_peer_transfers peer s in (EvRelease <$> ids, s')
  | TRemove id => ([EvRelease id], remove_transfer id s)
  end.

Fixpoint transfer_run (ops : list transfer_op) (s : TransferManager) :
    list transfer_event * TransferManager :=
  match ops with
  | [] => ([], s)
  | op :: ops =>
    let '(ev, s1) := transfer_step op s in
    let '(evs, s2) := transfer_run ops s1 in (ev ++ evs, s2)
  end.

(** ** The life cycle of a transfer *)

Inductive moves : TransferState -> TransferState -> Prop :=
| mv_start s : s ∈ [Offering; WaitingApproval; Resuming] -> moves s Transferring
| mv_verify : moves Transferring Verifying
| mv_complete s : s ∈ [Transferring; Verifying] -> moves s Completed
| mv_pause s : is_running s = true -> moves s Paused
| mv_offered_again : moves Paused WaitingApproval
| mv_resume : moves Paused Resuming
| mv_fail s reason : is_terminal s = false -> moves s (Failed reason)
| mv_cancel s : is_terminal s = false -> moves s Cancelled.

Lemma moves_not_terminal st st' : moves st st' -> is_terminal st = false.
Proof. destruct 1 as [? Hs| |? Hs|[]| | | |]; try done; set_unfold; by destruct_or? Hs; subst. Qed.

(** What one operation may do to one place of the registry. *)
Inductive entry_change (op : transfer_op) (id : string) :
    option TransferSession -> option TransferSession -> Prop :=
| ec_same o : entry_change op id o o
| ec_incoming m peer c :
    op = TRegisterIncoming m peer -> fm_transfer_id m = id ->
    entry_change op id None (Some (mkTransfer id peer m 0 WaitingApproval c None))
| ec_outgoing m peer path c :
    op = TRegisterOutgoing m path peer -> fm_transfer_id m = id ->
    entry_change op id None (Some (mkTransfer id peer m 0 Offering c (Some path)))
| ec_move t state :
    moves (ts_state t) state -> entry_change op id (Some t) (Some (with_state state t))
| ec_progress t n :
    op = TProgress id n -> is_running (ts_state t) = true ->
    entry_change op id (Some t) (Some (with_offset n t))
| ec_removed t : op = TRemove id -> entry_change op id (Some t) None.

(** A session is filed under its own identifier, its flag is set exactly when
    it is cancelled, and no two sessions share a flag. *)
Record manager_inv (s : TransferManager) : Prop := {
  mi_entry : forall id t, transfers s !! id = Some t ->
    ts_transfer_id t = id /\ fm_transfer_id (ts_manifest t) = id /\
    flags s !! cancelled (ts_cancellation t) = Some (bool_decide (ts_state t = Cancelled));
  mi_flags : forall id1 id2 t1 t2,
    transfers s !! id1 = Some t1 -> transfers s !! id2 = Some t2 ->
    ts_cancellation t1 = ts_cancellation t2 -> id1 = id2;
}.

(** A change that keeps who the transfer is and whether it is cancelled. *)
Definition mild (t t' : TransferSession) : Prop :=
  ts_transfer_id t' = ts_transfer_id t /\ ts_manifest t' = ts_manifest t /\
  ts_cancellation t' = ts_cancellation t /\ (ts_state t' = Cancelled <-> ts_state t = Cancelled).

Lemma mild_refl t : mild t t.
Proof. by repeat split. Qed.

Lemma inv_pointwise s ts :
  manager_inv s ->
  (forall id t', ts !! id = Some t' -> exists t, transfers s !! id = Some t /\ mild t t') ->
  manager_inv (mkTransfers ts (flags s)).
Proof.
  intros [He Hf] Hp. split; cbn.
  - intros id t' Ht. destruct (Hp _ _ Ht) as (t & Et & -> & -> & -> & Hc).
    destruct (He _ _ Et) as (? & ? & ->). repeat split; [done..|].
    f_equal. by apply bool_decide_ext.
  - intros id1 id2 t1 t2 E1 E2. destruct (Hp _ _ E1) as (u1 & F1 & _ & _ & -> & _).
    destruct (Hp _ _ E2) as (u2 & F2 & _ & _ & -> & _). by apply Hf.
Qed.

Lemma inv_put s id t t' :
  manager_inv s -> transfers s !! id = Some t -> mild t t' -> manager_inv (put_transfer id t' s).
Proof.
  intros Hi Ht Hm. apply inv_pointwise; [done|]. intros id' u Hu.
  destruct (decide (id = id')) as [<-|Hn].
  - rewrite lookup_insert_eq in Hu. injection Hu as <-. eauto.
  - rewrite lookup_insert_ne in Hu by done. eauto using mild_refl.
Qed.

Lemma inv_fmap s (f : TransferSession -> TransferSession) :
  manager_inv s -> (forall t, mild t (f t)) ->
  manager_inv (mkTransfers (f <$> transfers s) (flags s)).
Proof.
  intros Hi Hm. apply inv_pointwise; [done|]. intros id t' Ht.
  rewrite lookup_fmap in Ht. destruct (transfers s !! id) as [t|]; [|done].
  injection Ht as <-. eauto.
Qed.

Lemma inv_insert s t :
  manager_inv s -> transfers s !! ts_transfer_id t = None ->
  fm_transfer_id (ts_manifest t) = ts_transfer_id t -> ts_state t <> Cancelled ->
  cancelled (ts_cancellation t) = length (flags s) -> manager_inv (insert_session t s).
Proof.
  intros [He Hf] Hn Hm Hs Hc.
  assert (Hold : forall id u, transfers s !! id = Some u ->
    (cancelled (ts_cancellation u) < length (flags s))%nat).
  { intros id u Hu. destruct (He _ _ Hu) as (_ & _ & Hl). by apply lookup_lt_Some in Hl. }
  split; cbn.
  - intros id u. rewrite lookup_insert_Some. intros [[<- <-]|[Hne Hu]].
    + rewrite Hc, bool_decide_eq_false_2 by done. repeat split; [done|].
      by rewrite lookup_app_r, Nat.sub_diag by lia.
    + destruct (He _ _ Hu) as (? & ? & ?). rewrite lookup_app_l by eauto. done.
  - intros id1 id2 t1 t2. rewrite !lookup_insert_Some.
    intros [[<- <-]|[Hn1 H1]] [[<- <-]|[Hn2 H2]] Hcc; [done| | |by eauto].
    + apply Hold in H2. rewrite <- Hcc in H2. lia.
    + apply Hold in H1. rewrite Hcc in H1. lia.
Qed.

Lemma inv_cancel s id t :
  manager_inv s -> transfers s !! id = Some t ->
  manager_inv (put_transfer id (with_state Cancelled t) (cancel_flag (ts_cancellation t) s)).
Proof.
  intros [He Hf] Ht. destruct (He _ _ Ht) as (Hid & Hm & Hfl). pose proof (lookup_lt_Some _ _ _ Hfl).
  split; cbn.
  - intros id' u. rewrite lookup_insert_Some. intros [[<- <-]|[Hne Hu]]; cbn.
    + repeat split; [done..|]. by rewrite list_lookup_insert_eq.
    + destruct (He _ _ Hu) as (? & ? & ?). repeat split; [done..|].
      rewrite list_lookup_insert_ne; [done|]. intros E. apply Hne. apply (Hf _ _ _ _ Ht Hu).
      destruct (ts_cancellation t), (ts_cancellation u). cbn in E. by subst.
  - intros id1 id2 t1 t2. rewrite !lookup_insert_Some.
    intros [[<- <-]|[Hn1 H1]] [[<- <-]|[Hn2 H2]] Hcc; [done|..]; cbn in Hcc; eauto.
Qed.

(** ** The shapes of a step *)

(** What an operation reports about the session it changes. *)
Definition reported (id : string) (t t' : TransferSession) (evs : list transfer_event) : Prop :=
  (evs = [] /\ (ts_state t' = Paused -> ts_state t = Paused)) \/
  (evs = [EvClaim id] /\ ts_state t = Paused /\ ts_state t' <> Paused) \/
  evs = [EvRelease id].

Inductive step_shape (op : transfer_op) (s : TransferManager) :
    list transfer_event -> TransferManager -> Prop :=
| ss_same : step_shape op s [] s
| ss_insert t :
    transfers s !! ts_transfer_id t = None -> entry_change op (ts_transfer_id t) None (Some t) ->
    fm_transfer_id (ts_manifest t) = ts_transfer_id t -> is_running (ts_state t) = true ->
    cancelled (ts_cancellation t) = length (flags s) ->
    step_shape op s [EvClaim (ts_transfer_id t)] (insert_session t s)
| ss_put id t t' evs :
    transfers s !! id = Some t -> mild t t' -> entry_change op id (Some t) (Some t') ->
    reported id t t' evs -> step_shape op s evs (put_transfer id t' s)
| ss_cancel id t :
    transfers s !! id = Some t -> is_terminal (ts_state t) = false ->
    step_shape op s [] (put_transfer id (with_state Cancelled t) (cancel_flag (ts_cancellation t) s))
| ss_claims f ids :
    (forall t, mild t (f t)) -> NoDup ids ->
    (forall id, id ∈ ids -> exists t, transfers s !! id = Some t /\ ts_state t = Paused /\
       f t = with_state Resuming t) ->
    (forall id t, transfers s !! id = Some t -> id ∉ ids -> f t = t) ->
    step_shape op s (EvClaim <$> ids) (mkTransfers (f <$> transfers s) (flags s))
| ss_releases f ids :
    (forall t, mild t (f t)) ->
    (forall id t, transfers s !! id = Some t ->
       f t = t \/ (id ∈ ids /\ is_running (ts_state t) = true /\ f t = with_state Paused t)) ->
    step_shape op s (EvRelease <$> ids) (mkTransfers (f <$> transfers s) (flags s))
| ss_remove id : op = TRemove id -> step_shape op s [EvRelease id] (remove_transfer id s).

Lemma mild_state state t :
  ts_state t <> Cancelled -> state <> Cancelled -> mild t (with_state state t).
Proof. repeat split; cbn; congruence. Qed.

Lemma change_when_cases allowed f id s :
  change_when allowed f id s = (false, s) \/
  exists t, transfers s !! id = Some t /\ allowed (ts_state t) = true /\
    change_when allowed f id s = (true, put_transfer id (f t) s).
Proof. unfold change_when. destruct (transfers s !! id) as [t|]; [|by left]. destruct (allowed _) eqn:E; eauto. Qed.

(** A [change_when] to a state other than [Paused], which reports nothing. *)
Lemma shape_move op id s allowed state :
  (forall st, allowed st = true -> moves st state /\ st <> Cancelled) ->
  state <> Cancelled -> state <> Paused ->
  step_shape op s [] (change_when allowed (with_state state) id s).2.
Proof.
  intros Ha Hc Hp. destruct (change_when_cases allowed (with_state state) id s) as [->|(t & Ht & Hal & ->)].
  - constructor.
  - destruct (Ha _ Hal). cbn [snd]. apply (ss_put _ _ _ t);
      [done|by apply mild_state|by constructor|by left].
Qed.

Lemma same_paused_spec m peer t :
  same_paused m peer t = true -> ts_state t = Paused /\ ts_peer_id t = peer /\ ts_manifest t = m.
Proof. unfold same_paused. intros. by bool_facts. Qed.

(** Taking a paused session back into work. *)
Lemma shape_resume op id s t state :
  transfers s !! id = Some t -> ts_state t = Paused -> moves Paused state -> is_running state = true ->
  step_shape op s [EvClaim id] (put_transfer id (with_state state t) s).
Proof.
  intros Ht Hp Hm Hr. apply (ss_put _ _ _ t); [done| | |].
  - apply mild_state; [by rewrite Hp|by intros ->].
  - apply ec_move. by rewrite Hp.
  - right; left. repeat split; [done|]. cbn. by intros ->.
Qed.

Lemma NoDup_omap_fst {A} (f : string * A -> option string) (l : list (string * A)) :
  NoDup l.*1 -> (forall k a i, (k, a) ∈ l -> f (k, a) = Some i -> i = k) -> NoDup (omap f l).
Proof.
  induction l as [|[k a] l IH]; intros Hn Hf; [constructor|].
  cbn in Hn. apply NoDup_cons in Hn as [Hk Hn].
  assert (IH' : NoDup (omap f l)) by (apply IH; [done|]; intros; eapply Hf; [by right|done]).
  cbn. destruct (f (k, a)) as [i|] eqn:E; [|done].
  assert (i = k) as -> by (eapply Hf; [by left|done]).
  constructor; [|done]. rewrite list_elem_of_omap. intros ([k' a'] & Hin & E').
  assert (k = k') as -> by (eapply Hf; [by right|done]).
  apply Hk. rewrite list_elem_of_fmap. by exists (k', a').
Qed.

Lemma resumable_spec peer session t rt :
  resumable peer session t = Some rt -> ts_state t = Paused /\ rt_transfer_id rt = ts_transfer_id t.
Proof.
  unfold resumable. destruct (_ || _) eqn:E; [done|]. destruct (ts_source_path t); [|done].
  bool_facts. by intros [= <-].
Qed.

Lemma shape_take op s peer session :
  manager_inv s ->
  step_shape op s ((fun t => EvClaim (rt_transfer_id t)) <$> (take_resumable_for_peer peer session s).1)
    (take_resumable_for_peer peer session s).2.
Proof.
  intros Hi. unfold take_resumable_for_peer. cbn [fst snd].
  set (f := fun item => match resumable peer session item with Some _ => _ | None => _ end).
  set (g := fun kv : string * TransferSession => resumable peer session kv.2).
  replace ((fun t => EvClaim (rt_transfer_id t)) <$> omap g (hash_iter (transfers s)))
    with (EvClaim <$> omap (fun kv => rt_transfer_id <$> g kv) (hash_iter (transfers s)))
    by (rewrite <- list_fmap_omap; by rewrite <- list_fmap_compose).
  assert (Hin : forall id, id ∈ omap (fun kv => rt_transfer_id <$> g kv) (hash_iter (transfers s)) <->
    exists t rt, transfers s !! id = Some t /\ resumable peer session t = Some rt).
  { intros id. rewrite list_elem_of_omap. unfold g. split.
    - intros ([k t] & Hk & E). apply elem_of_hash_iter in Hk. cbn in E.
      destruct (resumable _ _ _) as [rt|] eqn:Er; [|done]. injection E as <-.
      destruct (resumable_spec _ _ _ _ Er) as [_ ->]. destruct (mi_entry _ Hi _ _ Hk) as [-> _]. eauto.
    - intros (t & rt & Ht & Er). exists (id, t). rewrite elem_of_hash_iter. split; [done|].
      cbn. rewrite Er. cbn. destruct (resumable_spec _ _ _ _ Er) as [_ ->].
      by destruct (mi_entry _ Hi _ _ Ht) as [-> _]. }
  apply ss_claims.
  - intros t. unfold f. destruct (resumable _ _ t) eqn:E; [|apply mild_refl].
    apply resumable_spec in E as [E _]. by apply mild_state; [rewrite E|].
  - apply NoDup_omap_fst; [apply NoDup_hash_iter_fst|]. intros k t i Hk%elem_of_hash_iter E.
    cbn in E. destruct (g (k, t)) as [rt|] eqn:Er; [|done]. injection E as <-.
    destruct (resumable_spec _ _ _ _ Er) as [_ ->]. by destruct (mi_entry _ Hi _ _ Hk).
  - intros id (t & rt & Ht & E)%Hin. exists t. unfold f. rewrite E.
    by apply resumable_spec in E as [E _].
  - intros id t Ht Hn. unfold f. destruct (resumable _ _ t) eqn:E; [|done].
    exfalso. apply Hn, Hin. eauto.
Qed.

Lemma shape_pause_peer op s peer :
  manager_inv s ->
  step_shape op s (EvRelease <$> (pause_peer_transfers peer s).1) (pause_peer_transfers peer s).2.
Proof.
  intros Hi. unfold pause_peer_transfers. cbn [fst snd]. apply ss_releases.
  - intros t. destruct (pausable peer t) eqn:E; [|apply mild_refl].
    unfold pausable in E. bool_facts. apply mild_state; [|done]. by intros Hs; rewrite Hs in *.
  - intros id t Ht. destruct (pausable peer t) eqn:E; [|by left]. right.
    split; [|by unfold pausable in E; bool_facts].
    rewrite list_elem_of_omap. exists (id, t). rewrite elem_of_hash_iter. split; [done|].
    cbn. rewrite E. by destruct (mi_entry _ Hi _ _ Ht) as [-> _].
Qed.

Lemma shape_pause op s id :
  step_shape op s (if (pause_for_network id s).1 then [EvRelease id] else []) (pause_for_network id s).2.
Proof.
  destruct (change_when_cases is_running (with_state Paused) id s) as [E|(t & Ht & Ha & E)];
    change (pause_for_network id s) with (change_when is_running (with_state Paused) id s);
    rewrite E; cbn [fst snd]; [constructor|].
  apply (ss_put _ _ _ t); [done| |by apply ec_move, mv_pause|by right; right].
  apply mild_state; [|done]. by intros Hs; rewrite Hs in Ha.
Qed.

Lemma shape_progress s id n :
  step_shape (TProgress id n) s [] (update_progress id n s).2.
Proof.
  destruct (change_when_cases is_running (with_offset n) id s) as [E|(t & Ht & Ha & E)];
    change (update_progress id n s) with (change_when is_running (with_offset n) id s);
    rewrite E; cbn [fst snd]; [constructor|].
  apply (ss_put _ _ _ t); [done|by repeat split|by apply ec_progress|by left].
Qed.

Lemma step_has_shape op s :
  manager_inv s -> step_shape op s (transfer_step op s).1 (transfer_step op s).2.
Proof.
  intros Hi. destruct op; cbn [transfer_step fst snd].
  - unfold register_incoming. destruct (transfers s !! _) as [t|] eqn:E.
    + destruct (same_paused _ _ t) eqn:Ep; cbn [fst snd]; [|constructor].
      apply same_paused_spec in Ep as (? & _). by apply shape_resume; [..|constructor|].
    + apply (ss_insert _ _ (new_session manifest peer_id None WaitingApproval s)); [done|..|done|done|done].
      by eapply ec_incoming.
  - unfold claim_incoming_resume. destruct (transfers s !! _) as [t|] eqn:E; [|constructor].
    destruct (same_paused _ _ t) eqn:Ep; cbn [fst snd]; [|constructor].
    apply same_paused_spec in Ep as (? & _). by apply shape_resume; [..|constructor|].
  - unfold register_outgoing. destruct (transfers s !! _) as [t|] eqn:E; [constructor|].
    apply (ss_insert _ _ (new_session manifest peer_id (Some source_path) Offering s)); [done|..|done|done|done].
    by eapply ec_outgoing.
  - apply shape_move; [|done..]. intros [] ?; try done; split; by repeat constructor.
  - apply shape_move; [|done..]. intros st Ha%bool_decide_eq_true. subst. split; [constructor|done].
  - apply shape_move; [|done..]. intros [] ?; try done; split; by repeat constructor.
  - apply shape_progress.
  - rewrite (surjective_pairing (pause_for_network _ _)). apply shape_pause.
  - apply shape_move; [|done..]. intros st Ha%negb_true_iff. split; [by constructor|by intros ->].
  - unfold cancel_transfer. destruct (transfers s !! id) as [t|] eqn:E; [|constructor].
    destruct (is_terminal _) eqn:Et; cbn [snd]; [constructor|by apply ss_cancel].
  - by apply shape_take.
  - by apply shape_pause_peer.
  - by constructor.
Qed.

(** ** What every shape keeps *)

Lemma shape_inv op s evs s' : manager_inv s -> step_shape op s evs s' -> manager_inv s'.
Proof.
  intros Hi [| t Hn Hc Hm Hr Hf | | | f ids Hm | f ids Hm |]; eauto using inv_put, inv_cancel, inv_fmap.
  - apply inv_insert; try done. by intros Hs; rewrite Hs in Hr.
  - apply inv_pointwise; [done|]. intros id' t. rewrite lookup_delete_Some. intros [_ ?].
    eauto using mild_refl.
Qed.

Lemma shape_entry op s evs s' id :
  step_shape op s evs s' -> entry_change op id (transfers s !! id) (transfers s' !! id).
Proof.
  destruct 1 as [|t Hn Hc|i t t' evs Ht _ Hc|i t Ht Hnt|f ids _ _ Hin Hout|f ids _ Hf|i ->]; cbn;
    [constructor| | | | | |].
  - destruct (decide (ts_transfer_id t = id)) as [<-|?];
      [by rewrite lookup_insert_eq, Hn|rewrite lookup_insert_ne by done; constructor].
  - destruct (decide (i = id)) as [<-|?];
      [by rewrite lookup_insert_eq, Ht|rewrite lookup_insert_ne by done; constructor].
  - destruct (decide (i = id)) as [<-|?];
      [rewrite lookup_insert_eq, Ht; by constructor; constructor
      |rewrite lookup_insert_ne by done; constructor].
  - rewrite lookup_fmap. destruct (transfers s !! id) as [t|] eqn:Ht; [|constructor]. cbn.
    destruct (decide (id ∈ ids)) as [Hi|Hi].
    + destruct (Hin _ Hi) as (u & Hu & Hp & Hw). simplify_eq. rewrite Hw.
      constructor. rewrite Hp. constructor.
    + rewrite (Hout _ _ Ht Hi). constructor.
  - rewrite lookup_fmap. destruct (transfers s !! id) as [t|] eqn:Ht; [|constructor]. cbn.
    destruct (Hf _ _ Ht) as [->|(_ & ? & ->)]; [constructor|]. by constructor; constructor.
  - destruct (decide (i = id)) as [<-|?];
      [rewrite lookup_delete_eq; destruct (transfers s !! i); by constructor
      |rewrite lookup_delete_ne by done; constructor].
Qed.

(** A flag that is set stays set, whoever holds a clone of the token. *)
Lemma shape_flags op s evs s' c :
  step_shape op s evs s' -> flags s !! c = Some true -> flags s' !! c = Some true.
Proof.
  destruct 1; cbn; try done; intros Hc.
  - rewrite lookup_app_l; [done|]. by eapply lookup_lt_Some.
  - destruct (decide (cancelled (ts_cancellation t) = c)) as [<-|?].
    + rewrite list_lookup_insert_eq; [done|]. by eapply lookup_lt_Some.
    + by rewrite list_lookup_insert_ne.
Qed.

(** ** One attempt at a time *)

Definition taken (id : string) (s : TransferManager) : bool :=
  match transfers s !! id with
  | Some t => negb (bool_decide (ts_state t = Paused))
  | None => false
  end.

(** Reading a trace for one transfer: [None] when it is claimed twice without a
    release in between, otherwise whether it is claimed at the end. *)
Fixpoint claims (id : string) (claimed : bool) (evs : list transfer_event) : option bool :=
  match evs with
  | [] => Some claimed
  | EvClaim i :: evs =>
    if bool_decide (i = id) then (if claimed then None else claims id true evs)
    else claims id claimed evs
  | EvRelease i :: evs =>
    if bool_decide (i = id) then claims id false evs else claims id claimed evs
  end.

Lemma claims_app id b evs1 evs2 :
  claims id b (evs1 ++ evs2) = claims id b evs1 ≫= fun b' => claims id b' evs2.
Proof.
  revert b. induction evs1 as [|[i|i] evs1 IH]; intros b; cbn; [done|..];
    repeat case_bool_decide; destruct b; eauto.
Qed.

Lemma claims_other id b ids : id ∉ ids -> claims id b (EvClaim <$> ids) = Some b.
Proof.
  induction ids as [|i ids IH]; intros Hn; cbn; [done|].
  rewrite bool_decide_eq_false_2 by (intros ->; apply Hn; by left).
  apply IH. intros Hi. apply Hn. by right.
Qed.

Lemma claims_once id ids :
  NoDup ids -> id ∈ ids -> claims id false (EvClaim <$> ids) = Some true.
Proof.
  induction 1 as [|i ids Hi Hn IH]; intros Hin; cbn; [by apply elem_of_nil in Hin|].
  case_bool_decide as Hd; [subst; by apply claims_other|].
  apply IH. by apply elem_of_cons in Hin as [->|].
Qed.

Lemma claims_releases id b ids :
  claims id b (EvRelease <$> ids) = Some (b && negb (bool_decide (id ∈ ids))).
Proof.
  revert b. induction ids as [|i ids IH]; intros b; cbn.
  { rewrite bool_decide_eq_false_2 by apply not_elem_of_nil. by rewrite andb_true_r. }
  destruct (decide (i = id)) as [->|Hd].
  - rewrite (bool_decide_eq_true_2 (id = id)) by done. rewrite IH.
    rewrite (bool_decide_eq_true_2 (id ∈ id :: ids)) by left. by rewrite andb_false_r.
  - rewrite (bool_decide_eq_false_2 (i = id)) by done. rewrite IH. f_equal. f_equal. f_equal.
    apply bool_decide_ext. rewrite elem_of_cons. naive_solver.
Qed.

Lemma claims_split id b evs1 evs2 :
  claims id b (evs1 ++ EvClaim id :: evs2) <> None -> b = true -> EvRelease id ∈ evs1.
Proof.
  revert b. induction evs1 as [|[i|i] evs1 IH]; intros b; cbn.
  - rewrite bool_decide_eq_true_2 by done. by intros ? ->.
  - case_bool_decide; [by intros ? ->|]. intros. right. eauto.
  - case_bool_decide; [subst; intros; by left|]. intros. right. eauto.
Qed.

(** [taken] as a proposition. *)
Lemma taken_spec id s :
  taken id s = true <-> exists t, transfers s !! id = Some t /\ ts_state t <> Paused.
Proof.
  unfold taken. destruct (transfers s !! id) as [t|]; [|naive_solver].
  rewrite negb_true_iff, bool_decide_eq_false. naive_solver.
Qed.

Lemma taken_lookup id s s' :
  transfers s' !! id = transfers s !! id -> taken id s' = taken id s.
Proof. unfold taken. by intros ->. Qed.

(** The claims of a step on the session it changes. *)
Lemma reported_claims id i t t' s evs b :
  transfers s !! i = Some t -> reported i t t' evs -> (b = true -> taken id s = true) ->
  exists b', claims id b evs = Some b' /\ (b' = true -> taken id (put_transfer i t' s) = true).
Proof.
  intros Ht Hr Hb. destruct (decide (i = id)) as [->|Hd].
  - assert (Hput : ts_state t' <> Paused -> taken id (put_transfer id t' s) = true).
    { intros Hn. apply taken_spec. exists t'. split; [apply lookup_insert_eq|done]. }
    destruct Hr as [[-> Hp]|[(-> & Hp & Hn)| ->]]; cbn; rewrite ?bool_decide_eq_true_2 by done.
    + exists b. split; [done|]. intros (u & Hu & Hs)%Hb%taken_spec. simplify_eq. auto.
    + destruct b; [|by eauto].
      destruct (proj1 (taken_spec id s) (Hb eq_refl)) as (u & Hu & Hs). by simplify_eq.
    + by exists false.
  - exists b. rewrite (taken_lookup id s) by by apply lookup_insert_ne.
    split; [|done]. destruct Hr as [[-> _]|[(-> & _)| ->]]; cbn; [done|..];
      by rewrite bool_decide_eq_false_2.
Qed.

Lemma shape_claimed op s evs s' id b :
  step_shape op s evs s' -> (b = true -> taken id s = true) ->
  exists b', claims id b evs = Some b' /\ (b' = true -> taken id s' = true).
Proof.
  destruct 1 as [|t Hn _ _ Hr _|i t t' evs Ht _ _ Hrep|i t Ht Hnt|f ids _ Hnd Hin Hout|f ids _ Hf|i _];
    intros Hb.
  - by exists b.
  - cbn. destruct (decide (ts_transfer_id t = id)) as [<-|Hd].
    + rewrite bool_decide_eq_true_2 by done. destruct b.
      { apply taken_spec in Hb as (u & Hu & _); [|done]. by rewrite Hn in Hu. }
      exists true. split; [done|]. intros _. apply taken_spec. exists t.
      split; [apply lookup_insert_eq|]. by intros Hs; rewrite Hs in Hr.
    + rewrite bool_decide_eq_false_2 by done. exists b. split; [done|].
      rewrite (taken_lookup id s) by (by apply lookup_insert_ne). done.
  - by eapply reported_claims.
  - apply (reported_claims id i t (with_state Cancelled t) s []); [done|by left|done].
  - assert (Hf : forall t, transfers s !! id = Some t -> ts_state (f t) <> Paused ->
      taken id (mkTransfers (f <$> transfers s) (flags s)) = true).
    { intros t Ht Hs. apply taken_spec. exists (f t). cbn. by rewrite lookup_fmap, Ht. }
    destruct (decide (id ∈ ids)) as [Hi|Hi].
    + destruct (Hin _ Hi) as (t & Ht & Hp & Hw). destruct b.
      { apply taken_spec in Hb as (u & Hu & ?); [|done]. by simplify_eq. }
      rewrite claims_once by done. exists true. split; [done|]. intros _.
      apply (Hf t Ht). by rewrite Hw.
    + rewrite claims_other by done. exists b. split; [done|].
      intros (t & Ht & Hs)%Hb%taken_spec. apply (Hf t Ht). by rewrite (Hout _ _ Ht Hi).
  - rewrite claims_releases. eexists. split; [done|]. intros Hc. bool_facts.
    apply taken_spec in Hb as (t & Ht & Hs); [|done]. apply taken_spec. exists (f t). cbn.
    rewrite lookup_fmap, Ht. split; [done|]. by destruct (Hf _ _ Ht) as [->|(? & _)].
  - cbn. case_bool_decide as Hd; [by exists false|]. exists b. split; [done|].
    by rewrite (taken_lookup id s) by by apply lookup_delete_ne.
Qed.

Lemma run_inv ops s : manager_inv s -> manager_inv (transfer_run ops s).2.
Proof.
  revert s. induction ops as [|op ops IH]; intros s Hi; [done|]. cbn.
  pose proof (shape_inv _ _ _ _ Hi (step_has_shape op s Hi)) as Hi'.
  destruct (transfer_step op s) as [ev s1]. specialize (IH s1 Hi').
  by destruct (transfer_run ops s1).
Qed.

Lemma run_claimed ops s id b :
  manager_inv s -> (b = true -> taken id s = true) -> claims id b (transfer_run ops s).1 <> None.
Proof.
  revert s b. induction ops as [|op ops IH]; intros s b Hi Hb; [done|]. cbn.
  pose proof (step_has_shape op s Hi) as Hs.
  destruct (transfer_step op s) as [ev s1]. cbn [fst snd] in Hs.
  destruct (shape_claimed _ _ _ _ id b Hs Hb) as (b' & Hc & Hb').
  specialize (IH s1 b' (shape_inv _ _ _ _ Hi Hs) Hb').
  destruct (transfer_run ops s1) as [evs s2]. cbn [fst] in *. by rewrite claims_app, Hc.
Qed.

Lemma new_inv : manager_inv transfers_new.
Proof. split; cbn; intros; by simplify_map_eq. Qed.
End States.

(** C34. In every reachable registry, a session is filed under the identifier
    of its manifest, its cancellation flag is set exactly when it is cancelled,
    and no two sessions share a flag. One more operation does to each session
    nothing but: create it fresh, move it along the life cycle [moves], record
    progress while it is running, or remove it on request; so a completed,
    cancelled or failed transfer never changes again, and a flag that was set
    stays set for every holder of the token. *)
Theorem transfer_life_cycle {H : HashOrder string TransferSession} ops op :
  let s := (transfer_run ops transfers_new).2 in
  let s' := (transfer_step op s).2 in
  manager_inv s /\
  (forall id, entry_change op id (transfers s !! id) (transfers s' !! id)) /\
  (forall id t, transfers s !! id = Some t -> is_terminal (ts_state t) = true ->
     transfers s' !! id = Some t \/ (transfers s' !! id = None /\ op = TRemove id)) /\
  (forall c, is_cancelled_flag c s = true -> is_cancelled_flag c s' = true).
Proof.
  intros s s'. assert (Hi : manager_inv s) by apply run_inv, new_inv.
  pose proof (step_has_shape op s Hi) as Hs.
  assert (He : forall id, entry_change op id (transfers s !! id) (transfers s' !! id))
    by (intros id; by eapply shape_entry).
  split; [done|]. split; [done|]. split.
  - intros id t Ht Hterm. specialize (He id). rewrite Ht in He.
    inversion He as [| | |? st Hm Et Et'|? n ? Hr Et Et'|? Hop]; subst; [by left|..].
    + by rewrite (moves_not_terminal _ _ Hm) in Hterm.
    + exfalso. by destruct (ts_state t).
    + by right.
  - intros c. unfold is_cancelled_flag. destruct (flags s !! cancelled c) as [[]|] eqn:E; [|done..].
    pose proof (shape_flags _ _ _ _ _ Hs E) as E'. fold s' in E'. by rewrite E'.
Qed.

(** A transfer is worked on by one attempt at a time: between two claims
    of the same transfer, by a new registration, by a repeated offer, or by
    resuming it, it has been paused or removed. *)
Lemma transfer_claimed_once {H : HashOrder string TransferSession} ops id before between after :
  (transfer_run ops transfers_new).1 = before ++ EvClaim id :: between ++ EvClaim id :: after ->
  EvRelease id ∈ between.
Proof.
  intros E. pose proof (run_claimed ops transfers_new id false new_inv ltac:(done)) as Hc.
  rewrite E, claims_app in Hc. destruct (claims id false before) as [b|]; [|done]. cbn in Hc.
  rewrite bool_decide_eq_true_2 in Hc by done. destruct b; [done|].
  by eapply claims_split.
Qed.
