(* ===== verification/TransferFile.v ===== *)
(** * File transfers: sending and receiving a file

    Models [network-transfer/src/sender.rs] and [receiver.rs].  A directory is
    a map from names to nodes; file-system calls are executed on it, and any
    of them may fail instead, as the environment decides.  What a reader, a
    writer, a file read or the cancellation flag gives at each turn of a loop is
    decided by the environment as well, within what the calls document.  No
    one else changes the transfer's own files during an attempt. *)
From S2P Require Import Prelude TransferManager.

Inductive ErrorKind :=
| NotFound | AlreadyExists | InvalidInput | InvalidData | Interrupted | UnexpectedEof | OtherKind.

Record IoError := mkIo { ie_kind : ErrorKind; ie_message : string }.

#[export] Instance ErrorKind_eq_dec : EqDecision ErrorKind.
Proof. solve_decision. Defined.
#[export] Instance IoError_eq_dec : EqDecision IoError.
Proof. solve_decision. Defined.

(** SHA-256 and hexadecimal output are library code ([sha2], [hex]): a hasher
    is fed pieces and gives the digest of their concatenation. *)
Class Sha256 := {
  Hasher : Type;
  sha_new : Hasher;
  sha_update : Hasher -> bytes -> Hasher;
  sha_finalize : Hasher -> bytes;
  hex_encode : bytes -> string;
}.
Class Sha256Laws {HS : Sha256} (sha256 : bytes -> bytes) := {
  sha_stream : forall pieces,
    sha_finalize (foldl sha_update sha_new pieces) = sha256 (concat pieces);
}.

(** An [AsyncRead]: a read gives at most as many bytes as asked for, taken from
    the front of what arrives, and none only at the end. *)
Class AsyncRead (R : Type) := {
  async_read : R -> Z -> result (bytes * R) IoError;
}.
Class AsyncReadLaws (R : Type) {HR : AsyncRead R} (pending : R -> bytes) := {
  read_front : forall r n b r', 0 < n -> async_read r n = Ok (b, r') ->
    len b <= n /\ pending r = b ++ pending r' /\ (b = [] -> pending r = []);
}.

(** ** The file system *)

Inductive FileNode :=
| RegularFile (content : bytes)
| SymlinkNode
| DirectoryNode.

Inductive FsCall :=
| CreateDirAll
| Stat (name : string)
| Remove (name : string)
| CreateNew (name : string)
| OpenWrite (name : string)
| Seek
| WriteAll (turn : nat)
| Flush
| OpenRead (name : string)
| ReadFile (turn : nat)
| Rename.

(** How the surroundings behave during one attempt: which calls fail, how much
    a failing write has written, how much each file read returns, and what the
    cancellation flag says at each turn and at the end. *)
Record Surroundings := mkSurroundings {
  fault : FsCall -> option IoError;
  partial_write : nat -> Z;
  read_size : nat -> Z;
  cancel_check : nat -> bool;
  cancel_last : bool;
}.

(** Nothing fails and nobody cancels. *)
Definition calm_weather : Surroundings :=
  mkSurroundings (fun _ => None) (fun _ => 0) (fun _ => DEFAULT_TRANSFER_BUFFER) (fun _ => false) false.

(** The destination directory, and the progress reports sent. *)
Record RecvState := mkRecv {
  rv_dir : gmap string FileNode;
  rv_progress : list (Z * Z);
}.

Definition IO := SE RecvState IoError.

Definition set_dir (d : gmap string FileNode) (s : RecvState) : RecvState := mkRecv d (rv_progress s).

Definition str_append (a b : string) : string := (a ++ b)%string.

(** [Path::join] on Unix. *)
Definition path_join (dir name : string) : string :=
  let relative :=
    match last (str_bytes dir) with
    | None => name
    | Some c => if bool_decide (c = slash) then str_append dir name
                else str_append dir (str_append "/" name)
    end in
  match str_bytes name with
  | b :: _ => if bool_decide (b = slash) then name else relative
  | [] => relative
  end.

(** [str::eq_ignore_ascii_case]. *)
Definition to_ascii_lowercase (b : byte) : byte :=
  if in_range 65 90 b then byte_of_Z (Z_of_byte b + 32) else b.
Definition eq_ignore_ascii_case (a b : string) : bool :=
  bool_decide (to_ascii_lowercase <$> str_bytes a = to_ascii_lowercase <$> str_bytes b).

(** The part of a file that one [read] returns, at most the buffer and at
    least a byte unless the file is at its end. *)
Definition next_chunk (size : Z) (rest : bytes) : bytes :=
  take (Z.to_nat (Z.max 1 (Z.min size DEFAULT_TRANSFER_BUFFER))) rest.

Definition part_name (m : FileManifest) : string := str_append (fm_transfer_id m) ".part".

Section Calls.
Context (env : Surroundings).

Definition fs_call {A} (c : FsCall) (k : IO A) : IO A :=
  match fault env c with Some e => se_fail e | None => k end.

Definition symlink_metadata (name : string) : IO FileNode :=
  fs_call (Stat name) (fun s =>
    (ok_or (rv_dir s !! name) (mkIo NotFound "no such file"), s)).

Definition remove_file (name : string) : IO unit :=
  fs_call (Remove name) (fun s =>
    match rv_dir s !! name with
    | None => (Err (mkIo NotFound "no such file"), s)
    | Some DirectoryNode => (Err (mkIo OtherKind "is a directory"), s)
    | Some _ => (Ok tt, set_dir (delete name (rv_dir s)) s)
    end).

Definition create_new (name : string) : IO unit :=
  fs_call (CreateNew name) (fun s =>
    match rv_dir s !! name with
    | None => (Ok tt, set_dir (<[name := RegularFile []]> (rv_dir s)) s)
    | Some _ => (Err (mkIo AlreadyExists "file exists"), s)
    end).

(** The content of a regular file; the callers have made sure that it is one. *)
Definition regular (name : string) : IO bytes := fun s =>
  match rv_dir s !! name with
  | Some (RegularFile content) => (Ok content, s)
  | Some _ => (Err (mkIo OtherKind "not a regular file"), s)
  | None => (Err (mkIo NotFound "no such file"), s)
  end.

Definition open_write (name : string) : IO unit := fs_call (OpenWrite name) (regular name ≫= fun _ => mret tt).
Definition open_read (name : string) : IO bytes := fs_call (OpenRead name) (regular name).

Definition write_at (pos : Z) (b content : bytes) : bytes :=
  take (Z.to_nat pos) content ++ b ++ drop (Z.to_nat (pos + len b)) content.

(** [write_all] of the [turn]-th buffer at the file's position. *)
Definition write_all (turn : nat) (name : string) (pos : Z) (b : bytes) : IO unit := fun s =>
  match regular name s with
  | (Err e, s) => (Err e, s)
  | (Ok content, s) =>
    match fault env (WriteAll turn) with
    | None => (Ok tt, set_dir (<[name := RegularFile (write_at pos b content)]> (rv_dir s)) s)
    | Some e =>
      let b := take (Z.to_nat (partial_write env turn)) b in
      (Err e, set_dir (<[name := RegularFile (write_at pos b content)]> (rv_dir s)) s)
    end
  end.

Definition rename (from to : string) : IO unit :=
  fs_call Rename (fun s =>
    match rv_dir s !! from with
    | None => (Err (mkIo NotFound "no such file"), s)
    | Some node => (Ok tt, set_dir (<[to := node]> (delete from (rv_dir s))) s)
    end).

(** ** Hashing a file

    One turn per read; a file of [n] bytes takes at most [n + 1] turns, since
    each but the last reads a byte. *)
Section Hash.
Context {HS : Sha256}.

Fixpoint hash_loop (fuel turn : nat) (rest : bytes) (hasher : Hasher) : result Hasher IoError :=
  match fuel with
  | O => Err (mkIo OtherKind "unreachable")
  | S fuel =>
    match fault env (ReadFile turn) with
    | Some e => Err e
    | None =>
      let read := next_chunk (read_size env turn) rest in
      if len read =? 0 then Ok hasher
      else hash_loop fuel (S turn) (drop (length read) rest) (sha_update hasher read)
    end
  end.

Definition hash_file (content : bytes) : result string IoError :=
  let? hasher := hash_loop (S (length content)) 0 content sha_new in
  Ok (hex_encode (sha_finalize hasher)).
End Hash.
End Calls.

(** ** Receiving *)

Definition io_validate (m : FileManifest) : result unit IoError :=
  map_err (mkIo InvalidInput) (validate m).

Definition existing_partial_offset (env : Surroundings) (m : FileManifest) (s : RecvState) :
    result Z IoError :=
  let? _ := io_validate m in
  match (symlink_metadata env (part_name m) s).1 with
  | Ok (RegularFile content) =>
    if len content <=? fm_file_size m then Ok (len content) else Ok 0
  | Ok _ => Err (mkIo InvalidData "partial file is not a regular file")
  | Err e => if bool_decide (ie_kind e = NotFound) then Ok 0 else Err e
  end.

Section Receive.
Context {HS : Sha256} {R : Type} {HR : AsyncRead R}.
Context (env : Surroundings).

Definition existing_completed_file (m : FileManifest) (destination_dir : string) (s : RecvState) :
    result (option string) IoError :=
  let? _ := io_validate m in
  match (symlink_metadata env (fm_file_name m) s).1 with
  | Ok (RegularFile content) =>
    if negb (len content =? fm_file_size m) then Ok None
    else
      let? content := (open_read env (fm_file_name m) s).1 in
      let? digest := hash_file env content in
      if eq_ignore_ascii_case digest (fm_content_hash m)
      then Ok (Some (path_join destination_dir (fm_file_name m))) else Ok None
  | Ok _ => Err (mkIo InvalidData "destination is not a regular file")
  | Err e => if bool_decide (ie_kind e = NotFound) then Ok None else Err e
  end.

(** Opening the temporary file: a new one for offset 0, the checkpoint
    otherwise. *)
Definition open_part (m : FileManifest) (offset : Z) : IO unit :=
  if offset =? 0 then
    (fun s => match remove_file env (part_name m) s with
              | (Err e, s) => if bool_decide (ie_kind e = NotFound) then (Ok tt, s) else (Err e, s)
              | (Ok _, s) => (Ok tt, s)
              end) ≫= fun _ => create_new env (part_name m)
  else
    symlink_metadata env (part_name m) ≫= fun node =>
    if match node with RegularFile content => negb (len content =? offset) | _ => true end
    then se_fail (mkIo InvalidData "partial file does not match resume offset")
    else open_write env (part_name m) ≫= fun _ => fs_call env Seek (mret tt).

(** The copying loop. Each turn that goes on has received a byte, so the bytes
    that are missing bound the number of turns. *)
Fixpoint receive_loop (fuel turn : nat) (m : FileManifest) (reader : R) (transferred : Z) : IO unit :=
  fun s =>
  if transferred <? fm_file_size m then
    match fuel with
    | O => (Err (mkIo OtherKind "unreachable"), s)
    | S fuel =>
      if cancel_check env turn then (Err (mkIo Interrupted "transfer cancelled"), s) else
      let to_read := Z.min DEFAULT_TRANSFER_BUFFER (fm_file_size m - transferred) in
      match async_read reader to_read with
      | Err e => (Err e, s)
      | Ok (buffer, reader) =>
        if len buffer =? 0
        then (Err (mkIo UnexpectedEof "transfer stream ended before declared file size"), s)
        else
          match write_all env turn (part_name m) transferred buffer s with
          | (Err e, s) => (Err e, s)
          | (Ok _, s) =>
            let transferred := transferred + len buffer in
            let s := mkRecv (rv_dir s) (rv_progress s ++ [(transferred, fm_file_size m)]) in
            receive_loop fuel (S turn) m reader transferred s
          end
      end
    end
  else (Ok tt, s).

(** Flushing, verifying the checksum, and moving the file into place. *)
Definition finish_part (m : FileManifest) (destination_dir : string) : IO string :=
  fs_call env Flush (mret tt) ≫= fun _ =>
  open_read env (part_name m) ≫= fun content =>
  se_lift (hash_file env content) ≫= fun digest =>
  if negb (eq_ignore_ascii_case digest (fm_content_hash m)) then
    remove_file env (part_name m) ≫= fun _ =>
    se_fail (mkIo InvalidData "checksum verification failed")
  else if cancel_last env then se_fail (mkIo Interrupted "transfer cancelled")
  else fun s =>
    match (symlink_metadata env (fm_file_name m) s).1 with
    | Ok _ => (Err (mkIo AlreadyExists "destination file already exists"), s)
    | Err _ =>
      (rename env (part_name m) (fm_file_name m) ≫= fun _ =>
       mret (path_join destination_dir (fm_file_name m))) s
    end.

Definition stream_receive_file_cancellable (m : FileManifest) (destination_dir : string)
    (offset : Z) (reader : R) : IO string :=
  se_lift (io_validate m) ≫= fun _ =>
  if fm_file_size m <? offset
  then se_fail (mkIo InvalidInput "resume offset exceeds file size")
  else
    fs_call env CreateDirAll (mret tt) ≫= fun _ =>
    open_part m offset ≫= fun _ =>
    receive_loop (Z.to_nat (fm_file_size m - offset)) 0 m reader offset ≫= fun _ =>
    finish_part m destination_dir.
End Receive.

(** ** Sending *)

(** [Path::file_name]: the last component when it is a normal one. *)
Definition path_file_name (path : string) : option string :=
  match last (components path) with
  | Some (Normal piece) => Some (bytes_str piece)
  | _ => None
  end.

Section Send.
Context {HS : Sha256}.
Context (env : Surroundings).

(** [file] is what opening the path gives; [modified] its modification time
    after the epoch in milliseconds, when there is one. *)
Definition build_file_manifest (transfer_id file_path : string) (file : result FileNode IoError)
    (modified : option Z) : result FileManifest IoError :=
  let? node := file in
  match node with
  | RegularFile content =>
    let? file_name := ok_or (path_file_name file_path)
                        (mkIo InvalidInput "source file name is not UTF-8") in
    let? digest := hash_file env content in
    let manifest := mkManifest transfer_id file_name (len content) (default 0 modified) digest
                      NETWORK_TRANSFER_PROTOCOL_VERSION in
    let? _ := io_validate manifest in
    Ok manifest
  | _ => Err (mkIo InvalidInput "source is not a regular file")
  end.

(** The bytes the writer accepted and the progress reports. *)
Record SendState := mkSend { sd_written : bytes; sd_progress : list (Z * Z) }.

(** The writer takes the [turn]-th buffer or fails behind a part of it. *)
Definition writer_write_all (turn : nat) (b : bytes) : SE SendState IoError unit := fun s =>
  match fault env (WriteAll turn) with
  | None => (Ok tt, mkSend (sd_written s ++ b) (sd_progress s))
  | Some e =>
    (Err e, mkSend (sd_written s ++ take (Z.to_nat (partial_write env turn)) b) (sd_progress s))
  end.

Fixpoint send_loop (fuel turn : nat) (rest : bytes) (transferred total_bytes : Z) :
    SE SendState IoError Z := fun s =>
  match fuel with
  | O => (Err (mkIo OtherKind "unreachable"), s)
  | S fuel =>
    if cancel_check env turn then (Err (mkIo Interrupted "transfer cancelled"), s) else
    match fault env (ReadFile turn) with
    | Some e => (Err e, s)
    | None =>
      let buffer := next_chunk (read_size env turn) rest in
      if len buffer =? 0 then (Ok transferred, s)
      else
        match writer_write_all turn buffer s with
        | (Err e, s) => (Err e, s)
        | (Ok _, s) =>
          let transferred := transferred + len buffer in
          let s := mkSend (sd_written s) (sd_progress s ++ [(transferred, total_bytes)]) in
          send_loop fuel (S turn) (drop (length buffer) rest) transferred total_bytes s
        end
    end
  end.

(** [content] is the file behind the path, read from its position. *)
Definition stream_send_file_cancellable (content : result bytes IoError) (offset : Z) :
    SE SendState IoError Z :=
  se_lift content ≫= fun content =>
  if len content <? offset then se_fail (mkIo InvalidInput "resume offset exceeds file size")
  else
    (if 0 <? offset
     then match fault env Seek with Some e => se_fail e | None => mret tt end
     else mret tt) ≫= fun _ =>
    let rest := drop (Z.to_nat offset) content in
    send_loop (S (length rest)) 0 rest offset (len content) ≫= fun transferred =>
    match fault env Flush with Some e => se_fail e | None => mret transferred end.
End Send.
