(* ===== verification/TransferProofs.v ===== *)
(** * File transfers: theorems about sending and receiving

    What an attempt to receive a file leaves behind on every branch, and what a
    sequence of interrupted attempts adds up to. *)
From S2P Require Import Prelude TransferManager TransferFile.

#[global] Arguments part_name : simpl never.
#[global] Arguments next_chunk : simpl never.

(** ** Reading files *)

Lemma next_chunk_split size rest :
  rest = next_chunk size rest ++ drop (length (next_chunk size rest)) rest.
Proof.
  unfold next_chunk. rewrite <- (take_drop (Z.to_nat (Z.max 1 (Z.min size DEFAULT_TRANSFER_BUFFER))) rest) at 1.
  f_equal. rewrite length_take. destruct (Nat.le_ge_cases (length rest)
    (Z.to_nat (Z.max 1 (Z.min size DEFAULT_TRANSFER_BUFFER)))) as [Hl|Hl].
  - rewrite Nat.min_r by lia. by rewrite !drop_ge by lia.
  - by rewrite Nat.min_l by lia.
Qed.

Lemma next_chunk_nil size rest : next_chunk size rest = [] -> rest = [].
Proof.
  unfold next_chunk. intros E. apply (f_equal length) in E. rewrite length_take in E.
  cbn in E. apply length_zero_iff_nil. lia.
Qed.

(** Behind a chunk that is not empty less is left. *)
Lemma next_chunk_shrinks size rest :
  len (next_chunk size rest) <> 0 ->
  (length (drop (length (next_chunk size rest)) rest) < length rest)%nat.
Proof.
  intros Hn. pose proof (f_equal length (next_chunk_split size rest)) as E.
  rewrite length_app in E. unfold len in Hn. lia.
Qed.

Section Hash.
Context {HS : Sha256} {sha256 : bytes -> bytes} {HL : Sha256Laws sha256}.

(** However the reads cut a file, its hash is that of its content; only a failed
    read stops the loop. *)
Lemma hash_loop_pieces env fuel turn rest pieces :
  (length rest < fuel)%nat ->
  (exists pieces', concat pieces' = rest /\
     hash_loop env fuel turn rest (foldl sha_update sha_new pieces)
     = Ok (foldl sha_update sha_new (pieces ++ pieces'))) \/
  exists t e, fault env (ReadFile t) = Some e /\
    hash_loop env fuel turn rest (foldl sha_update sha_new pieces) = Err e.
Proof.
  revert turn rest pieces. induction fuel as [|fuel IH]; intros turn rest pieces Hf; [lia|]. cbn.
  destruct (fault env (ReadFile turn)) as [e|] eqn:Ef; [by right; eauto|].
  destruct (_ =? 0) eqn:En; bool_facts.
  { left. exists []. rewrite app_nil_r. apply len_zero_nil, next_chunk_nil in En. by rewrite En. }
  pose proof (next_chunk_shrinks _ _ En).
  pose proof (next_chunk_split (read_size env turn) rest) as Hs.
  set (c := next_chunk (read_size env turn) rest) in *.
  specialize (IH (S turn) (drop (length c) rest) (pieces ++ [c]) ltac:(lia)).
  rewrite foldl_snoc in IH. destruct IH as [(ps & Hc & ->)|Herr]; [|by right].
  left. exists (c :: ps). cbn. rewrite Hc, <- Hs, <- app_assoc. done.
Qed.

Lemma hash_file_digest env content :
  hash_file env content = Ok (hex_encode (sha256 content)) \/
  exists t e, fault env (ReadFile t) = Some e /\ hash_file env content = Err e.
Proof.
  unfold hash_file.
  destruct (hash_loop_pieces env (S (length content)) 0 content [] ltac:(lia))
    as [(ps & Hc & E)|(t & e & Ht & E)]; cbn [foldl] in E; rewrite E; [left|right; eauto].
  by rewrite app_nil_l, sha_stream, Hc.
Qed.
End Hash.

(** ** Sending *)

Lemma write_prefix {A} (n : nat) (b rest : list A) : take n b `prefix_of` b ++ rest.
Proof. apply prefix_app_r, prefix_take. Qed.

(** The writer gets a prefix of the rest of the file, and all of it when the
    loop ends well. *)
Lemma send_loop_post env fuel turn rest transferred total s r s' :
  (length rest < fuel)%nat -> send_loop env fuel turn rest transferred total s = (r, s') ->
  exists got, sd_written s' = sd_written s ++ got /\ got `prefix_of` rest /\
    match r with
    | Ok n => got = rest /\ n = transferred + len rest
    | Err e => (exists t, cancel_check env t = true) \/ exists c, fault env c = Some e
    end.
Proof.
  revert turn rest transferred s. induction fuel as [|fuel IH]; intros turn rest transferred s Hf; [lia|].
  cbn. destruct (cancel_check env turn) eqn:Ec.
  { intros [= <- <-]. exists []. rewrite app_nil_r. eauto using prefix_nil. }
  destruct (fault env (ReadFile turn)) as [e|] eqn:Ef.
  { intros [= <- <-]. exists []. rewrite app_nil_r. eauto using prefix_nil. }
  destruct (_ =? 0) eqn:En; bool_facts.
  { intros [= <- <-]. apply len_zero_nil, next_chunk_nil in En. subst. exists [].
    rewrite app_nil_r, len_nil. repeat split; [apply prefix_nil|lia]. }
  pose proof (next_chunk_shrinks _ _ En).
  pose proof (next_chunk_split (read_size env turn) rest) as Hs.
  set (c := next_chunk (read_size env turn) rest) in *. unfold writer_write_all.
  destruct (fault env (WriteAll turn)) as [e|] eqn:Ew.
  { intros [= <- <-]. cbn. eexists. split; [done|]. split; [rewrite Hs; apply write_prefix|eauto]. }
  intros E. apply IH in E as (got & Hw & Hp & Hr); [|lia]. cbn in Hw. exists (c ++ got).
  rewrite Hw, <- app_assoc. split; [done|]. rewrite Hs. split; [by apply prefix_app|].
  destruct r as [n|e]; [|done]. destruct Hr as [-> ->]. rewrite len_app. split; [done|lia].
Qed.

(** ** Receiving *)

Section Receive.
Context {R : Type} {HR : AsyncRead R} {pending : R -> bytes} {HA : AsyncReadLaws R pending}.

Lemma write_at_end b content : write_at (len content) b content = content ++ b.
Proof.
  unfold write_at, len. rewrite Nat2Z.id, take_ge by lia.
  by rewrite drop_ge, app_nil_r by lia.
Qed.

(** Why the copying loop may stop early; at the end of the stream, all that
    arrived is in the file. *)
Definition loop_failure (env : Surroundings) (m : FileManifest) (arrived content : bytes) (e : IoError) :
    Prop :=
  (exists t, cancel_check env t = true /\ e = mkIo Interrupted "transfer cancelled") \/
  (exists (r : R) n, async_read r n = Err e) \/
  (exists t, fault env (WriteAll t) = Some e) \/
  (e = mkIo UnexpectedEof "transfer stream ended before declared file size" /\
   len content < fm_file_size m /\ arrived = []).

(** What the loop leaves: the part file holds, behind what it had, what arrived,
    in order and up to the declared size. *)
Definition loop_post (env : Surroundings) (m : FileManifest) (reader : R) (content : bytes)
    (d : gmap string FileNode) (r : result unit IoError) (d' : gmap string FileNode) : Prop :=
  exists got rest, d' = <[part_name m := RegularFile (content ++ got)]> d /\
    pending reader = got ++ rest /\ len (content ++ got) <= fm_file_size m /\
    match r with
    | Ok _ => len (content ++ got) = fm_file_size m
    | Err e => loop_failure env m rest (content ++ got) e
    end.

(** Stopping before anything was written. *)
Lemma loop_stop env m reader content d r :
  d !! part_name m = Some (RegularFile content) -> len content <= fm_file_size m ->
  match r with
  | Ok _ => len content = fm_file_size m
  | Err e => loop_failure env m (pending reader) content e
  end -> loop_post env m reader content d r d.
Proof.
  intros Hd Hl Hr. exists [], (pending reader). rewrite app_nil_r, insert_id by done. done.
Qed.

Lemma receive_loop_post env fuel turn m reader content s r s' :
  rv_dir s !! part_name m = Some (RegularFile content) ->
  len content <= fm_file_size m -> fm_file_size m - len content <= Z.of_nat fuel ->
  receive_loop env fuel turn m reader (len content) s = (r, s') ->
  loop_post env m reader content (rv_dir s) r (rv_dir s').
Proof.
  revert turn reader content s. induction fuel as [|fuel IH]; intros turn reader content s Hd Hl Hf;
    cbn [receive_loop]; (destruct (_ <? _) eqn:E; bool_facts;
      [|intros [= <- <-]; apply loop_stop; [done..|lia]]); [lia|].
  destruct (cancel_check env turn) eqn:Ec.
  { intros [= <- <-]. apply loop_stop; [done..|]. left; eauto. }
  destruct (async_read _ _) as [[buffer reader']|e] eqn:Er.
  2: { intros [= <- <-]. apply loop_stop; [done..|]. right; left; eauto. }
  apply read_front in Er as (Hb & Hp & Hn); [|unfold DEFAULT_TRANSFER_BUFFER; lia].
  destruct (len buffer =? 0) eqn:E0; bool_facts.
  { apply len_zero_nil in E0. intros [= <- <-]. apply loop_stop; [done..|].
    right; right; right. auto. }
  pose proof (len_nonneg buffer). unfold write_all, regular. rewrite Hd, !write_at_end.
  destruct (fault env (WriteAll turn)) as [e|] eqn:Ef.
  { intros [= <- <-]. exists (take (Z.to_nat (partial_write env turn)) buffer),
      (drop (Z.to_nat (partial_write env turn)) buffer ++ pending reader').
    rewrite app_assoc, take_drop. split; [done|]. split; [done|]. split.
    - rewrite len_app. unfold len in *. rewrite length_take. lia.
    - right; right; left. eauto. }
  rewrite <- len_app. intros Hr. apply IH in Hr as (got & rest & Hd' & Hp' & Hres).
  - exists (buffer ++ got), rest. cbn in Hd'. rewrite insert_insert_eq in Hd'.
    rewrite Hd', Hp, Hp', !app_assoc in *. done.
  - apply lookup_insert_eq.
  - rewrite len_app. lia.
  - rewrite len_app. lia.
Qed.

Lemma remove_file_post env name s r s' :
  remove_file env name s = (r, s') ->
  match r with
  | Ok _ => rv_dir s' = delete name (rv_dir s)
  | Err e => s' = s /\ ((rv_dir s !! name = None /\ ie_kind e = NotFound) \/
      rv_dir s !! name = Some DirectoryNode \/ fault env (Remove name) = Some e)
  end.
Proof.
  unfold remove_file, fs_call, se_fail. destruct (fault env _) eqn:E; [by intros [= <- <-]; auto|].
  destruct (rv_dir s !! name) as [[]|] eqn:Ed; intros [= <- <-]; auto.
Qed.

Lemma create_new_post env name s r s' :
  create_new env name s = (r, s') ->
  match r with
  | Ok _ => rv_dir s' = <[name := RegularFile []]> (rv_dir s)
  | Err e => s' = s /\ (is_Some (rv_dir s !! name) \/ fault env (CreateNew name) = Some e)
  end.
Proof.
  unfold create_new, fs_call, se_fail. destruct (fault env _) eqn:E; [by intros [= <- <-]; auto|].
  destruct (rv_dir s !! name) eqn:Ed; intros [= <- <-]; eauto.
Qed.

Definition some_fault (env : Surroundings) : Prop := exists c e, fault env c = Some e.

(** The temporary file is opened with the bytes before the offset in it. It
    cannot be opened when a call fails, when a directory has its name, or when
    it is not the checkpoint that the offset tells. *)
Definition open_post (env : Surroundings) (m : FileManifest) (offset : Z)
    (d : gmap string FileNode) (r : result unit IoError) (d' : gmap string FileNode) : Prop :=
  match r with
  | Ok _ => exists base, len base = offset /\
      d' = <[part_name m := RegularFile base]> d /\
      (offset <> 0 -> d !! part_name m = Some (RegularFile base))
  | Err e =>
    (d' = d \/ (offset = 0 /\ d' = delete (part_name m) d)) /\
    (some_fault env \/ d !! part_name m = Some DirectoryNode \/
     (offset <> 0 /\ forall base, len base = offset ->
        d !! part_name m <> Some (RegularFile base)))
  end.

(** Creating the part file after an attempt to remove the old one. *)
Lemma create_part_post env m d s r s' :
  rv_dir s = d \/ rv_dir s = delete (part_name m) d ->
  rv_dir s !! part_name m = None \/ some_fault env \/ d !! part_name m = Some DirectoryNode ->
  create_new env (part_name m) s = (r, s') -> open_post env m 0 d r (rv_dir s').
Proof.
  intros Hd Hn Hc%create_new_post. destruct r as [u|e]; cbn.
  - exists []. split; [done|]. split; [|done]. rewrite Hc.
    destruct Hd as [-> | ->]; [done|apply insert_delete_eq].
  - destruct Hc as [-> Hc]. split; [naive_solver|].
    destruct Hn as [Hn|[?|?]]; [|auto..]. destruct Hc as [[x Hx]|Hf]; [by simplify_eq|].
    left. eexists; eauto.
Qed.

Lemma open_fresh_post env m s r s' :
  open_part env m 0 s = (r, s') -> open_post env m 0 (rv_dir s) r (rv_dir s').
Proof.
  unfold open_part, mbind, SE_bind. cbn [Z.eqb].
  destruct (remove_file env (part_name m) s) as [[u|e] s1] eqn:Er; apply remove_file_post in Er.
  - apply create_part_post; [auto|]. left. by rewrite Er, lookup_delete_eq.
  - destruct Er as [-> He]. destruct (bool_decide _) eqn:Ek; bool_facts.
    + apply create_part_post; [auto|]. destruct He as [[? _]|[?|?]]; [auto..|].
      right; left. eexists; eauto.
    + intros [= <- <-]. split; [auto|]. destruct He as [[_ ?]|[?|?]]; [done|auto|].
      left. eexists; eauto.
Qed.

Lemma open_resume_post env m offset s r s' :
  offset <> 0 ->
  open_part env m offset s = (r, s') -> open_post env m offset (rv_dir s) r (rv_dir s').
Proof.
  intros Hne. unfold open_part, mbind, SE_bind. rewrite (proj2 (Z.eqb_neq _ _)) by done.
  assert (Hfault : forall c e, fault env c = Some e -> open_post env m offset (rv_dir s) (Err e) (rv_dir s)).
  { intros c e Hc. split; [auto|]. left. eexists; eauto. }
  unfold symlink_metadata, fs_call at 1, se_fail. destruct (fault env (Stat _)) eqn:E1.
  { intros [= <- <-]. eauto. }
  destruct (rv_dir s !! part_name m) as [node|] eqn:Ed; cbn [ok_or].
  2: { intros [= <- <-]. split; [auto|]. right; right. split; [done|]. intros base _. by rewrite Ed. }
  destruct (match node with RegularFile _ => _ | _ => _ end) eqn:En.
  { intros [= <- <-]. split; [auto|]. right; right. split; [done|]. intros base Hb. rewrite Ed.
    intros [= ->]. by rewrite Hb, Z.eqb_refl in En. }
  destruct node as [content| |]; [|done..]. bool_facts. unfold open_write, regular, fs_call, mbind, SE_bind.
  destruct (fault env (OpenWrite _)) eqn:E2; [intros [= <- <-]; eauto|]. rewrite Ed. cbn.
  destruct (fault env Seek) eqn:E3; intros [= <- <-]; eauto.
  exists content. by rewrite insert_id.
Qed.

Lemma open_part_post env m offset s r s' :
  open_part env m offset s = (r, s') -> open_post env m offset (rv_dir s) r (rv_dir s').
Proof.
  destruct (decide (offset = 0)) as [->|]; [apply open_fresh_post|by apply open_resume_post].
Qed.

Context {HS : Sha256} {sha256 : bytes -> bytes} {HL : Sha256Laws sha256}.

(** The content has the hash that the manifest declares. *)
Definition hash_ok (m : FileManifest) (content : bytes) : bool :=
  eq_ignore_ascii_case (hex_encode (sha256 content)) (fm_content_hash m).

Definition finish_post (env : Surroundings) (m : FileManifest) (destination_dir : string)
    (content : bytes) (d : gmap string FileNode) (r : result string IoError)
    (d' : gmap string FileNode) : Prop :=
  match r with
  | Ok path => path = path_join destination_dir (fm_file_name m) /\ hash_ok m content = true /\
      d' = <[fm_file_name m := RegularFile content]> (delete (part_name m) d) /\
      (fault env (Stat (fm_file_name m)) = None -> d !! fm_file_name m = None)
  | Err e =>
    (d' = d \/ (d' = delete (part_name m) d /\ hash_ok m content = false)) /\
    (some_fault env \/ cancel_last env = true \/ hash_ok m content = false \/
     is_Some (d !! fm_file_name m))
  end.

(** Moving a verified file into place. *)
Lemma move_part_post env m destination_dir content s r s' :
  rv_dir s !! part_name m = Some (RegularFile content) -> hash_ok m content = true ->
  match (symlink_metadata env (fm_file_name m) s).1 with
  | Ok _ => (Err (mkIo AlreadyExists "destination file already exists"), s)
  | Err _ => (rename env (part_name m) (fm_file_name m) ≫= fun _ =>
      mret (path_join destination_dir (fm_file_name m))) s
  end = (r, s') ->
  finish_post env m destination_dir content (rv_dir s) r (rv_dir s').
Proof.
  intros Hd Hh. unfold symlink_metadata, rename, fs_call, se_fail, mbind, SE_bind.
  destruct (fault env (Stat _)) as [e|] eqn:E1; cbn [fst].
  - destruct (fault env Rename) as [e'|] eqn:E2.
    { intros [= <- <-]. split; [auto|]. left. eexists; eauto. }
    rewrite Hd. intros [= <- <-]. cbn. rewrite E1. repeat split; [done..|]. done.
  - destruct (rv_dir s !! fm_file_name m) as [node|] eqn:Ef; cbn [ok_or].
    { intros [= <- <-]. split; [auto|]. rewrite Ef. right; right; right; eauto. }
    destruct (fault env Rename) as [e'|] eqn:E2.
    { intros [= <- <-]. split; [auto|]. left. eexists; eauto. }
    rewrite Hd. intros [= <- <-]. cbn. rewrite Ef. repeat split; done.
Qed.

Lemma finish_part_post env m destination_dir content s r s' :
  rv_dir s !! part_name m = Some (RegularFile content) ->
  finish_part env m destination_dir s = (r, s') ->
  finish_post env m destination_dir content (rv_dir s) r (rv_dir s').
Proof.
  intros Hd. assert (Hfault : forall c e r s', fault env c = Some e ->
    (Err e, s) = (r, s') -> finish_post env m destination_dir content (rv_dir s) r (rv_dir s')).
  { intros c e ? ? Hc [= <- <-]. split; [auto|]. left. eexists; eauto. }
  unfold finish_part, open_read. unfold mbind at 1 2 3, SE_bind at 1 2 3.
  unfold fs_call at 1 2, se_fail at 1, regular. destruct (fault env Flush) eqn:E1; [by eapply Hfault|].
  cbn [mret SE_ret]. destruct (fault env (OpenRead _)) eqn:E2; [by eapply Hfault|]. rewrite Hd.
  unfold se_lift at 1. destruct (hash_file_digest env content) as [->|(t & e & Ht & ->)];
    [|by eapply Hfault]. fold (hash_ok m content).
  destruct (hash_ok m content) eqn:Eh; cbn [negb].
  - destruct (cancel_last env) eqn:Ec; [|by apply move_part_post].
    intros [= <- <-]. split; auto.
  - unfold mbind, SE_bind. destruct (remove_file env (part_name m) s) as [[u|e] s1] eqn:Er;
      apply remove_file_post in Er; intros [= <- <-].
    + split; auto.
    + destruct Er as [-> _]. split; auto.
Qed.

(** The bytes an attempt has for the file: those before the offset, which were
    in the part file, and [got], which arrived. *)
Definition attempt_bytes (m : FileManifest) (offset : Z) (reader : R) (d : gmap string FileNode)
    (content : bytes) : Prop :=
  exists base got rest, content = base ++ got /\ len base = offset /\
    (offset <> 0 -> d !! part_name m = Some (RegularFile base)) /\
    pending reader = got ++ rest /\ len content <= fm_file_size m.

(** Why an attempt may fail. *)
Inductive attempt_failure (env : Surroundings) (m : FileManifest) (offset : Z) (reader : R)
    (d : gmap string FileNode) (e : IoError) : Prop :=
| af_manifest : validate m <> Ok tt -> attempt_failure env m offset reader d e
| af_offset : fm_file_size m < offset -> attempt_failure env m offset reader d e
| af_call : some_fault env -> attempt_failure env m offset reader d e
| af_cancelled t : cancel_check env t = true -> attempt_failure env m offset reader d e
| af_cancelled_last : cancel_last env = true -> attempt_failure env m offset reader d e
| af_read (r : R) n : async_read r n = Err e -> attempt_failure env m offset reader d e
| af_short : len (pending reader) < fm_file_size m - offset -> attempt_failure env m offset reader d e
| af_directory : d !! part_name m = Some DirectoryNode -> attempt_failure env m offset reader d e
| af_checkpoint :
    offset <> 0 -> (forall base, len base = offset -> d !! part_name m <> Some (RegularFile base)) ->
    attempt_failure env m offset reader d e
| af_hash content :
    attempt_bytes m offset reader d content -> len content = fm_file_size m ->
    hash_ok m content = false -> attempt_failure env m offset reader d e
| af_taken : is_Some (d !! fm_file_name m) -> attempt_failure env m offset reader d e
| af_part_name : fm_file_name m = part_name m -> attempt_failure env m offset reader d e.

Definition receive_post (env : Surroundings) (m : FileManifest) (destination_dir : string)
    (offset : Z) (reader : R) (d : gmap string FileNode) (r : result string IoError)
    (d' : gmap string FileNode) : Prop :=
  match r with
  | Ok path => exists content, path = path_join destination_dir (fm_file_name m) /\
      attempt_bytes m offset reader d content /\
      len content = fm_file_size m /\ hash_ok m content = true /\
      d' = <[fm_file_name m := RegularFile content]> (delete (part_name m) d) /\
      (fault env (Stat (fm_file_name m)) = None ->
       d !! fm_file_name m = None /\ fm_file_name m <> part_name m)
  | Err e =>
    attempt_failure env m offset reader d e /\
    (d' = d \/ (offset = 0 /\ d' = delete (part_name m) d) \/
     exists content, attempt_bytes m offset reader d content /\
       (d' = <[part_name m := RegularFile content]> d \/
        (d' = delete (part_name m) d /\ len content = fm_file_size m /\ hash_ok m content = false)))
  end.

Lemma loop_failure_attempt env m offset reader d base got rest e :
  attempt_bytes m offset reader d (base ++ got) -> pending reader = got ++ rest -> len base = offset ->
  loop_failure env m rest (base ++ got) e -> attempt_failure env m offset reader d e.
Proof.
  intros Ha Hp Hb [(t & ? & ?)|[(r & n & ?)|[[t ?]|(? & Hlt & ->)]]].
  - by eapply af_cancelled.
  - by eapply af_read.
  - apply af_call. eexists; eauto.
  - apply af_short. rewrite app_nil_r in Hp. rewrite len_app, <- Hp in Hlt. lia.
Qed.

(** What follows after the part file was opened. *)
Lemma copy_part_post env m destination_dir offset reader base d s r s' :
  0 <= offset <= fm_file_size m -> len base = offset ->
  (offset <> 0 -> d !! part_name m = Some (RegularFile base)) ->
  rv_dir s = <[part_name m := RegularFile base]> d ->
  (receive_loop env (Z.to_nat (fm_file_size m - offset)) 0 m reader offset ≫= fun _ =>
   finish_part env m destination_dir) s = (r, s') ->
  receive_post env m destination_dir offset reader d r (rv_dir s').
Proof.
  intros Ho Hb Hbase Hd. unfold mbind, SE_bind. rewrite <- Hb in *.
  destruct (receive_loop _ _ _ _ _ _ s) as [r1 s1] eqn:El.
  apply (receive_loop_post env _ _ _ _ base) in El as (got & rest & Hd1 & Hp & Hl & Hr);
    [|by rewrite Hd; apply lookup_insert_eq|lia|lia].
  rewrite Hd, insert_insert_eq in Hd1.
  assert (Ha : attempt_bytes m (len base) reader d (base ++ got)).
  { exists base, got, rest. rewrite len_app in *. eauto 10. }
  destruct r1 as [[]|e].
  2: { intros [= <- <-]. rewrite Hd1. split; [by eapply loop_failure_attempt|]. eauto 10. }
  intros Hf. apply (finish_part_post env m _ (base ++ got)) in Hf; [|rewrite Hd1; apply lookup_insert_eq].
  rewrite Hd1 in Hf. destruct r as [path|e].
  - destruct Hf as (-> & Hh & -> & Hn). exists (base ++ got). split_and!; [done..| |].
    + by rewrite delete_insert_eq.
    + intros Hs%Hn. destruct (decide (fm_file_name m = part_name m)) as [E|E];
        [by rewrite E, lookup_insert_eq in Hs|]. by rewrite lookup_insert_ne in Hs.
  - destruct Hf as [Hd' Hw]. split.
    + destruct Hw as [?|[?|[?|Hs]]];
        [by apply af_call|by apply af_cancelled_last|by eapply af_hash|].
      destruct (decide (fm_file_name m = part_name m)) as [E|E]; [by apply af_part_name|].
      rewrite lookup_insert_ne in Hs by done. by apply af_taken.
    + right; right. exists (base ++ got). split; [done|].
      destruct Hd' as [-> | [-> ?]]; [by left|right]. by rewrite delete_insert_eq.
Qed.

Lemma receive_holds env m destination_dir offset reader s r s' :
  0 <= offset ->
  stream_receive_file_cancellable env m destination_dir offset reader s = (r, s') ->
  receive_post env m destination_dir offset reader (rv_dir s) r (rv_dir s').
Proof.
  intros Ho. unfold stream_receive_file_cancellable. unfold mbind at 1, SE_bind at 1.
  unfold io_validate, se_lift. destruct (validate m) as [[]|msg] eqn:Ev; cbn [map_err].
  2: { intros [= <- <-]. split; [|auto]. apply af_manifest. by rewrite Ev. }
  destruct (_ <? _) eqn:Es; bool_facts.
  { intros [= <- <-]. split; [|auto]. apply af_offset. lia. }
  unfold mbind at 1, SE_bind at 1, fs_call at 1. destruct (fault env CreateDirAll) as [e|] eqn:Ec.
  { intros [= <- <-]. split; [|auto]. apply af_call. eexists; eauto. }
  cbn [mret SE_ret]. unfold mbind at 1, SE_bind at 1.
  destruct (open_part env m offset s) as [[u|e] s1] eqn:Eo; apply open_part_post in Eo.
  - destruct Eo as (base & Hb & Hd & Hold). by eapply copy_part_post.
  - intros [= <- <-]. destruct Eo as [Hd Hw]. split; [|destruct Hd as [?|?]; auto].
    destruct Hw as [?|[?|[? ?]]]; [by apply af_call|by apply af_directory|by apply af_checkpoint].
Qed.
End Receive.

(** C33. Receiving a file succeeds only with the whole file: the bytes that
    were in the part file before the offset followed by the bytes that arrived,
    as many as the manifest declares and with its hash, moved under the file's
    name, which was free unless its lookup failed. A failed attempt has a
    cause, and changes nothing but the part file, which then holds what arrived
    so far, or is gone when the attempt started afresh or the hash was wrong. *)
Theorem receive_file_outcome {R} `{AsyncReadLaws R pending} `{Sha256Laws sha256}
    env m destination_dir offset reader s r s' :
  0 <= offset ->
  stream_receive_file_cancellable env m destination_dir offset reader s = (r, s') ->
  receive_post (pending := pending) (sha256 := sha256)
    env m destination_dir offset reader (rv_dir s) r (rv_dir s') /\
  (forall name, name <> part_name m -> (is_ok r = true -> name <> fm_file_name m) ->
     rv_dir s' !! name = rv_dir s !! name).
Proof.
  intros Ho Hr. apply (receive_holds (pending := pending) (sha256 := sha256)) in Hr; [|done].
  split; [done|]. intros name Hn Hf. destruct r as [path|e].
  - destruct Hr as (content & _ & _ & _ & _ & -> & _).
    rewrite lookup_insert_ne by (intros E; by apply Hf). by rewrite lookup_delete_ne.
  - destruct Hr as [_ [-> | [[_ ->] | (content & _ & [-> | [-> _]])]]];
      [done|by rewrite lookup_delete_ne|by rewrite lookup_insert_ne|by rewrite lookup_delete_ne].
Qed.

(** ** A transfer over several attempts *)

(** No call fails and nobody cancels. *)
Definition quiet (env : Surroundings) : Prop :=
  (forall c, fault env c = None) /\ (forall t, cancel_check env t = false) /\ cancel_last env = false.

(** The writer got a prefix of what is behind the offset, and all of it when the
    sender returns well, as it does when nothing fails. *)
Definition send_post (env : Surroundings) (source : bytes) (offset : Z)
    (out : result Z IoError * SendState) : Prop :=
  sd_written out.2 `prefix_of` drop (Z.to_nat offset) source /\
  match out.1 with
  | Ok n => sd_written out.2 = drop (Z.to_nat offset) source /\ n = len source
  | Err _ => ~ quiet env
  end.

Lemma fault_not_quiet env c e : fault env c = Some e -> ~ quiet env.
Proof. intros Hc (Hf & _). by rewrite Hf in Hc. Qed.

Lemma send_rest env source offset :
  0 <= offset <= len source ->
  send_post env source offset
    ((send_loop env (S (length (drop (Z.to_nat offset) source))) 0 (drop (Z.to_nat offset) source)
        offset (len source) ≫= fun transferred =>
      match fault env Flush with Some e => se_fail e | None => mret transferred end) (mkSend [] [])).
Proof.
  intros Ho. unfold mbind, SE_bind. destruct (send_loop _ _ _ _ _ _ _) as [r2 s2] eqn:E2.
  apply send_loop_post in E2 as (got & Hw & Hp & Hr); [|lia]. cbn in Hw.
  destruct r2 as [n|e].
  - destruct Hr as [-> ->]. assert (offset + len (drop (Z.to_nat offset) source) = len source).
    { unfold len in *. rewrite length_drop. lia. }
    destruct (fault env Flush) eqn:Ef; split; cbn; rewrite ?Hw; eauto using fault_not_quiet.
  - split; cbn; rewrite ?Hw; [done|]. destruct Hr as [[t Ht]|[c Hc]]; [|by eapply fault_not_quiet].
    intros (_ & Hq & _). by rewrite Hq in Ht.
Qed.

Lemma stream_send_post env source offset :
  0 <= offset <= len source ->
  send_post env source offset (stream_send_file_cancellable env (Ok source) offset (mkSend [] [])).
Proof.
  intros Ho. unfold stream_send_file_cancellable. unfold mbind at 1, SE_bind at 1, se_lift.
  rewrite (proj2 (Z.ltb_ge (len source) offset)) by lia.
  unfold mbind at 1, SE_bind at 1.
  destruct (0 <? offset); [destruct (fault env Seek) eqn:Es|]; cbn [se_fail mret SE_ret];
    [|by apply send_rest..].
  split; [apply prefix_nil|by eapply fault_not_quiet].
Qed.

Section Attempts.
Context {R : Type} {HR : AsyncRead R} {pending : R -> bytes} {HA : AsyncReadLaws R pending}.
Context {HS : Sha256} {sha256 : bytes -> bytes} {HL : Sha256Laws sha256}.
Context (m : FileManifest) (destination_dir : string) (source : bytes).

(** A call that fails does not pretend that a file is missing. *)
Definition honest (env : Surroundings) : Prop :=
  forall c e, fault env c = Some e -> ie_kind e <> NotFound.

(** One attempt: the receiver tells its checkpoint, the sender sends from there,
    and a prefix of what it wrote arrives. *)
Inductive attempt (s : RecvState) : option string -> RecvState -> Prop :=
| attempt_refused env e :
    honest env -> existing_partial_offset env m s = Err e -> attempt s None s
| attempt_failed env tx offset reader e s' :
    honest env -> existing_partial_offset env m s = Ok offset ->
    pending reader `prefix_of`
      sd_written (stream_send_file_cancellable tx (Ok source) offset (mkSend [] [])).2 ->
    stream_receive_file_cancellable env m destination_dir offset reader s = (Err e, s') ->
    attempt s None s'
| attempt_succeeded env tx offset reader path s' :
    honest env -> existing_partial_offset env m s = Ok offset ->
    pending reader `prefix_of`
      sd_written (stream_send_file_cancellable tx (Ok source) offset (mkSend [] [])).2 ->
    stream_receive_file_cancellable env m destination_dir offset reader s = (Ok path, s') ->
    attempt s (Some path) s'.

(** Failed attempts, and possibly one that succeeds. *)
Inductive attempts (s : RecvState) : option string -> RecvState -> Prop :=
| attempts_none : attempts s None s
| attempts_more s1 o s2 : attempt s None s1 -> attempts s1 o s2 -> attempts s o s2
| attempts_done path s1 : attempt s (Some path) s1 -> attempts s (Some path) s1.

(** What the part file has of the file. *)
Definition saved (s : RecvState) : bytes :=
  match rv_dir s !! part_name m with Some (RegularFile p) => p | _ => [] end.

(** The part file is missing or has the beginning of the source. *)
Definition part_good (s : RecvState) : Prop :=
  rv_dir s !! part_name m = None \/
  exists p, rv_dir s !! part_name m = Some (RegularFile p) /\ p `prefix_of` source.

Lemma saved_prefix s : part_good s -> saved s `prefix_of` source.
Proof. unfold saved. intros [->|(p & -> & ?)]; [apply prefix_nil|done]. Qed.

Lemma prefix_of_len {A} (l k : list A) : l `prefix_of` k -> len l <= len k.
Proof. intros Hp%prefix_length. unfold len. lia. Qed.

Hypothesis Hsize : fm_file_size m = len source.
Hypothesis Hhash : hash_ok (sha256 := sha256) m source = true.

Lemma offset_saved env s offset :
  honest env -> part_good s -> existing_partial_offset env m s = Ok offset -> offset = len (saved s).
Proof.
  intros Hh Hg. pose proof (prefix_of_len _ _ (saved_prefix s Hg)) as Hl.
  unfold existing_partial_offset, symlink_metadata, fs_call, se_fail.
  destruct (io_validate m); [|done]. destruct (fault env _) as [e|] eqn:Ef; cbn.
  { rewrite bool_decide_eq_false_2; [done|]. by eapply Hh. }
  unfold saved in *. destruct (rv_dir s !! part_name m) as [[p| |]|] eqn:Ed; cbn; try done.
  - rewrite Hsize, (proj2 (Z.leb_le _ _)) by done. by intros [= <-].
  - by intros [= <-].
Qed.

(** The bytes of an attempt are the beginning of the source, behind what was
    saved before. *)
Lemma attempt_bytes_source tx s reader content :
  part_good s ->
  pending reader `prefix_of`
    sd_written (stream_send_file_cancellable tx (Ok source) (len (saved s)) (mkSend [] [])).2 ->
  attempt_bytes (pending := pending) m (len (saved s)) reader (rv_dir s) content ->
  saved s `prefix_of` content /\ content `prefix_of` source.
Proof.
  intros Hg Hp (base & got & rest & -> & Hb & Hbase & Hpend & _).
  assert (base = saved s) as ->.
  { destruct (decide (len (saved s) = 0)) as [E|E].
    - rewrite E in Hb. apply len_zero_nil in E, Hb. congruence.
    - unfold saved. by rewrite (Hbase E). }
  split; [by apply prefix_app_r|].
  pose proof (saved_prefix s Hg) as [tail Htail].
  assert (Hd : drop (Z.to_nat (len (saved s))) source = tail).
  { rewrite Htail. unfold len. by rewrite Nat2Z.id, drop_app_length. }
  assert (Hlen : 0 <= len (saved s) <= len source)
    by (split; [apply len_nonneg|by apply prefix_of_len, saved_prefix]).
  destruct (stream_send_post tx source _ Hlen) as [Hw _]. rewrite Hd in Hw. rewrite Htail.
  apply prefix_app. etrans; [|exact Hw]. etrans; [|exact Hp]. rewrite Hpend. by apply prefix_app_r.
Qed.

Lemma prefix_same_len {A} (l k : list A) : l `prefix_of` k -> len l = len k -> l = k.
Proof. intros [t ->] E. rewrite len_app in E. rewrite (len_zero_nil t) by lia. by rewrite app_nil_r. Qed.

Lemma attempt_none s s' :
  part_good s -> attempt s None s' ->
  part_good s' /\ saved s `prefix_of` saved s' /\
  forall name, name <> part_name m -> rv_dir s' !! name = rv_dir s !! name.
Proof.
  intros Hg Ha. inversion Ha as [env e|env tx offset reader e ? Hh Ho Hp Hr|]; subst; [done|].
  apply (offset_saved env) in Ho; [subst offset|done..].
  apply (receive_holds (pending := pending) (sha256 := sha256)) in Hr as [_ Hr]; [|apply len_nonneg].
  destruct Hr as [Hd|[[E Hd]|(content & Hc & Hd)]].
  - unfold part_good, saved in *. rewrite Hd. auto.
  - apply len_zero_nil in E. rewrite E. split; [left; by rewrite Hd, lookup_delete_eq|].
    split; [apply prefix_nil|]. intros name Hn. by rewrite Hd, lookup_delete_ne.
  - destruct (attempt_bytes_source tx s reader content Hg Hp Hc) as [Hs1 Hs2].
    destruct Hd as [Hd|(_ & Hl & Hbad)].
    + assert (Hl : rv_dir s' !! part_name m = Some (RegularFile content))
        by (rewrite Hd; apply lookup_insert_eq).
      split; [right; eauto|]. split; [unfold saved at 2; by rewrite Hl|].
      intros name Hn. by rewrite Hd, lookup_insert_ne.
    + rewrite (prefix_same_len content source) in Hbad by (done || lia). by rewrite Hhash in Hbad.
Qed.

Lemma attempt_some s path s' :
  part_good s -> attempt s (Some path) s' ->
  path = path_join destination_dir (fm_file_name m) /\
  rv_dir s' = <[fm_file_name m := RegularFile source]> (delete (part_name m) (rv_dir s)).
Proof.
  intros Hg Ha. inversion Ha as [| |env tx offset reader p ? Hh Ho Hp Hr]; subst.
  apply (offset_saved env) in Ho; [subst offset|done..].
  apply (receive_holds (pending := pending) (sha256 := sha256)) in Hr
    as (content & -> & Hc & Hl & _ & -> & _); [|apply len_nonneg].
  destruct (attempt_bytes_source tx s reader content Hg Hp Hc) as [_ Hs].
  rewrite (prefix_same_len content source) by (done || lia). done.
Qed.

Lemma attempts_post s o s' :
  part_good s -> attempts s o s' ->
  match o with
  | Some path => path = path_join destination_dir (fm_file_name m) /\
      rv_dir s' !! fm_file_name m = Some (RegularFile source) /\
      (fm_file_name m <> part_name m -> rv_dir s' !! part_name m = None)
  | None => part_good s' /\ saved s `prefix_of` saved s'
  end /\
  forall name, name <> part_name m -> (is_Some o -> name <> fm_file_name m) ->
    rv_dir s' !! name = rv_dir s !! name.
Proof.
  intros Hg Ha. induction Ha as [s|s s1 o s2 Ha Has IH|s path s1 Ha].
  - done.
  - destruct (attempt_none _ _ Hg Ha) as (Hg1 & Hs1 & Hn1). destruct (IH Hg1) as [Ho Hn].
    split; [|intros name Hp Hf; by rewrite Hn, Hn1].
    destruct o; [done|]. destruct Ho as [? ?]. split; [done|]. by etrans.
  - destruct (attempt_some _ _ _ Hg Ha) as [-> Hd]. split.
    + split; [done|]. split; [by rewrite Hd, lookup_insert_eq|].
      intros Hne. by rewrite Hd, lookup_insert_ne, lookup_delete_eq.
    + intros name Hp Hf. rewrite Hd, lookup_insert_ne by (intros <-; by apply Hf).
      by rewrite lookup_delete_ne.
Qed.

(** When nothing fails and everything arrives, the attempt succeeds. *)
Lemma quiet_attempt env reader s :
  quiet env -> part_good s -> validate m = Ok tt ->
  rv_dir s !! fm_file_name m = None -> fm_file_name m <> part_name m ->
  (forall (r : R) n, is_ok (async_read r n) = true) ->
  pending reader = drop (Z.to_nat (len (saved s))) source ->
  existing_partial_offset env m s = Ok (len (saved s)) /\
  exists path s', stream_receive_file_cancellable env m destination_dir (len (saved s)) reader s
    = (Ok path, s').
Proof.
  intros (Hf & Hc & Hcl) Hg Hv Hfree Hne Hok Hpend.
  pose proof (prefix_of_len _ _ (saved_prefix s Hg)) as Hl. split.
  - unfold existing_partial_offset, io_validate, symlink_metadata, fs_call. rewrite Hv, Hf. cbn.
    unfold saved in *. destruct Hg as [->|(p & Hp & _)]; [done|]. rewrite Hp in *. cbn.
    by rewrite Hsize, (proj2 (Z.leb_le _ _)).
  - destruct (stream_receive_file_cancellable env m destination_dir _ reader s) as [[path|e] s'] eqn:Er;
      [by eauto|exfalso].
    apply (receive_holds (pending := pending) (sha256 := sha256)) in Er as [Hw _]; [|apply len_nonneg].
    destruct Hw as [?|?|(c & e' & ?)|t Ht|?|r n Hr|Hs|Hd|Hz Hcp|content Hb Hlc Hbad|[? ?]|?];
      try congruence; try lia.
    + by specialize (Hok r n); rewrite Hr in Hok.
    + rewrite Hpend in Hs. unfold len in *. rewrite length_drop in Hs. lia.
    + destruct Hg as [?|(p & ? & _)]; congruence.
    + unfold saved in *. destruct Hg as [Hn|(p & Hp & _)]; [by rewrite Hn in Hz|].
      rewrite Hp in *. by apply (Hcp p).
    + destruct (attempt_bytes_source calm_weather s reader content Hg) as [_ Hs]; [|done|].
      * rewrite Hpend.
        destruct (stream_send_post calm_weather source (len (saved s))) as [_ Hsend];
          [split; [apply len_nonneg|done]|].
        destruct (_.1) as [n|e']; [by destruct Hsend as [-> _]|]. by destruct Hsend.
      * rewrite (prefix_same_len content source) in Hbad by (done || lia). congruence.
Qed.
End Attempts.

(** A manifest built from a file declares its size and its hash, and is valid. *)
Lemma build_manifest_post `{Sha256Laws sha256} env transfer_id file_path source modified m :
  build_file_manifest env transfer_id file_path (Ok (RegularFile source)) modified = Ok m ->
  fm_file_size m = len source /\ hash_ok (sha256 := sha256) m source = true /\ validate m = Ok tt /\
  fm_transfer_id m = transfer_id.
Proof.
  unfold build_file_manifest. destruct (path_file_name file_path) as [name|]; [|done]. cbn [ok_or].
  destruct (hash_file_digest (sha256 := sha256) env source) as [->|(t & e & _ & ->)]; [|done].
  unfold io_validate. destruct (validate _) as [[]|] eqn:Ev; [|done]. cbn. intros <-%Ok_inj.
  repeat split; [|done]. unfold hash_ok. cbn. by apply bool_decide_eq_true.
Qed.

(** C32. A file sent in any number of interrupted attempts arrives as it is:
    with any failures and cancellations on both sides and any prefix of what
    was sent arriving each time, the part file always has the beginning of the
    source and never loses what it had; if an attempt succeeds, the file under
    its name is the source and the part file is gone; no other file changes.
    An undisturbed attempt, after any number of failed ones, succeeds. *)
Theorem resumed_transfer_delivers_source {R} `{AsyncReadLaws R pending} `{Sha256Laws sha256}
    tx0 transfer_id file_path modified source m destination_dir s o s' :
  build_file_manifest tx0 transfer_id file_path (Ok (RegularFile source)) modified = Ok m ->
  part_good m source s ->
  attempts (pending := pending) m destination_dir source s o s' ->
  (forall name, name <> part_name m -> (is_Some o -> name <> fm_file_name m) ->
     rv_dir s' !! name = rv_dir s !! name) /\
  match o with
  | Some path => path = path_join destination_dir (fm_file_name m) /\
      rv_dir s' !! fm_file_name m = Some (RegularFile source) /\
      (fm_file_name m <> part_name m -> rv_dir s' !! part_name m = None)
  | None =>
      saved m s `prefix_of` saved m s' /\ saved m s' `prefix_of` source /\
      (forall env reader, quiet env ->
         rv_dir s' !! fm_file_name m = None -> fm_file_name m <> part_name m ->
         (forall (r : R) n, is_ok (async_read r n) = true) ->
         pending reader = drop (Z.to_nat (len (saved m s'))) source ->
         existing_partial_offset env m s' = Ok (len (saved m s')) /\
         exists path s'', stream_receive_file_cancellable env m destination_dir
           (len (saved m s')) reader s' = (Ok path, s''))
  end.
Proof.
  intros (Hsize & Hhash & Hv & _)%(build_manifest_post (sha256 := sha256)) Hg Ha.
  apply (attempts_post m destination_dir source Hsize Hhash) in Ha as [Ho Hn]; [|done].
  split; [done|]. destruct o as [path|]; [done|]. destruct Ho as [Hg' Hs].
  split; [done|]. split; [by apply saved_prefix|].
  intros env reader Hq Hf Hne Hok Hp. by apply (quiet_attempt m destination_dir source Hsize Hhash).
Qed.

(** Finished files and part files share one directory and one name space:
    when a received file has the name of the part file of another transfer, that
    transfer takes it for its checkpoint and, when it succeeds, the finished
    file is gone. *)
Lemma finished_file_taken_as_part {R} `{AsyncReadLaws R pending} `{Sha256Laws sha256}
    env1 env2 m1 m2 destination_dir offset1 offset2 reader1 reader2 s path1 s1 path2 s2 :
  0 <= offset1 -> honest env2 -> fm_file_name m1 = part_name m2 -> fm_file_name m2 <> part_name m2 ->
  stream_receive_file_cancellable env1 m1 destination_dir offset1 reader1 s = (Ok path1, s1) ->
  fm_file_size m1 <= fm_file_size m2 ->
  existing_partial_offset env2 m2 s1 = Ok offset2 ->
  stream_receive_file_cancellable env2 m2 destination_dir offset2 reader2 s1 = (Ok path2, s2) ->
  offset2 = fm_file_size m1 /\
  (exists finished, rv_dir s1 !! fm_file_name m1 = Some (RegularFile finished)) /\
  rv_dir s2 !! fm_file_name m1 = None.
Proof.
  intros Ho1 Hh Hname Hne H1 Hle Hoff H2.
  apply (receive_holds (pending := pending) (sha256 := sha256)) in H1
    as (content & _ & _ & Hl & _ & Hd1 & _); [|done].
  assert (Hfin : rv_dir s1 !! part_name m2 = Some (RegularFile content))
    by (rewrite <- Hname, Hd1; apply lookup_insert_eq).
  assert (Hoff2 : offset2 = fm_file_size m1).
  { unfold existing_partial_offset, symlink_metadata, fs_call, se_fail in Hoff.
    destruct (io_validate m2); [|done]. destruct (fault env2 _) as [e|] eqn:Ef; cbn in Hoff.
    - rewrite bool_decide_eq_false_2 in Hoff; [done|]. by eapply Hh.
    - rewrite Hfin in Hoff. cbn in Hoff. rewrite (proj2 (Z.leb_le _ _)) in Hoff by lia.
      apply Ok_inj in Hoff. lia. }
  pose proof (len_nonneg content).
  apply (receive_holds (pending := pending) (sha256 := sha256)) in H2
    as (content2 & _ & _ & _ & _ & Hd2 & _); [|lia].
  rewrite Hname. split; [done|]. split; [eauto|].
  by rewrite Hd2, lookup_insert_ne, lookup_delete_eq.
Qed.

(** ** Witnesses: a hasher that keeps 32 bytes, and streams of arrived bytes *)

Definition hex_digit (z : Z) : byte := byte_of_Z (if z <? 10 then 48 + z else 87 + z).
Definition toy_hex (b : bytes) : string :=
  bytes_str (concat ((fun c => [hex_digit (Z_of_byte c / 16); hex_digit (Z_of_byte c mod 16)]) <$> b)).
Definition toy_digest (b : bytes) : bytes := take 32 (b ++ replicate 32 Byte.x00).

#[local] Instance toy_sha : Sha256 := {|
  Hasher := bytes;
  sha_new := [];
  sha_update := app;
  sha_finalize := toy_digest;
  hex_encode := toy_hex;
|}.

#[local] Instance toy_sha_laws : Sha256Laws toy_digest.
Proof.
  constructor. intros pieces. cbn. f_equal.
  assert (Hf : forall acc, foldl app acc pieces = acc ++ concat pieces).
  { induction pieces as [|p ps IH]; intros acc; cbn; [by rewrite app_nil_r|]. by rewrite IH, app_assoc. }
  apply Hf.
Qed.

#[local] Instance bytes_reader : AsyncRead bytes := {|
  async_read r n := Ok (take (Z.to_nat n) r, drop (Z.to_nat n) r);
|}.

#[local] Instance bytes_reader_laws : AsyncReadLaws bytes id.
Proof.
  constructor. intros r n b r' Hn. cbn. intros [= <- <-]. unfold id. split; [|split].
  - unfold len. rewrite length_take. lia.
  - by rewrite take_drop.
  - intros E. apply (f_equal length) in E. rewrite length_take in E. cbn in E.
    apply length_zero_iff_nil. lia.
Qed.

Definition sample_manifest (transfer_id file_name : string) (content : bytes) : FileManifest :=
  mkManifest transfer_id file_name (len content) 0 (toy_hex (toy_digest content)) 1.

(** Witness for C33. *)
Lemma receive_file_outcome_witness :
  let '(r, s') := stream_receive_file_cancellable calm_weather
    (sample_manifest "a" "f" (str_bytes "hi")) "/d" 0 (str_bytes "hi") (mkRecv ∅ []) in
  is_ok r = true /\
  receive_post (pending := id) (sha256 := toy_digest) calm_weather
    (sample_manifest "a" "f" (str_bytes "hi")) "/d" 0 (str_bytes "hi") ∅ r (rv_dir s').
Proof.
  destruct (stream_receive_file_cancellable _ _ _ _ _ _) as [r s'] eqn:E. split.
  - vm_compute in E. injection E as <- _. reflexivity.
  - exact (proj1 (receive_file_outcome (pending := id) (sha256 := toy_digest)
      calm_weather (sample_manifest "a" "f" (str_bytes "hi")) "/d" 0 (str_bytes "hi")
      (mkRecv ∅ []) r s' (Z.le_refl 0) E)).
Defined.

(** Witness for C32. *)
Lemma resumed_transfer_delivers_source_witness :
  exists m s', build_file_manifest calm_weather "a" "/x/f" (Ok (RegularFile (str_bytes "hi"))) None = Ok m /\
    attempts (pending := id) m "/d" (str_bytes "hi") (mkRecv ∅ []) (Some "/d/f"%string) s' /\
    rv_dir s' !! "f"%string = Some (RegularFile (str_bytes "hi")).
Proof.
  set (m := sample_manifest "a" "f" (str_bytes "hi")).
  assert (Hb : build_file_manifest calm_weather "a" "/x/f" (Ok (RegularFile (str_bytes "hi"))) None = Ok m)
    by (vm_compute; reflexivity).
  destruct (stream_receive_file_cancellable calm_weather m "/d" 0 (str_bytes "hi") (mkRecv ∅ []))
    as [r s'] eqn:E.
  assert (r = Ok "/d/f"%string) as -> by (vm_compute in E; injection E as <- _; reflexivity).
  assert (Ha : attempts (pending := id) m "/d" (str_bytes "hi") (mkRecv ∅ []) (Some "/d/f"%string) s').
  { apply attempts_done. apply (attempt_succeeded _ _ _ _ calm_weather calm_weather 0 (str_bytes "hi"));
      [intros c e Hc; discriminate Hc|vm_compute; reflexivity| |exact E].
    exists []. vm_compute. reflexivity. }
  exists m, s'. split; [exact Hb|]. split; [exact Ha|].
  exact (proj1 (proj2 (proj2 (resumed_transfer_delivers_source (pending := id) (sha256 := toy_digest)
    calm_weather "a" "/x/f" None (str_bytes "hi") m "/d" (mkRecv ∅ []) (Some "/d/f"%string) s'
    Hb (or_introl eq_refl) Ha)))).
Defined.
