(* ===== verification/Ordering.v ===== *)
(** * Orderings: comparisons, stable sorting and deduplication

    [Ord::cmp] and its combinations by [then_with], [slice::sort_by] and
    [Vec::dedup], with the fact that sorting by a total comparison and removing
    repetitions depends only on the elements. *)
From S2P Require Import Prelude.

(** [Ordering::then_with]. *)
Definition then_with (a b : comparison) : comparison :=
  match a with Eq => b | _ => a end.

(** The lexicographic order of slices. *)
Fixpoint cmp_list {A} (cmp : A -> A -> comparison) (l k : list A) : comparison :=
  match l, k with
  | [], [] => Eq
  | [], _ :: _ => Lt
  | _ :: _, [] => Gt
  | x :: l, y :: k => then_with (cmp x y) (cmp_list cmp l k)
  end.

Definition cmp_pair {A B} (cmpA : A -> A -> comparison) (cmpB : B -> B -> comparison)
    (p q : A * B) : comparison :=
  then_with (cmpA p.1 q.1) (cmpB p.2 q.2).

Definition cmp_by {A B} (f : A -> B) (cmp : B -> B -> comparison) (x y : A) : comparison :=
  cmp (f x) (f y).

Definition cmp_bytes : bytes -> bytes -> comparison := cmp_list (cmp_by Z_of_byte Z.compare).

(** Stable sorting: an element goes in front of those behind it that are not
    smaller. *)
Fixpoint insert_by {A} (cmp : A -> A -> comparison) (x : A) (l : list A) : list A :=
  match l with
  | [] => [x]
  | y :: l' => match cmp x y with Gt => y :: insert_by cmp x l' | _ => x :: l end
  end.
Definition sort_by {A} (cmp : A -> A -> comparison) (l : list A) : list A :=
  foldr (insert_by cmp) [] l.

(** [Vec::dedup]: of neighbours that are equal the first stays. *)
Fixpoint dedup {A} `{EqDecision A} (l : list A) : list A :=
  match l with
  | [] => []
  | x :: l =>
    match dedup l with
    | [] => [x]
    | y :: k => if decide (x = y) then x :: k else x :: y :: k
    end
  end.

(** ** Total comparisons *)

Class TotalCmp {A} (cmp : A -> A -> comparison) : Prop := {
  cmp_eq : forall x y, cmp x y = Eq <-> x = y;
  cmp_opp : forall x y, cmp y x = CompOpp (cmp x y);
  cmp_trans : forall x y z, cmp x y = Lt -> cmp y z = Lt -> cmp x z = Lt;
}.

#[export] Hint Mode TotalCmp ! + : typeclass_instances.
#[global] Arguments cmp_by : simpl never.
#[export] Typeclasses Opaque cmp_by cmp_pair cmp_list.

Lemma cmp_refl {A} {cmp : A -> A -> comparison} `{!TotalCmp cmp} x : cmp x x = Eq.
Proof. by apply cmp_eq. Qed.

#[export] Instance Z_cmp : TotalCmp Z.compare.
Proof.
  split; [apply Z.compare_eq_iff|intros; apply Z.compare_antisym|].
  intros x y z. rewrite !Z.compare_lt_iff. lia.
Qed.

#[export] Instance by_cmp {A B} (f : A -> B) cmp `{!TotalCmp cmp, !Inj (=) (=) f} :
  TotalCmp (cmp_by f cmp).
Proof.
  unfold cmp_by. split.
  - intros x y. rewrite cmp_eq. split; [apply (inj f)|by intros ->].
  - intros. apply cmp_opp.
  - intros x y z. apply cmp_trans.
Qed.

#[export] Instance pair_cmp {A B} (cmpA : A -> A -> comparison) (cmpB : B -> B -> comparison)
  `{!TotalCmp cmpA, !TotalCmp cmpB} : TotalCmp (cmp_pair cmpA cmpB).
Proof.
  unfold cmp_pair, then_with. split.
  - intros [a b] [c d]. cbn. destruct (cmpA a c) eqn:E.
    + apply cmp_eq in E as ->. rewrite cmp_eq. naive_solver.
    + split; [done|]. intros [= -> ->]. by rewrite cmp_refl in E.
    + split; [done|]. intros [= -> ->]. by rewrite cmp_refl in E.
  - intros [a b] [c d]. cbn. rewrite (cmp_opp a c). destruct (cmpA a c); cbn; [apply cmp_opp|done..].
  - intros [a b] [c d] [e f]. cbn.
    destruct (cmpA a c) eqn:E1; [|destruct (cmpA c e) eqn:E2|done]; intros H1 H2; try done.
    + apply cmp_eq in E1 as ->. destruct (cmpA c e); [|done..]. by apply (cmp_trans b d).
    + apply cmp_eq in E2 as <-. by rewrite E1.
    + by rewrite (cmp_trans a c e).
Qed.

#[export] Instance list_cmp {A} (cmp : A -> A -> comparison) `{!TotalCmp cmp} : TotalCmp (cmp_list cmp).
Proof.
  split.
  - induction x as [|a x IH]; intros [|b y]; cbn; try done. unfold then_with.
    destruct (cmp a b) eqn:E.
    + apply cmp_eq in E as ->. rewrite IH. naive_solver.
    + split; [done|]. intros [= -> ->]. by rewrite cmp_refl in E.
    + split; [done|]. intros [= -> ->]. by rewrite cmp_refl in E.
  - induction x as [|a x IH]; intros [|b y]; cbn; try done.
    rewrite (cmp_opp a b). destruct (cmp a b); cbn; [apply IH|done..].
  - induction x as [|a x IH]; intros [|b y] [|c z]; cbn; try done. unfold then_with.
    destruct (cmp a b) eqn:E1; [|destruct (cmp b c) eqn:E2|done]; intros H1 H2; try done.
    + apply cmp_eq in E1 as ->. destruct (cmp b c); [|done..]. eauto.
    + apply cmp_eq in E2 as <-. by rewrite E1.
    + by rewrite (cmp_trans a b c).
Qed.

#[export] Instance Z_of_byte_inj' : Inj (=) (=) Z_of_byte.
Proof. exact Z_of_byte_inj. Qed.
#[export] Instance str_bytes_inj' : Inj (=) (=) str_bytes.
Proof. exact str_bytes_inj. Qed.
#[export] Instance bytes_cmp : TotalCmp cmp_bytes.
Proof. unfold cmp_bytes. apply _. Qed.

(** ** Sorting *)

Lemma insert_by_perm {A} (cmp : A -> A -> comparison) x l : insert_by cmp x l ≡ₚ x :: l.
Proof.
  induction l as [|y l IH]; cbn; [done|]. destruct (cmp x y); [done..|].
  rewrite IH. apply Permutation_swap.
Qed.

Lemma sort_by_perm {A} (cmp : A -> A -> comparison) l : sort_by cmp l ≡ₚ l.
Proof. induction l as [|x l IH]; cbn; [done|]. by rewrite insert_by_perm, IH. Qed.

Section Canonical.
Context {A} {cmp : A -> A -> comparison} `{!TotalCmp cmp, !EqDecision A}.

Definition cmp_le (x y : A) : Prop := cmp x y <> Gt.

Lemma cmp_le_trans x y z : cmp_le x y -> cmp_le y z -> cmp_le x z.
Proof.
  unfold cmp_le. destruct (cmp x y) eqn:E1; [|destruct (cmp y z) eqn:E2|]; intros H1 H2; try done.
  - apply cmp_eq in E1 as ->. done.
  - apply cmp_eq in E2 as <-. by rewrite E1.
  - by rewrite (cmp_trans x y z).
Qed.

#[local] Instance cmp_le_antisymm : AntiSymm (=) cmp_le.
Proof.
  intros x y. unfold cmp_le. rewrite (cmp_opp (cmp := cmp) x y).
  destruct (cmp x y) eqn:E; cbn; [|done..]. intros _ _. by apply (cmp_eq (cmp := cmp)).
Qed.

(** Sorting by a key. *)
Lemma insert_by_sorted {B} (f : B -> A) x l :
  StronglySorted (fun x y => cmp_le (f x) (f y)) l ->
  StronglySorted (fun x y => cmp_le (f x) (f y)) (insert_by (cmp_by f cmp) x l).
Proof.
  induction 1 as [|y l Hl IH Hy]; [by repeat constructor|]. cbn. unfold cmp_by at 1.
  destruct (cmp (f x) (f y)) eqn:E.
  3: { constructor; [done|]. rewrite insert_by_perm. constructor; [|done].
       unfold cmp_le. by rewrite (cmp_opp (cmp := cmp) (f x) (f y)), E. }
  all: assert (Hxy : cmp_le (f x) (f y)) by (unfold cmp_le; by rewrite E).
  all: constructor; [by constructor|]; constructor; [done|].
  all: eapply Forall_impl; [done|]; intros z; by apply cmp_le_trans.
Qed.

Lemma sort_by_key_strongly {B} (f : B -> A) l :
  StronglySorted (fun x y => cmp_le (f x) (f y)) (sort_by (cmp_by f cmp) l).
Proof. induction l; [constructor|by apply insert_by_sorted]. Qed.

Lemma sort_by_sorted l : StronglySorted cmp_le (sort_by cmp l).
Proof. exact (sort_by_key_strongly (fun x => x) l). Qed.

Lemma elem_of_dedup (x : A) l : x ∈ dedup l <-> x ∈ l.
Proof.
  induction l as [|y l IH]; cbn; [done|]. rewrite elem_of_cons, <- IH.
  destruct (dedup l) as [|z k]; [by rewrite elem_of_cons|].
  destruct (decide (y = z)) as [->|]; rewrite !elem_of_cons; naive_solver.
Qed.

Lemma dedup_sorted l : StronglySorted cmp_le l -> StronglySorted cmp_le (dedup l) /\ NoDup (dedup l).
Proof.
  induction 1 as [|x l Hl IH Hx]; cbn; [split; constructor|]. destruct IH as [Hs Hn].
  assert (Hf : Forall (cmp_le x) (dedup l)).
  { rewrite Forall_forall in *. intros y Hy. by apply Hx, elem_of_dedup. }
  destruct (dedup l) as [|y k]; [split; [by repeat constructor|apply NoDup_singleton]|].
  destruct (decide (x = y)) as [->|Hne]; [done|]. split; [by constructor|].
  constructor; [|done]. rewrite elem_of_cons. intros [?|Hin]; [done|]. apply Hne.
  apply StronglySorted_inv in Hs as [_ Hyk]. apply Forall_cons in Hf as [Hxy _].
  rewrite Forall_forall in Hyk. apply cmp_le_antisymm; auto.
Qed.

(** Sorted without repetitions, two lists are equal exactly when they have the
    same elements. *)
Lemma sort_dedup_canonical l k :
  dedup (sort_by cmp l) = dedup (sort_by cmp k) <-> (forall x, x ∈ l <-> x ∈ k).
Proof.
  assert (He : forall x l, x ∈ dedup (sort_by cmp l) <-> x ∈ l).
  { intros x l'. by rewrite elem_of_dedup, sort_by_perm. }
  split; intros H.
  - intros x. by rewrite <- (He x l), H, He.
  - destruct (dedup_sorted _ (sort_by_sorted l)) as [Hs1 Hn1].
    destruct (dedup_sorted _ (sort_by_sorted k)) as [Hs2 Hn2].
    eapply (StronglySorted_unique cmp_le); [done..|].
    apply NoDup_Permutation; [done..|]. intros x. by rewrite !He.
Qed.

(** Sorted by a key that tells the elements apart, two lists with the same
    elements are equal. *)
Lemma sort_by_key_canonical {B} (f : B -> A) (l k : list B) :
  l ≡ₚ k -> (forall x y, x ∈ l -> y ∈ l -> f x = f y -> x = y) ->
  sort_by (cmp_by f cmp) l = sort_by (cmp_by f cmp) k.
Proof.
  intros Hp Hf. apply (StronglySorted_unique_strong (fun x y => cmp_le (f x) (f y)));
    [|apply sort_by_key_strongly..|by rewrite !sort_by_perm].
  intros x y. rewrite !sort_by_perm, <- Hp. intros Hx Hy H1 H2. apply Hf; [done..|].
  by apply cmp_le_antisymm.
Qed.
End Canonical.
