(* ===== verification/Candidates.v ===== *)
(** * NAT traversal: candidates, payloads, fingerprints and the probe queue

    Models [network-nat/src/candidate.rs] and the payload half of
    [candidate_v2.rs]: candidates and their advertisements, the versioned
    payload with its validation and canonical form, the qualification for direct
    probing, the queue of direct probes and the fingerprint of a candidate
    set.  A loss rate is an [f32] that this code only copies; it is kept as its
    bit pattern. *)
From S2P Require Import Prelude Ordering.

(** ** Addresses *)

(** [std::net::SocketAddr]: an address as its 32- or 128-bit number. *)
Inductive SocketAddr :=
| SockV4 (ip port : Z)
| SockV6 (ip port flowinfo scope_id : Z).

#[export] Instance SocketAddr_eq_dec : EqDecision SocketAddr.
Proof. solve_decision. Defined.

Definition addr_port (a : SocketAddr) : Z :=
  match a with SockV4 _ port => port | SockV6 _ port _ _ => port end.
(** [ip().is_unspecified()]. *)
Definition addr_is_unspecified (a : SocketAddr) : bool :=
  match a with SockV4 ip _ => ip =? 0 | SockV6 ip _ _ _ => ip =? 0 end.

(** The derived order of addresses: version 4 first, then field by field. *)
Definition addr_key (a : SocketAddr) : list Z :=
  match a with
  | SockV4 ip port => [4; ip; port]
  | SockV6 ip port flowinfo scope_id => [6; ip; port; flowinfo; scope_id]
  end.
Definition cmp_addr : SocketAddr -> SocketAddr -> comparison := cmp_by addr_key (cmp_list Z.compare).

Definition addr_of_key (l : list Z) : option SocketAddr :=
  match l with
  | [_; ip; port] => Some (SockV4 ip port)
  | [_; ip; port; flowinfo; scope_id] => Some (SockV6 ip port flowinfo scope_id)
  | _ => None
  end.
Lemma addr_of_addr_key a : addr_of_key (addr_key a) = Some a.
Proof. by destruct a. Qed.
#[export] Instance SocketAddr_countable : Countable SocketAddr :=
  inj_countable addr_key addr_of_key addr_of_addr_key.

(** ** Candidates *)

Inductive CandidateKind := KindLan | KindPublicIpv6 | KindServerReflexive | KindPortMapped | KindRelayed.

#[export] Instance CandidateKind_eq_dec : EqDecision CandidateKind.
Proof. solve_decision. Defined.

Record Candidate := mkCandidate {
  cd_id : string;
  cd_endpoint : SocketAddr;
  cd_interface : string;
  cd_kind : CandidateKind;
  cd_priority : Z;
  cd_generation : Z;
  cd_rtt_ms : Z;
  cd_jitter_ms : Z;
  cd_loss_rate : Z;
  cd_last_success : Z;
  cd_sample_count : Z;
}.

Record CandidateAdvertisement := mkAdvertisement {
  ad_id : string;
  ad_endpoint : SocketAddr;
  ad_kind : CandidateKind;
  ad_priority : Z;
  ad_interface : string;
  ad_generation : Z;
}.

#[export] Instance Candidate_eq_dec : EqDecision Candidate.
Proof. solve_decision. Defined.
#[export] Instance CandidateAdvertisement_eq_dec : EqDecision CandidateAdvertisement.
Proof. solve_decision. Defined.

Definition advertisement (c : Candidate) : CandidateAdvertisement :=
  mkAdvertisement (cd_id c) (cd_endpoint c) (cd_kind c) (cd_priority c) (cd_interface c)
    (cd_generation c).

Definition from_advertisement (a : CandidateAdvertisement) : result Candidate string :=
  if str_is_empty (ad_id a) || (128 <? slen (ad_id a))
     || str_is_empty (ad_interface a) || (128 <? slen (ad_interface a))
     || addr_is_unspecified (ad_endpoint a) || (addr_port (ad_endpoint a) =? 0)
  then Err "candidate advertisement contains invalid identity or endpoint"%string
  else Ok (mkCandidate (ad_id a) (ad_endpoint a) (ad_interface a) (ad_kind a) (ad_priority a)
             (ad_generation a) 0 0 0 0 0).

(** ** Payloads *)

Inductive CandidateTransport := Quic | Tcp | Websocket | UdpDatagram | RelayTransport.

#[export] Instance CandidateTransport_eq_dec : EqDecision CandidateTransport.
Proof. solve_decision. Defined.

Definition transport_order (t : CandidateTransport) : Z :=
  match t with Quic => 0 | Tcp => 1 | Websocket => 2 | UdpDatagram => 3 | RelayTransport => 4 end.

Definition candidate_kind_order (k : CandidateKind) : Z :=
  match k with
  | KindLan => 0 | KindPublicIpv6 => 1 | KindServerReflexive => 2 | KindPortMapped => 3
  | KindRelayed => 4
  end.

Definition CANDIDATE_PAYLOAD_VERSION : Z := 2.
Definition MAX_CANDIDATE_PAYLOAD_ENTRIES : Z := 32.
Definition MAX_CANDIDATE_PAYLOAD_BYTES : Z := 32 * 1024.
Definition MAX_CANDIDATE_ID_BYTES : Z := 128.
Definition MAX_INTERFACE_BYTES : Z := 128.

Record CandidatePayloadV2 := mkPayload {
  cp_version : Z;
  cp_id : string;
  cp_endpoint : SocketAddr;
  cp_kind : CandidateKind;
  cp_transports : list CandidateTransport;
  cp_priority : Z;
  cp_interface : string;
  cp_generation : Z;
}.

#[export] Instance CandidatePayloadV2_eq_dec : EqDecision CandidatePayloadV2.
Proof. solve_decision. Defined.

Inductive CandidatePayloadError :=
| UnsupportedVersion (version : Z)
| InvalidIdentity
| InvalidEndpoint
| MissingTransportCapability
| DuplicateTransport
| DuplicateCandidateId
| InvalidGeneration
| SrflxTransportMismatch
| RelayTransportMismatch
| CandidateSetTooLarge
| CandidatePayloadTooLarge
| MalformedEncoding.

Definition from_candidate (c : Candidate) (transports : list CandidateTransport) : CandidatePayloadV2 :=
  mkPayload CANDIDATE_PAYLOAD_VERSION (cd_id c) (cd_endpoint c) (cd_kind c) transports
    (cd_priority c) (cd_interface c) (cd_generation c).

(** [u8::is_ascii_graphic]. *)
Definition is_ascii_graphic (b : byte) : bool := in_range 33 126 b.

(** The loop that looks for a repeated transport. *)
Fixpoint has_repeat (seen l : list CandidateTransport) : bool :=
  match l with
  | [] => false
  | t :: l => if bool_decide (t ∈ seen) then true else has_repeat (seen ++ [t]) l
  end.

Definition identity_valid (max : Z) (s : string) : bool :=
  negb (str_is_empty s) && negb (max <? slen s) && forallb is_ascii_graphic (str_bytes s).

Definition payload_validate (p : CandidatePayloadV2) : result unit CandidatePayloadError :=
  if negb (cp_version p =? CANDIDATE_PAYLOAD_VERSION) then Err (UnsupportedVersion (cp_version p))
  else if negb (identity_valid MAX_CANDIDATE_ID_BYTES (cp_id p)) then Err InvalidIdentity
  else if negb (identity_valid MAX_INTERFACE_BYTES (cp_interface p)) then Err InvalidIdentity
  else if addr_is_unspecified (cp_endpoint p) || (addr_port (cp_endpoint p) =? 0)
  then Err InvalidEndpoint
  else if bool_decide (cp_transports p = []) then Err MissingTransportCapability
  else if has_repeat [] (cp_transports p) then Err DuplicateTransport
  else if cp_generation p =? 0 then Err InvalidGeneration
  else if bool_decide (cp_kind p = KindServerReflexive)
          && existsb (fun t => match t with Quic | UdpDatagram => false | _ => true end) (cp_transports p)
  then Err SrflxTransportMismatch
  else if bool_decide (cp_kind p = KindRelayed) then
    if existsb (fun t => negb (bool_decide (t = RelayTransport))) (cp_transports p)
    then Err RelayTransportMismatch else Ok tt
  else if bool_decide (RelayTransport ∈ cp_transports p) then Err RelayTransportMismatch
  else Ok tt.

Definition with_transports (ts : list CandidateTransport) (p : CandidatePayloadV2) : CandidatePayloadV2 :=
  mkPayload (cp_version p) (cp_id p) (cp_endpoint p) (cp_kind p) ts (cp_priority p) (cp_interface p)
    (cp_generation p).

Definition payload_normalized (p : CandidatePayloadV2) : result CandidatePayloadV2 CandidatePayloadError :=
  let? _ := payload_validate p in
  Ok (with_transports (sort_by_key transport_order (cp_transports p)) p).

Definition direct_transports (p : CandidatePayloadV2) : list CandidateTransport :=
  if bool_decide (cp_kind p = KindRelayed) then []
  else List.filter (fun t => match t with RelayTransport => false | _ => true end) (cp_transports p).

Definition is_direct_probe_eligible (p : CandidatePayloadV2) : bool :=
  existsb (fun t => match t with Quic | Tcp | Websocket | UdpDatagram => true | RelayTransport => false end)
    (direct_transports p).

(** The JSON encoding is library code ([serde_json] with derived instances);
    parsing what was written gives the value back. *)
Class PayloadJson := {
  json_payload : CandidatePayloadV2 -> option bytes;
  parse_payload : bytes -> option CandidatePayloadV2;
  json_payloads : list CandidatePayloadV2 -> option bytes;
}.
Class PayloadJsonLaws {HJ : PayloadJson} : Prop := {
  parse_json : forall p b, json_payload p = Some b -> parse_payload b = Some p;
}.

Definition payload_encode {HJ : PayloadJson} (p : CandidatePayloadV2) : result bytes CandidatePayloadError :=
  let? normalized := payload_normalized p in
  let? encoded := ok_or (json_payload normalized) MalformedEncoding in
  if MAX_CANDIDATE_PAYLOAD_BYTES <? len encoded then Err CandidatePayloadTooLarge else Ok encoded.

Definition payload_decode {HJ : PayloadJson} (b : bytes) : result CandidatePayloadV2 CandidatePayloadError :=
  if MAX_CANDIDATE_PAYLOAD_BYTES <? len b then Err CandidatePayloadTooLarge
  else let? p := ok_or (parse_payload b) MalformedEncoding in payload_normalized p.

(** ** Direct probes *)

Record CandidateAttemptKey := mkAttemptKey {
  ak_id : string;
  ak_endpoint : SocketAddr;
  ak_generation : Z;
}.

#[export] Instance CandidateAttemptKey_eq_dec : EqDecision CandidateAttemptKey.
Proof. solve_decision. Defined.
#[export] Program Instance CandidateAttemptKey_countable : Countable CandidateAttemptKey :=
  inj_countable' (fun k => (ak_id k, ak_endpoint k, ak_generation k))
    (fun p => mkAttemptKey p.1.1 p.1.2 p.2) _.
Next Obligation. by intros []. Qed.

Definition attempt_key (p : CandidatePayloadV2) : CandidateAttemptKey :=
  mkAttemptKey (cp_id p) (cp_endpoint p) (cp_generation p).

Record QualifiedDirectCandidate := mkQualified {
  qd_candidate : CandidatePayloadV2;
  qd_transport : CandidateTransport;
}.

Definition qualified_key (q : QualifiedDirectCandidate) : CandidateAttemptKey :=
  attempt_key (qd_candidate q).

Fixpoint qualify_direct_probe (candidates : list CandidatePayloadV2) :
    result (list QualifiedDirectCandidate) CandidatePayloadError :=
  match candidates with
  | [] => Ok []
  | p :: candidates =>
    let? p := payload_normalized p in
    let? rest := qualify_direct_probe candidates in
    if bool_decide (cp_kind p = KindRelayed) then Ok rest
    else Ok ((mkQualified p <$> direct_transports p) ++ rest)
  end.

Record DirectProbeQueue := mkQueue {
  pq_pending : list QualifiedDirectCandidate;
  pq_started : gset CandidateAttemptKey;
}.

Definition queue_default : DirectProbeQueue := mkQueue [] ∅.

(** Queueing one candidate unless its key is started or already waits. *)
Definition queue_push (started : gset CandidateAttemptKey) (pending : list QualifiedDirectCandidate)
    (q : QualifiedDirectCandidate) : list QualifiedDirectCandidate :=
  if bool_decide (qualified_key q ∉ started)
     && negb (existsb (fun w => bool_decide (qualified_key w = qualified_key q)) pending)
  then pending ++ [q] else pending.

Definition reconcile (candidates : list CandidatePayloadV2) (s : DirectProbeQueue) :
    result unit CandidatePayloadError * DirectProbeQueue :=
  match qualify_direct_probe candidates with
  | Err e => (Err e, s)
  | Ok qualified =>
    let snapshot_keys := qualified_key <$> qualified in
    let kept := List.filter (fun w => bool_decide (qualified_key w ∈ snapshot_keys)) (pq_pending s) in
    (Ok tt, mkQueue (foldl (queue_push (pq_started s)) kept qualified) (pq_started s))
  end.

Definition pop_next (s : DirectProbeQueue) : option QualifiedDirectCandidate * DirectProbeQueue :=
  match pq_pending s with
  | [] => (None, s)
  | q :: pending => (Some q, mkQueue pending ({[qualified_key q]} ∪ pq_started s))
  end.

(** ** Fingerprints *)

Record CandidateFingerprintEntry := mkFingerprintEntry {
  fe_id : string;
  fe_endpoint : SocketAddr;
  fe_kind : CandidateKind;
  fe_transports : list CandidateTransport;
  fe_priority : Z;
  fe_interface : string;
  fe_generation : Z;
}.

#[export] Instance CandidateFingerprintEntry_eq_dec : EqDecision CandidateFingerprintEntry.
Proof. solve_decision. Defined.

Abbreviation CandidateFingerprint := (list CandidateFingerprintEntry).

Definition fingerprint_entry (p : CandidatePayloadV2) : CandidateFingerprintEntry :=
  mkFingerprintEntry (cp_id p) (cp_endpoint p) (cp_kind p) (cp_transports p) (cp_priority p)
    (cp_interface p) (cp_generation p).

Definition cmp_entry (l r : CandidateFingerprintEntry) : comparison :=
  then_with (cmp_by str_bytes cmp_bytes (fe_id l) (fe_id r))
  (then_with (cmp_addr (fe_endpoint l) (fe_endpoint r))
  (then_with (cmp_by candidate_kind_order Z.compare (fe_kind l) (fe_kind r))
  (then_with (cmp_list (cmp_by transport_order Z.compare) (fe_transports l) (fe_transports r))
  (then_with (fe_priority l ?= fe_priority r)
  (then_with (cmp_by str_bytes cmp_bytes (fe_interface l) (fe_interface r))
     (fe_generation l ?= fe_generation r)))))).

(** The first error of the set, or every payload in canonical form. *)
Fixpoint all_normalized (l : list CandidatePayloadV2) : result (list CandidatePayloadV2) CandidatePayloadError :=
  match l with
  | [] => Ok []
  | p :: l => let? p := payload_normalized p in let? l := all_normalized l in Ok (p :: l)
  end.

Definition fingerprint_from (candidates : list CandidatePayloadV2) :
    result CandidateFingerprint CandidatePayloadError :=
  let? normalized := all_normalized candidates in
  Ok (dedup (sort_by cmp_entry (fingerprint_entry <$> normalized))).
