(* ===== verification/CandidateProofs.v ===== *)
(** * NAT traversal: theorems about payloads, fingerprints and the probe queue *)
From S2P Require Import Prelude Ordering Candidates.

(** ** Canonical payloads *)

#[export] Instance transport_order_inj : Inj (=) (=) transport_order.
Proof. by intros [] []. Qed.
#[export] Instance candidate_kind_order_inj : Inj (=) (=) candidate_kind_order.
Proof. by intros [] []. Qed.
#[export] Instance addr_key_inj : Inj (=) (=) addr_key.
Proof. intros a b E. apply (f_equal addr_of_key) in E. rewrite !addr_of_addr_key in E. by simplify_eq. Qed.

(** The comparison of fingerprint entries is the lexicographic one on their
    fields. *)
Definition entry_key (e : CandidateFingerprintEntry) :=
  (fe_id e, (fe_endpoint e, (fe_kind e, (fe_transports e, (fe_priority e, (fe_interface e, fe_generation e)))))).

#[export] Instance entry_key_inj : Inj (=) (=) entry_key.
Proof. intros [] [] E. unfold entry_key in E. by simplify_eq/=. Qed.

#[export] Instance entry_cmp : TotalCmp cmp_entry.
Proof.
  change (TotalCmp (cmp_by entry_key
    (cmp_pair (cmp_by str_bytes cmp_bytes) (cmp_pair (cmp_by addr_key (cmp_list Z.compare))
    (cmp_pair (cmp_by candidate_kind_order Z.compare)
    (cmp_pair (cmp_list (cmp_by transport_order Z.compare)) (cmp_pair Z.compare
    (cmp_pair (cmp_by str_bytes cmp_bytes) Z.compare)))))))).
  apply _.
Qed.

(** What validation looks at does not depend on the order of the transports. *)
Lemma has_repeat_spec seen l : has_repeat seen l = false <-> NoDup l /\ (forall t, t ∈ l -> t ∉ seen).
Proof.
  revert seen. induction l as [|t l IH]; intros seen; cbn.
  { split; [|done]. intros _. split; [constructor|]. intros t Ht. by apply elem_of_nil in Ht. }
  destruct (decide (t ∈ seen)) as [Hs|Hs].
  - rewrite bool_decide_eq_true_2 by done. split; [done|]. intros [_ H]. exfalso. apply (H t); [left|done].
  - rewrite bool_decide_eq_false_2 by done. rewrite IH, NoDup_cons. set_solver.
Qed.

Lemma existsb_perm {A} (f : A -> bool) l k : l ≡ₚ k -> existsb f l = existsb f k.
Proof.
  intros Hp. apply eq_true_iff_eq. rewrite !existsb_exists. setoid_rewrite <- list_elem_of_In.
  by setoid_rewrite Hp.
Qed.

Lemma validate_sorted p :
  payload_validate (with_transports (sort_by_key transport_order (cp_transports p)) p) = payload_validate p.
Proof.
  pose proof (sort_by_key_perm transport_order (cp_transports p)) as Hp.
  unfold payload_validate. cbn [with_transports cp_version cp_id cp_interface cp_endpoint cp_transports
    cp_generation cp_kind].
  rewrite !(existsb_perm _ _ _ Hp).
  replace (bool_decide (sort_by_key transport_order (cp_transports p) = []))
    with (bool_decide (cp_transports p = [])).
  2: { apply bool_decide_ext. split; intros E; [by rewrite E|].
       rewrite E in Hp. by apply length_zero_iff_nil, eq_sym, (Permutation_length Hp). }
  replace (has_repeat [] (sort_by_key transport_order (cp_transports p)))
    with (has_repeat [] (cp_transports p)).
  2: { apply eq_bool_prop_intro. rewrite !Is_true_true, <- !not_false_iff_true, !has_repeat_spec.
       by setoid_rewrite Hp. }
  replace (bool_decide (RelayTransport ∈ sort_by_key transport_order (cp_transports p)))
    with (bool_decide (RelayTransport ∈ cp_transports p)); [done|].
  apply bool_decide_ext. by rewrite Hp.
Qed.

Lemma normalized_inv p q :
  payload_normalized p = Ok q ->
  payload_validate q = Ok tt /\ q = with_transports (sort_by_key transport_order (cp_transports p)) p.
Proof.
  unfold payload_normalized. destruct (payload_validate p) as [[]|] eqn:E; [|done].
  intros <-%Ok_inj. by rewrite validate_sorted.
Qed.

(** Stable insertion does nothing to a sorted list. *)
Lemma sort_by_key_id {A} (key : A -> Z) l :
  StronglySorted (fun x y => key x <= key y) l -> sort_by_key key l = l.
Proof.
  induction 1 as [|x l Hl IH Hx]; [done|].
  change (insert_by_key key x (sort_by_key key l) = x :: l). rewrite IH.
  destruct l as [|y l]; [done|]. cbn. apply Forall_cons in Hx as [Hxy _].
  by rewrite (proj2 (Z.leb_le _ _)).
Qed.

(** The canonical form is a fixed point. *)
Lemma normalized_idem p q : payload_normalized p = Ok q -> payload_normalized q = Ok q.
Proof.
  intros (Hv & ->)%normalized_inv. unfold payload_normalized. rewrite Hv. cbn. f_equal.
  unfold with_transports. cbn. f_equal. apply sort_by_key_id, sort_by_key_sorted.
Qed.

Lemma all_normalized_inv l nl :
  all_normalized l = Ok nl -> Forall2 (fun p q => payload_normalized p = Ok q) l nl.
Proof.
  revert nl. induction l as [|p l IH]; intros nl; cbn; [by intros <-%Ok_inj; constructor|].
  destruct (payload_normalized p) as [q|] eqn:E; [|done].
  destruct (all_normalized l) as [k|]; [|done]. intros <-%Ok_inj. constructor; auto.
Qed.

Lemma validated_version p : payload_validate p = Ok tt -> cp_version p = CANDIDATE_PAYLOAD_VERSION.
Proof. unfold payload_validate. destruct (_ =? _) eqn:E; [|done]. by bool_facts. Qed.

Lemma all_normalized_version l nl p :
  all_normalized l = Ok nl -> p ∈ nl -> cp_version p = CANDIDATE_PAYLOAD_VERSION.
Proof.
  intros Hf%all_normalized_inv Hp. apply list_elem_of_lookup in Hp as [i Hi].
  destruct (Forall2_lookup_r _ _ _ _ _ Hf Hi) as (q & _ & (Hv & _)%normalized_inv).
  by apply validated_version.
Qed.

(** An entry has every field of the payload but the version, which is fixed. *)
Lemma fingerprint_entry_inj p q :
  cp_version p = cp_version q -> fingerprint_entry p = fingerprint_entry q -> p = q.
Proof. destruct p, q. unfold fingerprint_entry. cbn. intros -> [= -> -> -> -> -> -> ->]. done. Qed.

Lemma elem_of_entries (nl : list CandidatePayloadV2) p :
  (forall q, q ∈ nl -> cp_version q = CANDIDATE_PAYLOAD_VERSION) ->
  cp_version p = CANDIDATE_PAYLOAD_VERSION ->
  fingerprint_entry p ∈ fingerprint_entry <$> nl <-> p ∈ nl.
Proof.
  intros Hv Hp. rewrite list_elem_of_fmap. split; [|by eauto].
  intros (q & E & Hq). rewrite (fingerprint_entry_inj p q); [done| |done].
  rewrite Hp. symmetry. by apply Hv.
Qed.

Lemma fingerprint_same_set l k nl nk :
  all_normalized l = Ok nl -> all_normalized k = Ok nk ->
  fingerprint_from l = fingerprint_from k <-> (forall p, p ∈ nl <-> p ∈ nk).
Proof.
  intros Hl Hk. unfold fingerprint_from. rewrite Hl, Hk. transitivity
    (dedup (sort_by cmp_entry (fingerprint_entry <$> nl))
     = dedup (sort_by cmp_entry (fingerprint_entry <$> nk))); [split; [apply Ok_inj|by intros ->]|].
  rewrite sort_dedup_canonical. split.
  - intros H p. destruct (decide (cp_version p = CANDIDATE_PAYLOAD_VERSION)) as [Hp|Hp].
    + rewrite <- (elem_of_entries nl p), H, elem_of_entries; eauto using all_normalized_version.
    + split; intros Hin; destruct Hp; eauto using all_normalized_version.
  - intros H e. rewrite !list_elem_of_fmap. by setoid_rewrite H.
Qed.

(** The fingerprint of a candidate set is canonical: two sets have the same
    fingerprint exactly when they consist of the same candidates in canonical
    form, whatever the order and repetition of the candidates and the order of
    their transports; and it fails on exactly the sets with an invalid
    candidate. *)
Lemma fingerprint_canonical l k nl nk :
  all_normalized l = Ok nl -> all_normalized k = Ok nk ->
  (fingerprint_from l = fingerprint_from k <-> (forall p, p ∈ nl <-> p ∈ nk)) /\
  (forall bad e, all_normalized bad = Err e <-> fingerprint_from bad = Err e).
Proof.
  intros Hl Hk. split; [by apply fingerprint_same_set|].
  intros bad e. unfold fingerprint_from. destruct (all_normalized bad); split; congruence.
Qed.

Definition sample_payload (id : string) (transports : list CandidateTransport) : CandidatePayloadV2 :=
  mkPayload 2 id (SockV4 2130706433 41001) KindLan transports 100 "lo" 1.

(** Decoding an encoded payload gives its canonical form, and whatever is decoded
    is valid and canonical. *)
Lemma payload_codec `{PayloadJsonLaws} :
  (forall p b, payload_encode p = Ok b -> payload_decode b = payload_normalized p) /\
  (forall b q, payload_decode b = Ok q -> payload_validate q = Ok tt /\ payload_normalized q = Ok q).
Proof.
  split.
  - intros p b. unfold payload_encode, payload_decode.
    destruct (payload_normalized p) as [q|] eqn:E; [|done].
    destruct (json_payload q) as [b'|] eqn:Ej; [|done]. cbn [ok_or].
    destruct (_ <? _) eqn:El; [done|]. intros <-%Ok_inj. rewrite El, (parse_json _ _ Ej). cbn [ok_or].
    by eapply normalized_idem.
  - intros b q. unfold payload_decode. destruct (_ <? _); [done|].
    destruct (parse_payload b) as [p|]; [|done]. cbn [ok_or]. intros Hn.
    split; [by apply normalized_inv in Hn as [? _]|by eapply normalized_idem].
Qed.

(** ** The probe queue *)

Inductive probe_op := PReconcile (candidates : list CandidatePayloadV2) | PPop.

Definition probe_step (op : probe_op) (s : DirectProbeQueue) :
    list QualifiedDirectCandidate * DirectProbeQueue :=
  match op with
  | PReconcile candidates => ([], (reconcile candidates s).2)
  | PPop => let '(q, s') := pop_next s in (option_list q, s')
  end.

Fixpoint probe_run (ops : list probe_op) (s : DirectProbeQueue) :
    list QualifiedDirectCandidate * DirectProbeQueue :=
  match ops with
  | [] => ([], s)
  | op :: ops =>
    let '(out, s1) := probe_step op s in
    let '(outs, s2) := probe_run ops s1 in (out ++ outs, s2)
  end.

(** A candidate that may be probed directly. *)
Definition direct (q : QualifiedDirectCandidate) : Prop :=
  payload_validate (qd_candidate q) = Ok tt /\ cp_kind (qd_candidate q) <> KindRelayed /\
  qd_transport q <> RelayTransport /\ qd_transport q ∈ cp_transports (qd_candidate q).

Lemma qualify_direct candidates qualified q :
  qualify_direct_probe candidates = Ok qualified -> q ∈ qualified -> direct q.
Proof.
  revert qualified. induction candidates as [|p l IH]; intros qualified; cbn.
  { intros <-%Ok_inj Hq. by apply elem_of_nil in Hq. }
  destruct (payload_normalized p) as [p'|] eqn:Ep; [|done].
  destruct (qualify_direct_probe l) as [rest|]; [|done].
  case_bool_decide as Hk; intros <-%Ok_inj; [by apply IH|].
  rewrite elem_of_app, list_elem_of_fmap. intros [(t & -> & Ht)|Hq]; [|by eapply IH].
  unfold direct_transports in Ht. rewrite bool_decide_eq_false_2 in Ht by done.
  apply list_elem_of_In, filter_In in Ht as [Ht%list_elem_of_In Hr].
  apply normalized_inv in Ep as [Hv _]. repeat split; [done..| |done]. by destruct t.
Qed.

Abbreviation keys := (fmap (M := list) qualified_key).

(** The queue's invariant, with what was handed out so far. *)
Record queue_inv (out : list QualifiedDirectCandidate) (s : DirectProbeQueue) : Prop := {
  qi_once : NoDup (keys out ++ keys (pq_pending s));
  qi_started : forall k, k ∈ pq_started s <-> k ∈ keys out;
  qi_direct : Forall direct (out ++ pq_pending s);
}.

Lemma elem_of_existsb_key pending (k : CandidateAttemptKey) :
  existsb (fun w => bool_decide (qualified_key w = k)) pending = true <-> k ∈ keys pending.
Proof.
  rewrite existsb_exists, list_elem_of_fmap. setoid_rewrite <- list_elem_of_In.
  split; intros (w & H1 & H2); exists w; rewrite bool_decide_eq_true in *; auto.
Qed.

(** Queueing the candidates of a snapshot. *)
Lemma push_all started pending qualified :
  NoDup (keys pending) -> (forall k, k ∈ keys pending -> k ∉ started) ->
  let result := foldl (queue_push started) pending qualified in
  NoDup (keys result) /\
  (forall k, k ∈ keys result <-> k ∈ keys pending \/ (k ∈ keys qualified /\ k ∉ started)) /\
  (forall q, q ∈ result -> q ∈ pending \/ q ∈ qualified).
Proof.
  revert pending. induction qualified as [|q l IH]; intros pending Hn Hs; cbn [foldl]; cbv zeta.
  { split; [done|]. split; [|by auto]. intros k. cbn. rewrite elem_of_nil. naive_solver. }
  remember (queue_push started pending q) as next eqn:En.
  unfold queue_push in En. destruct (_ && _) eqn:E; subst next; bool_facts.
  - assert (Hnew : qualified_key q ∉ keys pending).
    { rewrite <- elem_of_existsb_key. by rewrite H0. }
    destruct (IH (pending ++ [q])) as (H1 & H2 & H3).
    + rewrite fmap_app. apply NoDup_app. repeat split; [done| |apply NoDup_singleton].
      intros k Hk. cbn. rewrite list_elem_of_singleton. by intros ->.
    + intros k. rewrite fmap_app, elem_of_app. cbn. rewrite list_elem_of_singleton.
      intros [?| ->]; auto.
    + split; [done|]. split.
      * intros k. rewrite H2, fmap_app, elem_of_app. cbn. rewrite list_elem_of_singleton, elem_of_cons.
        naive_solver.
      * intros w [Hw|Hw]%H3; [|right; by right].
        apply elem_of_app in Hw as [?| ->%list_elem_of_singleton]; [by left|right; by left].
  - destruct (IH pending Hn Hs) as (H1 & H2 & H3). split; [done|]. split.
    + intros k. rewrite H2. cbn. rewrite elem_of_cons.
      apply andb_false_iff in E as [E|E]; bool_facts.
      * naive_solver.
      * apply elem_of_existsb_key in E. naive_solver.
    + intros w [?|?]%H3; [by left|right; by right].
Qed.

Lemma NoDup_list_filter {A B} (f : A -> bool) (g : A -> B) l :
  NoDup (g <$> l) -> NoDup (g <$> List.filter f l).
Proof.
  induction l as [|x l IH]; cbn; [done|]. rewrite NoDup_cons. intros [Hx Hn].
  destruct (f x); [|auto]. cbn. rewrite NoDup_cons. split; [|auto].
  rewrite list_elem_of_fmap in *. intros (y & E & Hy%list_elem_of_In%filter_In). apply Hx.
  exists y. rewrite list_elem_of_In. by destruct Hy.
Qed.

Lemma elem_of_kept (f : QualifiedDirectCandidate -> bool) l q : q ∈ List.filter f l <-> q ∈ l /\ f q = true.
Proof. rewrite !list_elem_of_In. apply filter_In. Qed.

(** What a successful reconciliation leaves waiting: exactly the keys of the
    snapshot that were not started. *)
Lemma reconcile_pending out s candidates qualified :
  queue_inv out s -> qualify_direct_probe candidates = Ok qualified ->
  let s' := (reconcile candidates s).2 in
  queue_inv out s' /\ pq_started s' = pq_started s /\
  forall k, k ∈ keys (pq_pending s') <-> k ∈ keys qualified /\ k ∉ pq_started s.
Proof.
  intros [Hn Hst Hd] Eq. unfold reconcile. rewrite Eq. cbn [snd pq_pending pq_started].
  apply NoDup_app in Hn as (Hno & Hdis & Hnp).
  set (kept := List.filter _ _).
  assert (Hkept : forall k, k ∈ keys kept <-> k ∈ keys (pq_pending s) /\ k ∈ keys qualified).
  { intros k. split.
    - intros (w & -> & [Hw Hq]%elem_of_kept)%list_elem_of_fmap. bool_facts.
      split; [apply list_elem_of_fmap; eauto|done].
    - intros [(w & -> & Hw)%list_elem_of_fmap Hq]. apply list_elem_of_fmap. exists w.
      split; [done|]. apply elem_of_kept. split; [done|]. by apply bool_decide_eq_true. }
  assert (Hfree : forall k, k ∈ keys (pq_pending s) -> k ∉ pq_started s).
  { intros k Hk Hs%Hst. by apply (Hdis k). }
  destruct (push_all (pq_started s) kept qualified) as (H1 & H2 & H3).
  { by apply NoDup_list_filter. }
  { intros k [? _]%Hkept. auto. }
  split; [|split; [done|]].
  - split; cbn [pq_pending pq_started]; [|done|].
    + apply NoDup_app. split; [done|]. split; [|done]. intros k Hk. rewrite H2, Hkept.
      intros [[? _]|[_ Hns]]; [by apply (Hdis k)|]. by apply Hns, Hst.
    + apply Forall_app in Hd as [Hd1 Hd2]. apply Forall_app. split; [done|].
      apply Forall_forall. intros q [Hq|Hq]%H3; [|by eapply qualify_direct].
      rewrite Forall_forall in Hd2. apply Hd2. by apply elem_of_kept in Hq as [? _].
  - intros k. rewrite H2, Hkept. split; [|by auto]. intros [[Hp ?]|?]; [|done]. split; [done|]. auto.
Qed.

Lemma queue_step out op s :
  queue_inv out s -> queue_inv (out ++ (probe_step op s).1) (probe_step op s).2.
Proof.
  intros Hi. destruct op as [candidates|]; cbn [probe_step].
  - rewrite app_nil_r. destruct (qualify_direct_probe candidates) as [qualified|e] eqn:Eq.
    + by eapply reconcile_pending.
    + unfold reconcile. by rewrite Eq.
  - unfold pop_next. destruct s as [[|q pending] started]; cbn; [by rewrite app_nil_r|].
    destruct Hi as [Hn Hst Hd]. split; cbn in *.
    + by rewrite fmap_app, <- app_assoc.
    + intros k. rewrite fmap_app, elem_of_app, elem_of_union, Hst. cbn.
      rewrite list_elem_of_singleton. set_solver.
    + by rewrite <- app_assoc.
Qed.

Lemma queue_run ops out s :
  queue_inv out s -> queue_inv (out ++ (probe_run ops s).1) (probe_run ops s).2.
Proof.
  revert out s. induction ops as [|op ops IH]; intros out s Hi; cbn; [by rewrite app_nil_r|].
  pose proof (queue_step out op s Hi) as Hi1. destruct (probe_step op s) as [o1 s1].
  cbn in Hi1. apply IH in Hi1. destruct (probe_run ops s1) as [o2 s2]. cbn in *. by rewrite app_assoc.
Qed.

(** The probe queue hands out each attempt once: over any sequence of
    snapshots and pops the keys handed out are pairwise distinct and are the
    started ones, everything handed out or waiting is a valid candidate of a
    direct kind with a direct transport of its own, and after a snapshot exactly
    its keys that were not yet started are waiting. *)
Lemma probe_queue_each_once ops candidates qualified :
  qualify_direct_probe candidates = Ok qualified ->
  let '(out, s) := probe_run ops queue_default in
  NoDup (keys out) /\ (forall k, k ∈ pq_started s <-> k ∈ keys out) /\
  Forall direct (out ++ pq_pending s) /\
  let s' := (reconcile candidates s).2 in
  NoDup (keys (pq_pending s')) /\
  (forall k, k ∈ keys (pq_pending s') <-> k ∈ keys qualified /\ k ∉ keys out).
Proof.
  intros Hq. assert (H0 : queue_inv [] queue_default).
  { split; cbn; [constructor|set_solver|constructor]. }
  apply (queue_run ops) in H0. destruct (probe_run ops queue_default) as [out s]. cbn in H0.
  destruct (reconcile_pending out s candidates qualified H0 Hq) as (Hi & Hs & Hk).
  destruct H0 as [Hn Hst Hd]. destruct Hi as [Hn' _ _].
  apply NoDup_app in Hn as (? & _ & _). apply NoDup_app in Hn' as (_ & _ & ?).
  cbv zeta. split_and!; try done. intros k. by rewrite Hk, Hst.
Qed.
