(* ===== verification/CandidateCache.v ===== *)
(** * NAT traversal: the cache of resolved remote candidates

    Models the cache half of [network-nat/src/candidate_v2.rs]: snapshots of a
    peer's candidates, and the cache that orders them by runtime epoch and
    revision, ages them by the monotonic clock and keeps retired epochs out. *)
From S2P Require Import Prelude Ordering Candidates CandidateProofs.

Record RuntimeEpoch := mkEpoch { ep_high : Z; ep_low : Z }.

#[export] Instance RuntimeEpoch_eq_dec : EqDecision RuntimeEpoch.
Proof. solve_decision. Defined.
#[export] Program Instance RuntimeEpoch_countable : Countable RuntimeEpoch :=
  inj_countable' (fun e => (ep_high e, ep_low e)) (fun p => mkEpoch p.1 p.2) _.
Next Obligation. by intros []. Qed.

Definition DEFAULT_REMOTE_CANDIDATE_CACHE_TTL : Z := from_secs 60.
Definition MAX_RETIRED_EPOCHS : Z := 8.

Record ResolvedCandidateSnapshot := mkSnap {
  sn_epoch : RuntimeEpoch;
  sn_revision : Z;
  sn_candidates : list CandidatePayloadV2;
  sn_server_ttl : option Z;
}.

Inductive CacheUpdate := Replaced | Refreshed | IgnoredStale.

Inductive CandidateCacheError :=
| InvalidSnapshot (e : CandidatePayloadError)
| SameRevisionDifferentFingerprint.

Record ResolvedCandidateCache := mkCache {
  cc_epoch : RuntimeEpoch;
  cc_revision : Z;
  cc_candidates : list CandidatePayloadV2;
  cc_fingerprint : CandidateFingerprint;
  cc_learned_at : Z;
  cc_ttl : Z;
  cc_retired : gset RuntimeEpoch;
  cc_expected : option RuntimeEpoch;
}.

(** The order of candidates in a snapshot. *)
Definition cmp_candidate (l r : CandidatePayloadV2) : comparison :=
  then_with (cmp_addr (cp_endpoint l) (cp_endpoint r))
  (then_with (cmp_by candidate_kind_order Z.compare (cp_kind l) (cp_kind r))
     (cmp_by str_bytes cmp_bytes (cp_id l) (cp_id r))).

Section Cache.
Context {HJ : PayloadJson} {HO : SetOrder RuntimeEpoch}.
(** The earliest instant that [Instant] can represent. *)
Context (instant_min : Z).

Definition snapshot_normalized (s : ResolvedCandidateSnapshot) :
    result ResolvedCandidateSnapshot CandidatePayloadError :=
  if MAX_CANDIDATE_PAYLOAD_ENTRIES <? len (sn_candidates s) then Err CandidateSetTooLarge
  else
    let? candidates := all_normalized (sn_candidates s) in
    if negb (bool_decide (NoDup (cp_id <$> candidates))) then Err DuplicateCandidateId
    else
      let? encoded := ok_or (json_payloads candidates) CandidatePayloadTooLarge in
      if MAX_CANDIDATE_PAYLOAD_BYTES <? len encoded then Err CandidatePayloadTooLarge
      else Ok (mkSnap (sn_epoch s) (sn_revision s) (sort_by cmp_candidate candidates) (sn_server_ttl s)).

Definition snapshot_ttl (s : ResolvedCandidateSnapshot) : Z :=
  match sn_server_ttl s with
  | Some ttl => if ttl =? 0 then DEFAULT_REMOTE_CANDIDATE_CACHE_TTL else ttl
  | None => DEFAULT_REMOTE_CANDIDATE_CACHE_TTL
  end.

(** The normalized snapshot and its fingerprint. *)
Definition prepare (s : ResolvedCandidateSnapshot) :
    result (ResolvedCandidateSnapshot * CandidateFingerprint) CandidateCacheError :=
  let? s := map_err InvalidSnapshot (snapshot_normalized s) in
  let? fingerprint := map_err InvalidSnapshot (fingerprint_from (sn_candidates s)) in
  Ok (s, fingerprint).

Definition from_snapshot (s : ResolvedCandidateSnapshot) (learned_at : Z) :
    result ResolvedCandidateCache CandidateCacheError :=
  let? (s, fingerprint) := prepare s in
  Ok (mkCache (sn_epoch s) (sn_revision s) (sn_candidates s) fingerprint learned_at (snapshot_ttl s) ∅ None).

Definition age_at (now : Z) (c : ResolvedCandidateCache) : Z := Z.max 0 (now - cc_learned_at c).

Definition is_fresh_at (now : Z) (c : ResolvedCandidateCache) : bool :=
  negb (bool_decide (cc_candidates c = [])) && (age_at now c <=? cc_ttl c).

Definition stage_a_candidates_at (now : Z) (c : ResolvedCandidateCache) :
    option (list CandidatePayloadV2) :=
  if is_fresh_at now c then Some (cc_candidates c) else None.

Definition with_retired (retired : gset RuntimeEpoch) (c : ResolvedCandidateCache) : ResolvedCandidateCache :=
  mkCache (cc_epoch c) (cc_revision c) (cc_candidates c) (cc_fingerprint c) (cc_learned_at c) (cc_ttl c)
    retired (cc_expected c).
Definition with_expected (expected : option RuntimeEpoch) (c : ResolvedCandidateCache) : ResolvedCandidateCache :=
  mkCache (cc_epoch c) (cc_revision c) (cc_candidates c) (cc_fingerprint c) (cc_learned_at c) (cc_ttl c)
    (cc_retired c) expected.

Definition retire_epoch (epoch : RuntimeEpoch) (c : ResolvedCandidateCache) : ResolvedCandidateCache :=
  let retired := cc_retired c in
  let retired :=
    if (MAX_RETIRED_EPOCHS <=? Z.of_nat (size retired)) && negb (bool_decide (epoch ∈ retired))
    then match set_iter retired with
         | [] => retired
         | evicted :: _ => retired ∖ {[evicted]}
         end
    else retired in
  with_retired ({[epoch]} ∪ retired) c.

(** The fence of an announced epoch is settled by any snapshot that is let in. *)
Definition settle_expected (epoch : RuntimeEpoch) (c : ResolvedCandidateCache) : ResolvedCandidateCache :=
  match cc_expected c with
  | None => c
  | Some expected =>
    with_expected None (if decide (epoch = expected) then c else retire_epoch expected c)
  end.

Definition cache_replace (s : ResolvedCandidateSnapshot) (fingerprint : CandidateFingerprint)
    (learned_at : Z) (c : ResolvedCandidateCache) : ResolvedCandidateCache :=
  let c := retire_epoch (cc_epoch c) c in
  mkCache (sn_epoch s) (sn_revision s) (sn_candidates s) fingerprint (Z.max (cc_learned_at c) learned_at)
    (snapshot_ttl s) (cc_retired c) (cc_expected c).

Definition cache_refresh (s : ResolvedCandidateSnapshot) (learned_at : Z) (c : ResolvedCandidateCache) :
    ResolvedCandidateCache :=
  mkCache (cc_epoch c) (cc_revision c) (cc_candidates c) (cc_fingerprint c)
    (Z.max (cc_learned_at c) learned_at) (snapshot_ttl s) (cc_retired c) (cc_expected c).

Definition cache_apply (s : ResolvedCandidateSnapshot) (learned_at : Z) (c : ResolvedCandidateCache) :
    result CacheUpdate CandidateCacheError * ResolvedCandidateCache :=
  match prepare s with
  | Err e => (Err e, c)
  | Ok (s, fingerprint) =>
    if bool_decide (sn_epoch s ∈ cc_retired c) then (Ok IgnoredStale, c)
    else
      let c := settle_expected (sn_epoch s) c in
      if bool_decide (sn_epoch s = cc_epoch c) then
        match sn_revision s ?= cc_revision c with
        | Lt => (Ok IgnoredStale, c)
        | Eq =>
          if negb (bool_decide (fingerprint = cc_fingerprint c))
          then (Err SameRevisionDifferentFingerprint, c)
          else (Ok Refreshed, cache_refresh s learned_at c)
        | Gt => (Ok Replaced, cache_replace s fingerprint learned_at c)
        end
      else (Ok Replaced, cache_replace s fingerprint learned_at c)
  end.

Definition invalidate_for_remote_epoch (remote_epoch : RuntimeEpoch) (now : Z)
    (c : ResolvedCandidateCache) : bool * ResolvedCandidateCache :=
  if bool_decide (remote_epoch = cc_epoch c) then (false, c)
  else
    let c := retire_epoch (cc_epoch c) c in
    let past := now - (cc_ttl c + 1) in
    (true, mkCache (cc_epoch c) (cc_revision c) [] [] (if instant_min <=? past then past else now)
             (cc_ttl c) (cc_retired c) (Some remote_epoch)).
End Cache.
