(* ===== verification/CandidateCacheProofs.v ===== *)
(** * NAT traversal: theorems about the candidate cache

    What the cache serves is what was last learned and is fresh; and what the
    handling of retired epochs does to a peer that publishes a newer revision. *)
From S2P Require Import Prelude Ordering Candidates CandidateProofs CandidateCache.

(** ** Prepared snapshots *)

(** The key candidates are sorted by. *)
Definition candidate_key (p : CandidatePayloadV2) := (cp_endpoint p, (cp_kind p, cp_id p)).

Lemma cmp_candidate_key : cmp_candidate = cmp_by candidate_key
  (cmp_pair cmp_addr (cmp_pair (cmp_by candidate_kind_order Z.compare) (cmp_by str_bytes cmp_bytes))).
Proof. reflexivity. Qed.

Lemma all_normalized_id l : Forall (fun p => payload_normalized p = Ok p) l -> all_normalized l = Ok l.
Proof. induction 1 as [|p l Hp _ IH]; cbn; [done|]. by rewrite Hp, IH. Qed.

Lemma all_normalized_fixed l nl :
  all_normalized l = Ok nl -> Forall (fun p => payload_normalized p = Ok p) nl.
Proof.
  intros Hf%all_normalized_inv. induction Hf as [|p q l nl Hp _ IH]; [constructor|].
  constructor; [by eapply normalized_idem|done].
Qed.

Lemma NoDup_fmap_elem {A B} (f : A -> B) l x y :
  NoDup (f <$> l) -> x ∈ l -> y ∈ l -> f x = f y -> x = y.
Proof.
  induction l as [|z l IH]; [by intros _ Hx%elem_of_nil|]. cbn. rewrite NoDup_cons. intros [Hz Hn].
  rewrite !elem_of_cons. intros [->|Hx] [->|Hy] E; [done| | |by apply IH].
  - destruct Hz. apply list_elem_of_fmap. eauto.
  - destruct Hz. apply list_elem_of_fmap. eauto.
Qed.

Section CacheProofs.
Context {HJ : PayloadJson} {HO : SetOrder RuntimeEpoch} (instant_min : Z).

Lemma prepare_inv s s' fp :
  prepare s = Ok (s', fp) ->
  exists nl, all_normalized (sn_candidates s) = Ok nl /\ NoDup (cp_id <$> nl) /\
    s' = mkSnap (sn_epoch s) (sn_revision s) (sort_by cmp_candidate nl) (sn_server_ttl s) /\
    all_normalized (sn_candidates s') = Ok (sn_candidates s') /\
    fingerprint_from (sn_candidates s') = Ok fp.
Proof.
  unfold prepare, snapshot_normalized. destruct (_ <? _); [done|].
  destruct (all_normalized _) as [nl|] eqn:E; [|done]. destruct (bool_decide _) eqn:Ed; [|done].
  cbn [negb]. destruct (json_payloads nl) as [b|]; [|done]. cbn [ok_or].
  destruct (_ <? len b); [done|]. cbn [map_err sn_candidates].
  destruct (fingerprint_from _) as [fp'|] eqn:Ef; [|done]. cbn. intros [<- <-]%Ok_inj%pair_equal_spec.
  bool_facts. exists nl. split_and!; [done..| |done]. apply all_normalized_id. cbn.
  rewrite sort_by_perm. by eapply all_normalized_fixed.
Qed.

(** Snapshots with the same fingerprint have the same candidates, in the same
    order. *)
Lemma prepare_same s1 s2 s1' s2' fp :
  prepare s1 = Ok (s1', fp) -> prepare s2 = Ok (s2', fp) -> sn_candidates s1' = sn_candidates s2'.
Proof.
  intros (l1 & _ & Hn1 & E1 & A1 & F1)%prepare_inv (l2 & _ & Hn2 & E2 & A2 & F2)%prepare_inv.
  assert (Hset : forall p, p ∈ sn_candidates s1' <-> p ∈ sn_candidates s2')
    by (apply (fingerprint_same_set _ _ _ _ A1 A2); by rewrite F1, F2).
  rewrite E1, E2 in *. cbn [sn_candidates] in *. rewrite cmp_candidate_key in *.
  apply sort_by_key_canonical.
  - apply NoDup_Permutation; [by eapply NoDup_fmap_1..|]. intros p.
    specialize (Hset p). by rewrite !sort_by_perm in Hset.
  - intros x y Hx Hy [= _ _ E]. by eapply (NoDup_fmap_elem cp_id l1).
Qed.

(** ** Runs of the cache *)

Inductive cache_op :=
| CApply (s : ResolvedCandidateSnapshot) (learned_at : Z)
| CInvalidate (remote_epoch : RuntimeEpoch) (now : Z).

Definition op_time (op : cache_op) : Z :=
  match op with CApply _ t => t | CInvalidate _ t => t end.

(** The snapshots that were let in, with the time they were learned. *)
Definition cache_step (op : cache_op) (c : ResolvedCandidateCache) :
    list (ResolvedCandidateSnapshot * Z) * ResolvedCandidateCache :=
  match op with
  | CApply s t =>
    match cache_apply s t c with
    | (Ok (Replaced | Refreshed), c') => ([(s, t)], c')
    | (_, c') => ([], c')
    end
  | CInvalidate e t => ([], (invalidate_for_remote_epoch instant_min e t c).2)
  end.

Fixpoint cache_run (ops : list cache_op) (c : ResolvedCandidateCache) :
    list (ResolvedCandidateSnapshot * Z) * ResolvedCandidateCache :=
  match ops with
  | [] => ([], c)
  | op :: ops =>
    let '(acc, c1) := cache_step op c in
    let '(accs, c2) := cache_run ops c1 in (acc ++ accs, c2)
  end.

(** The clock does not go back from one operation to the next, and a server's
    time to live is a duration. *)
Definition op_ok (op : cache_op) : Prop :=
  match op with CApply s _ => 0 <= snapshot_ttl s | CInvalidate _ _ => True end.

Fixpoint monotonic (t : Z) (ops : list cache_op) : Prop :=
  match ops with
  | [] => True
  | op :: ops => t <= op_time op /\ op_ok op /\ monotonic (op_time op) ops
  end.

(** What the cache holds was learned from the snapshot [s] at time [t]. *)
Definition learned_from (c : ResolvedCandidateCache) (s : ResolvedCandidateSnapshot) (t : Z) : Prop :=
  exists s', prepare s = Ok (s', cc_fingerprint c) /\ cc_candidates c = sn_candidates s' /\
    cc_epoch c = sn_epoch s /\ cc_revision c = sn_revision s /\
    cc_learned_at c = t /\ cc_ttl c = snapshot_ttl s.

Record cache_inv (t : Z) (acc : list (ResolvedCandidateSnapshot * Z)) (c : ResolvedCandidateCache) : Prop := {
  ci_source : cc_candidates c = [] \/ exists st, st ∈ acc /\ learned_from c st.1 st.2;
  ci_time : cc_learned_at c <= t;
  ci_ttl : 0 <= cc_ttl c;
  ci_retired : Z.of_nat (size (cc_retired c)) <= MAX_RETIRED_EPOCHS;
}.

(** ** What the operations keep *)

Lemma retire_epoch_frame e c :
  cc_candidates (retire_epoch e c) = cc_candidates c /\ cc_fingerprint (retire_epoch e c) = cc_fingerprint c /\
  cc_epoch (retire_epoch e c) = cc_epoch c /\ cc_revision (retire_epoch e c) = cc_revision c /\
  cc_learned_at (retire_epoch e c) = cc_learned_at c /\ cc_ttl (retire_epoch e c) = cc_ttl c /\
  e ∈ cc_retired (retire_epoch e c).
Proof. repeat split. cbn. set_solver. Qed.

Lemma retire_epoch_bounded e c :
  Z.of_nat (size (cc_retired c)) <= MAX_RETIRED_EPOCHS ->
  Z.of_nat (size (cc_retired (retire_epoch e c))) <= MAX_RETIRED_EPOCHS.
Proof.
  unfold MAX_RETIRED_EPOCHS. intros Hs. cbn. unfold MAX_RETIRED_EPOCHS.
  destruct (decide (e ∈ cc_retired c)) as [He|He].
  { rewrite bool_decide_eq_true_2, andb_false_r by done. by replace ({[e]} ∪ cc_retired c) with (cc_retired c) by set_solver. }
  rewrite (bool_decide_eq_false_2 (e ∈ cc_retired c)), andb_true_r by done.
  destruct (8 <=? _) eqn:E; bool_facts.
  - destruct (set_iter (cc_retired c)) as [|v l] eqn:Ei.
    + pose proof (set_iter_perm (cc_retired c)) as Hp. rewrite Ei in Hp.
      apply Permutation_length in Hp. unfold size, set_size in E. cbn in Hp, E. lia.
    + assert (Hv : v ∈ cc_retired c) by (apply elem_of_set_iter; rewrite Ei; left).
      rewrite size_union, size_singleton, size_difference, size_singleton by set_solver. lia.
  - rewrite size_union, size_singleton by set_solver. lia.
Qed.

Lemma settle_frame e c :
  cc_candidates (settle_expected e c) = cc_candidates c /\
  cc_fingerprint (settle_expected e c) = cc_fingerprint c /\
  cc_epoch (settle_expected e c) = cc_epoch c /\ cc_revision (settle_expected e c) = cc_revision c /\
  cc_learned_at (settle_expected e c) = cc_learned_at c /\ cc_ttl (settle_expected e c) = cc_ttl c.
Proof. unfold settle_expected. destruct (cc_expected c); [|done]. by destruct (decide _). Qed.

Lemma settle_bounded e c :
  Z.of_nat (size (cc_retired c)) <= MAX_RETIRED_EPOCHS ->
  Z.of_nat (size (cc_retired (settle_expected e c))) <= MAX_RETIRED_EPOCHS.
Proof.
  unfold settle_expected. destruct (cc_expected c) as [x|]; [|done].
  destruct (decide _); [done|]. apply retire_epoch_bounded.
Qed.

Lemma cache_inv_frame t acc c c' :
  cache_inv t acc c -> cc_candidates c' = cc_candidates c -> cc_fingerprint c' = cc_fingerprint c ->
  cc_epoch c' = cc_epoch c -> cc_revision c' = cc_revision c -> cc_learned_at c' = cc_learned_at c ->
  cc_ttl c' = cc_ttl c -> Z.of_nat (size (cc_retired c')) <= MAX_RETIRED_EPOCHS -> cache_inv t acc c'.
Proof.
  intros [Hs Ht Hl Hr] E1 E2 E3 E4 E5 E6 Hb. split; [|by rewrite E5|by rewrite E6|done].
  unfold learned_from in *. by rewrite E1, E2, E3, E4, E5, E6.
Qed.

Lemma cache_inv_weaken t t' acc acc' c :
  cache_inv t acc c -> t <= t' -> cache_inv t' (acc ++ acc') c.
Proof.
  intros [Hs Ht Hl Hr] Hle. split; [|lia|done..]. destruct Hs as [?|(st & Hst & ?)]; [by left|].
  right. exists st. split; [|done]. apply elem_of_app. by left.
Qed.

(** A snapshot that is let in becomes the source. *)
Lemma cache_inv_learned t t' acc c c' s :
  cache_inv t acc c -> t <= t' -> 0 <= snapshot_ttl s -> learned_from c' s t' ->
  Z.of_nat (size (cc_retired c')) <= MAX_RETIRED_EPOCHS -> cache_inv t' (acc ++ [(s, t')]) c'.
Proof.
  intros Hi Ht Httl Hl Hr. split; [right| | |done].
  - exists (s, t'). split; [apply elem_of_app; right; left|done].
  - destruct Hl as (s' & _ & _ & _ & _ & -> & _). done.
  - by destruct Hl as (s' & _ & _ & _ & _ & _ & ->).
Qed.

Lemma replace_learned t acc c s s' fp t' :
  cache_inv t acc c -> t <= t' -> prepare s = Ok (s', fp) ->
  learned_from (cache_replace s' fp t' (settle_expected (sn_epoch s') c)) s t'.
Proof.
  intros [_ Ht _ _] Hle Hp. pose proof (prepare_inv _ _ _ Hp) as (nl & _ & _ & -> & _).
  eexists. split; [exact Hp|]. pose proof (settle_frame (sn_epoch s) c) as (_ & _ & _ & _ & Hl & _).
  cbn. repeat split. rewrite Hl. lia.
Qed.

Lemma refresh_learned t acc c s s' t' :
  cache_inv t acc c -> t <= t' -> prepare s = Ok (s', cc_fingerprint c) ->
  sn_epoch s = cc_epoch c -> sn_revision s = cc_revision c -> cc_candidates c <> [] ->
  learned_from (cache_refresh s' t' (settle_expected (sn_epoch s') c)) s t'.
Proof.
  intros [Hsrc Ht _ _] Hle Hp He Hr Hne.
  destruct Hsrc as [?|((s0 & t0) & _ & s0' & Hp0 & Hc0 & _)]; [done|].
  pose proof (prepare_inv _ _ _ Hp) as (nl & _ & _ & Es & _).
  pose proof (settle_frame (sn_epoch s') c) as (H1 & H2 & H3 & H4 & H5 & H6).
  exists s'. cbn. rewrite H1, H2, H3, H4, H5. rewrite Hc0, (prepare_same _ _ _ _ _ Hp0 Hp).
  rewrite Es. cbn. split_and!; [by rewrite <- Es|done..|lia|done].
Qed.

Lemma cache_step_inv t acc op c :
  cache_inv t acc c -> t <= op_time op -> op_ok op ->
  cache_inv (op_time op) (acc ++ (cache_step op c).1) (cache_step op c).2.
Proof.
  intros Hi Ht Hok. destruct op as [s t'|e t']; cbn [op_time op_ok] in *.
  2: { cbn. rewrite app_nil_r. unfold invalidate_for_remote_epoch. case_bool_decide.
       - eapply cache_inv_weaken in Hi; [|done]. by erewrite app_nil_r in Hi.
       - destruct Hi as [_ Hl Httl Hr]. split; cbn; [by left| |done|by apply retire_epoch_bounded].
         destruct (_ <=? _); lia. }
  assert (Hsame : cache_inv t' (acc ++ []) c) by by eapply cache_inv_weaken.
  assert (Hset : forall e, cache_inv t' (acc ++ []) (settle_expected e c)).
  { intros e. destruct (settle_frame e c) as (?&?&?&?&?&?).
    eapply cache_inv_frame; [exact Hsame|done..|]. apply settle_bounded, Hi. }
  cbn [cache_step]. unfold cache_apply.
  destruct (prepare s) as [[s' fp]|] eqn:Hp; [|exact Hsame].
  case_bool_decide as Hret; [exact Hsame|].
  pose proof (settle_frame (sn_epoch s') c) as (H1 & H2 & H3 & H4 & _).
  pose proof (settle_bounded (sn_epoch s') c (ci_retired _ _ _ Hi)) as Hb.
  assert (Hrep : cache_inv t' (acc ++ [(s, t')])
    (cache_replace s' fp t' (settle_expected (sn_epoch s') c))).
  { eapply cache_inv_learned; [done..|by eapply replace_learned|]. by apply retire_epoch_bounded. }
  case_bool_decide as He; [|exact Hrep].
  destruct (sn_revision s' ?= _) eqn:Ec; [|exact (Hset _)|exact Hrep].
  destruct (bool_decide (fp = _)) eqn:Ef; cbn [negb]; [|exact (Hset _)]. bool_facts.
  apply Z.compare_eq in Ec. rewrite H2, H3, H4 in *. subst fp.
  pose proof (prepare_inv _ _ _ Hp) as (nl & _ & _ & Es & _).
  destruct (decide (cc_candidates c = [])) as [Hnil|Hne].
  - split; cbn; [by left; rewrite H1| |rewrite Es; exact Hok|done].
    destruct (settle_frame (sn_epoch s') c) as (_ & _ & _ & _ & -> & _). pose proof (ci_time _ _ _ Hi). lia.
  - eapply cache_inv_learned; [done..| |done]. eapply refresh_learned; [done..| | |done];
      rewrite Es in *; cbn in *; congruence.
Qed.

Lemma cache_run_inv t acc ops c :
  cache_inv t acc c -> monotonic t ops ->
  exists t', cache_inv t' (acc ++ (cache_run ops c).1) (cache_run ops c).2.
Proof.
  revert t acc c. induction ops as [|op ops IH]; intros t acc c Hi Hm; cbn.
  { exists t. by rewrite app_nil_r. }
  destruct Hm as (Ht & Hok & Hm). pose proof (cache_step_inv _ _ _ _ Hi Ht Hok) as Hi1.
  destruct (cache_step op c) as [a1 c1]. cbn in Hi1. apply IH in Hi1 as [t' Hi2]; [|done].
  destruct (cache_run ops c1) as [a2 c2]. exists t'. cbn in *. by rewrite app_assoc.
Qed.

Lemma from_snapshot_inv s0 t0 c :
  0 <= snapshot_ttl s0 -> from_snapshot s0 t0 = Ok c -> cache_inv t0 [(s0, t0)] c.
Proof.
  intros Httl. unfold from_snapshot. destruct (prepare s0) as [[s' fp]|] eqn:Hp; [|done].
  intros <-%Ok_inj. pose proof (prepare_inv _ _ _ Hp) as (nl & _ & _ & Es & _).
  split; cbn; [right|done|rewrite Es; exact Httl|by rewrite size_empty].
  exists (s0, t0). split; [left|]. exists s'. cbn. split; [exact Hp|]. rewrite Es. done.
Qed.

(** A retired epoch is never let in. *)
Lemma apply_retired s t c s' fp :
  prepare s = Ok (s', fp) -> sn_epoch s ∈ cc_retired c -> cache_apply s t c = (Ok IgnoredStale, c).
Proof.
  intros Hp Hr. pose proof (prepare_inv _ _ _ Hp) as (nl & _ & _ & Es & _).
  unfold cache_apply. rewrite Hp. rewrite bool_decide_eq_true_2 by by rewrite Es. done.
Qed.
End CacheProofs.

(** C35. What the cache offers for the first, uncoordinated attempt was learned
    and is fresh: over any snapshots and invalidations, the offered candidates
    are exactly those of a valid snapshot that was let in at some time, with its
    epoch and revision, and no more time has passed since than its time to
    live; and at most eight epochs are remembered as retired. *)
Theorem stage_a_candidates_fresh {HJ : PayloadJson} {HO : SetOrder RuntimeEpoch}
    instant_min s0 t0 c0 ops now offered :
  0 <= snapshot_ttl s0 -> from_snapshot s0 t0 = Ok c0 -> monotonic t0 ops ->
  let '(accepted, c) := cache_run instant_min ops c0 in
  Z.of_nat (size (cc_retired c)) <= MAX_RETIRED_EPOCHS /\
  (stage_a_candidates_at now c = Some offered ->
   exists s t s' fp, (s, t) ∈ (s0, t0) :: accepted /\ prepare s = Ok (s', fp) /\
     offered = sn_candidates s' /\ cc_epoch c = sn_epoch s /\ cc_revision c = sn_revision s /\
     now - t <= snapshot_ttl s).
Proof.
  intros Httl Hc0 Hm. apply from_snapshot_inv in Hc0; [|done].
  apply (cache_run_inv instant_min _ _ ops) in Hc0 as [t' Hi]; [|done].
  destruct (cache_run instant_min ops c0) as [acc c]. cbn in Hi. destruct Hi as [Hs _ _ Hr].
  split; [done|]. unfold stage_a_candidates_at, is_fresh_at, age_at.
  destruct (_ && _) eqn:E; [|done]. intros [= <-]. bool_facts.
  destruct Hs as [?|((s & t) & Hin & s' & Hp & Hcand & He & Hrev & Hl & Ht)]; [done|].
  exists s, t, s', (cc_fingerprint c). cbn in *. rewrite Hl, Ht in *. split_and!; [done..|lia].
Qed.

(** A newer revision of the same runtime freezes the cache: replacing a
    snapshot retires the epoch it had, which is the epoch of the new one too. From
    then on every snapshot of the running peer is ignored, and once the time to
    live has passed nothing is offered any more. *)
Lemma newer_revision_freezes_cache {HJ : PayloadJson} {HO : SetOrder RuntimeEpoch}
    instant_min s t c c' later now :
  sn_epoch s = cc_epoch c -> cc_expected c = None ->
  cache_apply s t c = (Ok Replaced, c') ->
  (forall s2 t2, CApply s2 t2 ∈ later -> sn_epoch s2 = cc_epoch c /\ is_ok (prepare s2) = true) ->
  (forall e t2, CInvalidate e t2 ∉ later) ->
  cc_epoch c' = cc_epoch c /\ cache_run instant_min later c' = ([], c') /\
  (cc_learned_at c' + cc_ttl c' < now -> 0 <= cc_ttl c' ->
   stage_a_candidates_at now (cache_run instant_min later c').2 = None).
Proof.
  intros He Hx Ha Hl Hni.
  assert (Hc' : cc_epoch c' = cc_epoch c /\ cc_epoch c ∈ cc_retired c').
  { unfold cache_apply, settle_expected in Ha. rewrite Hx in Ha.
    destruct (prepare s) as [[s' fp]|] eqn:Hp; [|done].
    pose proof (prepare_inv _ _ _ Hp) as (nl & _ & _ & Es & _).
    repeat (case_bool_decide || destruct (_ ?= _)); simplify_eq/=; (split; [done|set_solver]). }
  destruct Hc' as [He' Hr]. split; [done|].
  assert (Hrun : cache_run instant_min later c' = ([], c')).
  { induction later as [|op later IH]; [done|]. cbn. destruct op as [s2 t2|e t2].
    - destruct (Hl s2 t2) as [E2 Hok]; [left|]. destruct (prepare s2) as [[s2' fp2]|] eqn:Hp2; [|done].
      cbn. rewrite (apply_retired _ _ _ _ _ Hp2) by by rewrite E2.
      rewrite IH; [done|intros s3 t3 Hin; apply (Hl s3 t3); by right|intros e t3 Hin; apply (Hni e t3); by right].
    - destruct (Hni e t2). left. }
  split; [done|]. rewrite Hrun. cbn. intros Hnow Httl. unfold stage_a_candidates_at, is_fresh_at, age_at.
  rewrite (proj2 (Z.leb_gt _ _)) by lia. by rewrite andb_false_r.
Qed.

(** ** Witnesses *)

#[local] Instance toy_json : PayloadJson := {|
  json_payload p := Some [];
  parse_payload b := None;
  json_payloads l := Some [];
|}.

Definition sample_snapshot (epoch revision : Z) : ResolvedCandidateSnapshot :=
  mkSnap (mkEpoch epoch 0) revision [sample_payload "a" [Quic; Tcp]] None.

Definition sample_cache : ResolvedCandidateCache :=
  match from_snapshot (sample_snapshot 1 1) 0 with
  | Ok c => c
  | Err _ => mkCache (mkEpoch 0 0) 0 [] [] 0 0 ∅ None
  end.

(** Witness for C35. *)
Lemma stage_a_candidates_fresh_witness :
  let '(accepted, c) := cache_run 0 [CApply (sample_snapshot 2 1) 5] sample_cache in
  stage_a_candidates_at 9 c = Some [sample_payload "a" [Quic; Tcp]] /\
  exists s t s' fp, (s, t) ∈ (sample_snapshot 1 1, 0) :: accepted /\ prepare s = Ok (s', fp) /\
     [sample_payload "a" [Quic; Tcp]] = sn_candidates s' /\ cc_epoch c = sn_epoch s /\
     cc_revision c = sn_revision s /\ 9 - t <= snapshot_ttl s.
Proof.
  pose proof (stage_a_candidates_fresh 0 (sample_snapshot 1 1) 0 sample_cache
    [CApply (sample_snapshot 2 1) 5] 9 [sample_payload "a" [Quic; Tcp]]
    ltac:(discriminate) eq_refl ltac:(repeat split; discriminate)) as H.
  destruct (cache_run 0 [CApply (sample_snapshot 2 1) 5] sample_cache) as [accepted c] eqn:E.
  assert (Hs : stage_a_candidates_at 9 c = Some [sample_payload "a" [Quic; Tcp]]).
  { replace c with (cache_run 0 [CApply (sample_snapshot 2 1) 5] sample_cache).2 by (rewrite E; reflexivity).
    vm_compute. reflexivity. }
  split; [exact Hs|]. exact (proj2 H Hs).
Defined.
