(* ===== verification/Connectivity.v ===== *)
(** * NAT traversal: candidate signals and connectivity attempts

    Models [network-nat/src/exchange.rs] and [attempt.rs]: the bounded offer and
    answer signals, the receive state of one exchange, and the one-shot attempt
    that owns the remote candidates of a connection. The wall clock is an
    argument. *)
From S2P Require Import Prelude Ordering Candidates CandidateCache.

Definition CANDIDATE_SIGNAL_VERSION : Z := 1.
Definition MAX_CANDIDATES_PER_SIGNAL : Z := 32.
Definition MIN_CONNECT_WINDOW_MS : Z := 500.
Definition MAX_CONNECT_WINDOW_MS : Z := 8000.
Definition MAX_ATTEMPT_ID_BYTES : Z := 128.

Inductive CandidateSignalKind := SignalOffer | SignalAnswer.

#[export] Instance CandidateSignalKind_eq_dec : EqDecision CandidateSignalKind.
Proof. solve_decision. Defined.

Record CandidateSignal := mkSignal {
  cs_version : Z;
  cs_kind : CandidateSignalKind;
  cs_generation : Z;
  cs_attempt_id : string;
  cs_connect_window_ms : Z;
  cs_candidates : list CandidateAdvertisement;
  cs_epoch : option RuntimeEpoch;
  cs_revision : option Z;
}.

Definition signal_offer (generation : Z) (attempt_id : string) (connect_window_ms : Z)
    (candidates : list CandidateAdvertisement) : CandidateSignal :=
  mkSignal CANDIDATE_SIGNAL_VERSION SignalOffer generation attempt_id connect_window_ms candidates None None.

Definition signal_answer (generation : Z) (attempt_id : string) (connect_window_ms : Z)
    (candidates : list CandidateAdvertisement) : CandidateSignal :=
  mkSignal CANDIDATE_SIGNAL_VERSION SignalAnswer generation attempt_id connect_window_ms candidates None None.

Definition with_epoch_revision (epoch : RuntimeEpoch) (revision : Z) (s : CandidateSignal) : CandidateSignal :=
  mkSignal (cs_version s) (cs_kind s) (cs_generation s) (cs_attempt_id s) (cs_connect_window_ms s)
    (cs_candidates s) (Some epoch) (Some revision).

(** The loop over the candidates of a signal. *)
Fixpoint check_candidates (generation : Z) (ids : gset string) (l : list CandidateAdvertisement) :
    result unit string :=
  match l with
  | [] => Ok tt
  | a :: l =>
    if negb (ad_generation a =? generation) || bool_decide (ad_id a ∈ ids)
    then Err "candidate signal contains duplicate or stale candidates"%string
    else
      let? _ := from_advertisement a in
      check_candidates generation ({[ad_id a]} ∪ ids) l
  end.

Definition signal_validate (s : CandidateSignal) : result unit string :=
  if negb (cs_version s =? CANDIDATE_SIGNAL_VERSION)
  then Err "unsupported candidate signal version"%string
  else if (cs_generation s =? 0) || str_is_empty (cs_attempt_id s)
     || (MAX_ATTEMPT_ID_BYTES <? slen (cs_attempt_id s))
     || negb (forallb is_ascii_graphic (str_bytes (cs_attempt_id s)))
     || negb ((MIN_CONNECT_WINDOW_MS <=? cs_connect_window_ms s)
              && (cs_connect_window_ms s <=? MAX_CONNECT_WINDOW_MS))
     || (MAX_CANDIDATES_PER_SIGNAL <? len (cs_candidates s))
  then Err "candidate signal generation or size is invalid"%string
  else check_candidates (cs_generation s) ∅ (cs_candidates s).

(** ** The exchange state *)

Record CandidateExchangeState := mkExchange {
  ex_generation : Z;
  ex_attempt_id : option string;
  ex_connect_window_ms : Z;
  ex_candidates : gmap string Candidate;
}.

Definition exchange_default : CandidateExchangeState := mkExchange 0 None 0 ∅.

(** Inserting the candidates of a validated signal; each conversion may fail,
    with the ones before it inserted. *)
Fixpoint insert_candidates (l : list CandidateAdvertisement) (m : gmap string Candidate) :
    result unit string * gmap string Candidate :=
  match l with
  | [] => (Ok tt, m)
  | a :: l =>
    match from_advertisement a with
    | Err e => (Err e, m)
    | Ok c => insert_candidates l (<[ad_id a := c]> m)
    end
  end.

Definition exchange_apply (s : CandidateSignal) (x : CandidateExchangeState) :
    result bool string * CandidateExchangeState :=
  match signal_validate s with
  | Err e => (Err e, x)
  | Ok _ =>
    if cs_generation s <? ex_generation x then (Ok false, x)
    else
      let is_new_attempt :=
        match ex_attempt_id x with
        | Some attempt_id => negb (bool_decide (attempt_id = cs_attempt_id s))
        | None => false
        end in
      let next :=
        if (ex_generation x <? cs_generation s)
           || (is_new_attempt && bool_decide (cs_kind s = SignalOffer))
        then Some (mkExchange (cs_generation s) (Some (cs_attempt_id s)) (cs_connect_window_ms s) ∅)
        else if is_new_attempt then None
        else Some (mkExchange (ex_generation x) (ex_attempt_id x) (ex_connect_window_ms x)
               (filter (fun kv : string * Candidate => kv.1 ∈ ad_id <$> cs_candidates s) (ex_candidates x))) in
      match next with
      | None => (Ok false, x)
      | Some x =>
        match insert_candidates (cs_candidates s) (ex_candidates x) with
        | (Err e, m) => (Err e, mkExchange (ex_generation x) (ex_attempt_id x) (ex_connect_window_ms x) m)
        | (Ok _, m) =>
          (Ok true, mkExchange (ex_generation x)
             (match ex_attempt_id x with None => Some (cs_attempt_id s) | id => id end)
             (cs_connect_window_ms s) m)
        end
      end
  end.

(** ** Attempts *)

Inductive ConnectivityAttemptState :=
| AttemptCreated | AttemptResolved | AttemptCoordinating | AttemptConnecting
| AttemptSucceeded | AttemptFailed | AttemptExpired.

Inductive CandidateUpdateDisposition :=
| DispositionApplied | DispositionCacheOnly | DispositionIgnoredStale | DispositionTerminal.

Definition attempt_state_terminal (s : ConnectivityAttemptState) : bool :=
  match s with AttemptSucceeded | AttemptFailed | AttemptExpired => true | _ => false end.

Record ConnectivityAttempt := mkAttempt {
  at_attempt_id : string;
  at_peer_id : string;
  at_local_epoch : RuntimeEpoch;
  at_remote_epoch : option RuntimeEpoch;
  at_remote_revision : option Z;
  at_local_candidates : list Candidate;
  at_remote_candidates : list Candidate;
  at_started_at : Z;
  at_deadline : option Z;
  at_state : ConnectivityAttemptState;
}.

Definition attempt_new (attempt_id peer_id : string) (local_epoch : RuntimeEpoch) (started_at : Z)
    (deadline : option Z) : ConnectivityAttempt :=
  mkAttempt attempt_id peer_id local_epoch None None [] [] started_at deadline AttemptCreated.

(** [SystemTime::checked_add] fails beyond the last representable time. *)
Definition with_connect_window (time_max : Z) (attempt_id peer_id : string) (local_epoch : RuntimeEpoch)
    (started_at connect_window : Z) : ConnectivityAttempt :=
  attempt_new attempt_id peer_id local_epoch started_at
    (if started_at + connect_window <=? time_max then Some (started_at + connect_window) else None).

Definition with_local_candidates (candidates : list Candidate) (a : ConnectivityAttempt) : ConnectivityAttempt :=
  mkAttempt (at_attempt_id a) (at_peer_id a) (at_local_epoch a) (at_remote_epoch a) (at_remote_revision a)
    candidates (at_remote_candidates a) (at_started_at a) (at_deadline a) (at_state a).

Definition with_attempt_state (state : ConnectivityAttemptState) (a : ConnectivityAttempt) : ConnectivityAttempt :=
  mkAttempt (at_attempt_id a) (at_peer_id a) (at_local_epoch a) (at_remote_epoch a) (at_remote_revision a)
    (at_local_candidates a) (at_remote_candidates a) (at_started_at a) (at_deadline a) state.

Definition with_remote (epoch : option RuntimeEpoch) (revision : option Z) (candidates : list Candidate)
    (a : ConnectivityAttempt) : ConnectivityAttempt :=
  mkAttempt (at_attempt_id a) (at_peer_id a) (at_local_epoch a) epoch revision
    (at_local_candidates a) candidates (at_started_at a) (at_deadline a) (at_state a).

Definition attempt_set_state (state : ConnectivityAttemptState) (a : ConnectivityAttempt) :
    bool * ConnectivityAttempt :=
  if attempt_state_terminal (at_state a) then (false, a) else (true, with_attempt_state state a).

Definition direct_deadline_elapsed (now : Z) (a : ConnectivityAttempt) : bool :=
  match at_deadline a with Some deadline => deadline <=? now | None => false end.

Definition all_candidates (a : ConnectivityAttempt) : list Candidate :=
  at_local_candidates a ++ at_remote_candidates a.

(** The new candidate, with the quality measured so far when there is one. *)
Definition keep_quality (existing candidate : Candidate) : Candidate :=
  if 0 <? cd_sample_count existing
  then mkCandidate (cd_id candidate) (cd_endpoint candidate) (cd_interface candidate) (cd_kind candidate)
         (cd_priority candidate) (cd_generation candidate) (cd_rtt_ms existing) (cd_jitter_ms existing)
         (cd_loss_rate existing) (cd_last_success existing) (cd_sample_count existing)
  else candidate.

(** Replacing the first candidate with the same identifier, or appending. *)
Fixpoint merge_candidate (candidate : Candidate) (l : list Candidate) : list Candidate :=
  match l with
  | [] => [candidate]
  | existing :: l =>
    if bool_decide (cd_id existing = cd_id candidate)
    then keep_quality existing candidate :: l
    else existing :: merge_candidate candidate l
  end.

Definition merge_candidates (incoming current : list Candidate) : list Candidate :=
  foldl (fun l c => merge_candidate c l)
    (List.filter (fun c => bool_decide (cd_id c ∈ cd_id <$> incoming)) current) incoming.

(** What a snapshot does to the epoch, the revision and the present candidates;
    [None] for a stale one. *)
Definition same_epoch_position (revision : Z) (a : ConnectivityAttempt) :
    option (option RuntimeEpoch * option Z * list Candidate) :=
  match at_remote_revision a with
  | Some current =>
    if revision <? current then None
    else if current <? revision then Some (at_remote_epoch a, Some revision, at_remote_candidates a)
    else Some (at_remote_epoch a, Some current, at_remote_candidates a)
  | None => Some (at_remote_epoch a, Some revision, at_remote_candidates a)
  end.

Definition remote_position (epoch : option RuntimeEpoch) (revision : Z) (a : ConnectivityAttempt) :
    option (option RuntimeEpoch * option Z * list Candidate) :=
  match epoch with
  | Some signal_epoch =>
    match at_remote_epoch a with
    | Some current =>
      if negb (bool_decide (signal_epoch = current)) then Some (Some signal_epoch, Some revision, [])
      else same_epoch_position revision a
    | None => Some (Some signal_epoch, Some revision, [])
    end
  | None => same_epoch_position revision a
  end.

Definition apply_remote_candidates_unchecked (epoch : option RuntimeEpoch) (revision : Z)
    (candidates : list Candidate) (a : ConnectivityAttempt) : result bool string * ConnectivityAttempt :=
  if MAX_CANDIDATES_PER_SIGNAL <? len candidates
  then (Err "remote candidate set exceeds the attempt limit"%string, a)
  else if negb (bool_decide (NoDup (cd_id <$> candidates)))
  then (Err "remote candidate set contains duplicate ids"%string, a)
  else
    match remote_position epoch revision a with
    | None => (Ok false, a)
    | Some (epoch, revision, current) =>
      (Ok true, with_remote epoch revision (merge_candidates candidates current) a)
    end.

Definition apply_remote_candidates (now : Z) (epoch : option RuntimeEpoch) (revision : Z)
    (candidates : list Candidate) (a : ConnectivityAttempt) : result bool string * ConnectivityAttempt :=
  if attempt_state_terminal (at_state a) then (Ok false, a)
  else if direct_deadline_elapsed now a then (Ok false, a)
  else apply_remote_candidates_unchecked epoch revision candidates a.

Fixpoint from_advertisements (l : list CandidateAdvertisement) : result (list Candidate) string :=
  match l with
  | [] => Ok []
  | a :: l => let? c := from_advertisement a in let? l := from_advertisements l in Ok (c :: l)
  end.

Definition apply_signal_unchecked (s : CandidateSignal) (a : ConnectivityAttempt) :
    result bool string * ConnectivityAttempt :=
  match signal_validate s with
  | Err e => (Err e, a)
  | Ok _ =>
    if negb (bool_decide (cs_attempt_id s = at_attempt_id a)) then (Ok false, a)
    else
      match from_advertisements (cs_candidates s) with
      | Err e => (Err e, a)
      | Ok candidates =>
        apply_remote_candidates_unchecked (cs_epoch s)
          (match cs_revision s with Some revision => revision | None => cs_generation s end) candidates a
      end
  end.

Definition apply_signal (now : Z) (s : CandidateSignal) (a : ConnectivityAttempt) :
    result bool string * ConnectivityAttempt :=
  if direct_deadline_elapsed now a then (Ok false, a) else apply_signal_unchecked s a.

Definition apply_signal_with_deadline (now : Z) (s : CandidateSignal) (a : ConnectivityAttempt) :
    result CandidateUpdateDisposition string * ConnectivityAttempt :=
  if attempt_state_terminal (at_state a) then (Ok DispositionTerminal, a)
  else if negb (bool_decide (cs_attempt_id s = at_attempt_id a)) then (Ok DispositionIgnoredStale, a)
  else if direct_deadline_elapsed now a then (Ok DispositionCacheOnly, a)
  else
    match apply_signal_unchecked s a with
    | (Err e, a) => (Err e, a)
    | (Ok true, a) => (Ok DispositionApplied, a)
    | (Ok false, a) => (Ok DispositionIgnoredStale, a)
    end.
