(* ===== verification/ConnectivityProofs.v ===== *)
(** * NAT traversal: what an exchange and an attempt hold

    The exchange state refines "the last signal that was not stale", and an
    attempt holds exactly the candidates of the last snapshot it took, with the
    quality measured for those that stayed. *)
From S2P Require Import Prelude Ordering Candidates CandidateCache Connectivity.

(** ** Specifications *)

(** The reference of the exchange state: the last accepted signal. *)
Definition supersedes (s t : CandidateSignal) : bool :=
  (cs_generation t <? cs_generation s)
  || (cs_generation t =? cs_generation s)
     && (bool_decide (cs_attempt_id t = cs_attempt_id s) || bool_decide (cs_kind s = SignalOffer)).

Definition latest_signal (last : option CandidateSignal) (s : CandidateSignal) : option CandidateSignal :=
  match signal_validate s with
  | Err _ => last
  | Ok _ => match last with
            | None => Some s
            | Some t => if supersedes s t then Some s else last
            end
  end.

Definition advertised (a : CandidateAdvertisement) : Candidate :=
  mkCandidate (ad_id a) (ad_endpoint a) (ad_interface a) (ad_kind a) (ad_priority a) (ad_generation a) 0 0 0 0 0.

Definition exchange_view (last : option CandidateSignal) : CandidateExchangeState :=
  match last with
  | None => exchange_default
  | Some s =>
    mkExchange (cs_generation s) (Some (cs_attempt_id s)) (cs_connect_window_ms s)
      (list_to_map ((fun a => (ad_id a, advertised a)) <$> cs_candidates s))
  end.

Definition exchange_run (l : list CandidateSignal) (x : CandidateExchangeState) : CandidateExchangeState :=
  foldl (fun x s => (exchange_apply s x).2) x l.

(** The operations on an attempt. *)
Inductive AttemptOp :=
| OpCandidates (now : Z) (epoch : option RuntimeEpoch) (revision : Z) (candidates : list Candidate)
| OpSignal (now : Z) (s : CandidateSignal)
| OpAnswer (now : Z) (s : CandidateSignal)
| OpState (state : ConnectivityAttemptState).

Definition attempt_step (op : AttemptOp) (a : ConnectivityAttempt) : ConnectivityAttempt :=
  match op with
  | OpCandidates now epoch revision candidates => (apply_remote_candidates now epoch revision candidates a).2
  | OpSignal now s => (apply_signal now s a).2
  | OpAnswer now s => (apply_signal_with_deadline now s a).2
  | OpState state => (attempt_set_state state a).2
  end.

Definition attempt_run (ops : list AttemptOp) (a : ConnectivityAttempt) : ConnectivityAttempt :=
  foldl (fun a op => attempt_step op a) a ops.

(** A candidate with the quality known of its identifier. *)
Definition refresh (known : list Candidate) (c : Candidate) : Candidate :=
  match List.find (fun e => bool_decide (cd_id e = cd_id c)) known with
  | Some existing => keep_quality existing c
  | None => c
  end.

Definition fixed_of (a : ConnectivityAttempt) :=
  (at_attempt_id a, at_peer_id a, at_local_epoch a, at_local_candidates a, at_started_at a, at_deadline a).

(** The snapshot is of another run of the peer than the one held. *)
Definition other_epoch (epoch : option RuntimeEpoch) (a : ConnectivityAttempt) : Prop :=
  is_Some epoch /\ epoch <> at_remote_epoch a.

Record attempt_inv (a : ConnectivityAttempt) : Prop := {
  inv_distinct : NoDup (cd_id <$> at_remote_candidates a);
  inv_bounded : len (at_remote_candidates a) <= MAX_CANDIDATES_PER_SIGNAL;
  inv_epoch : is_Some (at_remote_epoch a) -> is_Some (at_remote_revision a);
  inv_unset : at_remote_revision a = None -> at_remote_candidates a = [];
}.

(** ** Signals *)

Lemma from_advertisement_ok a c : from_advertisement a = Ok c -> c = advertised a.
Proof. unfold from_advertisement. destruct_match_goal; [done|]; by intros [= <-]. Qed.

Lemma check_candidates_ok g l : forall ids,
  check_candidates g ids l = Ok tt ->
  NoDup (ad_id <$> l) /\ (forall a, a ∈ l -> (ad_id a ∉ ids) /\ from_advertisement a = Ok (advertised a)).
Proof.
  induction l as [|a l IH]; intros ids H; cbn in *.
  { split; [constructor|]. intros a Ha. by apply elem_of_nil in Ha. }
  destruct (negb _ || _) eqn:Hg; [done|]. apply orb_false_iff in Hg as [_ Hid].
  apply bool_decide_eq_false in Hid.
  destruct (from_advertisement a) as [c|] eqn:Ha; [|done]. cbn in H.
  destruct (IH _ H) as [Hnd Hall]. split.
  - constructor; [|done]. intros Hin'. apply list_elem_of_fmap in Hin' as (b & Hb & Hin).
    destruct (Hall b Hin) as [Hni _]. set_solver.
  - intros b [->|Hb]%elem_of_cons.
    + split; [done|]. by rewrite Ha, (from_advertisement_ok _ _ Ha).
    + destruct (Hall b Hb) as [Hni ?]. split; [set_solver|done].
Qed.

Lemma signal_validate_ok s :
  signal_validate s = Ok tt ->
  cs_generation s <> 0 /\ len (cs_candidates s) <= MAX_CANDIDATES_PER_SIGNAL /\
  NoDup (ad_id <$> cs_candidates s) /\
  (forall a, a ∈ cs_candidates s -> from_advertisement a = Ok (advertised a)).
Proof.
  unfold signal_validate. destruct (negb _); [done|].
  destruct ((cs_generation s =? 0) || _ || _ || _ || _ || _) eqn:Hg; [done|]. intros H.
  destruct (check_candidates_ok _ _ _ H) as [? Hall].
  bool_facts. split_and!; [done..|]. intros a Ha. by apply Hall.
Qed.

Lemma from_advertisements_ok l :
  (forall a, a ∈ l -> from_advertisement a = Ok (advertised a)) ->
  from_advertisements l = Ok (advertised <$> l).
Proof.
  induction l as [|a l IH]; intros H; [done|]. cbn.
  rewrite (H a) by left. cbn. rewrite IH; [done|]. intros b Hb. apply H. by right.
Qed.

Lemma signal_snapshot s a :
  signal_validate s = Ok tt -> cs_attempt_id s = at_attempt_id a ->
  apply_signal_unchecked s a =
  apply_remote_candidates_unchecked (cs_epoch s) (default (cs_generation s) (cs_revision s))
    (advertised <$> cs_candidates s) a.
Proof.
  intros Hv Hid. unfold apply_signal_unchecked. rewrite Hv, bool_decide_true by done. cbn.
  destruct (signal_validate_ok _ Hv) as (_ & _ & _ & Hall).
  rewrite (from_advertisements_ok _ Hall). by destruct (cs_revision s).
Qed.

(** ** The exchange state *)

Lemma insert_candidates_ok l : forall m,
  (forall a, a ∈ l -> from_advertisement a = Ok (advertised a)) ->
  NoDup (ad_id <$> l) ->
  insert_candidates l m = (Ok tt, list_to_map ((fun a => (ad_id a, advertised a)) <$> l) ∪ m).
Proof.
  induction l as [|a l IH]; intros m Hall Hnd; cbn; [by rewrite (left_id_L ∅ (∪))|].
  inversion Hnd as [|? ? Hni Hnd']; subst.
  rewrite (Hall a) by left. rewrite IH; [|intros b Hb; apply Hall; by right|done].
  f_equal. rewrite <- insert_union_l, insert_union_r; [done|].
  apply not_elem_of_list_to_map_1. by rewrite <- list_fmap_compose.
Qed.

Lemma union_filter_covered {V} (m x : gmap string V) (l : list string) :
  (forall k, k ∈ l -> is_Some (m !! k)) ->
  m ∪ filter (fun kv : string * V => kv.1 ∈ l) x = m.
Proof.
  intros H. apply map_eq; intros k. rewrite lookup_union.
  destruct (m !! k) eqn:Hk; [by rewrite union_Some_l|]. rewrite (left_id_L None (∪)).
  apply map_lookup_filter_None. right. intros v _ Hin. cbn in Hin.
  destruct (H k Hin) as [w Hw]. congruence.
Qed.

Lemma advertised_covered (l : list CandidateAdvertisement) k :
  k ∈ ad_id <$> l ->
  is_Some ((list_to_map ((fun a => (ad_id a, advertised a)) <$> l) : gmap string Candidate) !! k).
Proof.
  intros Hk. apply not_eq_None_Some. intros Hn. apply not_elem_of_list_to_map_2 in Hn.
  apply Hn. by rewrite <- list_fmap_compose.
Qed.

Lemma exchange_apply_latest s last :
  0 <= cs_generation s ->
  (exchange_apply s (exchange_view last)).2 = exchange_view (latest_signal last s).
Proof.
  intros Hpos. unfold exchange_apply, latest_signal.
  destruct (signal_validate s) as [[]|] eqn:Hv; [|done].
  destruct (signal_validate_ok _ Hv) as (Hne & _ & Hnd & Hall).
  destruct last as [t|]; cbn [exchange_view exchange_default ex_generation ex_attempt_id].
  - unfold supersedes.
    destruct (Z.lt_trichotomy (cs_generation s) (cs_generation t)) as [Hlt | [Heq | Hgt]].
    + rewrite (proj2 (Z.ltb_lt _ _) Hlt), (proj2 (Z.ltb_ge (cs_generation t) _)),
        (proj2 (Z.eqb_neq (cs_generation t) _)) by lia. done.
    + rewrite Heq, Z.ltb_irrefl, Z.eqb_refl. cbn.
      destruct (decide (cs_attempt_id t = cs_attempt_id s)) as [Hid | Hid].
      * rewrite bool_decide_true by done. cbn. rewrite insert_candidates_ok by done. cbn.
        rewrite union_filter_covered by apply advertised_covered. by rewrite Heq, Hid.
      * rewrite (bool_decide_false (_ = _)) by done. cbn.
        destruct (bool_decide (cs_kind s = SignalOffer)); cbn; [|done].
        rewrite insert_candidates_ok by done. cbn. by rewrite (right_id_L ∅ (∪)), Heq.
    + rewrite (proj2 (Z.ltb_ge (cs_generation s) _)), (proj2 (Z.ltb_lt (cs_generation t) _)) by lia. cbn.
      rewrite insert_candidates_ok by done. cbn. by rewrite (right_id_L ∅ (∪)).
  - rewrite (proj2 (Z.ltb_ge _ _)), (proj2 (Z.ltb_lt 0 _)) by lia. cbn.
    rewrite insert_candidates_ok by done. cbn. by rewrite (right_id_L ∅ (∪)).
Qed.

(** The exchange state refines "the last signal that was not stale". After
    any sequence of signals it is determined by one of them: it has that signal's
    generation, attempt, window and exactly its candidates, each with no quality
    measured. A malformed signal, an older generation, or an answer to another
    attempt of the same generation changes nothing; a newer generation, or an
    offer or a repetition within the generation, replaces everything. *)
Lemma exchange_holds_last_signal (l : list CandidateSignal) :
  Forall (fun s => 0 <= cs_generation s) l ->
  exchange_run l exchange_default = exchange_view (foldl latest_signal None l).
Proof.
  unfold exchange_run. change exchange_default with (exchange_view None). generalize (@None CandidateSignal).
  induction l as [|s l IH]; intros last Hl; [done|]. inversion Hl; subst. cbn.
  rewrite exchange_apply_latest by done. by apply IH.
Qed.

Definition sample_advert (id : string) (generation : Z) : CandidateAdvertisement :=
  mkAdvertisement id (SockV4 3221225985 40000) KindLan 10 "wlan0" generation.

(** ** Merging candidates *)

Lemma keep_quality_id e c : cd_id (keep_quality e c) = cd_id c.
Proof. unfold keep_quality. by destruct_match_goal. Qed.

Lemma refresh_id known c : cd_id (refresh known c) = cd_id c.
Proof. unfold refresh. destruct_match_goal; [apply keep_quality_id|done]. Qed.

Lemma list_filter_all {A} (f : A -> bool) l : (forall x, x ∈ l -> f x = true) -> List.filter f l = l.
Proof.
  induction l as [|x l IH]; intros H; [done|]. cbn. rewrite (H x) by left.
  f_equal. apply IH. intros y Hy. apply H. by right.
Qed.

Lemma list_filter_perm {A} (f : A -> bool) l k : l ≡ₚ k -> List.filter f l ≡ₚ List.filter f k.
Proof.
  induction 1 as [|x l k H IH|x y l|]; cbn; [done| | |by etransitivity].
  - destruct (f x); [by constructor|done].
  - destruct (f x), (f y); done || constructor.
Qed.

Lemma list_filter_filter {A} (f g : A -> bool) l :
  List.filter f (List.filter g l) = List.filter (fun x => g x && f x) l.
Proof. induction l as [|x l IH]; [done|]. cbn. destruct (g x); cbn; [destruct (f x)|]; by rewrite IH. Qed.

Lemma list_filter_ext {A} (f g : A -> bool) l : (forall x, f x = g x) -> List.filter f l = List.filter g l.
Proof. intros H. induction l as [|x l IH]; [done|]. cbn. by rewrite H, IH. Qed.

Definition not_id (i : string) (e : Candidate) : bool := negb (bool_decide (cd_id e = i)).

Lemma merge_candidate_perm c l :
  NoDup (cd_id <$> l) -> merge_candidate c l ≡ₚ refresh l c :: List.filter (not_id (cd_id c)) l.
Proof.
  induction l as [|e l IH]; intros Hnd; [done|]. inversion Hnd as [|? ? Hni Hnd']; subst.
  cbn. unfold refresh, not_id. cbn. destruct (bool_decide_reflect (cd_id e = cd_id c)) as [Heq | Hne]; cbn.
  - rewrite list_filter_all; [done|]. intros x Hx. apply negb_true_iff, bool_decide_eq_false.
    intros Hc. apply Hni. rewrite Heq, <- Hc. by apply list_elem_of_fmap_2.
  - rewrite (IH Hnd'). apply perm_swap.
Qed.

Lemma merge_candidate_find c d l :
  cd_id d <> cd_id c ->
  List.find (fun e => bool_decide (cd_id e = cd_id d)) (merge_candidate c l) =
  List.find (fun e => bool_decide (cd_id e = cd_id d)) l.
Proof.
  intros Hne. induction l as [|e l IH]; cbn; [by rewrite bool_decide_false|].
  destruct (bool_decide_reflect (cd_id e = cd_id c)) as [Heq|]; cbn.
  - by rewrite keep_quality_id, Heq, !bool_decide_false.
  - by rewrite IH.
Qed.

Lemma NoDup_fmap_filter {A B} (f : A -> B) (g : A -> bool) l : NoDup (f <$> l) -> NoDup (f <$> List.filter g l).
Proof.
  induction l as [|e l IH]; intros Hnd; [constructor|]. inversion Hnd as [|? ? Hni Hnd']; subst.
  cbn. destruct (g e); [|by apply IH]. constructor; [|by apply IH].
  intros Hin. apply Hni. apply list_elem_of_fmap in Hin as (x & -> & Hin).
  apply list_elem_of_fmap_2, list_elem_of_In. apply list_elem_of_In, filter_In in Hin. tauto.
Qed.

Lemma merge_candidate_distinct c l : NoDup (cd_id <$> l) -> NoDup (cd_id <$> merge_candidate c l).
Proof.
  intros Hnd. rewrite (merge_candidate_perm c l Hnd). cbn. rewrite refresh_id. constructor.
  - intros Hin. apply list_elem_of_fmap in Hin as (e & He & Hin).
    apply list_elem_of_In, filter_In in Hin as [_ Hin]. unfold not_id in Hin.
    apply negb_true_iff, bool_decide_eq_false in Hin. congruence.
  - by apply NoDup_fmap_filter.
Qed.

Lemma merge_all_perm incoming : forall l,
  NoDup (cd_id <$> incoming) -> NoDup (cd_id <$> l) ->
  foldl (fun l c => merge_candidate c l) l incoming ≡ₚ
  List.filter (fun e => negb (bool_decide (cd_id e ∈ cd_id <$> incoming))) l ++ (refresh l <$> incoming).
Proof.
  induction incoming as [|c inc IH]; intros l Hi Hl; cbn.
  { rewrite app_nil_r, list_filter_all; [done|]. intros x _. by rewrite bool_decide_false by apply not_elem_of_nil. }
  inversion Hi as [|? ? Hni Hi']; subst.
  rewrite IH by (done || by apply merge_candidate_distinct).
  rewrite (list_filter_perm _ _ _ (merge_candidate_perm c l Hl)). cbn.
  rewrite refresh_id, (bool_decide_false (cd_id c ∈ _)) by done. cbn.
  rewrite list_filter_filter, <- Permutation_middle. constructor. apply Permutation_app.
  - erewrite list_filter_ext; [done|]. intros x. cbn. unfold not_id.
    rewrite <- negb_orb. f_equal. rewrite <- bool_decide_or. apply bool_decide_ext. by rewrite elem_of_cons.
  - erewrite list_fmap_ext; [done|]. intros i d Hd. cbn. unfold refresh.
    rewrite merge_candidate_find; [done|]. intros Heq. apply Hni. rewrite <- Heq.
    by eapply list_elem_of_fmap_2, list_elem_of_lookup_2.
Qed.

Lemma find_filter_covered {A} (f g : A -> bool) l :
  (forall x, f x = true -> g x = true) -> List.find f (List.filter g l) = List.find f l.
Proof.
  intros H. induction l as [|x l IH]; [done|]. cbn. destruct (g x) eqn:Hg; cbn; rewrite IH; [done|].
  destruct (f x) eqn:Hf; [|done]. by rewrite (H x Hf) in Hg.
Qed.

Lemma merge_candidates_exact incoming current :
  NoDup (cd_id <$> incoming) -> NoDup (cd_id <$> current) ->
  merge_candidates incoming current ≡ₚ (refresh current <$> incoming).
Proof.
  intros Hi Hc. unfold merge_candidates. rewrite merge_all_perm by (done || by apply NoDup_fmap_filter).
  rewrite list_filter_filter.
  assert (Hnil : List.filter (fun e => bool_decide (cd_id e ∈ cd_id <$> incoming) &&
    negb (bool_decide (cd_id e ∈ cd_id <$> incoming))) current = []).
  { clear. induction current as [|x l IH]; [done|]. cbn. by rewrite andb_negb_r, IH. }
  rewrite Hnil. cbn. erewrite list_fmap_ext; [done|]. intros i d Hd. unfold refresh.
  rewrite find_filter_covered; [done|]. intros x Hx%bool_decide_eq_true. apply bool_decide_eq_true.
  rewrite Hx. by eapply list_elem_of_fmap_2, list_elem_of_lookup_2.
Qed.

(** ** Attempts *)

(** The snapshot is not older than what the attempt holds. *)
Definition fresh_for (epoch : option RuntimeEpoch) (revision : Z) (a : ConnectivityAttempt) : Prop :=
  other_epoch epoch a \/ forall current, at_remote_revision a = Some current -> current <= revision.

Definition position_spec (epoch : option RuntimeEpoch) (revision : Z) (a : ConnectivityAttempt)
    (r : option (option RuntimeEpoch * option Z * list Candidate)) : Prop :=
  match r with
  | None => ~ fresh_for epoch revision a
  | Some (epoch', revision', known) =>
    fresh_for epoch revision a /\
    epoch' = (match epoch with Some _ => epoch | None => at_remote_epoch a end) /\
    revision' = Some revision /\
    (other_epoch epoch a /\ known = [] \/ ~ other_epoch epoch a /\ known = at_remote_candidates a)
  end.

Lemma same_epoch_position_spec epoch revision a :
  ~ other_epoch epoch a ->
  at_remote_epoch a = (match epoch with Some _ => epoch | None => at_remote_epoch a end) ->
  position_spec epoch revision a (same_epoch_position revision a).
Proof.
  intros Hno He. unfold same_epoch_position, position_spec, fresh_for.
  destruct (at_remote_revision a) as [current|]; [|split_and!; auto; by right].
  destruct (Z.ltb_spec revision current).
  { intros [?|Hle]; [done|]. specialize (Hle current eq_refl). lia. }
  destruct (Z.ltb_spec current revision); split_and!; auto; try (f_equal; lia);
    right; intros ? [= <-]; lia.
Qed.

Lemma remote_position_spec epoch revision a :
  position_spec epoch revision a (remote_position epoch revision a).
Proof.
  unfold remote_position. destruct epoch as [e|].
  - destruct (at_remote_epoch a) as [cur|] eqn:Hcur.
    + destruct (bool_decide_reflect (e = cur)) as [->|Hne]; cbn [negb].
      * apply same_epoch_position_spec; [|done]. intros [_ Hn]. by rewrite Hcur in Hn.
      * assert (other_epoch (Some e) a) by (split; [done|rewrite Hcur; congruence]).
        split_and!; [by left|done..|by left].
    + assert (other_epoch (Some e) a) by (split; [done|by rewrite Hcur]).
      split_and!; [by left|done..|by left].
  - apply same_epoch_position_spec; [|done]. intros [[? ?] _]. done.
Qed.

(** What taking the snapshot [(epoch, revision, candidates)] makes of [a]: the
    candidates of another epoch bring nothing along from the old one. *)
Record took_snapshot (epoch : option RuntimeEpoch) (revision : Z) (candidates : list Candidate)
    (a b : ConnectivityAttempt) : Prop := {
  took_fixed : fixed_of b = fixed_of a;
  took_state : at_state b = at_state a;
  took_epoch : at_remote_epoch b = match epoch with Some _ => epoch | None => at_remote_epoch a end;
  took_revision : at_remote_revision b = Some revision;
  took_other : other_epoch epoch a -> at_remote_candidates b ≡ₚ candidates;
  took_same : ~ other_epoch epoch a ->
    at_remote_candidates b ≡ₚ (refresh (at_remote_candidates a) <$> candidates);
}.

Definition well_formed (candidates : list Candidate) : Prop :=
  len candidates <= MAX_CANDIDATES_PER_SIGNAL /\ NoDup (cd_id <$> candidates).

Lemma refresh_nothing (l : list Candidate) : refresh [] <$> l = l.
Proof. induction l as [|c l IH]; [done|]. cbn. by rewrite IH. Qed.

Lemma unchecked_taken epoch revision candidates a :
  attempt_inv a -> well_formed candidates -> fresh_for epoch revision a ->
  took_snapshot epoch revision candidates a (apply_remote_candidates_unchecked epoch revision candidates a).2 /\
  (apply_remote_candidates_unchecked epoch revision candidates a).1 = Ok true.
Proof.
  intros Hinv [Hlen Hnd] Hf. unfold apply_remote_candidates_unchecked.
  rewrite (proj2 (Z.ltb_ge _ _)), bool_decide_true by done. cbn.
  pose proof (remote_position_spec epoch revision a) as Hpos.
  destruct (remote_position epoch revision a) as [[[e r] known]|]; [|done].
  destruct Hpos as (_ & -> & -> & Hk). split; [|done].
  constructor; cbn; [done..| |]; intros Ho; destruct Hk as [[? ->] | [? ->]]; try done;
    (rewrite merge_candidates_exact; [|done|]);
    [by rewrite refresh_nothing|constructor|done|apply Hinv].
Qed.

Lemma unchecked_refused epoch revision candidates a :
  ~ (well_formed candidates /\ fresh_for epoch revision a) ->
  (apply_remote_candidates_unchecked epoch revision candidates a).2 = a.
Proof.
  intros Hno. unfold apply_remote_candidates_unchecked.
  destruct (Z.ltb_spec MAX_CANDIDATES_PER_SIGNAL (len candidates)); [done|].
  destruct (bool_decide_reflect (NoDup (cd_id <$> candidates))); cbn; [|done].
  pose proof (remote_position_spec epoch revision a) as Hpos.
  destruct (remote_position epoch revision a) as [[[e r] known]|]; [|done].
  destruct Hno. split; [by split|apply Hpos].
Qed.

Lemma signal_well_formed s :
  signal_validate s = Ok tt -> well_formed (advertised <$> cs_candidates s).
Proof.
  intros (_ & ? & ? & _)%signal_validate_ok. split.
  - unfold len in *. by rewrite length_fmap.
  - by rewrite <- list_fmap_compose.
Qed.

Lemma took_snapshot_inv epoch revision candidates a b :
  attempt_inv a -> well_formed candidates -> took_snapshot epoch revision candidates a b -> attempt_inv b.
Proof.
  intros Hinv [Hb Hd] [_ _ He Hr Ho Hs].
  assert (exists l, at_remote_candidates b ≡ₚ l /\ cd_id <$> l = cd_id <$> candidates) as (l & Hl & Hids).
  { destruct (decide (is_Some epoch /\ epoch <> at_remote_epoch a)) as [Hc | Hc]; [by eauto|].
    eexists. split; [by apply Hs|]. rewrite <- list_fmap_compose.
    apply list_fmap_ext. intros ? c _. apply refresh_id. }
  constructor.
  - by rewrite Hl, Hids.
  - unfold len in *. rewrite Hl. apply (f_equal length) in Hids. rewrite !length_fmap in Hids. by rewrite Hids.
  - by rewrite Hr.
  - by rewrite Hr.
Qed.

(** The snapshot an operation hands to the attempt: a well-formed discovery
    snapshot or a valid answer while the attempt is live, or a valid signal, each
    of this attempt and before the deadline. *)
Definition signal_handed (now : Z) (s : CandidateSignal) (a : ConnectivityAttempt) :
    option (option RuntimeEpoch * Z * list Candidate) :=
  if direct_deadline_elapsed now a || negb (is_ok (signal_validate s))
     || negb (bool_decide (cs_attempt_id s = at_attempt_id a))
  then None
  else Some (cs_epoch s, default (cs_generation s) (cs_revision s), advertised <$> cs_candidates s).

Definition op_handed (op : AttemptOp) (a : ConnectivityAttempt) :
    option (option RuntimeEpoch * Z * list Candidate) :=
  match op with
  | OpCandidates now epoch revision candidates =>
    if attempt_state_terminal (at_state a) || direct_deadline_elapsed now a
       || negb (bool_decide (len candidates <= MAX_CANDIDATES_PER_SIGNAL /\ NoDup (cd_id <$> candidates)))
    then None else Some (epoch, revision, candidates)
  | OpSignal now s => signal_handed now s a
  | OpAnswer now s => if attempt_state_terminal (at_state a) then None else signal_handed now s a
  | OpState _ => None
  end.

(** What one operation does to an attempt. *)
Definition attempt_step_post (op : AttemptOp) (a b : ConnectivityAttempt) : Prop :=
  match op with
  | OpState state => b = if attempt_state_terminal (at_state a) then a else with_attempt_state state a
  | _ =>
    match op_handed op a with
    | Some (epoch, revision, candidates) =>
      (fresh_for epoch revision a -> took_snapshot epoch revision candidates a b) /\
      (~ fresh_for epoch revision a -> b = a)
    | None => b = a
    end
  end.

Lemma signal_unchecked_refused s a :
  is_ok (signal_validate s) = false \/ cs_attempt_id s <> at_attempt_id a ->
  (apply_signal_unchecked s a).2 = a.
Proof.
  unfold apply_signal_unchecked. destruct (signal_validate s); [|done].
  intros [?|?]; [done|]. by rewrite bool_decide_false.
Qed.

Lemma answer_state now s a :
  (apply_signal_with_deadline now s a).2 =
  if attempt_state_terminal (at_state a) then a else (apply_signal now s a).2.
Proof.
  unfold apply_signal_with_deadline, apply_signal. destruct (attempt_state_terminal _); [done|].
  destruct (bool_decide_reflect (cs_attempt_id s = at_attempt_id a)); cbn.
  - destruct (direct_deadline_elapsed now a); [done|].
    by destruct (apply_signal_unchecked s a) as [[[]|] b].
  - destruct (direct_deadline_elapsed now a); [done|]. cbn. symmetry. apply signal_unchecked_refused. by right.
Qed.

Lemma unchecked_post epoch revision candidates a :
  attempt_inv a -> well_formed candidates ->
  (fresh_for epoch revision a -> took_snapshot epoch revision candidates a
     (apply_remote_candidates_unchecked epoch revision candidates a).2) /\
  (~ fresh_for epoch revision a -> (apply_remote_candidates_unchecked epoch revision candidates a).2 = a).
Proof.
  intros Hinv Hwf. split; intros Hf; [by apply unchecked_taken|].
  apply unchecked_refused. by intros [_ ?].
Qed.

Lemma signal_post now s a :
  attempt_inv a ->
  match signal_handed now s a with
  | Some (epoch, revision, candidates) =>
    well_formed candidates /\
    (fresh_for epoch revision a -> took_snapshot epoch revision candidates a (apply_signal now s a).2) /\
    (~ fresh_for epoch revision a -> (apply_signal now s a).2 = a)
  | None => (apply_signal now s a).2 = a
  end.
Proof.
  intros Hinv. unfold signal_handed, apply_signal. destruct (direct_deadline_elapsed now a); [done|]. cbn.
  destruct (signal_validate s) as [[]|] eqn:Hv; cbn; [|by apply signal_unchecked_refused; rewrite Hv; left].
  destruct (bool_decide_reflect (cs_attempt_id s = at_attempt_id a)) as [Hid | Hid]; cbn;
    [|by apply signal_unchecked_refused; right].
  rewrite (signal_snapshot _ _ Hv Hid). pose proof (signal_well_formed _ Hv) as Hwf.
  split; [done|]. by apply unchecked_post.
Qed.

Lemma attempt_step_ok op a :
  attempt_inv a -> attempt_inv (attempt_step op a) /\ attempt_step_post op a (attempt_step op a).
Proof.
  intros Hinv.
  assert (Hkeep : forall epoch revision candidates b, well_formed candidates ->
    (fresh_for epoch revision a -> took_snapshot epoch revision candidates a b) /\
    (~ fresh_for epoch revision a -> b = a) -> attempt_inv b).
  { intros e r c b Hwf [Ht Hn].
    destruct (remote_position e r a) as [[[e' r'] k]|] eqn:Hp;
      pose proof (remote_position_spec e r a) as Hs; rewrite Hp in Hs.
    - eapply took_snapshot_inv; [done..|]. apply Ht, Hs.
    - by rewrite (Hn Hs). }
  destruct op as [now e r c|now s|now s|state]; cbn [attempt_step attempt_step_post op_handed].
  - unfold apply_remote_candidates. destruct (attempt_state_terminal _); [done|].
    destruct (direct_deadline_elapsed now a); [done|]. cbn.
    destruct (bool_decide_reflect (len c <= MAX_CANDIDATES_PER_SIGNAL /\ NoDup (cd_id <$> c))) as [Hwf | Hwf]; cbn.
    + pose proof (unchecked_post e r c a Hinv Hwf). split; [by eapply Hkeep|done].
    + rewrite unchecked_refused by (by intros [? _]). done.
  - pose proof (signal_post now s a Hinv) as H.
    destruct (signal_handed now s a) as [[[e r] c]|]; [|by rewrite H].
    destruct H as [Hwf H]. split; [by eapply Hkeep|done].
  - rewrite answer_state. destruct (attempt_state_terminal _); [done|].
    pose proof (signal_post now s a Hinv) as H.
    destruct (signal_handed now s a) as [[[e r] c]|]; [|by rewrite H].
    destruct H as [Hwf H]. split; [by eapply Hkeep|done].
  - unfold attempt_set_state. destruct (attempt_state_terminal _); [done|]. split; [|done]. by destruct Hinv.
Qed.

Lemma attempt_run_inv ops : forall a, attempt_inv a -> attempt_inv (attempt_run ops a).
Proof.
  induction ops as [|op ops IH]; intros a Hinv; [done|]. by apply IH, attempt_step_ok.
Qed.

