(* ===== verification/Stun.v ===== *)
(** * NAT traversal: STUN binding responses

    Models [network-nat/src/stun.rs] without the socket: the request, the checks
    on a datagram that came in, and the parser of the mapped address. Indexing a
    slice out of range panics, so reading a byte gives [None] there and the
    parser returns an option of its result. *)
From S2P Require Import Prelude Ordering Candidates.

Definition STUN_MAGIC_COOKIE : Z := 0x2112A442.
Definition BINDING_REQUEST_TYPE : Z := 1.
Definition STUN_SRFLX_TRANSPORTS : list CandidateTransport := [Quic; UdpDatagram].

Definition stun_request (transaction_id : bytes) : bytes :=
  be_bytes 2 BINDING_REQUEST_TYPE ++ be_bytes 2 0 ++ be_bytes 4 STUN_MAGIC_COOKIE ++ transaction_id.

(** [u16::from_be_bytes] and [u32::from_be_bytes] of bytes read one by one. *)
Fixpoint read_bytes (packet : bytes) (pos : Z) (n : nat) : option bytes :=
  match n with
  | O => Some []
  | S n =>
    match packet !! Z.to_nat pos, read_bytes packet (pos + 1) n with
    | Some b, Some l => Some (b :: l)
    | _, _ => None
    end
  end.

Definition read_be (packet : bytes) (pos : Z) (n : nat) : option Z := of_be <$> read_bytes packet pos n.

Definition xor_byte (a b : byte) : byte := byte_of_Z (Z.lxor (Z_of_byte a) (Z_of_byte b)).

Definition xor_bytes (l k : bytes) : bytes := zip_with xor_byte l k.

(** The value of an attribute of type 0x0020; [None] to go on with the next. *)
Definition mapped_address (packet transaction_id : bytes) (value_start attr_len : Z) :
    option (option SocketAddr) :=
  family ← read_be packet (value_start + 1) 1;
  x_port ← read_be packet (value_start + 2) 2;
  let port := Z.lxor x_port (Z.shiftr STUN_MAGIC_COOKIE 16) in
  if (family =? 1) && (8 <=? attr_len) then
    x_ip ← read_be packet (value_start + 4) 4;
    Some (Some (SockV4 (Z.lxor x_ip STUN_MAGIC_COOKIE) port))
  else if (family =? 2) && (20 <=? attr_len) then
    address ← read_bytes packet (value_start + 4) 16;
    let xor_key := be_bytes 4 STUN_MAGIC_COOKIE ++ transaction_id in
    Some (Some (SockV6 (of_be (xor_bytes address xor_key)) port 0 0))
  else Some None.

(** The loop over the attributes; running out of fuel is not a result either. *)
Fixpoint parse_attributes (fuel : nat) (packet transaction_id : bytes) (pos : Z) : option (option SocketAddr) :=
  match fuel with
  | O => None
  | S fuel =>
    if negb (pos + 4 <=? len packet) then Some None
    else
      attr_type ← read_be packet pos 2;
      attr_len ← read_be packet (pos + 2) 2;
      let value_start := pos + 4 in
      match checked_add u64_max value_start attr_len with
      | None => Some None
      | Some value_end =>
        if len packet <? value_end then Some None
        else
          found ← (if (attr_type =? 0x0020) && (8 <=? attr_len)
                   then mapped_address packet transaction_id value_start attr_len else Some None);
          match found with
          | Some endpoint => Some (Some endpoint)
          | None =>
            match checked_add u64_max value_end ((4 - attr_len mod 4) mod 4) with
            | None => Some None
            | Some pos => parse_attributes fuel packet transaction_id pos
            end
          end
      end
  end.

(** An attribute takes at least four bytes, so the length of the packet is
    enough turns. *)
Definition parse_xor_mapped_address (packet transaction_id : bytes) : option (option SocketAddr) :=
  if len packet <? 20 then Some None
  else
    cookie ← read_be packet 4 4;
    if negb (cookie =? STUN_MAGIC_COOKIE) || negb (bool_decide (slice 8 20 packet = transaction_id)) then Some None
    else parse_attributes (length packet) packet transaction_id 20.

(** What [query_stun] makes of the datagram it received from [source]. *)
Definition stun_response (source stun_server : SocketAddr) (packet transaction_id : bytes) :
    option (option SocketAddr) :=
  if negb (bool_decide (source = stun_server)) || (len packet <? 20) then Some None
  else
    kind ← read_be packet 0 2;
    cookie ← read_be packet 4 4;
    if negb (kind =? 0x0101) || negb (cookie =? STUN_MAGIC_COOKIE)
       || negb (bool_decide (slice 8 20 packet = transaction_id)) then Some None
    else parse_xor_mapped_address packet transaction_id.

(** ** Encoding, as the protocol defines it *)

(** An attribute, padded to a multiple of four bytes. *)
Definition stun_attribute (kind : Z) (value : bytes) : bytes :=
  be_bytes 2 kind ++ be_bytes 2 (len value) ++ value ++
  replicate (Z.to_nat ((4 - len value mod 4) mod 4)) (byte_of_Z 0).

Definition xor_mapped_value (transaction_id : bytes) (a : SocketAddr) : bytes :=
  match a with
  | SockV4 ip port =>
    [byte_of_Z 0; byte_of_Z 1] ++ be_bytes 2 (Z.lxor port (Z.shiftr STUN_MAGIC_COOKIE 16)) ++
    be_bytes 4 (Z.lxor ip STUN_MAGIC_COOKIE)
  | SockV6 ip port _ _ =>
    [byte_of_Z 0; byte_of_Z 2] ++ be_bytes 2 (Z.lxor port (Z.shiftr STUN_MAGIC_COOKIE 16)) ++
    xor_bytes (be_bytes 16 ip) (be_bytes 4 STUN_MAGIC_COOKIE ++ transaction_id)
  end.

Definition stun_packet (length_field : Z) (transaction_id body : bytes) : bytes :=
  be_bytes 2 0x0101 ++ be_bytes 2 length_field ++ be_bytes 4 STUN_MAGIC_COOKIE ++ transaction_id ++ body.

Definition endpoint_ok (a : SocketAddr) : Prop :=
  match a with
  | SockV4 ip port => is_u32 ip /\ is_u16 port
  | SockV6 ip port flowinfo scope_id => 0 <= ip < 2 ^ 128 /\ is_u16 port /\ flowinfo = 0 /\ scope_id = 0
  end.

(** ** Reading *)

Lemma read_bytes_take packet n : forall pos,
  0 <= pos -> pos + Z.of_nat n <= len packet ->
  read_bytes packet pos n = Some (take n (drop (Z.to_nat pos) packet)).
Proof.
  unfold len. induction n as [|n IH]; intros pos Hpos Hle; [by rewrite take_0|]. cbn [read_bytes].
  destruct (packet !! Z.to_nat pos) as [b|] eqn:Hb; [|apply lookup_ge_None in Hb; lia].
  rewrite IH by lia. rewrite (drop_S _ _ _ Hb). cbn. by replace (Z.to_nat (pos + 1)) with (S (Z.to_nat pos)) by lia.
Qed.

Lemma read_bytes_mid pre l post pos n :
  pos = len pre -> n = length l -> read_bytes (pre ++ l ++ post) pos n = Some l.
Proof.
  intros -> ->. rewrite read_bytes_take; [|unfold len; lia|unfold len; rewrite !length_app; lia].
  unfold len. by rewrite Nat2Z.id, drop_app_length, take_app_length.
Qed.

Lemma read_be_mid pre n z post pos :
  pos = len pre -> 0 <= z < 256 ^ Z.of_nat n -> read_be (pre ++ be_bytes n z ++ post) pos n = Some z.
Proof.
  intros Hpos Hz. unfold read_be. rewrite read_bytes_mid; [|done|by rewrite length_be_bytes].
  cbn. by rewrite of_be_be_bytes.
Qed.

Lemma read_be_some packet pos n :
  0 <= pos -> pos + Z.of_nat n <= len packet ->
  exists z, read_be packet pos n = Some z /\ 0 <= z < 256 ^ Z.of_nat n.
Proof.
  intros Hpos Hle. unfold read_be. rewrite read_bytes_take by done. eexists. split; [done|].
  pose proof (of_be_range (take n (drop (Z.to_nat pos) packet))) as H.
  assert (Hl : len (take n (drop (Z.to_nat pos) packet)) = Z.of_nat n); [|by rewrite Hl in H].
  unfold len in *. rewrite length_take, length_drop. lia.
Qed.

(** ** Exclusive or *)

Lemma lxor_range n x y : 0 <= n -> 0 <= x < 2 ^ n -> 0 <= y < 2 ^ n -> 0 <= Z.lxor x y < 2 ^ n.
Proof.
  intros Hn Hx Hy. assert (Hnn : 0 <= Z.lxor x y) by (apply Z.lxor_nonneg; lia). split; [done|].
  rewrite <- (Z.mod_small x (2 ^ n)), <- (Z.mod_small y (2 ^ n)) by done.
  rewrite <- !Z.land_ones by done.
  assert (Heq : Z.lxor (Z.land x (Z.ones n)) (Z.land y (Z.ones n)) = Z.land (Z.lxor x y) (Z.ones n)).
  { apply Z.bits_inj'. intros i Hi. rewrite Z.lxor_spec, !Z.land_spec, Z.lxor_spec.
    by destruct (Z.testbit x i), (Z.testbit y i), (Z.testbit (Z.ones n) i). }
  rewrite Heq, Z.land_ones by done. apply Z.mod_pos_bound. lia.
Qed.

Lemma lxor_twice x y : Z.lxor (Z.lxor x y) y = x.
Proof. by rewrite Z.lxor_assoc, Z.lxor_nilpotent, Z.lxor_0_r. Qed.

Lemma xor_byte_twice a b : xor_byte (xor_byte a b) b = a.
Proof.
  pose proof (Z_of_byte_range a). pose proof (Z_of_byte_range b).
  assert (0 <= Z.lxor (Z_of_byte a) (Z_of_byte b) < 256) by (by apply (lxor_range 8)).
  unfold xor_byte. apply Z_of_byte_inj. rewrite !Z_of_byte_of_Z,
    (Z.mod_small (Z.lxor (Z_of_byte a) (Z_of_byte b)) 256) by done.
  by rewrite lxor_twice, Z.mod_small.
Qed.

Lemma xor_bytes_twice l k : length l = length k -> xor_bytes (xor_bytes l k) k = l.
Proof.
  revert k. induction l as [|a l IH]; intros [|b k] H; try done. cbn. injection H as H.
  by rewrite xor_byte_twice, IH.
Qed.

(** ** The parser never panics *)

Lemma mapped_address_total packet tid start attr_len :
  0 <= start -> 8 <= attr_len -> start + attr_len <= len packet ->
  is_Some (mapped_address packet tid start attr_len).
Proof.
  intros Hs Hl He. unfold mapped_address.
  destruct (read_be_some packet (start + 1) 1) as (family & -> & _); [lia..|].
  destruct (read_be_some packet (start + 2) 2) as (port & -> & _); [lia..|]. cbn [mbind option_bind].
  destruct ((family =? 1) && _).
  { destruct (read_be_some packet (start + 4) 4) as (ip & -> & _); [lia..|]. by eexists. }
  destruct ((family =? 2) && _) eqn:H6; [|by eexists]. bool_facts.
  rewrite read_bytes_take by lia. by eexists.
Qed.

Lemma parse_attributes_total packet tid fuel : forall pos,
  0 <= pos -> (0 < fuel)%nat -> len packet - pos < 4 * Z.of_nat fuel ->
  is_Some (parse_attributes fuel packet tid pos).
Proof.
  induction fuel as [|fuel IH]; intros pos Hpos Hpf Hf; [lia|]. cbn [parse_attributes].
  destruct (Z.leb_spec (pos + 4) (len packet)) as [Hle|]; cbn [negb]; [|by eexists].
  destruct (read_be_some packet pos 2) as (t & -> & _); [lia..|].
  destruct (read_be_some packet (pos + 2) 2) as (n & -> & Hn); [lia..|]. cbn [mbind option_bind].
  unfold checked_add. destruct (pos + 4 + n <=? u64_max); [|by eexists].
  destruct (Z.ltb_spec (len packet) (pos + 4 + n)); [by eexists|].
  assert (Hfound : is_Some (if (t =? 32) && (8 <=? n) then mapped_address packet tid (pos + 4) n else Some None)).
  { destruct ((t =? 32) && (8 <=? n)) eqn:Ht; [|by eexists]. bool_facts. apply mapped_address_total; lia. }
  destruct Hfound as [[a|] ->]; cbn [mbind option_bind]; [by eexists|].
  pose proof (Z.mod_pos_bound (4 - n mod 4) 4 ltac:(done)).
  destruct (pos + 4 + n + (4 - n mod 4) mod 4 <=? u64_max); [|by eexists]. apply IH; lia.
Qed.

Lemma stun_response_total source server packet tid : is_Some (stun_response source server packet tid).
Proof.
  unfold stun_response, parse_xor_mapped_address. destruct (bool_decide _); [|by eexists]. cbn [negb orb].
  destruct (Z.ltb_spec (len packet) 20); [by eexists|].
  destruct (read_be_some packet 0 2) as (k & -> & _); [lia..|].
  destruct (read_be_some packet 4 4) as (c & -> & _); [lia..|]. cbn [mbind option_bind].
  destruct (negb _ || _ || _); [by eexists|]. destruct (negb _ || _); [by eexists|].
  apply parse_attributes_total; unfold len in *; lia.
Qed.

(** ** What the parser finds *)

Lemma len_attribute kind value :
  len (stun_attribute kind value) = 4 + len value + (4 - len value mod 4) mod 4.
Proof.
  pose proof (Z.mod_pos_bound (4 - len value mod 4) 4 ltac:(done)).
  unfold stun_attribute. rewrite !len_app, !len_be_bytes. unfold len at 2. rewrite length_replicate. lia.
Qed.

(** Where the parts of an attribute are. *)
Lemma attribute_at pre kind value post :
  is_u16 kind -> len value <= u16_max ->
  let packet := pre ++ stun_attribute kind value ++ post in
  read_be packet (len pre) 2 = Some kind /\ read_be packet (len pre + 2) 2 = Some (len value) /\
  len pre + len (stun_attribute kind value) <= len packet /\
  exists pre' post', packet = pre' ++ value ++ post' /\ len pre' = len pre + 4.
Proof.
  intros Hk Hv packet. unfold is_u16, u16_max in *. pose proof (len_nonneg value). subst packet. split_and!.
  - unfold stun_attribute. rewrite <- !app_assoc. apply read_be_mid; [done|cbn; lia].
  - unfold stun_attribute. rewrite <- !app_assoc, (app_assoc pre).
    apply read_be_mid; [by rewrite len_app, len_be_bytes|cbn; lia].
  - rewrite !len_app. pose proof (len_nonneg post). lia.
  - exists (pre ++ be_bytes 2 kind ++ be_bytes 2 (len value)). eexists. split.
    + unfold stun_attribute. by rewrite <- !app_assoc.
    + rewrite !len_app, !len_be_bytes. lia.
Qed.

(** One turn of the loop at an attribute. *)
Lemma parse_attributes_turn pre kind value post tid fuel :
  is_u16 kind -> len value <= u16_max ->
  let packet := pre ++ stun_attribute kind value ++ post in
  len packet <= u64_max ->
  parse_attributes (S fuel) packet tid (len pre) =
  (found ← (if (kind =? 0x0020) && (8 <=? len value)
            then mapped_address packet tid (len pre + 4) (len value) else Some None);
   match found with
   | Some endpoint => Some (Some endpoint)
   | None => parse_attributes fuel packet tid (len (pre ++ stun_attribute kind value))
   end).
Proof.
  intros Hk Hv packet Hmax. destruct (attribute_at pre kind value post Hk Hv) as (Hkind & Hsize & Hle & _).
  fold packet in Hkind, Hsize, Hle. pose proof (len_attribute kind value) as Hlen. pose proof (len_nonneg value).
  pose proof (Z.mod_pos_bound (4 - len value mod 4) 4 ltac:(done)). cbn [parse_attributes].
  rewrite (proj2 (Z.leb_le (len pre + 4) _)) by lia. cbn [negb].
  rewrite Hkind. cbn [mbind option_bind]. rewrite Hsize. cbn [mbind option_bind].
  unfold checked_add. rewrite (proj2 (Z.leb_le (len pre + 4 + len value) _)) by lia.
  rewrite (proj2 (Z.ltb_ge _ _)) by lia.
  destruct (if (kind =? 32) && _ then _ else _) as [[a|]|]; cbn [mbind option_bind]; [done| |done].
  rewrite (proj2 (Z.leb_le _ _)) by lia. f_equal. rewrite len_app. lia.
Qed.

(** The side conditions of a read within a packet given in parts. *)
Ltac read_side :=
  first [assumption | done | rewrite ?len_app, ?len_be_bytes; unfold len; cbn [length]; lia].

Lemma mapped_address_found pre post tid a :
  length tid = 12%nat -> endpoint_ok a ->
  mapped_address (pre ++ xor_mapped_value tid a ++ post) tid (len pre) (len (xor_mapped_value tid a)) = Some (Some a).
Proof.
  intros Htid Ha. unfold mapped_address.
  assert (Hport : forall port, is_u16 port -> 0 <= Z.lxor port (Z.shiftr STUN_MAGIC_COOKIE 16) < 256 ^ Z.of_nat 2).
  { intros port Hp. apply (lxor_range 16); [done|unfold is_u16, u16_max in *; lia|done]. }
  assert (Hpre : forall l, pre ++ [byte_of_Z 0] ++ l = (pre ++ [byte_of_Z 0]) ++ l) by (intros; by rewrite app_assoc).
  destruct a as [ip port|ip port flowinfo scope_id]; cbn [xor_mapped_value endpoint_ok] in *.
  - destruct Ha as [Hip Hp]. specialize (Hport port Hp).
    assert (Hx : 0 <= Z.lxor ip STUN_MAGIC_COOKIE < 256 ^ Z.of_nat 4).
    { apply (lxor_range 32); [done|unfold is_u32, u32_max in *; lia|done]. }
    set (p := be_bytes 2 _) in *. set (x := be_bytes 4 _) in *.
    rewrite <- !app_assoc. cbn [app].
    change (byte_of_Z 0 :: byte_of_Z 1 :: p ++ x ++ post) with ([byte_of_Z 0] ++ be_bytes 1 1 ++ p ++ x ++ post).
    rewrite Hpre, (read_be_mid (pre ++ [byte_of_Z 0]) 1 1) by read_side. cbn [mbind option_bind].
    rewrite (app_assoc _ (be_bytes 1 1)). subst p.
    rewrite read_be_mid by read_side. cbn [mbind option_bind].
    rewrite lxor_twice. rewrite (app_assoc _ (be_bytes 2 _)). subst x.
    rewrite read_be_mid by read_side. cbn [mbind option_bind].
    rewrite lxor_twice. done.
  - destruct Ha as (Hip & Hp & -> & ->). specialize (Hport port Hp).
    set (p := be_bytes 2 _) in *. set (key := be_bytes 4 STUN_MAGIC_COOKIE ++ tid).
    assert (Hkey : length (be_bytes 16 ip) = length key)
      by (subst key; by rewrite length_app, !length_be_bytes, Htid).
    assert (Hx16 : length (xor_bytes (be_bytes 16 ip) key) = 16%nat)
      by (unfold xor_bytes; by rewrite length_zip_with_l_eq, length_be_bytes).
    set (x := xor_bytes _ _) in *. rewrite <- !app_assoc. cbn [app].
    change (byte_of_Z 0 :: byte_of_Z 2 :: p ++ x ++ post) with ([byte_of_Z 0] ++ be_bytes 1 2 ++ p ++ x ++ post).
    rewrite Hpre, (read_be_mid (pre ++ [byte_of_Z 0]) 1 2) by read_side. cbn [mbind option_bind].
    rewrite (app_assoc _ (be_bytes 1 2)). subst p.
    rewrite read_be_mid by read_side. cbn [mbind option_bind].
    rewrite lxor_twice. rewrite (app_assoc _ (be_bytes 2 _)).
    rewrite read_bytes_mid by read_side. cbn [mbind option_bind].
    rewrite !len_cons, len_app, len_be_bytes. unfold len. rewrite Hx16. cbn [Z.of_nat Z.add andb Z.eqb].
    subst x. rewrite xor_bytes_twice by done. rewrite of_be_be_bytes by done. done.
Qed.

Definition skipped_ok (a : Z * bytes) : Prop := is_u16 a.1 /\ a.1 <> 0x0020 /\ len a.2 <= u16_max.

Definition encode_attributes (attrs : list (Z * bytes)) : bytes := attrs ≫= fun a => stun_attribute a.1 a.2.

Lemma length_encode_attributes attrs : (length attrs <= length (encode_attributes attrs))%nat.
Proof.
  induction attrs as [|b attrs IH]; [done|].
  change (encode_attributes (b :: attrs)) with (stun_attribute b.1 b.2 ++ encode_attributes attrs).
  rewrite length_app. pose proof (len_attribute b.1 b.2) as H. pose proof (len_nonneg b.2).
  pose proof (Z.mod_pos_bound (4 - len b.2 mod 4) 4 ltac:(done)). unfold len in *. cbn [length]. lia.
Qed.

Lemma len_xor_mapped tid a :
  length tid = 12%nat -> len (xor_mapped_value tid a) = 8 \/ len (xor_mapped_value tid a) = 20.
Proof.
  intros Htid. destruct a; cbn [xor_mapped_value]; rewrite !len_app, ?len_be_bytes; [by left|right].
  unfold len, xor_bytes. rewrite length_zip_with_l_eq; [|rewrite length_app, !length_be_bytes, Htid; done].
  by rewrite length_be_bytes.
Qed.

Lemma parse_attributes_found tid a post attrs : forall fuel pre,
  length tid = 12%nat -> endpoint_ok a -> Forall skipped_ok attrs -> (length attrs < fuel)%nat ->
  let packet := pre ++ encode_attributes attrs ++ stun_attribute 0x0020 (xor_mapped_value tid a) ++ post in
  len packet <= u64_max -> parse_attributes fuel packet tid (len pre) = Some (Some a).
Proof.
  induction attrs as [|[kind value] attrs IH]; intros fuel pre Htid Ha Hok Hf packet Hmax; subst packet;
    (destruct fuel as [|fuel]; [cbn in Hf; lia|]).
  - change (encode_attributes [] ++ ?l) with l in *. pose proof (len_xor_mapped tid a Htid) as Hv.
    rewrite parse_attributes_turn; [|done|unfold u16_max; lia|done].
    rewrite (proj2 (Z.leb_le 8 _)) by lia. cbn [Z.eqb andb Pos.eqb].
    destruct (attribute_at pre 32 (xor_mapped_value tid a) post) as (_ & _ & _ & pre' & post' & -> & <-);
      [done|unfold u16_max; lia|]. by rewrite mapped_address_found.
  - inversion Hok as [|? ? (Hk & Hne & Hv) Hok']; subst. cbn [fst snd] in *.
    change (encode_attributes ((kind, value) :: attrs)) with (stun_attribute kind value ++ encode_attributes attrs) in *.
    rewrite <- (app_assoc (stun_attribute kind value)) in *.
    rewrite parse_attributes_turn by done. rewrite (proj2 (Z.eqb_neq kind 32)) by done. cbn [andb mbind option_bind].
    specialize (IH fuel (pre ++ stun_attribute kind value)). cbn zeta in IH. rewrite <- (app_assoc pre) in IH.
    apply IH; [done..|cbn in Hf; lia|done].
Qed.

(** C40. The parser of STUN responses is safe on every datagram: it returns, and
    never indexes out of range. And it is right: a response of the queried server
    with the transaction's identifier gives exactly the address that its first
    XOR-MAPPED-ADDRESS attribute encodes, for both address families and whatever
    other attributes come before and after; a datagram of any other sender gives
    nothing. *)
Theorem stun_response_parsed server tid attrs a length_field post :
  length tid = 12%nat -> endpoint_ok a -> Forall skipped_ok attrs ->
  let packet := stun_packet length_field tid
    (encode_attributes attrs ++ stun_attribute 0x0020 (xor_mapped_value tid a) ++ post) in
  len packet <= u64_max ->
  stun_response server server packet tid = Some (Some a) /\
  (forall source any, is_Some (stun_response source server any tid)) /\
  (forall source any, source <> server -> stun_response source server any tid = Some None).
Proof.
  intros Htid Ha Hok packet Hmax. split_and!; [|intros; apply stun_response_total|].
  2: { intros source any Hne. unfold stun_response. by rewrite bool_decide_false. }
  set (body := encode_attributes attrs ++ _) in packet.
  set (header := be_bytes 2 257 ++ be_bytes 2 length_field ++ be_bytes 4 STUN_MAGIC_COOKIE ++ tid).
  assert (Hh : len header = 20).
  { subst header. rewrite !len_app, !len_be_bytes. unfold len. by rewrite Htid. }
  assert (Hp : packet = header ++ body) by (subst packet header; unfold stun_packet; by rewrite <- !app_assoc).
  assert (Hlen : len packet = 20 + len body) by (by rewrite Hp, len_app, Hh).
  pose proof (len_nonneg body).
  assert (Hkind : read_be packet 0 2 = Some 257) by (by apply (read_be_mid [])).
  assert (Hcookie : read_be packet 4 4 = Some STUN_MAGIC_COOKIE).
  { subst packet. unfold stun_packet. rewrite (app_assoc (be_bytes 2 257)). by apply read_be_mid. }
  assert (Hslice : slice 8 20 packet = tid).
  { subst packet. unfold stun_packet. rewrite (app_assoc (be_bytes 2 257)), (app_assoc _ (be_bytes 4 _)).
    apply slice_app_mid; [by rewrite !len_app, !len_be_bytes|rewrite !len_app, !len_be_bytes; unfold len; by rewrite Htid]. }
  unfold stun_response, parse_xor_mapped_address. rewrite bool_decide_true by done. cbn [negb orb].
  rewrite (proj2 (Z.ltb_ge _ _)) by lia. rewrite Hkind, Hcookie. cbn [mbind option_bind].
  rewrite Z.eqb_refl, Hslice, bool_decide_true by done. cbn [negb orb Z.eqb Pos.eqb].
  rewrite Hp, <- Hh. apply parse_attributes_found; [done..| |by fold body; rewrite <- Hp].
  rewrite <- Hp. pose proof (length_encode_attributes attrs).
  assert (length attrs <= length body)%nat by (subst body; rewrite length_app; lia). unfold len in *. lia.
Qed.

(** Witness for C40. A response with a SOFTWARE attribute before the mapped
    address. *)
Lemma stun_response_parsed_witness :
  let tid := str_bytes "abcdefghijkl" in
  let a := SockV4 3405803777 40000 in
  let packet := stun_packet 24 tid
    (encode_attributes [(0x8022, str_bytes "stund")] ++ stun_attribute 0x0020 (xor_mapped_value tid a) ++ []) in
  let server := SockV4 16843009 3478 in
  stun_response server server packet tid = Some (Some a) /\
  (forall source any, is_Some (stun_response source server any tid)) /\
  (forall source any, source <> server -> stun_response source server any tid = Some None).
Proof.
  intros tid a packet server.
  apply (stun_response_parsed server tid [(0x8022, str_bytes "stund")] a 24 []).
  - done.
  - split; split; by vm_compute.
  - constructor; [|constructor]. split_and!; [split; by vm_compute|done|by vm_compute].
  - by vm_compute.
Defined.
