(* ===== verification/SessionAdmission.v ===== *)
(** * Admission of connection sessions

    Models [network-core/src/session.rs]: which authenticated candidate may
    install its keys for a peer. Each method holds the write lock throughout, so
    it is one function of the map; a drawn session identity is an argument. The
    life of every identity is shown to follow one automaton. *)
From S2P Require Import Prelude.

Definition SESSION_ID_BYTES : Z := 16.

(** Sixteen bytes from the operating system's generator. *)
Definition SessionId : Type := bytes.

Inductive SessionCryptoDecision := Initialize | ReplaceWithNew.

Record ConnectionAdmission := mkAdmission {
  ca_session_id : SessionId;
  ca_decision : SessionCryptoDecision;
  ca_replaced_session_id : option SessionId;
}.

Inductive ConnectionAdmissionError := StaleSession | InvalidRemoteBinding.

Inductive AdmissionPhase := PhaseReserved | PhaseClaimed | PhaseAuthenticated.

#[export] Instance AdmissionPhase_eq_dec : EqDecision AdmissionPhase.
Proof. solve_decision. Defined.

Record SessionAdmission := mkSession {
  sa_id : SessionId;
  sa_binding : option string;
  sa_phase : AdmissionPhase;
}.

Abbreviation ConnectionSessionStore := (gmap string SessionAdmission).

Definition sessions_new : ConnectionSessionStore := ∅.

Definition register_pending_session (peer_id : string) (session_id : SessionId) (s : ConnectionSessionStore) :
    result unit ConnectionAdmissionError * ConnectionSessionStore :=
  match s !! peer_id with
  | Some _ => (Err StaleSession, s)
  | None => (Ok tt, <[peer_id := mkSession session_id None PhaseReserved]> s)
  end.

Definition current_session_id (peer_id : string) (s : ConnectionSessionStore) : option SessionId :=
  sa_id <$> s !! peer_id.

Definition current_remote_session_binding (peer_id : string) (s : ConnectionSessionStore) : option string :=
  s !! peer_id ≫= sa_binding.

Definition is_current_session (peer_id : string) (expected : SessionId) (s : ConnectionSessionStore) : bool :=
  match s !! peer_id with Some session => bool_decide (sa_id session = expected) | None => false end.

(** [fresh] is what [SessionId::new] draws where the code calls it. *)
Definition admit_authenticated_session (peer_id : string) (expected : option SessionId) (binding : string)
    (fresh : SessionId) (s : ConnectionSessionStore) :
    result ConnectionAdmission ConnectionAdmissionError * ConnectionSessionStore :=
  if str_is_empty binding then (Err InvalidRemoteBinding, s)
  else
    match s !! peer_id with
    | None =>
      match expected with
      | Some _ => (Err StaleSession, s)
      | None =>
        (Ok (mkAdmission fresh Initialize None),
         <[peer_id := mkSession fresh (Some binding) PhaseClaimed]> s)
      end
    | Some current =>
      if match expected with Some e => negb (bool_decide (e = sa_id current)) | None => false end
      then (Err StaleSession, s)
      else if bool_decide (sa_binding current = Some binding) then (Err StaleSession, s)
      else
        let replaces_existing :=
          match expected with
          | Some _ =>
            match sa_phase current with
            | PhaseReserved => Some false
            | PhaseAuthenticated => Some true
            | PhaseClaimed => None
            end
          | None =>
            Some (negb (bool_decide (sa_phase current = PhaseReserved))
                  || match sa_binding current with Some _ => true | None => false end)
          end in
        match replaces_existing with
        | None => (Err StaleSession, s)
        | Some true =>
          (Ok (mkAdmission fresh ReplaceWithNew (Some (sa_id current))),
           <[peer_id := mkSession fresh (Some binding) PhaseClaimed]> s)
        | Some false =>
          (Ok (mkAdmission (sa_id current) Initialize None),
           <[peer_id := mkSession (sa_id current) (Some binding) PhaseClaimed]> s)
        end
    end.

Definition finalize_authenticated_session (peer_id : string) (expected : SessionId) (binding : string)
    (s : ConnectionSessionStore) : result unit ConnectionAdmissionError * ConnectionSessionStore :=
  if str_is_empty binding then (Err InvalidRemoteBinding, s)
  else
    match s !! peer_id with
    | None => (Err StaleSession, s)
    | Some session =>
      if negb (bool_decide (sa_id session = expected)) then (Err StaleSession, s)
      else if match sa_binding session with Some existing => negb (bool_decide (existing = binding)) | None => false end
      then (Err StaleSession, s)
      else if bool_decide (sa_phase session = PhaseReserved) then (Err StaleSession, s)
      else (Ok tt, <[peer_id := mkSession (sa_id session) (Some binding) PhaseAuthenticated]> s)
    end.

Definition release_authenticated_session (peer_id : string) (expected : SessionId) (binding : string)
    (s : ConnectionSessionStore) : bool * ConnectionSessionStore :=
  match s !! peer_id with
  | None => (false, s)
  | Some session =>
    if negb (bool_decide (sa_id session = expected)) || negb (bool_decide (sa_phase session = PhaseClaimed))
       || negb (bool_decide (sa_binding session = Some binding))
    then (false, s)
    else (true, <[peer_id := mkSession (sa_id session) None PhaseReserved]> s)
  end.

Definition retire_session (peer_id : string) (expected : SessionId) (s : ConnectionSessionStore) :
    bool * ConnectionSessionStore :=
  if is_current_session peer_id expected s then (true, delete peer_id s) else (false, s).

(** ** Runs and what they report *)

Inductive SessionOp :=
| SRegister (peer : string) (id : SessionId)
| SAdmit (peer : string) (expected : option SessionId) (binding : string) (fresh : SessionId)
| SFinalize (peer : string) (id : SessionId) (binding : string)
| SRelease (peer : string) (id : SessionId) (binding : string)
| SRetire (peer : string) (id : SessionId).

Inductive SessionEvent :=
| Reserved (id : SessionId)
| Won (id : SessionId) (binding : string)
| Finalized (id : SessionId) (binding : string)
| Released (id : SessionId) (binding : string)
| Ended (id : SessionId).

Definition session_step (op : SessionOp) (s : ConnectionSessionStore) : list SessionEvent * ConnectionSessionStore :=
  match op with
  | SRegister p id =>
    match register_pending_session p id s with (Ok _, s) => ([Reserved id], s) | (Err _, s) => ([], s) end
  | SAdmit p expected b fresh =>
    match admit_authenticated_session p expected b fresh s with
    | (Ok a, s) =>
      (match ca_replaced_session_id a with Some old => [Ended old] | None => [] end ++ [Won (ca_session_id a) b], s)
    | (Err _, s) => ([], s)
    end
  | SFinalize p id b =>
    match finalize_authenticated_session p id b s with (Ok _, s) => ([Finalized id b], s) | (Err _, s) => ([], s) end
  | SRelease p id b =>
    match release_authenticated_session p id b s with (true, s) => ([Released id b], s) | (false, s) => ([], s) end
  | SRetire p id =>
    match retire_session p id s with (true, s) => ([Ended id], s) | (false, s) => ([], s) end
  end.

Fixpoint session_run (ops : list SessionOp) (s : ConnectionSessionStore) : list SessionEvent * ConnectionSessionStore :=
  match ops with
  | [] => ([], s)
  | op :: ops =>
    let '(events, s) := session_step op s in
    let '(later, s) := session_run ops s in (events ++ later, s)
  end.

(** The identities that are new with an operation. *)
Definition op_drawn (op : SessionOp) : list SessionId :=
  match op with SRegister _ id => [id] | SAdmit _ _ _ fresh => [fresh] | _ => [] end.

Definition drawn (ops : list SessionOp) : list SessionId := ops ≫= op_drawn.

(** ** The life of one identity *)

Inductive SessionLife := Unused | Waiting | Claimed (binding : string) | Final (binding : string) | Gone.

#[export] Instance SessionLife_eq_dec : EqDecision SessionLife.
Proof. solve_decision. Defined.

(** [None]: an event that the life of the identity does not allow. *)
Definition life_step (X : SessionId) (l : SessionLife) (e : SessionEvent) : option SessionLife :=
  match e with
  | Reserved id =>
    if decide (id = X) then match l with Unused => Some Waiting | _ => None end else Some l
  | Won id b =>
    if decide (id = X) then match l with Unused | Waiting => Some (Claimed b) | _ => None end else Some l
  | Finalized id b =>
    if decide (id = X) then
      match l with Claimed b' | Final b' => if decide (b = b') then Some (Final b) else None | _ => None end
    else Some l
  | Released id b =>
    if decide (id = X) then
      match l with Claimed b' => if decide (b = b') then Some Waiting else None | _ => None end
    else Some l
  | Ended id =>
    if decide (id = X) then match l with Waiting | Claimed _ | Final _ => Some Gone | _ => None end else Some l
  end.

Fixpoint life (X : SessionId) (events : list SessionEvent) (l : SessionLife) : option SessionLife :=
  match events with
  | [] => Some l
  | e :: events => match life_step X l e with Some l => life X events l | None => None end
  end.

(** What the store says of an identity that is in the state [l]. *)
Definition session_of (X : SessionId) (l : SessionLife) : option SessionAdmission :=
  match l with
  | Unused | Gone => None
  | Waiting => Some (mkSession X None PhaseReserved)
  | Claimed b => Some (mkSession X (Some b) PhaseClaimed)
  | Final b => Some (mkSession X (Some b) PhaseAuthenticated)
  end.

(** The store holds [X] for one peer, as its life says, or not at all. *)
Definition tracks (X : SessionId) (l : SessionLife) (s : ConnectionSessionStore) : Prop :=
  match session_of X l with
  | Some a => exists p, s !! p = Some a /\ forall q b, q <> p -> s !! q = Some b -> sa_id b <> X
  | None => forall q b, s !! q = Some b -> sa_id b <> X
  end.

Lemma session_of_id X l a : session_of X l = Some a -> sa_id a = X.
Proof. destruct l; intros [= <-]; done. Qed.

Lemma tracks_lookup X l s p a : tracks X l s -> s !! p = Some a -> sa_id a = X -> session_of X l = Some a.
Proof.
  unfold tracks. destruct (session_of X l) as [b|]; intros H Hp Hid; [|by destruct (H p a)].
  destruct H as (q & Hq & Hother). destruct (decide (p = q)) as [->|]; [congruence|]. by destruct (Hother p a).
Qed.

Lemma tracks_update X l l' s p a a' :
  tracks X l s -> s !! p = Some a -> sa_id a = X -> session_of X l' = Some a' -> tracks X l' (<[p := a']> s).
Proof.
  intros H Hp Hid Hl'. pose proof (tracks_lookup _ _ _ _ _ H Hp Hid) as Hl.
  unfold tracks in *. rewrite Hl in H. rewrite Hl'. destruct H as (q & Hq & Hother).
  assert (p = q) as <- by (destruct (decide (p = q)); [done|by destruct (Hother p a)]).
  exists p. rewrite lookup_insert_eq. split; [done|]. intros r b Hr. rewrite lookup_insert_ne by done. by apply Hother.
Qed.

Lemma tracks_insert_other X l s p a' :
  tracks X l s -> (forall a, s !! p = Some a -> sa_id a <> X) -> sa_id a' <> X -> tracks X l (<[p := a']> s).
Proof.
  unfold tracks. destruct (session_of X l) as [b|] eqn:Hl; intros H Hp Ha'.
  - destruct H as (q & Hq & Hother). exists q.
    assert (p <> q) by (intros ->; by apply (Hp b Hq), (session_of_id _ l)).
    rewrite lookup_insert_ne by done. split; [done|]. intros r c Hr Hc.
    apply lookup_insert_Some in Hc as [[_ <-] | [_ Hc]]; [done|by eapply Hother].
  - intros q c Hc. apply lookup_insert_Some in Hc as [[_ <-] | [_ Hc]]; [done|by eapply H].
Qed.

Lemma tracks_born X l l' s p a' :
  tracks X l s -> session_of X l = None -> session_of X l' = Some a' -> tracks X l' (<[p := a']> s).
Proof.
  unfold tracks. intros H Hl Hl'. rewrite Hl in H. rewrite Hl'. exists p. rewrite lookup_insert_eq. split; [done|].
  intros q b Hq. rewrite lookup_insert_ne by done. apply H.
Qed.

Lemma tracks_gone X l s p a s' :
  tracks X l s -> s !! p = Some a -> sa_id a = X ->
  (forall q b, s' !! q = Some b -> (q <> p /\ s !! q = Some b) \/ sa_id b <> X) -> tracks X Gone s'.
Proof.
  intros H Hp Hid Hs' q b Hb. pose proof (tracks_lookup _ _ _ _ _ H Hp Hid) as Hl.
  unfold tracks in H. rewrite Hl in H. destruct H as (r & Hr & Hother).
  assert (p = r) as <- by (destruct (decide (p = r)); [done|by destruct (Hother p a)]).
  destruct (Hs' q b Hb) as [[? ?]|]; [by eapply Hother|done].
Qed.

Lemma tracks_delete_other X l s p a :
  tracks X l s -> s !! p = Some a -> sa_id a <> X -> tracks X l (delete p s).
Proof.
  unfold tracks. destruct (session_of X l) as [b|] eqn:Hl; intros H Hp Ha.
  - destruct H as (q & Hq & Hother). exists q.
    assert (p <> q) by (intros ->; rewrite Hq in Hp; injection Hp as <-; by apply Ha, (session_of_id _ l)).
    rewrite lookup_delete_ne by done. split; [done|]. intros r c Hr [_ Hc]%lookup_delete_Some. by eapply Hother.
  - intros q c [_ Hc]%lookup_delete_Some. by eapply H.
Qed.

(** One operation moves the life of [X] along the automaton. *)
Definition moves (X : SessionId) (drawn : list SessionId) (l : SessionLife)
    (r : list SessionEvent * ConnectionSessionStore) : Prop :=
  exists l', life X r.1 l = Some l' /\ tracks X l' r.2 /\ (l' <> Unused -> l <> Unused \/ X ∈ drawn).

Lemma moves_none X d l s : tracks X l s -> moves X d l ([], s).
Proof. intros H. exists l. split_and!; [done..|]. by left. Qed.

Lemma session_of_waiting X l a : session_of X l = Some a -> sa_phase a = PhaseReserved ->
  l = Waiting.
Proof. destruct l; intros [= <-]; done. Qed.

Lemma session_of_claimed X l a : session_of X l = Some a -> sa_phase a = PhaseClaimed ->
  exists b, sa_binding a = Some b /\ l = Claimed b.
Proof. destruct l; intros [= <-]; try done. eauto. Qed.

Lemma session_of_bound X l a : session_of X l = Some a -> sa_phase a <> PhaseReserved ->
  exists b, sa_binding a = Some b /\ (l = Claimed b \/ l = Final b).
Proof. destruct l; intros [= <-]; try done; eauto. Qed.

Lemma moves_register X p id l s :
  tracks X l s -> (X ∈ [id] -> l = Unused) -> moves X [id] l (session_step (SRegister p id) s).
Proof.
  intros H Hnew. cbn. unfold register_pending_session. destruct (s !! p) eqn:Hp; [by apply moves_none|].
  unfold moves. cbn. destruct (decide (id = X)) as [->|Hne].
  - rewrite Hnew by left. exists Waiting. split_and!; [done| |by right; left].
    eapply tracks_born; [done|by rewrite Hnew by left|done].
  - exists l. split_and!; [done| |by left]. apply tracks_insert_other; [done| |done]. intros a. by rewrite Hp.
Qed.

(** A claim of a new identity in the place of what the peer had. *)
Lemma moves_replace X p current b fresh l s :
  tracks X l s -> (X ∈ [fresh] -> l = Unused) -> s !! p = Some current ->
  moves X [fresh] l ([Ended (sa_id current); Won fresh b],
    <[p := mkSession fresh (Some b) PhaseClaimed]> s).
Proof.
  intros H Hnew Hp. unfold moves. cbn.
  destruct (decide (sa_id current = X)) as [Hc|Hc].
  - pose proof (tracks_lookup _ _ _ _ _ H Hp Hc) as Hl.
    assert (Hf : fresh <> X) by (intros ->; rewrite Hnew in Hl by left; done).
    exists Gone. split_and!; [by destruct l; cbn; rewrite ?decide_False| |left; by intros ->].
    eapply tracks_gone; [done..|]. intros q a Ha.
    apply lookup_insert_Some in Ha as [[_ <-] | [? ?]]; auto.
  - destruct (decide (fresh = X)) as [->|Hf].
    + rewrite Hnew by left. exists (Claimed b). split_and!; [done| |by right; left].
      eapply tracks_born; [done|by rewrite Hnew by left|done].
    + exists l. split_and!; [done| |by left]. apply tracks_insert_other; [done| |done]. congruence.
Qed.

Lemma moves_admit X p expected b fresh l s :
  tracks X l s -> (X ∈ [fresh] -> l = Unused) ->
  (forall q a, s !! q = Some a -> sa_phase a = PhaseReserved -> sa_binding a = None) ->
  moves X [fresh] l (session_step (SAdmit p expected b fresh) s).
Proof.
  intros H Hnew Hwf. cbn [session_step]. unfold admit_authenticated_session.
  destruct (str_is_empty b); [by apply moves_none|].
  destruct (s !! p) as [current|] eqn:Hp.
  - destruct (match expected with Some e => _ | None => _ end); [by apply moves_none|].
    destruct (bool_decide _); [by apply moves_none|].
    assert (Hclaim : sa_phase current = PhaseReserved ->
      moves X [fresh] l ([Won (sa_id current) b], <[p := mkSession (sa_id current) (Some b) PhaseClaimed]> s)).
    { intros Hph. unfold moves. cbn. destruct (decide (sa_id current = X)) as [Hc|Hc].
      - pose proof (tracks_lookup _ _ _ _ _ H Hp Hc) as Hl.
        rewrite (session_of_waiting _ _ _ Hl Hph). exists (Claimed b). split_and!; [done| |by left].
        by eapply tracks_update; [..|rewrite Hc].
      - exists l. split_and!; [done| |by left]. apply tracks_insert_other; [done| |done]. congruence. }
    destruct expected as [e|], (sa_phase current) eqn:Hph; cbn;
      rewrite ?(Hwf p current Hp Hph); first [by apply moves_none|by apply Hclaim|by apply moves_replace].
  - destruct expected; [by apply moves_none|]. unfold moves. cbn.
    destruct (decide (fresh = X)) as [->|Hf].
    + rewrite Hnew by left. exists (Claimed b). split_and!; [done| |by right; left].
      eapply tracks_born; [done|by rewrite Hnew by left|done].
    + exists l. split_and!; [done| |by left]. apply tracks_insert_other; [done| |done]. congruence.
Qed.

Lemma moves_finalize X p id b l s :
  tracks X l s -> moves X [] l (session_step (SFinalize p id b) s).
Proof.
  intros H. cbn [session_step]. unfold finalize_authenticated_session.
  destruct (str_is_empty b); [by apply moves_none|].
  destruct (s !! p) as [a|] eqn:Hp; [|by apply moves_none].
  destruct (bool_decide_reflect (sa_id a = id)) as [<-|]; [|by apply moves_none].
  destruct (match sa_binding a with Some _ => _ | None => _ end) eqn:Hb; [by apply moves_none|].
  destruct (bool_decide_reflect (sa_phase a = PhaseReserved)) as [|Hph]; [by apply moves_none|].
  unfold moves. cbn. destruct (decide (sa_id a = X)) as [Hid|Hid].
  - pose proof (tracks_lookup _ _ _ _ _ H Hp Hid) as Hl. exists (Final b). split_and!.
    + destruct (session_of_bound _ _ _ Hl Hph) as (b' & Hb' & Hcase). rewrite Hb' in Hb.
      apply negb_false_iff, bool_decide_eq_true in Hb as ->. destruct Hcase as [-> | ->]; by rewrite decide_True.
    + by eapply tracks_update; [..|rewrite Hid].
    + intros _. left. by intros ->.
  - exists l. split_and!; [done| |by left]. apply tracks_insert_other; [done| |done]. congruence.
Qed.

Lemma moves_release X p id b l s :
  tracks X l s -> moves X [] l (session_step (SRelease p id b) s).
Proof.
  intros H. cbn [session_step]. unfold release_authenticated_session.
  destruct (s !! p) as [a|] eqn:Hp; [|by apply moves_none].
  destruct (bool_decide_reflect (sa_id a = id)) as [<-|]; [|by apply moves_none].
  destruct (bool_decide_reflect (sa_phase a = PhaseClaimed)) as [Hph|]; [|by apply moves_none].
  destruct (bool_decide_reflect (sa_binding a = Some b)) as [Hb|]; [|by apply moves_none].
  unfold moves. cbn. destruct (decide (sa_id a = X)) as [Hid|Hid].
  - pose proof (tracks_lookup _ _ _ _ _ H Hp Hid) as Hl.
    destruct (session_of_claimed _ _ _ Hl Hph) as (b' & Hb' & ->).
    rewrite Hb in Hb'. injection Hb' as <-. exists Waiting. rewrite decide_True by done.
    split_and!; [done| |by left]. by eapply tracks_update; [..|rewrite Hid].
  - exists l. split_and!; [done| |by left]. apply tracks_insert_other; [done| |done]. congruence.
Qed.

Lemma moves_retire X p id l s : tracks X l s -> moves X [] l (session_step (SRetire p id) s).
Proof.
  intros H. cbn [session_step]. unfold retire_session, is_current_session.
  destruct (s !! p) as [a|] eqn:Hp; [|by apply moves_none].
  destruct (bool_decide_reflect (sa_id a = id)) as [<-|]; [|by apply moves_none].
  unfold moves. cbn. destruct (decide (sa_id a = X)) as [Hid|Hid].
  - pose proof (tracks_lookup _ _ _ _ _ H Hp Hid) as Hl. exists Gone.
    split_and!; [by destruct l| |left; by intros ->].
    eapply tracks_gone; [done..|]. intros q b [? ?]%lookup_delete_Some. auto.
  - exists l. split_and!; [done| |by left]. by eapply tracks_delete_other.
Qed.

(** A session is bound exactly when it is no longer reserved. *)
Definition sessions_wf (s : ConnectionSessionStore) : Prop :=
  map_Forall (fun _ a => sa_binding a = None <-> sa_phase a = PhaseReserved) s.

Lemma session_step_wf op s : sessions_wf s -> sessions_wf (session_step op s).2.
Proof.
  intros H.
  assert (Hins : forall p a, (sa_binding a = None <-> sa_phase a = PhaseReserved) -> sessions_wf (<[p := a]> s))
    by (intros p a Ha; by apply map_Forall_insert_2).
  destruct op; cbn [session_step];
    unfold register_pending_session, admit_authenticated_session, finalize_authenticated_session,
      release_authenticated_session, retire_session;
    repeat (case_match; simplify_eq/=; try done);
    first [apply Hins; by split|by apply map_Forall_delete].
Qed.

Lemma session_step_moves X op l s :
  sessions_wf s -> tracks X l s -> (X ∈ op_drawn op -> l = Unused) ->
  moves X (op_drawn op) l (session_step op s).
Proof.
  intros Hwf H Hnew. destruct op; cbn [op_drawn] in *;
    [by apply moves_register| |by apply moves_finalize|by apply moves_release|by apply moves_retire].
  apply moves_admit; [done..|]. intros q a Ha. by apply (Hwf q a Ha).
Qed.

Lemma life_app X e1 e2 l : life X (e1 ++ e2) l = life X e1 l ≫= life X e2.
Proof. revert l. induction e1 as [|e e1 IH]; intros l; [done|]. cbn. by destruct (life_step X l e). Qed.

Lemma session_run_life X ops : forall l s,
  sessions_wf s -> tracks X l s -> NoDup (drawn ops) -> (X ∈ drawn ops -> l = Unused) ->
  exists l', life X (session_run ops s).1 l = Some l' /\ tracks X l' (session_run ops s).2.
Proof.
  induction ops as [|op ops IH]; intros l s Hwf Ht Hnd Hnew; [by exists l|].
  change (drawn (op :: ops)) with (op_drawn op ++ drawn ops) in *.
  apply NoDup_app in Hnd as (_ & Hdisj & Hnd).
  destruct (session_step_moves X op l s) as (l1 & Hl1 & Ht1 & Hborn); [done..| |].
  { intros Hin. apply Hnew. set_solver. }
  pose proof (session_step_wf op s Hwf) as Hwf1. cbn.
  destruct (session_step op s) as [events s1]. cbn in *.
  destruct (IH l1 s1) as (l2 & Hl2 & Ht2); [done..| |].
  { intros Hin. destruct (decide (l1 = Unused)) as [->|Hl]; [done|].
    destruct (Hborn Hl) as [Hu|Hd]; [|by destruct (Hdisj X Hd)].
    destruct Hu. apply Hnew. set_solver. }
  destruct (session_run ops s1) as [later s2]. cbn in *.
  exists l2. by rewrite life_app, Hl1.
Qed.

(** C38. Session admission has a single winner. Over any operations in which no
    drawn identity repeats, what the operations report about each identity is a
    path of its life cycle: it is reserved or won when new, won only while no
    claim is outstanding, released only with the binding that won it and before
    it is final, made final only with that binding, never reopened afterwards,
    and never used again once retired or replaced. The store holds exactly what
    the reports say, for one peer at a time. *)
Theorem session_single_winner ops X :
  NoDup (drawn ops) ->
  exists l, life X (session_run ops sessions_new).1 Unused = Some l /\
    tracks X l (session_run ops sessions_new).2.
Proof.
  intros Hnd. apply session_run_life; [apply map_Forall_empty|intros q b Hb; by destruct (lookup_empty_Some q b)|done|done].
Qed.

(** Witness for C38. Two candidates race for a reserved session: the second is
    refused, the first is released and wins again, is made final, and gives way
    to the restarted peer. *)
Lemma session_single_winner_witness :
  let id := str_bytes "0123456789abcdef" in
  let ops :=
    [SRegister "peer" id; SAdmit "peer" (Some id) "a" (str_bytes "f1"); SAdmit "peer" (Some id) "b" (str_bytes "f2");
     SRelease "peer" id "a"; SAdmit "peer" None "b" (str_bytes "f3"); SFinalize "peer" id "b";
     SRelease "peer" id "b"; SAdmit "peer" (Some id) "c" (str_bytes "f4")] in
  (session_run ops sessions_new).1 =
    [Reserved id; Won id "a"; Released id "a"; Won id "b"; Finalized id "b"; Ended id; Won (str_bytes "f4") "c"] /\
  exists l, life id (session_run ops sessions_new).1 Unused = Some l /\
    tracks id l (session_run ops sessions_new).2.
Proof.
  intros id ops. split; [by vm_compute|].
  apply (session_single_winner ops id). apply (bool_decide_unpack _). by vm_compute.
Defined.
