(* ===== verification/EventLanes.v ===== *)
(** * Runtime event lanes

    Models [network-core/src/runtime_event_lanes.rs]: the three bounded lanes to
    the foreign interface, their byte accounting under concurrent senders and the
    burst schedule of the receiver. The compare-and-swap loop of a reservation is
    one atomic step; a reservation, the enqueueing, the removal and the release of
    the bytes are separate steps that other tasks may come between. The encoded
    length of an event, which the protobuf library computes, is part of it. *)
From S2P Require Import Prelude.

Definition RESULT_EVENT_MAILBOX_CAPACITY : Z := 256.
Definition CONTROL_EVENT_MAILBOX_CAPACITY : Z := 256.
Definition DATA_EVENT_MAILBOX_CAPACITY : Z := 128.
Definition MAX_RESULT_EVENT_QUEUE_BYTES : Z := 4 * 1024 * 1024.
Definition MAX_CONTROL_EVENT_QUEUE_BYTES : Z := 4 * 1024 * 1024.
Definition MAX_DATA_EVENT_QUEUE_BYTES : Z := 8 * 1024 * 1024.
Definition MAX_EVENT_BYTES : Z := 1024 * 1024.
Definition RESULT_EVENT_BURST : Z := 8.
Definition CONTROL_EVENT_BURST : Z := 8.
Definition DATA_EVENT_BURST : Z := 1.

Inductive RuntimeEventLane := LaneResult | LaneControl | LaneData.

#[export] Instance RuntimeEventLane_eq_dec : EqDecision RuntimeEventLane.
Proof. solve_decision. Defined.

Definition lane_next (l : RuntimeEventLane) : RuntimeEventLane :=
  match l with LaneResult => LaneControl | LaneControl => LaneData | LaneData => LaneResult end.

Definition lane_burst (l : RuntimeEventLane) : Z :=
  match l with
  | LaneResult => RESULT_EVENT_BURST | LaneControl => CONTROL_EVENT_BURST | LaneData => DATA_EVENT_BURST
  end.

(** The capacity and the byte limit that [channel], [send] and [send_result] give a lane. *)
Definition lane_capacity (l : RuntimeEventLane) : Z :=
  match l with
  | LaneResult => RESULT_EVENT_MAILBOX_CAPACITY | LaneControl => CONTROL_EVENT_MAILBOX_CAPACITY
  | LaneData => DATA_EVENT_MAILBOX_CAPACITY
  end.

Definition lane_limit (l : RuntimeEventLane) : Z :=
  match l with
  | LaneResult => MAX_RESULT_EVENT_QUEUE_BYTES | LaneControl => MAX_CONTROL_EVENT_QUEUE_BYTES
  | LaneData => MAX_DATA_EVENT_QUEUE_BYTES
  end.

Inductive EventSendError := EventClosed | EventTooLarge | EventWrongLane.

(** The payloads that [classify] tells apart. *)
Inductive EventPayload :=
| CommandResultV2 | TransferProgress | PeerTransferProgress | ChannelMessagePayload | SshStreamDataReceived
| OtherPayload.

Record NetworkEvent := mkEvent { ne_payload : option EventPayload; ne_encoded_len : Z }.

Definition classify (e : NetworkEvent) : RuntimeEventLane :=
  match ne_payload e with
  | Some CommandResultV2 => LaneResult
  | Some TransferProgress | Some PeerTransferProgress | Some ChannelMessagePayload | Some SshStreamDataReceived =>
    LaneData
  | _ => LaneControl
  end.

(** ** State *)

(** One value for each lane. *)
Record Lanes (A : Type) := mkLanes { on_result : A; on_control : A; on_data : A }.
Arguments mkLanes {A} _ _ _.
Arguments on_result {A} _.
Arguments on_control {A} _.
Arguments on_data {A} _.

Definition lane_get {A} (l : RuntimeEventLane) (m : Lanes A) : A :=
  match l with LaneResult => on_result m | LaneControl => on_control m | LaneData => on_data m end.

Definition lane_set {A} (l : RuntimeEventLane) (a : A) (m : Lanes A) : Lanes A :=
  match l with
  | LaneResult => mkLanes a (on_control m) (on_data m)
  | LaneControl => mkLanes (on_result m) a (on_data m)
  | LaneData => mkLanes (on_result m) (on_control m) a
  end.

(** The receiver's schedule. *)
Record Schedule := mkSchedule { scheduled_lane : RuntimeEventLane; scheduled_burst : Z }.

(** The channels and counters, the reservations of senders between reserving and
    enqueueing, and the event the receiver removed and has not yet accounted for. *)
Record LaneState := mkLaneState {
  ls_queues : Lanes (list NetworkEvent);
  ls_bytes : Lanes Z;
  ls_schedule : Schedule;
  ls_reserved : list NetworkEvent;
  ls_removed : option (RuntimeEventLane * NetworkEvent);
}.

Definition lanes_channel : LaneState :=
  mkLaneState (mkLanes [] [] []) (mkLanes 0 0 0) (mkSchedule LaneResult 0) [] None.

(** ** Sending *)

(** [QueuedByteReservation::try_new]: the new value of the counter. *)
Definition try_new (counter bytes limit : Z) : option Z :=
  let next := saturating_add u64_max counter bytes in
  if limit <? next then None else Some next.

(** What [send] checks first; [send] takes no results, [send_result] nothing else. *)
Definition send_check (e : NetworkEvent) : bool :=
  negb ((MAX_EVENT_BYTES <? ne_encoded_len e) || bool_decide (classify e = LaneResult)).

Definition send_result_check (e : NetworkEvent) : result unit EventSendError :=
  if negb (bool_decide (classify e = LaneResult)) then Err EventWrongLane
  else if MAX_EVENT_BYTES <? ne_encoded_len e then Err EventTooLarge
  else Ok tt.

Definition with_bytes (bytes : Lanes Z) (s : LaneState) : LaneState :=
  mkLaneState (ls_queues s) bytes (ls_schedule s) (ls_reserved s) (ls_removed s).

Definition with_reserved (reserved : list NetworkEvent) (s : LaneState) : LaneState :=
  mkLaneState (ls_queues s) (ls_bytes s) (ls_schedule s) reserved (ls_removed s).

(** Reserving the bytes of a checked event; [false]: [send] drops the event,
    [send_result] waits for a release and tries again. *)
Definition reserve_bytes (e : NetworkEvent) (s : LaneState) : bool * LaneState :=
  let l := classify e in
  match try_new (lane_get l (ls_bytes s)) (ne_encoded_len e) (lane_limit l) with
  | None => (false, s)
  | Some next => (true, with_reserved (ls_reserved s ++ [e]) (with_bytes (lane_set l next (ls_bytes s)) s))
  end.

(** Dropping a reservation that was not committed. *)
Definition drop_reservation (e : NetworkEvent) (rest : list NetworkEvent) (s : LaneState) : LaneState :=
  let l := classify e in
  with_reserved rest (with_bytes (lane_set l (lane_get l (ls_bytes s) - ne_encoded_len e) (ls_bytes s)) s).

(** [try_send] and the commit. [send] gives up on a full lane, [send_result]
    keeps its reservation and waits; both give up on a closed one. *)
Definition publish (e : NetworkEvent) (rest : list NetworkEvent) (closed : bool) (s : LaneState) :
    bool * LaneState :=
  let l := classify e in
  let q := lane_get l (ls_queues s) in
  if closed then (false, drop_reservation e rest s)
  else if lane_capacity l <=? len q then
    (false, if bool_decide (l = LaneResult) then s else drop_reservation e rest s)
  else
    (true, mkLaneState (lane_set l (q ++ [e]) (ls_queues s)) (ls_bytes s) (ls_schedule s) rest (ls_removed s)).

(** ** Receiving *)

Definition advance_schedule (c : Schedule) : Schedule := mkSchedule (lane_next (scheduled_lane c)) 0.

(** The schedule part of [received]. *)
Definition schedule_received (l : RuntimeEventLane) (c : Schedule) : Schedule :=
  let burst := if bool_decide (scheduled_lane c = l) then scheduled_burst c else 0 in
  mkSchedule l (saturating_add u64_max burst 1).

(** The loop of [try_recv] over [try_recv_lane], up to the removal of the event. *)
Fixpoint try_recv_loop (n : nat) (queues : Lanes (list NetworkEvent)) (c : Schedule) :
    option (RuntimeEventLane * NetworkEvent) * Lanes (list NetworkEvent) * Schedule :=
  match n with
  | O => (None, queues, c)
  | S n =>
    let c := if lane_burst (scheduled_lane c) <=? scheduled_burst c then advance_schedule c else c in
    let l := scheduled_lane c in
    match lane_get l queues with
    | e :: q => (Some (l, e), lane_set l q queues, schedule_received l c)
    | [] => try_recv_loop n queues (advance_schedule c)
    end
  end.

Definition try_recv_remove (s : LaneState) : option (RuntimeEventLane * NetworkEvent) * LaneState :=
  let '(r, queues, c) := try_recv_loop 3 (ls_queues s) (ls_schedule s) in
  (r, mkLaneState queues (ls_bytes s) c (ls_reserved s) r).

(** [release]: the bytes of the removed event leave its lane. *)
Definition release_removed (s : LaneState) : LaneState :=
  match ls_removed s with
  | None => s
  | Some (l, e) =>
    mkLaneState (ls_queues s) (lane_set l (lane_get l (ls_bytes s) - ne_encoded_len e) (ls_bytes s))
      (ls_schedule s) (ls_reserved s) None
  end.

(** [try_recv] when nothing comes in between. *)
Definition try_recv (s : LaneState) : option NetworkEvent * LaneState :=
  let '(r, s) := try_recv_remove s in (snd <$> r, release_removed s).

(** The branch of [recv] that waited for lane [l] after [try_recv] found nothing. *)
Definition recv_remove (l : RuntimeEventLane) (s : LaneState) : option (RuntimeEventLane * NetworkEvent) * LaneState :=
  match lane_get l (ls_queues s) with
  | [] => (None, s)
  | e :: q =>
    (Some (l, e), mkLaneState (lane_set l q (ls_queues s)) (ls_bytes s) (schedule_received l (ls_schedule s))
                    (ls_reserved s) (Some (l, e)))
  end.

(** ** Interleavings *)

Inductive LaneOp :=
| OpReserve (e : NetworkEvent)
| OpPublish (i : nat) (closed : bool)
| OpAbandon (i : nat)
| OpRemove
| OpRecv (l : RuntimeEventLane)
| OpRelease.

(** The events that were enqueued and removed, and the state. A reservation is
    made for events that pass the checks of [send] or [send_result]; only the
    waiting [send_result] can be abandoned; the receiver removes nothing before
    it has accounted for the last event. *)
Definition lane_step (op : LaneOp) (s : LaneState) : list NetworkEvent * list NetworkEvent * LaneState :=
  match op with
  | OpReserve e =>
    if send_check e || is_ok (send_result_check e) then ([], [], (reserve_bytes e s).2) else ([], [], s)
  | OpPublish i closed =>
    match ls_reserved s !! i with
    | None => ([], [], s)
    | Some e =>
      let '(sent, s) := publish e (delete i (ls_reserved s)) closed s in
      (if sent then [e] else [], [], s)
    end
  | OpAbandon i =>
    match ls_reserved s !! i with
    | Some e =>
      if bool_decide (classify e = LaneResult) then ([], [], drop_reservation e (delete i (ls_reserved s)) s)
      else ([], [], s)
    | None => ([], [], s)
    end
  | OpRemove =>
    match ls_removed s with
    | Some _ => ([], [], s)
    | None => let '(r, s) := try_recv_remove s in ([], match r with Some (_, e) => [e] | None => [] end, s)
    end
  | OpRecv l =>
    match ls_removed s with
    | Some _ => ([], [], s)
    | None => let '(r, s) := recv_remove l s in ([], match r with Some (_, e) => [e] | None => [] end, s)
    end
  | OpRelease => ([], [], release_removed s)
  end.

Fixpoint lane_run (ops : list LaneOp) (s : LaneState) : list NetworkEvent * list NetworkEvent * LaneState :=
  match ops with
  | [] => ([], [], s)
  | op :: ops =>
    let '(sent, received, s) := lane_step op s in
    let '(sent', received', s) := lane_run ops s in (sent ++ sent', received ++ received', s)
  end.

Definition of_lane (l : RuntimeEventLane) (es : list NetworkEvent) : list NetworkEvent :=
  List.filter (fun e => bool_decide (classify e = l)) es.

Definition bytes_of (l : RuntimeEventLane) (es : list NetworkEvent) : Z :=
  foldr (fun e n => ne_encoded_len e + n) 0 (of_lane l es).

Definition removed_events (s : LaneState) : list NetworkEvent :=
  match ls_removed s with Some (_, e) => [e] | None => [] end.

(** Every event that counts against a lane. *)
Definition counted (l : RuntimeEventLane) (s : LaneState) : Z :=
  bytes_of l (lane_get l (ls_queues s)) + bytes_of l (ls_reserved s) + bytes_of l (removed_events s).

Definition event_ok (e : NetworkEvent) : Prop := 0 <= ne_encoded_len e <= MAX_EVENT_BYTES.

Record lanes_inv (s : LaneState) : Prop := {
  li_bytes : forall l, lane_get l (ls_bytes s) = counted l s;
  li_limit : forall l, 0 <= lane_get l (ls_bytes s) <= lane_limit l;
  li_capacity : forall l, len (lane_get l (ls_queues s)) <= lane_capacity l;
  li_queued : forall l e, e ∈ lane_get l (ls_queues s) -> classify e = l /\ event_ok e;
  li_reserved : Forall event_ok (ls_reserved s);
  li_removed : forall l e, ls_removed s = Some (l, e) -> classify e = l /\ event_ok e;
}.

(** ** Lanes as finite maps *)

Lemma lane_get_set {A} l l' (a : A) m :
  lane_get l (lane_set l' a m) = if decide (l = l') then a else lane_get l m.
Proof. by destruct l, l'. Qed.

Lemma of_lane_app l es es' : of_lane l (es ++ es') = of_lane l es ++ of_lane l es'.
Proof. apply List.filter_app. Qed.

Lemma bytes_of_app l es es' : bytes_of l (es ++ es') = bytes_of l es + bytes_of l es'.
Proof.
  unfold bytes_of. rewrite of_lane_app. induction (of_lane l es) as [|e k IH]; [done|]. cbn. lia.
Qed.

Lemma bytes_of_one l e : bytes_of l [e] = if decide (l = classify e) then ne_encoded_len e else 0.
Proof.
  unfold bytes_of, of_lane. cbn. destruct (decide (l = classify e)) as [->|].
  - rewrite bool_decide_true by done. cbn. lia.
  - by rewrite bool_decide_false by congruence.
Qed.

Lemma bytes_of_cons l e es : bytes_of l (e :: es) = bytes_of l [e] + bytes_of l es.
Proof. apply (bytes_of_app l [e] es). Qed.

Lemma bytes_of_delete l es i e :
  es !! i = Some e -> bytes_of l (delete i es) = bytes_of l es - bytes_of l [e].
Proof.
  intros Hi. rewrite delete_take_drop. rewrite <- (take_drop_middle _ _ _ Hi) at 3.
  rewrite !bytes_of_app, (bytes_of_cons l e). lia.
Qed.

Lemma bytes_of_nonneg l es : Forall event_ok es -> 0 <= bytes_of l es.
Proof.
  induction 1 as [|e es [? ?] _ IH]; [done|]. rewrite bytes_of_cons, bytes_of_one. destruct (decide _); lia.
Qed.

Lemma of_lane_own l es : (forall e, e ∈ es -> classify e = l) -> of_lane l es = es.
Proof.
  induction es as [|e es IH]; intros H; [done|]. unfold of_lane. cbn.
  rewrite bool_decide_true by (apply H; left). f_equal. apply IH. intros x Hx. apply H. by right.
Qed.

#[local] Arguments bytes_of : simpl never.
#[local] Arguments len : simpl never.

(** ** Accounting *)

(** The invariant from its parts: the bytes of a lane are what counts against it. *)
Lemma lanes_inv_intro s :
  (forall l, lane_get l (ls_bytes s) = counted l s) -> (forall l, lane_get l (ls_bytes s) <= lane_limit l) ->
  (forall l, len (lane_get l (ls_queues s)) <= lane_capacity l) ->
  (forall l e, e ∈ lane_get l (ls_queues s) -> classify e = l /\ event_ok e) ->
  Forall event_ok (ls_reserved s) ->
  (forall l e, ls_removed s = Some (l, e) -> classify e = l /\ event_ok e) -> lanes_inv s.
Proof.
  intros Hb Hlim Hc Hq Hr Hx. constructor; try done. intros l. split; [|done]. rewrite Hb. unfold counted.
  assert (0 <= bytes_of l (lane_get l (ls_queues s))).
  { apply bytes_of_nonneg, Forall_forall. intros e He. by apply (Hq l). }
  assert (0 <= bytes_of l (ls_reserved s)) by by apply bytes_of_nonneg.
  assert (0 <= bytes_of l (removed_events s)); [|lia].
  apply bytes_of_nonneg. unfold removed_events. destruct (ls_removed s) as [[l' e]|] eqn:He; [|constructor].
  constructor; [by eapply Hx|constructor].
Qed.

Lemma lane_limit_small l : lane_limit l < u64_max.
Proof. by destruct l. Qed.

Lemma reserve_inv e s : event_ok e -> lanes_inv s -> lanes_inv (reserve_bytes e s).2.
Proof.
  intros He [Hb Hlim Hc Hq Hr Hx]. unfold reserve_bytes, try_new.
  destruct (lane_limit (classify e) <? _) eqn:Hle; [done|]. apply Z.ltb_ge in Hle.
  assert (Heq : saturating_add u64_max (lane_get (classify e) (ls_bytes s)) (ne_encoded_len e) =
                lane_get (classify e) (ls_bytes s) + ne_encoded_len e).
  { pose proof (lane_limit_small (classify e)). unfold saturating_add in *. lia. }
  rewrite Heq in *. apply lanes_inv_intro; cbn; try done.
  - intros l. rewrite lane_get_set. unfold counted, removed_events. cbn.
    rewrite bytes_of_app, bytes_of_one. specialize (Hb l). unfold counted, removed_events in Hb.
    destruct (decide (l = classify e)) as [->|]; lia.
  - intros l. rewrite lane_get_set. destruct (decide _) as [->|]; [done|apply Hlim].
  - apply Forall_app. by split; [|constructor].
Qed.

Lemma drop_inv i e s :
  ls_reserved s !! i = Some e -> lanes_inv s -> lanes_inv (drop_reservation e (delete i (ls_reserved s)) s).
Proof.
  intros Hi [Hb Hlim Hc Hq Hr Hx].
  assert (He : event_ok e) by (by eapply Forall_lookup_1).
  apply lanes_inv_intro; cbn; try done.
  - intros l. rewrite lane_get_set. unfold counted, removed_events. cbn.
    rewrite (bytes_of_delete _ _ _ _ Hi), bytes_of_one. specialize (Hb l). unfold counted, removed_events in Hb.
    destruct (decide (l = classify e)) as [->|]; lia.
  - intros l. rewrite lane_get_set. pose proof (Hlim l). destruct He. destruct (decide _) as [->|]; lia.
  - by apply Forall_delete.
Qed.

Lemma publish_inv i e closed s :
  ls_reserved s !! i = Some e -> lanes_inv s -> lanes_inv (publish e (delete i (ls_reserved s)) closed s).2.
Proof.
  intros Hi Hinv. unfold publish. destruct closed; [by apply drop_inv|].
  destruct (Z.leb_spec (lane_capacity (classify e)) (len (lane_get (classify e) (ls_queues s)))).
  { cbn. destruct (bool_decide _); [done|by apply drop_inv]. }
  destruct Hinv as [Hb Hlim Hc Hq Hr Hx].
  assert (He : event_ok e) by (by eapply Forall_lookup_1).
  apply lanes_inv_intro; cbn; try done; try (intros l; apply Hlim).
  - intros l. unfold counted, removed_events. cbn. rewrite lane_get_set, (bytes_of_delete _ _ _ _ Hi).
    rewrite Hb. unfold counted, removed_events.
    destruct (decide (l = classify e)) as [->|Hne]; [rewrite bytes_of_app; lia|].
    rewrite bytes_of_one, decide_False by done. lia.
  - intros l. rewrite lane_get_set. destruct (decide _) as [->|]; [|apply Hc].
    rewrite len_app. unfold len at 2. cbn. lia.
  - intros l e'. rewrite lane_get_set. destruct (decide _) as [->|]; [|apply Hq].
    rewrite elem_of_app, list_elem_of_singleton. intros [?| ->]; [by apply Hq|done].
  - by apply Forall_delete.
Qed.

(** Removing the first event of a lane. *)
Lemma remove_inv l e q c s :
  lane_get l (ls_queues s) = e :: q -> ls_removed s = None -> lanes_inv s ->
  lanes_inv (mkLaneState (lane_set l q (ls_queues s)) (ls_bytes s) c (ls_reserved s) (Some (l, e))).
Proof.
  intros Hl Hnone [Hb Hlim Hc Hq Hr Hx].
  assert (Hcl : classify e = l /\ event_ok e) by (apply Hq; rewrite Hl; left).
  apply lanes_inv_intro; cbn; try done; try (intros l'; apply Hlim).
  - intros l'. rewrite Hb. unfold counted, removed_events. cbn. rewrite Hnone, lane_get_set.
    destruct (decide (l' = l)) as [->|Hne].
    + rewrite Hl, (bytes_of_cons l e q). change (bytes_of l []) with 0. lia.
    + rewrite (bytes_of_one l'), decide_False by (by destruct Hcl as [-> _]). change (bytes_of l' []) with 0. lia.
  - intros l'. rewrite lane_get_set. destruct (decide _) as [->|]; [|apply Hc].
    specialize (Hc l). rewrite Hl, len_cons in Hc. lia.
  - intros l' e'. rewrite lane_get_set. destruct (decide _) as [->|]; [|apply Hq].
    intros ?. apply Hq. rewrite Hl. by right.
  - intros l' e' [= <- <-]. done.
Qed.

Lemma release_inv s : lanes_inv s -> lanes_inv (release_removed s).
Proof.
  intros Hinv. unfold release_removed. destruct (ls_removed s) as [[l e]|] eqn:Hrem; [|done].
  destruct Hinv as [Hb Hlim Hc Hq Hr Hx]. destruct (Hx l e Hrem) as [Hcl He].
  apply lanes_inv_intro; cbn; try done.
  - intros l'. specialize (Hb l'). rewrite lane_get_set. unfold counted, removed_events in *. cbn.
    rewrite Hrem, bytes_of_one, Hcl in Hb. change (bytes_of l' []) with 0.
    destruct (decide (l' = l)) as [->|]; lia.
  - intros l'. rewrite lane_get_set. pose proof (Hlim l'). destruct He. destruct (decide _) as [->|]; lia.
Qed.

(** ** The receiver's loop *)

Lemma try_recv_loop_spec n queues : forall c,
  match try_recv_loop n queues c with
  | (Some (l, e), queues', _) => exists q, lane_get l queues = e :: q /\ queues' = lane_set l q queues
  | (None, queues', _) => queues' = queues
  end.
Proof.
  induction n as [|n IH]; intros c; [done|]. cbn.
  destruct (if lane_burst _ <=? _ then _ else _) as [l b]. cbn.
  destruct (lane_get l queues) as [|e q] eqn:Hl; [apply IH|]. by exists q.
Qed.

Lemma try_recv_remove_inv s : ls_removed s = None -> lanes_inv s -> lanes_inv (try_recv_remove s).2.
Proof.
  intros Hnone Hinv. unfold try_recv_remove. pose proof (try_recv_loop_spec 3 (ls_queues s) (ls_schedule s)) as H.
  destruct (try_recv_loop 3 _ _) as [[[[l e]|] queues] c].
  - destruct H as (q & Hq & ->). by apply remove_inv.
  - rewrite H. destruct Hinv as [Hb Hlim Hc Hq Hr Hx].
    apply lanes_inv_intro; cbn; try done; try (intros l; apply Hlim).
    intros l. rewrite Hb. unfold counted, removed_events. cbn. by rewrite Hnone.
Qed.

Lemma recv_remove_inv l s : ls_removed s = None -> lanes_inv s -> lanes_inv (recv_remove l s).2.
Proof.
  intros Hnone Hinv. unfold recv_remove. destruct (lane_get l (ls_queues s)) as [|e q] eqn:Hl; [done|].
  by apply remove_inv.
Qed.

Lemma check_event_ok e :
  0 <= ne_encoded_len e -> send_check e || is_ok (send_result_check e) = true -> event_ok e.
Proof.
  intros Hpos H. split; [done|]. unfold send_check, send_result_check in H.
  destruct (Z.ltb_spec MAX_EVENT_BYTES (ne_encoded_len e)); [|done].
  by destruct (bool_decide (classify e = LaneResult)).
Qed.

(** An encoded length is not negative. *)
Definition lane_op_ok (op : LaneOp) : Prop :=
  match op with OpReserve e => 0 <= ne_encoded_len e | _ => True end.

Lemma lane_step_inv op s : lane_op_ok op -> lanes_inv s -> lanes_inv (lane_step op s).2.
Proof.
  intros Hok Hinv. destruct op as [e|i closed|i| |l|]; cbn [lane_step].
  - destruct (send_check e || _) eqn:Hc; [|done]. by apply reserve_inv; [apply check_event_ok|].
  - destruct (ls_reserved s !! i) as [e|] eqn:Hi; [|done].
    pose proof (publish_inv i e closed s Hi Hinv). by destruct (publish _ _ _ _).
  - destruct (ls_reserved s !! i) as [e|] eqn:Hi; [|done].
    destruct (bool_decide _); [by apply drop_inv|done].
  - destruct (ls_removed s) eqn:Hn; [done|].
    pose proof (try_recv_remove_inv s Hn Hinv). by destruct (try_recv_remove s).
  - destruct (ls_removed s) eqn:Hn; [done|].
    pose proof (recv_remove_inv l s Hn Hinv). by destruct (recv_remove l s).
  - by apply release_inv.
Qed.

(** ** Order within a lane *)

Lemma set_queue_order l l' e q queues :
  lane_get l' queues = e :: q -> classify e = l' ->
  of_lane l [e] ++ lane_get l (lane_set l' q queues) = lane_get l queues.
Proof.
  intros Hq Hcl. rewrite lane_get_set. unfold of_lane. cbn. rewrite Hcl.
  destruct (decide (l = l')) as [->|]; [by rewrite bool_decide_true|by rewrite bool_decide_false].
Qed.

(** What was enqueued is what was removed followed by what waits. *)
Lemma lane_step_order l op s :
  lanes_inv s ->
  let '(sent, received, s') := lane_step op s in
  of_lane l received ++ lane_get l (ls_queues s') = lane_get l (ls_queues s) ++ of_lane l sent.
Proof.
  intros [_ _ _ Hq _ _].
  assert (Hnone : forall m : list NetworkEvent, of_lane l [] ++ m = m ++ of_lane l []) by (intros m; by rewrite app_nil_r).
  destruct op as [e|i closed|i| |l'|]; cbn [lane_step].
  - unfold reserve_bytes. repeat case_match; simplify_eq/=; apply Hnone.
  - destruct (ls_reserved s !! i) as [e|]; [|apply Hnone]. unfold publish.
    destruct closed, (lane_capacity (classify e) <=? len (lane_get (classify e) (ls_queues s))), (bool_decide (classify e = LaneResult)); cbn; try apply Hnone;
      rewrite lane_get_set; unfold of_lane; cbn;
      (destruct (decide (l = classify e)) as [->|];
        [by rewrite bool_decide_true|by rewrite bool_decide_false, app_nil_r by congruence]).
  - destruct (ls_reserved s !! i) as [e|]; [destruct (bool_decide _)|]; apply Hnone.
  - destruct (ls_removed s); [apply Hnone|]. unfold try_recv_remove.
    pose proof (try_recv_loop_spec 3 (ls_queues s) (ls_schedule s)) as H.
    destruct (try_recv_loop 3 _ _) as [[[[l' e]|] queues] c]; cbn; [|rewrite H; apply Hnone].
    destruct H as (q & Hl' & ->). rewrite app_nil_r. apply set_queue_order; [done|].
    apply (Hq l'). rewrite Hl'. left.
  - destruct (ls_removed s); [apply Hnone|]. unfold recv_remove.
    destruct (lane_get l' (ls_queues s)) as [|e q] eqn:Hl'; cbn; [apply Hnone|].
    rewrite app_nil_r. apply set_queue_order; [done|]. apply (Hq l'). rewrite Hl'. left.
  - unfold release_removed. destruct (ls_removed s) as [[]|]; apply Hnone.
Qed.

Lemma lane_run_spec l ops : forall s,
  Forall lane_op_ok ops -> lanes_inv s ->
  let '(sent, received, s') := lane_run ops s in
  lanes_inv s' /\ of_lane l received ++ lane_get l (ls_queues s') = lane_get l (ls_queues s) ++ of_lane l sent.
Proof.
  induction ops as [|op ops IH]; intros s Hok Hinv; cbn; [by rewrite app_nil_r|].
  inversion Hok; subst. pose proof (lane_step_inv op s ltac:(done) Hinv) as Hinv1.
  pose proof (lane_step_order l op s Hinv) as Hord.
  destruct (lane_step op s) as [[sent received] s1]. specialize (IH s1 ltac:(done) Hinv1).
  destruct (lane_run ops s1) as [[sent' received'] s2]. destruct IH as [Hinv2 IH]. split; [done|].
  by rewrite !of_lane_app, <- app_assoc, IH, app_assoc, Hord, app_assoc.
Qed.

(** Under every interleaving of senders and the receiver, the byte counter
    of each lane is exactly the size of what is queued, reserved or being handed
    over, so releasing never underflows it and it stays within the lane's limit;
    no lane has more events than its capacity or an event of another lane or
    above the size limit; and each lane delivers what was enqueued, in order,
    without loss or repetition. *)
Lemma event_lanes_accounted l ops :
  Forall lane_op_ok ops ->
  let '(sent, received, s) := lane_run ops lanes_channel in
  lanes_inv s /\ of_lane l sent = of_lane l received ++ lane_get l (ls_queues s).
Proof.
  intros Hok. assert (Hinv : lanes_inv lanes_channel).
  { apply lanes_inv_intro; cbn; try done; intros []; cbn; try done; intros e He; by apply elem_of_nil in He. }
  pose proof (lane_run_spec l ops lanes_channel Hok Hinv) as H.
  destruct (lane_run ops lanes_channel) as [[sent received] s]. destruct H as [? H]. split; [done|].
  rewrite H. by destruct l.
Qed.

(** ** Fairness *)

(** Case analysis on the lanes and on the comparisons of bursts. *)
Ltac lane_cases :=
  unfold RESULT_EVENT_BURST, CONTROL_EVENT_BURST, DATA_EVENT_BURST in *;
  repeat (case_match; try done); bool_facts; lia.

(** The events that lanes other than [l] can still be served before it. *)
Definition turns_before (l : RuntimeEventLane) (c : Schedule) : Z :=
  let left := Z.max 0 (lane_burst (scheduled_lane c) - scheduled_burst c) in
  if decide (scheduled_lane c = l) then
    if left =? 0 then lane_burst (lane_next l) + lane_burst (lane_next (lane_next l)) else 0
  else if decide (lane_next (scheduled_lane c) = l) then left
  else left + lane_burst (lane_next (scheduled_lane c)).

(** Events that arrive, then one removal; the lanes served. *)
Fixpoint serve (arrivals : list (Lanes (list NetworkEvent))) (queues : Lanes (list NetworkEvent)) (c : Schedule) :
    list RuntimeEventLane :=
  match arrivals with
  | [] => []
  | more :: arrivals =>
    let queues :=
      mkLanes (on_result queues ++ on_result more) (on_control queues ++ on_control more) (on_data queues ++ on_data more) in
    match try_recv_loop 3 queues c with
    | (Some (l, _), queues, c) => l :: serve arrivals queues c
    | (None, queues, c) => serve arrivals queues c
    end
  end.

Lemma turns_before_bound l c : 0 <= scheduled_burst c -> 0 <= turns_before l c <= 16.
Proof.
  intros H. unfold turns_before, lane_burst. destruct c as [cl b]. cbn in *. destruct cl, l; cbn; lane_cases.
Qed.

(** The lane the loop starts at. *)
Definition settled (c : Schedule) : Schedule :=
  if lane_burst (scheduled_lane c) <=? scheduled_burst c then advance_schedule c else c.

Lemma settled_fresh l : settled (mkSchedule l 0) = mkSchedule l 0.
Proof. by destruct l. Qed.

Lemma settled_turns l c : 0 <= scheduled_burst c -> turns_before l (settled c) = turns_before l c.
Proof.
  intros H. unfold settled. destruct (Z.leb_spec (lane_burst (scheduled_lane c)) (scheduled_burst c)); [|done].
  destruct c as [cl b]. unfold turns_before, advance_schedule. cbn in *.
  destruct cl, l; cbn in *; lane_cases.
Qed.

Lemma settled_open c : 0 <= scheduled_burst c ->
  0 <= scheduled_burst (settled c) < lane_burst (scheduled_lane (settled c)).
Proof.
  intros H. unfold settled. destruct (Z.leb_spec (lane_burst (scheduled_lane c)) (scheduled_burst c)); [|lia].
  by destruct c as [[] b].
Qed.

(** A lane that is served, or found empty, brings the others closer. *)
Lemma served_closer l c :
  0 <= scheduled_burst c < lane_burst (scheduled_lane c) -> scheduled_lane c <> l ->
  turns_before l (schedule_received (scheduled_lane c) c) < turns_before l c /\
  turns_before l (advance_schedule c) <= turns_before l c.
Proof.
  destruct c as [cl b]. unfold turns_before, schedule_received, advance_schedule, saturating_add, u64_max. cbn.
  intros Hb Hne. rewrite bool_decide_true by done.
  destruct cl, l; try done; cbn in *; lane_cases.
Qed.

Lemma schedule_received_nonneg l c : 0 <= scheduled_burst c -> 0 <= scheduled_burst (schedule_received l c).
Proof. unfold schedule_received, saturating_add, u64_max. cbn. intros. case_match; lia. Qed.

(** How many lanes the loop passes before it looks at [l]. *)
Definition lanes_ahead (l : RuntimeEventLane) (c : Schedule) : nat :=
  if decide (scheduled_lane c = l) then 0 else if decide (lane_next (scheduled_lane c) = l) then 1 else 2.

Lemma lanes_ahead_next l c :
  scheduled_lane c <> l -> lanes_ahead l c = S (lanes_ahead l (advance_schedule c)).
Proof. destruct c as [[] b], l; cbn; done. Qed.

(** With something in lane [l], a removal is from it or brings its turn closer. *)
Lemma try_recv_loop_progress l queues n : forall c,
  0 <= scheduled_burst c -> lane_get l queues <> [] -> (lanes_ahead l (settled c) < n)%nat ->
  exists l' e queues' c', try_recv_loop n queues c = (Some (l', e), queues', c') /\ 0 <= scheduled_burst c' /\
    (l' = l \/ lane_get l queues' = lane_get l queues /\ turns_before l c' < turns_before l c).
Proof.
  induction n as [|n IH]; intros c Hb Hne Hn; [lia|].
  cbn [try_recv_loop]. fold (settled c). rewrite <- (settled_turns l c Hb).
  pose proof (settled_open c Hb) as Hopen. destruct (lane_get (scheduled_lane (settled c)) queues) as [|e q] eqn:Hq.
  - assert (Hl : scheduled_lane (settled c) <> l) by congruence.
    destruct (served_closer l _ Hopen Hl) as [_ Hle].
    rewrite (lanes_ahead_next _ _ Hl) in Hn.
    destruct (IH (advance_schedule (settled c))) as (l' & e & queues' & c' & Heq & Hb' & Hcase);
      [done|done|unfold advance_schedule in *; rewrite settled_fresh; lia|].
    exists l', e, queues', c'. split_and!; [done..|]. destruct Hcase as [|[? ?]]; [by left|right]. split; [done|lia].
  - exists (scheduled_lane (settled c)), e. eexists _, _. split; [done|].
    split; [apply schedule_received_nonneg; lia|].
    destruct (decide (scheduled_lane (settled c) = l)) as [|Hl]; [by left|right].
    split; [by rewrite lane_get_set, decide_False by congruence|]. by apply served_closer.
Qed.

Lemma lanes_ahead_bound l c : (lanes_ahead l c < 3)%nat.
Proof. unfold lanes_ahead. repeat case_match; lia. Qed.

Lemma serve_reaches l arrivals : forall queues c,
  0 <= scheduled_burst c -> lane_get l queues <> [] -> turns_before l c < len arrivals -> l ∈ serve arrivals queues c.
Proof.
  induction arrivals as [|more arrivals IH]; intros queues c Hb Hne Hlen.
  { pose proof (turns_before_bound l c Hb). change (len (@nil (Lanes (list NetworkEvent)))) with 0 in Hlen. lia. }
  cbn [serve]. set (queues1 := mkLanes _ _ _).
  assert (Hne1 : lane_get l queues1 <> []).
  { subst queues1. destruct queues, l; cbn in *; by intros [-> _]%app_eq_nil. }
  destruct (try_recv_loop_progress l queues1 3 c Hb Hne1 (lanes_ahead_bound _ _))
    as (l' & e & queues' & c' & -> & Hb' & [-> | [Hq Ht]]); [left|right].
  apply IH; [done|by rewrite Hq|]. rewrite len_cons in Hlen. lia.
Qed.

(** C39. No lane starves: a removal finds nothing only when every lane is empty,
    and as long as a lane holds an event, whatever keeps arriving in the others,
    one of any 17 consecutive removals is from it. *)
Theorem event_lanes_fair l queues c arrivals :
  0 <= scheduled_burst c ->
  ((try_recv_loop 3 queues c).1.1 = None <-> queues = mkLanes [] [] []) /\
  (lane_get l queues <> [] -> 17 <= len arrivals -> l ∈ serve arrivals queues c).
Proof.
  intros Hb. split.
  - split.
    + intros Hnone. assert (Hall : forall l', lane_get l' queues = []).
      { intros l'. destruct (decide (lane_get l' queues = [])) as [|Hne]; [done|].
        destruct (try_recv_loop_progress l' queues 3 c Hb Hne (lanes_ahead_bound _ _)) as (? & ? & ? & ? & Heq & _).
        by rewrite Heq in Hnone. }
      pose proof (Hall LaneResult). pose proof (Hall LaneControl). pose proof (Hall LaneData).
      destruct queues; cbn in *; congruence.
    + intros ->. pose proof (try_recv_loop_spec 3 (mkLanes [] [] []) c) as H.
      destruct (try_recv_loop 3 _ c) as [[[[l' e]|] ?] ?]; [|done]. destruct H as (q & Hq & _). by destruct l'.
  - intros Hne Hlen. apply serve_reaches; [done..|]. pose proof (turns_before_bound l c Hb). lia.
Qed.

(** Witness for C39. One data event behind a flood of results and control events
    is the seventeenth to be removed. *)
Lemma event_lanes_fair_witness :
  let r := mkEvent (Some CommandResultV2) 1 in
  let queues := mkLanes (replicate 20 r) (replicate 20 (mkEvent None 1)) [mkEvent (Some TransferProgress) 1] in
  let arrivals := replicate 17 (mkLanes [r] [] []) in
  last (serve arrivals queues (mkSchedule LaneResult 0)) = Some LaneData /\
  (((try_recv_loop 3 queues (mkSchedule LaneResult 0)).1.1 = None <-> queues = mkLanes [] [] []) /\
   (lane_get LaneData queues <> [] -> 17 <= len arrivals -> LaneData ∈ serve arrivals queues (mkSchedule LaneResult 0))).
Proof.
  intros r queues arrivals. split; [by vm_compute|].
  apply (event_lanes_fair LaneData queues (mkSchedule LaneResult 0) arrivals). by vm_compute.
Defined.
