(* ===== verification/CommandLedger.v ===== *)
(** * The ledger of command results

    Models [CommandResultLedger] and the loop of [run_command_worker] in
    [network-core/src/commands/ledger.rs]. Dispatching a command is code of the
    subsystems; the worker is modelled by what it reports for each command. The
    worker is shown to dispatch a command exactly when its identifier is not one
    of the last 4096 that it dispatched. *)
From S2P Require Import Prelude.

Definition MAX_COMPLETED_COMMANDS : Z := 4096.
Definition COMMAND_MAILBOX_CAPACITY : Z := 256.

Record CommandResultLedger := mkLedger {
  cl_pending : gset string;
  cl_completed : gset string;
  cl_completed_order : list string;
}.

Definition ledger_new : CommandResultLedger := mkLedger ∅ ∅ [].

(** The error is the resource limit on pending results. *)
Definition ledger_claim (command_id : string) (s : CommandResultLedger) : result bool unit * CommandResultLedger :=
  if bool_decide (command_id ∈ cl_pending s) || bool_decide (command_id ∈ cl_completed s) then (Ok false, s)
  else if COMMAND_MAILBOX_CAPACITY <=? Z.of_nat (size (cl_pending s)) then (Err tt, s)
  else (Ok true, mkLedger ({[command_id]} ∪ cl_pending s) (cl_completed s) (cl_completed_order s)).

(** The loop that forgets the oldest completed commands. *)
Fixpoint forget_oldest (order : list string) (completed : gset string) : list string * gset string :=
  match order with
  | [] => ([], completed)
  | expired :: rest =>
    if MAX_COMPLETED_COMMANDS <? len order then forget_oldest rest (completed ∖ {[expired]})
    else (order, completed)
  end.

Definition ledger_complete (command_id : string) (s : CommandResultLedger) : CommandResultLedger :=
  if negb (bool_decide (command_id ∈ cl_pending s)) then s
  else
    let pending := cl_pending s ∖ {[command_id]} in
    let '(completed, order) :=
      if bool_decide (command_id ∈ cl_completed s) then (cl_completed s, cl_completed_order s)
      else ({[command_id]} ∪ cl_completed s, cl_completed_order s ++ [command_id]) in
    let '(order, completed) := forget_oldest order completed in
    mkLedger pending completed order.

(** What the worker reports for a command. *)
Inductive CommandReport := Dispatched | AlreadyCompleted | TooManyPending.

(** The worker over the commands it receives; with each, whether the result lane
    takes its report. A closed lane ends the worker. *)
Fixpoint run_command_worker (commands : list (string * bool)) (s : CommandResultLedger) :
    list (string * CommandReport) * CommandResultLedger :=
  match commands with
  | [] => ([], s)
  | (command_id, lane_open) :: commands =>
    match ledger_claim command_id s with
    | (Ok true, s) =>
      if lane_open then
        let '(reports, s) := run_command_worker commands (ledger_complete command_id s) in
        ((command_id, Dispatched) :: reports, s)
      else ([(command_id, Dispatched)], s)
    | (Ok false, s) =>
      if lane_open then
        let '(reports, s) := run_command_worker commands s in ((command_id, AlreadyCompleted) :: reports, s)
      else ([(command_id, AlreadyCompleted)], s)
    | (Err _, s) =>
      if lane_open then
        let '(reports, s) := run_command_worker commands s in ((command_id, TooManyPending) :: reports, s)
      else ([(command_id, TooManyPending)], s)
    end
  end.

(** ** Specification *)

(** The reports given by the identifiers dispatched so far, oldest first. *)
Fixpoint expected_reports (commands : list (string * bool)) (dispatched : list string) :
    list (string * CommandReport) :=
  match commands with
  | [] => []
  | (id, lane_open) :: commands =>
    let recent := drop (length dispatched - Z.to_nat MAX_COMPLETED_COMMANDS) dispatched in
    if bool_decide (id ∈ recent)
    then (id, AlreadyCompleted) :: (if lane_open then expected_reports commands dispatched else [])
    else (id, Dispatched) :: (if lane_open then expected_reports commands (dispatched ++ [id]) else [])
  end.

Record ledger_inv (dispatched : list string) (s : CommandResultLedger) : Prop := {
  lg_pending : cl_pending s = ∅;
  lg_order : cl_completed_order s = drop (length dispatched - Z.to_nat MAX_COMPLETED_COMMANDS) dispatched;
  lg_completed : cl_completed s = list_to_set (cl_completed_order s);
  lg_nodup : NoDup (cl_completed_order s);
}.

Lemma forget_oldest_short order completed :
  len order <= MAX_COMPLETED_COMMANDS -> forget_oldest order completed = (order, completed).
Proof.
  intros H. destruct order as [|x order]; [done|]. cbn [forget_oldest].
  by rewrite (proj2 (Z.ltb_ge _ _)).
Qed.

(** One command more than the bound forgets one. *)
Lemma forget_oldest_full x order completed :
  len order = MAX_COMPLETED_COMMANDS -> forget_oldest (x :: order) completed = (order, completed ∖ {[x]}).
Proof.
  intros H. cbn [forget_oldest]. rewrite (proj2 (Z.ltb_lt _ _)) by (rewrite len_cons; lia).
  apply forget_oldest_short. lia.
Qed.

Lemma completed_snoc (l : list string) x (m : nat) :
  drop (length (l ++ [x]) - m) (l ++ [x]) =
  (if decide (length l < m)%nat then l else drop (S (length l - m)) l) ++ (if decide (m = 0)%nat then [] else [x]).
Proof.
  rewrite length_app. cbn. destruct (decide (length l < m)%nat), (decide (m = 0)%nat); try lia.
  - by replace (length l + 1 - m)%nat with 0%nat by lia.
  - subst. rewrite !drop_ge; [done|rewrite ?length_app; cbn; lia..].
  - replace (length l + 1 - m)%nat with (S (length l - m)) by lia. rewrite drop_app_le by lia. done.
Qed.

Lemma ledger_claim_idle id dispatched s :
  ledger_inv dispatched s ->
  ledger_claim id s =
  if decide (id ∈ cl_completed_order s) then (Ok false, s)
  else (Ok true, mkLedger {[id]} (cl_completed s) (cl_completed_order s)).
Proof.
  intros [Hp _ Hc _]. unfold ledger_claim.
  rewrite Hp, Hc, (bool_decide_false (id ∈ ∅)) by set_solver. cbn.
  destruct (decide (id ∈ cl_completed_order s)) as [Hin|Hin].
  - by rewrite bool_decide_true by set_solver.
  - rewrite bool_decide_false by set_solver. rewrite size_empty. cbn. by rewrite (right_id_L ∅ (∪)).
Qed.

(** Forgetting keeps the last [MAX_COMPLETED_COMMANDS] identifiers and their set. *)
Lemma forget_oldest_recent (d : list string) id (order : list string) :
  order = drop (length d - Z.to_nat MAX_COMPLETED_COMMANDS) d -> NoDup (order ++ [id]) ->
  exists order',
    forget_oldest (order ++ [id]) ({[id]} ∪ list_to_set order) = (order', list_to_set order') /\
    order' = drop (length (d ++ [id]) - Z.to_nat MAX_COMPLETED_COMMANDS) (d ++ [id]) /\ NoDup order'.
Proof.
  intros Hord Hnd. rewrite completed_snoc.
  assert (Hm : (0 < Z.to_nat MAX_COMPLETED_COMMANDS)%nat) by (apply (Z2Nat.inj_lt 0 4096); done).
  set (m := Z.to_nat MAX_COMPLETED_COMMANDS) in *.
  assert (Hmz : Z.of_nat m = MAX_COMPLETED_COMMANDS) by (subst m; by rewrite Z2Nat.id).
  clearbody m. rewrite (decide_False (P := m = 0%nat)) by lia.
  assert (Hset : {[id]} ∪ list_to_set order = (list_to_set (order ++ [id]) : gset string))
    by (rewrite list_to_set_app_L; set_solver).
  rewrite Hset. destruct (decide (length d < m)%nat) as [Hlt|Hge].
  - replace (length d - m)%nat with 0%nat in Hord by lia. rewrite drop_0 in Hord. subst order.
    exists (d ++ [id]). rewrite forget_oldest_short; [done|]. unfold len. rewrite length_app. cbn. lia.
  - destruct order as [|x rest].
    { apply (f_equal length) in Hord. rewrite length_drop in Hord. cbn in Hord. lia. }
    assert (Hrest : rest = drop (S (length d - m)) d).
    { replace (S (length d - m)) with ((length d - m) + 1)%nat by lia. by rewrite <- drop_drop, <- Hord. }
    assert (Hlen : length (x :: rest) = m) by (rewrite Hord, length_drop; lia).
    exists (rest ++ [id]). cbn [app] in *. rewrite forget_oldest_full.
    + inversion Hnd as [|? ? Hni Hnd']; subst. split_and!; [|done..]. f_equal. set_solver.
    + unfold len. rewrite length_app. cbn in *. lia.
Qed.

Lemma ledger_complete_recent id dispatched s :
  ledger_inv dispatched s -> id ∉ cl_completed_order s ->
  ledger_inv (dispatched ++ [id])
    (ledger_complete id (mkLedger {[id]} (cl_completed s) (cl_completed_order s))).
Proof.
  intros [Hp Ho Hc Hnd] Hin. unfold ledger_complete. cbn [cl_pending cl_completed cl_completed_order].
  rewrite (bool_decide_true (id ∈ {[id]})) by set_solver. cbn [negb].
  rewrite Hc, bool_decide_false by set_solver.
  destruct (forget_oldest_recent dispatched id (cl_completed_order s)) as (order' & -> & Ho' & Hnd'); [done| |].
  { apply NoDup_app. split_and!; [done| |apply NoDup_singleton]. set_solver. }
  constructor; cbn; [set_solver|done..].
Qed.

Lemma worker_reports commands : forall dispatched s,
  ledger_inv dispatched s -> (run_command_worker commands s).1 = expected_reports commands dispatched.
Proof.
  induction commands as [|[id lane_open] commands IH]; intros d s Hinv; [done|].
  cbn [run_command_worker expected_reports]. rewrite (ledger_claim_idle id d s Hinv), <- (lg_order _ _ Hinv).
  destruct (decide (id ∈ cl_completed_order s)) as [Hin|Hin].
  - rewrite bool_decide_true by done. destruct lane_open; [|done]. specialize (IH d s Hinv).
    destruct (run_command_worker commands s). cbn in *. by rewrite IH.
  - rewrite bool_decide_false by done. destruct lane_open; [|done].
    specialize (IH _ _ (ledger_complete_recent id d s Hinv Hin)).
    destruct (run_command_worker commands _). cbn in *. by rewrite IH.
Qed.

(** The worker gives every command it receives one report, in order, until
    the result lane closes: a command is dispatched exactly when its identifier
    is not among the last [MAX_COMPLETED_COMMANDS] dispatched ones, any other is
    reported as a repetition, and the limit on pending results is never met. *)
Lemma worker_dispatches_once commands :
  (run_command_worker commands ledger_new).1 = expected_reports commands [].
Proof. apply worker_reports. constructor; cbn; [done|by rewrite drop_nil|done|constructor]. Qed.
