(* ===== verification/PeerSupervisor.v ===== *)
(** * The peer supervisor: one lifecycle owner per peer

    Models [network-core/src/connect/peer_supervisor.rs] and its modules
    [intents.rs], [lifecycle.rs], [attempts.rs], [resource.rs] and
    [registry.rs]: the requests waiting for a peer, the generations of its
    intents, its mailbox, its connectivity attempt and the registry that bounds
    the peers.  Each critical section of the source is a function
    ([..._section] where the source leaves it unnamed) and the operations
    compose them; [PeerSupervisorRuns.v] interleaves the sections.  A oneshot channel is a
    number, and [completions] records what each sender did: sent a result, or
    was dropped without one.  The sends that follow a section concern waiters
    it has removed from the map, which nothing else can reach, and are part of
    it. *)
From S2P Require Import Prelude Profile.

Definition PEER_MAILBOX_CAPACITY : Z := 32.
Definition MAX_PEER_WAITERS : Z := 64.
Definition MAX_PEER_RESOURCES : Z := 64.
Definition MAX_ACTIVE_PEERS : Z := 64.
Definition MAX_CONFIGURED_PEERS : Z := 256.

(** ** Identities and requirements *)

(** The scalar values of a UTF-8 string start at the bytes that are not
    continuation bytes, and the control characters are [00..1f], [7f] and the
    two-byte sequences [c2 80] to [c2 9f]. *)
Definition chars_count (l : bytes) : Z := len (filter (fun b => in_range 128 191 b = false) l).
Fixpoint any_control (l : bytes) : bool :=
  match l with
  | [] => false
  | b :: l' =>
    in_range 0 31 b || in_range 127 127 b
    || (in_range 194 194 b && match l' with c :: _ => in_range 128 159 c | [] => false end)
    || any_control l'
  end.

Definition peer_id_new (value : string) : result string CoreNetworkError :=
  let length := chars_count (str_bytes value) in
  if negb ((1 <=? length) && (length <=? 128)) || any_control (str_bytes value)
  then Err InvalidPeerId else Ok value.

Inductive PeerState := Offline | Connecting | Online.

#[export] Instance PeerState_eq_dec : EqDecision PeerState.
Proof. solve_decision. Defined.

Definition next_generation (generation : Z) : Z := saturating_add u64_max generation 1.

(** [PeerRequirement] is the mask it wraps. *)
Definition from_class (class : CommunicationClass) : Z :=
  match default_communication_class class with
  | ReliableStream | BulkTransfer => Z.lor CAPABILITY_RELIABLE_MESSAGE CAPABILITY_RELIABLE_STREAM
  | ReliableMessage => CAPABILITY_RELIABLE_MESSAGE
  | UnreliableDatagram => CAPABILITY_UNRELIABLE_DATAGRAM
  | RealtimeMedia | ClassUnspecified => DEFAULT_CONNECTION_CAPABILITY
  end.

Definition from_capability_mask (mask : Z) : Z :=
  Z.land mask (Z.lor (Z.lor CAPABILITY_RELIABLE_MESSAGE CAPABILITY_RELIABLE_STREAM)
                 CAPABILITY_UNRELIABLE_DATAGRAM).

Definition is_satisfied_by (requirement provided : Z) : bool := covers provided requirement.

Definition communication_class (requirement : Z) : CommunicationClass :=
  if negb (Z.land requirement CAPABILITY_RELIABLE_STREAM =? 0) then ReliableStream
  else if negb (Z.land requirement CAPABILITY_UNRELIABLE_DATAGRAM =? 0) then UnreliableDatagram
  else ReliableMessage.

(** ** State *)

Record PeerIntent := mkIntent {
  pi_generation : Z;
  pi_class : CommunicationClass;
  pi_required : Z;
  pi_command : string;
}.

Definition PeerCompletion : Type := result PeerState CoreNetworkError.

Record Waiter := mkWaiter {
  w_command : string;
  w_generation : Z;
  w_requirement : Z;
  w_sender : Z;
}.

Record PeerInner := mkInner {
  state : PeerState;
  generation : Z;
  active_requirement : option Z;
  ready_requirement : option Z;
  stopping : bool;
  waiters : gmap string Waiter;
  resources : Z;
  maintain_connection : bool;
  active_children : Z;
  retry_scheduled : bool;
  business_work : Z;
  configured : bool;
}.

Record ConnectionTask := mkTask {
  ct_generation : Z;
  ct_attempt : Z;
  ct_requirement : Z;
}.

(** [mailbox_rx]: the receiver is still in the supervisor; [mailbox_open]: it
    has not been dropped.  [aborted] lists the attempts whose task lease was
    aborted and [failed_events] the codes of the [Failed] events published. *)
Record PeerSupervisor := mkSupervisor {
  inner : PeerInner;
  mailbox : list PeerIntent;
  mailbox_rx : bool;
  mailbox_open : bool;
  mailbox_task : bool;
  connection_task : option ConnectionTask;
  next_resource_id : Z;
  next_attempt_id : Z;
  next_channel : Z;
  completions : list (Z * option PeerCompletion);
  aborted : list Z;
  failed_events : list Z;
}.

Definition supervisor_new : PeerSupervisor :=
  mkSupervisor
    (mkInner Offline 0 None None false ∅ 0 false 0 false 0 false)
    [] true true false None 1 1 1 [] [] [].

(** ** Field updates *)

Definition set_intent (st : PeerState) (g : Z) (active ready : option Z) (retry : bool)
    (i : PeerInner) : PeerInner :=
  mkInner st g active ready (stopping i) (waiters i) (resources i) (maintain_connection i)
    (active_children i) retry (business_work i) (configured i).
Definition set_waiters (m : gmap string Waiter) (i : PeerInner) : PeerInner :=
  mkInner (state i) (generation i) (active_requirement i) (ready_requirement i) (stopping i) m
    (resources i) (maintain_connection i) (active_children i) (retry_scheduled i)
    (business_work i) (configured i).
Definition set_flags (stop maintain conf : bool) (i : PeerInner) : PeerInner :=
  mkInner (state i) (generation i) (active_requirement i) (ready_requirement i) stop (waiters i)
    (resources i) maintain (active_children i) (retry_scheduled i) (business_work i) conf.
Definition set_counts (held children : Z) (i : PeerInner) : PeerInner :=
  mkInner (state i) (generation i) (active_requirement i) (ready_requirement i) (stopping i)
    (waiters i) held (maintain_connection i) children (retry_scheduled i) (business_work i)
    (configured i).

Definition set_inner (f : PeerInner -> PeerInner) (s : PeerSupervisor) : PeerSupervisor :=
  mkSupervisor (f (inner s)) (mailbox s) (mailbox_rx s) (mailbox_open s) (mailbox_task s)
    (connection_task s) (next_resource_id s) (next_attempt_id s) (next_channel s)
    (completions s) (aborted s) (failed_events s).
Definition set_mailbox (queue : list PeerIntent) (rx open task : bool) (s : PeerSupervisor) :
    PeerSupervisor :=
  mkSupervisor (inner s) queue rx open task (connection_task s) (next_resource_id s)
    (next_attempt_id s) (next_channel s) (completions s) (aborted s) (failed_events s).
Definition set_task (task : option ConnectionTask) (stopped : list Z) (s : PeerSupervisor) :
    PeerSupervisor :=
  mkSupervisor (inner s) (mailbox s) (mailbox_rx s) (mailbox_open s) (mailbox_task s) task
    (next_resource_id s) (next_attempt_id s) (next_channel s) (completions s)
    (stopped ++ aborted s) (failed_events s).
Definition set_ids (resource attempt channel : Z) (s : PeerSupervisor) : PeerSupervisor :=
  mkSupervisor (inner s) (mailbox s) (mailbox_rx s) (mailbox_open s) (mailbox_task s)
    (connection_task s) resource attempt channel (completions s) (aborted s) (failed_events s).

(** A send on oneshot channels ([Some result]), or the drop of their senders. *)
Definition finish_channels (result : option PeerCompletion) (channels : list Z)
    (s : PeerSupervisor) : PeerSupervisor :=
  mkSupervisor (inner s) (mailbox s) (mailbox_rx s) (mailbox_open s) (mailbox_task s)
    (connection_task s) (next_resource_id s) (next_attempt_id s) (next_channel s)
    (((fun c => (c, result)) <$> channels) ++ completions s) (aborted s) (failed_events s).
Definition emit_failed (code : Z) (s : PeerSupervisor) : PeerSupervisor :=
  mkSupervisor (inner s) (mailbox s) (mailbox_rx s) (mailbox_open s) (mailbox_task s)
    (connection_task s) (next_resource_id s) (next_attempt_id s) (next_channel s) (completions s)
    (aborted s) (code :: failed_events s).

(** ** Leases and children ([lifecycle.rs], [resource.rs]) *)

Definition acquire_resource (s : PeerSupervisor) : result Z CoreNetworkError * PeerSupervisor :=
  let i := inner s in
  if stopping i then (Err SupervisorStopping, s)
  else if MAX_PEER_RESOURCES <=? resources i then (Err (ResourceLimit "peer resources"), s)
  else
    (Ok (next_resource_id s),
     set_ids (next_resource_id s + 1) (next_attempt_id s) (next_channel s)
       (set_inner (fun i => set_counts (resources i + 1) (active_children i) i) s)).

(** Also what the drop of a [PeerResourceLease] does. *)
Definition release_resource (s : PeerSupervisor) : PeerSupervisor :=
  set_inner (fun i => set_counts (saturating_sub (resources i) 1) (active_children i) i) s.

Definition set_configured (conf : bool) (s : PeerSupervisor) : PeerSupervisor :=
  set_inner (fun i => set_flags (stopping i) (maintain_connection i) conf i) s.

Definition mark_child_started (s : PeerSupervisor) :
    result unit CoreNetworkError * PeerSupervisor :=
  if 1 <=? active_children (inner s) then (Err (ResourceLimit "peer establishment"), s)
  else (Ok tt, set_inner (fun i => set_counts (resources i) (active_children i + 1) i) s).

Definition mark_child_finished (s : PeerSupervisor) : PeerSupervisor :=
  set_inner (fun i => set_counts (resources i) (saturating_sub (active_children i) 1) i) s.

Definition can_evict (s : PeerSupervisor) : bool :=
  let i := inner s in
  bool_decide (state i = Offline) && negb (maintain_connection i)
  && bool_decide (waiters i = ∅) && (active_children i =? 0) && negb (retry_scheduled i)
  && (resources i =? 0) && (business_work i =? 0).

Definition is_current (g : Z) (s : PeerSupervisor) : bool :=
  negb (stopping (inner s)) && (generation (inner s) =? g).

(** ** The attempt's task *)

(** [cancel_connection_task] up to the release of the task lock: whether a task
    was taken and aborted. *)
Definition take_any_task (s : PeerSupervisor) : bool * PeerSupervisor :=
  match connection_task s with
  | Some t => (true, set_task None [ct_attempt t] s)
  | None => (false, s)
  end.

Definition cancel_connection_task (s : PeerSupervisor) : PeerSupervisor :=
  let '(taken, s) := take_any_task s in
  if taken then mark_child_finished s else s.

(** The same for [cancel_connection_task_for]. *)
Definition take_task_for (g : Z) (s : PeerSupervisor) : bool * PeerSupervisor :=
  match connection_task s with
  | Some t => if ct_generation t =? g then (true, set_task None [ct_attempt t] s) else (false, s)
  | None => (false, s)
  end.

Definition cancel_connection_task_for (g : Z) (s : PeerSupervisor) : PeerSupervisor :=
  let '(taken, s) := take_task_for g s in
  if taken then mark_child_finished s else s.

Definition take_connection_task (g attempt : Z) (s : PeerSupervisor) :
    option ConnectionTask * PeerSupervisor :=
  match connection_task s with
  | Some t =>
    if (ct_generation t =? g) && (ct_attempt t =? attempt) then (Some t, set_task None [] s)
    else (None, s)
  | None => (None, s)
  end.

(** Dropping a taken task drops its lease, which aborts it; the attempt that
    finishes drops its own, after its last await. *)
Definition drop_task (t : ConnectionTask) (s : PeerSupervisor) : PeerSupervisor :=
  set_task (connection_task s) [ct_attempt t] s.

Section Supervisor.
Context {HO : HashOrder string Waiter}.

Definition senders (m : gmap string Waiter) : list Z := (fun p => w_sender p.2) <$> hash_iter m.

(** ** Failing and invalidating a generation ([lifecycle.rs]) *)

(** Both end with no requirement, no retry and no waiter left. *)
Definition clear_intent (g : Z) (i : PeerInner) : PeerInner :=
  set_waiters ∅ (set_intent Offline g None None false i).

Definition fail_generation (g : Z) (error : CoreNetworkError) (s : PeerSupervisor) :
    PeerSupervisor :=
  if negb (generation (inner s) =? g) then s
  else
    let drained := senders (waiters (inner s)) in
    finish_channels (Some (Err error)) drained
      (set_inner (fun i => clear_intent (generation i) i) s).

(** [invalidate_generation] under the inner lock: the previous generation, or
    nothing when the supervisor was already stopping. *)
Definition invalidate_section (stop clear_maintenance : bool) (error : CoreNetworkError)
    (s : PeerSupervisor) : option Z * PeerSupervisor :=
  let i := inner s in
  if negb stop && stopping i then (None, s)
  else
    (Some (generation i),
     finish_channels (Some (Err error)) (senders (waiters i))
       (set_inner (fun i =>
          set_flags (stop || stopping i) (negb clear_maintenance && maintain_connection i)
            (configured i) (clear_intent (next_generation (generation i)) i)) s)).

Definition invalidate_generation (stop clear_maintenance : bool) (error : CoreNetworkError)
    (s : PeerSupervisor) : Z * PeerSupervisor :=
  let delivered := map_len (waiters (inner s)) in
  match invalidate_section stop clear_maintenance error s with
  | (None, s) => (0, s)
  | (Some previous, s) => (delivered, cancel_connection_task_for previous s)
  end.

Definition disconnect (s : PeerSupervisor) : Z * PeerSupervisor :=
  invalidate_generation false true CancelledError s.

Definition path_lost (s : PeerSupervisor) : PeerSupervisor :=
  (invalidate_generation false false CancelledError s).2.

(** Aborting the worker's task drops the receiver with it. *)
Definition cancel_mailbox_worker (s : PeerSupervisor) : PeerSupervisor :=
  if mailbox_task s then set_mailbox [] (mailbox_rx s) false false s else s.

Definition stop (s : PeerSupervisor) : Z * PeerSupervisor :=
  let '(delivered, s) := invalidate_generation true true SupervisorStopping s in
  (delivered, cancel_mailbox_worker s).

(** [authenticated] is false for a path that has not proved its peer. *)
Definition admit_inbound_with_capabilities (authenticated : bool) (capabilities : Z)
    (s : PeerSupervisor) : result PeerState CoreNetworkError * PeerSupervisor :=
  if negb authenticated then (Err CancelledError, s)
  else if stopping (inner s) then (Err SupervisorStopping, s)
  else
    let requirement := from_capability_mask capabilities in
    (Ok Online,
     set_inner (fun i => set_intent Online (generation i) (Some requirement) (Some requirement)
                           (retry_scheduled i) i) s).

(** ** Connect intents ([intents.rs]) *)

(** [mpsc::Sender::try_send]. *)
Definition try_send (intent : PeerIntent) (s : PeerSupervisor) :
    result unit CoreNetworkError * PeerSupervisor :=
  if negb (mailbox_open s) then (Err SupervisorStopping, s)
  else if PEER_MAILBOX_CAPACITY <=? len (mailbox s) then (Err MailboxFull, s)
  else (Ok tt, set_mailbox (mailbox s ++ [intent]) (mailbox_rx s) (mailbox_open s)
                 (mailbox_task s) s).

(** A refused intent fails its generation. *)
Definition send_intent (intent : PeerIntent) (s : PeerSupervisor) :
    result unit CoreNetworkError * PeerSupervisor :=
  match try_send intent s with
  | (Ok _, s) => (Ok tt, s)
  | (Err reason, s) => (Err reason, fail_generation (pi_generation intent) reason s)
  end.

Record Begun := mkBegun {
  b_generation : Z;
  b_is_new : bool;
  b_queue : bool;
  b_channel : Z;
}.

(** A request that a ready path already satisfies: its waiter is answered under
    the lock and never enters the map. *)
Definition answer_at_once (s : PeerSupervisor) : result Begun CoreNetworkError * PeerSupervisor :=
  (Ok (mkBegun (generation (inner s)) false false (next_channel s)),
   finish_channels (Some (Ok Online)) [next_channel s]
     (set_ids (next_resource_id s) (next_attempt_id s) (next_channel s + 1) s)).

(** The requirement and retry flag of the intent after a request joins it, and
    whether it queues an intent; outside [Connecting] a new generation starts. *)
Definition join_or_start (class : CommunicationClass) (i : PeerInner) : bool * bool * PeerInner :=
  let requirement := from_class class in
  if negb (bool_decide (state i = Connecting)) then
    (true, true,
     set_intent Connecting (next_generation (generation i)) (Some requirement) None true i)
  else
    let active := default (from_class class) (active_requirement i) in
    let combined := Z.lor active requirement in
    let changed := negb (combined =? active) in
    let queue := changed && negb (retry_scheduled i) in
    (false, queue,
     set_intent (state i) (generation i)
       (if changed then Some combined else active_requirement i) (ready_requirement i)
       (queue || retry_scheduled i) i).

(** [begin_connect_with_policy] under the inner lock. *)
Definition begin_section (command_id : string) (class : CommunicationClass) (maintain : bool)
    (s : PeerSupervisor) : result Begun CoreNetworkError * PeerSupervisor :=
  if stopping (inner s) then (Err SupervisorStopping, s)
  else
    let s := if maintain
             then set_inner (fun i => set_flags (stopping i) true (configured i) i) s else s in
    let i := inner s in
    let requirement := from_class class in
    if bool_decide (is_Some (waiters i !! command_id)) then (Err DuplicateCommand, s)
    else if MAX_PEER_WAITERS <=? map_len (waiters i) then (Err (ResourceLimit "peer waiters"), s)
    else if match ready_requirement i with
            | Some ready => is_satisfied_by requirement ready | None => false end
    then answer_at_once s
    else if bool_decide (state i = Online)
            && is_satisfied_by requirement
                 (default (from_class class)
                    (match ready_requirement i with Some r => Some r | None => active_requirement i end))
    then answer_at_once s
    else
      let '(is_new, queue, i') := join_or_start class i in
      let channel := next_channel s in
      let waiter := mkWaiter command_id (generation i') requirement channel in
      (Ok (mkBegun (generation i') is_new queue channel),
       set_inner (fun _ => set_waiters (<[command_id := waiter]> (waiters i')) i')
         (set_ids (next_resource_id s) (next_attempt_id s) (channel + 1) s)).

(** The intent built under the second lock, from the requirement found there. *)
Definition queued_intent (g requirement : Z) (command_id : string) (s : PeerSupervisor) :
    PeerIntent :=
  let active := default requirement (active_requirement (inner s)) in
  mkIntent g (communication_class active) active command_id.

Definition begin_connect_with_policy (command_id : string) (class : CommunicationClass)
    (maintain : bool) (s : PeerSupervisor) : result Begun CoreNetworkError * PeerSupervisor :=
  if str_is_empty command_id || (128 <? slen command_id) then (Err InvalidCommandId, s)
  else
    match begin_section command_id class maintain s with
    | (Err e, s) => (Err e, s)
    | (Ok begun, s) =>
      if b_queue begun then
        match send_intent (queued_intent (b_generation begun) (from_class class) command_id s) s with
        | (Ok _, s) => (Ok begun, s)
        | (Err reason, s) => (Err reason, s)
        end
      else (Ok begun, s)
    end.

(** [complete_ready] under the lock, with the results it delivers: how many
    waiters were answered, and the intent to queue again. *)
Definition complete_section (g ready : Z) (outcome : PeerCompletion) (s : PeerSupervisor) :
    result (Z * option PeerIntent) CoreNetworkError * PeerSupervisor :=
  let i := inner s in
  if stopping i || negb (generation i =? g) then (Err StaleIntent, s)
  else
    match outcome with
    | Err _ =>
      let mine := filter (fun p => w_generation p.2 = g) (waiters i) in
      let others := filter (fun p => w_generation p.2 ≠ g) (waiters i) in
      (Ok (map_len mine, None),
       finish_channels (Some outcome) (senders mine)
         (finish_channels None (senders others)
            (set_inner (fun i => clear_intent (generation i) i) s)))
    | Ok st =>
      let answered := filter (fun p => w_generation p.2 = g /\ is_satisfied_by (w_requirement p.2) ready = true)
                        (waiters i) in
      let pending := filter (fun p => ~ (w_generation p.2 = g /\ is_satisfied_by (w_requirement p.2) ready = true))
                       (waiters i) in
      if existsb (fun p => w_generation p.2 =? g) (hash_iter pending) then
        let retry := default ready (active_requirement i) in
        let intent :=
          mkIntent g (communication_class retry) retry
            (match hash_iter pending with (_, w) :: _ => w_command w | [] => EmptyString end) in
        (Ok (map_len answered, if retry_scheduled i then None else Some intent),
         finish_channels (Some outcome) (senders answered)
           (set_inner (fun i =>
              set_waiters pending
                (set_intent Connecting (generation i) (active_requirement i) (Some ready) true i)) s))
      else
        (Ok (map_len answered, None),
         finish_channels (Some outcome) (senders answered)
           (set_inner (fun i =>
              set_waiters pending
                (set_intent st (generation i) (Some ready) (Some ready) false i)) s))
    end.

Definition complete_ready (g ready : Z) (outcome : PeerCompletion) (s : PeerSupervisor) :
    result Z CoreNetworkError * PeerSupervisor :=
  match complete_section g ready outcome s with
  | (Err e, s) => (Err e, s)
  | (Ok (delivered, None), s) => (Ok delivered, s)
  | (Ok (delivered, Some intent), s) =>
    match send_intent intent s with
    | (Ok _, s) => (Ok delivered, s)
    | (Err reason, s) => (Err reason, s)
    end
  end.

Definition complete (g : Z) (outcome : PeerCompletion) (s : PeerSupervisor) :
    result Z CoreNetworkError * PeerSupervisor :=
  complete_ready g (default (from_class ReliableMessage) (active_requirement (inner s))) outcome s.

(** ** Attempts ([attempts.rs]) *)

(** [accepted]: the task supervisor spawned the worker.  A refused future is
    dropped with the receiver it captured. *)
Definition start_mailbox_worker (accepted : bool) (s : PeerSupervisor) :
    result unit CoreNetworkError * PeerSupervisor :=
  if mailbox_task s then (Ok tt, s)
  else if negb (mailbox_rx s) then (Err SupervisorStopping, s)
  else if accepted then (Ok tt, set_mailbox (mailbox s) false (mailbox_open s) true s)
  else (Err SupervisorStopping, set_mailbox [] false false false s).

(** [maintain] is true in [start_connect] and false in [start_business]. *)
Definition start_request (accepted maintain : bool) (command_id : string)
    (class : CommunicationClass) (s : PeerSupervisor) :
    result Begun CoreNetworkError * PeerSupervisor :=
  match start_mailbox_worker accepted s with
  | (Err e, s) => (Err e, s)
  | (Ok _, s) => begin_connect_with_policy command_id class maintain s
  end.

(** [start_attempt] under the inner lock: the requirement of the attempt. *)
Definition attempt_section (intent : PeerIntent) (s : PeerSupervisor) : option Z * PeerSupervisor :=
  let i := inner s in
  if stopping i || negb (generation i =? pi_generation intent) then (None, s)
  else
    (Some (default (from_capability_mask (pi_required intent)) (active_requirement i)),
     set_inner (fun i => set_intent (state i) (generation i) (active_requirement i)
                           (ready_requirement i) false i) s).

Definition complete_attempt_without_task (g : Z) (outcome : PeerCompletion) (child_started : bool)
    (s : PeerSupervisor) : PeerSupervisor :=
  let s := if child_started then mark_child_finished s else s in
  (complete g outcome s).2.

(** [accepted]: the task supervisor spawned the attempt, which is then the
    identity returned. *)
Definition start_attempt (accepted : bool) (intent : PeerIntent) (s : PeerSupervisor) :
    option Z * PeerSupervisor :=
  if negb (is_current (pi_generation intent) s) then (None, s)
  else
    match attempt_section intent s with
    | (None, s) => (None, s)
    | (Some requirement, s) =>
      let s := cancel_connection_task s in
      match mark_child_started s with
      | (Err error, s) =>
        (None, complete_attempt_without_task (pi_generation intent) (Err error) false s)
      | (Ok _, s) =>
        let attempt := next_attempt_id s in
        let s := set_ids (next_resource_id s) (attempt + 1) (next_channel s) s in
        if negb accepted then
          (None, complete_attempt_without_task (pi_generation intent) (Err SupervisorStopping) true s)
        else
          let s := set_task (Some (mkTask (pi_generation intent) attempt requirement))
                     (match connection_task s with Some t => [ct_attempt t] | None => [] end) s in
          (Some attempt,
           if is_current (pi_generation intent) s then s
           else cancel_connection_task_for (pi_generation intent) s)
      end
    end.

(** [NoRoute], [PeerOffline] and [PeerNotReady] by their wire numbers. *)
Definition core_error_for_attempt (code : Z) : CoreNetworkError :=
  if (code =? 3) || (code =? 5) || (code =? 17) then NoRouteError else CancelledError.

Definition attempt_completion (outcome : result unit Z) : PeerCompletion :=
  match outcome with Ok _ => Ok Online | Err code => Err (core_error_for_attempt code) end.

(** The last step of [finish_attempt]: a failure is published once its
    generation was completed. *)
Definition publish_failure (outcome : result unit Z) (completed : bool) (s : PeerSupervisor) :
    PeerSupervisor :=
  match outcome with
  | Err code => if completed then emit_failed code s else s
  | Ok _ => s
  end.

(** [outcome] is the attempt's answer: nothing, or the code of its error. *)
Definition finish_attempt (g attempt : Z) (outcome : result unit Z) (s : PeerSupervisor) :
    PeerSupervisor :=
  match take_connection_task g attempt s with
  | (None, s) => s
  | (Some t, s) =>
    let s := drop_task t s in
    let '(r, s) := complete_ready g (ct_requirement t) (attempt_completion outcome)
                     (mark_child_finished s) in
    publish_failure outcome (is_ok r) s
  end.

End Supervisor.
