(* ===== verification/PeerSupervisorRuns.v ===== *)
(** * Interleaved runs of a peer supervisor

    The callers, the mailbox worker and the attempts of one supervisor
    ([connect/peer_supervisor/attempts.rs], [intents.rs], [lifecycle.rs]) run on
    several threads and meet only in its locks.  A [World] is the supervisor
    with the point each thread has reached between two critical sections, and an
    [Action] lets one of them perform its next section.  [gated] restricts the
    runs to those in which a spawned attempt finishes only after the worker has
    stored its task; the source does not enforce this, and what the ungated
    runs lose is shown at the end. *)
From S2P Require Import Prelude Profile PeerSupervisor.

(** ** Threads *)

(** What a caller, an attempt or a lifecycle event still has to do. *)
Inductive Thread :=
| TSend (g requirement : Z) (command_id : string)
| TRetry (intent : PeerIntent)
| TFail (g : Z) (reason : CoreNetworkError)
| TCancel (g : Z)
| TMark
| TStopWorker
| TFinishMark (g ready : Z) (outcome : result unit Z)
| TFinishComplete (g ready : Z) (outcome : result unit Z).

(** Where the mailbox worker stands in [start_attempt]. *)
Inductive WorkerPc :=
| WIdle
| WGot (intent : PeerIntent)
| WLock (intent : PeerIntent)
| WCancel (g requirement : Z)
| WCancelMark (g requirement : Z)
| WChild (g requirement : Z)
| WSpawn (g requirement : Z)
| WFailMark (g : Z) (reason : CoreNetworkError)
| WFail (g : Z) (reason : CoreNetworkError)
| WInstall (g attempt requirement : Z)
| WCheck (g : Z)
| WCheckCancel (g : Z)
| WCheckMark.

(** [running] lists the attempts whose task has been spawned and has neither
    called [finish_attempt] nor been destroyed. *)
Record World := mkWorld {
  sup : PeerSupervisor;
  worker : WorkerPc;
  threads : list Thread;
  running : list (Z * Z);
}.

Definition world_new : World := mkWorld supervisor_new WIdle [] [].

Inductive Loss := Disconnected | Stopped | PathLost.

Inductive Action :=
| AStartWorker (accepted : bool)
| ABegin (command_id : string) (class : CommunicationClass) (maintain : bool)
| AInvalidate (loss : Loss)
| AAdmit (capabilities : Z)
| AAcquire
| ARelease
| AConfigure (conf : bool)
| ARecv
| AWork (accepted : bool)
| AThread (n : nat)
| AFinish (n : nat) (outcome : result unit Z)
| AKill (n : nat)
| ACloseMailbox.

Section Runs.
Context {HO : HashOrder string Waiter}.

Definition invalidate (loss : Loss) (s : PeerSupervisor) : option Z * PeerSupervisor :=
  match loss with
  | Disconnected => invalidate_section false true CancelledError s
  | Stopped => invalidate_section true true SupervisorStopping s
  | PathLost => invalidate_section false false CancelledError s
  end.

Definition try_or_fail (intent : PeerIntent) (s : PeerSupervisor) : list Thread * PeerSupervisor :=
  match try_send intent s with
  | (Ok _, s) => ([], s)
  | (Err reason, s) => ([TFail (pi_generation intent) reason], s)
  end.

(** The next section of a thread, and the thread it leaves. *)
Definition thread_step (t : Thread) (s : PeerSupervisor) : list Thread * PeerSupervisor :=
  match t with
  | TSend g requirement command_id => try_or_fail (queued_intent g requirement command_id s) s
  | TRetry intent => try_or_fail intent s
  | TFail g reason => ([], fail_generation g reason s)
  | TCancel g =>
    let '(taken, s) := take_task_for g s in (if taken then [TMark] else [], s)
  | TMark => ([], mark_child_finished s)
  | TStopWorker => ([], set_mailbox (mailbox s) (mailbox_rx s) (mailbox_open s) false s)
  | TFinishMark g ready outcome => ([TFinishComplete g ready outcome], mark_child_finished s)
  | TFinishComplete g ready outcome =>
    let '(r, s) := complete_section g ready (attempt_completion outcome) s in
    (match r with Ok (_, Some intent) => [TRetry intent] | _ => [] end,
     publish_failure outcome (is_ok r) s)
  end.

(** The next section of the worker; the attempt it spawns, if any. *)
Definition worker_step (accepted : bool) (pc : WorkerPc) (s : PeerSupervisor) :
    option (WorkerPc * list (Z * Z) * PeerSupervisor) :=
  match pc with
  | WIdle => None
  | WGot intent =>
    Some (if is_current (pi_generation intent) s then WLock intent else WIdle, [], s)
  | WLock intent =>
    match attempt_section intent s with
    | (None, s) => Some (WIdle, [], s)
    | (Some requirement, s) => Some (WCancel (pi_generation intent) requirement, [], s)
    end
  | WCancel g requirement =>
    let '(taken, s) := take_any_task s in
    Some (if taken then WCancelMark g requirement else WChild g requirement, [], s)
  | WCancelMark g requirement => Some (WChild g requirement, [], mark_child_finished s)
  | WChild g requirement =>
    match mark_child_started s with
    | (Err reason, s) => Some (WFail g reason, [], s)
    | (Ok _, s) => Some (WSpawn g requirement, [], s)
    end
  | WSpawn g requirement =>
    let attempt := next_attempt_id s in
    let s := set_ids (next_resource_id s) (attempt + 1) (next_channel s) s in
    Some (if accepted then (WInstall g attempt requirement, [(g, attempt)], s)
          else (WFailMark g SupervisorStopping, [], s))
  | WFailMark g reason => Some (WFail g reason, [], mark_child_finished s)
  | WFail g reason => Some (WIdle, [], (complete g (Err reason) s).2)
  | WInstall g attempt requirement =>
    Some (WCheck g, [],
          set_task (Some (mkTask g attempt requirement))
            (match connection_task s with Some t => [ct_attempt t] | None => [] end) s)
  | WCheck g => Some (if is_current g s then WIdle else WCheckCancel g, [], s)
  | WCheckCancel g =>
    let '(taken, s) := take_task_for g s in Some (if taken then WCheckMark else WIdle, [], s)
  | WCheckMark => Some (WIdle, [], mark_child_finished s)
  end.

Definition replace_nth (n : nat) (new l : list Thread) : list Thread :=
  take n l ++ new ++ drop (S n) l.

Definition installing (attempt : Z) (pc : WorkerPc) : bool :=
  match pc with WInstall _ a _ => a =? attempt | _ => false end.

Definition step (gated : bool) (a : Action) (w : World) : option World :=
  let s := sup w in
  let on_sup s := mkWorld s (worker w) (threads w) (running w) in
  match a with
  | AStartWorker accepted => Some (on_sup (start_mailbox_worker accepted s).2)
  | ABegin command_id class maintain =>
    if negb (mailbox_task s) || str_is_empty command_id || (128 <? slen command_id) then None
    else
      let '(r, s) := begin_section command_id class maintain s in
      Some (mkWorld s (worker w)
              (threads w ++
                 match r with
                 | Ok b => if b_queue b then [TSend (b_generation b) (from_class class) command_id] else []
                 | Err _ => []
                 end) (running w))
  | AInvalidate loss =>
    let '(previous, s) := invalidate loss s in
    Some (mkWorld s (worker w)
            (threads w ++
               match previous with
               | Some g => TCancel g :: match loss with Stopped => [TStopWorker] | _ => [] end
               | None => []
               end) (running w))
  | AAdmit capabilities => Some (on_sup (admit_inbound_with_capabilities true capabilities s).2)
  | AAcquire => Some (on_sup (acquire_resource s).2)
  | ARelease => Some (on_sup (release_resource s))
  | AConfigure conf => Some (on_sup (set_configured conf s))
  | ARecv =>
    match worker w, mailbox s with
    | WIdle, intent :: queue =>
      if negb (mailbox_rx s) && mailbox_open s then
        Some (mkWorld (set_mailbox queue (mailbox_rx s) (mailbox_open s) (mailbox_task s) s)
                (WGot intent) (threads w) (running w))
      else None
    | _, _ => None
    end
  | AWork accepted =>
    match worker_step accepted (worker w) s with
    | Some (pc, spawned, s) => Some (mkWorld s pc (threads w) (spawned ++ running w))
    | None => None
    end
  | AThread n =>
    match threads w !! n with
    | Some t =>
      let '(new, s) := thread_step t s in
      Some (mkWorld s (worker w) (replace_nth n new (threads w)) (running w))
    | None => None
    end
  | AFinish n outcome =>
    match running w !! n with
    | Some (g, attempt) =>
      if gated && installing attempt (worker w) then None
      else
        let rest := take n (running w) ++ drop (S n) (running w) in
        match take_connection_task g attempt s with
        | (Some t, s) =>
          Some (mkWorld (drop_task t s) (worker w)
                  (threads w ++ [TFinishMark g (ct_requirement t) outcome]) rest)
        | (None, s) => Some (mkWorld s (worker w) (threads w) rest)
        end
    | None => None
    end
  | AKill n =>
    match running w !! n with
    | Some (_, attempt) =>
      if bool_decide (attempt ∈ aborted s)
      then Some (mkWorld s (worker w) (threads w) (take n (running w) ++ drop (S n) (running w)))
      else None
    | None => None
    end
  | ACloseMailbox =>
    match worker w with
    | WIdle =>
      if stopping (inner s) && negb (mailbox_rx s) && negb (mailbox_task s)
      then Some (on_sup (set_mailbox [] (mailbox_rx s) false false s))
      else None
    | _ => None
    end
  end.

Fixpoint run (gated : bool) (l : list Action) (w : World) : option World :=
  match l with
  | [] => Some w
  | a :: l' => match step gated a w with Some w' => run gated l' w' | None => None end
  end.

(** Nothing is left to run: no thread between two sections, no intent queued,
    no attempt alive. *)
Definition quiescent (w : World) : bool :=
  match worker w, threads w, running w, mailbox (sup w) with
  | WIdle, [], [], [] => true
  | _, _, _, _ => false
  end.

End Runs.
