(* ===== verification/PeerSupervisorProofs.v ===== *)
(** * What the interleavings of a peer supervisor preserve

    The invariant of [PeerSupervisorRuns.v]: every oneshot channel is answered
    at most once, the queues and counters are bounded, at most one attempt is
    in charge; that no request of the current generation is left without a
    thread that will answer it; and the runs in which requests are lost. *)
From S2P Require Import Prelude Profile PeerSupervisor PeerSupervisorRuns.

Section Proofs.
Context {HO : HashOrder string Waiter}.

(** ** Channels

    [Chan g nc m cs]: the waiters [m] belong to generations up to [g], each
    under its own command and with a channel of its own below [nc] that is not
    among the finished channels [cs]. *)
Definition Chan (g nc : Z) (m : gmap string Waiter) (cs : list Z) : Prop :=
  (forall c x, m !! c = Some x ->
     w_command x = c /\ w_generation x <= g /\ w_sender x < nc /\ w_sender x ∉ cs)
  /\ (forall c d x y, m !! c = Some x -> m !! d = Some y -> w_sender x = w_sender y -> c = d)
  /\ NoDup cs
  /\ (forall ch, ch ∈ cs -> ch < nc).

Lemma elem_of_senders ch m :
  ch ∈ senders m <-> exists c x, m !! c = Some x /\ w_sender x = ch.
Proof.
  unfold senders. rewrite list_elem_of_fmap. split.
  - intros ([c x] & -> & H). exists c, x. by rewrite <- elem_of_hash_iter.
  - intros (c & x & H & <-). exists (c, x). by rewrite elem_of_hash_iter.
Qed.

Lemma Chan_sub g nc m m' cs : m' ⊆ m -> Chan g nc m cs -> Chan g nc m' cs.
Proof.
  intros Hs (Hw & Hi & Hn & Hc). split_and!; try done.
  - intros c x H. apply Hw. eapply lookup_weaken; eauto.
  - intros c d x y H1 H2. apply Hi; eapply lookup_weaken; eauto.
Qed.

Lemma NoDup_senders g nc m cs : Chan g nc m cs -> NoDup (senders m).
Proof.
  intros (_ & Hi & _). unfold senders. apply NoDup_fmap_2_strong; [|apply NoDup_hash_iter].
  intros [c x] [d y] H1%elem_of_hash_iter H2%elem_of_hash_iter E. cbn in E.
  assert (c = d) as -> by (by eapply Hi). congruence.
Qed.

Lemma Chan_finish g nc m done m' cs :
  Chan g nc m cs -> done ⊆ m -> m' ⊆ m -> done ##ₘ m' -> Chan g nc m' (senders done ++ cs).
Proof.
  intros H Hd Hm Hx. pose proof (NoDup_senders _ _ _ _ (Chan_sub _ _ _ _ _ Hd H)) as Hnd.
  destruct H as (Hw & Hi & Hn & Hc). split_and!.
  - intros c x Hx1. pose proof (lookup_weaken _ _ _ _ Hx1 Hm) as Hx2.
    destruct (Hw c x Hx2) as (? & ? & ? & Hcs). split_and!; try done.
    rewrite elem_of_app, elem_of_senders. intros [(d & y & Hy & E)|]; [|done].
    assert (d = c) as -> by (eapply Hi; [eapply lookup_weaken|..]; eauto).
    by eapply map_disjoint_spec in Hx; [|exact Hy|exact Hx1].
  - intros c d x y H1 H2. apply Hi; eapply lookup_weaken; eauto.
  - apply NoDup_app. split_and!; try done. intros ch (c & x & H1 & <-)%elem_of_senders.
    by apply (Hw c x), (lookup_weaken _ _ _ _ H1 Hd).
  - intros ch [(c & x & H1 & <-)%elem_of_senders|]%elem_of_app; [|by apply Hc].
    by apply (Hw c x), (lookup_weaken _ _ _ _ H1 Hd).
Qed.

Lemma Chan_drain g nc m cs : Chan g nc m cs -> Chan g nc ∅ (senders m ++ cs).
Proof.
  intros H. apply (Chan_finish g nc m m); [done|done|apply map_empty_subseteq|].
  apply map_disjoint_empty_r.
Qed.

Lemma Chan_mono g g' nc m cs : g <= g' -> Chan g nc m cs -> Chan g' nc m cs.
Proof.
  intros Hg (Hw & Hi & Hn & Hc). split_and!; try done.
  intros c x H. destruct (Hw c x H) as (? & ? & ? & ?). split_and!; try done; lia.
Qed.

Lemma Chan_insert g nc m cs c r :
  Chan g nc m cs -> m !! c = None -> Chan g (nc + 1) (<[c := mkWaiter c g r nc]> m) cs.
Proof.
  intros (Hw & Hi & Hn & Hc) Hnone. split_and!; try done.
  - intros d x [[<- <-]|[Hne H]]%lookup_insert_Some; cbn.
    + split_and!; try done; try lia. intros ?%Hc. lia.
    + destruct (Hw d x H) as (? & ? & ? & ?). split_and!; try done; lia.
  - intros d e x y [[<- <-]|[Hd H1]]%lookup_insert_Some [[<- <-]|[He H2]]%lookup_insert_Some;
      cbn; intros E; try done; [destruct (Hw e y H2)|destruct (Hw d x H1)|]; try lia; eauto.
  - intros ch H. specialize (Hc ch H). lia.
Qed.

Lemma Chan_answer g nc m cs : Chan g nc m cs -> Chan g (nc + 1) m (nc :: cs).
Proof.
  intros (Hw & Hi & Hn & Hc). split_and!; try done.
  - intros c x H. destruct (Hw c x H) as (? & ? & ? & ?). split_and!; try done; try lia.
    intros [E|?]%elem_of_cons; [lia|done].
  - constructor; [|done]. intros ?%Hc. lia.
  - intros ch [->|H]%elem_of_cons; [lia|]. specialize (Hc ch H). lia.
Qed.

(** ** The supervisor's own invariant *)

Definition SupOk (s : PeerSupervisor) : Prop :=
  Chan (generation (inner s)) (next_channel s) (waiters (inner s)) (completions s).*1
  /\ map_len (waiters (inner s)) <= MAX_PEER_WAITERS
  /\ len (mailbox s) <= PEER_MAILBOX_CAPACITY
  /\ 0 <= resources (inner s) <= MAX_PEER_RESOURCES
  /\ 0 <= generation (inner s) <= u64_max.

(** The sections that touch what [SupOk] speaks of; every other part of a step
    leaves it alone. *)
Definition same_core (s s' : PeerSupervisor) : Prop :=
  generation (inner s') = generation (inner s) /\ next_channel s' = next_channel s
  /\ waiters (inner s') = waiters (inner s) /\ completions s' = completions s
  /\ resources (inner s') = resources (inner s)
  /\ len (mailbox s') <= len (mailbox s).

Lemma same_core_ok s s' : same_core s s' -> SupOk s -> SupOk s'.
Proof.
  intros (E1 & E2 & E3 & E4 & E5 & E6) H. unfold SupOk. rewrite E1, E2, E3, E4, E5.
  destruct H as (? & ? & ? & ? & ?). split_and!; try done; lia.
Qed.

Lemma next_generation_bounds g : 0 <= g <= u64_max -> g <= next_generation g <= u64_max.
Proof. unfold next_generation, saturating_add. lia. Qed.

Lemma fmap_finished (r : option PeerCompletion) (l : list Z) cs :
  (((fun c => (c, r)) <$> l) ++ cs).*1 = l ++ cs.*1.
Proof. rewrite fmap_app, <- list_fmap_compose. f_equal. induction l; [done|]. cbn. by f_equal. Qed.

Lemma map_len_filter `{forall x, Decision (P x)} (m : gmap string Waiter) :
  map_len (filter P m) <= map_len m.
Proof. unfold map_len. pose proof (map_size_filter P m). lia. Qed.

Lemma begin_ok c class maintain s : SupOk s -> SupOk (begin_section c class maintain s).2.
Proof.
  intros H. unfold begin_section. case_match; [done|].
  set (s1 := if maintain then _ else s).
  assert (H1 : SupOk s1) by (subst s1; destruct maintain; [apply (same_core_ok s)|]; done).
  clearbody s1. case_bool_decide as Hd; [done|]. case_match eqn:Hl; [done|].
  destruct H1 as (Hc & Hm & Hb & Hr & Hg). bool_facts.
  assert (HA : SupOk (answer_at_once s1).2)
    by (unfold SupOk; cbn; split_and!; try done; lia || by apply Chan_answer).
  do 2 match goal with |- context [if ?b then answer_at_once _ else _] => destruct b; [done|] end.
  apply eq_None_not_Some in Hd. destruct (join_or_start class (inner s1)) as [[n q] i'] eqn:Hj.
  assert (Hi : waiters i' = waiters (inner s1) /\ resources i' = resources (inner s1)
               /\ generation (inner s1) <= generation i' <= u64_max).
  { unfold join_or_start in Hj. pose proof (next_generation_bounds _ Hg).
    case_match; simplify_eq; cbn; split_and!; try done; lia. }
  destruct Hi as (Ew & Er & Hge). unfold SupOk. cbn. rewrite Ew, Er. split_and!; try done; try lia.
  - apply Chan_insert; [|done]. apply (Chan_mono (generation (inner s1))); [lia|done].
  - unfold map_len in *. rewrite map_size_insert_None by done. lia.
Qed.

Lemma clear_ok g r s :
  generation (inner s) <= g <= u64_max -> SupOk s ->
  SupOk (finish_channels r (senders (waiters (inner s))) (set_inner (clear_intent g) s)).
Proof.
  intros Hg (Hc & Hm & Hb & Hr & Hg0). unfold SupOk. cbn. rewrite fmap_finished, map_len_empty.
  split_and!; try done; try lia. apply Chan_drain. apply (Chan_mono (generation (inner s))); [lia|done].
Qed.

Lemma fail_ok g e s : SupOk s -> SupOk (fail_generation g e s).
Proof.
  intros H. unfold fail_generation. case_match; [done|].
  apply (clear_ok (generation (inner s))); [|done]. destruct H as (_ & _ & _ & _ & ?). lia.
Qed.

Lemma invalidate_section_ok st cl e s : SupOk s -> SupOk (invalidate_section st cl e s).2.
Proof.
  intros H. unfold invalidate_section. case_match; [done|].
  eapply same_core_ok; [|apply (clear_ok (next_generation (generation (inner s))) (Some (Err e)) s)];
    [done|apply next_generation_bounds, H|done].
Qed.

Lemma complete_section_ok g ready r s : SupOk s -> SupOk (complete_section g ready r s).2.
Proof.
  intros H. unfold complete_section. case_match; [done|]. destruct H as (Hc & Hm & Hb & Hr & Hg).
  destruct r as [st|e].
  - set (P := fun p : string * Waiter => _ /\ _).
    assert (HF : Chan (generation (inner s)) (next_channel s)
                   (filter (fun p => ~ P p) (waiters (inner s)))
                   (senders (filter P (waiters (inner s))) ++ (completions s).*1)).
    { apply (Chan_finish _ _ (waiters (inner s))); try done; try apply map_filter_subseteq.
      apply map_disjoint_filter_complement. }
    case_match; unfold SupOk; cbn; rewrite fmap_finished; split_and!; try done; try lia;
      (etrans; [apply map_len_filter|done]).
  - unfold SupOk. cbn. rewrite !fmap_finished, map_len_empty. split_and!; try done; try lia.
    set (P := fun p : string * Waiter => w_generation p.2 = g).
    apply Chan_drain. apply (Chan_finish _ _ (waiters (inner s))); try done;
      try apply map_filter_subseteq.
    apply symmetry, map_disjoint_filter_complement.
Qed.

Lemma try_send_ok i s : SupOk s -> SupOk (try_send i s).2.
Proof.
  intros H. unfold try_send. repeat case_match; try done. destruct H as (Hc & Hm & Hb & Hr & Hg).
  unfold SupOk, len in *. cbn. rewrite length_app. cbn. bool_facts.
  unfold PEER_MAILBOX_CAPACITY in *. split_and!; try done; lia.
Qed.

Lemma resource_ok s : SupOk s -> SupOk (acquire_resource s).2 /\ SupOk (release_resource s).
Proof.
  intros (Hc & Hm & Hb & Hr & Hg). unfold acquire_resource, release_resource, SupOk, saturating_sub.
  unfold MAX_PEER_RESOURCES in *.
  split; repeat case_match; bool_facts; cbn; split_and!; try done; lia.
Qed.

Lemma complete_err_section g e s :
  (complete g (Err e) s).2
  = (complete_section g (default (from_class ReliableMessage) (active_requirement (inner s))) (Err e) s).2.
Proof.
  unfold complete, complete_ready, complete_section.
  by destruct (stopping (inner s) || negb (generation (inner s) =? g)).
Qed.

Ltac unfold_small :=
  unfold start_mailbox_worker, admit_inbound_with_capabilities, set_configured, mark_child_started,
    mark_child_finished, take_any_task, take_task_for, take_connection_task, drop_task,
    attempt_section, publish_failure, emit_failed, set_task.

Ltac same_core_tac :=
  apply same_core_ok; unfold_small; repeat case_match; simplify_eq; unfold same_core; cbn; split_and!; try done;
  try (unfold len; cbn; lia).

Lemma publish_failure_ok r b s : SupOk s -> SupOk (publish_failure r b s).
Proof. same_core_tac. Qed.

Lemma thread_step_ok t s : SupOk s -> SupOk (thread_step t s).2.
Proof.
  intros H. destruct t; cbn.
  - unfold try_or_fail. pose proof (try_send_ok (queued_intent g requirement command_id s) s H).
    by destruct (try_send _ _) as [[?|?] ?].
  - unfold try_or_fail. pose proof (try_send_ok intent s H). by destruct (try_send _ _) as [[?|?] ?].
  - by apply fail_ok.
  - revert H. same_core_tac.
  - revert H. same_core_tac.
  - revert H. same_core_tac.
  - revert H. same_core_tac.
  - pose proof (complete_section_ok g ready (attempt_completion outcome) s H).
    destruct (complete_section _ _ _ _) as [r s']. by apply publish_failure_ok.
Qed.

Lemma worker_step_ok b pc s pc' l s' :
  worker_step b pc s = Some (pc', l, s') -> SupOk s -> SupOk s'.
Proof.
  destruct pc; cbn; intros E H.
  9: { simplify_eq. rewrite complete_err_section. by apply complete_section_ok. }
  all: revert E H; unfold_small; repeat case_match; intros; simplify_eq; try done;
    (eapply same_core_ok; [|eassumption]); unfold same_core; cbn; split_and!; done.
Qed.

Lemma step_sup_ok gated a w w' : step gated a w = Some w' -> SupOk (sup w) -> SupOk (sup w').
Proof.
  intros E H. destruct a; cbn in E.
  - simplify_eq. cbn. revert H. same_core_tac.
  - case_match; [done|]. pose proof (begin_ok command_id class maintain _ H).
    destruct (begin_section _ _ _ _). by simplify_eq.
  - assert (SupOk (invalidate loss (sup w)).2) by (destruct loss; by apply invalidate_section_ok).
    destruct (invalidate _ _). by simplify_eq.
  - simplify_eq. cbn. revert H. same_core_tac.
  - simplify_eq. by apply resource_ok.
  - simplify_eq. by apply resource_ok.
  - simplify_eq. cbn. revert H. same_core_tac.
  - repeat case_match; simplify_eq. cbn. eapply same_core_ok; [|eassumption].
    repeat split; cbn; try done. by match goal with H : mailbox _ = _ |- _ => rewrite H end; unfold len; cbn; lia.
  - destruct (worker_step _ _ _) as [[[? ?] ?]|] eqn:Ew; simplify_eq. cbn. by eapply worker_step_ok.
  - case_match; [|done]. pose proof (thread_step_ok t _ H). destruct (thread_step _ _). by simplify_eq.
  - repeat case_match; simplify_eq; cbn; [|by unfold take_connection_task in *; repeat case_match; simplify_eq].
    eapply same_core_ok; [|eassumption]. unfold take_connection_task in *. repeat case_match; simplify_eq.
    by repeat split.
  - repeat case_match; by simplify_eq.
  - repeat case_match; simplify_eq. cbn. revert H. same_core_tac.
Qed.

(** ** One attempt in charge

    The children that [active_children] counts are held by the stored task, by
    a worker between starting a child and storing or failing it, or by a thread
    that has taken the task and not yet counted it off. *)
Definition task_children (t : option ConnectionTask) : Z :=
  match t with Some _ => 1 | None => 0 end.
Definition worker_children (pc : WorkerPc) : Z :=
  match pc with
  | WCancelMark _ _ | WSpawn _ _ | WFailMark _ _ | WInstall _ _ _ | WCheckMark => 1
  | _ => 0
  end.
Definition thread_children (t : Thread) : Z :=
  match t with TMark | TFinishMark _ _ _ => 1 | _ => 0 end.
Definition threads_children (l : list Thread) : Z := foldr (fun t n => thread_children t + n) 0 l.

Definition in_charge (attempt : Z) (t : option ConnectionTask) (pc : WorkerPc) : Prop :=
  ct_attempt <$> t = Some attempt \/ installing attempt pc = true.

Definition Attempts (s : PeerSupervisor) (pc : WorkerPc) (ts : list Thread) (rs : list (Z * Z)) : Prop :=
  active_children (inner s)
    = task_children (connection_task s) + worker_children pc + threads_children ts
  /\ active_children (inner s) <= 1
  /\ NoDup rs.*2
  /\ (forall g a, (g, a) ∈ rs -> a < next_attempt_id s
        /\ (a ∈ aborted s \/ in_charge a (connection_task s) pc))
  /\ (forall a, in_charge a (connection_task s) pc -> a < next_attempt_id s).

(** What [Attempts] reads of the supervisor. *)
Definition same_tasks (s s' : PeerSupervisor) : Prop :=
  active_children (inner s') = active_children (inner s) /\ connection_task s' = connection_task s
  /\ next_attempt_id s' = next_attempt_id s /\ aborted s' = aborted s.

Lemma threads_children_app l k : threads_children (l ++ k) = threads_children l + threads_children k.
Proof. unfold threads_children. induction l; cbn; lia. Qed.

Lemma threads_children_nonneg l : 0 <= threads_children l.
Proof. unfold threads_children. induction l as [|[]]; cbn; lia. Qed.

Lemma threads_children_replace n t new l :
  l !! n = Some t ->
  threads_children (replace_nth n new l)
  = threads_children l - thread_children t + threads_children new.
Proof.
  intros H. rewrite <- (take_drop_middle l n t H) at 2. unfold replace_nth.
  rewrite !threads_children_app. change (t :: drop (S n) l) with ([t] ++ drop (S n) l).
  rewrite threads_children_app. cbn. lia.
Qed.

Lemma worker_children_nonneg pc : 0 <= worker_children pc.
Proof. destruct pc; cbn; lia. Qed.

Lemma Attempts_same s s' pc pc' ts ts' rs :
  same_tasks s s' -> threads_children ts' = threads_children ts ->
  worker_children pc' = worker_children pc ->
  (forall a, installing a pc' = installing a pc) ->
  Attempts s pc ts rs -> Attempts s' pc' ts' rs.
Proof.
  intros (E1 & E2 & E3 & E4) Ht Hp Hi (H1 & H2 & H3 & H4 & H5). unfold Attempts, in_charge in *.
  rewrite E1, E2, E3, E4, Ht, Hp. setoid_rewrite Hi. done.
Qed.

Ltac same_tasks_tac :=
  repeat case_match; simplify_eq; unfold same_tasks; cbn; split_and!; done.

Lemma same_tasks_begin c class m s : same_tasks s (begin_section c class m s).2.
Proof.
  unfold begin_section. case_match; [done|]. set (s1 := if m then _ else s).
  assert (same_tasks s s1) as (E1 & E2 & E3 & E4) by (subst s1; by destruct m).
  unfold answer_at_once, join_or_start. unfold same_tasks. rewrite <- E1, <- E2, <- E3, <- E4.
  clearbody s1. repeat case_match; simplify_eq; cbn; split_and!; done.
Qed.

Lemma same_tasks_invalidate loss s : same_tasks s (invalidate loss s).2.
Proof. destruct loss; unfold invalidate, invalidate_section; same_tasks_tac. Qed.

Lemma same_tasks_complete g ready r s : same_tasks s (complete_section g ready r s).2.
Proof. unfold complete_section. same_tasks_tac. Qed.

Lemma same_tasks_fail g e s : same_tasks s (fail_generation g e s).
Proof. unfold fail_generation. same_tasks_tac. Qed.

Lemma same_tasks_try i s : same_tasks s (try_send i s).2.
Proof. unfold try_send. same_tasks_tac. Qed.

Lemma Attempts_move s s' pc pc' ts ts' rs rs' :
  Attempts s pc ts rs ->
  active_children (inner s') - task_children (connection_task s') - worker_children pc' - threads_children ts'
  = active_children (inner s) - task_children (connection_task s) - worker_children pc - threads_children ts ->
  active_children (inner s') <= 1 ->
  NoDup rs'.*2 -> (forall x, x ∈ rs' -> x ∈ rs) ->
  next_attempt_id s' = next_attempt_id s ->
  (forall a, a ∈ aborted s -> a ∈ aborted s') ->
  (forall a, in_charge a (connection_task s) pc -> a ∈ aborted s' \/ in_charge a (connection_task s') pc') ->
  (forall a, in_charge a (connection_task s') pc' -> in_charge a (connection_task s) pc) ->
  Attempts s' pc' ts' rs'.
Proof.
  intros (H1 & H2 & H3 & H4 & H5) Hc Hle Hn Hr Hid Hab Hin Hin'. unfold Attempts.
  rewrite Hid. split_and!; try done; [lia| |by auto].
  intros g a [? [?|?]]%Hr%H4; (split; [done|]); auto.
Qed.

Ltac in_charge_tac :=
  unfold in_charge; cbn; intros; repeat match goal with
  | H : connection_task _ = _ |- _ => rewrite H in *
  end; cbn in *; rewrite ?elem_of_cons; naive_solver.

Lemma Attempts_thread t s pc ts rs n :
  ts !! n = Some t -> Attempts s pc ts rs ->
  Attempts (thread_step t s).2 pc (replace_nth n (thread_step t s).1 ts) rs.
Proof.
  intros Ht H. pose proof H as (Ha & Hl & Hn & _). pose proof (worker_children_nonneg pc).
  pose proof (threads_children_replace n t [] ts Ht) as Hr0.
  pose proof (threads_children_nonneg (replace_nth n [] ts)).
  assert (Hsame : forall new s', thread_children t = threads_children new -> same_tasks s s' ->
            Attempts s' pc (replace_nth n new ts) rs).
  { intros new s' E Hs. apply (Attempts_same s s' pc pc ts); try done.
    rewrite (threads_children_replace n t new ts Ht). lia. }
  destruct t; cbn [thread_step].
  1-2: unfold try_or_fail; match goal with |- context [try_send ?i ?s] =>
         pose proof (same_tasks_try i s); destruct (try_send i s) as [[?|?] ?] end; by apply Hsame.
  - apply Hsame; [done|apply same_tasks_fail].
  - unfold take_task_for. destruct (connection_task s) as [t|] eqn:Et; [|by apply Hsame].
    destruct (ct_generation t =? g); [|by apply Hsame]. cbn in *.
    eapply (Attempts_move s _ pc _ ts); try done; try in_charge_tac.
    rewrite (threads_children_replace n _ [TMark] ts Ht), Et. cbn. lia.
  - cbn in *. destruct (connection_task s) as [t|] eqn:Et; cbn in *; try lia.
    all: eapply (Attempts_move s _ pc _ ts); cbn; try done; try in_charge_tac; unfold saturating_sub; try lia.
  - by apply Hsame.
  - cbn in *. destruct (connection_task s) as [t|] eqn:Et; cbn in *; try lia.
    all: eapply (Attempts_move s _ pc _ ts); cbn; try done; try in_charge_tac; unfold saturating_sub; try lia.
    rewrite (threads_children_replace n _ [TFinishComplete g ready outcome] ts Ht), Et. cbn. lia.
  - pose proof (same_tasks_complete g ready (attempt_completion outcome) s) as Hs.
    destruct (complete_section _ _ _ _) as [r s']. cbn in *. apply Hsame.
    + repeat case_match; done.
    + unfold publish_failure. repeat case_match; done.
Qed.

Lemma Attempts_spawn s g r ts rs :
  Attempts s (WSpawn g r) ts rs ->
  Attempts (set_ids (next_resource_id s) (next_attempt_id s + 1) (next_channel s) s)
    (WInstall g (next_attempt_id s) r) ts ((g, next_attempt_id s) :: rs).
Proof.
  intros (H1 & H2 & H3 & H4 & H5). unfold Attempts, in_charge in *. cbn in *. split_and!; try done.
  - constructor; [|done]. intros ([g' a] & Ea & Hin)%list_elem_of_fmap. apply H4 in Hin. cbn in *. lia.
  - intros g' a [E|Hin]%elem_of_cons.
    + simplify_eq. split; [lia|]. right. right. by apply Z.eqb_refl.
    + destruct (H4 g' a Hin) as [? [?|[?|?]]]; (split; [lia|]); auto. done.
  - intros a [?|E]; [specialize (H5 a (or_introl H)); lia|]. apply Z.eqb_eq in E. lia.
Qed.

Lemma Attempts_worker b pc s pc' new s' ts rs :
  worker_step b pc s = Some (pc', new, s') ->
  Attempts s pc ts rs -> Attempts s' pc' ts (new ++ rs).
Proof.
  intros E H. pose proof H as (Ha & Hl & Hn & _ & Hb). pose proof (threads_children_nonneg ts).
  destruct pc; cbn in E; try done.
  - simplify_eq. cbn. eapply Attempts_same; [..|exact H]; by try case_match.
  - unfold attempt_section in E. repeat case_match; simplify_eq; cbn;
      by eapply Attempts_same; [..|exact H].
  - unfold take_any_task in E. destruct (connection_task s) as [t|] eqn:Et; simplify_eq; cbn in *.
    + eapply (Attempts_move s _ (WCancel g requirement) _ ts); try done; try in_charge_tac.
      rewrite Et. cbn. lia.
    + by eapply Attempts_same; [..|exact H].
  - simplify_eq. cbn in *. destruct (connection_task s) eqn:Et; cbn in *; try lia.
    eapply (Attempts_move s _ (WCancelMark g requirement) _ ts); cbn; try done; try in_charge_tac;
      unfold saturating_sub; rewrite ?Et; cbn; lia.
  - unfold mark_child_started in E. destruct (1 <=? active_children (inner s)) eqn:?;
      simplify_eq; bool_facts; cbn.
    + by eapply Attempts_same; [..|exact H].
    + eapply (Attempts_move s _ (WChild g requirement) _ ts); cbn; try done; try in_charge_tac; lia.
  - destruct b; simplify_eq; [by apply Attempts_spawn|]. cbn.
    destruct H as (H1 & H2 & H3 & H4 & H5). unfold Attempts. cbn in *. split_and!; try done.
    + intros g' a [? ?]%H4. split; [lia|done].
    + intros a ?%H5. lia.
  - simplify_eq. cbn in *. destruct (connection_task s) eqn:Et; cbn in *; try lia.
    eapply (Attempts_move s _ (WFailMark g reason) _ ts); cbn; try done; try in_charge_tac;
      unfold saturating_sub; rewrite ?Et; cbn; lia.
  - simplify_eq. rewrite complete_err_section. cbn.
    eapply Attempts_same; [..|exact H]; try done. apply same_tasks_complete.
  - simplify_eq. cbn in *. destruct (connection_task s) eqn:Et; cbn in *; try lia.
    eapply (Attempts_move s _ (WInstall g attempt requirement) _ ts); cbn; try done;
      rewrite ?Et; cbn; try lia.
    + intros a [?|E]; [done|]. right. left. apply Z.eqb_eq in E. by subst.
    + intros a [E|?]; [|done]. right. apply Z.eqb_eq. cbn in E. by simplify_eq.
  - destruct (is_current g s); simplify_eq; cbn; by eapply Attempts_same; [..|exact H].
  - unfold take_task_for in E. destruct (connection_task s) as [t|] eqn:Et; [destruct (ct_generation t =? g)|]; simplify_eq; cbn in *.
    + eapply (Attempts_move s _ (WCheckCancel g) _ ts); try done; try in_charge_tac.
      rewrite Et. cbn. lia.
    + by eapply Attempts_same; [..|exact H].
    + by eapply Attempts_same; [..|exact H].
  - simplify_eq. cbn in *. destruct (connection_task s) eqn:Et; cbn in *; try lia.
    eapply (Attempts_move s _ WCheckMark _ ts); cbn; try done; try in_charge_tac;
      unfold saturating_sub; rewrite ?Et; cbn; lia.
Qed.

Definition WorldAttempts (w : World) : Prop := Attempts (sup w) (worker w) (threads w) (running w).

Lemma elem_of_take_drop {A} (x : A) n l : x ∈ take n l ++ drop (S n) l -> x ∈ l.
Proof.
  rewrite elem_of_app. intros [H|H]; [by eapply elem_of_take in H as (? & ? & ?); eapply list_elem_of_lookup_2|].
  apply list_elem_of_lookup in H as [i Hi]. rewrite lookup_drop in Hi. by eapply list_elem_of_lookup_2.
Qed.

Lemma NoDup_snd_remove (l : list (Z * Z)) n :
  NoDup l.*2 -> NoDup (take n l ++ drop (S n) l).*2.
Proof.
  intros H. eapply sublist_NoDup; [exact H|]. rewrite fmap_app, fmap_take, fmap_drop.
  rewrite <- (take_drop n l.*2) at 3. apply sublist_app; [done|].
  replace (S n) with (n + 1)%nat by lia. rewrite <- drop_drop. apply sublist_drop.
Qed.

Lemma step_attempts gated a w w' :
  step gated a w = Some w' -> WorldAttempts w -> WorldAttempts w'.
Proof.
  unfold WorldAttempts. intros E H. destruct a; cbn in E.
  - simplify_eq. cbn. eapply Attempts_same; [..|exact H]; try done.
    unfold start_mailbox_worker. same_tasks_tac.
  - case_match; [done|]. pose proof (same_tasks_begin command_id class maintain (sup w)).
    destruct (begin_section _ _ _ _) as [r s]. simplify_eq. cbn.
    eapply Attempts_same; [..|exact H]; try done. rewrite threads_children_app.
    repeat case_match; cbn; lia.
  - pose proof (same_tasks_invalidate loss (sup w)). destruct (invalidate _ _) as [r s]. simplify_eq. cbn.
    eapply Attempts_same; [..|exact H]; try done. rewrite threads_children_app.
    repeat case_match; cbn; lia.
  - simplify_eq. cbn. eapply Attempts_same; [..|exact H]; try done.
    unfold admit_inbound_with_capabilities. same_tasks_tac.
  - simplify_eq. cbn. eapply Attempts_same; [..|exact H]; try done.
    unfold acquire_resource. same_tasks_tac.
  - simplify_eq. by eapply Attempts_same; [..|exact H].
  - simplify_eq. by eapply Attempts_same; [..|exact H].
  - repeat case_match; simplify_eq. cbn.
    by eapply Attempts_same; [..|exact H].
  - destruct (worker_step _ _ _) as [[[? ?] ?]|] eqn:Ew; simplify_eq. cbn. by eapply Attempts_worker.
  - destruct (threads w !! n) as [t|] eqn:Et; [|done].
    pose proof (Attempts_thread t _ _ _ _ n Et H). destruct (thread_step _ _). by simplify_eq.
  - destruct (running w !! n) as [[g a]|] eqn:Er; [|done]. case_match; [done|].
    unfold take_connection_task in E. pose proof H as (Ha & Hl & Hn & _).
    destruct (connection_task (sup w)) as [t|] eqn:Et;
      [destruct ((ct_generation t =? g) && (ct_attempt t =? a))|]; simplify_eq; cbn.
    all: eapply (Attempts_move (sup w) _ (worker w) _ (threads w)); cbn;
      eauto using elem_of_take_drop, NoDup_snd_remove; try in_charge_tac.
    rewrite threads_children_app, Et. cbn. lia.
  - destruct (running w !! n) as [[g a]|] eqn:Er; [|done]. case_match; simplify_eq. cbn.
    pose proof H as (Ha & Hl & Hn & _).
    eapply (Attempts_move (sup w) _ (worker w) _ (threads w));
      eauto using elem_of_take_drop, NoDup_snd_remove.
  - repeat case_match; simplify_eq. by eapply Attempts_same; [..|exact H].
Qed.
End Proofs.
