(* ===== verification/PeerSupervisorLive.v ===== *)
(** * No request of the current generation is forgotten

    Over the runs of [PeerSupervisorRuns.v] in which an attempt finishes after
    its task is stored: as long as a peer is connecting, or a request of its
    current generation waits, some thread, queued intent or live attempt will
    still act for that generation.  The theorems are in [PeerLifecycle.v]. *)
From S2P Require Import Prelude Profile PeerSupervisor PeerSupervisorRuns PeerSupervisorProofs.

Section Live.
Context {HO : HashOrder string Waiter}.

(** ** Who acts for a generation *)

Definition sender_gen (t : Thread) : option Z :=
  match t with TSend g _ _ | TFail g _ => Some g | TRetry i => Some (pi_generation i) | _ => None end.
Definition thread_gen (t : Thread) : option Z :=
  match t with
  | TFinishMark g _ _ | TFinishComplete g _ _ => Some g
  | t => sender_gen t
  end.
Definition receiver_gen (pc : WorkerPc) : option Z :=
  match pc with WGot i | WLock i => Some (pi_generation i) | _ => None end.
Definition worker_gen (pc : WorkerPc) : option Z :=
  match pc with
  | WCancel g _ | WCancelMark g _ | WChild g _ | WSpawn g _ | WFailMark g _ | WFail g _
  | WInstall g _ _ => Some g
  | pc => receiver_gen pc
  end.

(** An intent of generation [g] is on its way to an attempt. *)
Definition queued (s : PeerSupervisor) (pc : WorkerPc) (ts : list Thread) (g : Z) : Prop :=
  (exists t, t ∈ ts /\ sender_gen t = Some g)
  \/ (exists i, i ∈ mailbox s /\ pi_generation i = g)
  \/ receiver_gen pc = Some g.

(** Something will still complete, fail or retry generation [g]. *)
Definition covered (s : PeerSupervisor) (pc : WorkerPc) (ts : list Thread) (g : Z) : Prop :=
  (exists t, t ∈ ts /\ thread_gen t = Some g)
  \/ (exists i, i ∈ mailbox s /\ pi_generation i = g)
  \/ worker_gen pc = Some g
  \/ ct_generation <$> connection_task s = Some g.

Definition needs_cover (i : PeerInner) : Prop :=
  state i = Connecting \/ exists c x, waiters i !! c = Some x /\ w_generation x = generation i.

Definition idle_inner (i : PeerInner) : Prop :=
  waiters i = ∅ /\ state i ≠ Connecting /\ retry_scheduled i = false.

Definition LiveCore (s : PeerSupervisor) (pc : WorkerPc) (ts : list Thread) : Prop :=
  stopping (inner s) = false ->
  (needs_cover (inner s) -> covered s pc ts (generation (inner s)))
  /\ (retry_scheduled (inner s) = true -> queued s pc ts (generation (inner s)))
  /\ (mailbox_task s = false -> idle_inner (inner s)).

Definition pc_bound (stop : bool) (cur : Z) (pc : WorkerPc) : Prop :=
  match pc with
  | WCancel g _ | WCancelMark g _ | WChild g _ | WSpawn g _ | WInstall g _ _ | WCheck g => g <= cur
  | WCheckCancel g => stop = true \/ g < cur
  | _ => True
  end.

Definition LiveAux (s : PeerSupervisor) (pc : WorkerPc) (ts : list Thread) (rs : list (Z * Z)) : Prop :=
  (TStopWorker ∈ ts -> stopping (inner s) = true)
  /\ (forall g, TCancel g ∈ ts -> g < generation (inner s))
  /\ pc_bound (stopping (inner s)) (generation (inner s)) pc
  /\ (forall t, connection_task s = Some t ->
        ct_generation t <= generation (inner s)
        /\ (forall g r, pc = WCancel g r -> ct_generation t <= g)
        /\ (ct_generation t, ct_attempt t) ∈ rs)
  /\ (forall g a r, pc = WInstall g a r -> (g, a) ∈ rs).

(** Attempts in charge have not been aborted. *)
Definition Fresh (s : PeerSupervisor) (pc : WorkerPc) : Prop :=
  (forall a, a ∈ aborted s -> a < next_attempt_id s)
  /\ (forall a, in_charge a (connection_task s) pc -> a ∉ aborted s).

Definition WorldFresh (w : World) : Prop := Fresh (sup w) (worker w).
Definition WorldLive (w : World) : Prop :=
  generation (inner (sup w)) < u64_max ->
  LiveCore (sup w) (worker w) (threads w) /\ LiveAux (sup w) (worker w) (threads w) (running w).

(** ** Lists of threads *)

Lemma elem_of_replace_nth t new l n x :
  l !! n = Some t -> x ∈ replace_nth n new l -> x ∈ new \/ x ∈ l.
Proof.
  intros Ht. unfold replace_nth. rewrite !elem_of_app. intros [H|[H|H]]; [right|by left|right];
    rewrite <- (take_drop_middle l n t Ht), elem_of_app, elem_of_cons; auto.
Qed.

Lemma elem_of_replace_nth_old t new l n x :
  l !! n = Some t -> x ∈ l -> x = t \/ x ∈ replace_nth n new l.
Proof.
  intros Ht. rewrite <- (take_drop_middle l n t Ht) at 1. unfold replace_nth.
  rewrite !elem_of_app, elem_of_cons. tauto.
Qed.

Lemma elem_of_replace_nth_new (new l : list Thread) n x : x ∈ new -> x ∈ replace_nth n new l.
Proof. intros H. unfold replace_nth. rewrite !elem_of_app. auto. Qed.

Lemma elem_of_remove {A} (l : list A) n x y :
  l !! n = Some y -> x ∈ l -> x ≠ y -> x ∈ take n l ++ drop (S n) l.
Proof.
  intros Hy. rewrite <- (take_drop_middle l n y Hy) at 1. rewrite !elem_of_app, elem_of_cons. tauto.
Qed.

(** ** Attempts in charge are never among the aborted ones *)

Definition same_attempts (s s' : PeerSupervisor) : Prop :=
  connection_task s' = connection_task s /\ next_attempt_id s' = next_attempt_id s
  /\ aborted s' = aborted s.

Lemma Fresh_same s s' pc pc' :
  same_attempts s s' -> (forall a, installing a pc' = true -> installing a pc = true) ->
  Fresh s pc -> Fresh s' pc'.
Proof.
  intros (E2 & E3 & E4) Hi [H1 H2]. unfold Fresh, in_charge in *. rewrite E2, E3, E4.
  split; [done|]. naive_solver.
Qed.

(** Taking a task aborts it, and no other attempt is in charge then. *)
Lemma Fresh_take s s' pc pc' t :
  Fresh s pc -> connection_task s = Some t -> ct_attempt t < next_attempt_id s ->
  connection_task s' = None -> next_attempt_id s' = next_attempt_id s ->
  aborted s' = ct_attempt t :: aborted s -> (forall a, installing a pc' = false) ->
  Fresh s' pc'.
Proof.
  intros [H1 H2] Et Hlt E1 E2 E3 Hi. split; rewrite ?E1, ?E2, ?E3.
  - intros a [->|?]%elem_of_cons; auto.
  - intros a [?|?]; [done|]. by rewrite Hi in *.
Qed.

Lemma task_not_installing w t a :
  WorldAttempts w -> connection_task (sup w) = Some t -> installing a (worker w) = false.
Proof.
  intros (H1 & H2 & _) E. rewrite E in H1. pose proof (threads_children_nonneg (threads w)).
  destruct (worker w); try done. cbn in H1. lia.
Qed.

Lemma step_fresh gated a w w' :
  step gated a w = Some w' -> WorldAttempts w -> WorldFresh w -> WorldFresh w'.
Proof.
  unfold WorldFresh. intros E HA H. pose proof (task_not_installing w) as Hni.
  pose proof HA as (_ & _ & _ & _ & Hlt).
  assert (Hsame : forall s pc, same_attempts (sup w) s ->
            (forall a, installing a pc = true -> installing a (worker w) = true) -> Fresh s pc)
    by (intros s pc Hs Hp; by eapply Fresh_same).
  assert (Htk : forall t s pc, connection_task (sup w) = Some t -> connection_task s = None ->
            next_attempt_id s = next_attempt_id (sup w) -> aborted s = ct_attempt t :: aborted (sup w) ->
            (forall a, installing a pc = false) -> Fresh s pc).
  { intros t s pc Et E1 E2 E3 E4. eapply Fresh_take; eauto. apply Hlt. left. by rewrite Et. }
  destruct a; cbn in E.
  - simplify_eq. apply Hsame; [|done]. cbn. unfold start_mailbox_worker. repeat case_match; done.
  - case_match; [done|]. pose proof (proj2 (same_tasks_begin command_id class maintain (sup w))).
    destruct (begin_section _ _ _ _). simplify_eq. by apply Hsame.
  - pose proof (proj2 (same_tasks_invalidate loss (sup w))). destruct (invalidate _ _). simplify_eq. by apply Hsame.
  - simplify_eq. apply Hsame; [|done]. cbn. unfold admit_inbound_with_capabilities. repeat case_match; done.
  - simplify_eq. apply Hsame; [|done]. cbn. unfold acquire_resource. repeat case_match; done.
  - simplify_eq. by apply Hsame.
  - simplify_eq. by apply Hsame.
  - repeat case_match; simplify_eq. by apply Hsame.
  - destruct (worker w) eqn:Ew; cbn in E; try done.
    + case_match; simplify_eq; by apply Hsame.
    + unfold attempt_section in E. repeat case_match; simplify_eq; by apply Hsame.
    + unfold take_any_task in E. destruct (connection_task (sup w)) as [t|] eqn:Et; simplify_eq;
        [by eapply Htk|by apply Hsame].
    + simplify_eq. by apply Hsame.
    + unfold mark_child_started in E. destruct (1 <=? _); simplify_eq; cbn; by apply Hsame.
    + destruct H as [H1 H2]. destruct HA as (H3 & H4 & _). rewrite Ew in H3. cbn in H3.
      pose proof (threads_children_nonneg (threads w)).
      destruct (connection_task (sup w)) eqn:Et; [cbn in H3; lia|].
      destruct accepted; simplify_eq; (split; cbn; [intros a ?%H1; lia|]); rewrite Et; intros a [?|Hi];
        cbn in *; try done.
      apply Z.eqb_eq in Hi. subst. intros ?%H1. lia.
    + simplify_eq. by apply Hsame.
    + simplify_eq. rewrite complete_err_section. apply Hsame; [eapply proj2, same_tasks_complete|done].
    + simplify_eq. destruct HA as (H3 & H4 & _). rewrite Ew in H3. cbn in H3.
      pose proof (threads_children_nonneg (threads w)).
      destruct (connection_task (sup w)) eqn:Et; [cbn in H3; lia|]. destruct H as [H1 H2].
      split; cbn; [done|]. intros a [Ha|?]; [|done]. apply H2. right. cbn in *. apply Z.eqb_eq. by simplify_eq.
    + case_match; simplify_eq; by apply Hsame.
    + unfold take_task_for in E. destruct (connection_task (sup w)) as [t|] eqn:Et;
        [destruct (ct_generation t =? g)|]; simplify_eq; try (by apply Hsame). by eapply Htk.
    + simplify_eq. by apply Hsame.
  - destruct (threads w !! n) as [t|] eqn:Et; [|done]. destruct t; cbn in E.
    1-2: unfold try_or_fail in E; match type of E with context [try_send ?i ?s] =>
           pose proof (proj2 (same_tasks_try i s)); destruct (try_send i s) as [[?|?] ?] end; simplify_eq;
           by apply Hsame.
    + simplify_eq. apply Hsame; [eapply proj2, same_tasks_fail|done].
    + unfold take_task_for in E. destruct (connection_task (sup w)) as [t|] eqn:Ect;
        [destruct (ct_generation t =? g)|]; simplify_eq; try (by apply Hsame). eapply Htk; eauto.
    + simplify_eq. by apply Hsame.
    + simplify_eq. by apply Hsame.
    + simplify_eq. by apply Hsame.
    + pose proof (proj2 (same_tasks_complete g ready (attempt_completion outcome) (sup w))).
      destruct (complete_section _ _ _ _). simplify_eq. apply Hsame; [|done].
      cbn. unfold publish_failure. repeat case_match; done.
  - destruct (running w !! n) as [[g a]|] eqn:Er; [|done]. case_match; [done|].
    unfold take_connection_task in E. destruct (connection_task (sup w)) as [t|] eqn:Et;
      [destruct ((ct_generation t =? g) && (ct_attempt t =? a))|]; simplify_eq; try (by apply Hsame).
    eapply Htk; eauto.
  - repeat case_match; simplify_eq. by apply Hsame.
  - repeat case_match; simplify_eq. by apply Hsame.
Qed.

(** ** What the sections do to the intent *)

Definition same_intent (i i' : PeerInner) : Prop :=
  state i' = state i /\ generation i' = generation i /\ waiters i' = waiters i
  /\ retry_scheduled i' = retry_scheduled i /\ stopping i' = stopping i.

(** The queue, the worker's lease and the stored task are as before. *)
Definition same_queue (s s' : PeerSupervisor) : Prop :=
  mailbox s' = mailbox s /\ mailbox_task s' = mailbox_task s /\ connection_task s' = connection_task s.

Lemma begin_section_cases c class m s r s' :
  begin_section c class m s = (r, s') ->
  same_queue s s' /\ stopping (inner s') = stopping (inner s)
  /\ ((same_intent (inner s) (inner s') /\ match r with Ok b => b_queue b = false | Err _ => True end)
      \/ exists b w, r = Ok b /\ b_generation b = generation (inner s')
           /\ state (inner s') = Connecting /\ w_generation w = generation (inner s')
           /\ waiters (inner s') = <[c := w]> (waiters (inner s))
           /\ ((b_queue b = true /\ generation (inner s') = next_generation (generation (inner s))
                /\ state (inner s) ≠ Connecting)
               \/ (state (inner s) = Connecting /\ generation (inner s') = generation (inner s)
                   /\ (b_queue b = true
                       \/ retry_scheduled (inner s') = retry_scheduled (inner s))))).
Proof.
  unfold begin_section. case_match; [intros [= <- <-]; split_and!; try done; left; done|].
  set (s1 := if m then _ else s).
  assert (Hs : same_queue s s1 /\ same_intent (inner s) (inner s1)) by (subst s1; by destruct m).
  clearbody s1. destruct Hs as [(Q1 & Q2 & Q3) (I1 & I2 & I3 & I4 & I5)].
  assert (HA : answer_at_once s1 = (r, s') ->
            same_queue s s' /\ same_intent (inner s) (inner s')
            /\ match r with Ok b => b_queue b = false | Err _ => True end)
    by (unfold answer_at_once; intros [= <- <-]; by split_and!).
  destruct (bool_decide (is_Some _)); [intros [= <- <-]; split_and!; try done; [congruence|left; split; done]|].
  destruct (MAX_PEER_WAITERS <=? _); [intros [= <- <-]; split_and!; try done; [congruence|left; split; done]|].
  do 2 (match goal with |- context [if ?b then answer_at_once _ else _] => destruct b end;
    [intros E; destruct (HA E) as (? & Hi & ?); split; [done|]; split;
     [by destruct Hi as (_ & _ & _ & _ & ->)|by left]|]).
  clear HA. unfold join_or_start. case_bool_decide as Hst; cbn; intros [= <- <-]; cbn.
  - split; [done|]. split; [congruence|]. right. eexists _, (mkWaiter c (generation (inner s1)) _ _).
    split_and!; cbn; [done..|by rewrite I3|].
    right. split_and!; try congruence.
    destruct (negb _ && negb (retry_scheduled (inner s1))) eqn:Eq; [by left|right; cbn; congruence].
  - split; [done|]. split; [congruence|]. right. eexists _, (mkWaiter c (next_generation (generation (inner s1))) _ _).
    split_and!; cbn; [done..|by rewrite I3|]. left. split_and!; [done|congruence..].
Qed.

Lemma complete_section_cases g ready outcome s r s' :
  complete_section g ready outcome s = (r, s') ->
  same_queue s s' /\ stopping (inner s') = stopping (inner s)
  /\ generation (inner s') = generation (inner s)
  /\ ((s' = s /\ r = Err StaleIntent /\ (stopping (inner s) = true \/ generation (inner s) ≠ g))
      \/ (exists n, r = Ok (n, None) /\ retry_scheduled (inner s') = false
            /\ (forall c x, waiters (inner s') !! c = Some x -> w_generation x ≠ generation (inner s'))
            /\ match outcome with
               | Ok st => state (inner s') = st /\ waiters (inner s') ⊆ waiters (inner s)
               | Err _ => state (inner s') = Offline /\ waiters (inner s') = ∅
               end)
      \/ (exists n o, r = Ok (n, o) /\ generation (inner s) = g /\ is_ok outcome = true
            /\ state (inner s') = Connecting /\ waiters (inner s') ⊆ waiters (inner s)
            /\ waiters (inner s') ≠ ∅
            /\ match o with
               | Some i => pi_generation i = g
               | None => retry_scheduled (inner s) = true
               end)).
Proof.
  unfold complete_section. destruct (stopping (inner s) || negb (generation (inner s) =? g)) eqn:Hs.
  { intros [= <- <-]. split_and!; try done. left. split_and!; try done.
    apply orb_true_iff in Hs as [?|?]; [by left|right]. by bool_facts. }
  bool_facts. destruct outcome as [st|e].
  - set (pending := filter (fun p => ~ _) _).
    assert (Hsub : pending ⊆ waiters (inner s)) by apply map_filter_subseteq. clearbody pending.
    destruct (existsb _ (hash_iter pending)) eqn:Ex; intros [= <- <-]; split_and!; try done; right.
    + right. eexists _, _. split_and!; try done; [|by destruct (retry_scheduled (inner s))].
      cbn. intros ->. apply existsb_exists in Ex as ([c x] & Hin%list_elem_of_In & _).
      by apply elem_of_hash_iter in Hin.
    + left. eexists. split_and!; try done. cbn. intros c x Hx Hg.
      assert (existsb (fun p : string * Waiter => w_generation p.2 =? g) (hash_iter pending) = true)
        as Hc; [|congruence].
      apply existsb_exists. exists (c, x). split; [by apply list_elem_of_In, elem_of_hash_iter|].
      cbn. apply Z.eqb_eq. congruence.
  - intros [= <- <-]. split_and!; try done. right. left. eexists. split_and!; try done.
Qed.

Lemma attempt_section_cases i s r s' :
  attempt_section i s = (r, s') ->
  same_queue s s' /\ stopping (inner s') = stopping (inner s)
  /\ generation (inner s') = generation (inner s) /\ state (inner s') = state (inner s)
  /\ waiters (inner s') = waiters (inner s)
  /\ ((r = None /\ s' = s /\ (stopping (inner s) = true \/ generation (inner s) ≠ pi_generation i))
      \/ (exists q, r = Some q /\ generation (inner s) = pi_generation i
            /\ retry_scheduled (inner s') = false)).
Proof.
  unfold attempt_section. destruct (stopping (inner s) || negb _) eqn:Hs; intros [= <- <-];
    split_and!; try done; [left|right].
  - split_and!; try done. apply orb_true_iff in Hs as [?|?]; [by left|right]. by bool_facts.
  - bool_facts. by eexists.
Qed.

(** Failing and invalidating leave nothing to cover. *)
Lemma fail_cases g e s :
  same_queue s (fail_generation g e s)
  /\ generation (inner (fail_generation g e s)) = generation (inner s)
  /\ stopping (inner (fail_generation g e s)) = stopping (inner s)
  /\ ((fail_generation g e s = s /\ generation (inner s) ≠ g)
      \/ idle_inner (inner (fail_generation g e s))).
Proof.
  unfold fail_generation. destruct (generation (inner s) =? g) eqn:E; cbn; split_and!; try done.
  - by right.
  - left. by bool_facts.
Qed.

Lemma invalidate_cases loss s r s' :
  invalidate loss s = (r, s') ->
  same_queue s s'
  /\ ((r = None /\ s' = s)
      \/ (r = Some (generation (inner s)) /\ idle_inner (inner s')
          /\ generation (inner s') = next_generation (generation (inner s))
          /\ stopping (inner s') = match loss with Stopped => true | _ => stopping (inner s) end)).
Proof.
  destruct loss; unfold invalidate, invalidate_section; try case_match; intros [= <- <-];
    (split; [done|]); first [by left|by right].
Qed.

(** ** Preservation *)

Lemma subseteq_empty_map (m : gmap string Waiter) : m ⊆ ∅ -> m = ∅.
Proof. intros H. apply (anti_symm (⊆)); [done|apply map_empty_subseteq]. Qed.

Lemma LiveCore_idle s pc ts : idle_inner (inner s) -> LiveCore s pc ts.
Proof.
  intros (H1 & H2 & H3) _. rewrite H3. split_and!; try done.
  intros [?|(c & x & Hx & _)]; [done|]. by rewrite H1, lookup_empty in Hx.
Qed.

Lemma LiveCore_frame s s' pc pc' ts ts' :
  same_intent (inner s) (inner s') ->
  (mailbox_task s' = false -> mailbox_task s = false) ->
  (stopping (inner s) = false -> covered s pc ts (generation (inner s)) ->
     covered s' pc' ts' (generation (inner s))) ->
  (stopping (inner s) = false -> queued s pc ts (generation (inner s)) ->
     queued s' pc' ts' (generation (inner s))) ->
  LiveCore s pc ts -> LiveCore s' pc' ts'.
Proof.
  intros (E1 & E2 & E3 & E4 & E5) Hm Hc Hq H. unfold LiveCore, needs_cover, idle_inner in *.
  rewrite E1, E2, E3, E4, E5. intros Hs. destruct (H Hs) as (H1 & H2 & H3). auto.
Qed.

Lemma covered_replace s s' pc ts n t new g :
  ts !! n = Some t -> (forall i, i ∈ mailbox s -> i ∈ mailbox s') ->
  (ct_generation <$> connection_task s = Some g -> ct_generation <$> connection_task s' = Some g) ->
  (thread_gen t = Some g -> covered s' pc (replace_nth n new ts) g) ->
  covered s pc ts g -> covered s' pc (replace_nth n new ts) g.
Proof.
  intros Ht Hm Hc Hg [(u & Hu & Eu)|[(i & Hi & Ei)|[Hp|Hct]]].
  - destruct (elem_of_replace_nth_old t new ts n u Ht Hu) as [->|?]; [by auto|]. left. eauto.
  - right. left. eauto.
  - by do 2 right; left.
  - do 3 right. auto.
Qed.

Lemma queued_replace s s' pc ts n t new g :
  ts !! n = Some t -> (forall i, i ∈ mailbox s -> i ∈ mailbox s') ->
  (sender_gen t = Some g -> queued s' pc (replace_nth n new ts) g) ->
  queued s pc ts g -> queued s' pc (replace_nth n new ts) g.
Proof.
  intros Ht Hm Hg [(u & Hu & Eu)|[(i & Hi & Ei)|Hp]].
  - destruct (elem_of_replace_nth_old t new ts n u Ht Hu) as [->|?]; [by auto|]. left. eauto.
  - right. left. eauto.
  - by do 2 right.
Qed.

(** A thread left behind by a replaced one covers what it covers. *)
Lemma covered_new s pc ts n (new : list Thread) t g :
  t ∈ new -> thread_gen t = Some g -> covered s pc (replace_nth n new ts) g.
Proof. intros H E. left. exists t. split; [by apply elem_of_replace_nth_new|done]. Qed.

Lemma queued_new s pc ts n (new : list Thread) t g :
  t ∈ new -> sender_gen t = Some g -> queued s pc (replace_nth n new ts) g.
Proof. intros H E. left. exists t. split; [by apply elem_of_replace_nth_new|done]. Qed.

Lemma queued_covered s pc ts g : queued s pc ts g -> covered s pc ts g.
Proof.
  intros [(t & Ht & E)|[?|E]]; [left; exists t; split; [done|by destruct t]|by right; left|].
  right. right. left. by destruct pc.
Qed.

Lemma try_or_fail_live i s pc ts n t :
  ts !! n = Some t -> sender_gen t = Some (pi_generation i) -> LiveCore s pc ts ->
  LiveCore (try_or_fail i s).2 pc (replace_nth n (try_or_fail i s).1 ts).
Proof.
  intros Ht Hg H. unfold try_or_fail, try_send.
  assert (HF : forall s' new, same_intent (inner s) (inner s') -> mailbox_task s' = mailbox_task s ->
            connection_task s' = connection_task s -> (forall j, j ∈ mailbox s -> j ∈ mailbox s') ->
            queued s' pc (replace_nth n new ts) (pi_generation i) ->
            LiveCore s' pc (replace_nth n new ts)).
  { intros s' new Hi Em Ec Hm Hq. apply (LiveCore_frame s _ pc _ ts); try done; [congruence|..].
    - intros _. apply (covered_replace s _ _ _ _ t); try done; [by rewrite Ec|].
      intros E. apply queued_covered. assert (thread_gen t = sender_gen t) by (by destruct t).
      by replace (generation (inner s)) with (pi_generation i) by congruence.
    - intros _. apply (queued_replace s _ _ _ _ t); try done.
      intros E. by replace (generation (inner s)) with (pi_generation i) by congruence. }
  repeat case_match; simplify_eq; cbn.
  1-2: apply HF; try done; eapply queued_new; [by left|done].
  apply HF; try done; cbn; [intros; rewrite elem_of_app; by left|].
  right. left. exists i. cbn. rewrite elem_of_app, list_elem_of_singleton. auto.
Qed.

Lemma thread_live t s pc ts rs n :
  generation (inner s) < u64_max -> ts !! n = Some t -> LiveAux s pc ts rs -> LiveCore s pc ts ->
  LiveCore (thread_step t s).2 pc (replace_nth n (thread_step t s).1 ts).
Proof.
  intros Hmax Ht (A1 & A2 & A3 & A4 & A5) H. pose proof (list_elem_of_lookup_2 _ _ _ Ht) as Hin.
  destruct t; cbn [thread_step].
  - by eapply try_or_fail_live.
  - by eapply try_or_fail_live.
  - destruct (fail_cases g reason s) as ((Em & Et & Ec) & Eg & Es & [[-> Hne]|Hidle]); cbn.
    + apply (LiveCore_frame s _ pc _ ts); try done; intros _;
        [apply (covered_replace s _ _ _ _ (TFail g reason))|apply (queued_replace s _ _ _ _ (TFail g reason))];
        try done; cbn; intros; congruence.
    + by apply LiveCore_idle.
  - specialize (A2 g Hin). unfold take_task_for.
    destruct (connection_task s) as [t|] eqn:Et; [destruct (ct_generation t =? g) eqn:Eg|]; cbn; bool_facts;
      (apply (LiveCore_frame s _ pc _ ts); try done; intros _;
        [apply (covered_replace s _ _ _ _ (TCancel g))|apply (queued_replace s _ _ _ _ (TCancel g))]; try done).
    rewrite Et. cbn. intros. simplify_eq. lia.
  - apply (LiveCore_frame s _ pc _ ts); try done; intros _;
      [apply (covered_replace s _ _ _ _ TMark)|apply (queued_replace s _ _ _ _ TMark)]; done.
  - intros Hs. cbn in Hs. by rewrite A1 in Hs.
  - apply (LiveCore_frame s _ pc _ ts); try done; intros _;
      [eapply (covered_replace s _ _ _ _ _)|eapply (queued_replace s _ _ _ _ _)]; try done.
    intros E. eapply covered_new; [by left|done].
  - destruct (complete_section g ready (attempt_completion outcome) s) as [r s'] eqn:Ecs.
    destruct (complete_section_cases _ _ _ _ _ _ Ecs) as ((Em & Et & Ec) & Es & Eg & Hcase).
    assert (HP : LiveCore s' pc (replace_nth n match r with Ok (_, Some i) => [TRetry i] | _ => [] end ts));
      [|cbn; unfold publish_failure; repeat case_match; done].
    destruct Hcase as [(-> & -> & Hst)|[(k & -> & Hr & Hw & Ho)|(k & o & -> & Hg & Hok & Hst & Hw & Hne & Ho)]].
    + apply (LiveCore_frame s _ pc _ ts); try done; intros Hns;
        [eapply (covered_replace s _ _ _ _ _)|eapply (queued_replace s _ _ _ _ _)]; try done.
      intros [= E]. destruct Hst; congruence.
    + intros Hns. rewrite Es in Hns. destruct (H Hns) as (_ & _ & H3). split_and!.
      * intros [Hst|(c & x & Hx & Hxg)]; [|by apply Hw in Hx].
        destruct outcome; cbn in Ho; destruct Ho; congruence.
      * by rewrite Hr.
      * rewrite Et. intros Hmt. destruct (H3 Hmt) as (Hw0 & _ & _). unfold idle_inner. split_and!; try done.
        -- destruct outcome; cbn in Ho; destruct Ho as [_ Hsub]; [|done].
           rewrite Hw0 in Hsub. by apply subseteq_empty_map.
        -- destruct outcome; cbn in Ho; destruct Ho; congruence.
    + intros Hns. rewrite Es in Hns. destruct (H Hns) as (_ & H2 & H3).
      assert (Hq : queued s' pc (replace_nth n match o with Some i => [TRetry i] | None => [] end ts) g).
      { destruct o as [i|]; [eapply queued_new; [by left|]; cbn; congruence|].
        eapply (queued_replace s); [done|by rewrite Em|done|]. rewrite <- Hg. auto. }
      rewrite Eg, Hg. split_and!; [intros _; by apply queued_covered|done|].
      rewrite Et. intros Hmt. destruct (H3 Hmt) as (Hw0 & _ & _). rewrite Hw0 in Hw.
      by apply subseteq_empty_map in Hw.
Qed.

Lemma covered_worker s s' pc pc' ts g :
  mailbox s' = mailbox s ->
  (ct_generation <$> connection_task s = Some g -> covered s' pc' ts g) ->
  (worker_gen pc = Some g -> covered s' pc' ts g) ->
  covered s pc ts g -> covered s' pc' ts g.
Proof.
  intros Em Hc Hp [?|[(i & Hi & Ei)|[?|?]]]; auto; [by left|].
  right. left. exists i. by rewrite Em.
Qed.

Lemma queued_worker s s' pc pc' ts g :
  mailbox s' = mailbox s -> (receiver_gen pc = Some g -> queued s' pc' ts g) ->
  queued s pc ts g -> queued s' pc' ts g.
Proof. intros Em Hp [?|[(i & Hi & Ei)|?]]; auto; [by left|]. right. left. exists i. by rewrite Em. Qed.

Lemma covered_pc s pc ts g : worker_gen pc = Some g -> covered s pc ts g.
Proof. intros. by do 2 right; left. Qed.

Lemma covered_task s pc ts g : ct_generation <$> connection_task s = Some g -> covered s pc ts g.
Proof. intros. by do 3 right. Qed.

(** A worker section that leaves the intent alone: what it covered, itself or
    through the stored task, it still covers. *)
Lemma LiveCore_worker s s' pc pc' ts :
  same_intent (inner s) (inner s') -> mailbox s' = mailbox s -> mailbox_task s' = mailbox_task s ->
  (stopping (inner s) = false ->
   ct_generation <$> connection_task s = Some (generation (inner s)) ->
   covered s' pc' ts (generation (inner s))) ->
  (stopping (inner s) = false -> worker_gen pc = Some (generation (inner s)) ->
   covered s' pc' ts (generation (inner s))) ->
  (stopping (inner s) = false -> receiver_gen pc = Some (generation (inner s)) ->
   queued s' pc' ts (generation (inner s))) ->
  LiveCore s pc ts -> LiveCore s' pc' ts.
Proof.
  intros Hi Em Et H1 H2 H3. apply LiveCore_frame; [done|congruence|..]; intros Hs.
  - apply covered_worker; auto.
  - apply queued_worker; auto.
Qed.

Lemma is_current_false g s :
  is_current g s = false -> stopping (inner s) = false -> generation (inner s) ≠ g.
Proof. unfold is_current. intros H E. rewrite E in H. cbn in H. by bool_facts. Qed.

Ltac cover_task :=
  intros; apply covered_task; match goal with H : _ = Some _ |- _ => exact H end.

Lemma worker_live b pc s pc' new s' ts rs :
  worker_step b pc s = Some (pc', new, s') -> LiveAux s pc ts rs -> LiveCore s pc ts ->
  (forall g a r, pc = WInstall g a r -> connection_task s = None) ->
  LiveCore s' pc' ts.
Proof.
  intros E (A1 & A2 & A3 & A4 & A5) H Hni. destruct pc; cbn in E; try done.
  - destruct (is_current _ _) eqn:Hc; simplify_eq; (eapply LiveCore_worker; [..|exact H]); try done;
      cbn; intros Hs Hg; try (by cover_task).
    + by apply covered_pc.
    + by right; right.
    + pose proof (is_current_false _ _ Hc Hs). congruence.
    + pose proof (is_current_false _ _ Hc Hs). congruence.
  - destruct (attempt_section intent s) as [r s1] eqn:Ea.
    destruct (attempt_section_cases _ _ _ _ Ea) as ((Em & Et & Ec) & Es & Eg & Est & Ew & Hcase).
    destruct Hcase as [(-> & -> & Hst)|(q & -> & Hg & Hr)]; simplify_eq.
    + eapply LiveCore_worker; [..|exact H]; try done; cbn; intros Hs Hg;
        [by cover_task|destruct Hst; congruence..].
    + intros Hs. rewrite Es in Hs. destruct (H Hs) as (_ & _ & H3). rewrite Eg, Hr. split_and!; try done.
      * intros _. apply covered_pc. cbn. congruence.
      * rewrite Et. intros Hmt. destruct (H3 Hmt) as (? & ? & ?). unfold idle_inner. by rewrite Ew, Est.
  - unfold take_any_task in E. destruct (connection_task s) as [t|] eqn:Et; simplify_eq.
    + destruct (A4 t eq_refl) as (Hle & Hg & _). specialize (Hg _ _ eq_refl). cbn in A3.
      eapply LiveCore_worker; [..|exact H]; try done; intros Hs; rewrite ?Et; cbn; intros Hg';
        apply covered_pc; cbn; [|done]. simplify_eq. f_equal. lia.
    + eapply LiveCore_worker; [..|exact H]; try done; intros Hs; cbn; [by cover_task|].
      intros. by apply covered_pc.
  - simplify_eq. eapply LiveCore_worker; [..|exact H]; try done; intros Hs; cbn;
      [by cover_task|]. intros. by apply covered_pc.
  - unfold mark_child_started in E. destruct (1 <=? _); simplify_eq; (eapply LiveCore_worker; [..|exact H]);
      try done; intros Hs; cbn; try (by cover_task); intros; by apply covered_pc.
  - destruct b; simplify_eq; (eapply LiveCore_worker; [..|exact H]);
      try done; intros Hs; cbn; try (by cover_task); intros; by apply covered_pc.
  - simplify_eq. eapply LiveCore_worker; [..|exact H]; try done; intros Hs; cbn;
      [by cover_task|]. intros. by apply covered_pc.
  - simplify_eq. rewrite complete_err_section. destruct (complete_section _ _ _ s) as [r s1] eqn:Ecs.
    destruct (complete_section_cases _ _ _ _ _ _ Ecs) as ((Em & Et & Ec) & Es & Eg & Hcase). cbn.
    destruct Hcase as [(-> & -> & Hst)|[(k & -> & Hr & _ & Hst & Hw)|(k & o & _ & _ & Hok & _)]]; [| |done].
    + eapply LiveCore_worker; [..|exact H]; try done; intros Hs; cbn; [by cover_task|].
      intros. destruct Hst; congruence.
    + apply LiveCore_idle. split_and!; try done. congruence.
  - simplify_eq. eapply LiveCore_worker; [..|exact H]; try done; intros Hs Hg; cbn in *; apply covered_task.
    + by rewrite (Hni _ _ _ eq_refl) in Hg.
    + cbn. congruence.
  - destruct (is_current g s); simplify_eq; (eapply LiveCore_worker; [..|exact H]); try done; intros Hs; cbn;
      try done; by cover_task.
  - unfold take_task_for in E. destruct (connection_task s) as [t|] eqn:Et;
      [destruct (ct_generation t =? g) eqn:Eg|]; simplify_eq; (eapply LiveCore_worker; [..|exact H]); try done;
      intros Hs; rewrite ?Et; cbn; try done; intros Hg; try (apply covered_task; rewrite Et; by cbn).
    bool_facts. cbn in A3. destruct A3; [congruence|]. simplify_eq. lia.
  - simplify_eq. eapply LiveCore_worker; [..|exact H]; try done; intros Hs; cbn; try done; by cover_task.
Qed.

(** ** Generations only grow, and the flag [stopping] stays *)

Definition grows (s s' : PeerSupervisor) : Prop :=
  generation (inner s) <= generation (inner s')
  /\ (stopping (inner s) = true -> stopping (inner s') = true).

Lemma grows_refl_inner s s' : inner s' = inner s -> grows s s'.
Proof. intros E. unfold grows. by rewrite E. Qed.

Lemma grows_same s s' :
  generation (inner s') = generation (inner s) -> stopping (inner s') = stopping (inner s) -> grows s s'.
Proof. intros E1 E2. unfold grows. rewrite E1, E2. split; [lia|done]. Qed.

Lemma begin_grows c class m s : SupOk s -> grows s (begin_section c class m s).2.
Proof.
  intros (_ & _ & _ & _ & Hg). pose proof (next_generation_bounds _ Hg).
  destruct (begin_section c class m s) as [r s'] eqn:E.
  destruct (begin_section_cases _ _ _ _ _ _ E) as (_ & Es & [[(_ & Eg & _) _]|(b & w & _ & _ & _ & _ & _ & Hc)]);
    unfold grows; cbn; rewrite Es; (split; [|done]); [lia|]. destruct Hc as [(_ & ? & _)|(_ & ? & _)]; lia.
Qed.

Lemma invalidate_grows loss s : SupOk s -> grows s (invalidate loss s).2.
Proof.
  intros (_ & _ & _ & _ & Hg). pose proof (next_generation_bounds _ Hg).
  destruct (invalidate loss s) as [r s'] eqn:E.
  destruct (invalidate_cases _ _ _ _ E) as (_ & [[-> ->]|(-> & _ & Eg & Es)]); unfold grows; cbn; [split; [lia|done]|].
  rewrite Eg, Es. split; [lia|]. by destruct loss.
Qed.

Lemma thread_grows t s : grows s (thread_step t s).2.
Proof.
  destruct t; cbn.
  1-2: unfold try_or_fail, try_send; repeat case_match; simplify_eq; by apply grows_refl_inner.
  - apply grows_same; apply fail_cases.
  - unfold take_task_for. repeat case_match; simplify_eq; by apply grows_refl_inner.
  - by apply grows_same.
  - by apply grows_refl_inner.
  - by apply grows_same.
  - destruct (complete_section _ _ _ _) as [r s'] eqn:E.
    destruct (complete_section_cases _ _ _ _ _ _ E) as (_ & Es & Eg & _).
    apply grows_same; cbn; unfold publish_failure; repeat case_match; done.
Qed.

Lemma worker_grows b pc s pc' new s' : worker_step b pc s = Some (pc', new, s') -> grows s s'.
Proof.
  intros E. destruct pc; cbn in E; try done.
  8: { simplify_eq. rewrite complete_err_section. destruct (complete_section _ _ _ s) as [r s1] eqn:Ecs.
       destruct (complete_section_cases _ _ _ _ _ _ Ecs) as (_ & Es & Eg & _). by apply grows_same. }
  all: unfold attempt_section, take_any_task, mark_child_started, take_task_for in E; repeat case_match;
    simplify_eq; by apply grows_same.
Qed.

Lemma step_grows gated a w w' : SupOk (sup w) -> step gated a w = Some w' -> grows (sup w) (sup w').
Proof.
  intros H E. destruct a; cbn in E.
  - simplify_eq. cbn. unfold start_mailbox_worker. repeat case_match; by apply grows_refl_inner.
  - case_match; [done|]. pose proof (begin_grows command_id class maintain _ H).
    destruct (begin_section _ _ _ _). by simplify_eq.
  - pose proof (invalidate_grows loss _ H). destruct (invalidate _ _). by simplify_eq.
  - simplify_eq. cbn. unfold admit_inbound_with_capabilities. repeat case_match; by apply grows_same.
  - simplify_eq. cbn. unfold acquire_resource. repeat case_match; by apply grows_same.
  - simplify_eq. by apply grows_same.
  - simplify_eq. by apply grows_same.
  - repeat case_match; simplify_eq. by apply grows_same.
  - destruct (worker_step _ _ _) as [[[? ?] ?]|] eqn:Ew; simplify_eq. by eapply worker_grows.
  - case_match; [|done]. pose proof (thread_grows t (sup w)). destruct (thread_step _ _). by simplify_eq.
  - unfold take_connection_task in E. repeat case_match; simplify_eq; by apply grows_same.
  - repeat case_match; simplify_eq. by apply grows_same.
  - repeat case_match; simplify_eq. by apply grows_same.
Qed.

Lemma pc_bound_mono s s' pc :
  grows s s' -> pc_bound (stopping (inner s)) (generation (inner s)) pc ->
  pc_bound (stopping (inner s')) (generation (inner s')) pc.
Proof. intros [Hg Hs]. destruct pc; cbn; try lia. intros [?|?]; [by auto|lia]. Qed.

Lemma LiveAux_frame s s' pc ts ts' rs :
  grows s s' -> connection_task s' = connection_task s \/ connection_task s' = None ->
  (TStopWorker ∈ ts' -> TStopWorker ∈ ts \/ stopping (inner s') = true) ->
  (forall g, TCancel g ∈ ts' -> TCancel g ∈ ts \/ g < generation (inner s')) ->
  LiveAux s pc ts rs -> LiveAux s' pc ts' rs.
Proof.
  intros Hgr Hct Hst Hca (A1 & A2 & A3 & A4 & A5). pose proof Hgr as [Hg Hs]. unfold LiveAux. split_and!.
  - intros [?|?]%Hst; auto.
  - intros g [?%A2|?]%Hca; lia.
  - by eapply pc_bound_mono.
  - intros t Ht. destruct Hct as [E|E]; rewrite E in Ht; [|done].
    destruct (A4 t Ht) as (? & ? & ?). split_and!; try done; lia.
  - done.
Qed.

Lemma worker_aux b pc s pc' new s' ts rs :
  worker_step b pc s = Some (pc', new, s') -> LiveAux s pc ts rs -> LiveAux s' pc' ts (new ++ rs).
Proof.
  intros E H. pose proof (worker_grows _ _ _ _ _ _ E) as Hgr.
  assert (HF : (connection_task s' = connection_task s \/ connection_task s' = None) -> new = [] ->
               pc_bound (stopping (inner s')) (generation (inner s')) pc' ->
               (forall t g r, connection_task s = Some t -> pc' = WCancel g r -> ct_generation t <= g) ->
               (forall g a r, pc' ≠ WInstall g a r) -> LiveAux s' pc' ts (new ++ rs)).
  { intros Hct -> Hb Hc Hi. cbn.
    assert (LiveAux s' pc ts rs) as (B1 & B2 & B3 & B4 & B5) by (eapply LiveAux_frame; eauto).
    split_and!; try done; [|intros g a r E'; by apply Hi in E'].
    intros t Ht. destruct (B4 t Ht) as (? & _ & ?). split_and!; try done.
    intros g r ->. destruct Hct as [E'|E']; rewrite E' in Ht; [|done]. by eapply Hc. }
  destruct H as (A1 & A2 & A3 & A4 & A5). destruct Hgr as [Hg Hs]. destruct pc; cbn in E, A3; try done.
  - destruct (is_current _ _); simplify_eq; apply HF; auto; done.
  - destruct (attempt_section intent s) as [r s1] eqn:Ea.
    destruct (attempt_section_cases _ _ _ _ Ea) as ((Em & Et & Ec) & Es & Eg & _ & _ & Hcase).
    destruct Hcase as [(-> & -> & Hst)|(q & -> & Hgen & Hr)]; simplify_eq; apply HF; auto; try done; cbn.
    + lia.
    + intros t g r Ht [= <- _]. destruct (A4 t Ht). lia.
  - unfold take_any_task in E. destruct (connection_task s) as [t|] eqn:Et; simplify_eq; apply HF; auto; done.
  - simplify_eq. apply HF; auto; done.
  - unfold mark_child_started in E. destruct (1 <=? _); simplify_eq; apply HF; auto; done.
  - destruct b; simplify_eq; [|apply HF; auto; done]. cbn. unfold LiveAux. split_and!; try done; cbn.
    + intros t Ht. destruct (A4 t Ht) as (? & ? & ?). split_and!; try done. by right.
    + intros ? ? ? [= <- <- _]. by left.
  - simplify_eq. apply HF; auto; done.
  - simplify_eq. rewrite complete_err_section in *. destruct (complete_section _ _ _ s) as [r s1] eqn:Ecs.
    destruct (complete_section_cases _ _ _ _ _ _ Ecs) as ((_ & _ & Ec) & _ & _ & _). apply HF; auto; done.
  - simplify_eq. cbn. unfold LiveAux. split_and!; try done.
    cbn. intros t [= <-]. split_and!; try done. cbn. eapply A5. done.
  - destruct (is_current g s) eqn:Hc; simplify_eq; apply HF; auto; try done. cbn.
    destruct (stopping (inner s')) eqn:Hst; [by left|]. right.
    pose proof (is_current_false _ _ Hc Hst). lia.
  - unfold take_task_for in E. destruct (connection_task s) as [t|] eqn:Et;
      [destruct (ct_generation t =? g) eqn:Eg|]; simplify_eq; apply HF; auto; done.
  - simplify_eq. apply HF; auto; done.
Qed.

Lemma thread_aux t s pc ts rs n :
  ts !! n = Some t -> LiveAux s pc ts rs ->
  LiveAux (thread_step t s).2 pc (replace_nth n (thread_step t s).1 ts) rs.
Proof.
  intros Ht H. pose proof (thread_grows t s) as Hgr.
  assert (Hnew : forall u, u ∈ (thread_step t s).1 -> (u = TStopWorker \/ exists g, u = TCancel g) -> False).
  { intros u Hu Hc. destruct t; cbn in Hu; unfold try_or_fail in Hu; repeat case_match; simplify_eq; cbn in Hu;
      repeat (apply elem_of_cons in Hu as [->|Hu]); try (by apply elem_of_nil in Hu);
      destruct Hc as [?|[? ?]]; done. }
  eapply (LiveAux_frame s); try done.
  - destruct t; cbn; try by left.
    1-2: unfold try_or_fail, try_send; repeat case_match; simplify_eq; by left.
    + left. apply fail_cases.
    + unfold take_task_for. repeat case_match; simplify_eq; cbn; auto.
    + destruct (complete_section _ _ _ _) as [r s'] eqn:E.
      destruct (complete_section_cases _ _ _ _ _ _ E) as ((_ & _ & Ec) & _). left.
      cbn. unfold publish_failure. repeat case_match; done.
  - intros [?|?]%(elem_of_replace_nth t _ _ _ _ Ht); [|by left]. exfalso. eauto.
  - intros g [?|?]%(elem_of_replace_nth t _ _ _ _ Ht); [|by left]. exfalso. eauto.
Qed.

Lemma covered_app s s' pc ts new g :
  (forall i, i ∈ mailbox s -> i ∈ mailbox s') ->
  (ct_generation <$> connection_task s = Some g -> covered s' pc (ts ++ new) g) ->
  covered s pc ts g -> covered s' pc (ts ++ new) g.
Proof.
  intros Hm Hc [(t & Ht & Eg)|[(i & ? & ?)|[?|?]]]; auto.
  - left. exists t. rewrite elem_of_app. auto.
  - right. left. eauto.
  - by do 2 right; left.
Qed.

Lemma queued_app s s' pc ts new g :
  (forall i, i ∈ mailbox s -> i ∈ mailbox s') -> queued s pc ts g -> queued s' pc (ts ++ new) g.
Proof.
  intros Hm [(t & Ht & Eg)|[(i & ? & ?)|?]].
  - left. exists t. rewrite elem_of_app. auto.
  - right. left. eauto.
  - by do 2 right.
Qed.

Lemma queued_last s pc ts t g : sender_gen t = Some g -> queued s pc (ts ++ [t]) g.
Proof. intros E. left. exists t. rewrite elem_of_app, list_elem_of_singleton. auto. Qed.

(** The supervisor changes, the threads do not, and the intent neither. *)
Lemma live_sup w s :
  same_intent (inner (sup w)) (inner s) -> same_queue (sup w) s ->
  LiveCore (sup w) (worker w) (threads w) /\ LiveAux (sup w) (worker w) (threads w) (running w) ->
  LiveCore s (worker w) (threads w) /\ LiveAux s (worker w) (threads w) (running w).
Proof.
  intros Hi (Em & Et & Ec) [H1 H2]. split.
  - eapply LiveCore_worker; [..|exact H1]; try done; intros _ Hg.
    + apply covered_task. by rewrite Ec.
    + by apply covered_pc.
    + by right; right.
  - destruct Hi as (_ & Eg & _ & _ & Es).
    apply (LiveAux_frame (sup w) s (worker w) (threads w)); auto. by apply grows_same.
Qed.

Lemma begin_live w c class m r s :
  begin_section c class m (sup w) = (r, s) ->
  SupOk (sup w) -> mailbox_task (sup w) = true ->
  LiveCore (sup w) (worker w) (threads w) -> LiveAux (sup w) (worker w) (threads w) (running w) ->
  let ts := threads w ++ match r with
                         | Ok b => if b_queue b then [TSend (b_generation b) (from_class class) c] else []
                         | Err _ => [] end in
  LiveCore s (worker w) ts /\ LiveAux s (worker w) ts (running w).
Proof.
  intros E Hok Hmt H HA ts. pose proof (begin_grows c class m _ Hok) as Hgr. rewrite E in Hgr.
  destruct (begin_section_cases _ _ _ _ _ _ E) as ((Em & Et & Ec) & Es & Hcase). split.
  2: { apply (LiveAux_frame (sup w) s (worker w) (threads w)); [exact Hgr|by left|..|exact HA]; subst ts.
       - intros [?|Hin]%elem_of_app; [by left|]. repeat case_match; set_solver.
       - intros g [?|Hin]%elem_of_app; [by left|]. repeat case_match; set_solver. }
  destruct Hcase as [[Hi Hq]|(b & w0 & -> & Hb & Hst & Hw & Hws & Hcase)].
  - replace ts with (threads w ++ []) by (subst ts; destruct r; [rewrite Hq|]; done).
    rewrite app_nil_r. by apply (live_sup w s Hi).
  - intros Hns. rewrite Es in Hns. destruct (H Hns) as (H1 & H2 & _). rewrite Et. split_and!; [intros _| |congruence].
    + destruct Hcase as [(Hq & _)|(Hcn & Hg & _)].
      * apply queued_covered. subst ts. rewrite Hq. apply queued_last. cbn. congruence.
      * rewrite Hg. apply (covered_app (sup w)); [by rewrite Em|intros; apply covered_task; by rewrite Ec|].
        apply H1. by left.
    + intros Hr. destruct (b_queue b) eqn:Hq; [subst ts; apply queued_last; cbn; congruence|].
      destruct Hcase as [(? & _)|(Hcn & Hg & [?|Hrt])]; try done. rewrite Hg.
      apply (queued_app (sup w)); [by rewrite Em|]. apply H2. congruence.
Qed.

Lemma installing_no_task w :
  WorldAttempts w -> forall g a r, worker w = WInstall g a r -> connection_task (sup w) = None.
Proof.
  intros HA g a r E. destruct (connection_task (sup w)) as [t|] eqn:Et; [|done].
  pose proof (task_not_installing w t a HA Et) as Hn. rewrite E in Hn. cbn in Hn.
  by rewrite Z.eqb_refl in Hn.
Qed.

(** The tasks in charge stay among the running ones when another one ends. *)
Lemma LiveAux_remove s pc ts rs n x :
  rs !! n = Some x ->
  (forall t, connection_task s = Some t -> (ct_generation t, ct_attempt t) ≠ x) ->
  (forall g a r, pc = WInstall g a r -> (g, a) ≠ x) ->
  LiveAux s pc ts rs -> LiveAux s pc ts (take n rs ++ drop (S n) rs).
Proof.
  intros Hx Ht Hi (A1 & A2 & A3 & A4 & A5). unfold LiveAux. split_and!; try done.
  - intros t Et. destruct (A4 t Et) as (? & ? & ?). split_and!; try done. eapply elem_of_remove; eauto.
  - intros g a r E. eapply elem_of_remove; eauto.
Qed.

Lemma finish_live w w' n outcome :
  step true (AFinish n outcome) w = Some w' -> WorldAttempts w ->
  LiveCore (sup w) (worker w) (threads w) -> LiveAux (sup w) (worker w) (threads w) (running w) ->
  LiveCore (sup w') (worker w') (threads w') /\ LiveAux (sup w') (worker w') (threads w') (running w').
Proof.
  intros E HA H HX. cbn in E. destruct (running w !! n) as [[g a]|] eqn:Er; [|done].
  destruct (installing a (worker w)) eqn:Hni; [done|]. unfold take_connection_task in E.
  assert (Hpc : forall g' a' r, worker w = WInstall g' a' r -> (g', a') ≠ (g, a)).
  { intros g' a' r Ew [= -> ->]. rewrite Ew in Hni. cbn in Hni. by rewrite Z.eqb_refl in Hni. }
  assert (Hother : (forall t, connection_task (sup w) = Some t -> (ct_generation t, ct_attempt t) ≠ (g, a)) ->
                   LiveAux (sup w) (worker w) (threads w) (take n (running w) ++ drop (S n) (running w))).
  { intros Ht. by eapply LiveAux_remove. }
  destruct (connection_task (sup w)) as [t|] eqn:Et;
    [destruct ((ct_generation t =? g) && (ct_attempt t =? a)) eqn:Em|]; simplify_eq; cbn.
  - bool_facts. subst. split.
    + eapply LiveCore_frame; [..|exact H]; try done; intros _.
      * apply covered_app; [done|]. rewrite Et. cbn. intros [= Hg]. left. eexists.
        rewrite elem_of_app, list_elem_of_singleton. split; [by right|]. cbn. congruence.
      * by apply queued_app.
    + destruct HX as (A1 & A2 & A3 & A4 & A5). unfold LiveAux. split_and!; try done; cbn.
      * intros [?|?%list_elem_of_singleton]%elem_of_app; auto. done.
      * intros g [?|?%list_elem_of_singleton]%elem_of_app; auto. done.
      * intros g a r Ew. eapply elem_of_remove; eauto.
  - split; [done|]. apply Hother. intros t' [= <-] [= E1 E2]. by rewrite E1, E2, !Z.eqb_refl in Em.
  - split; [done|]. by apply Hother.
Qed.

Lemma step_live a w w' :
  step true a w = Some w' -> SupOk (sup w) -> WorldAttempts w -> WorldFresh w -> WorldLive w -> WorldLive w'.
Proof.
  intros E Hok HA HF HL Hmax. pose proof (step_grows _ _ _ _ Hok E) as [Hg _].
  destruct (HL ltac:(lia)) as [H HX]. destruct a; cbn in E.
  - simplify_eq. cbn in *. unfold start_mailbox_worker in *. repeat case_match; try done; cbn.
    + split; [|by apply (LiveAux_frame (sup w) _ (worker w) (threads w)); auto; apply grows_same].
      by eapply LiveCore_frame; [..|exact H].
    + split; [|by apply (LiveAux_frame (sup w) _ (worker w) (threads w)); auto; apply grows_same].
      intros Hs. destruct (H Hs) as (_ & _ & H3). by apply LiveCore_idle; [apply H3|].
  - destruct (negb (mailbox_task (sup w)) || _ || _) eqn:Hgd; [done|]. bool_facts.
    destruct (begin_section _ _ _ _) as [r s] eqn:Eb. simplify_eq. cbn. by eapply begin_live.
  - destruct (invalidate loss (sup w)) as [r s] eqn:Ei. simplify_eq. cbn in *.
    destruct (invalidate_cases _ _ _ _ Ei) as ((Em & Et & Ec) & [[-> ->]|(-> & Hid & Eg & Es)]).
    { by rewrite app_nil_r. }
    split; [by apply LiveCore_idle|]. pose proof (invalidate_grows loss _ Hok) as Hgr. rewrite Ei in Hgr.
    destruct Hok as (_ & _ & _ & _ & Hgb). unfold next_generation, saturating_add in Eg.
    apply (LiveAux_frame (sup w) s (worker w) (threads w)); [exact Hgr|by left|..|exact HX].
    + intros [?|Hin]%elem_of_app; [by left|right]. destruct loss; set_solver.
    + intros g [?|Hin]%elem_of_app; [by left|right]. apply elem_of_cons in Hin as [[= ->]|Hin]; [lia|].
      destruct loss; set_solver.
  - simplify_eq. cbn in *. unfold admit_inbound_with_capabilities in *. cbn in *. case_match; [done|]. cbn in *. split.
    + intros Hs. destruct (H Hs) as (H1 & H2 & H3). cbn. split_and!; [|done|].
      * intros [?|Hw]; [done|]. apply H1. by right.
      * intros Hmt. destruct (H3 Hmt) as (? & ? & ?). done.
    + apply (LiveAux_frame (sup w) _ (worker w) (threads w)); auto. by apply grows_same.
  - simplify_eq. cbn in *. unfold acquire_resource in *. repeat case_match; try done; by apply live_sup.
  - simplify_eq. by apply live_sup.
  - simplify_eq. by apply live_sup.
  - destruct (worker w) eqn:Ew; try done. destruct (mailbox (sup w)) as [|i0 queue] eqn:Emb; [done|].
    case_match; simplify_eq. cbn in *. split.
    + eapply LiveCore_frame; [..|exact H]; try done; intros _.
      * intros [?|[(i & Hi & Ei)|[?|?]]]; [by left| |done|by do 3 right].
        rewrite Emb in Hi. apply elem_of_cons in Hi as [->|Hi]; [by do 2 right; left; cbn; f_equal|]. right. left. eauto.
      * intros [?|[(i & Hi & Ei)|?]]; [by left| |done].
        rewrite Emb in Hi. apply elem_of_cons in Hi as [->|Hi]; [by do 2 right; cbn; f_equal|]. right. left. eauto.
    + destruct HX as (A1 & A2 & A3 & A4 & A5). unfold LiveAux. split_and!; try done.
      cbn. intros t Ht. destruct (A4 t Ht) as (? & ? & ?). by split_and!.
  - destruct (worker_step _ _ _) as [[[? ?] ?]|] eqn:Ew; simplify_eq. cbn.
    split; [|by eapply worker_aux]. eapply worker_live; eauto. by apply installing_no_task.
  - destruct (threads w !! n) as [t|] eqn:Et; [|done].
    pose proof (thread_live t (sup w) (worker w) _ (running w) n ltac:(lia) Et HX H).
    pose proof (thread_aux t _ _ _ _ n Et HX). destruct (thread_step _ _). by simplify_eq.
  - by eapply finish_live.
  - destruct (running w !! n) as [[g a]|] eqn:Er; [|done]. case_bool_decide as Hab; simplify_eq. cbn.
    split; [done|]. destruct HF as [_ HF]. eapply LiveAux_remove; eauto.
    + intros t Et [= _ Ea]. eapply HF; [|exact Hab]. left. rewrite Et. cbn. by rewrite Ea.
    + intros ? ? ? Ew [= _ Ea]. eapply HF; [|exact Hab]. right. rewrite Ew. cbn. by apply Z.eqb_eq.
  - repeat case_match; simplify_eq. cbn in *. bool_facts. split; [intros Hs; cbn in Hs; congruence|].
    apply (LiveAux_frame (sup w) _ WIdle (threads w)); auto. by apply grows_same.
Qed.

(** ** The mailbox has a receiver as long as it has a worker *)

Definition MailboxOk (s : PeerSupervisor) : Prop :=
  (mailbox_task s = true -> mailbox_rx s = false /\ mailbox_open s = true)
  /\ (mailbox_rx s = true -> mailbox_open s = true).

Definition same_box (s s' : PeerSupervisor) : Prop :=
  mailbox_rx s' = mailbox_rx s /\ mailbox_open s' = mailbox_open s
  /\ (mailbox_task s' = true -> mailbox_task s = true).

Lemma same_box_ok s s' : same_box s s' -> MailboxOk s -> MailboxOk s'.
Proof. intros (E1 & E2 & E3) [H1 H2]. unfold MailboxOk. rewrite E1, E2. auto. Qed.

Ltac same_box_tac :=
  repeat case_match; simplify_eq; unfold same_box; cbn; split_and!; done.

Lemma complete_box g ready r s : same_box s (complete_section g ready r s).2.
Proof. unfold complete_section. same_box_tac. Qed.

Lemma thread_box t s : same_box s (thread_step t s).2.
Proof.
  destruct t; cbn.
  1-2: unfold try_or_fail, try_send; same_box_tac.
  - unfold fail_generation. same_box_tac.
  - unfold take_task_for. same_box_tac.
  - done.
  - done.
  - done.
  - pose proof (complete_box g ready (attempt_completion outcome) s).
    destruct (complete_section _ _ _ _) as [r s']. cbn. unfold publish_failure. by repeat case_match.
Qed.

Lemma worker_box b pc s pc' new s' : worker_step b pc s = Some (pc', new, s') -> same_box s s'.
Proof.
  intros E. destruct pc; cbn in E; try done.
  8: { simplify_eq. rewrite complete_err_section. apply complete_box. }
  all: unfold attempt_section, take_any_task, mark_child_started, take_task_for in E; repeat case_match;
    simplify_eq; done.
Qed.

Lemma begin_box c class m s : same_box s (begin_section c class m s).2.
Proof.
  unfold begin_section. case_match; [done|]. set (s1 := if m then _ else s).
  assert (same_box s s1) as (E1 & E2 & E3) by (subst s1; by destruct m). clearbody s1.
  unfold answer_at_once, join_or_start, same_box. rewrite <- E1, <- E2.
  repeat case_match; simplify_eq; cbn; split_and!; done.
Qed.

Lemma step_mailbox gated a w w' :
  step gated a w = Some w' -> MailboxOk (sup w) -> MailboxOk (sup w').
Proof.
  intros E H. destruct a; cbn in E.
  - simplify_eq. cbn. unfold start_mailbox_worker. destruct (mailbox_task (sup w)); [done|].
    destruct (mailbox_rx (sup w)) eqn:Hr; [|done]. destruct H as [_ H].
    destruct accepted; cbn; unfold MailboxOk; cbn; auto.
  - case_match; [done|]. pose proof (begin_box command_id class maintain (sup w)) as Hb.
    destruct (begin_section _ _ _ _). simplify_eq. by eapply same_box_ok.
  - simplify_eq. destruct (invalidate loss (sup w)) as [r s] eqn:Ei. simplify_eq. cbn.
    eapply same_box_ok; [|exact H]. destruct loss; unfold invalidate, invalidate_section in Ei; same_box_tac.
  - simplify_eq. eapply same_box_ok; [|exact H]. cbn. unfold admit_inbound_with_capabilities. same_box_tac.
  - simplify_eq. eapply same_box_ok; [|exact H]. cbn. unfold acquire_resource. same_box_tac.
  - simplify_eq. by eapply same_box_ok.
  - simplify_eq. by eapply same_box_ok.
  - repeat case_match; simplify_eq. by eapply same_box_ok.
  - destruct (worker_step _ _ _) as [[[? ?] ?]|] eqn:Ew; simplify_eq. cbn.
    eapply same_box_ok; [|exact H]. by eapply worker_box.
  - case_match; [|done]. pose proof (thread_box t (sup w)). destruct (thread_step _ _). simplify_eq.
    by eapply same_box_ok.
  - unfold take_connection_task in E. repeat case_match; simplify_eq; by eapply same_box_ok.
  - repeat case_match; by simplify_eq.
  - repeat case_match; simplify_eq. bool_facts. unfold MailboxOk. cbn. split; [done|congruence].
Qed.

(** ** Without inbound admissions every waiter belongs to the current intent *)

Definition CurrentOnly (i : PeerInner) : Prop :=
  (forall c x, waiters i !! c = Some x -> w_generation x = generation i)
  /\ (state i ≠ Connecting -> waiters i = ∅).

Definition no_admission (a : Action) : bool := match a with AAdmit _ => false | _ => true end.

Lemma CurrentOnly_same i i' :
  state i' = state i -> generation i' = generation i -> waiters i' = waiters i ->
  CurrentOnly i -> CurrentOnly i'.
Proof. intros E1 E2 E3. unfold CurrentOnly. by rewrite E1, E2, E3. Qed.

Lemma CurrentOnly_empty i : waiters i = ∅ -> CurrentOnly i.
Proof. intros E. split; [|done]. intros c x Hx. by rewrite E, lookup_empty in Hx. Qed.

Lemma CurrentOnly_complete g ready r s :
  CurrentOnly (inner s) -> CurrentOnly (inner (complete_section g ready r s).2).
Proof.
  intros [H1 H2]. destruct (complete_section g ready r s) as [o s'] eqn:E.
  destruct (complete_section_cases _ _ _ _ _ _ E) as (_ & _ & Eg & Hc). cbn.
  destruct Hc as [(-> & _)|[(n & _ & _ & Hw & Ho)|(n & o' & _ & _ & _ & Hst & Hw & _)]]; [done| |].
  - apply CurrentOnly_empty. destruct r; destruct Ho as [_ Hsub]; [|done].
    apply map_empty. intros c. destruct (waiters (inner s') !! c) as [x|] eqn:Hx; [|done].
    exfalso. apply (Hw c x Hx). rewrite Eg. by eapply H1, lookup_weaken.
  - split; [|congruence]. intros c x Hx. rewrite Eg. by eapply H1, lookup_weaken.
Qed.

Lemma CurrentOnly_thread t s : CurrentOnly (inner s) -> CurrentOnly (inner (thread_step t s).2).
Proof.
  intros H. destruct t; cbn.
  1-2: unfold try_or_fail, try_send; repeat case_match; simplify_eq; done.
  - destruct (fail_cases g reason s) as (_ & _ & _ & [[-> _]|(Hw & _)]); [done|by apply CurrentOnly_empty].
  - unfold take_task_for. repeat case_match; simplify_eq; done.
  - done.
  - done.
  - done.
  - pose proof (CurrentOnly_complete g ready (attempt_completion outcome) s H).
    destruct (complete_section _ _ _ _) as [r s']. cbn. unfold publish_failure. by repeat case_match.
Qed.

Lemma CurrentOnly_worker b pc s pc' new s' :
  worker_step b pc s = Some (pc', new, s') -> CurrentOnly (inner s) -> CurrentOnly (inner s').
Proof.
  intros E H. destruct pc; cbn in E; try done.
  8: { simplify_eq. rewrite complete_err_section. by apply CurrentOnly_complete. }
  all: unfold attempt_section, take_any_task, mark_child_started, take_task_for in E; repeat case_match;
    simplify_eq; done.
Qed.

Lemma step_current gated a w w' :
  step gated a w = Some w' -> no_admission a = true ->
  CurrentOnly (inner (sup w)) -> CurrentOnly (inner (sup w')).
Proof.
  intros E Hna H. destruct a; cbn in E; try done.
  - simplify_eq. cbn. unfold start_mailbox_worker. by repeat case_match.
  - case_match; [done|]. destruct (begin_section _ _ _ _) as [r s] eqn:Eb. simplify_eq. cbn.
    destruct (begin_section_cases _ _ _ _ _ _ Eb) as (_ & _ & [[(E1 & E2 & E3 & _) _]|(b & x & _ & _ & Hst & Hx & Hw & Hc)]).
    { by eapply CurrentOnly_same. }
    split; [|congruence]. intros c y. rewrite Hw. intros [[<- <-]|[_ Hy]]%lookup_insert_Some; [done|].
    destruct H as [H1 H2]. destruct Hc as [(_ & _ & Hns)|(_ & -> & _)]; [|by eapply H1].
    by rewrite H2, lookup_empty in Hy.
  - destruct (invalidate loss (sup w)) as [r s] eqn:Ei. simplify_eq. cbn.
    destruct (invalidate_cases _ _ _ _ Ei) as (_ & [[_ ->]|(_ & (Hw & _) & _)]); [done|by apply CurrentOnly_empty].
  - simplify_eq. cbn. unfold acquire_resource. by repeat case_match.
  - by simplify_eq.
  - by simplify_eq.
  - repeat case_match; by simplify_eq.
  - destruct (worker_step _ _ _) as [[[? ?] ?]|] eqn:Ew; simplify_eq. by eapply CurrentOnly_worker.
  - case_match; [|done]. pose proof (CurrentOnly_thread t _ H). destruct (thread_step _ _). by simplify_eq.
  - unfold take_connection_task in E. repeat case_match; by simplify_eq.
  - repeat case_match; by simplify_eq.
  - repeat case_match; by simplify_eq.
Qed.
End Live.
