(* ===== verification/PeerLifecycle.v ===== *)
(** * The peer supervisor's theorems

    What holds in every interleaving of [PeerSupervisorRuns.v], what holds when
    attempts finish after their task is stored, and the interleavings in which
    the source loses or fails a request. *)
From S2P Require Import Prelude Profile PeerSupervisor PeerSupervisorRuns PeerSupervisorProofs.
From S2P Require Import PeerSupervisorLive.

#[export] Instance WorkerPc_idle_dec pc : Decision (pc = WIdle).
Proof. destruct pc; (by left) || (by right). Defined.

Section Theorems.
Context {HO : HashOrder string Waiter}.

Definition WorldOk (w : World) : Prop :=
  SupOk (sup w) /\ WorldAttempts w /\ WorldFresh w /\ MailboxOk (sup w).

Lemma world_new_ok : WorldOk world_new.
Proof.
  split_and!.
  - split_and!; try done. split_and!; try done; [constructor|]. intros c H. by apply elem_of_nil in H.
  - split_and!; cbn; try done; [constructor| |by intros a [?|?]].
    intros g a H. by apply elem_of_nil in H.
  - split; cbn; [intros a H; by apply elem_of_nil in H|by intros a [?|?]].
  - done.
Qed.

Lemma run_ok gated l w w' : run gated l w = Some w' -> WorldOk w -> WorldOk w'.
Proof.
  revert w. induction l as [|a l IH]; intros w; cbn; [by intros [= <-]|].
  destruct (step gated a w) as [w1|] eqn:E; [|done]. intros Hr (H1 & H2 & H3 & H4). apply (IH w1 Hr).
  split_and!; [by eapply step_sup_ok|by eapply step_attempts|by eapply step_fresh|by eapply step_mailbox].
Qed.

Lemma world_new_live : WorldLive world_new.
Proof.
  intros _. split.
  - apply LiveCore_idle. by split_and!.
  - split_and!; cbn; try done; [by intros ?%elem_of_nil|by intros g ?%elem_of_nil].
Qed.

Lemma run_live l w w' : run true l w = Some w' -> WorldOk w -> WorldLive w -> WorldLive w'.
Proof.
  revert w. induction l as [|a l IH]; intros w; cbn; [by intros [= <-]|].
  destruct (step true a w) as [w1|] eqn:E; [|done]. intros Hr Hok HL. pose proof Hok as (H1 & H2 & H3 & H4).
  apply (IH w1 Hr).
  - by apply (run_ok true [a] w); [cbn; rewrite E|].
  - by eapply step_live.
Qed.

Lemma run_current gated l w w' :
  run gated l w = Some w' -> forallb no_admission l = true ->
  CurrentOnly (inner (sup w)) -> CurrentOnly (inner (sup w')).
Proof.
  revert w. induction l as [|a l IH]; intros w; cbn; [by intros [= <-]|].
  destruct (step gated a w) as [w1|] eqn:E; [|done]. intros Hr Hna Hc. bool_facts.
  eapply IH; eauto. by eapply step_current.
Qed.

(** Two attempts that were not aborted are the same one. *)
Lemma attempts_unique w x y :
  WorldAttempts w -> x ∈ running w -> y ∈ running w ->
  x.2 ∉ aborted (sup w) -> y.2 ∉ aborted (sup w) -> x = y.
Proof.
  intros HA Hx Hy Hnx Hny. pose proof HA as (_ & _ & Hnd & Hr & _). destruct x as [g a], y as [h b]. cbn in *.
  assert (a = b) as <-.
  { destruct (Hr _ _ Hx) as [_ [?|Ca]]; [done|]. destruct (Hr _ _ Hy) as [_ [?|Cb]]; [done|].
    pose proof (task_not_installing w) as Hn.
    destruct (connection_task (sup w)) as [t|] eqn:Et.
    - destruct Ca as [Ca|Ca]; [|by rewrite (Hn t a) in Ca]. destruct Cb as [Cb|Cb]; [|by rewrite (Hn t b) in Cb].
      cbn in *. congruence.
    - destruct Ca as [?|Ca]; [done|]. destruct Cb as [?|Cb]; [done|].
      destruct (worker w); cbn in *; try done. bool_facts. congruence. }
  f_equal. clear -Hnd Hx Hy. apply list_elem_of_lookup in Hx as [i Hi]. apply list_elem_of_lookup in Hy as [j Hj].
  assert (i = j) as ->.
  { eapply NoDup_lookup; [exact Hnd|..]; rewrite list_lookup_fmap; [by rewrite Hi|by rewrite Hj]. }
  congruence.
Qed.

(** The actions of the supervisor's own threads, as opposed to new requests and
    events from outside. *)
Definition internal (a : Action) : bool :=
  match a with ARecv | AWork _ | AThread _ | AFinish _ _ => true | _ => false end.

Lemma worker_enabled w :
  worker w ≠ WIdle -> exists w', step true (AWork true) w = Some w'.
Proof.
  intros H. cbn. destruct (worker w); try done; cbn; repeat case_match; simplify_eq; eauto.
Qed.

Lemma covered_enabled w g :
  WorldOk w -> mailbox_task (sup w) = true ->
  LiveAux (sup w) (worker w) (threads w) (running w) ->
  covered (sup w) (worker w) (threads w) g ->
  exists a w', internal a = true /\ step true a w = Some w'.
Proof.
  intros (_ & _ & _ & [Hmb _]) Hmt (_ & _ & _ & A4 & _) Hc. destruct (Hmb Hmt) as [Hrx Hop].
  destruct (decide (worker w = WIdle)) as [Hw|Hw].
  2: { destruct (worker_enabled w Hw) as [w' Hw']. by exists (AWork true), w'. }
  destruct Hc as [(t & Ht & _)|[(i & Hi & _)|[Hp|Hct]]].
  - apply list_elem_of_lookup in Ht as [n Hn]. exists (AThread n). cbn. rewrite Hn.
    destruct (thread_step t (sup w)). by eexists.
  - exists ARecv. cbn. rewrite Hw. destruct (mailbox (sup w)); [by apply elem_of_nil in Hi|].
    rewrite Hrx, Hop. by eexists.
  - by rewrite Hw in Hp.
  - destruct (connection_task (sup w)) as [t|] eqn:Et; [|done]. destruct (A4 t eq_refl) as (_ & _ & Hin).
    apply list_elem_of_lookup in Hin as [n Hn]. exists (AFinish n (Ok tt)). cbn. rewrite Hn, Hw.
    destruct (take_connection_task _ _ _) as [[?|] ?]; by eexists.
Qed.
End Theorems.

(** ** Theorems *)

(** C14. In every interleaving of callers, worker and attempts, whatever their
    outcomes: each request's channel is answered at most once and never while
    the request still waits; waiters, mailbox, resources and children stay
    within their limits; and at most one attempt has not been aborted. *)
Theorem supervisor_invariant {HO : HashOrder string Waiter} gated l w :
  run gated l world_new = Some w ->
  let s := sup w in
  NoDup (completions s).*1
  /\ (forall c x, waiters (inner s) !! c = Some x ->
        w_command x = c /\ (w_sender x ∉ (completions s).*1) /\ w_generation x <= generation (inner s))
  /\ map_len (waiters (inner s)) <= MAX_PEER_WAITERS
  /\ len (mailbox s) <= PEER_MAILBOX_CAPACITY
  /\ 0 <= resources (inner s) <= MAX_PEER_RESOURCES
  /\ 0 <= active_children (inner s) <= 1
  /\ (forall x y, x ∈ running w -> y ∈ running w ->
        x.2 ∉ aborted s -> y.2 ∉ aborted s -> x = y).
Proof.
  intros Hr s. destruct (run_ok _ _ _ _ Hr world_new_ok) as ((Hc & Hm & Hb & Hrs & _) & HA & _ & _).
  destruct Hc as (Hw & _ & Hn & _). split_and!; try done; try apply Hrs.
  - intros c x Hx. destruct (Hw c x Hx) as (? & ? & _ & ?). done.
  - destruct HA as (Ha & _). pose proof (worker_children_nonneg (worker w)).
    pose proof (threads_children_nonneg (threads w)). subst s.
    destruct (connection_task (sup w)); cbn in *; lia.
  - apply HA.
  - intros x y. by apply attempts_unique.
Qed.


(** A request that an attempt answers: the worker is started, the intent
    queued, received and attempted, and the attempt succeeds. *)
Definition attempt_actions : list Action := repeat (AWork true) 5.
Definition connect_run : list Action :=
  [AStartWorker true; ABegin "a" ReliableMessage true; AThread 0; ARecv] ++ attempt_actions
    ++ [AWork true; AWork true].

Lemma supervisor_invariant_witness :
  let w := default world_new (run false (connect_run ++ [AFinish 0 (Ok tt)]) world_new) in
  map_len (waiters (inner (sup w))) = 1 /\ NoDup (completions (sup w)).*1.
Proof.
  split; [by vm_compute|].
  apply (supervisor_invariant false (connect_run ++ [AFinish 0 (Ok tt)])). by vm_compute.
Defined.


(** Three interleavings in which a request is lost or fails.  An attempt
    that ends before the worker has stored its task is ignored: nothing is left
    to run, yet the peer stays connecting and its request waits.  After an
    inbound path is admitted, a stronger request starts a new generation, and
    the requests of the old one are never answered although the peer is
    online.  An attempt that succeeds between taking its task and counting
    itself off makes the next attempt of the same generation fail, and with it
    every request, while the peer is online. *)
Lemma lost_requests :
  (exists w, run false ([AStartWorker true; ABegin "a" ReliableMessage true; AThread 0; ARecv]
                        ++ attempt_actions ++ [AFinish 0 (Err 3); AWork true; AWork true]) world_new = Some w
     /\ quiescent w = true /\ state (inner (sup w)) = Connecting /\ completions (sup w) = []
     /\ is_Some (waiters (inner (sup w)) !! "a"))
  /\ (exists w, run true ([AStartWorker true; ABegin "a" ReliableStream true; AThread 0; AAdmit 1;
                           ABegin "b" ReliableStream true; AThread 0; ARecv; AWork true; ARecv]
                          ++ attempt_actions ++ [AWork true; AWork true; AFinish 0 (Ok tt); AThread 0; AThread 0])
                  world_new = Some w
        /\ quiescent w = true /\ state (inner (sup w)) = Online
        /\ completions (sup w) = [(2, Some (Ok Online))]
        /\ is_Some (waiters (inner (sup w)) !! "a"))
  /\ (exists w, run true (connect_run ++ [ABegin "b" ReliableStream true; AThread 0; ARecv; AFinish 0 (Ok tt)]
                          ++ attempt_actions ++ [AThread 0; AThread 0]) world_new = Some w
        /\ quiescent w = true /\ state (inner (sup w)) = Online
        /\ Forall (fun p => p.2 = Some (Err (ResourceLimit "peer establishment"))) (completions (sup w))
        /\ (completions (sup w)).*1 = [1; 2]).
Proof.
  split_and!; eexists; (split; [by vm_compute|]); split_and!; try done; try (by vm_compute).
  by repeat constructor.
Qed.

(** Refusing the worker's task once is final: the only receiver is dropped
    with it, and every later request for the peer fails with
    [SupervisorStopping], whether or not the task supervisor would accept a
    worker then. *)
Lemma refused_worker_is_final {HO : HashOrder string Waiter} s maintain c class :
  mailbox_rx s = true -> mailbox_task s = false ->
  forall accepted maintain' c' class',
    (start_request false maintain c class s).1 = Err SupervisorStopping
    /\ let s' := (start_request false maintain c class s).2 in
       start_request accepted maintain' c' class' s' = (Err SupervisorStopping, s').
Proof.
  intros Hrx Hmt accepted maintain' c' class'. unfold start_request, start_mailbox_worker.
  rewrite Hmt, Hrx. cbn. done.
Qed.
