(* ===== verification/PeerRegistry.v ===== *)
(** * The registry of peer supervisors

    Models [network-core/src/connect/peer_supervisor/registry.rs]: one
    supervisor per validated peer, at most [MAX_CONFIGURED_PEERS] of them, idle
    ones evicted to make room, and the budget of active peers.  Every method
    that changes the map holds its write lock; a supervisor is the value under
    its key. *)
From S2P Require Import Prelude Profile PeerSupervisor.

Abbreviation SupervisorMap := (gmap string PeerSupervisor).

Definition is_active (s : PeerSupervisor) : bool :=
  match state (inner s) with Connecting | Online => true | Offline => false end.

Definition configured_count (reg : SupervisorMap) : Z :=
  map_len (filter (fun p => configured (inner p.2) = true) reg).
Definition active_peers (reg : SupervisorMap) : Z :=
  map_len (filter (fun p => is_active p.2 = true) reg).

Section Registry.
Context {HO : HashOrder string Waiter} {HR : HashOrder string PeerSupervisor}.

(** The first evictable supervisor of the map's iteration. *)
Definition evictable (reg : SupervisorMap) : option (string * PeerSupervisor) :=
  head (filter (fun p => can_evict p.2 = true) (hash_iter reg)).

Definition configure_existing (id : string) (s : PeerSupervisor) (conf : bool) (reg : SupervisorMap) :
    result string CoreNetworkError * SupervisorMap :=
  if negb conf then (Ok id, reg)
  else if negb (configured (inner s)) && (MAX_CONFIGURED_PEERS <=? configured_count reg)
  then (Err (ResourceLimit "configured peers"), reg)
  else (Ok id, <[id := set_configured true s]> reg).

(** The supervisor is returned as its key.  The evicted one is stopped when it
    leaves the map. *)
Definition get_or_create_with_configured (peer_id : string) (conf : bool) (reg : SupervisorMap) :
    result string CoreNetworkError * SupervisorMap :=
  match peer_id_new peer_id with
  | Err e => (Err e, reg)
  | Ok id =>
    match reg !! id with
    | Some s => configure_existing id s conf reg
    | None =>
      if conf && (MAX_CONFIGURED_PEERS <=? configured_count reg)
      then (Err (ResourceLimit "configured peers"), reg)
      else if MAX_CONFIGURED_PEERS <=? map_len reg then
        match evictable reg with
        | Some (victim, _) =>
          (Ok id, <[id := set_configured conf supervisor_new]> (delete victim reg))
        | None => (Err (ResourceLimit "peer supervisors"), reg)
        end
      else (Ok id, <[id := set_configured conf supervisor_new]> reg)
    end
  end.

Definition get_or_create (peer_id : string) (reg : SupervisorMap) :
    result string CoreNetworkError * SupervisorMap :=
  get_or_create_with_configured peer_id false reg.

(** An operation of the supervisor under a key. *)
Definition on_supervisor {A} (id : string) (f : PeerSupervisor -> result A CoreNetworkError * PeerSupervisor)
    (reg : SupervisorMap) : result A CoreNetworkError * SupervisorMap :=
  match reg !! id with
  | Some s => let '(r, s') := f s in (r, <[id := s']> reg)
  | None => (Err NoRouteError, reg)
  end.

Definition registry_start_connect (accepted : bool) (peer_id command_id : string)
    (class : CommunicationClass) (reg : SupervisorMap) :
    result Begun CoreNetworkError * SupervisorMap :=
  match get_or_create peer_id reg with
  | (Err e, reg) => (Err e, reg)
  | (Ok id, reg) =>
    let already_active := match reg !! id with Some s => is_active s | None => false end in
    if negb already_active && (MAX_ACTIVE_PEERS <=? active_peers reg)
    then (Err (ResourceLimit "active peers"), reg)
    else on_supervisor id (start_request accepted true command_id class) reg
  end.

Definition registry_start_business (accepted : bool) (peer_id command_id : string)
    (class : CommunicationClass) (reg : SupervisorMap) :
    result Begun CoreNetworkError * SupervisorMap :=
  match get_or_create peer_id reg with
  | (Err e, reg) => (Err e, reg)
  | (Ok id, reg) => on_supervisor id (start_request accepted false command_id class) reg
  end.

Definition registry_disconnect (peer_id : string) (reg : SupervisorMap) :
    result Z CoreNetworkError * SupervisorMap :=
  match peer_id_new peer_id with
  | Err e => (Err e, reg)
  | Ok id =>
    match reg !! id with
    | Some s => let '(n, s') := disconnect s in (Ok n, <[id := s']> reg)
    | None => (Ok 0, reg)
    end
  end.

Definition remove_if_evictable (peer_id : string) (reg : SupervisorMap) :
    result bool CoreNetworkError * SupervisorMap :=
  match peer_id_new peer_id with
  | Err e => (Err e, reg)
  | Ok id =>
    match reg !! id with
    | None => (Ok false, reg)
    | Some s => if can_evict s then (Ok true, delete id reg) else (Ok false, reg)
    end
  end.

Definition stop_all (reg : SupervisorMap) : SupervisorMap := (fun s => (stop s).2) <$> reg.

(** ** Lemmas *)

Lemma evictable_spec reg k s :
  evictable reg = Some (k, s) -> reg !! k = Some s /\ can_evict s = true.
Proof.
  unfold evictable. intros H. apply head_Some_elem_of, list_elem_of_filter in H as [He Hin].
  split; [by apply elem_of_hash_iter|done].
Qed.

Lemma evictable_none reg k s : evictable reg = None -> reg !! k = Some s -> can_evict s = false.
Proof.
  unfold evictable. intros H Hs. apply head_None in H. destruct (can_evict s) eqn:E; [|done].
  assert (Hin : (k, s) ∈ filter (fun p => can_evict p.2 = true) (hash_iter reg))
    by (apply list_elem_of_filter; by rewrite elem_of_hash_iter).
  rewrite H in Hin. by apply elem_of_nil in Hin.
Qed.

Lemma map_len_insert_le (m : SupervisorMap) k s : map_len (<[k := s]> m) <= map_len m + 1.
Proof.
  unfold map_len. destruct (m !! k) eqn:E;
    [rewrite (map_size_insert_Some _ _ _ (mk_is_Some _ _ E))|rewrite (map_size_insert_None _ _ _ E)]; lia.
Qed.

Lemma map_len_insert_known (m : SupervisorMap) k s s' :
  m !! k = Some s -> map_len (<[k := s']> m) = map_len m.
Proof. intros H. unfold map_len. by rewrite (map_size_insert_Some _ _ _ (mk_is_Some _ _ H)). Qed.

Lemma can_evict_inactive s : can_evict s = true -> is_active s = false.
Proof. unfold can_evict, is_active. intros H. bool_facts. by destruct (state (inner s)). Qed.

Lemma active_count_insert (m : SupervisorMap) k s :
  active_peers (<[k := s]> m) <= active_peers m + (if is_active s then 1 else 0).
Proof.
  unfold active_peers. destruct (is_active s) eqn:E.
  - rewrite map_filter_insert_True by done. apply map_len_insert_le.
  - rewrite map_filter_insert_False by (cbn; congruence).
    unfold map_len. assert (size (filter (fun p => is_active p.2 = true) (delete k m))
                            <= size (filter (fun p => is_active p.2 = true) m))%nat; [|lia].
    apply map_subseteq_size, map_filter_strong_subseteq_ext. intros i x. rewrite lookup_delete_Some. naive_solver.
Qed.

(** A supervisor already active keeps its slot. *)
Lemma active_count_update (m : SupervisorMap) k s s' :
  m !! k = Some s -> is_active s = true -> active_peers (<[k := s']> m) <= active_peers m.
Proof.
  intros Hk Ha. unfold active_peers. destruct (is_active s') eqn:E.
  - rewrite map_filter_insert_True by done. rewrite (map_len_insert_known _ _ s); [lia|].
    by apply map_lookup_filter_Some.
  - pose proof (active_count_insert m k s') as H. rewrite E in H. unfold active_peers in H. lia.
Qed.

Lemma active_count_delete (m : SupervisorMap) k : active_peers (delete k m) <= active_peers m.
Proof.
  unfold active_peers, map_len.
  assert (size (filter (fun p => is_active p.2 = true) (delete k m))
          <= size (filter (fun p => is_active p.2 = true) m))%nat; [|lia].
  apply map_subseteq_size, map_filter_strong_subseteq_ext. intros i x. rewrite lookup_delete_Some. naive_solver.
Qed.

(** ** What looking a peer up does to the map *)
Lemma get_or_create_cases peer_id conf reg r reg' :
  get_or_create_with_configured peer_id conf reg = (r, reg') -> map_len reg <= MAX_CONFIGURED_PEERS ->
  map_len reg' <= MAX_CONFIGURED_PEERS
  /\ active_peers reg' <= active_peers reg
  /\ (forall id, r = Ok id -> is_Some (reg' !! id))
  /\ (forall k s, reg !! k = Some s -> can_evict s = false -> k ≠ peer_id -> reg' !! k = Some s).
Proof.
  unfold get_or_create_with_configured. intros E Hl.
  destruct (peer_id_new peer_id) as [id|e] eqn:Ei; [|by simplify_eq].
  assert (id = peer_id) as -> by (unfold peer_id_new in Ei; destruct (_ || _); by simplify_eq).
  assert (Hnew : is_active (set_configured conf supervisor_new) = false) by done.
  destruct (reg !! peer_id) as [s|] eqn:Es.
  - unfold configure_existing in E. destruct conf; cbn in E; 
      [|simplify_eq; split_and!; [done|lia|intros ? [= <-]; by eauto|by intros]].
    case_match; simplify_eq; [done|]. split_and!.
    + by rewrite (map_len_insert_known _ _ s).
    + pose proof (active_count_insert reg peer_id (set_configured true s)) as H1.
      destruct (is_active s) eqn:Ha; [by eapply active_count_update|]. unfold is_active in *. cbn in *. rewrite Ha in H1. lia.
    + intros id [= <-]. by rewrite lookup_insert_eq.
    + intros k x Hk _ Hne. by rewrite lookup_insert_ne.
  - case_match; [by simplify_eq|]. destruct (MAX_CONFIGURED_PEERS <=? map_len reg) eqn:Hf; bool_facts.
    + destruct (evictable reg) as [[v sv]|] eqn:Ev; simplify_eq; [|done].
      apply evictable_spec in Ev as [Hv He]. split_and!.
      * pose proof (map_len_insert_le (delete v reg) peer_id (set_configured conf supervisor_new)).
        unfold map_len in *. rewrite (map_size_delete_Some _ _ (mk_is_Some _ _ Hv)) in *.
        assert (size reg ≠ 0%nat) by (intros E0; apply map_size_empty_inv in E0; by rewrite E0 in Hv). lia.
      * pose proof (active_count_insert (delete v reg) peer_id (set_configured conf supervisor_new)) as H1.
        pose proof (active_count_delete reg v). rewrite Hnew in H1. lia.
      * intros id [= <-]. by rewrite lookup_insert_eq.
      * intros k x Hk Hc Hne. rewrite lookup_insert_ne, lookup_delete_ne; [done| |done]. congruence.
    + simplify_eq. split_and!.
      * pose proof (map_len_insert_le reg peer_id (set_configured conf supervisor_new)). lia.
      * pose proof (active_count_insert reg peer_id (set_configured conf supervisor_new)) as H1. rewrite Hnew in H1. lia.
      * intros id [= <-]. by rewrite lookup_insert_eq.
      * intros k x Hk _ Hne. by rewrite lookup_insert_ne.
Qed.

Lemma invalidate_inactive stop_it clear e s :
  is_active (invalidate_generation stop_it clear e s).2 = true -> is_active s = true.
Proof.
  unfold invalidate_generation, invalidate_section.
  destruct (negb stop_it && stopping (inner s)); [done|].
  unfold cancel_connection_task_for, take_task_for. cbn. repeat case_match; simplify_eq; done.
Qed.

Lemma stop_inactive s : is_active (stop s).2 = true -> is_active s = true.
Proof.
  unfold stop. pose proof (invalidate_inactive true true SupervisorStopping s) as H.
  destruct (invalidate_generation _ _ _ _) as [n s1]. cbn in *.
  unfold cancel_mailbox_worker. by case_match.
Qed.

Lemma active_count_le_update (m : SupervisorMap) k s s' :
  m !! k = Some s -> (is_active s' = true -> is_active s = true) ->
  active_peers (<[k := s']> m) <= active_peers m.
Proof.
  intros Hk Ha. destruct (is_active s') eqn:E; [by apply (active_count_update m k s); auto|].
  pose proof (active_count_insert m k s') as H. rewrite E in H. lia.
Qed.

(** Calls on the registry. *)
Inductive RegistryCall :=
| RGet (peer_id : string) (conf : bool)
| RConnect (accepted : bool) (peer_id command_id : string) (class : CommunicationClass)
| RBusiness (accepted : bool) (peer_id command_id : string) (class : CommunicationClass)
| RDisconnect (peer_id : string)
| RRemove (peer_id : string)
| RStopAll.

Definition registry_call (c : RegistryCall) (reg : SupervisorMap) : SupervisorMap :=
  match c with
  | RGet id conf => (get_or_create_with_configured id conf reg).2
  | RConnect accepted id command class => (registry_start_connect accepted id command class reg).2
  | RBusiness accepted id command class => (registry_start_business accepted id command class reg).2
  | RDisconnect id => (registry_disconnect id reg).2
  | RRemove id => (remove_if_evictable id reg).2
  | RStopAll => stop_all reg
  end.

Definition is_business (c : RegistryCall) : bool := match c with RBusiness _ _ _ _ => true | _ => false end.

Lemma on_supervisor_len {A} id (f : PeerSupervisor -> result A CoreNetworkError * PeerSupervisor) reg :
  map_len (on_supervisor id f reg).2 = map_len reg.
Proof.
  unfold on_supervisor. destruct (reg !! id) as [s|] eqn:E; [|done]. destruct (f s). cbn.
  by apply (map_len_insert_known _ _ s).
Qed.

Lemma call_len c reg :
  map_len reg <= MAX_CONFIGURED_PEERS -> map_len (registry_call c reg) <= MAX_CONFIGURED_PEERS.
Proof.
  intros H. destruct c; cbn.
  - destruct (get_or_create_with_configured peer_id conf reg) eqn:E.
    by destruct (get_or_create_cases _ _ _ _ _ E H).
  - unfold registry_start_connect, get_or_create.
    destruct (get_or_create_with_configured peer_id false reg) as [[id|e] reg'] eqn:E;
      destruct (get_or_create_cases _ _ _ _ _ E H) as (? & _); [|done].
    case_match; [done|]. by rewrite on_supervisor_len.
  - unfold registry_start_business, get_or_create.
    destruct (get_or_create_with_configured peer_id false reg) as [[id|e] reg'] eqn:E;
      destruct (get_or_create_cases _ _ _ _ _ E H) as (? & _); [|done]. by rewrite on_supervisor_len.
  - unfold registry_disconnect. destruct (peer_id_new peer_id) as [id|]; [|done].
    destruct (reg !! id) as [s|] eqn:Es; [|done]. destruct (disconnect s). cbn.
    by rewrite (map_len_insert_known _ _ s).
  - unfold remove_if_evictable. destruct (peer_id_new peer_id) as [id|]; [|done].
    destruct (reg !! id) as [s|] eqn:Es; [|done]. case_match; [|done]. cbn.
    unfold map_len in *. rewrite (map_size_delete_Some _ _ (mk_is_Some _ _ Es)). lia.
  - unfold stop_all, map_len in *. by rewrite map_size_fmap.
Qed.

Lemma call_active c reg :
  is_business c = false -> map_len reg <= MAX_CONFIGURED_PEERS ->
  active_peers reg <= MAX_ACTIVE_PEERS -> active_peers (registry_call c reg) <= MAX_ACTIVE_PEERS.
Proof.
  intros Hb Hl H. destruct c; cbn; try done.
  - destruct (get_or_create_with_configured peer_id conf reg) eqn:E.
    destruct (get_or_create_cases _ _ _ _ _ E Hl) as (_ & ? & _). cbn. lia.
  - unfold registry_start_connect, get_or_create.
    destruct (get_or_create_with_configured peer_id false reg) as [[id|e] reg'] eqn:E;
      destruct (get_or_create_cases _ _ _ _ _ E Hl) as (_ & ? & Hin & _); [|cbn; lia].
    destruct (Hin id eq_refl) as [s Hs]. rewrite Hs. unfold on_supervisor. rewrite Hs.
    destruct (start_request _ _ _ _ s) as [r s']. destruct (is_active s) eqn:Ha; cbn.
    + pose proof (active_count_update reg' id s s' Hs Ha). lia.
    + case_match; bool_facts; cbn; [lia|]. pose proof (active_count_insert reg' id s').
      destruct (is_active s'); lia.
  - unfold registry_disconnect. destruct (peer_id_new peer_id) as [id|]; [|done].
    destruct (reg !! id) as [s|] eqn:Es; [|done].
    pose proof (invalidate_inactive false true CancelledError s) as Hi. unfold disconnect.
    destruct (invalidate_generation _ _ _ s) as [n s']. cbn in *.
    pose proof (active_count_le_update reg id s s' Es Hi). lia.
  - unfold remove_if_evictable. destruct (peer_id_new peer_id) as [id|]; [|done].
    destruct (reg !! id) as [s|] eqn:Es; [|done]. case_match; [|done]. cbn.
    pose proof (active_count_delete reg id). lia.
  - unfold active_peers in *. etrans; [|exact H]. unfold map_len.
    apply Nat2Z.inj_le. unfold stop_all. rewrite map_filter_fmap, map_size_fmap.
    apply map_subseteq_size, map_filter_strong_subseteq_ext. cbn. intros i x [Hx ?].
    split; [by apply stop_inactive|done].
Qed.
End Registry.

(** ** Theorems *)

(** Whatever calls are made on it, the registry never holds more than
    [MAX_CONFIGURED_PEERS] supervisors, and as long as peers are activated by
    connect commands (business requests do not take from that budget) never
    more than [MAX_ACTIVE_PEERS] of them are active; and a lookup that needs
    room takes it from an idle peer only: a supervisor that waits, maintains a
    connection, runs an attempt or holds resources stays as it is. *)
Lemma registry_bounds {HO : HashOrder string Waiter} {HR : HashOrder string PeerSupervisor} calls :
  let reg := foldl (fun reg c => registry_call c reg) ∅ calls in
  map_len reg <= MAX_CONFIGURED_PEERS
  /\ (forallb (fun c => negb (is_business c)) calls = true -> active_peers reg <= MAX_ACTIVE_PEERS)
  /\ (forall peer_id conf k s, reg !! k = Some s -> can_evict s = false -> k ≠ peer_id ->
        (get_or_create_with_configured peer_id conf reg).2 !! k = Some s).
Proof.
  intros reg.
  assert (Hlen : map_len reg <= MAX_CONFIGURED_PEERS
                 /\ (forallb (fun c => negb (is_business c)) calls = true -> active_peers reg <= MAX_ACTIVE_PEERS)).
  { subst reg. induction calls as [|c calls IH] using rev_ind; [by vm_compute|].
    destruct IH as [IH1 IH2]. rewrite foldl_app. cbn. split; [by apply call_len|].
    rewrite forallb_app. cbn. intros H. bool_facts. apply call_active; auto. }
  destruct Hlen as [H1 H2]. split_and!; try done. intros peer_id conf k s Hk Hc Hne.
  destruct (get_or_create_with_configured peer_id conf reg) as [r reg'] eqn:E.
  destruct (get_or_create_cases _ _ _ _ _ E H1) as (_ & _ & _ & Hf). by apply Hf.
Qed.
