(* ===== verification/Paths.v ===== *)
(** * Physical paths and their weak registry

    Models [network-core/src/connect/path/mod.rs], [physical.rs] and
    [registry.rs] with the carriers of [active_route.rs]: one authenticated
    carrier per physical path, the leases that borrow it, its retirement and
    closing, and the registry's weak index.  The [Arc]s to paths are modelled by
    a heap of paths under their identities with a count of strong references;
    a [Weak] upgrades while the count is positive, and the last drop runs the
    path's [Drop].  [closed] records what happened to each carrier: closed for
    a reason, or dropped without being closed. *)
From S2P Require Import Prelude Profile.

Definition MAX_READY_PATHS_PER_PEER : Z := 8.
Definition MAX_PATH_LEASES : Z := 32.
Definition EPHEMERAL_PATH_IDLE_TIMEOUT : Z := from_secs 60.

Inductive PathCloseReason := NormalRetire | HardClose | SecurityFailure.

#[export] Instance PathCloseReason_eq_dec : EqDecision PathCloseReason.
Proof. solve_decision. Defined.

(** A [PathCarrier]: its identity, and what the adapter exposes of the route it
    owns (a QUIC connection by its stable identity, a generic route by its
    identity, a Relay data client by its address; [Opaque] for the adapters
    without a route). *)
Inductive CarrierView := ViewQuic (stable_id : Z) | ViewGeneric (route_id : Z)
| ViewRelay (client : option Z) | Opaque.

Record Carrier := mkCarrier { c_id : Z; c_view : CarrierView }.

Definition connection (c : Carrier) : option Z :=
  match c_view c with ViewQuic id => Some id | _ => None end.
Definition generic_carrier_id (c : Carrier) : option Z :=
  match c_view c with ViewGeneric id => Some id | _ => None end.
Definition relay_data (c : Carrier) : option Z :=
  match c_view c with ViewRelay client => client | _ => None end.

Record PathHandle := mkHandle {
  h_id : Z;
  h_peer : string;
  h_profile : ConnectionProfile;
  h_mask : Z;
}.

#[export] Instance PathHandle_eq_dec : EqDecision PathHandle.
Proof. solve_decision. Defined.

Inductive PhysicalPathState := Ready | Draining | Closed (reason : PathCloseReason).

#[export] Instance PhysicalPathState_eq_dec : EqDecision PhysicalPathState.
Proof. solve_decision. Defined.

Record PhysicalPath := mkPath {
  p_handle : PathHandle;
  p_state : PhysicalPathState;
  p_carrier : option Carrier;
  p_leases : Z;
  p_last : Z;
  p_refs : Z;
}.

Record Paths := mkPaths {
  heap : gmap Z PhysicalPath;
  index : gmap string (gset Z);
  next_path : Z;
  closed : list (Z * option PathCloseReason);
}.

Definition paths_new : Paths := mkPaths ∅ ∅ 1 [].

Definition set_path (id : Z) (p : PhysicalPath) (st : Paths) : Paths :=
  mkPaths (<[id := p]> (heap st)) (index st) (next_path st) (closed st).
Definition set_index (i : gmap string (gset Z)) (st : Paths) : Paths :=
  mkPaths (heap st) i (next_path st) (closed st).

(** [close_carrier], or the drop of a carrier that was never stored. *)
Definition close_carrier (c : option Carrier) (reason : option PathCloseReason) (st : Paths) : Paths :=
  mkPaths (heap st) (index st) (next_path st)
    (match c with Some c => [(c_id c, reason)] | None => [] end ++ closed st).

(** ** One path ([physical.rs]) *)

Definition is_ready (p : PhysicalPath) : bool := bool_decide (p_state p = Ready).
Definition path_is_active (p : PhysicalPath) : bool :=
  match p_state p with Ready | Draining => true | Closed _ => false end.
Definition is_acquirable (required : Z) (p : PhysicalPath) : bool :=
  is_ready p && covers (h_mask (p_handle p)) required.

(** A predicate of the path under an identity. *)
Definition path_test (f : PhysicalPath -> bool) (id : Z) (st : Paths) : bool :=
  match heap st !! id with Some p => f p | None => false end.

(** [try_acquire]; the lease returned holds a reference to the path. *)
Definition try_acquire (id now : Z) (st : Paths) : result unit CoreNetworkError * Paths :=
  match heap st !! id with
  | None => (Err StaleAttempt, st)
  | Some p =>
    if negb (is_ready p) then (Err StaleAttempt, st)
    else if MAX_PATH_LEASES <=? p_leases p then (Err (ResourceLimit "path leases"), st)
    else (Ok tt, set_path id (mkPath (p_handle p) (p_state p) (p_carrier p) (p_leases p + 1) now
                                (p_refs p + 1)) st)
  end.

Definition close_with_reason (id : Z) (reason : PathCloseReason) (st : Paths) : Paths :=
  match heap st !! id with
  | None => st
  | Some p =>
    match p_state p with
    | Closed _ => st
    | _ =>
      close_carrier (p_carrier p) (Some reason)
        (set_path id (mkPath (p_handle p) (Closed reason) None (p_leases p) (p_last p) (p_refs p)) st)
    end
  end.

Definition retire_normal (id : Z) (st : Paths) : Paths :=
  match heap st !! id with
  | None => st
  | Some p =>
    match p_state p with
    | Closed _ => st
    | _ =>
      if p_leases p =? 0 then
        close_carrier (p_carrier p) (Some NormalRetire)
          (set_path id (mkPath (p_handle p) (Closed NormalRetire) None (p_leases p) (p_last p) (p_refs p)) st)
      else set_path id (mkPath (p_handle p) Draining (p_carrier p) (p_leases p) (p_last p) (p_refs p)) st
    end
  end.

Definition release_lease (id now : Z) (st : Paths) : Paths :=
  match heap st !! id with
  | None => st
  | Some p =>
    if p_leases p =? 0 then st
    else
      let leases := p_leases p - 1 in
      if (leases =? 0) && bool_decide (p_state p = Draining) then
        close_carrier (p_carrier p) (Some NormalRetire)
          (set_path id (mkPath (p_handle p) (Closed NormalRetire) None leases (p_last p) (p_refs p)) st)
      else
        set_path id (mkPath (p_handle p) (p_state p) (p_carrier p) leases
                       (if is_ready p then now else p_last p) (p_refs p)) st
  end.

Definition record_activity (id now : Z) (st : Paths) : Paths :=
  match heap st !! id with
  | None => st
  | Some p =>
    if is_ready p
    then set_path id (mkPath (p_handle p) (p_state p) (p_carrier p) (p_leases p) now (p_refs p)) st
    else st
  end.

Definition is_ephemeral_idle (now : Z) (p : PhysicalPath) : bool :=
  is_ready p && (p_leases p =? 0)
  && (EPHEMERAL_PATH_IDLE_TIMEOUT <=? Z.max 0 (now - p_last p)).

(** Dropping a strong reference; the last one closes what is still open. *)
Definition drop_ref (id : Z) (st : Paths) : Paths :=
  match heap st !! id with
  | None => st
  | Some p =>
    let st' := set_path id (mkPath (p_handle p) (p_state p) (p_carrier p) (p_leases p) (p_last p)
                              (p_refs p - 1)) st in
    if p_refs p =? 1 then close_with_reason id HardClose st' else st'
  end.

(** Releasing a [PathLease], explicitly or by its drop. *)
Definition drop_lease (id now : Z) (st : Paths) : Paths := drop_ref id (release_lease id now st).

(** ** The registry ([registry.rs]) *)

Definition upgrades (id : Z) (st : Paths) : bool := path_test (fun p => 0 <? p_refs p) id st.

Definition entry_set (ids : gset Z) : option (gset Z) := if decide (ids = ∅) then None else Some ids.

Definition create_path (peer_id : string) (profile : ConnectionProfile) (carrier : Carrier) (now : Z)
    (st : Paths) : result PathHandle CoreNetworkError * Paths :=
  let mask := profile_capability_mask profile in
  if mask =? 0 then (Err CapabilityUnavailable, close_carrier (Some carrier) (Some HardClose) st)
  else
    let live := filter (fun id => upgrades id st = true) (default ∅ (index st !! peer_id)) in
    if MAX_READY_PATHS_PER_PEER <=? Z.of_nat (size live) then
      (Err (ResourceLimit "ready paths"),
       close_carrier (Some carrier) (Some HardClose) (set_index (<[peer_id := live]> (index st)) st))
    else
      let id := next_path st in
      let handle := mkHandle id peer_id profile mask in
      (Ok handle,
       mkPaths (<[id := mkPath handle Ready (Some carrier) 0 now 1]> (heap st))
         (<[peer_id := live ∪ {[id]}]> (index st)) (id + 1) (closed st)).

(** [lookup]: the identity the weak entry upgrades to; a dead or mismatching
    entry is removed. *)
Definition lookup (handle : PathHandle) (st : Paths) : option Z * Paths :=
  match index st !! h_peer handle with
  | None => (None, st)
  | Some ids =>
    let found := bool_decide (h_id handle ∈ ids)
                 && path_test (fun p => (0 <? p_refs p) && bool_decide (p_handle p = handle)) (h_id handle) st in
    let ids' := if found then ids else ids ∖ {[h_id handle]} in
    (if found then Some (h_id handle) else None,
     set_index (partial_alter (fun _ => entry_set ids') (h_peer handle) (index st)) st)
  end.

Definition take_entry (handle : PathHandle) (st : Paths) : bool * Paths :=
  match index st !! h_peer handle with
  | None => (false, st)
  | Some ids =>
    (bool_decide (h_id handle ∈ ids),
     set_index (partial_alter (fun _ => entry_set (ids ∖ {[h_id handle]})) (h_peer handle) (index st)) st)
  end.

Definition registry_acquire (handle : PathHandle) (now : Z) (st : Paths) :
    result unit CoreNetworkError * Paths :=
  match lookup handle st with
  | (None, st) => (Err StaleAttempt, st)
  | (Some id, st) => try_acquire id now st
  end.

Definition path_preference (p : ConnectionProfile) : Z :=
  match topology p, transport p with
  | Direct, Quic => 4
  | Direct, Tcp => 3
  | Direct, WebSocket => 2
  | Relay, _ => 1
  | _, _ => 0
  end.

(** The loop of [select_compatible_ready_path] over the sorted candidates. *)
Fixpoint select_first (required now : Z) (candidates : list Z) (st : Paths) :
    result Z CoreNetworkError * Paths :=
  match candidates with
  | [] => (Err NoRouteError, st)
  | id :: rest =>
    if negb (path_test (is_acquirable required) id st) then select_first required now rest st
    else
      match try_acquire id now st with
      | (Ok _, st) => (Ok id, st)
      | (Err StaleAttempt, st) => select_first required now rest st
      | (Err e, st) => (Err e, st)
      end
  end.

Section PathIndex.
Context {HS : SetOrder Z}.

(** Sorted by preference, then by identity, and read from the end. *)
Definition preference_key (st : Paths) (id : Z) : Z :=
  match heap st !! id with
  | Some p => path_preference (h_profile (p_handle p)) * 2 ^ 64 + id
  | None => id
  end.

Definition select_compatible_ready_path (peer_id : string) (required now : Z) (st : Paths) :
    result Z CoreNetworkError * Paths :=
  match index st !! peer_id with
  | None => (Err NoRouteError, st)
  | Some ids =>
    let live := filter (fun id => upgrades id st = true) ids in
    let candidates := rev (sort_by_key (preference_key st) (set_iter live)) in
    select_first required now candidates (set_index (<[peer_id := live]> (index st)) st)
  end.

(** [revoke], [drain] and [security_failure] differ in what they do to a path
    that is still alive. *)
Definition on_entry (f : Z -> Paths -> Paths) (handle : PathHandle) (st : Paths) : bool * Paths :=
  match take_entry handle st with
  | (false, st) => (false, st)
  | (true, st) => (true, if upgrades (h_id handle) st then f (h_id handle) st else st)
  end.

Definition revoke (handle : PathHandle) (st : Paths) : bool * Paths :=
  on_entry (fun id => close_with_reason id HardClose) handle st.
Definition registry_drain (handle : PathHandle) (st : Paths) : bool * Paths :=
  on_entry retire_normal handle st.
Definition registry_security_failure (handle : PathHandle) (st : Paths) : bool * Paths :=
  on_entry (fun id => close_with_reason id SecurityFailure) handle st.

Definition close_alive (id : Z) (st : Paths) : Paths :=
  if upgrades id st then close_with_reason id HardClose st else st.

Definition revoke_peer (peer_id : string) (st : Paths) : Z * Paths :=
  let ids := default ∅ (index st !! peer_id) in
  (Z.of_nat (size ids),
   foldl (fun st id => close_alive id st) (set_index (delete peer_id (index st)) st) (set_iter ids)).
End PathIndex.
