(* ===== verification/PathManager.v ===== *)
(** * The path owner of a peer

    Models [network-core/src/connect/path/manager.rs], [manager_publish.rs] and
    [manager_close.rs]: the Direct and the Relay slot of a peer, the paths that
    drain behind them, the bounded Direct probe, and the publication, selection,
    leasing and retirement of paths.  A manager is behind one mutex, so each
    method is one function of the manager and the paths it shares. *)
From S2P Require Import Prelude Profile Paths.

Record DirectProbe := mkProbe {
  dp_generation : Z;
  dp_required : Z;
  dp_deadline : Z;
}.

Definition probe_extend (required deadline : Z) (p : DirectProbe) : DirectProbe :=
  mkProbe (dp_generation p) (Z.lor (dp_required p) required) (Z.max (dp_deadline p) deadline).

Record Manager := mkManager {
  m_peer : string;
  direct_path : option Z;
  direct_ready : option PathHandle;
  relay_path : option Z;
  relay_ready : option PathHandle;
  draining_paths : list Z;
  direct_probe : option DirectProbe;
  draining : bool;
  hard_closed : bool;
}.

Definition path_manager_new (peer_id : string) : Manager :=
  mkManager peer_id None None None None [] None false false.

Definition set_slot (kind : RouteTopology) (path : option Z) (ready : option PathHandle) (m : Manager) : Manager :=
  match kind with
  | Direct => mkManager (m_peer m) path ready (relay_path m) (relay_ready m) (draining_paths m)
                (direct_probe m) (draining m) (hard_closed m)
  | Relay => mkManager (m_peer m) (direct_path m) (direct_ready m) path ready (draining_paths m)
               (direct_probe m) (draining m) (hard_closed m)
  end.
Definition set_draining (l : list Z) (m : Manager) : Manager :=
  mkManager (m_peer m) (direct_path m) (direct_ready m) (relay_path m) (relay_ready m) l
    (direct_probe m) (draining m) (hard_closed m).
Definition set_probe (p : option DirectProbe) (m : Manager) : Manager :=
  mkManager (m_peer m) (direct_path m) (direct_ready m) (relay_path m) (relay_ready m)
    (draining_paths m) p (draining m) (hard_closed m).
Definition set_closing (drain hard : bool) (m : Manager) : Manager :=
  mkManager (m_peer m) (direct_path m) (direct_ready m) (relay_path m) (relay_ready m)
    (draining_paths m) (direct_probe m) drain hard.

(** The slot of a topology; [take_direct] and [take_relay] empty it. *)
Definition slot_path (kind : RouteTopology) (m : Manager) : option Z :=
  match kind with Direct => direct_path m | Relay => relay_path m end.
Definition slot_ready (kind : RouteTopology) (m : Manager) : option PathHandle :=
  match kind with Direct => direct_ready m | Relay => relay_ready m end.
Definition take_slot (kind : RouteTopology) (m : Manager) : option Z * Manager :=
  (slot_path kind m, set_slot kind None None m).

Abbreviation PathState := (Manager * Paths)%type.

(** ** Retirement ([manager_close.rs]) *)

Definition handle_of (id : Z) (st : Paths) : option PathHandle := p_handle <$> heap st !! id.

(** [retire_path] consumes the manager's reference, which moves to
    [draining_paths] when borrowers keep the path open. *)
Definition retire_path (id : Z) (reason : PathCloseReason) (s : PathState) : PathState :=
  let '(m, st) := s in
  match handle_of id st with
  | None => s
  | Some handle =>
    match reason with
    | NormalRetire =>
      let st := retire_normal id (registry_drain handle st).2 in
      if path_test path_is_active id st then (set_draining (draining_paths m ++ [id]) m, st)
      else (m, drop_ref id st)
    | HardClose => (m, drop_ref id (close_with_reason id HardClose (revoke handle st).2))
    | SecurityFailure =>
      (m, drop_ref id (close_with_reason id SecurityFailure (registry_security_failure handle st).2))
    end
  end.

Definition retire_taken (taken : option Z) (reason : PathCloseReason) (s : PathState) : PathState :=
  match taken with Some id => retire_path id reason s | None => s end.

Definition retire_slot (kind : RouteTopology) (reason : PathCloseReason) (s : PathState) : PathState :=
  let '(m, st) := s in
  let '(taken, m) := take_slot kind m in retire_taken taken reason (m, st).

(** Both slots are emptied before either path is retired. *)
Definition retire_all (reason : PathCloseReason) (s : PathState) : PathState :=
  let '(m, st) := s in
  let '(direct, m) := take_slot Direct m in
  let '(relay, m) := take_slot Relay m in
  retire_taken relay reason (retire_taken direct reason (m, st)).

Definition close_draining_paths (reason : PathCloseReason) (s : PathState) : PathState :=
  let '(m, st) := s in
  (set_draining [] m,
   foldl (fun st id => drop_ref id (close_with_reason id reason st)) st (draining_paths m)).

Definition reap_draining_paths (s : PathState) : PathState :=
  let '(m, st) := s in
  (set_draining (filter (fun id => path_test path_is_active id st = true) (draining_paths m)) m,
   foldl (fun st id => drop_ref id st) st
     (filter (fun id => path_test path_is_active id st = false) (draining_paths m))).

Definition normal_drain (s : PathState) : PathState :=
  let '(m, st) := s in
  reap_draining_paths
    (retire_all NormalRetire (set_probe None (set_closing true (hard_closed m) m), st)).

Definition close_all_paths (reason : PathCloseReason) (s : PathState) : PathState :=
  let '(m, st) := s in
  close_draining_paths reason (retire_all reason (set_probe None (set_closing true true m), st)).

(** Also what dropping the manager does. *)
Definition hard_close (s : PathState) : PathState := close_all_paths HardClose s.
Definition manager_security_failure (s : PathState) : PathState := close_all_paths SecurityFailure s.

Definition hard_close_relay (s : PathState) : PathState := retire_slot Relay HardClose s.
Definition hard_close_direct (s : PathState) : PathState :=
  let '(m, st) := s in retire_slot Direct HardClose (set_probe None m, st).

Definition hard_close_slot (kind : RouteTopology) (s : PathState) : PathState :=
  match kind with Direct => hard_close_direct s | Relay => hard_close_relay s end.

(** [hard_close_direct_if_handle] and [hard_close_relay_if_handle]. *)
Definition hard_close_if_handle (kind : RouteTopology) (expected : PathHandle) (s : PathState) :
    option PathHandle * PathState :=
  match slot_ready kind s.1 with
  | Some current =>
    if decide (current = expected) then (Some current, hard_close_slot kind s) else (None, s)
  | None => (None, s)
  end.

(** [close_ready_direct], [close_ready_direct_connection] and
    [close_ready_relay]: [matches] compares the carrier with the one the caller
    means, or is absent to close whatever is ready. *)
Definition close_ready (kind : RouteTopology) (matches : option (Carrier -> bool)) (s : PathState) :
    option PathHandle * PathState :=
  let '(m, st) := s in
  let matched :=
    match matches with
    | None => bool_decide (is_Some (slot_ready kind m))
    | Some f =>
      match slot_path kind m with
      | Some id => path_test (fun p => match p_carrier p with Some c => f c | None => false end) id st
      | None => false
      end
    end in
  if negb matched then (None, s)
  else
    match slot_ready kind m with
    | Some handle => (Some handle, hard_close_slot kind s)
    | None => (None, s)
    end.

Definition close_ready_direct (route_id : option Z) (s : PathState) : option PathHandle * PathState :=
  close_ready Direct
    ((fun id c => bool_decide (generic_carrier_id c = Some id)) <$> route_id) s.
Definition close_ready_direct_connection (stable_id : Z) (s : PathState) : option PathHandle * PathState :=
  close_ready Direct (Some (fun c => bool_decide (connection c = Some stable_id))) s.
Definition close_ready_relay (data : option Z) (s : PathState) : option PathHandle * PathState :=
  close_ready Relay
    ((fun client c => bool_decide (relay_data c = Some client)) <$> data) s.

(** [is_some_and] on the path of a slot. *)
Definition slot_test (f : PhysicalPath -> bool) (kind : RouteTopology) (s : PathState) : bool :=
  match slot_path kind s.1 with Some id => path_test f id s.2 | None => false end.

Definition retire_ephemeral (now : Z) (s : PathState) : Z * PathState :=
  let '(m, st) := s in
  if draining m || hard_closed m then (0, s)
  else
    let direct_expired := slot_test (is_ephemeral_idle now) Direct s in
    let relay_expired := slot_test (is_ephemeral_idle now) Relay s in
    let s := if direct_expired then retire_slot Direct NormalRetire s else s in
    let s := if relay_expired then retire_slot Relay NormalRetire s else s in
    ((if direct_expired then 1 else 0) + (if relay_expired then 1 else 0), s).

Definition manager_record_activity (now : Z) (s : PathState) : PathState :=
  let '(m, st) := s in
  let touch path st := match path with Some id => record_activity id now st | None => st end in
  (m, touch (relay_path m) (touch (direct_path m) st)).

(** ** Publication and selection ([manager_publish.rs]) *)

(** A path closed through the registry leaves its slot, without retirement. *)
Definition drop_dead_slot (kind : RouteTopology) (s : PathState) : PathState :=
  let '(m, st) := s in
  match slot_path kind m with
  | Some id =>
    if negb (path_test is_ready id st) then (set_slot kind None None m, drop_ref id st) else s
  | None => s
  end.

(** Whether a new path may take the slot, and the error otherwise. *)
Definition admits (kind : RouteTopology) (mask : Z) (s : PathState) : result unit CoreNetworkError :=
  let '(m, st) := s in
  let needed := match kind with Direct => dp_required <$> direct_probe m | Relay => None end in
  match slot_path kind m with
  | Some id =>
    let old := match handle_of id st with Some h => h_mask h | None => 0 end in
    let strict_needed_superset :=
      negb (mask =? old) && covers mask old
      && match needed with Some n => covers mask n | None => false end in
    if strict_needed_superset then Ok tt else Err StaleAttempt
  | None =>
    match needed with
    | Some n => if covers mask n then Ok tt else Err CapabilityUnavailable
    | None => Ok tt
    end
  end.

Definition publish_ready_with_carrier_at (profile : ConnectionProfile) (carrier : Carrier) (now : Z)
    (s : PathState) : result PathHandle CoreNetworkError * PathState :=
  let '(m, st) := s in
  if draining m || hard_closed m then (Err CancelledError, (m, close_carrier (Some carrier) None st))
  else
    let kind := topology profile in
    let mask := profile_capability_mask profile in
    if mask =? 0 then (Err CapabilityUnavailable, (m, close_carrier (Some carrier) (Some HardClose) st))
    else
      let '(m, st) := drop_dead_slot kind (m, st) in
      match admits kind mask (m, st) with
      | Err e => (Err e, (m, close_carrier (Some carrier) (Some HardClose) st))
      | Ok _ =>
        match create_path (m_peer m) profile carrier now st with
        | (Err e, st) => (Err e, (m, st))
        | (Ok handle, st) =>
          let '(m, st) := retire_slot kind NormalRetire (m, st) in
          let m := set_slot kind (Some (h_id handle)) (Some handle) m in
          (Ok handle, (match kind with Direct => set_probe None m | Relay => m end, st))
        end
      end.

Definition ensure_direct_probe (generation required deadline : Z) (m : Manager) :
    result DirectProbe CoreNetworkError * Manager :=
  if draining m || hard_closed m then (Err CancelledError, m)
  else
    match direct_probe m with
    | Some probe =>
      if negb (dp_generation probe =? generation) then (Err StaleAttempt, m)
      else let probe := probe_extend required deadline probe in (Ok probe, set_probe (Some probe) m)
    | None =>
      let probe := mkProbe generation required deadline in (Ok probe, set_probe (Some probe) m)
    end.

Definition finish_direct_probe (generation : Z) (m : Manager) : bool * Manager :=
  match direct_probe m with
  | Some probe =>
    if dp_generation probe =? generation then (true, set_probe None m) else (false, m)
  | None => (false, m)
  end.

Definition select_with_authorization (required : Z) (allow_direct allow_relay : bool) (s : PathState) :
    option RouteTopology :=
  if allow_direct && slot_test (is_acquirable required) Direct s then Some Direct
  else if allow_relay && slot_test (is_acquirable required) Relay s then Some Relay
  else None.

(** One slot of [acquire_with_authorization]: nothing when it does not apply. *)
Definition acquire_slot (kind : RouteTopology) (allowed : bool) (required now : Z) (s : PathState) :
    option (result Z CoreNetworkError * PathState) :=
  let '(m, st) := s in
  match slot_path kind m with
  | Some id =>
    if allowed && path_test (is_acquirable required) id st then
      match try_acquire id now st with
      | (Ok _, st) => Some (Ok id, (m, st))
      | (Err StaleAttempt, _) => None
      | (Err e, st) => Some (Err e, (m, st))
      end
    else None
  | None => None
  end.

Definition acquire_with_authorization (required : Z) (allow_direct allow_relay : bool) (now : Z)
    (s : PathState) : result (RouteTopology * Z) CoreNetworkError * PathState :=
  match acquire_slot Direct allow_direct required now s with
  | Some (Ok id, s) => (Ok (Direct, id), s)
  | Some (Err e, s) => (Err e, s)
  | None =>
    match acquire_slot Relay allow_relay required now s with
    | Some (Ok id, s) => (Ok (Relay, id), s)
    | Some (Err e, s) => (Err e, s)
    | None => (Err NoRouteError, s)
    end
  end.

Definition acquire_relay (required now : Z) (s : PathState) : result Z CoreNetworkError * PathState :=
  let '(m, st) := s in
  match relay_path m with
  | Some id =>
    if path_test (is_acquirable required) id st then
      let '(r, st) := try_acquire id now st in
      (match r with Ok _ => Ok id | Err e => Err e end, (m, st))
    else (Err NoRouteError, s)
  | None => (Err NoRouteError, s)
  end.

(** [RuntimeState::acquire_path_lease] ([runtime/path_acquire.rs]), with the
    manager found and its route flags read. *)
Definition acquire_path_lease (required : Z) (allow_direct allow_relay : bool) (now : Z) (s : PathState) :
    result Z CoreNetworkError * PathState :=
  match select_with_authorization required allow_direct allow_relay s with
  | None => (Err NoRouteError, s)
  | Some selected =>
    match acquire_with_authorization required allow_direct allow_relay now s with
    | (Err e, s) => (Err e, s)
    | (Ok (acquired, id), (m, st)) =>
      if decide (acquired = selected) then (Ok id, (m, st))
      else (Err StaleAttempt, (m, drop_lease id now st))
    end
  end.
