(* ===== verification/PathProofs.v ===== *)
(** * What the path owner preserves

    The invariant of [Paths.v] and [PathManager.v]: counts of references and
    leases agree with who holds them, open carriers are held by exactly one
    path and closed carriers were closed once, and the weak index lists the
    ready paths of the slots. *)
From S2P Require Import Prelude Profile Paths PathManager.

(** ** Occurrences *)

Definition occ (id : Z) (l : list Z) : Z := len (filter (fun x => x = id) l).

Lemma occ_nil id : occ id [] = 0.
Proof. done. Qed.
Lemma occ_cons id x l : occ id (x :: l) = (if decide (x = id) then 1 else 0) + occ id l.
Proof. unfold occ, len. rewrite filter_cons. case_decide; cbn [length]; lia. Qed.
Lemma occ_app id l k : occ id (l ++ k) = occ id l + occ id k.
Proof. unfold occ, len. rewrite filter_app, length_app. lia. Qed.
Lemma occ_nonneg id l : 0 <= occ id l.
Proof. unfold occ, len. lia. Qed.
Lemma occ_pos id l : id ∈ l <-> 0 < occ id l.
Proof.
  induction l as [|x l IH]; [rewrite occ_nil, elem_of_nil; lia|]. rewrite occ_cons, elem_of_cons.
  pose proof (occ_nonneg id l). case_decide; subst; intuition (try lia; try congruence).
Qed.
#[export] Instance occ_perm id : Proper ((≡ₚ) ==> (=)) (occ id).
Proof. intros l k H. unfold occ, len. by rewrite H. Qed.

(** ** References and leases

    [Core st ow ls]: [ow] lists the manager's references and [ls] the paths of
    the live leases. *)
Definition PathOk (st : Paths) (ow ls : list Z) (id : Z) (p : PhysicalPath) : Prop :=
  h_id (p_handle p) = id /\ id < next_path st
  /\ (p_carrier p = None <-> path_is_active p = false)
  /\ p_refs p = occ id ow + occ id ls
  /\ p_leases p = occ id ls /\ p_leases p <= MAX_PATH_LEASES
  /\ (p_state p = Ready -> id ∈ ow)
  /\ (p_state p = Draining -> 0 < p_leases p).

Definition Core (st : Paths) (ow ls : list Z) : Prop :=
  (forall id p, heap st !! id = Some p -> PathOk st ow ls id p)
  /\ (forall id, id ∈ ow \/ id ∈ ls -> is_Some (heap st !! id)).

Lemma Core_perm st ow ow' ls ls' : ow ≡ₚ ow' -> ls ≡ₚ ls' -> Core st ow ls -> Core st ow' ls'.
Proof.
  intros Ho Hl [H1 H2]. split.
  - intros id p Hp. destruct (H1 id p Hp) as (? & ? & ? & ? & ? & ? & ? & ?).
    unfold PathOk. rewrite <- Ho, <- Hl. done.
  - intros id. rewrite <- Ho, <- Hl. apply H2.
Qed.

(** Replacing a path that was there by a well-formed one. *)
Lemma Core_set st st' ow ow' ls ls' id p p' :
  Core st ow ls -> heap st !! id = Some p ->
  heap st' = <[id := p']> (heap st) -> next_path st' = next_path st ->
  (forall k, k ≠ id -> occ k ow' = occ k ow /\ occ k ls' = occ k ls) ->
  PathOk st' ow' ls' id p' -> Core st' ow' ls'.
Proof.
  intros [H1 H2] Hp Eh En Hk Hok. split.
  - intros k q. rewrite Eh. intros [[<- <-]|[Hne Hq]]%lookup_insert_Some; [done|].
    destruct (H1 k q Hq) as (? & ? & ? & ? & ? & ? & Hr & ?). destruct (Hk k) as [E1 E2]; [done|].
    unfold PathOk. rewrite E1, E2, En. split_and!; try done. intros ?%Hr. rewrite occ_pos in *. lia.
  - intros k Hin. rewrite Eh, lookup_insert_is_Some. destruct (decide (id = k)) as [|Hne]; [by left|right].
    split; [done|]. apply H2. destruct (Hk k) as [E1 E2]; [done|]. rewrite !occ_pos in *. lia.
Qed.

Lemma Core_index st ow ls i : Core st ow ls -> Core (set_index i st) ow ls.
Proof. done. Qed.

Lemma Core_log st ow ls c r : Core st ow ls -> Core (close_carrier c r st) ow ls.
Proof. done. Qed.

Lemma close_core st ow ls id r : Core st ow ls -> Core (close_with_reason id r st) ow ls.
Proof.
  intros H. unfold close_with_reason. destruct (heap st !! id) as [p|] eqn:Hp; [|done].
  pose proof (proj1 H id p Hp) as (? & ? & ? & ? & ? & ? & ? & ?).
  destruct (p_state p); try done; apply Core_log; eapply (Core_set st _ ow ow ls ls id p); try done;
    unfold PathOk; cbn; by split_and!.
Qed.

Lemma retire_normal_core st ow ls id : Core st ow ls -> Core (retire_normal id st) ow ls.
Proof.
  intros H. unfold retire_normal. destruct (heap st !! id) as [p|] eqn:Hp; [|done].
  pose proof (proj1 H id p Hp) as (? & ? & Hc & ? & ? & ? & ? & ?). pose proof (occ_nonneg id ls).
  assert (Ha : path_is_active p = true -> Core (
    if p_leases p =? 0 then
        close_carrier (p_carrier p) (Some NormalRetire)
          (set_path id (mkPath (p_handle p) (Closed NormalRetire) None (p_leases p) (p_last p) (p_refs p)) st)
      else set_path id (mkPath (p_handle p) Draining (p_carrier p) (p_leases p) (p_last p) (p_refs p)) st) ow ls).
  { intros Ha. rewrite Ha in Hc. destruct (p_leases p =? 0) eqn:Hl; bool_facts; try apply Core_log;
      eapply (Core_set st _ ow ow ls ls id p); try done; unfold PathOk; cbn; split_and!; try done; lia. }
  unfold path_is_active in *. destruct (p_state p); try done; by apply Ha.
Qed.

Lemma record_activity_core st ow ls id now : Core st ow ls -> Core (record_activity id now st) ow ls.
Proof.
  intros H. unfold record_activity. destruct (heap st !! id) as [p|] eqn:Hp; [|done]. case_match; [|done].
  pose proof (proj1 H id p Hp) as (? & ? & ? & ? & ? & ? & ? & ?).
  eapply (Core_set st _ ow ow ls ls id p); try done.
Qed.

(** The manager lets go of a path that is no longer ready. *)
Lemma drop_ref_core st ow ls id p :
  Core st (id :: ow) ls -> heap st !! id = Some p -> p_state p ≠ Ready -> Core (drop_ref id st) ow ls.
Proof.
  intros H Hp Hs. unfold drop_ref. rewrite Hp.
  pose proof (proj1 H id p Hp) as (? & ? & ? & Hr & ? & ? & ? & ?). rewrite occ_cons, decide_True in Hr by done.
  set (st' := set_path id _ st).
  assert (Hst' : Core st' ow ls); [|case_match; [by apply close_core|done]].
  eapply (Core_set st _ (id :: ow) ow ls ls id p); try done.
  - intros k Hk. by rewrite occ_cons, decide_False.
  - unfold PathOk. cbn. split_and!; try done. lia.
Qed.

Lemma try_acquire_core st ow ls id now st' :
  try_acquire id now st = (Ok tt, st') -> Core st ow ls -> Core st' ow (id :: ls).
Proof.
  unfold try_acquire. intros E H. destruct (heap st !! id) as [p|] eqn:Hp; [|done].
  destruct (is_ready p) eqn:Hr; [|done]. cbn in E. destruct (MAX_PATH_LEASES <=? p_leases p) eqn:Hm; [done|].
  simplify_eq. bool_facts. unfold is_ready in Hr. bool_facts.
  pose proof (proj1 H id p Hp) as (? & ? & ? & ? & ? & ? & ? & ?).
  eapply (Core_set st _ ow ow ls (id :: ls) id p); try done.
  - intros k Hk. by rewrite occ_cons, decide_False.
  - unfold PathOk. cbn. rewrite occ_cons, decide_True by done. split_and!; try done; try lia. congruence.
Qed.

Lemma drop_lease_core st ow ls id now :
  Core st ow (id :: ls) -> Core (drop_lease id now st) ow ls.
Proof.
  intros H. destruct (proj2 H id) as [p Hp]; [right; by left|].
  pose proof (proj1 H id p Hp) as (Hid & Hn & Hc & Hr & Hl & Hm & Hrd & Hdr).
  rewrite occ_cons, decide_True in Hr, Hl by done. pose proof (occ_nonneg id ls).
  assert (Hk : forall k, k ≠ id -> occ k ow = occ k ow /\ occ k ls = occ k (id :: ls))
    by (intros k ?; by rewrite (occ_cons k id), decide_False).
  unfold drop_lease, release_lease. rewrite Hp. destruct (p_leases p =? 0) eqn:Hz; bool_facts; [lia|].
  destruct ((p_leases p - 1 =? 0) && bool_decide (p_state p = Draining)) eqn:Hd; unfold drop_ref; cbn;
    rewrite lookup_insert_eq; cbn; bool_facts.
  - assert (HF : Core (close_carrier (p_carrier p) (Some NormalRetire)
                  (set_path id (mkPath (p_handle p) (Closed NormalRetire) None (p_leases p - 1) (p_last p) (p_refs p - 1)) st)) ow ls).
    { apply Core_log. eapply (Core_set st _ ow ow (id :: ls) ls id p); try done.
      unfold PathOk. cbn. split_and!; try done; lia. }
    unfold set_path in *. cbn in *. rewrite insert_insert_eq.
    case_match; [by apply close_core|done].
  - assert (HF : forall last, Core (set_path id (mkPath (p_handle p) (p_state p) (p_carrier p) (p_leases p - 1) last (p_refs p - 1)) st) ow ls).
    { intros last. eapply (Core_set st _ ow ow (id :: ls) ls id p); try done.
      unfold PathOk. cbn. split_and!; try done; try lia. intros Hs.
      apply andb_false_iff in Hd as [?|?]; bool_facts; [lia|done]. }
    unfold set_path in *. cbn. rewrite insert_insert_eq. case_match; [apply close_core|]; apply HF.
Qed.

(** ** Carriers *)

(** The carriers held by paths; with the closed ones they are all that were
    handed over. *)
Definition held (st : Paths) : list Z :=
  c_id <$> omap (fun p : Z * PhysicalPath => p_carrier p.2) (map_to_list (heap st)).
Definition carrier_ids (p : PhysicalPath) : list Z :=
  match p_carrier p with Some c => [c_id c] | None => [] end.
Definition Carriers (st : Paths) (sub : list Z) : Prop := sub ≡ₚ (closed st).*1 ++ held st.

Lemma held_delete st id p :
  heap st !! id = Some p -> held st ≡ₚ carrier_ids p ++ (c_id <$> omap (fun p : Z * PhysicalPath => p_carrier p.2) (map_to_list (delete id (heap st)))).
Proof.
  intros H. unfold held, carrier_ids. rewrite <- (map_to_list_delete _ _ _ H). cbn.
  by destruct (p_carrier p).
Qed.

Lemma held_insert st st' id p' :
  heap st' = <[id := p']> (heap st) ->
  held st' ≡ₚ carrier_ids p' ++ (c_id <$> omap (fun p : Z * PhysicalPath => p_carrier p.2) (map_to_list (delete id (heap st)))).
Proof.
  intros H. rewrite (held_delete st' id p') by (by rewrite H, lookup_insert_eq).
  by rewrite H, delete_insert_eq.
Qed.

Lemma Carriers_set st st' sub id p p' :
  Carriers st sub -> heap st !! id = Some p -> heap st' = <[id := p']> (heap st) ->
  (closed st').*1 ++ carrier_ids p' ≡ₚ (closed st).*1 ++ carrier_ids p ->
  Carriers st' sub.
Proof.
  unfold Carriers. intros H Hp Eh Hc. rewrite H, (held_delete st id p Hp), (held_insert st st' id p' Eh).
  by rewrite !(assoc (++)), Hc.
Qed.

Lemma Carriers_same st st' sub id p p' :
  Carriers st sub -> heap st !! id = Some p -> heap st' = <[id := p']> (heap st) ->
  closed st' = closed st -> p_carrier p' = p_carrier p -> Carriers st' sub.
Proof. intros H Hp Eh Ec Ecar. eapply Carriers_set; eauto. unfold carrier_ids. by rewrite Ec, Ecar. Qed.

(** Closing moves the path's carrier to the log. *)
Lemma Carriers_close st sub id p r s l a k :
  Carriers st sub -> heap st !! id = Some p ->
  Carriers (close_carrier (p_carrier p) r (set_path id (mkPath (p_handle p) s None l a k) st)) sub.
Proof.
  intros H Hp. eapply (Carriers_set st); eauto. unfold close_carrier, carrier_ids. cbn.
  destruct (p_carrier p); cbn; [|done]. rewrite app_nil_r. by rewrite Permutation_cons_append.
Qed.

Lemma close_carriers st sub id r : Carriers st sub -> Carriers (close_with_reason id r st) sub.
Proof.
  intros H. unfold close_with_reason. destruct (heap st !! id) as [p|] eqn:Hp; [|done].
  destruct (p_state p); try done; by apply Carriers_close.
Qed.

Lemma retire_normal_carriers st sub id : Carriers st sub -> Carriers (retire_normal id st) sub.
Proof.
  intros H. unfold retire_normal. destruct (heap st !! id) as [p|] eqn:Hp; [|done].
  destruct (p_state p); try done; (case_match; [by apply Carriers_close|by eapply (Carriers_same st)]).
Qed.

Lemma drop_ref_carriers st sub id : Carriers st sub -> Carriers (drop_ref id st) sub.
Proof.
  intros H. unfold drop_ref. destruct (heap st !! id) as [p|] eqn:Hp; [|done].
  case_match; [apply close_carriers|]; by eapply (Carriers_same st).
Qed.

Lemma drop_lease_carriers st sub id now : Carriers st sub -> Carriers (drop_lease id now st) sub.
Proof.
  intros H. apply drop_ref_carriers. unfold release_lease. destruct (heap st !! id) as [p|] eqn:Hp; [|done].
  destruct (p_leases p =? 0); [done|]. cbn.
  destruct (_ && _); [by apply Carriers_close|by eapply (Carriers_same st)].
Qed.

Lemma try_acquire_carriers st sub id now : Carriers st sub -> Carriers (try_acquire id now st).2 sub.
Proof.
  intros H. unfold try_acquire. destruct (heap st !! id) as [p|] eqn:Hp; [|done].
  case_match; [done|]. case_match; [done|]. by eapply (Carriers_same st).
Qed.

Lemma record_activity_carriers st sub id now : Carriers st sub -> Carriers (record_activity id now st) sub.
Proof.
  intros H. unfold record_activity. destruct (heap st !! id) as [p|] eqn:Hp; [|done].
  case_match; [by eapply (Carriers_same st)|done].
Qed.

(** A carrier that is refused. *)
Lemma refuse_carriers st sub c r :
  Carriers st sub -> Carriers (close_carrier (Some c) r st) (c_id c :: sub).
Proof. unfold Carriers. intros H. cbn. by rewrite H. Qed.

(** ** The manager's slots and the weak index *)

Definition owned (m : Manager) : list Z :=
  option_list (direct_path m) ++ option_list (relay_path m) ++ draining_paths m.

Definition slots (m : Manager) : list Z := option_list (direct_path m) ++ option_list (relay_path m).

Definition ready_at (st : Paths) (id : Z) : Prop := path_test is_ready id st = true.

Definition SlotOk (m : Manager) (st : Paths) (kind : RouteTopology) : Prop :=
  match slot_path kind m with
  | Some id => exists p, heap st !! id = Some p /\ slot_ready kind m = Some (p_handle p)
      /\ h_id (p_handle p) = id /\ h_peer (p_handle p) = m_peer m
      /\ topology (h_profile (p_handle p)) = kind
      /\ h_mask (p_handle p) = profile_capability_mask (h_profile (p_handle p))
  | None => slot_ready kind m = None
  end.

(** [ex] are ready paths that a method has created and not yet put in a slot. *)
Definition IndexOk (ex : list Z) (m : Manager) (st : Paths) : Prop :=
  (forall id, id ∈ default ∅ (index st !! m_peer m) <-> id ∈ ex ++ slots m /\ ready_at st id)
  /\ (forall q, q ≠ m_peer m -> index st !! q = None).

Definition Owner (ex : list Z) (m : Manager) (st : Paths) (ls : list Z) : Prop :=
  Core st (ex ++ owned m) ls /\ NoDup (ex ++ owned m)
  /\ (forall id, id ∈ draining_paths m -> ~ ready_at st id)
  /\ (forall kind, SlotOk m st kind)
  /\ IndexOk ex m st.

Abbreviation ManagerOk := (Owner []).

(** ** What an operation on one path leaves alone *)

Definition touches (id : Z) (st st' : Paths) : Prop :=
  next_path st' = next_path st /\ index st' = index st
  /\ (forall k, k ≠ id -> heap st' !! k = heap st !! k)
  /\ match heap st !! id with
     | Some p => exists p', heap st' !! id = Some p' /\ p_handle p' = p_handle p
                            /\ (is_ready p' = true -> is_ready p = true)
     | None => heap st' !! id = None
     end.

Lemma touches_refl id st : touches id st st.
Proof. unfold touches. split_and!; try done. case_match; eauto. Qed.

Lemma touches_trans id st1 st2 st3 : touches id st1 st2 -> touches id st2 st3 -> touches id st1 st3.
Proof.
  intros (A1 & A2 & A3 & A4) (B1 & B2 & B3 & B4). unfold touches. split_and!; [congruence..| |].
  - intros k Hk. by rewrite B3, A3.
  - destruct (heap st1 !! id) as [p|].
    + destruct A4 as (p' & E & Eh & Hr). rewrite E in B4. destruct B4 as (p2 & E2 & Eh2 & Hr2).
      exists p2. split_and!; [done|congruence|auto].
    + by rewrite A4 in B4.
Qed.

Lemma touches_set id st st' p p' :
  heap st !! id = Some p -> heap st' = <[id := p']> (heap st) -> next_path st' = next_path st ->
  index st' = index st -> p_handle p' = p_handle p -> (is_ready p' = true -> is_ready p = true) ->
  touches id st st'.
Proof.
  intros Hp Eh En Ei Ehd Hr. unfold touches. rewrite Hp, Eh. split_and!; try done.
  - intros k Hk. by rewrite lookup_insert_ne.
  - exists p'. by rewrite lookup_insert_eq.
Qed.

Lemma close_touches id r st : touches id st (close_with_reason id r st).
Proof.
  unfold close_with_reason. destruct (heap st !! id) as [p|] eqn:Hp; [|apply touches_refl].
  destruct (p_state p); try apply touches_refl; by eapply touches_set.
Qed.

Lemma retire_normal_touches id st : touches id st (retire_normal id st).
Proof.
  unfold retire_normal. destruct (heap st !! id) as [p|] eqn:Hp; [|apply touches_refl].
  destruct (p_state p); try apply touches_refl; case_match; by eapply touches_set.
Qed.

Lemma drop_ref_touches id st : touches id st (drop_ref id st).
Proof.
  unfold drop_ref. destruct (heap st !! id) as [p|] eqn:Hp; [|apply touches_refl]. set (st' := set_path _ _ _).
  assert (touches id st st') by (by eapply touches_set).
  case_match; [|done]. eapply touches_trans; [done|apply close_touches].
Qed.

Lemma drop_lease_touches id now st : touches id st (drop_lease id now st).
Proof.
  unfold drop_lease. eapply touches_trans; [|apply drop_ref_touches]. unfold release_lease.
  destruct (heap st !! id) as [p|] eqn:Hp; [|apply touches_refl].
  destruct (p_leases p =? 0); [apply touches_refl|]. cbn. destruct (_ && _); by eapply touches_set.
Qed.

Lemma try_acquire_touches id now st : touches id st (try_acquire id now st).2.
Proof.
  unfold try_acquire. destruct (heap st !! id) as [p|] eqn:Hp; [|apply touches_refl].
  destruct (is_ready p); cbn; [|apply touches_refl].
  destruct (MAX_PATH_LEASES <=? _); cbn; [apply touches_refl|by eapply touches_set].
Qed.

Lemma record_activity_touches id now st : touches id st (record_activity id now st).
Proof.
  unfold record_activity. destruct (heap st !! id) as [p|] eqn:Hp; [|apply touches_refl].
  case_match; [by eapply touches_set|apply touches_refl].
Qed.

Lemma touches_ready id st st' k : touches id st st' -> ready_at st' k -> ready_at st k.
Proof.
  intros (_ & _ & H1 & H2). unfold ready_at, path_test. destruct (decide (k = id)) as [->|Hne]; [|by rewrite H1].
  destruct (heap st !! id); [|by rewrite H2]. destruct H2 as (p' & -> & _ & Hr). auto.
Qed.

Lemma touches_ready_ne id st st' k : touches id st st' -> k ≠ id -> ready_at st' k <-> ready_at st k.
Proof. intros (_ & _ & H1 & _) Hne. unfold ready_at, path_test. by rewrite H1. Qed.

Lemma touches_lookup id st st' k p :
  touches id st st' -> heap st !! k = Some p ->
  exists p', heap st' !! k = Some p' /\ p_handle p' = p_handle p.
Proof.
  intros (_ & _ & H1 & H2) Hk. destruct (decide (k = id)) as [->|Hne]; [|rewrite H1 by done; eauto].
  rewrite Hk in H2. destruct H2 as (p' & ? & ? & _). eauto.
Qed.

(** Handles survive every operation, so the slots stay well formed. *)
Lemma SlotOk_touches id m st st' kind : touches id st st' -> SlotOk m st kind -> SlotOk m st' kind.
Proof.
  intros Ht. unfold SlotOk. destruct (slot_path kind m) as [k|]; [|done].
  intros (p & Hp & H). destruct (touches_lookup _ _ _ _ _ Ht Hp) as (p' & Hp' & E).
  exists p'. by rewrite E.
Qed.

(** ** Ready paths after closing *)

Lemma close_not_ready id r st : ~ ready_at (close_with_reason id r st) id.
Proof.
  unfold ready_at, path_test, close_with_reason. destruct (heap st !! id) as [p|] eqn:Hp; [|by rewrite Hp].
  destruct (p_state p) eqn:Es; cbn; rewrite ?lookup_insert_eq; try done.
  rewrite Hp. unfold is_ready. rewrite Es. done.
Qed.

Lemma retire_not_ready id st : ~ ready_at (retire_normal id st) id.
Proof.
  unfold ready_at, path_test, retire_normal. destruct (heap st !! id) as [p|] eqn:Hp; [|by rewrite Hp].
  destruct (p_state p) eqn:Es; [..|rewrite Hp; unfold is_ready; by rewrite Es];
    destruct (p_leases p =? 0); cbn; by rewrite lookup_insert_eq.
Qed.

Lemma not_ready_state st id p : heap st !! id = Some p -> ~ ready_at st id -> p_state p ≠ Ready.
Proof. unfold ready_at, path_test, is_ready. intros -> H Hs. apply H. by apply bool_decide_eq_true. Qed.

(** ** Entries of the index *)

Lemma take_entry_spec h st :
  heap (take_entry h st).2 = heap st /\ next_path (take_entry h st).2 = next_path st
  /\ closed (take_entry h st).2 = closed st
  /\ default ∅ (index (take_entry h st).2 !! h_peer h) = default ∅ (index st !! h_peer h) ∖ {[h_id h]}
  /\ (forall q, q ≠ h_peer h -> index (take_entry h st).2 !! q = index st !! q).
Proof.
  unfold take_entry. destruct (index st !! h_peer h) as [ids|] eqn:E; cbn; split_and!; try done.
  - rewrite lookup_partial_alter_eq. unfold entry_set. case_decide as Hd; cbn; set_solver.
  - intros q Hq. by rewrite lookup_partial_alter_ne.
  - rewrite E. cbn. set_solver.
Qed.

(** An entry operation changes the path as [f] does, and the index as
    [take_entry] does. *)
Definition entry_effect (h : PathHandle) (st st' : Paths) : Prop :=
  touches (h_id h) st (set_index (index st) st')
  /\ default ∅ (index st' !! h_peer h) = default ∅ (index st !! h_peer h) ∖ {[h_id h]}
  /\ (forall q, q ≠ h_peer h -> index st' !! q = index st !! q).

Lemma touches_heap id st st1 st2 st' :
  heap st1 = heap st -> next_path st1 = next_path st -> touches id st1 st2 ->
  heap st' = heap st2 -> next_path st' = next_path st2 -> index st' = index st -> touches id st st'.
Proof.
  intros E1 E2 (H1 & H2 & H3 & H4) E3 E4 E5. unfold touches in *. rewrite E1 in *. rewrite E3, E4, E5.
  split_and!; try done. congruence.
Qed.

Lemma on_entry_effect f h st :
  (forall st, touches (h_id h) st (f (h_id h) st)) -> entry_effect h st (on_entry f h st).2.
Proof.
  intros Hf. unfold on_entry. pose proof (take_entry_spec h st) as (E1 & E2 & E3 & E4 & E5).
  destruct (take_entry h st) as [b st1]. cbn in *.
  assert (Hst : touches (h_id h) st1 (if b then if upgrades (h_id h) st1 then f (h_id h) st1 else st1 else st1))
    by (repeat case_match; auto using touches_refl).
  assert (forall st2, touches (h_id h) st1 st2 -> entry_effect h st st2) as HE.
  { intros st2 Ht. pose proof Ht as (H1 & H2 & _). unfold entry_effect. rewrite H2. split_and!; try done.
    by eapply (touches_heap _ st st1 st2). }
  destruct b; apply HE, Hst.
Qed.

Lemma Core_heap st st' ow ls :
  heap st' = heap st -> next_path st' = next_path st -> Core st ow ls -> Core st' ow ls.
Proof. intros E1 E2 [H1 H2]. unfold Core, PathOk in *. rewrite E1, E2. done. Qed.

Lemma Carriers_heap st st' sub :
  heap st' = heap st -> closed st' = closed st -> Carriers st sub -> Carriers st' sub.
Proof. intros E1 E2. unfold Carriers, held. by rewrite E1, E2. Qed.

Lemma on_entry_core f h st ow ls :
  (forall st, Core st ow ls -> Core (f (h_id h) st) ow ls) -> Core st ow ls -> Core (on_entry f h st).2 ow ls.
Proof.
  intros Hf H. unfold on_entry. pose proof (take_entry_spec h st) as (E1 & E2 & _).
  destruct (take_entry h st) as [[] st1]; cbn in *; [case_match; [apply Hf|]|]; by apply (Core_heap st).
Qed.

Lemma on_entry_carriers f h st sub :
  (forall st, Carriers st sub -> Carriers (f (h_id h) st) sub) ->
  Carriers st sub -> Carriers (on_entry f h st).2 sub.
Proof.
  intros Hf H. unfold on_entry. pose proof (take_entry_spec h st) as (E1 & _ & E3 & _).
  destruct (take_entry h st) as [[] st1]; cbn in *; [case_match; [apply Hf|]|]; by apply (Carriers_heap st).
Qed.

(** ** Retirement *)

(** What retirement does to the paths: the entry leaves the index and the path
    is no longer ready. *)
Definition retire_step (reason : PathCloseReason) (id : Z) (h : PathHandle) (st : Paths) : Paths :=
  match reason with
  | NormalRetire => retire_normal id (registry_drain h st).2
  | HardClose => close_with_reason id HardClose (revoke h st).2
  | SecurityFailure => close_with_reason id SecurityFailure (registry_security_failure h st).2
  end.

Lemma retire_step_core reason id h st ow ls :
  Core st ow ls -> Core (retire_step reason id h st) ow ls.
Proof.
  intros H. destruct reason; cbn; unfold registry_drain, revoke, registry_security_failure;
    [apply retire_normal_core|apply close_core..]; apply on_entry_core;
    auto using retire_normal_core, close_core.
Qed.

Lemma retire_step_carriers reason id h st sub :
  Carriers st sub -> Carriers (retire_step reason id h st) sub.
Proof.
  intros H. destruct reason; cbn; unfold registry_drain, revoke, registry_security_failure;
    [apply retire_normal_carriers|apply close_carriers..]; apply on_entry_carriers;
    auto using retire_normal_carriers, close_carriers.
Qed.

Lemma entry_effect_touches h st st1 st2 :
  entry_effect h st st1 -> touches (h_id h) st1 st2 -> entry_effect h st st2.
Proof.
  intros (H1 & H2 & H3) H4. pose proof H4 as (_ & Ei & _). unfold entry_effect. rewrite Ei. split_and!; try done.
  eapply touches_trans; [exact H1|]. by eapply (touches_heap _ _ st1 st2).
Qed.

Lemma retire_step_effect reason h st : entry_effect h st (retire_step reason (h_id h) h st).
Proof.
  unfold retire_step, registry_drain, revoke, registry_security_failure.
  destruct reason.
  - eapply entry_effect_touches; [apply on_entry_effect; intros|]; apply retire_normal_touches.
  - eapply entry_effect_touches; [apply (on_entry_effect (fun id => close_with_reason id HardClose)); intros|];
      apply close_touches.
  - eapply entry_effect_touches; [apply (on_entry_effect (fun id => close_with_reason id SecurityFailure)); intros|];
      apply close_touches.
Qed.

Lemma retire_step_not_ready reason id h st : ~ ready_at (retire_step reason id h st) id.
Proof. destruct reason; cbn; auto using retire_not_ready, close_not_ready. Qed.

Lemma set_index_ready i st k : ready_at (set_index i st) k <-> ready_at st k.
Proof. done. Qed.

(** [Retiring ex m st ls id]: the manager [m] has just taken [id] out of a slot
    and still holds the reference. *)
Definition Retiring (ex : list Z) (m : Manager) (st : Paths) (ls : list Z) (id : Z) : Prop :=
  Core st (id :: ex ++ owned m) ls /\ NoDup (id :: ex ++ owned m)
  /\ (forall k, k ∈ draining_paths m -> ~ ready_at st k)
  /\ (forall kind, SlotOk m st kind)
  /\ (exists p, heap st !! id = Some p /\ h_id (p_handle p) = id /\ h_peer (p_handle p) = m_peer m)
  /\ (forall k, k ∈ default ∅ (index st !! m_peer m) <-> (k ∈ ex ++ slots m \/ k = id) /\ ready_at st k)
  /\ (forall q, q ≠ m_peer m -> index st !! q = None).

Lemma slots_owned ex m k : k ∈ ex ++ slots m -> k ∈ ex ++ owned m.
Proof. unfold slots, owned. set_solver. Qed.

Lemma owned_set_draining m l : owned (set_draining l m) = slots m ++ l.
Proof. unfold owned, slots. cbn. by rewrite (assoc (++)). Qed.

Lemma owned_slots m : owned m = slots m ++ draining_paths m.
Proof. unfold owned, slots. by rewrite (assoc (++)). Qed.

(** Once the path has left index and slot, the rest of the invariant holds with
    the reference dropped or moved to the draining paths. *)
Lemma retired_rest ex m st st' ls id reason h :
  Retiring ex m st ls id -> h_id h = id -> h_peer h = m_peer m ->
  st' = retire_step reason id h st ->
  Core st' (id :: ex ++ owned m) ls /\ ~ ready_at st' id
  /\ (forall k, k ∈ draining_paths m -> ~ ready_at st' k)
  /\ (forall kind, SlotOk m st' kind) /\ IndexOk ex m st'
  /\ (exists p, heap st' !! id = Some p).
Proof.
  intros (HC & Hnd & Hdr & Hsl & (p & Hp & _ & _) & Hix & Hq) Eh Ep ->.
  pose proof (retire_step_effect reason h st) as (Ht & Hi & Ho). rewrite Eh, Ep in *.
  set (st' := retire_step reason id h st) in *.
  assert (Hr : forall k, k ≠ id -> ready_at st' k <-> ready_at st k)
    by (intros k Hk; rewrite <- (set_index_ready (index st) st' k); by eapply touches_ready_ne).
  assert (Hn : ~ ready_at st' id) by (by subst st'; apply retire_step_not_ready).
  split_and!.
  - by apply retire_step_core.
  - done.
  - intros k Hk. apply NoDup_cons in Hnd as [Hni _]. rewrite Hr; [by apply Hdr|].
    intros ->. apply Hni. rewrite owned_slots. set_solver.
  - intros kind. pose proof (SlotOk_touches _ m _ _ kind Ht (Hsl kind)) as H. exact H.
  - split; [|intros q Hqn; rewrite Ho by done; by apply Hq].
    intros k. rewrite Hi, elem_of_difference, elem_of_singleton, Hix.
    apply NoDup_cons in Hnd as [Hni _]. split.
    + intros [[[?|?] ?] ?]; [|done]. by rewrite Hr.
    + intros [Hk Hrk]. assert (k ≠ id) by (intros ->; apply Hni; by apply slots_owned). rewrite Hr in Hrk by done. auto.
  - destruct (touches_lookup _ _ _ _ _ Ht Hp) as (p' & Hp' & _). by exists p'.
Qed.

Lemma drop_ref_ready ow st ls id p :
  Core st (id :: ow) ls -> ~ ready_at st id -> heap st !! id = Some p ->
  Core (drop_ref id st) ow ls
  /\ (forall k, ready_at (drop_ref id st) k <-> ready_at st k).
Proof.
  intros HC Hn Hp. split; [eapply drop_ref_core; eauto using not_ready_state|].
  intros k. destruct (decide (k = id)) as [->|Hne]; [|apply (touches_ready_ne id); [apply drop_ref_touches|done]].
  split; [apply (touches_ready id), drop_ref_touches|done].
Qed.

(** Dropping a reference to a path that is not ready and owned nowhere else. *)
Lemma drop_ref_manager ex m st ls id p :
  Core st (id :: ex ++ owned m) ls -> NoDup (ex ++ owned m) -> ~ ready_at st id -> heap st !! id = Some p ->
  (forall k, k ∈ draining_paths m -> ~ ready_at st k) -> (forall kind, SlotOk m st kind) -> IndexOk ex m st ->
  Owner ex m (drop_ref id st) ls.
Proof.
  intros HC Hnd Hn Hp Hdr Hsl [Hi1 Hi2]. destruct (drop_ref_ready _ st ls id p HC Hn Hp) as [HC' Hr].
  pose proof (drop_ref_touches id st) as Ht. pose proof Ht as (_ & Ei & _).
  split_and!; try done.
  - intros k. rewrite Hr. auto.
  - intros kind. by eapply SlotOk_touches.
  - split; [intros k; by rewrite Ei, Hr|by rewrite Ei].
Qed.

Lemma retire_path_ok ex m st ls id reason :
  Retiring ex m st ls id ->
  Owner ex (retire_path id reason (m, st)).1 (retire_path id reason (m, st)).2 ls.
Proof.
  intros H. pose proof H as (_ & Hnd & _ & _ & (p & Hp & Hid & Hpe) & _).
  unfold retire_path, handle_of. rewrite Hp. cbn [fmap option_fmap option_map].
  destruct (retired_rest ex m st _ ls id reason (p_handle p) H Hid Hpe eq_refl) as (HC & Hn & Hdr & Hsl & Hix & p' & Hp').
  apply NoDup_cons in Hnd as [Hni Hnd].
  destruct reason; cbn [retire_step] in *; [|by eapply drop_ref_manager..].
  destruct (path_test path_is_active id _) eqn:Ha; [|by eapply drop_ref_manager]. cbn.
  assert (Hperm : id :: ex ++ owned m ≡ₚ ex ++ owned (set_draining (draining_paths m ++ [id]) m)).
  { rewrite owned_set_draining, !(assoc (++)), <- (assoc (++) ex), <- owned_slots.
    by rewrite Permutation_cons_append. }
  split_and!; try done.
  - eapply Core_perm; eauto.
  - rewrite <- Hperm. by constructor.
  - cbn. intros k [?|Ek%list_elem_of_singleton]%elem_of_app; subst; auto.
Qed.

Lemma retire_path_carriers id reason m st sub :
  Carriers st sub -> Carriers (retire_path id reason (m, st)).2 sub.
Proof.
  intros H. unfold retire_path. destruct (handle_of id st) as [h|]; [|done].
  pose proof (retire_step_carriers reason id h st sub H) as Hs.
  destruct reason; cbn in *; [case_match|..]; cbn; auto using drop_ref_carriers.
Qed.
