(* ===== verification/PathOwner.v ===== *)
(** * The path owner's theorems

    Every operation of a manager, of the registry and of the leases preserves
    the invariant of [PathProofs.v], over any sequence of them; what closing,
    draining, publishing and leasing guarantee. *)
From S2P Require Import Prelude Profile Paths PathManager PathProofs.

(** ** Slots *)

Lemma owned_take kind m id :
  slot_path kind m = Some id -> owned m ≡ₚ id :: owned (set_slot kind None None m).
Proof.
  destruct kind; cbn; intros E; unfold owned; cbn; rewrite E; cbn; [done|].
  by rewrite Permutation_middle.
Qed.

Lemma slots_take kind m id k :
  slot_path kind m = Some id -> k ∈ slots m <-> k = id \/ k ∈ slots (set_slot kind None None m).
Proof. destruct kind; cbn; intros E; unfold slots; cbn; rewrite E; cbn; set_solver. Qed.

Lemma slots_set_ready kind m k :
  slot_path kind m = None -> k ∈ slots m <-> k ∈ slots (set_slot kind None None m).
Proof. destruct kind; cbn; intros E; unfold slots; cbn; rewrite E; cbn; set_solver. Qed.

Lemma SlotOk_take kind m st kind' : SlotOk m st kind' -> SlotOk (set_slot kind None None m) st kind'.
Proof. destruct kind, kind'; unfold SlotOk; cbn; done. Qed.

Lemma set_slot_peer kind a b m : m_peer (set_slot kind a b m) = m_peer m.
Proof. by destruct kind. Qed.
Lemma set_slot_draining kind a b m : draining_paths (set_slot kind a b m) = draining_paths m.
Proof. by destruct kind. Qed.

Lemma take_retiring ex kind m st ls id :
  Owner ex m st ls -> slot_path kind m = Some id -> Retiring ex (set_slot kind None None m) st ls id.
Proof.
  intros (HC & Hnd & Hdr & Hsl & [Hi1 Hi2]) E. unfold Retiring. rewrite set_slot_peer, set_slot_draining.
  assert (Ho : ex ++ owned m ≡ₚ id :: ex ++ owned (set_slot kind None None m))
    by (rewrite (owned_take kind m id E); by rewrite Permutation_middle).
  split_and!; try done.
  - by eapply Core_perm.
  - by rewrite <- Ho.
  - intros kind'. by apply SlotOk_take.
  - pose proof (Hsl kind) as Hk. unfold SlotOk in Hk. rewrite E in Hk.
    destruct Hk as (p & Hp & _ & ? & ? & _). eauto.
  - intros k. rewrite Hi1, !elem_of_app, (slots_take kind m id k E). tauto.
Qed.

Lemma set_slot_none kind m : slot_path kind m = None -> slot_ready kind m = None -> set_slot kind None None m = m.
Proof. destruct m, kind; cbn; by intros -> ->. Qed.

Lemma slot_none_ready ex kind m st ls : Owner ex m st ls -> slot_path kind m = None -> slot_ready kind m = None.
Proof. intros (_ & _ & _ & Hsl & _) E. specialize (Hsl kind). unfold SlotOk in Hsl. by rewrite E in Hsl. Qed.

Lemma retire_slot_ok ex kind reason m st ls :
  Owner ex m st ls ->
  Owner ex (retire_slot kind reason (m, st)).1 (retire_slot kind reason (m, st)).2 ls.
Proof.
  intros H. unfold retire_slot, take_slot, retire_taken. destruct (slot_path kind m) as [id|] eqn:E.
  - apply retire_path_ok. by apply take_retiring.
  - rewrite set_slot_none; [done|done|]. by eapply slot_none_ready.
Qed.

Lemma retire_slot_carriers kind reason m st sub :
  Carriers st sub -> Carriers (retire_slot kind reason (m, st)).2 sub.
Proof.
  intros H. unfold retire_slot, take_slot, retire_taken. case_match; [|done]. by apply retire_path_carriers.
Qed.

(** Retiring a path changes nothing of the manager but its draining paths, so
    emptying both slots first makes no difference. *)
Lemma retire_path_manager id reason m st :
  exists l, (retire_path id reason (m, st)).1 = set_draining l m
    /\ forall m', draining_paths m' = draining_paths m ->
       retire_path id reason (m', st) = (set_draining l m', (retire_path id reason (m, st)).2).
Proof.
  exists (draining_paths (retire_path id reason (m, st)).1). unfold retire_path.
  destruct (handle_of id st) as [h|]; [destruct reason; [destruct (path_test _ _ _)|..]|]; cbn;
    (split; [by destruct m|]); intros m' E; destruct m, m'; cbn in *; by subst.
Qed.

Lemma retire_all_slots reason m st :
  retire_all reason (m, st) = retire_slot Relay reason (retire_slot Direct reason (m, st)).
Proof.
  unfold retire_all, retire_slot, take_slot, retire_taken. cbn [slot_path].
  destruct (direct_path m) as [d|]; [|done].
  destruct (retire_path_manager d reason (set_slot Direct None None m) st) as (l & E1 & E2).
  rewrite (E2 (set_slot Relay None None (set_slot Direct None None m)) eq_refl).
  destruct (retire_path d reason (set_slot Direct None None m, st)) as [m1 st1]. cbn in E1. subst m1. done.
Qed.

Lemma retire_all_ok reason m st ls :
  ManagerOk m st ls -> ManagerOk (retire_all reason (m, st)).1 (retire_all reason (m, st)).2 ls.
Proof.
  intros H. rewrite retire_all_slots. pose proof (retire_slot_ok [] Direct reason m st ls H).
  destruct (retire_slot Direct reason (m, st)) as [m1 st1]. by apply retire_slot_ok.
Qed.

Lemma retire_all_carriers reason m st sub :
  Carriers st sub -> Carriers (retire_all reason (m, st)).2 sub.
Proof.
  intros H. rewrite retire_all_slots. pose proof (retire_slot_carriers Direct reason m st sub H).
  destruct (retire_slot Direct reason (m, st)) as [m1 st1]. by apply retire_slot_carriers.
Qed.

(** Flags and probe do not matter to the invariant. *)
Lemma ManagerOk_flags m m' st ls :
  m_peer m' = m_peer m -> direct_path m' = direct_path m -> direct_ready m' = direct_ready m ->
  relay_path m' = relay_path m -> relay_ready m' = relay_ready m -> draining_paths m' = draining_paths m ->
  ManagerOk m st ls -> ManagerOk m' st ls.
Proof.
  intros E1 E2 E3 E4 E5 E6 (H1 & H2 & H3 & H4 & [H5 H6]).
  unfold Owner, IndexOk, owned, slots in *. rewrite E1, E2, E4, E6. split_and!; try done.
  intros kind. specialize (H4 kind). unfold SlotOk in *. destruct kind; cbn in *; by rewrite ?E1, ?E2, ?E3, ?E4, ?E5.
Qed.

(** ** Draining paths *)

Lemma drop_draining_ok (close : bool) (reason : PathCloseReason) l m st ls :
  Core st (owned m ++ l) ls -> NoDup (owned m ++ l) ->
  (forall k, k ∈ draining_paths m ++ l -> ~ ready_at st k) ->
  (forall kind, SlotOk m st kind) -> IndexOk [] m st ->
  ManagerOk m (foldl (fun st id => drop_ref id (if close then close_with_reason id reason st else st)) st l) ls.
Proof.
  revert st. induction l as [|id l IH]; intros st HC Hnd Hl Hsl Hix; cbn.
  { rewrite app_nil_r in *. by split_and!. }
  set (st1 := if close then close_with_reason id reason st else st).
  assert (Ht : touches id st st1) by (subst st1; destruct close; auto using close_touches, touches_refl).
  assert (HC1 : Core st1 (id :: owned m ++ l) ls).
  { subst st1. assert (Core st (id :: owned m ++ l) ls) by (eapply Core_perm; [|done|exact HC]; by rewrite Permutation_middle).
    destruct close; [by apply close_core|done]. }
  assert (Hn1 : ~ ready_at st1 id) by (intros Hr; eapply (Hl id); [set_solver|]; by eapply touches_ready).
  destruct (proj2 HC1 id) as [p Hp]; [left; by left|].
  assert (Htt : touches id st (drop_ref id st1)) by (eapply touches_trans; [done|apply drop_ref_touches]).
  rewrite <- Permutation_middle, NoDup_cons in Hnd. destruct Hnd as [Hnin Hnd].
  apply IH; try done.
  - eapply drop_ref_core; eauto using not_ready_state.
  - intros k Hk Hr. eapply (Hl k); [set_solver|]. by eapply touches_ready.
  - intros kind. by eapply SlotOk_touches.
  - pose proof Htt as (_ & Ei & _). destruct Hix as [H1 H2]. split; rewrite Ei; [|done].
    intros k. rewrite H1. split; intros [Hs Hr]; (split; [done|]);
      (assert (k ≠ id) by (intros ->; apply Hnin; rewrite elem_of_app; left; by apply (slots_owned [])));
      by apply (touches_ready_ne id st _ k Htt).
Qed.

Lemma close_draining_ok reason m st ls :
  ManagerOk m st ls ->
  ManagerOk (close_draining_paths reason (m, st)).1 (close_draining_paths reason (m, st)).2 ls.
Proof.
  intros (HC & Hnd & Hdr & Hsl & Hix). cbn. rewrite owned_slots in HC, Hnd.
  apply (drop_draining_ok true reason (draining_paths m) (set_draining [] m)); try done;
    rewrite owned_set_draining, app_nil_r; done.
Qed.

Lemma filter_split (l : list Z) (f : Z -> bool) :
  l ≡ₚ filter (fun x => f x = true) l ++ filter (fun x => f x = false) l.
Proof.
  induction l as [|x l IH]; [done|]. rewrite !filter_cons.
  destruct (f x) eqn:E; repeat case_decide; try congruence; cbn.
  - by apply Permutation_skip.
  - rewrite <- Permutation_middle. by apply Permutation_skip.
Qed.

Lemma reap_ok m st ls :
  ManagerOk m st ls -> ManagerOk (reap_draining_paths (m, st)).1 (reap_draining_paths (m, st)).2 ls.
Proof.
  intros (HC & Hnd & Hdr & Hsl & Hix). cbn. rewrite owned_slots in HC, Hnd.
  set (gone := filter (fun id => path_test path_is_active id st = false) (draining_paths m)).
  set (keep := filter (fun id => path_test path_is_active id st = true) (draining_paths m)).
  assert (Hp : draining_paths m ≡ₚ keep ++ gone)
    by apply (filter_split (draining_paths m) (fun id => path_test path_is_active id st)).
  assert (Hperm : slots m ++ draining_paths m ≡ₚ owned (set_draining keep m) ++ gone)
    by (rewrite owned_set_draining, <- (assoc (++)), <- Hp; done).
  apply (drop_draining_ok false HardClose gone (set_draining keep m)); try done.
  - by eapply Core_perm.
  - by rewrite <- Hperm.
  - cbn. intros k. rewrite <- Hp. apply Hdr.
Qed.

Lemma fold_drop_carriers (close : bool) reason l st sub :
  Carriers st sub ->
  Carriers (foldl (fun st id => drop_ref id (if close then close_with_reason id reason st else st)) st l) sub.
Proof.
  revert st. induction l as [|id l IH]; intros st H; cbn; [done|]. apply IH, drop_ref_carriers.
  destruct close; [by apply close_carriers|done].
Qed.

Lemma normal_drain_ok m st ls :
  ManagerOk m st ls -> ManagerOk (normal_drain (m, st)).1 (normal_drain (m, st)).2 ls.
Proof.
  intros H. unfold normal_drain.
  pose proof (retire_all_ok NormalRetire (set_probe None (set_closing true (hard_closed m) m)) st ls) as Hr.
  destruct (retire_all _ _) as [m1 st1]. apply reap_ok, Hr. by eapply ManagerOk_flags.
Qed.

Lemma close_all_ok reason m st ls :
  ManagerOk m st ls -> ManagerOk (close_all_paths reason (m, st)).1 (close_all_paths reason (m, st)).2 ls.
Proof.
  intros H. unfold close_all_paths.
  pose proof (retire_all_ok reason (set_probe None (set_closing true true m)) st ls) as Hr.
  destruct (retire_all _ _) as [m1 st1]. apply close_draining_ok, Hr. by eapply ManagerOk_flags.
Qed.

Lemma normal_drain_carriers m st sub : Carriers st sub -> Carriers (normal_drain (m, st)).2 sub.
Proof.
  intros H. unfold normal_drain.
  pose proof (retire_all_carriers NormalRetire (set_probe None (set_closing true (hard_closed m) m)) st sub H).
  destruct (retire_all _ _) as [m1 st1]. by apply (fold_drop_carriers false HardClose).
Qed.

Lemma close_all_carriers reason m st sub : Carriers st sub -> Carriers (close_all_paths reason (m, st)).2 sub.
Proof.
  intros H. unfold close_all_paths.
  pose proof (retire_all_carriers reason (set_probe None (set_closing true true m)) st sub H).
  destruct (retire_all _ _) as [m1 st1]. by apply (fold_drop_carriers true).
Qed.

Lemma hard_close_slot_ok kind m st ls :
  ManagerOk m st ls -> ManagerOk (hard_close_slot kind (m, st)).1 (hard_close_slot kind (m, st)).2 ls.
Proof.
  intros H. destruct kind; cbn [hard_close_slot]; unfold hard_close_direct, hard_close_relay; apply retire_slot_ok;
    by eapply ManagerOk_flags.
Qed.

Lemma hard_close_slot_carriers kind m st sub :
  Carriers st sub -> Carriers (hard_close_slot kind (m, st)).2 sub.
Proof.
  intros H. destruct kind; cbn [hard_close_slot]; unfold hard_close_direct, hard_close_relay;
    by apply retire_slot_carriers.
Qed.

(** ** Publication *)

Lemma drop_dead_slot_ok kind m st ls :
  ManagerOk m st ls ->
  ManagerOk (drop_dead_slot kind (m, st)).1 (drop_dead_slot kind (m, st)).2 ls.
Proof.
  intros H. unfold drop_dead_slot. destruct (slot_path kind m) as [id|] eqn:E; [|done].
  destruct (path_test is_ready id st) eqn:Hr; cbn; [done|].
  destruct (take_retiring [] kind m st ls id H E) as (HC & Hnd & Hdr & Hsl & (p & Hp & _) & Hi1 & Hi2).
  assert (Hn : ~ ready_at st id) by (unfold ready_at; congruence).
  apply NoDup_cons in Hnd as [_ Hnd]. eapply drop_ref_manager; eauto.
  split; [|done]. intros k. rewrite Hi1. split; [|tauto]. intros [[?| ->] ?]; [tauto|done].
Qed.

Lemma drop_dead_slot_carriers kind m st sub :
  Carriers st sub -> Carriers (drop_dead_slot kind (m, st)).2 sub.
Proof.
  intros H. unfold drop_dead_slot. destruct (slot_path kind m); [|done].
  destruct (negb _); [by apply drop_ref_carriers|done].
Qed.

Lemma retire_path_frame id reason m st p k :
  heap st !! id = Some p -> h_id (p_handle p) = id -> k ≠ id ->
  heap (retire_path id reason (m, st)).2 !! k = heap st !! k.
Proof.
  intros Hp Hid Hk. unfold retire_path, handle_of. rewrite Hp. cbn [fmap option_fmap option_map].
  pose proof (retire_step_effect reason (p_handle p) st) as ((_ & _ & Hs & _) & _ & _). rewrite Hid in Hs.
  assert (Hd : heap (drop_ref id (retire_step reason id (p_handle p) st)) !! k = heap st !! k).
  { destruct (drop_ref_touches id (retire_step reason id (p_handle p) st)) as (_ & _ & Hd & _).
    rewrite Hd by done. by apply Hs. }
  destruct reason; cbn [retire_step] in *; [case_match; [by apply Hs|]|..]; exact Hd.
Qed.

Lemma retire_slot_manager kind reason m st :
  slot_path kind (retire_slot kind reason (m, st)).1 = None
  /\ slot_ready kind (retire_slot kind reason (m, st)).1 = None
  /\ m_peer (retire_slot kind reason (m, st)).1 = m_peer m.
Proof.
  unfold retire_slot, take_slot, retire_taken.
  destruct (slot_path kind m) as [id|]; [|by destruct kind].
  destruct (retire_path_manager id reason (set_slot kind None None m) st) as (l & -> & _). by destruct kind.
Qed.

Lemma retire_slot_frame ex kind reason m st ls k :
  Owner ex m st ls -> slot_path kind m ≠ Some k ->
  heap (retire_slot kind reason (m, st)).2 !! k = heap st !! k.
Proof.
  intros H Hk. unfold retire_slot, take_slot, retire_taken. destruct (slot_path kind m) as [id|] eqn:E; [|done].
  destruct H as (_ & _ & _ & Hsl & _). specialize (Hsl kind). unfold SlotOk in Hsl. rewrite E in Hsl.
  destruct Hsl as (p & Hp & _ & Hid & _). eapply retire_path_frame; eauto. congruence.
Qed.

(** The index of a peer has at most the entries of its two slots. *)
Lemma index_size m st ls :
  ManagerOk m st ls -> Z.of_nat (size (filter (fun id => upgrades id st = true) (default ∅ (index st !! m_peer m)))) <= 2.
Proof.
  intros (_ & Hnd & _ & _ & [Hi _]). cbn in Hnd. rewrite owned_slots, NoDup_app in Hnd.
  assert (Hsub : filter (fun id => upgrades id st = true) (default ∅ (index st !! m_peer m)) ⊆ (list_to_set (slots m) : gset Z))
    by (intros k; rewrite elem_of_filter, elem_of_list_to_set, Hi; tauto).
  apply subseteq_size in Hsub. pose proof (size_list_to_set (C := gset Z) (slots m) (proj1 Hnd)) as Hs.
  assert (length (slots m) <= 2)%nat by (unfold slots; destruct (direct_path m), (relay_path m); cbn; lia). lia.
Qed.

Lemma index_live m st ls :
  ManagerOk m st ls ->
  filter (fun id => upgrades id st = true) (default ∅ (index st !! m_peer m)) = default ∅ (index st !! m_peer m).
Proof.
  intros (HC & _ & _ & _ & [Hi _]). apply set_eq. intros k. rewrite elem_of_filter. split; [tauto|]. intros Hk.
  split; [|done]. apply Hi in Hk as [Hs _]. apply (slots_owned []) in Hs. cbn in Hs.
  destruct (proj2 HC k) as [p Hp]; [by left|]. pose proof (proj1 HC k p Hp) as (_ & _ & _ & Hr & _).
  unfold upgrades, path_test. rewrite Hp, Hr. apply Z.ltb_lt. apply occ_pos in Hs. pose proof (occ_nonneg k ls). cbn in *. lia.
Qed.

Lemma create_path_ok m st ls profile carrier now :
  ManagerOk m st ls -> profile_capability_mask profile ≠ 0 ->
  exists st2, create_path (m_peer m) profile carrier now st
    = (Ok (mkHandle (next_path st) (m_peer m) profile (profile_capability_mask profile)), st2)
    /\ Owner [next_path st] m st2 ls
    /\ heap st2 = <[next_path st := mkPath (mkHandle (next_path st) (m_peer m) profile (profile_capability_mask profile))
                                      Ready (Some carrier) 0 now 1]> (heap st)
    /\ closed st2 = closed st.
Proof.
  intros H Hm. unfold create_path. rewrite (proj2 (Z.eqb_neq _ _) Hm).
  pose proof (index_size m st ls H) as Hsz. rewrite (proj2 (Z.leb_gt _ _)) by (unfold MAX_READY_PATHS_PER_PEER; lia).
  rewrite (index_live m st ls H). eexists. split; [done|]. split; [|done].
  set (id := next_path st). destruct H as (HC & Hnd & Hdr & Hsl & [Hi1 Hi2]).
  assert (Hfresh : heap st !! id = None).
  { destruct (heap st !! id) eqn:E; [|done]. destruct (proj1 HC _ _ E) as (_ & ? & _). lia. }
  assert (Hnew : forall k, k ∈ owned m \/ k ∈ ls -> k ≠ id).
  { intros k Hk ->. apply (proj2 HC) in Hk. rewrite Hfresh in Hk. by destruct Hk. }
  assert (Hz : occ id (owned m) = 0 /\ occ id ls = 0).
  { pose proof (occ_nonneg id (owned m)). pose proof (occ_nonneg id ls).
    assert (~ 0 < occ id (owned m)) by (rewrite <- occ_pos; intros ?; by eapply Hnew; [left|]).
    assert (~ 0 < occ id ls) by (rewrite <- occ_pos; intros ?; by eapply Hnew; [right|]). lia. }
  assert (Hready : forall k, k ≠ id -> forall h i n c, ready_at (mkPaths (<[id := h]> (heap st)) i n c) k <-> ready_at st k)
    by (intros k Hk h i n c; unfold ready_at, path_test; cbn; by rewrite lookup_insert_ne).
  split_and!.
  - split; cbn.
    + intros k p [[<- <-]|[Hne Hp]]%lookup_insert_Some; unfold PathOk; cbn.
      * rewrite occ_cons, decide_True by done. split_and!; try done; try lia. intros _. by left.
      * destruct (proj1 HC k p Hp) as (? & ? & ? & ? & ? & ? & Hrd & ?). rewrite occ_cons, decide_False by done.
        cbn in *. split_and!; try done; [lia|]. intros ?%Hrd. by right.
    + intros k [[->|Hk]%elem_of_cons|Hk]; rewrite lookup_insert_is_Some; [by left|..];
        (right; split; [|apply (proj2 HC)]); eauto using not_eq_sym.
  - cbn. constructor; [|done]. intros Hin. eapply Hnew; eauto.
  - intros k Hk. assert (k ≠ id) by (apply Hnew; left; rewrite owned_slots; set_solver).
    intros Hr. apply (Hdr k Hk). by eapply Hready.
  - intros kind. specialize (Hsl kind). unfold SlotOk in *. destruct (slot_path kind m) as [k|] eqn:E; [|done].
    destruct Hsl as (p & Hp & Hrest). exists p. split; [|done]. cbn. rewrite lookup_insert_ne; [done|]. congruence.
  - split; cbn.
    + intros k. rewrite lookup_insert_eq. cbn. rewrite elem_of_union, elem_of_singleton, Hi1. cbn.
      rewrite elem_of_cons. destruct (decide (k = id)) as [->|Hne].
      * split; [|tauto]. intros _. split; [by left|]. unfold ready_at, path_test. cbn. by rewrite lookup_insert_eq.
      * rewrite (Hready k Hne). tauto.
    + intros q Hq. rewrite lookup_insert_ne by done. by apply Hi2.
Qed.

Lemma owned_put kind m id h :
  slot_path kind m = None -> owned (set_slot kind (Some id) h m) ≡ₚ id :: owned m.
Proof.
  destruct kind; cbn; intros E; unfold owned; cbn; rewrite E; cbn; [done|]. by rewrite <- Permutation_middle.
Qed.

Lemma slots_put kind m id h k :
  slot_path kind m = None -> k ∈ slots (set_slot kind (Some id) h m) <-> k ∈ [id] ++ slots m.
Proof. destruct kind; cbn; intros E; unfold slots; cbn; rewrite E; cbn; set_solver. Qed.

(** Storing the new path in its empty slot. *)
Lemma install_ok kind m st ls p :
  Owner [h_id (p_handle p)] m st ls -> slot_path kind m = None ->
  heap st !! h_id (p_handle p) = Some p -> h_peer (p_handle p) = m_peer m ->
  topology (h_profile (p_handle p)) = kind ->
  h_mask (p_handle p) = profile_capability_mask (h_profile (p_handle p)) ->
  ManagerOk (set_slot kind (Some (h_id (p_handle p))) (Some (p_handle p)) m) st ls.
Proof.
  intros (HC & Hnd & Hdr & Hsl & [Hi1 Hi2]) E Hp Hpe Ht Hmk. pose proof (owned_put kind m (h_id (p_handle p)) (Some (p_handle p)) E) as Ho.
  split_and!.
  - by eapply Core_perm; [symmetry; exact Ho| |].
  - cbn. by rewrite Ho.
  - intros k. rewrite set_slot_draining. apply Hdr.
  - intros kind'. destruct (decide (kind' = kind)) as [->|Hne].
    + unfold SlotOk. destruct kind; cbn; exists p; done.
    + specialize (Hsl kind'). destruct kind, kind'; try done; unfold SlotOk in *; cbn in *; done.
  - split; rewrite set_slot_peer; [|done]. intros k. rewrite Hi1. cbn. by rewrite (slots_put kind m _ _ k E).
Qed.

Lemma publish_ok m st ls profile carrier now :
  ManagerOk m st ls ->
  let '(_, (m', st')) := publish_ready_with_carrier_at profile carrier now (m, st) in ManagerOk m' st' ls.
Proof.
  intros H. unfold publish_ready_with_carrier_at. destruct (draining m || hard_closed m); [done|].
  destruct (profile_capability_mask profile =? 0) eqn:Hz; [done|]. bool_facts.
  pose proof (drop_dead_slot_ok (topology profile) m st ls H) as H1.
  destruct (drop_dead_slot _ _) as [m1 st1]. cbn in H1. destruct (admits _ _ _) as [|e]; [|done].
  destruct (create_path_ok m1 st1 ls profile carrier now H1 Hz) as (st2 & -> & H2 & Eh & _).
  set (p := mkPath _ _ _ _ _ _) in Eh.
  pose proof (retire_slot_ok _ (topology profile) NormalRetire m1 st2 ls H2) as H3.
  pose proof (retire_slot_manager (topology profile) NormalRetire m1 st2) as (Es & _ & Ep).
  assert (Hnk : slot_path (topology profile) m1 ≠ Some (next_path st1)).
  { intros E. destruct H2 as (_ & Hnd & _). apply NoDup_cons in Hnd as [Hni _]. apply Hni.
    rewrite (owned_take _ _ _ E). by left. }
  pose proof (retire_slot_frame _ _ NormalRetire m1 st2 ls _ H2 Hnk) as Hf.
  rewrite Eh, lookup_insert_eq in Hf. destruct (retire_slot _ _ _) as [m2 st3]. cbn in *.
  pose proof (install_ok (topology profile) m2 st3 ls p H3 Es Hf ltac:(cbn; congruence) eq_refl eq_refl) as H4.
  revert H4. destruct (topology profile); intros H4; [by eapply ManagerOk_flags; [..|exact H4]|exact H4].
Qed.

Lemma publish_carriers m st sub profile carrier now ls :
  ManagerOk m st ls -> Carriers st sub ->
  Carriers (publish_ready_with_carrier_at profile carrier now (m, st)).2.2 (c_id carrier :: sub).
Proof.
  intros H HS. unfold publish_ready_with_carrier_at. destruct (draining m || hard_closed m); [by apply refuse_carriers|].
  destruct (profile_capability_mask profile =? 0) eqn:Hz; [by apply refuse_carriers|]. bool_facts.
  pose proof (drop_dead_slot_ok (topology profile) m st ls H) as H1.
  pose proof (drop_dead_slot_carriers (topology profile) m st sub HS) as HS1.
  destruct (drop_dead_slot _ _) as [m1 st1]. cbn in H1, HS1.
  destruct (admits _ _ _) as [|e]; [|by apply refuse_carriers].
  destruct (create_path_ok m1 st1 ls profile carrier now H1 Hz) as (st2 & -> & _ & Eh & Ec).
  assert (HS2 : Carriers st2 (c_id carrier :: sub)).
  { unfold Carriers in *. rewrite Ec, HS1. unfold held. rewrite Eh, map_to_list_insert; cbn; [by rewrite <- Permutation_middle|].
    destruct (heap st1 !! next_path st1) eqn:E; [|done]. destruct H1 as (HC & _). destruct (proj1 HC _ _ E) as (_ & ? & _). lia. }
  pose proof (retire_slot_carriers (topology profile) NormalRetire m1 st2 _ HS2) as HS3.
  destruct (retire_slot _ _ _) as [m2 st3]. by destruct (topology profile).
Qed.

(** ** Leases *)

(** An operation on a path that keeps it as ready as it was. *)
Lemma Owner_touch m st st' ls ls' id :
  touches id st st' -> Core st' (owned m) ls' -> (ready_at st id -> ready_at st' id) ->
  ManagerOk m st ls -> ManagerOk m st' ls'.
Proof.
  intros Ht HC Hr (_ & Hnd & Hdr & Hsl & [Hi1 Hi2]). pose proof Ht as (_ & Ei & _).
  assert (Hrr : forall k, ready_at st' k <-> ready_at st k).
  { intros k. destruct (decide (k = id)) as [->|Hne]; [|by eapply touches_ready_ne].
    split; [by eapply touches_ready|done]. }
  split_and!; try done.
  - intros k. rewrite Hrr. apply Hdr.
  - intros kind. by eapply SlotOk_touches.
  - split; rewrite Ei; [|done]. intros k. by rewrite Hrr.
Qed.

Lemma try_acquire_cases id now st r st' :
  try_acquire id now st = (r, st') ->
  (exists e, r = Err e /\ st' = st) \/ (r = Ok tt /\ ready_at st id /\ ready_at st' id).
Proof.
  unfold try_acquire, ready_at, path_test. destruct (heap st !! id) as [p|] eqn:Hp;
    [|intros [= <- <-]; left; by eexists].
  destruct (is_ready p) eqn:Hr; cbn; [|intros [= <- <-]; left; by eexists].
  destruct (MAX_PATH_LEASES <=? p_leases p); intros [= <- <-]; [left; by eexists|right].
  cbn. by rewrite lookup_insert_eq.
Qed.

Lemma try_acquire_ok id now m st ls st' :
  try_acquire id now st = (Ok tt, st') -> ManagerOk m st ls -> ManagerOk m st' (id :: ls).
Proof.
  intros E H. pose proof (try_acquire_touches id now st) as Ht. rewrite E in Ht.
  eapply Owner_touch; eauto; [eapply try_acquire_core; [done|apply H]|].
  destruct (try_acquire_cases _ _ _ _ _ E) as [(e & ? & _)|(_ & _ & ?)]; done.
Qed.

Lemma drop_lease_ready id now m st ls :
  ManagerOk m st (id :: ls) -> ready_at st id -> ready_at (drop_lease id now st) id.
Proof.
  intros (HC & _) Hr. unfold ready_at, path_test in Hr. destruct (heap st !! id) as [p|] eqn:Hp; [|done].
  destruct (proj1 HC id p Hp) as (_ & _ & _ & Hrf & Hl & _ & Hrd & _). apply bool_decide_eq_true in Hr.
  pose proof (proj1 (occ_pos _ _) (Hrd Hr)) as Ho. cbn in Ho, Hrf. rewrite occ_cons, decide_True in Hrf, Hl by done.
  pose proof (occ_nonneg id ls). unfold drop_lease, release_lease. rewrite Hp.
  rewrite (proj2 (Z.eqb_neq (p_leases p) 0)) by lia.
  rewrite Hr, (bool_decide_eq_false_2 (Ready = Draining)), andb_false_r by done.
  unfold drop_ref, ready_at, path_test. cbn. rewrite lookup_insert_eq. cbn.
  rewrite (proj2 (Z.eqb_neq (p_refs p) 1)) by lia. cbn. by rewrite lookup_insert_eq.
Qed.

Lemma drop_lease_ok id now m st ls :
  ManagerOk m st (id :: ls) -> ManagerOk m (drop_lease id now st) ls.
Proof.
  intros H. eapply Owner_touch; [apply drop_lease_touches| |by apply (drop_lease_ready id now m st ls)|exact H].
  apply drop_lease_core, H.
Qed.

Lemma record_activity_ok id now m st ls : ManagerOk m st ls -> ManagerOk m (record_activity id now st) ls.
Proof.
  intros H. eapply Owner_touch; [apply record_activity_touches|apply record_activity_core, H| |exact H].
  unfold record_activity, ready_at, path_test. destruct (heap st !! id) as [p|] eqn:Hp; [|done].
  destruct (is_ready p) eqn:Hr; [|congruence]. cbn. by rewrite lookup_insert_eq.
Qed.

(** ** The registry's own operations *)

Lemma index_upgrades m st ls k :
  ManagerOk m st ls -> k ∈ default ∅ (index st !! m_peer m) -> upgrades k st = true.
Proof. intros H Hk. rewrite <- (index_live m st ls H) in Hk. by apply elem_of_filter in Hk as [? _]. Qed.

Lemma on_entry_ok f h m st ls :
  (forall st, touches (h_id h) st (f (h_id h) st)) ->
  (forall st, Core st (owned m) ls -> Core (f (h_id h) st) (owned m) ls) ->
  (forall st, ~ ready_at (f (h_id h) st) (h_id h)) ->
  ManagerOk m st ls -> ManagerOk m (on_entry f h st).2 ls.
Proof.
  intros Hf HfC Hfn H. pose proof H as (HC & Hnd & Hdr & Hsl & [Hi1 Hi2]).
  destruct (decide (h_peer h = m_peer m)) as [Ep|Hne]; [|by unfold on_entry, take_entry; rewrite Hi2].
  pose proof (on_entry_effect f h st Hf) as (Ht & Ei & Eo).
  assert (Hin : h_id h ∈ default ∅ (index st !! m_peer m) -> ~ ready_at (on_entry f h st).2 (h_id h)).
  { intros Hin. pose proof (index_upgrades m st ls _ H Hin) as Hu. unfold on_entry, take_entry. rewrite Ep.
    destruct (index st !! m_peer m) as [ids|]; [|done]. cbn in Hin. rewrite bool_decide_eq_true_2 by done.
    set (st1 := set_index _ st). change (upgrades (h_id h) st1) with (upgrades (h_id h) st). rewrite Hu. apply Hfn. }
  set (st' := (on_entry f h st).2) in *.
  assert (Hr : forall k, ready_at st' k -> ready_at st k) by (intros k; apply (touches_ready _ _ _ k Ht)).
  split_and!; try done.
  - by apply on_entry_core.
  - intros k Hk Hrk. by eapply Hdr, Hr.
  - intros kind. by pose proof (SlotOk_touches _ m _ _ kind Ht (Hsl kind)).
  - rewrite Ep in *. split; [|intros q Hq; rewrite Eo by congruence; by apply Hi2].
    intros k. rewrite Ei, elem_of_difference, elem_of_singleton, Hi1.
    destruct (decide (k = h_id h)) as [->|Hk].
    + split; [tauto|]. intros [Hs Hrk]. exfalso. apply Hin; [apply Hi1; auto|done].
    + pose proof (touches_ready_ne _ _ _ k Ht Hk) as Hrn. rewrite set_index_ready in Hrn. rewrite Hrn. tauto.
Qed.

Lemma revoke_ok h m st ls : ManagerOk m st ls -> ManagerOk m (revoke h st).2 ls.
Proof.
  apply (on_entry_ok (fun id => close_with_reason id HardClose)); intros;
    [apply close_touches|by apply close_core|apply close_not_ready].
Qed.
Lemma registry_drain_ok h m st ls : ManagerOk m st ls -> ManagerOk m (registry_drain h st).2 ls.
Proof.
  apply (on_entry_ok retire_normal); intros;
    [apply retire_normal_touches|by apply retire_normal_core|apply retire_not_ready].
Qed.
Lemma registry_security_failure_ok h m st ls : ManagerOk m st ls -> ManagerOk m (registry_security_failure h st).2 ls.
Proof.
  apply (on_entry_ok (fun id => close_with_reason id SecurityFailure)); intros;
    [apply close_touches|by apply close_core|apply close_not_ready].
Qed.

(** A handle the registry issued finds its path exactly when it is indexed. *)
Lemma lookup_issued h p m st ls :
  ManagerOk m st ls -> heap st !! h_id h = Some p -> p_handle p = h -> h_peer h = m_peer m ->
  lookup h st = (if bool_decide (h_id h ∈ default ∅ (index st !! m_peer m)) then Some (h_id h) else None, (lookup h st).2)
  /\ heap (lookup h st).2 = heap st /\ closed (lookup h st).2 = closed st
  /\ ManagerOk m (lookup h st).2 ls.
Proof.
  intros H Hp Eh Ep. unfold lookup. rewrite Ep.
  destruct (index st !! m_peer m) as [ids|] eqn:Ei; cbn; [|by rewrite bool_decide_eq_false_2].
  assert (Hf : bool_decide (h_id h ∈ ids) && path_test (fun p0 => (0 <? p_refs p0) && bool_decide (p_handle p0 = h)) (h_id h) st
               = bool_decide (h_id h ∈ ids)).
  { case_bool_decide as Hin; [|done]. cbn. pose proof (index_upgrades m st ls (h_id h) H) as Hu. rewrite Ei in Hu.
    specialize (Hu Hin). unfold upgrades, path_test in *. rewrite Hp in *. rewrite Hu. by apply bool_decide_eq_true. }
  rewrite Hf. split_and!; [by case_bool_decide|done|done|].
  destruct H as (HC & Hnd & Hdr & Hsl & [Hi1 Hi2]). split_and!; try done. split; cbn.
  - intros k. rewrite lookup_partial_alter_eq, <- Hi1, Ei. unfold entry_set. case_bool_decide; case_decide; cbn; set_solver.
  - intros q Hq. rewrite lookup_partial_alter_ne by done. by apply Hi2.
Qed.

(** ** Acquisition *)

(** What an acquisition leaves behind: one more lease, or the state it found. *)
Definition leased (r : result Z CoreNetworkError) (ls : list Z) : list Z :=
  match r with Ok id => id :: ls | Err _ => ls end.

Lemma registry_acquire_ok h p now m st ls :
  ManagerOk m st ls -> heap st !! h_id h = Some p -> p_handle p = h -> h_peer h = m_peer m ->
  ManagerOk m (registry_acquire h now st).2
    (match (registry_acquire h now st).1 with Ok _ => h_id h :: ls | Err _ => ls end).
Proof.
  intros H Hp Eh Ep. unfold registry_acquire. destruct (lookup_issued h p m st ls H Hp Eh Ep) as (E & _ & _ & H').
  rewrite E. case_bool_decide; [|done]. set (st1 := (lookup h st).2) in *.
  destruct (try_acquire (h_id h) now st1) as [[[]|e] st2] eqn:Et; cbn; [by eapply try_acquire_ok|].
  by destruct (try_acquire_cases _ _ _ _ _ Et) as [(? & _ & ->)|(? & _)].
Qed.

Lemma registry_acquire_carriers h now st sub : Carriers st sub -> Carriers (registry_acquire h now st).2 sub.
Proof.
  intros H. unfold registry_acquire, lookup. destruct (index st !! h_peer h) as [ids|]; [|done].
  destruct (_ && _); cbn; [by apply try_acquire_carriers|done].
Qed.

Lemma select_first_ok required now l m st ls :
  ManagerOk m st ls ->
  ManagerOk m (select_first required now l st).2 (leased (select_first required now l st).1 ls).
Proof.
  intros H. induction l as [|id l IH]; cbn; [done|]. destruct (negb _); [done|].
  destruct (try_acquire id now st) as [[[]|e] st2] eqn:Et; cbn; [by eapply try_acquire_ok|].
  destruct (try_acquire_cases _ _ _ _ _ Et) as [(? & _ & ->)|(? & _)]; [|done]. by destruct e.
Qed.

Lemma select_first_carriers required now l st sub :
  Carriers st sub -> Carriers (select_first required now l st).2 sub.
Proof.
  revert st. induction l as [|id l IH]; intros st H; cbn; [done|]. destruct (negb _); [by apply IH|].
  pose proof (try_acquire_carriers st sub id now H) as Ht. destruct (try_acquire id now st) as [[[]|e] st2]; cbn in *; [done|].
  destruct e; cbn; auto.
Qed.

(** Rewriting the entry of the peer with the same identities. *)
Lemma same_index_ok ids m st ls :
  index st !! m_peer m = Some ids -> ManagerOk m st ls ->
  ManagerOk m (set_index (<[m_peer m := filter (fun id => upgrades id st = true) ids]> (index st)) st) ls.
Proof.
  intros Ei H. pose proof (index_live m st ls H) as El. rewrite Ei in El. cbn in El. rewrite El.
  by rewrite insert_id by done.
Qed.

Lemma close_fold_ok m l st ls ids :
  (forall k, k ∈ ids -> upgrades k st = true) ->
  Core st (owned m) ls -> NoDup (owned m) -> (forall k, k ∈ draining_paths m -> ~ ready_at st k) ->
  (forall kind, SlotOk m st kind) -> (forall q, index st !! q = None) ->
  (forall k, k ∈ slots m -> ready_at st k -> k ∈ ids) -> ids ⊆ l ->
  ManagerOk m (foldl (fun st id => close_alive id st) st l) ls.
Proof.
  revert st ids. induction l as [|id l IH]; intros st ids Hu HC Hnd Hdr Hsl Hix Hr Hsub; cbn.
  { split_and!; try done. split; [|done]. intros k. rewrite Hix. cbn. split; [set_solver|]. intros [Hs Hk].
    apply Hr, Hsub in Hk; [set_solver|done]. }
  assert (Ht : touches id st (close_alive id st))
    by (unfold close_alive; case_match; auto using close_touches, touches_refl).
  assert (Hup : forall k st, upgrades k (close_alive id st) = upgrades k st).
  { intros k s0. unfold close_alive. destruct (upgrades id s0); [|done].
    unfold close_with_reason, upgrades, path_test. destruct (heap s0 !! id) as [p|] eqn:Hp; [|done].
    destruct (decide (k = id)) as [->|Hne]; destruct (p_state p); cbn; rewrite ?lookup_insert_eq, ?lookup_insert_ne by done; by rewrite ?Hp. }
  apply (IH _ (filter (fun k => k ≠ id) ids)); try done.
  - intros k [_ Hk]%list_elem_of_filter. rewrite Hup. auto.
  - unfold close_alive. case_match; [by apply close_core|done].
  - intros k Hk Hk'. by eapply Hdr, touches_ready.
  - intros kind. by eapply SlotOk_touches.
  - intros q. destruct Ht as (_ & -> & _). apply Hix.
  - intros k Hk Hk'. pose proof (touches_ready _ _ _ _ Ht Hk') as Hk2. apply list_elem_of_filter. split; [|by apply Hr].
    intros ->. revert Hk'. unfold close_alive. rewrite Hu by (by apply Hr). apply close_not_ready.
  - intros k [Hne Hk]%list_elem_of_filter. apply Hsub in Hk. set_solver.
Qed.

Section Indexed.
Context {HS : SetOrder Z}.

Lemma select_compatible_ok peer required now m st ls :
  ManagerOk m st ls ->
  ManagerOk m (select_compatible_ready_path peer required now st).2
    (leased (select_compatible_ready_path peer required now st).1 ls).
Proof.
  intros H. unfold select_compatible_ready_path. destruct (decide (peer = m_peer m)) as [->|Hne].
  - destruct (index st !! m_peer m) as [ids|] eqn:Ei; [|done]. by apply select_first_ok, same_index_ok.
  - pose proof H as (_ & _ & _ & _ & [_ Hq]). by rewrite Hq.
Qed.

Lemma select_compatible_carriers peer required now st sub :
  Carriers st sub -> Carriers (select_compatible_ready_path peer required now st).2 sub.
Proof.
  intros H. unfold select_compatible_ready_path. destruct (index st !! peer); [|done]. by apply select_first_carriers.
Qed.

Lemma revoke_peer_ok peer m st ls : ManagerOk m st ls -> ManagerOk m (revoke_peer peer st).2 ls.
Proof.
  intros H. pose proof H as (HC & Hnd & Hdr & Hsl & [Hi1 Hi2]). unfold revoke_peer. cbn.
  assert (Hother : peer ≠ m_peer m -> index st !! peer = None) by apply Hi2.
  destruct (decide (peer = m_peer m)) as [->|Hne].
  - apply (close_fold_ok m _ _ _ (elements (default ∅ (index st !! m_peer m)))); try done.
    + intros k Hk%elem_of_elements. exact (index_upgrades m st ls k H Hk).
    + intros q. cbn. destruct (decide (q = m_peer m)) as [->|Hq]; [by rewrite lookup_delete_eq|].
      rewrite lookup_delete_ne by done. by apply Hi2.
    + intros k Hk Hr. apply elem_of_elements, Hi1. auto.
    + intros k. rewrite elem_of_elements, elem_of_set_iter. done.
  - rewrite Hother by done. cbn. assert (E : set_iter (∅ : gset Z) = []).
    { apply elem_of_nil_inv. intros x. rewrite elem_of_set_iter. set_solver. }
    rewrite E. cbn. by rewrite delete_id by auto.
Qed.

Lemma revoke_peer_carriers peer st sub : Carriers st sub -> Carriers (revoke_peer peer st).2 sub.
Proof.
  intros H. unfold revoke_peer. cbn. set (l := set_iter _). assert (H' : Carriers (set_index (delete peer (index st)) st) sub) by done.
  revert H'. generalize (set_index (delete peer (index st)) st). induction l as [|id l IH]; intros s0 H0; cbn; [done|].
  apply IH. unfold close_alive. case_match; [by apply close_carriers|done].
Qed.
End Indexed.
