(* ===== verification/PathRuns.v ===== *)
(** * Executions of a peer's path owner

    A manager, the registry it shares and the leases taken from its paths, under
    any sequence of calls.  Every method of the manager runs under its mutex and
    every method of the registry under its own, so an execution is a sequence of
    whole calls.  [Registry::drain] is only called by the manager's retirement,
    so it is not a call of its own.  The registry is seen from one peer: other
    peers' entries are under other keys, and only consume identities. *)
From S2P Require Import Prelude Profile Paths PathManager.

Record PathWorld := mkWorld {
  w_state : PathState;
  w_leases : list Z;
  w_submitted : list Z;
}.

Inductive PathCall :=
| CPublish (profile : ConnectionProfile) (carrier : Carrier) (now : Z)
| CAcquire (required : Z) (allow_direct allow_relay : bool) (now : Z)
| CAcquireRelay (required now : Z)
| CAcquireHandle (id now : Z)
| CSelectReady (peer_id : string) (required now : Z)
| CRelease (nth : nat) (now : Z)
| CActivity (now : Z)
| CRetireEphemeral (now : Z)
| CProbe (generation required deadline : Z)
| CFinishProbe (generation : Z)
| CRevoke (handle : PathHandle)
| CRevokeSecurity (handle : PathHandle)
| CRevokePeer (peer_id : string)
| CCloseHandle (kind : RouteTopology) (expected : PathHandle)
| CCloseDirect (route_id : option Z)
| CCloseConnection (stable_id : Z)
| CCloseRelay (data : option Z)
| CCloseSlot (kind : RouteTopology)
| CReap
| CNormalDrain
| CHardClose
| CSecurityFailure
| COtherPeer.

Definition path_world (peer_id : string) : PathWorld := mkWorld (path_manager_new peer_id, paths_new) [] [].

Section Calls.
Context {HS : SetOrder Z}.

Definition grant (r : result Z CoreNetworkError) (s : PathState) (w : PathWorld) : PathWorld :=
  mkWorld s (match r with Ok id => id :: w_leases w | Err _ => w_leases w end) (w_submitted w).

Definition path_call (c : PathCall) (w : PathWorld) : PathWorld :=
  let '(m, st) := w_state w in
  let set s := mkWorld s (w_leases w) (w_submitted w) in
  match c with
  | CPublish profile carrier now =>
    mkWorld (publish_ready_with_carrier_at profile carrier now (m, st)).2 (w_leases w)
      (c_id carrier :: w_submitted w)
  | CAcquire required allow_direct allow_relay now =>
    let '(r, s) := acquire_path_lease required allow_direct allow_relay now (m, st) in grant r s w
  | CAcquireRelay required now => let '(r, s) := acquire_relay required now (m, st) in grant r s w
  | CAcquireHandle id now =>
    match handle_of id st with
    | Some handle =>
      let '(r, st) := registry_acquire handle now st in
      grant (match r with Ok _ => Ok id | Err e => Err e end) (m, st) w
    | None => w
    end
  | CSelectReady peer_id required now =>
    let '(r, st) := select_compatible_ready_path peer_id required now st in grant r (m, st) w
  | CRelease n now =>
    match w_leases w !! n with
    | Some id => mkWorld (m, drop_lease id now st) (delete n (w_leases w)) (w_submitted w)
    | None => w
    end
  | CActivity now => set (manager_record_activity now (m, st))
  | CRetireEphemeral now => set (retire_ephemeral now (m, st)).2
  | CProbe generation required deadline => set ((ensure_direct_probe generation required deadline m).2, st)
  | CFinishProbe generation => set ((finish_direct_probe generation m).2, st)
  | CRevoke handle => set (m, (revoke handle st).2)
  | CRevokeSecurity handle => set (m, (registry_security_failure handle st).2)
  | CRevokePeer peer_id => set (m, (revoke_peer peer_id st).2)
  | CCloseHandle kind expected => set (hard_close_if_handle kind expected (m, st)).2
  | CCloseDirect route_id => set (close_ready_direct route_id (m, st)).2
  | CCloseConnection stable_id => set (close_ready_direct_connection stable_id (m, st)).2
  | CCloseRelay data => set (close_ready_relay data (m, st)).2
  | CCloseSlot kind => set (hard_close_slot kind (m, st))
  | CReap => set (reap_draining_paths (m, st))
  | CNormalDrain => set (normal_drain (m, st))
  | CHardClose => set (hard_close (m, st))
  | CSecurityFailure => set (manager_security_failure (m, st))
  | COtherPeer => set (m, mkPaths (heap st) (index st) (next_path st + 1) (closed st))
  end.

Definition path_run (calls : list PathCall) (w : PathWorld) : PathWorld :=
  foldl (fun w c => path_call c w) w calls.
End Calls.
