(* ===== verification/PathLifecycle.v ===== *)
(** * The life of a peer's paths

    The invariant over every execution of [PathRuns.v]: what drains is kept by
    the manager, closing flags stay set and empty the slots, and every call of
    manager, registry and leases preserves the whole. *)
From S2P Require Import Prelude Profile Paths PathManager PathProofs PathOwner PathRuns.

(** ** Paths that drain

    Only the manager's retirement makes a path drain, and then the manager
    keeps it among its draining paths. *)
Definition draining_at (st : Paths) (id : Z) : Prop :=
  exists p, heap st !! id = Some p /\ p_state p = Draining.
Definition quiet (st st' : Paths) : Prop := forall id, draining_at st' id -> draining_at st id.
Definition Drained (m : Manager) (st : Paths) : Prop := forall id, draining_at st id -> id ∈ draining_paths m.

#[export] Instance quiet_preorder : PreOrder quiet.
Proof. split; [by intros st id|]. intros a b c H1 H2 id Hd. by apply H1, H2. Qed.

Lemma quiet_heap st st' : heap st' = heap st -> quiet st st'.
Proof. intros E id. unfold draining_at. by rewrite E. Qed.

Lemma quiet_set st st' id p p' :
  heap st !! id = Some p -> heap st' = <[id := p']> (heap st) ->
  (p_state p' = Draining -> p_state p = Draining) -> quiet st st'.
Proof.
  intros Hp E Hs k (q & Hq & Hd). rewrite E in Hq. apply lookup_insert_Some in Hq as [[<- <-]|[_ Hq]];
    eexists; eauto.
Qed.

Lemma Drained_quiet m m' st st' :
  Drained m st -> quiet st st' -> draining_paths m' = draining_paths m -> Drained m' st'.
Proof. intros H Hq E id Hd. rewrite E. by apply H, Hq. Qed.

Lemma close_quiet id r st : quiet st (close_with_reason id r st).
Proof.
  unfold close_with_reason. destruct (heap st !! id) as [p|] eqn:Hp; [|done].
  destruct (p_state p); try done; by eapply quiet_set.
Qed.
Lemma drop_ref_quiet id st : quiet st (drop_ref id st).
Proof.
  unfold drop_ref. destruct (heap st !! id) as [p|] eqn:Hp; [|done]. set (st' := set_path _ _ _).
  assert (quiet st st') by (by eapply quiet_set). case_match; [|done]. etrans; [done|apply close_quiet].
Qed.
Lemma drop_lease_quiet id now st : quiet st (drop_lease id now st).
Proof.
  unfold drop_lease. etrans; [|apply drop_ref_quiet]. unfold release_lease.
  destruct (heap st !! id) as [p|] eqn:Hp; [|done]. destruct (p_leases p =? 0); [done|]. cbn.
  destruct (_ && _); by eapply quiet_set.
Qed.
Lemma try_acquire_quiet id now st : quiet st (try_acquire id now st).2.
Proof.
  unfold try_acquire. destruct (heap st !! id) as [p|] eqn:Hp; [|done].
  destruct (negb _); [done|]. destruct (MAX_PATH_LEASES <=? _); [done|by eapply quiet_set].
Qed.
Lemma record_activity_quiet id now st : quiet st (record_activity id now st).
Proof.
  unfold record_activity. destruct (heap st !! id) as [p|] eqn:Hp; [|done]. case_match; [by eapply quiet_set|done].
Qed.
Lemma on_entry_quiet f h st :
  (forall st, quiet st (f (h_id h) st)) -> quiet st (on_entry f h st).2.
Proof.
  intros Hf. unfold on_entry. pose proof (take_entry_spec h st) as (E1 & _).
  destruct (take_entry h st) as [[] st1]; cbn in *; [|by apply quiet_heap].
  assert (quiet st st1) by (by apply quiet_heap). case_match; [|done]. etrans; [done|apply Hf].
Qed.
Lemma revoke_quiet h st : quiet st (revoke h st).2.
Proof. apply (on_entry_quiet (fun id => close_with_reason id HardClose)). intros. apply close_quiet. Qed.
Lemma registry_security_quiet h st : quiet st (registry_security_failure h st).2.
Proof. apply (on_entry_quiet (fun id => close_with_reason id SecurityFailure)). intros. apply close_quiet. Qed.

Create HintDb quiet.
#[export] Hint Resolve close_quiet drop_ref_quiet drop_lease_quiet try_acquire_quiet record_activity_quiet
  revoke_quiet registry_security_quiet : quiet.

Lemma fold_quiet {A} (f : Paths -> A -> Paths) l st :
  (forall st a, quiet st (f st a)) -> quiet st (foldl f st l).
Proof. intros Hf. revert st. induction l as [|a l IH]; intros st; cbn; [done|]. etrans; [apply Hf|apply IH]. Qed.

(** Retirement lets only the retired path drain. *)
Lemma retire_normal_drains id st k : draining_at (retire_normal id st) k -> draining_at st k \/ k = id.
Proof.
  intros H. destruct (decide (k = id)) as [->|Hne]; [by right|left].
  pose proof (retire_normal_touches id st) as (_ & _ & E & _). unfold draining_at in *. by rewrite E in H.
Qed.

Lemma retire_path_drained id reason m st p :
  heap st !! id = Some p -> h_id (p_handle p) = id ->
  Drained m st -> Drained (retire_path id reason (m, st)).1 (retire_path id reason (m, st)).2.
Proof.
  intros Hp Hid H. unfold retire_path, handle_of. rewrite Hp. cbn [fmap option_fmap option_map].
  destruct reason.
  - set (st1 := retire_normal id _).
    assert (Hd : forall k, draining_at st1 k -> draining_at st k \/ k = id).
    { intros k [Hk|?]%retire_normal_drains; [|by right]. unfold registry_drain, on_entry in Hk.
      pose proof (take_entry_spec (p_handle p) st) as (E & _).
      destruct (take_entry (p_handle p) st) as [b st0]. cbn in *.
      assert (Hq : quiet st st0) by (by apply quiet_heap). rewrite Hid in Hk.
      destruct b; [destruct (upgrades id st0)|]; cbn in Hk; try (left; by apply Hq).
      apply retire_normal_drains in Hk as [?|?]; [left; by apply Hq|by right]. }
    destruct (path_test path_is_active id st1) eqn:Ha; cbn.
    + intros k [Hk| ->]%Hd; cbn; [|set_solver]. apply elem_of_app. left. by apply H.
    + intros k Hk. apply (drop_ref_quiet id st1) in Hk as Hk1. destruct (Hd k Hk1) as [?| ->]; [by apply H|].
      destruct Hk1 as (q & Hq & Hs). unfold path_test, path_is_active in Ha. rewrite Hq, Hs in Ha. done.
  - eapply Drained_quiet; [exact H| |done]. etrans; [|apply drop_ref_quiet]. etrans; [apply revoke_quiet|apply close_quiet].
  - eapply Drained_quiet; [exact H| |done]. etrans; [|apply drop_ref_quiet].
    etrans; [apply registry_security_quiet|apply close_quiet].
Qed.

Lemma retire_slot_drained kind reason m st ls :
  ManagerOk m st ls -> Drained m st ->
  Drained (retire_slot kind reason (m, st)).1 (retire_slot kind reason (m, st)).2.
Proof.
  intros (_ & _ & _ & Hsl & _) H. unfold retire_slot, take_slot, retire_taken.
  assert (H' : Drained (set_slot kind None None m) st) by (eapply Drained_quiet; [done..|]; by destruct kind).
  specialize (Hsl kind). unfold SlotOk in Hsl. destruct (slot_path kind m) as [id|]; [|done].
  destruct Hsl as (p & Hp & _ & Hid & _). by eapply retire_path_drained.
Qed.

Lemma retire_all_drained reason m st ls :
  ManagerOk m st ls -> Drained m st ->
  Drained (retire_all reason (m, st)).1 (retire_all reason (m, st)).2.
Proof.
  intros H Hd. rewrite retire_all_slots. pose proof (retire_slot_ok [] Direct reason m st ls H).
  pose proof (retire_slot_drained Direct reason m st ls H Hd).
  destruct (retire_slot Direct reason (m, st)) as [m1 st1]. by eapply retire_slot_drained.
Qed.

Lemma fold_drop_gone (reason : PathCloseReason) l st k :
  k ∈ l -> ~ draining_at (foldl (fun st id => drop_ref id (close_with_reason id reason st)) st l) k.
Proof.
  revert st. induction l as [|id l IH]; intros st; cbn; [set_solver|].
  intros [->|Hk]%elem_of_cons; [|by apply IH]. intros Hd.
  apply (fold_quiet _ l) in Hd; [|intros; etrans; [apply close_quiet|apply drop_ref_quiet]].
  apply drop_ref_quiet in Hd as (p & Hp & Hs). revert Hp. unfold close_with_reason.
  destruct (heap st !! id) as [q|] eqn:Hq; [|congruence].
  destruct (p_state q) eqn:Eq; cbn; rewrite ?lookup_insert_eq; intros Hp; try (injection Hp as <-; done).
  congruence.
Qed.

Lemma reap_drained m st : Drained m st -> Drained (reap_draining_paths (m, st)).1 (reap_draining_paths (m, st)).2.
Proof.
  intros H k Hk. apply fold_quiet in Hk; [|intros; apply drop_ref_quiet]. cbn. apply list_elem_of_filter.
  split; [|by apply H]. destruct Hk as (p & Hp & Hs). unfold path_test, path_is_active. by rewrite Hp, Hs.
Qed.

(** ** The closing flags *)

Definition Closing (m : Manager) : Prop :=
  (draining m = true -> slots m = [])
  /\ (hard_closed m = true -> draining m = true /\ draining_paths m = []).

Lemma Closing_flags m m' :
  Closing m -> slots m' = slots m -> draining m' = draining m -> hard_closed m' = hard_closed m ->
  draining_paths m' = draining_paths m -> Closing m'.
Proof. unfold Closing. by intros H -> -> -> ->. Qed.

Lemma Closing_open m : draining m = false -> hard_closed m = false -> Closing m.
Proof. unfold Closing. by intros -> ->. Qed.

Lemma retire_slot_flags kind reason m st :
  draining (retire_slot kind reason (m, st)).1 = draining m
  /\ hard_closed (retire_slot kind reason (m, st)).1 = hard_closed m.
Proof.
  unfold retire_slot, take_slot, retire_taken.
  destruct (slot_path kind m) as [id|]; [|by destruct kind].
  destruct (retire_path_manager id reason (set_slot kind None None m) st) as (l & -> & _). by destruct kind.
Qed.

Lemma slot_in_slots kind m id : slot_path kind m = Some id -> id ∈ slots m.
Proof. destruct kind; cbn; intros E; unfold slots; rewrite E; cbn; set_solver. Qed.

Lemma retire_slot_none kind reason m st ls :
  ManagerOk m st ls -> slot_path kind m = None -> retire_slot kind reason (m, st) = (m, st).
Proof.
  intros H E. unfold retire_slot, take_slot, retire_taken. rewrite E. f_equal.
  apply set_slot_none; [done|by eapply slot_none_ready].
Qed.

Lemma retire_slot_closing kind reason m st ls :
  ManagerOk m st ls -> Closing m -> Closing (retire_slot kind reason (m, st)).1.
Proof.
  intros H HC. destruct (slot_path kind m) as [id|] eqn:E; [|by erewrite retire_slot_none].
  destruct HC as [H1 H2]. apply slot_in_slots in E.
  assert (Hd : draining m = false) by (destruct (draining m); [rewrite H1 in E by done; set_solver|done]).
  assert (Hh : hard_closed m = false) by (destruct (hard_closed m); [destruct (H2 eq_refl); congruence|done]).
  destruct (retire_slot_flags kind reason m st) as [E1 E2]. apply Closing_open; congruence.
Qed.

Lemma retire_slot_other kind reason m st kind' :
  kind' ≠ kind -> slot_path kind' (retire_slot kind reason (m, st)).1 = slot_path kind' m.
Proof.
  intros Hne. unfold retire_slot, take_slot, retire_taken.
  destruct (slot_path kind m) as [id|]; [|by destruct kind, kind'].
  destruct (retire_path_manager id reason (set_slot kind None None m) st) as (l & -> & _). by destruct kind, kind'.
Qed.

Lemma slots_nil m : slots m = [] <-> direct_path m = None /\ relay_path m = None.
Proof. unfold slots. destruct (direct_path m), (relay_path m); cbn; naive_solver. Qed.

(** Retiring both slots empties them, and moves nothing when they are empty. *)
Lemma retire_all_closing reason m st ls :
  ManagerOk m st ls ->
  let m' := (retire_all reason (m, st)).1 in
  slots m' = [] /\ draining m' = draining m /\ hard_closed m' = hard_closed m
  /\ (slots m = [] -> draining_paths m' = draining_paths m).
Proof.
  intros H. rewrite retire_all_slots. pose proof (retire_slot_ok [] Direct reason m st ls H) as H1.
  destruct (retire_slot_flags Direct reason m st) as [E1 E2].
  pose proof (retire_slot_manager Direct reason m st) as (Ed & _).
  pose proof (retire_slot_none Direct reason m st ls H) as N1.
  pose proof (retire_slot_other Direct reason m st Relay ltac:(done)) as Eo.
  destruct (retire_slot Direct reason (m, st)) as [m1 st1]. cbn [fst snd] in *.
  destruct (retire_slot_flags Relay reason m1 st1) as [E3 E4].
  pose proof (retire_slot_manager Relay reason m1 st1) as (Er & _).
  pose proof (retire_slot_other Relay reason m1 st1 Direct ltac:(done)) as Eo2.
  unfold slot_path in Ed, Er, Eo, Eo2.
  split_and!; [|congruence..|].
  - apply slots_nil. split; congruence.
  - intros [Hd Hr]%slots_nil. rewrite (retire_slot_none Relay reason m1 st1 ls) by (done || (cbn; congruence)).
    cbn. specialize (N1 Hd). congruence.
Qed.

(** ** The invariant of a world *)

Definition StateOk (s : PathState) (ls sub : list Z) : Prop :=
  ManagerOk s.1 s.2 ls /\ Carriers s.2 sub /\ Drained s.1 s.2 /\ Closing s.1.

Lemma StateOk_quiet m st st' ls ls' sub :
  StateOk (m, st) ls sub -> ManagerOk m st' ls' -> Carriers st' sub -> quiet st st' -> StateOk (m, st') ls' sub.
Proof. intros (_ & _ & Hd & Hc) ? ? ?. split_and!; try done. by eapply Drained_quiet. Qed.

Lemma StateOk_probe m st ls sub p : StateOk (m, st) ls sub -> StateOk (set_probe p m, st) ls sub.
Proof. intros (? & ? & ? & ?). by split_and!. Qed.

Lemma retire_slot_state kind reason s ls sub : StateOk s ls sub -> StateOk (retire_slot kind reason s) ls sub.
Proof.
  destruct s as [m st]. intros (H & Hc & Hd & Hf). split_and!; [by apply retire_slot_ok|by apply retire_slot_carriers| |].
  - by eapply retire_slot_drained.
  - by eapply retire_slot_closing.
Qed.

Lemma hard_close_slot_state kind s ls sub : StateOk s ls sub -> StateOk (hard_close_slot kind s) ls sub.
Proof.
  intros H. destruct kind; cbn [hard_close_slot]; unfold hard_close_direct, hard_close_relay; [destruct s|];
    apply retire_slot_state; [by apply StateOk_probe|done].
Qed.

Lemma close_ready_state kind f s ls sub : StateOk s ls sub -> StateOk (close_ready kind f s).2 ls sub.
Proof.
  destruct s as [m st]. intros H. unfold close_ready. destruct (negb _); [done|].
  destruct (slot_ready kind m); [by apply hard_close_slot_state|done].
Qed.

Lemma close_if_handle_state kind h s ls sub : StateOk s ls sub -> StateOk (hard_close_if_handle kind h s).2 ls sub.
Proof.
  intros H. unfold hard_close_if_handle. destruct (slot_ready kind s.1); [|done].
  destruct (decide _); [by apply hard_close_slot_state|done].
Qed.

Lemma retire_ephemeral_state now s ls sub : StateOk s ls sub -> StateOk (retire_ephemeral now s).2 ls sub.
Proof.
  intros H. unfold retire_ephemeral. destruct s as [m st]. destruct (_ || _); [done|]. cbn [snd].
  repeat case_match; repeat apply retire_slot_state; done.
Qed.

Lemma reap_state s ls sub : StateOk s ls sub -> StateOk (reap_draining_paths s) ls sub.
Proof.
  destruct s as [m st]. intros (H & Hc & Hd & H1 & H2). split_and!; [by apply reap_ok|by apply (fold_drop_carriers false HardClose)|by apply reap_drained|].
  split; [done|]. cbn. intros [? E]%H2. split; [done|]. cbn in E. by rewrite E.
Qed.

Lemma normal_drain_state s ls sub : StateOk s ls sub -> StateOk (normal_drain s) ls sub.
Proof.
  destruct s as [m st]. intros (H & Hc & Hd & H1 & H2). unfold normal_drain. apply reap_state.
  set (m1 := set_probe None (set_closing true (hard_closed m) m)).
  assert (H' : ManagerOk m1 st ls) by (by eapply ManagerOk_flags).
  destruct (retire_all_closing NormalRetire m1 st ls H') as (E1 & E2 & E3 & E4).
  split_and!; [by apply retire_all_ok|by apply retire_all_carriers|by eapply retire_all_drained|].
  split; [done|]. rewrite E2, E3. intros [Hdr Hp]%H2. split; [done|]. rewrite E4; [done|]. by apply H1.
Qed.

Lemma close_all_state reason s ls sub : StateOk s ls sub -> StateOk (close_all_paths reason s) ls sub.
Proof.
  destruct s as [m st]. intros (H & Hc & Hd & H1 & H2).
  split_and!; [by apply close_all_ok|by apply close_all_carriers| |]; unfold close_all_paths;
  set (m1 := set_probe None (set_closing true true m)); (assert (H' : ManagerOk m1 st ls) by (by eapply ManagerOk_flags));
  pose proof (retire_all_drained reason m1 st ls H' Hd) as Hdr;
  destruct (retire_all_closing reason m1 st ls H') as (E1 & E2 & E3 & E4);
  destruct (retire_all reason (m1, st)) as [m2 st2]; cbn in *.
  - intros k Hk. exfalso. assert (Hin : k ∈ draining_paths m2).
    { apply Hdr. eapply fold_quiet; [|exact Hk]. intros. etrans; [apply close_quiet|apply drop_ref_quiet]. }
    by eapply (fold_drop_gone reason).
  - split; [done|]. done.
Qed.

Lemma drop_dead_slot_state kind s ls sub :
  StateOk s ls sub -> StateOk (drop_dead_slot kind s) ls sub
  /\ draining (drop_dead_slot kind s).1 = draining s.1 /\ hard_closed (drop_dead_slot kind s).1 = hard_closed s.1.
Proof.
  destruct s as [m st]. intros (H & Hc & Hd & Hf). split; [split_and!|].
  - by apply drop_dead_slot_ok.
  - by apply drop_dead_slot_carriers.
  - unfold drop_dead_slot. destruct (slot_path kind m); [|done]. destruct (negb _); [|done]. cbn.
    eapply Drained_quiet; [done|apply drop_ref_quiet|]. by destruct kind.
  - unfold drop_dead_slot. destruct (slot_path kind m) as [id|] eqn:E; [|done]. destruct (negb _); [|done]. cbn.
    destruct Hf as [H1 H2]. split.
    + intros Ht. assert (draining m = true) as Hdm by (by destruct kind). specialize (H1 Hdm).
      apply slot_in_slots in E. cbn in H1. rewrite H1 in E. set_solver.
    + intros Ht. assert (hard_closed m = true) as [Hdm E2]%H2 by (by destruct kind). by destruct kind.
  - unfold drop_dead_slot. destruct (slot_path kind m); [|done]. destruct (negb _); [|done]. by destruct kind.
Qed.

Lemma create_path_quiet m st profile carrier now h st2 :
  create_path (m_peer m) profile carrier now st = (Ok h, st2) -> quiet st st2.
Proof.
  unfold create_path. destruct (_ =? _); [done|]. destruct (_ <=? _); [done|]. intros [= <- <-].
  intros k (p & Hp & Hs). cbn in Hp. apply lookup_insert_Some in Hp as [[_ <-]|[_ Hp]]; [done|]. by exists p.
Qed.

Lemma publish_state profile carrier now s ls sub :
  StateOk s ls sub -> StateOk (publish_ready_with_carrier_at profile carrier now s).2 ls (c_id carrier :: sub).
Proof.
  destruct s as [m st]. intros H. pose proof H as (Ho & Hc & Hd & Hf).
  pose proof (publish_ok m st ls profile carrier now Ho) as Po.
  pose proof (publish_carriers m st sub profile carrier now ls Ho Hc) as Pc. revert Po Pc.
  unfold publish_ready_with_carrier_at. destruct (draining m || hard_closed m) eqn:Hcl; [done|].
  apply orb_false_iff in Hcl as [Hd0 Hh0]. destruct (_ =? 0) eqn:Hz; [done|]. bool_facts.
  destruct (drop_dead_slot_state (topology profile) (m, st) ls sub H) as (H1 & E1 & E2).
  destruct (drop_dead_slot _ _) as [m1 st1]. pose proof H1 as (Ho1 & Hc1 & Hd1 & Hf1). cbn [fst snd] in *.
  destruct (admits _ _ _) as [|e]; [|done].
  destruct (create_path_ok m1 st1 ls profile carrier now Ho1 Hz) as (st2 & E & Ho2 & _). rewrite E.
  pose proof (create_path_quiet m1 st1 _ _ _ _ _ E) as Hq. pose proof (Drained_quiet m1 m1 st1 st2 Hd1 Hq eq_refl) as Hd2.
  pose proof (retire_slot_flags (topology profile) NormalRetire m1 st2) as [F1 F2].
  assert (Hd3 : Drained (retire_slot (topology profile) NormalRetire (m1, st2)).1 (retire_slot (topology profile) NormalRetire (m1, st2)).2).
  { destruct Ho2 as (_ & _ & _ & Hsl & _). unfold retire_slot, take_slot, retire_taken. specialize (Hsl (topology profile)).
    unfold SlotOk in Hsl. assert (Hd3 : Drained (set_slot (topology profile) None None m1) st2)
      by (eapply Drained_quiet; [done..|]; by destruct (topology profile)).
    destruct (slot_path _ m1); [|done]. destruct Hsl as (p & Hp & _ & Hid & _). by eapply retire_path_drained. }
  destruct (retire_slot _ _ _) as [m2 st3]. cbn [fst snd] in *. intros Po Pc. split_and!; [done|done| |].
  - eapply Drained_quiet; [exact Hd3|done|]. by destruct (topology profile).
  - apply Closing_open; destruct (topology profile); cbn; congruence.
Qed.

(** ** Leasing *)

Lemma try_acquire_acquirable required id now st :
  path_test (is_acquirable required) id st = true ->
  exists p, heap st !! id = Some p /\ p_state p = Ready /\ covers (h_mask (p_handle p)) required = true
    /\ try_acquire id now st =
       if MAX_PATH_LEASES <=? p_leases p then (Err (ResourceLimit "path leases"), st)
       else (Ok tt, set_path id (mkPath (p_handle p) (p_state p) (p_carrier p) (p_leases p + 1) now (p_refs p + 1)) st).
Proof.
  unfold path_test, is_acquirable, try_acquire. destruct (heap st !! id) as [p|]; [|done].
  intros [Hr Hc]%andb_true_iff. exists p. rewrite Hr. apply bool_decide_eq_true in Hr. by split_and!.
Qed.

(** The lease of a slot whose path qualifies. *)
Definition lease_slot (kind : RouteTopology) (now : Z) (s : PathState) : result Z CoreNetworkError * PathState :=
  match slot_path kind s.1 with
  | Some id =>
    match try_acquire id now s.2 with
    | (Ok _, st) => (Ok id, (s.1, st))
    | (Err e, st) => (Err e, (s.1, st))
    end
  | None => (Err NoRouteError, s)
  end.

Lemma acquire_slot_spec kind allowed required now s :
  acquire_slot kind allowed required now s
  = if allowed && slot_test (is_acquirable required) kind s then Some (lease_slot kind now s) else None.
Proof.
  destruct s as [m st]. unfold acquire_slot, slot_test, lease_slot. cbn [fst snd].
  destruct (slot_path kind m) as [id|]; [|by rewrite andb_false_r].
  destruct (_ && _) eqn:E; [|done]. apply andb_true_iff in E as [_ E].
  destruct (try_acquire_acquirable _ _ now _ E) as (p & _ & _ & _ & ->). by destruct (_ <=? _).
Qed.

(** Choosing and leasing agree: the lease is of the slot that was chosen. *)
Lemma acquire_path_lease_spec required allow_direct allow_relay now s :
  acquire_path_lease required allow_direct allow_relay now s
  = match select_with_authorization required allow_direct allow_relay s with
    | Some kind => lease_slot kind now s
    | None => (Err NoRouteError, s)
    end.
Proof.
  unfold acquire_path_lease, select_with_authorization, acquire_with_authorization. rewrite !acquire_slot_spec.
  destruct (allow_direct && _); [|destruct (allow_relay && _); [|done]];
    destruct (lease_slot _ now s) as [[id|e] [m' st']]; done.
Qed.

Lemma acquire_relay_spec required now s :
  acquire_relay required now s
  = if slot_test (is_acquirable required) Relay s then lease_slot Relay now s else (Err NoRouteError, s).
Proof.
  destruct s as [m st]. unfold acquire_relay, slot_test, lease_slot. cbn.
  destruct (relay_path m) as [id|]; [|done]. destruct (path_test _ _ _); [|done].
  destruct (try_acquire id now st) as [[]]; done.
Qed.

Lemma lease_slot_state kind now s ls sub :
  StateOk s ls sub -> StateOk (lease_slot kind now s).2 (leased (lease_slot kind now s).1 ls) sub.
Proof.
  destruct s as [m st]. intros H. unfold lease_slot. cbn [fst snd]. destruct (slot_path kind m) as [id|]; [|done].
  pose proof (try_acquire_carriers st sub id now) as Hc. pose proof (try_acquire_quiet id now st) as Hq.
  destruct (try_acquire id now st) as [[[]|e] st'] eqn:E; cbn in *.
  - eapply StateOk_quiet; [exact H| |apply Hc, H|done]. by eapply try_acquire_ok, H.
  - by destruct (try_acquire_cases _ _ _ _ _ E) as [(? & _ & ->)|(? & _)].
Qed.

Lemma select_first_quiet required now l st : quiet st (select_first required now l st).2.
Proof.
  revert st. induction l as [|id l IH]; intros st; cbn; [done|]. destruct (negb _); [done|].
  pose proof (try_acquire_quiet id now st) as Hq. destruct (try_acquire id now st) as [[|e] st']; [done|].
  destruct e; try done. etrans; [exact Hq|apply IH].
Qed.

Lemma registry_acquire_quiet h now st : quiet st (registry_acquire h now st).2.
Proof.
  unfold registry_acquire, lookup. destruct (index st !! h_peer h) as [ids|]; [|done].
  destruct (_ && _); [|by apply quiet_heap]. etrans; [|apply try_acquire_quiet]. by apply quiet_heap.
Qed.

Lemma drop_lease_state id now m st ls sub :
  StateOk (m, st) (id :: ls) sub -> StateOk (m, drop_lease id now st) ls sub.
Proof.
  intros H. pose proof H as (Ho & Hc & _). eapply StateOk_quiet; [exact H|by apply drop_lease_ok|by apply drop_lease_carriers|].
  apply drop_lease_quiet.
Qed.

Lemma StateOk_leases s ls ls' sub : ls ≡ₚ ls' -> StateOk s ls sub -> StateOk s ls' sub.
Proof. intros E ((HC & ?) & ?). split; [|done]. split; [|done]. by eapply Core_perm. Qed.

Lemma manager_activity_state now s ls sub : StateOk s ls sub -> StateOk (manager_record_activity now s) ls sub.
Proof.
  destruct s as [m st]. intros H. unfold manager_record_activity.
  assert (Hone : forall path st, StateOk (m, st) ls sub ->
    StateOk (m, match path with Some id => record_activity id now st | None => st end) ls sub).
  { intros [id|] st0 H0; [|done]. pose proof H0 as (Ho & Hc & _).
    eapply StateOk_quiet; [exact H0|by apply record_activity_ok|by apply record_activity_carriers|apply record_activity_quiet]. }
  by apply Hone, Hone.
Qed.

Section Calls.
Context {HS : SetOrder Z}.

Definition WorldOk (w : PathWorld) : Prop := StateOk (w_state w) (w_leases w) (w_submitted w).

Lemma acquire_handle_state id h now m st ls sub :
  StateOk (m, st) ls sub -> handle_of id st = Some h ->
  StateOk (m, (registry_acquire h now st).2)
    (leased (match (registry_acquire h now st).1 with Ok _ => Ok id | Err e => Err e end) ls) sub.
Proof.
  intros H Hh. pose proof H as (Ho & Hc & _). unfold handle_of in Hh. apply fmap_Some in Hh as (p & Hp & ->).
  assert (Hid : h_id (p_handle p) = id) by (destruct Ho as (HC & _); apply (proj1 HC _ _ Hp)).
  destruct (decide (h_peer (p_handle p) = m_peer m)) as [Ep|Hne].
  - eapply StateOk_quiet; [exact H| |by apply registry_acquire_carriers|apply registry_acquire_quiet].
    pose proof (registry_acquire_ok (p_handle p) p now m st ls Ho ltac:(by rewrite Hid) eq_refl Ep) as Hr.
    rewrite Hid in Hr. by destruct (registry_acquire _ now st) as [[]].
  - pose proof Ho as (_ & _ & _ & _ & [_ Hi2]). unfold registry_acquire, lookup. by rewrite Hi2.
Qed.

Lemma path_call_ok c w : WorldOk w -> WorldOk (path_call c w).
Proof.
  destruct w as [[m st] ls sub]. unfold WorldOk. cbn [w_state w_leases w_submitted]. intros H. pose proof H as (Ho & Hc & Hd & Hf).
  destruct c; cbn [path_call w_state w_leases w_submitted].
  - by apply publish_state.
  - rewrite acquire_path_lease_spec. destruct (select_with_authorization _ _ _ _) as [kind|]; [|done].
    pose proof (lease_slot_state kind now (m, st) ls sub H). by destruct (lease_slot kind now (m, st)).
  - rewrite acquire_relay_spec. destruct (slot_test _ _ _); [|done].
    pose proof (lease_slot_state Relay now (m, st) ls sub H). by destruct (lease_slot Relay now (m, st)).
  - destruct (handle_of id st) as [h|] eqn:E; [|done]. pose proof (acquire_handle_state id h now m st ls sub H E).
    by destruct (registry_acquire h now st).
  - pose proof (select_compatible_ok peer_id required now m st ls Ho) as H1.
    pose proof (select_compatible_carriers peer_id required now st sub Hc) as H2.
    assert (Hq : quiet st (select_compatible_ready_path peer_id required now st).2).
    { unfold select_compatible_ready_path. destruct (index st !! peer_id); [|done].
      etrans; [|apply select_first_quiet]. by apply quiet_heap. }
    destruct (select_compatible_ready_path _ _ _ _) as [r st']. by eapply StateOk_quiet.
  - destruct (ls !! nth) as [id|] eqn:E; [|done]. cbn. apply drop_lease_state.
    eapply StateOk_leases; [|exact H]. by apply delete_Permutation.
  - by apply manager_activity_state.
  - by apply retire_ephemeral_state.
  - unfold ensure_direct_probe. repeat case_match; cbn; by try apply StateOk_probe.
  - unfold finish_direct_probe. repeat case_match; cbn; by try apply StateOk_probe.
  - eapply StateOk_quiet; [exact H|by apply revoke_ok| |apply revoke_quiet].
    apply (on_entry_carriers (fun id => close_with_reason id HardClose)); [|done]. intros. by apply close_carriers.
  - eapply StateOk_quiet; [exact H|by apply registry_security_failure_ok| |apply registry_security_quiet].
    apply (on_entry_carriers (fun id => close_with_reason id SecurityFailure)); [|done]. intros. by apply close_carriers.
  - eapply StateOk_quiet; [exact H|by apply revoke_peer_ok|by apply revoke_peer_carriers|]. cbn.
    etrans; [by apply (quiet_heap st (set_index (delete peer_id (index st)) st))|]. apply fold_quiet.
    intros st0 id. unfold close_alive. case_match; [apply close_quiet|done].
  - by apply close_if_handle_state.
  - by apply close_ready_state.
  - by apply close_ready_state.
  - by apply close_ready_state.
  - by apply hard_close_slot_state.
  - by apply reap_state.
  - by apply normal_drain_state.
  - by apply close_all_state.
  - by apply close_all_state.
  - split_and!; try done. destruct Ho as (HC & Ho). split; [|done]. destruct HC as [H1 H2]. split; [|done].
    intros id p Hp. destruct (H1 id p Hp) as (? & ? & ? & ? & ? & ? & ? & ?). unfold PathOk. cbn in *. split_and!; try done. lia.
Qed.

Lemma path_run_ok calls w : WorldOk w -> WorldOk (path_run calls w).
Proof. revert w. induction calls as [|c l IH]; intros w H; cbn; [done|]. by apply IH, path_call_ok. Qed.

Lemma path_world_ok peer_id : WorldOk (path_world peer_id).
Proof.
  split; [|split; [by unfold Carriers, held; cbn; rewrite map_to_list_empty|split; [by intros id (p & Hp & _)|by split]]]. split; [|split; [|split; [|split]]].
  - split; [done|]. intros id. cbn. rewrite elem_of_nil. tauto.
  - constructor.
  - by intros id ?%elem_of_nil.
  - by intros [].
  - split; [|done]. intros id. cbn. set_solver.
Qed.

Lemma reachable_ok calls peer_id : WorldOk (path_run calls (path_world peer_id)).
Proof. apply path_run_ok, path_world_ok. Qed.
End Calls.

(** ** What the invariant says of a world *)

Definition open_path (p : PhysicalPath) : Prop := p_state p = Ready \/ p_state p = Draining.

Lemma closed_or_open p : open_path p \/ exists r, p_state p = Closed r.
Proof. unfold open_path. destruct (p_state p); eauto. Qed.

Lemma carrier_open s ls sub id p :
  StateOk s ls sub -> heap s.2 !! id = Some p -> p_carrier p = None <-> exists r, p_state p = Closed r.
Proof.
  intros ((HC & _) & _) Hp. destruct (proj1 HC _ _ Hp) as (_ & _ & -> & _). unfold path_is_active.
  destruct (p_state p); split; try done; try (intros [? ?]; done). eauto.
Qed.

Lemma ready_path st id : ready_at st id <-> exists p, heap st !! id = Some p /\ p_state p = Ready.
Proof.
  unfold ready_at, path_test, is_ready. destruct (heap st !! id) as [p|].
  - rewrite bool_decide_eq_true. naive_solver.
  - naive_solver.
Qed.

(** Ready paths are the slots' ones, and the index lists exactly them. *)
Lemma ready_indexed s ls sub id :
  StateOk s ls sub -> ready_at s.2 id <-> id ∈ default ∅ (index s.2 !! m_peer s.1).
Proof.
  intros ((HC & _ & Hdr & _ & [Hi1 _]) & _). rewrite Hi1. cbn. split; [|tauto]. intros Hr. split; [|done].
  apply ready_path in Hr as Hr'. destruct Hr' as (p & Hp & Hs).
  destruct (proj1 HC _ _ Hp) as (_ & _ & _ & _ & _ & _ & Ho & _). specialize (Ho Hs). cbn in Ho.
  rewrite owned_slots in Ho. apply elem_of_app in Ho as [?|Hd]; [done|]. by destruct (Hdr id Hd).
Qed.

Lemma slot_of_ready s ls sub id p :
  StateOk s ls sub -> heap s.2 !! id = Some p -> p_state p = Ready ->
  slot_path (topology (h_profile (p_handle p))) s.1 = Some id.
Proof.
  intros H Hp Hs. assert (Hr : ready_at s.2 id) by (apply ready_path; eauto).
  apply (ready_indexed s ls sub id H) in Hr. destruct H as ((_ & _ & _ & Hsl & [Hi1 _]) & _).
  apply Hi1 in Hr as [Hin _]. assert (Hk : exists kind, slot_path kind s.1 = Some id).
  { cbn in Hin. unfold slots in Hin. apply elem_of_app in Hin as [Hin|Hin]; [exists Direct|exists Relay]; cbn.
    - destruct (direct_path s.1); [by apply list_elem_of_singleton in Hin as ->|by apply elem_of_nil in Hin].
    - destruct (relay_path s.1); [by apply list_elem_of_singleton in Hin as ->|by apply elem_of_nil in Hin]. }
  destruct Hk as [kind Hk]. specialize (Hsl kind). unfold SlotOk in Hsl. rewrite Hk in Hsl.
  destruct Hsl as (q & Hq & _ & _ & _ & Ht & _). congruence.
Qed.

(** A slot's path never drains. *)
Lemma slot_not_draining s ls sub kind id p :
  StateOk s ls sub -> slot_path kind s.1 = Some id -> heap s.2 !! id = Some p -> p_state p ≠ Draining.
Proof.
  intros ((_ & Hnd & _) & _ & Hd & _) Hk Hp Hs. cbn in Hnd. rewrite owned_slots, NoDup_app in Hnd.
  destruct Hnd as (_ & Hnd & _). apply slot_in_slots in Hk. eapply Hnd, Hd; [done|]. by exists p.
Qed.

Lemma open_draining s ls sub id p :
  StateOk s ls sub -> draining s.1 = true -> heap s.2 !! id = Some p -> open_path p ->
  p_state p = Draining /\ id ∈ ls.
Proof.
  intros H Hd Hp [Hs|Hs].
  - apply (slot_of_ready s ls sub id p H Hp), slot_in_slots in Hs. destruct H as (_ & _ & _ & Hf & _).
    rewrite Hf in Hs by done. set_solver.
  - split; [done|]. destruct H as ((HC & _) & _). destruct (proj1 HC _ _ Hp) as (_ & _ & _ & _ & El & _ & _ & Hl).
    apply occ_pos. rewrite <- El. auto.
Qed.

Lemma closed_none_open s ls sub id p :
  StateOk s ls sub -> hard_closed s.1 = true -> heap s.2 !! id = Some p -> exists r, p_state p = Closed r.
Proof.
  intros H Hh Hp. destruct (closed_or_open p) as [Ho|]; [|done]. pose proof H as (_ & _ & Hdr & _ & Hf).
  destruct (Hf Hh) as [Hd E]. destruct (open_draining s ls sub id p H Hd Hp Ho) as [Hs _].
  assert (Hin : id ∈ draining_paths s.1) by (apply Hdr; by exists p). rewrite E in Hin. set_solver.
Qed.

Lemma held_nil st : (forall id p, heap st !! id = Some p -> p_carrier p = None) -> held st = [].
Proof.
  intros H. unfold held. assert (E : omap (fun p : Z * PhysicalPath => p_carrier p.2) (map_to_list (heap st)) = []).
  { apply elem_of_nil_inv. intros c [[id p] [Hin Hc]]%list_elem_of_omap. apply elem_of_map_to_list in Hin.
    cbn in Hc. rewrite (H _ _ Hin) in Hc. done. }
  by rewrite E.
Qed.

(** ** Closing and draining stay *)

Definition stays (m m' : Manager) : Prop :=
  (draining m = true -> draining m' = true) /\ (hard_closed m = true -> hard_closed m' = true).

Lemma stays_eq m m' : draining m' = draining m -> hard_closed m' = hard_closed m -> stays m m'.
Proof. unfold stays. by intros -> ->. Qed.

#[export] Instance stays_preorder : PreOrder stays.
Proof. split; [by intros m; apply stays_eq|]. unfold stays. intros a b c. tauto. Qed.

Lemma retire_slot_stays kind reason s : stays s.1 (retire_slot kind reason s).1.
Proof. destruct s as [m st]. destruct (retire_slot_flags kind reason m st). by apply stays_eq. Qed.

Lemma hard_close_slot_stays kind s : stays s.1 (hard_close_slot kind s).1.
Proof. destruct kind, s; [etrans; [|apply retire_slot_stays]; by apply stays_eq|apply retire_slot_stays]. Qed.

Lemma close_ready_stays kind f s : stays s.1 (close_ready kind f s).2.1.
Proof.
  destruct s as [m st]. unfold close_ready. destruct (negb _); [done|].
  destruct (slot_ready kind m); [apply (hard_close_slot_stays kind (m, st))|done].
Qed.

Lemma drop_dead_slot_stays kind s : stays s.1 (drop_dead_slot kind s).1.
Proof.
  destruct s as [m st]. unfold drop_dead_slot. destruct (slot_path kind m); [|done]. destruct (negb _); [|done].
  apply stays_eq; by destruct kind.
Qed.

Lemma lease_slot_manager kind now s : (lease_slot kind now s).2.1 = s.1.
Proof. unfold lease_slot. destruct (slot_path kind s.1); [|done]. by destruct (try_acquire _ _ _) as [[]]. Qed.

Lemma publish_stays profile carrier now s : stays s.1 (publish_ready_with_carrier_at profile carrier now s).2.1.
Proof.
  destruct s as [m st]. unfold publish_ready_with_carrier_at. destruct (_ || _); [done|]. destruct (_ =? 0); [done|].
  pose proof (drop_dead_slot_stays (topology profile) (m, st)) as H1. destruct (drop_dead_slot _ _) as [m1 st1].
  destruct (admits _ _ _); [|done]. destruct (create_path _ _ _ _ _) as [[h|e] st2]; [|done].
  pose proof (retire_slot_stays (topology profile) NormalRetire (m1, st2)) as H2.
  destruct (retire_slot _ _ _) as [m2 st3]. cbn in *. etrans; [exact H1|]. etrans; [exact H2|].
  apply stays_eq; by destruct (topology profile).
Qed.

Lemma close_all_flags reason m st ls :
  ManagerOk m st ls -> draining (close_all_paths reason (m, st)).1 = true /\ hard_closed (close_all_paths reason (m, st)).1 = true.
Proof.
  intros Ho. unfold close_all_paths. destruct (retire_all_closing reason (set_probe None (set_closing true true m)) st ls)
      as (_ & E2 & E3 & _); [by eapply ManagerOk_flags|]. destruct (retire_all _ _). cbn in *. by split; congruence.
Qed.

Lemma normal_drain_flags m st ls :
  ManagerOk m st ls ->
  draining (normal_drain (m, st)).1 = true /\ hard_closed (normal_drain (m, st)).1 = hard_closed m.
Proof.
  intros Ho. unfold normal_drain. destruct (retire_all_closing NormalRetire (set_probe None (set_closing true (hard_closed m) m)) st ls)
      as (_ & E2 & E3 & _); [by eapply ManagerOk_flags|]. destruct (retire_all _ _). cbn in *. by split; congruence.
Qed.

Section Flags.
Context {HS : SetOrder Z}.

Lemma path_call_stays c w : WorldOk w -> stays (w_state w).1 (w_state (path_call c w)).1.
Proof.
  destruct w as [[m st] ls sub]. intros (Ho & _). cbn [w_state fst snd] in *.
  destruct c; cbn [path_call w_state w_leases w_submitted]; try done.
  - apply (publish_stays profile carrier now (m, st)).
  - rewrite acquire_path_lease_spec. destruct (select_with_authorization _ _ _ _) as [kind|]; [|done].
    pose proof (lease_slot_manager kind now (m, st)) as E. destruct (lease_slot _ _ _) as [r [m' st']]. cbn in *. by subst.
  - rewrite acquire_relay_spec. destruct (slot_test _ _ _); [|done].
    pose proof (lease_slot_manager Relay now (m, st)) as E. destruct (lease_slot _ _ _) as [r [m' st']]. cbn in *. by subst.
  - destruct (handle_of id st); [|done]. by destruct (registry_acquire _ _ _).
  - by destruct (select_compatible_ready_path _ _ _ _).
  - by destruct (ls !! nth).
  - unfold retire_ephemeral. destruct (_ || _); [done|]. cbn [fst snd].
    destruct (slot_test _ Direct _), (slot_test _ Relay _); try done; try apply (retire_slot_stays _ _ (m, st)).
    etrans; [apply (retire_slot_stays Direct NormalRetire (m, st))|apply retire_slot_stays].
  - unfold ensure_direct_probe. repeat case_match; by apply stays_eq.
  - unfold finish_direct_probe. repeat case_match; by apply stays_eq.
  - unfold hard_close_if_handle. destruct (slot_ready kind _); [|done]. destruct (decide _); [|done].
    apply (hard_close_slot_stays kind (m, st)).
  - apply (close_ready_stays _ _ (m, st)).
  - apply (close_ready_stays _ _ (m, st)).
  - apply (close_ready_stays _ _ (m, st)).
  - apply (hard_close_slot_stays kind (m, st)).
  - destruct (normal_drain_flags m st ls Ho) as [E1 E2]. split; congruence.
  - destruct (close_all_flags HardClose m st ls Ho). by split.
  - destruct (close_all_flags SecurityFailure m st ls Ho). by split.
Qed.

Lemma path_run_stays calls w : WorldOk w -> stays (w_state w).1 (w_state (path_run calls w)).1.
Proof.
  revert w. induction calls as [|c l IH]; intros w H; cbn; [done|].
  etrans; [by apply path_call_stays|]. by apply IH, path_call_ok.
Qed.
End Flags.

(** ** Borrowed paths survive retirement *)

(** [keeps id st st']: the open, borrowed path [id] keeps its carrier. *)
Definition keeps (id : Z) (st st' : Paths) : Prop :=
  forall p, heap st !! id = Some p -> is_Some (p_carrier p) -> 0 < p_leases p ->
  exists p', heap st' !! id = Some p' /\ p_carrier p' = p_carrier p /\ p_leases p' = p_leases p.

#[export] Instance keeps_preorder id : PreOrder (keeps id).
Proof.
  split; [intros st p; eauto|]. intros a b c H1 H2 p Hp Hc Hl.
  destruct (H1 p Hp Hc Hl) as (p1 & Hp1 & Ec & El). rewrite <- Ec in Hc. rewrite <- El in Hl.
  destruct (H2 p1 Hp1 Hc Hl) as (p2 & Hp2 & ? & ?). exists p2. split_and!; congruence.
Qed.

Lemma keeps_heap id st st' : heap st' = heap st -> keeps id st st'.
Proof. intros E p Hp _ _. exists p. by rewrite E. Qed.

Lemma keeps_ne id k st st' : touches id st st' -> k ≠ id -> keeps k st st'.
Proof. intros (_ & _ & E & _) Hk p Hp _ _. exists p. by rewrite E. Qed.

Lemma retire_normal_keeps id k st : keeps k st (retire_normal id st).
Proof.
  destruct (decide (k = id)) as [->|Hne]; [|eapply keeps_ne; [apply retire_normal_touches|done]].
  intros p Hp _ Hl. unfold retire_normal. rewrite Hp. rewrite (proj2 (Z.eqb_neq _ 0)) by lia.
  destruct (p_state p); cbn; rewrite ?lookup_insert_eq; eauto.
Qed.

Lemma drop_ref_keeps id k st ow ls :
  Core st ow ls -> path_test path_is_active id st = false -> keeps k st (drop_ref id st).
Proof.
  intros [HC _] Ha. destruct (decide (k = id)) as [->|Hne]; [|eapply keeps_ne; [apply drop_ref_touches|done]].
  intros p Hp Hc _. unfold path_test in Ha. rewrite Hp in Ha. destruct (HC _ _ Hp) as (_ & _ & [_ E] & _).
  rewrite E in Hc by done. by destruct Hc.
Qed.

Lemma registry_drain_keeps h k st : keeps k st (registry_drain h st).2.
Proof.
  unfold registry_drain, on_entry. pose proof (take_entry_spec h st) as (E1 & _).
  destruct (take_entry h st) as [[] st1]; cbn in *; [|by apply keeps_heap].
  assert (keeps k st st1) by (by apply keeps_heap). case_match; [|done]. etrans; [done|apply retire_normal_keeps].
Qed.

Lemma retire_slot_keeps ex kind k m st ls :
  Owner ex m st ls -> keeps k st (retire_slot kind NormalRetire (m, st)).2.
Proof.
  intros H. unfold retire_slot, take_slot, retire_taken. destruct (slot_path kind m) as [id|] eqn:E; [|done].
  destruct (take_retiring ex kind m st ls id H E) as (HC & _).
  unfold retire_path. destruct (handle_of id st) as [h|]; [|done]. set (st1 := retire_normal id _).
  assert (Hk : keeps k st st1) by (etrans; [apply registry_drain_keeps|apply retire_normal_keeps]).
  destruct (path_test path_is_active id st1) eqn:Ha; cbn; [done|]. etrans; [exact Hk|]. eapply drop_ref_keeps; [|done].
  exact (retire_step_core NormalRetire id h st _ _ HC).
Qed.

Lemma reap_keeps k m st ls : ManagerOk m st ls -> keeps k st (reap_draining_paths (m, st)).2.
Proof.
  intros (HC & Hnd & Hdr & _). cbn. set (gone := filter _ _).
  assert (Hg : forall id, id ∈ gone -> path_test path_is_active id st = false) by (intros id ?%list_elem_of_filter; tauto).
  assert (Hcar : forall id p, heap st !! id = Some p -> path_is_active p = false -> p_carrier p = None)
    by (intros id p Hp ?; by apply (proj1 HC _ _ Hp)). clearbody gone. clear -Hg Hcar.
  intros p Hp Hc _. assert (Hne : k ∉ gone).
  { intros Hin%Hg. unfold path_test in Hin. rewrite Hp in Hin. rewrite (Hcar _ _ Hp Hin) in Hc. by destruct Hc. }
  exists p. split; [|done]. clear Hg Hcar. revert st Hp Hne. induction gone as [|id l IH]; intros st Hp Hne; cbn; [done|].
  apply not_elem_of_cons in Hne as [Hk Hl]. apply IH; [|done].
  destruct (drop_ref_touches id st) as (_ & _ & E & _). by rewrite E.
Qed.

Lemma normal_drain_keeps k m st ls : ManagerOk m st ls -> keeps k st (normal_drain (m, st)).2.
Proof.
  intros H. unfold normal_drain. set (m1 := set_probe None _). assert (H1 : ManagerOk m1 st ls) by (by eapply ManagerOk_flags).
  pose proof (retire_all_ok NormalRetire m1 st ls H1) as H2. revert H2. rewrite retire_all_slots.
  pose proof (retire_slot_keeps [] Direct k m1 st ls H1) as K1. pose proof (retire_slot_ok [] Direct NormalRetire m1 st ls H1) as H3.
  destruct (retire_slot Direct NormalRetire (m1, st)) as [m2 st2].
  pose proof (retire_slot_keeps [] Relay k m2 st2 ls H3) as K2. destruct (retire_slot Relay NormalRetire (m2, st2)) as [m3 st3].
  intros H4. etrans; [exact K1|]. etrans; [exact K2|]. by eapply reap_keeps.
Qed.
