(* ===== verification/PathTheorems.v ===== *)
(** * The theorems of the path owner

    Over every execution of [PathRuns.v]: carriers, leases, references and the
    weak index agree; a closed peer holds nothing and a drained one only what is
    borrowed; and what publishing and leasing return. *)
From S2P Require Import Prelude Profile Paths PathManager PathProofs PathOwner PathRuns PathLifecycle.

Section Theorems.
Context {HS : SetOrder Z}.

(** C16. In every execution, each carrier handed to the peer's path owner is
    either held by exactly one path or was closed or dropped exactly once; a
    path counts exactly the live leases on it and never more than 32; a path
    whose last reference is gone is already closed, so that nothing is left to
    the destructor; a draining path is borrowed and kept by the manager; and the
    weak index lists exactly the ready paths, each in the slot of its topology. *)
Theorem paths_accounted calls peer_id :
  let w := path_run calls (path_world peer_id) in
  let '(m, st) := w_state w in
  w_submitted w ≡ₚ (closed st).*1 ++ held st
  /\ (forall id p, heap st !! id = Some p ->
        p_leases p = occ id (w_leases w) /\ p_leases p <= MAX_PATH_LEASES
        /\ (p_carrier p = None <-> exists r, p_state p = Closed r)
        /\ (p_refs p = 0 -> exists r, p_state p = Closed r)
        /\ (p_state p = Draining -> id ∈ draining_paths m /\ 0 < p_leases p)
        /\ (p_state p = Ready -> slot_path (topology (h_profile (p_handle p))) m = Some id))
  /\ (forall id, id ∈ default ∅ (index st !! m_peer m)
        <-> exists p, heap st !! id = Some p /\ p_state p = Ready).
Proof.
  pose proof (reachable_ok calls peer_id) as H. destruct (path_run calls _) as [[m st] ls sub].
  unfold WorldOk in H. cbn in *. pose proof H as ((HC & _) & Hc & Hd & _). split_and!; [done| |].
  - intros id p Hp. destruct (proj1 HC _ _ Hp) as (_ & _ & _ & Hr & Hl & Hm & Ho & Hdr).
    pose proof (occ_nonneg id (owned m)). pose proof (occ_nonneg id ls). cbn in *.
    split_and!; try done.
    + exact (carrier_open _ _ _ _ _ H Hp).
    + intros E. destruct (closed_or_open p) as [[Hs|Hs]|]; [|specialize (Hdr Hs); lia|done].
      specialize (Ho Hs). apply occ_pos in Ho. lia.
    + intros Hs. split; [|auto]. apply Hd. by exists p.
    + exact (slot_of_ready _ _ _ _ _ H Hp).
  - intros id. rewrite <- (ready_indexed _ _ _ id H). apply ready_path.
Qed.

Lemma closing_refuses m st required allow_direct allow_relay now profile carrier ls sub :
  StateOk (m, st) ls sub -> draining m = true ->
  acquire_path_lease required allow_direct allow_relay now (m, st) = (Err NoRouteError, (m, st))
  /\ publish_ready_with_carrier_at profile carrier now (m, st)
     = (Err CancelledError, (m, close_carrier (Some carrier) None st)).
Proof.
  intros (_ & _ & _ & Hf & _) Hd. apply slots_nil in Hf as [E1 E2]; [|done]. cbn in E1, E2.
  unfold acquire_path_lease, select_with_authorization, slot_test, publish_ready_with_carrier_at. cbn.
  rewrite E1, E2, Hd, !andb_false_r. done.
Qed.

(** C17. Once a peer's path owner was closed, hard or for a security failure, no
    later call brings a path back: every path is closed and holds no carrier,
    every carrier ever handed over was closed or dropped, leasing finds no route
    and publishing is cancelled.  The carrier of that publication is dropped
    without being closed. *)
Theorem closing_is_final before after peer_id (security : bool) :
  let w := path_run (before ++ (if security then CSecurityFailure else CHardClose) :: after) (path_world peer_id) in
  let '(m, st) := w_state w in
  (forall id p, heap st !! id = Some p -> exists r, p_state p = Closed r)
  /\ held st = [] /\ w_submitted w ≡ₚ (closed st).*1
  /\ forall required allow_direct allow_relay now profile carrier,
     acquire_path_lease required allow_direct allow_relay now (m, st) = (Err NoRouteError, (m, st))
     /\ publish_ready_with_carrier_at profile carrier now (m, st)
        = (Err CancelledError, (m, close_carrier (Some carrier) None st)).
Proof.
  set (c := if security then CSecurityFailure else CHardClose).
  assert (H : WorldOk (path_run (before ++ c :: after) (path_world peer_id))) by apply reachable_ok.
  assert (Hh : hard_closed (w_state (path_run (before ++ c :: after) (path_world peer_id))).1 = true).
  { unfold path_run. rewrite foldl_app. cbn [foldl]. fold (path_run before (path_world peer_id)).
    pose proof (reachable_ok before peer_id) as H0. set (w0 := path_run before _) in *.
    apply (path_run_stays after (path_call c w0)); [by apply path_call_ok|].
    destruct w0 as [[m st] ls sub], H0 as (Ho & _). cbn in Ho. subst c. destruct security; cbn; eapply close_all_flags; eauto. }
  destruct (path_run _ _) as [[m st] ls sub]. unfold WorldOk in H. cbn in *.
  assert (Hcl : forall id p, heap st !! id = Some p -> exists r, p_state p = Closed r)
    by (intros id p Hp; exact (closed_none_open _ _ _ _ _ H Hh Hp)).
  assert (Hn : held st = []) by (apply held_nil; intros id p Hp; apply (carrier_open _ _ _ _ _ H Hp); by eapply Hcl).
  split_and!; [done|done| |].
  - destruct H as (_ & Hc & _). unfold Carriers in Hc. cbn in Hc. by rewrite Hn, app_nil_r in Hc.
  - intros. eapply closing_refuses; [exact H|]. destruct H as (_ & _ & _ & _ & Hf). by apply Hf.
Qed.

Lemma last_release id now m st ls sub p :
  StateOk (m, st) (id :: ls) sub -> heap st !! id = Some p -> p_state p = Draining -> id ∉ ls ->
  exists c, p_carrier p = Some c /\ closed (drop_lease id now st) = (c_id c, Some NormalRetire) :: closed st.
Proof.
  intros H Hp Hs Hn. destruct (p_carrier p) as [c|] eqn:Ec.
  2: { apply (carrier_open _ _ _ _ _ H Hp) in Ec as [r Hr]. congruence. }
  exists c. split; [done|]. pose proof H as ((HC & _) & _). destruct (proj1 HC _ _ Hp) as (_ & _ & _ & _ & Hl & _).
  assert (Hz : occ id ls = 0).
  { pose proof (occ_nonneg id ls). assert (~ 0 < occ id ls) by (by rewrite <- occ_pos). lia. }
  rewrite occ_cons, decide_True, Hz in Hl by done.
  unfold drop_lease, release_lease. rewrite Hp, Hl, Hs, Ec, (bool_decide_eq_true_2 (Draining = Draining)) by done.
  change (1 + 0 =? 0) with false. change ((1 + 0 - 1 =? 0) && true) with true. cbn iota.
  unfold drop_ref. cbn. rewrite lookup_insert_eq. cbn. destruct (_ =? 1); [|done]. unfold close_with_reason. cbn. by rewrite lookup_insert_eq.
Qed.

(** C18. A normal drain takes no carrier from a borrower: a path with live leases
    keeps it.  Afterwards every path still open is draining and borrowed, so
    none can be leased again and none is left open when the last lease is gone;
    and the release of a path's last lease closes its carrier as a normal
    retirement. *)
Theorem drain_waits_for_borrowers before after peer_id :
  let w0 := path_run before (path_world peer_id) in
  let w := path_run (before ++ CNormalDrain :: after) (path_world peer_id) in
  let '(m, st) := w_state w in
  (forall id p, heap (w_state w0).2 !! id = Some p -> is_Some (p_carrier p) -> id ∈ w_leases w0 ->
     exists p', heap (w_state (path_call CNormalDrain w0)).2 !! id = Some p'
                /\ p_carrier p' = p_carrier p /\ p_leases p' = p_leases p)
  /\ (forall id p, heap st !! id = Some p -> is_Some (p_carrier p) -> p_state p = Draining /\ id ∈ w_leases w)
  /\ (w_leases w = [] -> held st = [])
  /\ (forall n id p now, w_leases w !! n = Some id -> heap st !! id = Some p -> is_Some (p_carrier p) ->
        occ id (w_leases w) = 1 ->
        exists c, p_carrier p = Some c
          /\ closed (w_state (path_call (CRelease n now) w)).2 = (c_id c, Some NormalRetire) :: closed st).
Proof.
  pose proof (reachable_ok before peer_id) as H0. assert (H : WorldOk (path_run (before ++ CNormalDrain :: after) (path_world peer_id))) by apply reachable_ok.
  assert (Hd : draining (w_state (path_run (before ++ CNormalDrain :: after) (path_world peer_id))).1 = true).
  { unfold path_run. rewrite foldl_app. cbn [foldl]. fold (path_run before (path_world peer_id)). set (w0 := path_run before _) in *.
    apply (path_run_stays after (path_call CNormalDrain w0)); [by apply path_call_ok|].
    destruct w0 as [[m st] ls sub], H0 as (Ho & _). eapply normal_drain_flags, Ho. }
  destruct (path_run before (path_world peer_id)) as [[m0 st0] ls0 sub0].
  destruct (path_run _ _) as [[m st] ls sub]. unfold WorldOk in H, H0. cbn in *.
  assert (Ho : forall id p, heap st !! id = Some p -> is_Some (p_carrier p) -> p_state p = Draining /\ id ∈ ls).
  { intros id p Hp Hc. eapply (open_draining _ _ _ _ _ H Hd Hp). destruct (closed_or_open p) as [|Hcl]; [done|].
    apply (carrier_open _ _ _ _ _ H Hp) in Hcl. rewrite Hcl in Hc. by destruct Hc. }
  split_and!; [|done| |].
  - intros id p Hp Hc Hin. pose proof H0 as (Hm & _). apply (normal_drain_keeps id m0 st0 ls0 Hm p Hp Hc).
    destruct Hm as (HC & _). destruct (proj1 HC _ _ Hp) as (_ & _ & _ & _ & -> & _). by apply occ_pos.
  - intros E. apply held_nil. intros id p Hp. destruct (p_carrier p) eqn:Ec; [|done].
    destruct (Ho id p Hp) as [_ Hin]; [by rewrite Ec|]. rewrite E in Hin. set_solver.
  - intros n id p now En Hp Hc Hocc. rewrite En. cbn. pose proof (delete_Permutation ls n id En) as Hperm.
    apply (last_release id now m st (delete n ls) sub p); [by eapply StateOk_leases|done|by eapply Ho|].
    rewrite Hperm, occ_cons, decide_True in Hocc by done. rewrite occ_pos. lia.
Qed.

(** A path that leaves its slot before a publication was closed already: its
    slot is emptied, and no carrier is closed and no other path changes. *)
Lemma drop_dead_slot_same kind m st ls sub :
  StateOk (m, st) ls sub ->
  let s := drop_dead_slot kind (m, st) in
  closed s.2 = closed st /\ next_path s.2 = next_path st
  /\ (forall id, ready_at s.2 id <-> ready_at st id)
  /\ (forall id, ready_at st id -> heap s.2 !! id = heap st !! id)
  /\ (forall kind', kind' ≠ kind -> slot_path kind' s.1 = slot_path kind' m)
  /\ direct_probe s.1 = direct_probe m
  /\ (forall id, slot_path kind s.1 = Some id <-> slot_path kind m = Some id /\ ready_at st id).
Proof.
  intros H. unfold drop_dead_slot. destruct (slot_path kind m) as [id|] eqn:E.
  2: { cbn. split_and!; try done. intros id. rewrite E. naive_solver. }
  destruct (path_test is_ready id st) eqn:Hr; cbn.
  { split_and!; try done. intros k. rewrite E. split; [|tauto]. intros [= <-]. by split. }
  assert (Hn : ~ ready_at st id) by (unfold ready_at; congruence).
  pose proof (drop_ref_touches id st) as Ht. pose proof Ht as (En & _ & Ef & _).
  split_and!; try done.
  - unfold drop_ref. destruct (heap st !! id) as [p|] eqn:Hp; [|done]. destruct (p_refs p =? 1); [|done].
    destruct (closed_or_open p) as [[Hs|Hs]|[r Hs]].
    + destruct Hn. apply ready_path. eauto.
    + by destruct (slot_not_draining _ _ _ kind id p H E Hp).
    + unfold close_with_reason. cbn. rewrite lookup_insert_eq. cbn. by rewrite Hs.
  - intros k. destruct (decide (k = id)) as [->|Hk]; [|by eapply touches_ready_ne].
    split; [by apply touches_ready with id|done].
  - intros k Hk. apply Ef. by intros ->.
  - intros kind' Hk. by destruct kind, kind'.
  - by destruct kind.
  - intros k. split; [by destruct kind|]. intros [[= ->] ?]. done.
Qed.

(** What it takes to replace a ready path: a Direct path, by one with strictly
    more capabilities that covers what the running Direct probe needs. *)
Definition may_replace (kind : RouteTopology) (mask old : Z) (m : Manager) : Prop :=
  kind = Direct /\ mask ≠ old /\ covers mask old = true
  /\ exists probe, direct_probe m = Some probe /\ covers mask (dp_required probe) = true.

Lemma admits_replace kind mask m st id p :
  admits kind mask (m, st) = Ok tt -> slot_path kind m = Some id -> heap st !! id = Some p ->
  may_replace kind mask (h_mask (p_handle p)) m.
Proof.
  unfold admits, handle_of, may_replace. intros H E Hp. rewrite E, Hp in H. cbn in H. revert H.
  destruct kind; cbn; [|by rewrite andb_false_r]. destruct (direct_probe m) as [probe|]; cbn; [|by rewrite andb_false_r].
  destruct (mask =? h_mask (p_handle p)) eqn:En; cbn; [done|]. bool_facts.
  destruct (covers mask (h_mask (p_handle p))); cbn; [|done].
  destruct (covers mask (dp_required probe)) eqn:Ec; [|done]. eauto 10.
Qed.

Lemma admits_errors kind mask s e : admits kind mask s = Err e -> e = StaleAttempt \/ e = CapabilityUnavailable.
Proof.
  destruct s as [m st]. unfold admits. repeat case_match; intros [=]; subst; auto.
Qed.

(** Creating the path and putting it in the slot, the old one retired. *)
Lemma install_outcome profile carrier now m st ls sub h st2 :
  StateOk (m, st) ls sub -> profile_capability_mask profile ≠ 0 ->
  create_path (m_peer m) profile carrier now st = (Ok h, st2) ->
  let '(m', st') := retire_slot (topology profile) NormalRetire (m, st2) in
  h_mask h = profile_capability_mask profile /\ h_profile h = profile
  /\ heap st !! h_id h = None
  /\ heap st' !! h_id h = Some (mkPath h Ready (Some carrier) 0 now 1)
  /\ (forall id, slot_path (topology profile) m = Some id -> ~ ready_at st' id /\ keeps id st st')
  /\ (forall kind', kind' ≠ topology profile -> slot_path kind' m' = slot_path kind' m).
Proof.
  intros (Ho & _) Hz E. cbn in Ho. destruct (create_path_ok m st ls profile carrier now Ho Hz) as (st2' & E' & Ho2 & Eh & _).
  rewrite E in E'. injection E' as -> <-. cbn [h_id h_mask h_profile]. set (h := mkHandle _ _ _ _) in *.
  assert (Hfresh : heap st !! next_path st = None).
  { destruct (heap st !! next_path st) eqn:E0; [|done]. destruct (proj1 (proj1 Ho) _ _ E0) as (_ & ? & _). lia. }
  assert (Hold : forall id, slot_path (topology profile) m = Some id -> id ≠ next_path st).
  { intros id Hid ->. destruct Ho as (_ & _ & _ & Hsl & _). specialize (Hsl (topology profile)). unfold SlotOk in Hsl.
    rewrite Hid in Hsl. destruct Hsl as (p & Hp & _). congruence. }
  pose proof (retire_slot_frame _ (topology profile) NormalRetire m st2 ls (next_path st) Ho2) as Hf.
  pose proof (fun id => retire_slot_keeps _ (topology profile) id m st2 ls Ho2) as Hk.
  pose proof (retire_slot_other (topology profile) NormalRetire m st2) as Hother.
  assert (Hnr : forall id, slot_path (topology profile) m = Some id -> ~ ready_at (retire_slot (topology profile) NormalRetire (m, st2)).2 id).
  { intros id Hid. pose proof (take_retiring _ _ _ _ _ _ Ho2 Hid) as Hret. pose proof (retire_path_ok _ _ _ _ _ NormalRetire Hret) as Hok.
    unfold retire_slot, take_slot, retire_taken. rewrite Hid. intros Hr. destruct Hret as (_ & Hnd & _ & _ & (p & Hp & Hpid & _) & _).
    apply NoDup_cons in Hnd as [Hni _]. revert Hr. unfold retire_path, handle_of. rewrite Hp. cbn [fmap option_fmap option_map].
    pose proof (retire_step_not_ready NormalRetire id (p_handle p) st2) as Hns. cbn [retire_step] in Hns.
    case_match; cbn; [done|]. intros Hr. apply Hns. eapply touches_ready; [apply drop_ref_touches|done]. }
  destruct (retire_slot _ _ _) as [m' st']. cbn [fst snd] in *. split_and!; try done.
  - rewrite Hf by (intros Hid; by apply Hold in Hid). by rewrite Eh, lookup_insert_eq.
  - intros id Hid. split; [by apply Hnr|]. etrans; [|apply Hk]. intros p Hp _ _. exists p. rewrite Eh.
    rewrite lookup_insert_ne by (apply not_eq_sym; by apply Hold). done.
Qed.

Lemma keeps_same id st st1 st2 : heap st1 !! id = heap st !! id -> keeps id st1 st2 -> keeps id st st2.
Proof. intros E H p Hp. rewrite <- E in Hp. by apply H. Qed.

Lemma publish_state_outcome profile carrier now m st ls sub :
  StateOk (m, st) ls sub ->
  let kind := topology profile in
  match publish_ready_with_carrier_at profile carrier now (m, st) with
  | (Ok h, (m', st')) =>
    draining m = false /\ hard_closed m = false
    /\ h_mask h = profile_capability_mask profile /\ h_mask h ≠ 0 /\ h_profile h = profile
    /\ heap st !! h_id h = None /\ slot_path kind m' = Some (h_id h)
    /\ heap st' !! h_id h = Some (mkPath h Ready (Some carrier) 0 now 1)
    /\ (forall id p, slot_path kind m = Some id -> heap st !! id = Some p -> p_state p = Ready ->
          may_replace kind (h_mask h) (h_mask (p_handle p)) m /\ ~ ready_at st' id /\ keeps id st st')
    /\ (forall kind', kind' ≠ kind -> slot_path kind' m' = slot_path kind' m)
  | (Err e, (m', st')) =>
    (forall id, ready_at st' id <-> ready_at st id)
    /\ closed st' = (c_id carrier, if draining m then None else Some HardClose) :: closed st
    /\ (if draining m then e = CancelledError else e = StaleAttempt \/ e = CapabilityUnavailable)
  end.
Proof.
  intros H kind. unfold publish_ready_with_carrier_at. fold kind. pose proof H as (_ & _ & _ & _ & Hf).
  destruct (draining m) eqn:Hd; cbn [orb]; [done|].
  destruct (hard_closed m) eqn:Hh; [destruct (Hf Hh); cbn in *; congruence|].
  destruct (profile_capability_mask profile =? 0) eqn:Hz; [by auto|]. bool_facts.
  pose proof (drop_dead_slot_same kind m st ls sub H) as (Ec & En & Er & Eh & Eo & Ep & Es).
  destruct (drop_dead_slot_state kind (m, st) ls sub H) as (H1 & _). destruct (drop_dead_slot kind (m, st)) as [m1 st1].
  cbn [fst snd] in *. destruct (admits kind (profile_capability_mask profile) (m1, st1)) as [[]|e] eqn:Ha.
  2: { apply admits_errors in Ha. split_and!; [done| |done]. cbn. by rewrite Ec. }
  destruct (create_path_ok m1 st1 ls profile carrier now (proj1 H1) Hz) as (st2 & E & _). rewrite E.
  pose proof (install_outcome profile carrier now m1 st1 ls sub _ st2 H1 Hz E) as Hi. fold kind in Hi.
  destruct (retire_slot kind NormalRetire (m1, st2)) as [m2 st3]. destruct Hi as (Hm & Hp & Hfr & Hn & Hold & Hot).
  cbn [h_id h_mask h_profile] in *. split_and!; try done.
  - destruct (heap st !! next_path st1) eqn:E0; [|done]. destruct H as ((HC & _) & _).
    destruct (proj1 HC _ _ E0) as (_ & Hlt & _). cbn in Hlt. lia.
  - by destruct kind.
  - intros id p Hid Hpp Hs. assert (Hr : ready_at st id) by (apply ready_path; eauto).
    assert (Hid1 : slot_path kind m1 = Some id) by (by apply Es). destruct (Hold id Hid1) as [Hnr Hk].
    pose proof (Eh id Hr) as Eid. split_and!.
    + pose proof (admits_replace _ _ _ _ id p Ha Hid1 ltac:(congruence)) as Hmr. unfold may_replace in *. by rewrite Ep in Hmr.
    + by destruct kind.
    + eapply keeps_same; [exact Eid|]. by destruct kind.
  - intros kind' Hk. rewrite <- Eo, <- Hot by done. by destruct kind, kind'.
Qed.

(** C19. What publishing a carrier does in every execution.  When it succeeds the
    owner was open, the new path is ready in the slot of its topology with a
    fresh identity and the carrier, a ready path it replaces had strictly fewer
    capabilities and leaves, keeping its carrier while it is borrowed, and the
    other slot is untouched.  When it fails no ready path changes and the
    carrier is closed at once, except that a closing owner only drops it; a full
    index is never the reason. *)
Theorem publish_outcome calls peer_id profile carrier now :
  let '(m, st) := w_state (path_run calls (path_world peer_id)) in
  let kind := topology profile in
  match publish_ready_with_carrier_at profile carrier now (m, st) with
  | (Ok h, (m', st')) =>
    draining m = false /\ hard_closed m = false
    /\ h_mask h = profile_capability_mask profile /\ h_mask h ≠ 0 /\ h_profile h = profile
    /\ heap st !! h_id h = None /\ slot_path kind m' = Some (h_id h)
    /\ heap st' !! h_id h = Some (mkPath h Ready (Some carrier) 0 now 1)
    /\ (forall id p, slot_path kind m = Some id -> heap st !! id = Some p -> p_state p = Ready ->
          may_replace kind (h_mask h) (h_mask (p_handle p)) m /\ ~ ready_at st' id /\ keeps id st st')
    /\ (forall kind', kind' ≠ kind -> slot_path kind' m' = slot_path kind' m)
  | (Err e, (m', st')) =>
    (forall id, ready_at st' id <-> ready_at st id)
    /\ closed st' = (c_id carrier, if draining m then None else Some HardClose) :: closed st
    /\ (if draining m then e = CancelledError else e = StaleAttempt \/ e = CapabilityUnavailable)
  end.
Proof.
  pose proof (reachable_ok calls peer_id) as H. destruct (path_run calls _) as [[m st] ls sub].
  by apply (publish_state_outcome profile carrier now m st ls sub).
Qed.

Lemma slot_test_path f kind s :
  slot_test f kind s = true -> exists id p, slot_path kind s.1 = Some id /\ heap s.2 !! id = Some p /\ f p = true.
Proof.
  unfold slot_test, path_test. destruct (slot_path kind s.1) as [id|]; [|done].
  destruct (heap s.2 !! id) as [p|] eqn:E; [|done]. eauto.
Qed.

Lemma lease_slot_outcome required kind now m st ls sub :
  StateOk (m, st) ls sub -> slot_test (is_acquirable required) kind (m, st) = true ->
  exists id p, slot_path kind m = Some id /\ heap st !! id = Some p /\ p_state p = Ready
    /\ topology (h_profile (p_handle p)) = kind
    /\ covers (profile_capability_mask (h_profile (p_handle p))) required = true /\ is_Some (p_carrier p)
    /\ lease_slot kind now (m, st)
       = if p_leases p <? MAX_PATH_LEASES
         then (Ok id, (m, set_path id (mkPath (p_handle p) Ready (p_carrier p) (p_leases p + 1) now (p_refs p + 1)) st))
         else (Err (ResourceLimit "path leases"), (m, st)).
Proof.
  intros H (id & p & Hk & Hp & Ha)%slot_test_path. cbn in Hk, Hp.
  assert (Hpt : path_test (is_acquirable required) id st = true) by (unfold path_test; by rewrite Hp).
  destruct (try_acquire_acquirable required id now st Hpt) as (q & Hq & Hs & Hc & Et).
  assert (q = p) as -> by congruence. exists id, p.
  pose proof H as ((_ & _ & _ & Hsl & _) & _). specialize (Hsl kind). unfold SlotOk in Hsl. cbn in Hsl. rewrite Hk in Hsl.
  destruct Hsl as (q & Hq' & _ & _ & _ & Ht & Hm). assert (q = p) as -> by congruence. rewrite Hm in Hc.
  split_and!; try done.
  - destruct (p_carrier p) eqn:E; [done|]. apply (carrier_open _ _ _ _ _ H Hp) in E as [r E]. congruence.
  - unfold lease_slot. cbn. rewrite Hk, Et, Hs. rewrite Z.ltb_antisym. by destruct (MAX_PATH_LEASES <=? p_leases p).
Qed.

(** What leasing a path returns in every execution: the Direct path when it
    is authorised and covers the capabilities needed, the Relay path only
    otherwise; the lease is of a ready path of that topology that still holds its
    carrier, and is counted.  It fails only when no authorised path qualifies, or
    when the one chosen already has its 32 leases, and then changes nothing; the
    choice and the lease never disagree. *)
Lemma lease_outcome calls peer_id required allow_direct allow_relay now :
  let '(m, st) := w_state (path_run calls (path_world peer_id)) in
  let direct := allow_direct && slot_test (is_acquirable required) Direct (m, st) in
  let relay := allow_relay && slot_test (is_acquirable required) Relay (m, st) in
  if direct || relay then
    exists id p, slot_path (if direct then Direct else Relay) m = Some id
      /\ heap st !! id = Some p /\ p_state p = Ready
      /\ topology (h_profile (p_handle p)) = (if direct then Direct else Relay)
      /\ covers (profile_capability_mask (h_profile (p_handle p))) required = true /\ is_Some (p_carrier p)
      /\ acquire_path_lease required allow_direct allow_relay now (m, st)
         = if p_leases p <? MAX_PATH_LEASES
           then (Ok id, (m, set_path id (mkPath (p_handle p) Ready (p_carrier p) (p_leases p + 1) now (p_refs p + 1)) st))
           else (Err (ResourceLimit "path leases"), (m, st))
  else acquire_path_lease required allow_direct allow_relay now (m, st) = (Err NoRouteError, (m, st)).
Proof.
  pose proof (reachable_ok calls peer_id) as H. destruct (path_run calls _) as [[m st] ls sub].
  unfold WorldOk in H. cbn [w_state w_leases w_submitted] in *. rewrite acquire_path_lease_spec.
  unfold select_with_authorization. destruct (allow_direct && _) eqn:Ed; cbn [orb].
  - apply andb_true_iff in Ed as [_ Ed]. by eapply lease_slot_outcome.
  - destruct (allow_relay && _) eqn:Er; [|done]. apply andb_true_iff in Er as [_ Er]. by eapply lease_slot_outcome.
Qed.
End Theorems.

(** ** A concrete execution *)

Definition quic_path : ConnectionProfile := mkProfile Direct Quic.
Definition relay_profile : ConnectionProfile := mkProfile Relay WebSocket.

(** A Direct and a Relay path are published, both are borrowed, the owner
    drains, the Direct path's lease is released. *)
Definition drain_example : list PathCall :=
  [CPublish quic_path (mkCarrier 10 (ViewQuic 7)) 0; CPublish relay_profile (mkCarrier 11 (ViewRelay (Some 3))) 1;
   CAcquire CAPABILITY_RELIABLE_STREAM true true 2; CAcquireRelay 0 3; CNormalDrain; CRelease 1 4].

(** The example ends with the Direct carrier closed as a retirement and the
    Relay carrier still held by its borrower. *)
Lemma drain_example_ends :
  let w := path_run drain_example (path_world "peer") in
  closed (w_state w).2 = [(10, Some NormalRetire)] /\ held (w_state w).2 = [11] /\ w_leases w = [2].
Proof. vm_compute. done. Qed.
