(* ===== verification/VideoQueue.v ===== *)
(** * The screen-video queue

    Models [network-webrtc/src/media/queue.rs]: the check of an H.264 access
    unit in Annex-B form, and the bounded, keyframe-aware queue of encoded frames
    that each direction of the screen video has.  Instants are nanoseconds. *)
From S2P Require Import Prelude.

Definition MAX_ENCODED_VIDEO_FRAME_BYTES : Z := 4 * 1024 * 1024.
Definition SCREEN_VIDEO_QUEUE_CAPACITY : Z := 3.
Definition MAX_SCREEN_VIDEO_WIDTH : Z := 7680.
Definition MAX_SCREEN_VIDEO_HEIGHT : Z := 4320.
Definition MAX_SCREEN_VIDEO_PIXELS : Z := MAX_SCREEN_VIDEO_WIDTH * MAX_SCREEN_VIDEO_HEIGHT.

Inductive VideoCodec := H264 | Vp8 | Av1.

#[export] Instance VideoCodec_eq_dec : EqDecision VideoCodec.
Proof. solve_decision. Defined.

Record EncodedVideoFrame := mkFrame {
  vf_codec : VideoCodec;
  vf_sequence : Z;
  vf_timestamp : Z;
  vf_width : Z;
  vf_height : Z;
  vf_keyframe : bool;
  vf_payload : bytes;
  vf_expires_at : Z;
}.

Inductive VideoEnqueueResult := Accepted | AcceptedAfterDropping (count : Z) | DroppedIncoming | DroppedStale.

Inductive VideoFrameError :=
| UnsupportedCodec (codec : VideoCodec) | EmptyPayload | PayloadTooLarge | InvalidAccessUnit
| TimestampOutOfRange | InvalidResolution.

Inductive KeyframeRequestReason := ReasonDisconnected | ReasonDecoderReset | ReasonIceRestart | ReasonPacketLoss.

Record VideoMediaStats := mkStats {
  enqueued : Z;
  dequeued : Z;
  dropped_stale : Z;
  dropped_overflow : Z;
  dropped_unsafe_delta : Z;
  dropped_on_disconnect : Z;
  keyframe_requests : Z;
}.

Record VideoQueue := mkQueue {
  frames : list EncodedVideoFrame;
  last_sequence : option Z;
  last_timestamp : option Z;
  pending_keyframe_request : option KeyframeRequestReason;
  stats : VideoMediaStats;
}.

(** ** Annex-B access units *)

Definition starts_with (prefix l : bytes) : bool := bool_decide (take (length prefix) l = prefix).

Definition CODE3 : bytes := [Byte.x00; Byte.x00; Byte.x01].
Definition CODE4 : bytes := [Byte.x00; Byte.x00; Byte.x00; Byte.x01].

(** The loop of [next_start_code] over what is left of the payload. *)
Fixpoint scan_start_code (l : bytes) (index : Z) : option (Z * Z) :=
  match l with
  | [] => None
  | _ :: l' =>
    if len l <? 3 then None
    else if starts_with CODE3 l then Some (index, 3)
    else if (4 <=? len l) && starts_with CODE4 l then Some (index, 4)
    else scan_start_code l' (index + 1)
  end.

Definition next_start_code (payload : bytes) (from : Z) : option (Z * Z) :=
  scan_start_code (drop (Z.to_nat from) payload) from.

(** The low five bits of the byte at an index, the NAL unit type. *)
Definition nalu_type (payload : bytes) (index : Z) : Z :=
  match payload !! Z.to_nat index with Some b => Z.land (Z_of_byte b) 31 | None => 0 end.

(** One turn of [is_valid_annex_b]: the end of the unit that starts next. *)
Definition next_nalu (payload : bytes) (index : Z) : option Z :=
  match next_start_code payload index with
  | None => None
  | Some (start, start_code_len) =>
    let nalu_start := start + start_code_len in
    if len payload <=? nalu_start then None
    else
      let nalu_end :=
        match next_start_code payload nalu_start with
        | Some (next_start, _) => next_start
        | None => len payload
        end in
      if (nalu_end <=? nalu_start) || (nalu_type payload nalu_start =? 0) then None
      else Some nalu_end
  end.

(** [None] when the fuel runs out. *)
Fixpoint annex_b_loop (fuel : nat) (payload : bytes) (index : Z) (found_nalu : bool) : option bool :=
  if len payload <=? index then Some found_nalu
  else
    match fuel with
    | O => None
    | S fuel =>
      match next_nalu payload index with
      | None => Some false
      | Some nalu_end => annex_b_loop fuel payload nalu_end true
      end
    end.

Definition is_valid_annex_b (payload : bytes) : bool :=
  default false (annex_b_loop (length payload) payload 0 false).

(** ** The queue *)

Definition stats_default : VideoMediaStats := mkStats 0 0 0 0 0 0 0.
Definition queue_new : VideoQueue := mkQueue [] None None None stats_default.

Definition inc (n k : Z) : Z := saturating_add u64_max n k.

Definition count_enqueued (s : VideoMediaStats) : VideoMediaStats :=
  mkStats (inc (enqueued s) 1) (dequeued s) (dropped_stale s) (dropped_overflow s)
    (dropped_unsafe_delta s) (dropped_on_disconnect s) (keyframe_requests s).
Definition count_dequeued (s : VideoMediaStats) : VideoMediaStats :=
  mkStats (enqueued s) (inc (dequeued s) 1) (dropped_stale s) (dropped_overflow s)
    (dropped_unsafe_delta s) (dropped_on_disconnect s) (keyframe_requests s).
Definition count_stale (s : VideoMediaStats) : VideoMediaStats :=
  mkStats (enqueued s) (dequeued s) (inc (dropped_stale s) 1) (dropped_overflow s)
    (dropped_unsafe_delta s) (dropped_on_disconnect s) (keyframe_requests s).
Definition count_overflow (k : Z) (s : VideoMediaStats) : VideoMediaStats :=
  mkStats (enqueued s) (dequeued s) (dropped_stale s) (inc (dropped_overflow s) k)
    (dropped_unsafe_delta s) (dropped_on_disconnect s) (keyframe_requests s).
Definition count_unsafe (s : VideoMediaStats) : VideoMediaStats :=
  mkStats (enqueued s) (dequeued s) (dropped_stale s) (dropped_overflow s)
    (inc (dropped_unsafe_delta s) 1) (dropped_on_disconnect s) (keyframe_requests s).
Definition count_disconnect (k : Z) (s : VideoMediaStats) : VideoMediaStats :=
  mkStats (enqueued s) (dequeued s) (dropped_stale s) (dropped_overflow s)
    (dropped_unsafe_delta s) (inc (dropped_on_disconnect s) k) (keyframe_requests s).
Definition count_request (s : VideoMediaStats) : VideoMediaStats :=
  mkStats (enqueued s) (dequeued s) (dropped_stale s) (dropped_overflow s)
    (dropped_unsafe_delta s) (dropped_on_disconnect s) (inc (keyframe_requests s) 1).

Definition set_stats (f : VideoMediaStats -> VideoMediaStats) (q : VideoQueue) : VideoQueue :=
  mkQueue (frames q) (last_sequence q) (last_timestamp q) (pending_keyframe_request q) (f (stats q)).

Definition validate_frame (frame : EncodedVideoFrame) : result unit VideoFrameError :=
  if negb (bool_decide (vf_codec frame = H264)) then Err (UnsupportedCodec (vf_codec frame))
  else if bool_decide (vf_payload frame = []) then Err EmptyPayload
  else if MAX_ENCODED_VIDEO_FRAME_BYTES <? len (vf_payload frame) then Err PayloadTooLarge
  else if u32_max <? vf_timestamp frame then Err TimestampOutOfRange
  else if (vf_width frame =? 0) || (vf_height frame =? 0)
          || (MAX_SCREEN_VIDEO_WIDTH <? vf_width frame) || (MAX_SCREEN_VIDEO_HEIGHT <? vf_height frame)
          || (MAX_SCREEN_VIDEO_PIXELS <? vf_width frame * vf_height frame)
  then Err InvalidResolution
  else if negb (is_valid_annex_b (vf_payload frame)) then Err InvalidAccessUnit
  else Ok tt.

Definition is_non_monotonic (frame : EncodedVideoFrame) (q : VideoQueue) : bool :=
  match last_sequence q with Some last => vf_sequence frame <=? last | None => false end
  || match last_timestamp q with Some last => vf_timestamp frame <=? last | None => false end.

(** The loop over the front of the queue. *)
Fixpoint evict_front (now : Z) (l : list EncodedVideoFrame) (s : VideoMediaStats) :
    list EncodedVideoFrame * VideoMediaStats :=
  match l with
  | frame :: rest => if vf_expires_at frame <=? now then evict_front now rest (count_stale s) else (l, s)
  | [] => (l, s)
  end.

Definition evict_stale (now : Z) (q : VideoQueue) : VideoQueue :=
  let '(l, s) := evict_front now (frames q) (stats q) in
  mkQueue l (last_sequence q) (last_timestamp q) (pending_keyframe_request q) s.

(** [position] of the first frame that is not a keyframe, and its removal. *)
Fixpoint remove_delta (l : list EncodedVideoFrame) : option (list EncodedVideoFrame) :=
  match l with
  | [] => None
  | frame :: rest =>
    if vf_keyframe frame then (fun rest => frame :: rest) <$> remove_delta rest else Some rest
  end.

Definition accept (frame : EncodedVideoFrame) (dropped : Z) (l : list EncodedVideoFrame) (q : VideoQueue) :
    result VideoEnqueueResult VideoFrameError * VideoQueue :=
  (Ok (if dropped =? 0 then Accepted else AcceptedAfterDropping dropped),
   mkQueue (l ++ [frame]) (Some (vf_sequence frame)) (Some (vf_timestamp frame)) (pending_keyframe_request q)
     (count_enqueued (if dropped =? 0 then stats q else count_overflow dropped (stats q)))).

Definition enqueue (frame : EncodedVideoFrame) (now : Z) (q : VideoQueue) :
    result VideoEnqueueResult VideoFrameError * VideoQueue :=
  match validate_frame frame with
  | Err e => (Err e, q)
  | Ok _ =>
    let q := evict_stale now q in
    if vf_expires_at frame <=? now then (Ok DroppedStale, set_stats count_stale q)
    else if is_non_monotonic frame q then (Ok DroppedIncoming, set_stats count_unsafe q)
    else if vf_keyframe frame then accept frame (len (frames q)) [] q
    else if SCREEN_VIDEO_QUEUE_CAPACITY <=? len (frames q) then
      match remove_delta (frames q) with
      | Some l => accept frame 1 l q
      | None => (Ok DroppedIncoming, set_stats count_unsafe q)
      end
    else accept frame 0 (frames q) q
  end.

Definition pop (now : Z) (q : VideoQueue) : option EncodedVideoFrame * VideoQueue :=
  let q := evict_stale now q in
  match frames q with
  | [] => (None, q)
  | frame :: rest =>
    (Some frame,
     mkQueue rest (last_sequence q) (last_timestamp q) (pending_keyframe_request q) (count_dequeued (stats q)))
  end.

Definition request_keyframe (reason : KeyframeRequestReason) (q : VideoQueue) : VideoQueue :=
  match pending_keyframe_request q with
  | None => mkQueue (frames q) (last_sequence q) (last_timestamp q) (Some reason) (count_request (stats q))
  | Some _ => q
  end.

Definition take_keyframe_request (q : VideoQueue) : option KeyframeRequestReason * VideoQueue :=
  (pending_keyframe_request q, mkQueue (frames q) (last_sequence q) (last_timestamp q) None (stats q)).

Definition on_disconnect (q : VideoQueue) : VideoQueue :=
  request_keyframe ReasonDisconnected
    (mkQueue [] None None (pending_keyframe_request q) (count_disconnect (len (frames q)) (stats q))).

Definition on_decoder_reset (q : VideoQueue) : VideoQueue :=
  request_keyframe ReasonDecoderReset
    (mkQueue [] None None None (count_disconnect (len (frames q)) (stats q))).

Definition clear (q : VideoQueue) : VideoQueue := mkQueue [] None None None (stats q).
