(* ===== verification/VideoQueueProofs.v ===== *)
(** * Theorems of the screen-video queue

    The Annex-B check accepts exactly the sequences of NAL units, and the queue
    stays ordered, bounded and accounted whatever is done to it. *)
From S2P Require Import Prelude VideoQueue.

(** ** NAL units *)

Definition is_code (code : bytes) : Prop := code = CODE3 \/ code = CODE4.
Definition begins (l : bytes) : Prop := exists code post, is_code code /\ l = code ++ post.

(** No start code begins inside [n] when [rest] follows it. *)
Definition clean (n rest : bytes) : Prop := forall a b, n = a ++ b -> b ≠ [] -> ~ begins (b ++ rest).

Definition nalu_ok (n : bytes) : Prop := exists b n', n = b :: n' /\ Z.land (Z_of_byte b) 31 ≠ 0.

(** A sequence of NAL units, each behind the start code that is found first. *)
Inductive Units : bytes -> list bytes -> Prop :=
| Units_last code n : is_code code -> nalu_ok n -> clean n [] -> Units (code ++ n) [n]
| Units_cons code n rest ns :
    is_code code -> nalu_ok n -> clean n rest -> Units rest ns -> Units (code ++ n ++ rest) (n :: ns).

Lemma starts_with_spec p l : starts_with p l = true <-> exists post, l = p ++ post.
Proof.
  unfold starts_with. rewrite bool_decide_eq_true. split.
  - intros H. exists (drop (length p) l). by rewrite <- H at 1; rewrite take_drop.
  - intros [post ->]. by rewrite take_app_length.
Qed.

Lemma begins_spec l :
  begins l <-> starts_with CODE3 l = true \/ ((4 <=? len l) && starts_with CODE4 l = true).
Proof.
  unfold begins, is_code. rewrite andb_true_iff, !starts_with_spec. split.
  - intros (code & post & [->| ->] & ->); [left; eauto|right]. split; [|eauto].
    rewrite len_app. pose proof (len_nonneg post). change (len CODE4) with 4. lia.
  - intros [[post ->]|[_ [post ->]]]; eauto 6.
Qed.

Lemma begins_len l : begins l -> 3 <= len l.
Proof.
  intros (code & post & Hc & ->). rewrite len_app. pose proof (len_nonneg post).
  destruct Hc as [->| ->]; [change (len CODE3) with 3|change (len CODE4) with 4]; lia.
Qed.

Lemma clean_nil rest : clean [] rest.
Proof. intros a b E. by destruct a, b. Qed.

Lemma clean_cons x n rest : clean (x :: n) rest <-> ~ begins (x :: n ++ rest) /\ clean n rest.
Proof.
  split.
  - intros H. split; [by apply (H [] (x :: n))|]. intros a b ->. by apply (H (x :: a) b).
  - intros [H1 H2] [|y a] b E Hb; cbn in E; simplify_eq; [done|]. by apply (H2 a b).
Qed.

(** The scan finds the first start code, and nothing when there is none. *)
Lemma scan_finds pre code post index :
  is_code code -> clean pre (code ++ post) ->
  scan_start_code (pre ++ code ++ post) index = Some (index + len pre, len code).
Proof.
  intros Hc. revert index. induction pre as [|x pre IH]; intros index Hcl.
  - cbn [app]. rewrite len_nil, Z.add_0_r. assert (Hb : begins (code ++ post)) by (by eexists _, _).
    pose proof (begins_len _ Hb). destruct Hc as [->| ->]; cbn -[len Z.ltb starts_with]; rewrite (proj2 (Z.ltb_ge _ 3)) by done.
    + done.
    + rewrite (proj2 (Z.leb_le 4 _)); [done|]. rewrite !len_cons. pose proof (len_nonneg post). lia.
  - apply clean_cons in Hcl as [Hn Hcl]. cbn -[len Z.ltb starts_with]. set (l := pre ++ code ++ post) in *.
    assert (Hb : 3 <= len l).
    { subst l. rewrite len_app. pose proof (len_nonneg pre).
      pose proof (begins_len (code ++ post) ltac:(by eexists _, _)). lia. }
    rewrite (proj2 (Z.ltb_ge _ 3)) by (rewrite len_cons; lia). rewrite begins_spec in Hn.
    apply Decidable.not_or in Hn as [H3 H4]. apply not_true_is_false in H3, H4. rewrite H3, H4.
    rewrite IH by done. f_equal. rewrite len_cons. f_equal. lia.
Qed.

Lemma scan_none l index : clean l [] -> scan_start_code l index = None.
Proof.
  revert index. induction l as [|x l IH]; intros index Hcl; [done|]. apply clean_cons in Hcl as [Hn Hcl].
  cbn -[len Z.ltb starts_with]. destruct (_ <? 3); [done|]. rewrite app_nil_r, begins_spec in Hn.
  apply Decidable.not_or in Hn as [H3 H4]. apply not_true_is_false in H3, H4. rewrite H3, H4. by apply IH.
Qed.

Lemma first_code l :
  clean l [] \/ exists pre code post, l = pre ++ code ++ post /\ is_code code /\ clean pre (code ++ post).
Proof.
  induction l as [|x l [IH|(pre & code & post & -> & Hc & Hcl)]].
  - left. apply clean_nil.
  - destruct (starts_with CODE3 (x :: l) || ((4 <=? len (x :: l)) && starts_with CODE4 (x :: l))) eqn:E.
    + right. apply orb_true_iff, begins_spec in E as (code & post & Hc & ->).
      exists [], code, post. split_and!; try done. apply clean_nil.
    + left. apply clean_cons. split; [|done]. rewrite app_nil_r, begins_spec. apply orb_false_iff in E as [-> ->]. by intros [].
  - set (l := pre ++ code ++ post).
    destruct (starts_with CODE3 (x :: l) || ((4 <=? len (x :: l)) && starts_with CODE4 (x :: l))) eqn:E; right.
    + apply orb_true_iff, begins_spec in E as (code' & post' & Hc' & ->).
      exists [], code', post'. split_and!; try done. apply clean_nil.
    + exists (x :: pre), code, post. split_and!; try done. apply clean_cons. split; [|done].
      fold l. rewrite begins_spec. apply orb_false_iff in E as [-> ->]. by intros [].
Qed.

Lemma drop_len (pre l : bytes) : drop (Z.to_nat (len pre)) (pre ++ l) = l.
Proof. unfold len. rewrite Nat2Z.id. by rewrite drop_app_length. Qed.

Lemma lookup_len (pre l : bytes) : (pre ++ l) !! Z.to_nat (len pre) = head l.
Proof. unfold len. rewrite Nat2Z.id, lookup_app_r, Nat.sub_diag by done. by destruct l. Qed.

Lemma code_len code : is_code code -> 3 <= len code.
Proof. intros [->| ->]; [change (len CODE3) with 3|change (len CODE4) with 4]; lia. Qed.

(** One turn of the loop cuts off the unit behind the first start code. *)
Lemma next_nalu_cut done' junk code n rest :
  is_code code -> clean junk (code ++ n ++ rest) -> nalu_ok n -> clean n rest ->
  (rest = [] \/ begins rest) ->
  next_nalu (done' ++ junk ++ code ++ n ++ rest) (len done') = Some (len (done' ++ junk ++ code ++ n)).
Proof.
  intros Hc Hj (b & n' & -> & Hb) Hn Hr. unfold next_nalu, next_start_code. rewrite drop_len, scan_finds by done.
  assert (El : len done' + len junk + len code = len (done' ++ junk ++ code)) by (rewrite !len_app; lia).
  rewrite El. assert (Ea : done' ++ junk ++ code ++ (b :: n') ++ rest = (done' ++ junk ++ code) ++ (b :: n') ++ rest)
    by (by rewrite <- !(assoc (++))).
  rewrite Ea. pose proof (len_nonneg n'). pose proof (len_nonneg rest).
  rewrite (proj2 (Z.leb_gt _ _)) by (rewrite !len_app, len_cons; lia).
  rewrite drop_len. unfold nalu_type. rewrite lookup_len. cbn [head app].
  assert (Hend : match scan_start_code (b :: n' ++ rest) (len (done' ++ junk ++ code)) with
                 | Some (s, _) => s | None => len ((done' ++ junk ++ code) ++ b :: n' ++ rest) end
                 = len (done' ++ junk ++ code ++ b :: n')).
  { destruct Hr as [->|(c2 & post & Hc2 & ->)].
    - change (b :: n' ++ []) with ((b :: n') ++ []). rewrite app_nil_r, scan_none by done. by rewrite <- !(assoc (++)).
    - change (b :: n' ++ c2 ++ post) with ((b :: n') ++ c2 ++ post). rewrite scan_finds by done. rewrite !len_app. lia. }
  rewrite Hend. rewrite (proj2 (Z.leb_gt _ _)) by (rewrite !len_app, len_cons; lia).
  rewrite (proj2 (Z.eqb_neq _ 0)) by done. done.
Qed.

Lemma next_nalu_inv done' l e :
  next_nalu (done' ++ l) (len done') = Some e ->
  exists junk code n rest, l = junk ++ code ++ n ++ rest /\ is_code code
    /\ clean junk (code ++ n ++ rest) /\ nalu_ok n /\ clean n rest /\ (rest = [] \/ begins rest)
    /\ e = len (done' ++ junk ++ code ++ n).
Proof.
  intros H. destruct (first_code l) as [Hcl|(junk & code & post & -> & Hc & Hj)].
  { unfold next_nalu, next_start_code in H. by rewrite drop_len, scan_none in H. }
  assert (Hsplit : exists n rest, post = n ++ rest /\ clean n rest /\ (rest = [] \/ begins rest)).
  { destruct (first_code post) as [Hcl|(n & c2 & p2 & -> & Hc2 & Hn)].
    - exists post, []. by rewrite app_nil_r; auto.
    - exists n, (c2 ++ p2). split_and!; try done. right. by eexists _, _. }
  destruct Hsplit as (n & rest & -> & Hn & Hr). exists junk, code, n, rest.
  assert (Hok : nalu_ok n).
  { revert H. unfold next_nalu, next_start_code. rewrite drop_len, scan_finds by done.
    assert (El : len done' + len junk + len code = len (done' ++ junk ++ code)) by (rewrite !len_app; lia).
    rewrite El. assert (Ea : done' ++ junk ++ code ++ n ++ rest = (done' ++ junk ++ code) ++ n ++ rest)
      by (by rewrite <- !(assoc (++))).
    rewrite Ea, drop_len. destruct (_ <=? _) eqn:Hle; [done|]. unfold nalu_type. rewrite lookup_len.
    destruct n as [|b n']; cbn [head app].
    - destruct Hr as [->|(c2 & p2 & Hc2 & ->)]; [by rewrite !app_nil_r, Z.leb_refl in Hle|]. rewrite (scan_finds [] c2 p2) by (done || apply clean_nil).
      rewrite len_nil, Z.add_0_r. rewrite Z.leb_refl. done.
    - intros H. exists b, n'. split; [done|]. intros E. rewrite E in H. by rewrite orb_true_r in H. }
  split_and!; try done. rewrite (next_nalu_cut done' junk code n rest) in H by done. congruence.
Qed.

Lemma units_nonempty l ns : Units l ns -> begins l.
Proof. intros H. destruct H as [code n Hc|code n rest ns Hc]; by eexists code, _. Qed.

Lemma units_cut done' junk rest ns :
  Units rest ns -> clean junk rest ->
  exists code n rest', rest = code ++ n ++ rest' /\ (rest' = [] \/ exists ns', Units rest' ns')
    /\ next_nalu (done' ++ junk ++ rest) (len done') = Some (len (done' ++ junk ++ code ++ n)).
Proof.
  intros H Hj. destruct H as [code n Hc Hok Hn|code n rest ns Hc Hok Hn Hu]; exists code, n.
  - exists []. rewrite app_nil_r in *. split_and!; [done|by left|].
    pose proof (next_nalu_cut done' junk code n []) as E. rewrite !app_nil_r in E. by apply E; auto.
  - exists rest. split_and!; [done|by right; exists ns|]. apply next_nalu_cut; try done.
    right. by eapply units_nonempty.
Qed.

(** The loop returns within its fuel, and accepts what is a sequence of units. *)
Lemma annex_b_loop_units fuel done' l found :
  (length l <= fuel)%nat -> (found = true -> l = [] \/ begins l) ->
  exists r, annex_b_loop fuel (done' ++ l) (len done') found = Some r
    /\ (r = true <-> (l = [] /\ found = true)
          \/ exists junk rest ns, l = junk ++ rest /\ clean junk rest /\ Units rest ns).
Proof.
  assert (Hnil : forall found : bool, found = true <-> (@nil byte = [] /\ found = true)
            \/ exists junk rest ns, @nil byte = junk ++ rest /\ clean junk rest /\ Units rest ns).
  { intros f. split; [by auto|]. intros [[_ ?]|(junk & rest & ns & E & _ & Hu)]; [done|]. destruct junk, rest; try done.
    apply units_nonempty, begins_len in Hu. rewrite len_nil in Hu. lia. }
  revert done' l found. induction fuel as [|fuel IH]; intros done' l found Hf Hb.
  { destruct l; [|cbn in Hf; lia]. rewrite app_nil_r. cbn. rewrite Z.leb_refl. exists found. split; [done|apply Hnil]. }
  cbn [annex_b_loop]. destruct (len (done' ++ l) <=? len done') eqn:E; bool_facts.
  { assert (l = []) as -> by (apply len_zero_nil; rewrite len_app in E; pose proof (len_nonneg l); lia).
    exists found. split; [done|apply Hnil]. }
  assert (Hl : l ≠ []) by (intros ->; rewrite app_nil_r in E; lia).
  destruct (next_nalu (done' ++ l) (len done')) as [e|] eqn:En.
  2: { exists false. split; [done|]. split; [done|]. intros [[? _]|(junk & rest & ns & -> & Hj & Hu)]; [done|].
       destruct (units_cut done' junk rest ns Hu Hj) as (? & ? & ? & _ & _ & E'). congruence. }
  pose proof En as En'.
  apply next_nalu_inv in En as (junk & code & n & rest & -> & Hc & Hj & Hok & Hn & Hr & ->).
  assert (Ea : done' ++ junk ++ code ++ n ++ rest = (done' ++ junk ++ code ++ n) ++ rest) by (by rewrite <- !(assoc (++))).
  rewrite Ea. destruct (IH (done' ++ junk ++ code ++ n) rest true) as (r & Er & Hrr).
  { pose proof (code_len code Hc) as Hlen. unfold len in Hlen. rewrite !length_app in Hf. lia. }
  { done. }
  exists r. split; [done|]. rewrite Hrr. split.
  - intros [[-> _]|(j2 & r2 & ns & -> & Hj2 & Hu)]; right.
    + exists junk, (code ++ n), [n]. rewrite !app_nil_r in *. split_and!; [done..|]. by apply Units_last.
    + assert (j2 = []) as ->.
      { destruct j2 as [|x j2]; [done|]. exfalso. destruct Hr as [?|Hr]; [done|]. by apply (Hj2 [] (x :: j2)). }
      exists junk, (code ++ n ++ r2), (n :: ns). split_and!; [done..|]. by apply Units_cons.
  - intros [[? _]|(j2 & r2 & ns & E2 & Hj2 & Hu)]; [done|].
    destruct (units_cut done' j2 r2 ns Hu Hj2) as (c2 & n2 & r3 & -> & Hr3 & E3).
    rewrite <- E2, En' in E3. injection E3 as E3.
    assert (rest = r3) as ->.
    { assert (E4 : (junk ++ code ++ n) ++ rest = (j2 ++ c2 ++ n2) ++ r3) by (rewrite <- !(assoc (++)); exact E2).
      apply app_inj_1 in E4 as [_ ?]; [done|]. unfold len in E3. rewrite !length_app in E3. rewrite !length_app. lia. }
    destruct Hr3 as [->|[ns' Hu']]; [by left|right]. exists [], r3, ns'. split_and!; [done|apply clean_nil|done].
Qed.

(** The check of an access unit accepts exactly the byte strings that, after
    bytes before the first start code, are NAL units one after the other, each
    behind a start code and with a type that is not zero. *)
Lemma annex_b_units payload :
  is_valid_annex_b payload = true
  <-> exists junk rest ns, payload = junk ++ rest /\ clean junk rest /\ Units rest ns.
Proof.
  unfold is_valid_annex_b. destruct (annex_b_loop_units (length payload) [] payload false) as (r & E & Hr); [done|done|].
  cbn [app] in E. change (len []) with 0 in E. rewrite E. cbn. rewrite Hr. split; [intros [[_ ?]|?]; done|by right].
Qed.

(** ** Executions of the queue *)

Inductive QueueOp :=
| OpEnqueue (frame : EncodedVideoFrame) (now : Z)
| OpPop (now : Z)
| OpDisconnect
| OpDecoderReset
| OpClear
| OpRequest (reason : KeyframeRequestReason)
| OpTakeRequest.

(** With the queue: how many frames were offered to it and not refused as
    invalid, how many [clear] threw away, and what was popped since the last
    reset. *)
Record QueueRun := mkRun {
  r_queue : VideoQueue;
  r_offered : Z;
  r_cleared : Z;
  r_popped : list EncodedVideoFrame;
}.

Definition queue_op (o : QueueOp) (r : QueueRun) : QueueRun :=
  let q := r_queue r in
  match o with
  | OpEnqueue frame now =>
    let '(res, q') := enqueue frame now q in
    mkRun q' (r_offered r + if is_ok res then 1 else 0) (r_cleared r) (r_popped r)
  | OpPop now =>
    let '(f, q') := pop now q in
    mkRun q' (r_offered r) (r_cleared r) (r_popped r ++ option_list f)
  | OpDisconnect => mkRun (on_disconnect q) (r_offered r) (r_cleared r) []
  | OpDecoderReset => mkRun (on_decoder_reset q) (r_offered r) (r_cleared r) []
  | OpClear => mkRun (clear q) (r_offered r) (r_cleared r + len (frames q)) []
  | OpRequest reason => mkRun (request_keyframe reason q) (r_offered r) (r_cleared r) (r_popped r)
  | OpTakeRequest => mkRun (take_keyframe_request q).2 (r_offered r) (r_cleared r) (r_popped r)
  end.

Definition queue_run (ops : list QueueOp) : QueueRun :=
  foldl (fun r o => queue_op o r) (mkRun queue_new 0 0 []) ops.

Definition later (a b : EncodedVideoFrame) : Prop :=
  vf_sequence a < vf_sequence b /\ vf_timestamp a < vf_timestamp b.

Lemma sorted_sublist {A} (R : A -> A -> Prop) l k : l `sublist_of` k -> StronglySorted R k -> StronglySorted R l.
Proof.
  intros H. induction H as [|x l k H IH|x l k H IH]; intros HS; [done|..].
  - apply StronglySorted_inv in HS as [HS HF]. constructor; [auto|].
    rewrite Forall_forall in *. intros y Hy. apply HF. by eapply elem_of_sublist.
  - apply StronglySorted_inv in HS as [HS HF]. auto.
Qed.

(** What was popped is before what is queued, and nothing is after the last
    sequence number and timestamp. *)
Definition bounded (q : VideoQueue) (f : EncodedVideoFrame) : Prop :=
  exists a b, last_sequence q = Some a /\ last_timestamp q = Some b /\ vf_sequence f <= a /\ vf_timestamp f <= b.

Definition Ordered (q : VideoQueue) (popped : list EncodedVideoFrame) : Prop :=
  StronglySorted later (popped ++ frames q) /\ Forall (bounded q) (popped ++ frames q)
  /\ len (frames q) <= SCREEN_VIDEO_QUEUE_CAPACITY
  /\ Forall (fun f => validate_frame f = Ok tt) (frames q)
  /\ Forall (fun f => vf_keyframe f = false) (tail (frames q)).

(** Dropping frames, and counting, keeps the order. *)
Lemma Ordered_sub q q' popped :
  Ordered q popped -> frames q' `sublist_of` frames q ->
  last_sequence q' = last_sequence q -> last_timestamp q' = last_timestamp q ->
  Forall (fun f => vf_keyframe f = false) (tail (frames q')) -> Ordered q' popped.
Proof.
  intros (H1 & H2 & H3 & H4 & _) Hs Es Et Hk. unfold Ordered, bounded in *. rewrite Es, Et.
  assert (Hss : popped ++ frames q' `sublist_of` popped ++ frames q) by (by apply sublist_app).
  split_and!; [by eapply sorted_sublist| | | |done].
  - rewrite Forall_forall in *. intros f Hf. apply H2. by eapply elem_of_sublist.
  - apply sublist_length in Hs. unfold len in *. lia.
  - rewrite Forall_forall in *. intros f Hf. apply H4. by eapply elem_of_sublist.
Qed.

Lemma evict_front_spec now l s :
  exists gone, l = gone ++ (evict_front now l s).1
    /\ (evict_front now l s).2 = Nat.iter (length gone) count_stale s
    /\ Forall (fun f => vf_expires_at f <= now) gone
    /\ match head (evict_front now l s).1 with Some f => now < vf_expires_at f | None => True end.
Proof.
  revert s. induction l as [|f l IH]; intros s; cbn; [by exists []|].
  destruct (vf_expires_at f <=? now) eqn:E; bool_facts.
  - destruct (IH (count_stale s)) as (gone & E1 & E2 & E3 & E4). exists (f :: gone). cbn. split_and!; try done.
    + by f_equal.
    + rewrite E2. clear. induction (length gone) as [|n IH]; cbn; [done|]. by rewrite <- IH.
    + by constructor.
  - exists []. by split_and!.
Qed.

Lemma tail_suffix (P : EncodedVideoFrame -> Prop) gone l : Forall P (tail (gone ++ l)) -> Forall P (tail l).
Proof.
  destruct gone as [|x gone]; cbn; [done|]. rewrite Forall_app. intros [_ H]. destruct l; [done|].
  by apply Forall_cons in H as [_ ?].
Qed.

Lemma evict_ordered now q popped : Ordered q popped -> Ordered (evict_stale now q) popped.
Proof.
  intros H. unfold evict_stale. destruct (evict_front_spec now (frames q) (stats q)) as (gone & E & _).
  destruct (evict_front now (frames q) (stats q)) as [l s]. cbn in E.
  eapply Ordered_sub; [exact H|..]; cbn; try done.
  - rewrite E. by apply sublist_inserts_l.
  - destruct H as (_ & _ & _ & _ & H). rewrite E in H. by eapply tail_suffix.
Qed.

Lemma remove_delta_spec l l' :
  Forall (fun f => vf_keyframe f = false) (tail l) -> remove_delta l = Some l' ->
  l' `sublist_of` l /\ len l' = len l - 1 /\ Forall (fun f => vf_keyframe f = false) (tail l')
  /\ (forall f, head l = Some f -> vf_keyframe f = true -> head l' = Some f).
Proof.
  destruct l as [|f l]; cbn; [done|]. intros Hk. destruct (vf_keyframe f) eqn:Ef.
  - destruct l as [|g l]; cbn; [done|]. apply Forall_cons in Hk as [Hg Hk]. rewrite Hg. intros [= <-].
    split_and!; try done.
    + by apply sublist_skip, sublist_cons.
    + rewrite !len_cons. lia.
  - intros [= <-]. split_and!.
    + by apply sublist_cons.
    + rewrite len_cons. lia.
    + destruct l; [done|]. by apply Forall_cons in Hk as [_ ?].
    + intros g [= <-]. congruence.
Qed.

Lemma accept_ordered frame dropped l q popped :
  Ordered q popped -> l `sublist_of` frames q -> len l < SCREEN_VIDEO_QUEUE_CAPACITY ->
  is_non_monotonic frame q = false -> validate_frame frame = Ok tt ->
  Forall (fun f => vf_keyframe f = false) (tail l) -> (l = [] \/ vf_keyframe frame = false) ->
  Ordered (accept frame dropped l q).2 popped.
Proof.
  intros (H1 & H2 & _ & H4 & _) Hs Hl Hm Hv Hk Hkf. unfold accept, Ordered. cbn.
  assert (Hss : popped ++ l `sublist_of` popped ++ frames q) by (by apply sublist_app).
  assert (Hlt : Forall (fun y => later y frame) (popped ++ l)).
  { rewrite Forall_forall in *. intros f Hf. destruct (H2 f) as (a & b & Ea & Eb & Hfa & Hfb); [by eapply elem_of_sublist|].
    unfold is_non_monotonic in Hm. rewrite Ea, Eb in Hm. unfold later. lia. }
  rewrite (assoc (++)). split_and!.
  - apply sorted_snoc; [by eapply sorted_sublist|done].
  - apply Forall_app. split.
    + eapply Forall_impl; [exact Hlt|]. intros f [? ?]. exists (vf_sequence frame), (vf_timestamp frame). cbn. split_and!; try done; lia.
    + repeat constructor. exists (vf_sequence frame), (vf_timestamp frame). cbn. split_and!; try done; lia.
  - rewrite len_app. change (len [frame]) with 1. lia.
  - apply Forall_app. split; [|by repeat constructor]. rewrite Forall_forall in *. intros f Hf. apply H4. by eapply elem_of_sublist.
  - destruct l as [|x l]; cbn; [done|]. destruct Hkf as [?|Hkf]; [done|]. apply Forall_app. split; [done|]. by repeat constructor.
Qed.

(** ** Accounting *)

Definition gone_total (s : VideoMediaStats) : Z :=
  dequeued s + dropped_stale s + dropped_overflow s + dropped_unsafe_delta s + dropped_on_disconnect s.
Definition counters (s : VideoMediaStats) : Prop :=
  0 <= dequeued s /\ 0 <= dropped_stale s /\ 0 <= dropped_overflow s /\ 0 <= dropped_unsafe_delta s
  /\ 0 <= dropped_on_disconnect s.

(** [moved q q' n]: all counters stay nonnegative, and below saturation [q']
    accounts for the frames of [q] and [n] more. *)
Definition moved (q q' : VideoQueue) (n : Z) : Prop :=
  counters (stats q) ->
  counters (stats q')
  /\ (gone_total (stats q) + len (frames q) + n <= u64_max ->
      gone_total (stats q') + len (frames q') = gone_total (stats q) + len (frames q) + n).

Ltac count_solve :=
  unfold counters, gone_total, count_stale, count_unsafe, count_overflow, count_disconnect, count_dequeued,
    count_enqueued, count_request, inc, saturating_add, u64_max in *; cbn in *;
  rewrite ?len_cons, ?len_app, ?len_nil in *; lia.

Lemma moved_trans q1 q2 q3 n1 n2 : 0 <= n2 -> moved q1 q2 n1 -> moved q2 q3 n2 -> moved q1 q3 (n1 + n2).
Proof. intros Hn H1 H2 Hc. destruct (H1 Hc) as [Hc2 E1]. destruct (H2 Hc2) as [Hc3 E2]. split; [done|]. intros. lia. Qed.

Lemma stale_iter n s :
  counters s -> counters (Nat.iter n count_stale s)
  /\ (gone_total s + Z.of_nat n <= u64_max -> gone_total (Nat.iter n count_stale s) = gone_total s + Z.of_nat n).
Proof.
  intros Hc. induction n as [|n [IH1 IH2]]; [split; [done|cbn; lia]|].
  change (Nat.iter (S n) count_stale s) with (count_stale (Nat.iter n count_stale s)).
  set (s' := Nat.iter n count_stale s) in *. clearbody s'.
  split; [clear IH2; count_solve|]. intros Hle. rewrite Nat2Z.inj_succ in *. specialize (IH2 ltac:(lia)). count_solve.
Qed.

Lemma evict_moved now q : moved q (evict_stale now q) 0.
Proof.
  intros Hc. unfold evict_stale. destruct (evict_front_spec now (frames q) (stats q)) as (gone & E & Es & _).
  destruct (evict_front now (frames q) (stats q)) as [l s]. cbn in *. subst s.
  destruct (stale_iter (length gone) (stats q) Hc) as [H1 H2]. split; [done|]. rewrite E, len_app. unfold len in *. lia.
Qed.

Lemma accept_moved frame dropped l q :
  0 <= dropped -> len l = len (frames q) - dropped -> moved q (accept frame dropped l q).2 1.
Proof.
  intros Hd El Hc. unfold accept. cbn. rewrite len_app. change (len [frame]) with 1. pose proof (len_nonneg l).
  destruct (dropped =? 0) eqn:E; bool_facts; count_solve.
Qed.

Lemma enqueue_moved frame now q :
  match enqueue frame now q with
  | (Ok _, q') => moved q q' 1
  | (Err _, q') => q' = q
  end.
Proof.
  unfold enqueue. destruct (validate_frame frame) as [[]|e]; [|done].
  pose proof (evict_moved now q) as He. set (q1 := evict_stale now q) in *. clearbody q1. pose proof (len_nonneg (frames q1)) as Hnn.
  assert (H1 : forall q', moved q1 q' 1 -> moved q q' 1) by (intros q' H; by apply (moved_trans q q1 q' 0 1)).
  destruct (_ <=? now); [apply H1; intros Hc; count_solve|].
  destruct (is_non_monotonic frame q1); [apply H1; intros Hc; count_solve|].
  destruct (vf_keyframe frame).
  { destruct (accept frame (len (frames q1)) [] q1) as [r q'] eqn:E. pose proof (accept_moved frame (len (frames q1)) [] q1) as Ha.
    unfold accept in E, Ha. injection E as <- <-. apply H1, Ha; [apply len_nonneg|]. rewrite len_nil. lia. }
  destruct (_ <=? len (frames q1)); [|].
  - destruct (remove_delta (frames q1)) as [l|] eqn:Er; [|apply H1; intros Hc; count_solve].
    apply H1, (accept_moved frame 1 l q1); [done|]. clear -Er. revert l Er.
    induction (frames q1) as [|f k IH]; intros l; cbn; [done|]. destruct (vf_keyframe f).
    + destruct (remove_delta k) as [k'|]; cbn; [|done]. intros [= <-]. rewrite !len_cons, (IH k' eq_refl). lia.
    + intros [= <-]. rewrite len_cons. lia.
  - apply H1, (accept_moved frame 0 (frames q1) q1); lia.
Qed.

Lemma pop_moved now q : moved q (pop now q).2 0.
Proof.
  unfold pop. pose proof (evict_moved now q) as He. set (q1 := evict_stale now q) in *. clearbody q1. pose proof (len_nonneg (frames q1)) as Hnn.
  destruct (frames q1) as [|f rest] eqn:Ef; [done|]. apply (moved_trans q q1 _ 0 0); [done|done|].
  intros Hc. rewrite Ef. cbn. pose proof (len_nonneg rest). count_solve.
Qed.

Lemma request_moved reason q : moved q (request_keyframe reason q) 0.
Proof. intros Hc. unfold request_keyframe. destruct (pending_keyframe_request q); [|cbn]; count_solve. Qed.

Lemma request_frames reason q :
  frames (request_keyframe reason q) = frames q /\ last_sequence (request_keyframe reason q) = last_sequence q
  /\ last_timestamp (request_keyframe reason q) = last_timestamp q.
Proof. unfold request_keyframe. by destruct (pending_keyframe_request q). Qed.

Lemma enqueue_ordered frame now q popped : Ordered q popped -> Ordered (enqueue frame now q).2 popped.
Proof.
  intros H. unfold enqueue. destruct (validate_frame frame) as [[]|e] eqn:Ev; [|done].
  pose proof (evict_ordered now q popped H) as H1. set (q1 := evict_stale now q) in *. clearbody q1. clear H.
  destruct (_ <=? now); [done|]. destruct (is_non_monotonic frame q1) eqn:Em; [done|].
  pose proof H1 as (_ & _ & Hl & _ & Hk). destruct (vf_keyframe frame) eqn:Ek.
  { apply accept_ordered; try done; [apply sublist_nil_l|by left]. }
  destruct (_ <=? len (frames q1)) eqn:Ec; bool_facts.
  - destruct (remove_delta (frames q1)) as [l|] eqn:Er; [|done]. destruct (remove_delta_spec _ _ Hk Er) as (Hs & Hlen & Hk' & _).
    apply accept_ordered; try done; [lia|by right].
  - apply accept_ordered; try done. by right.
Qed.

Lemma pop_ordered now q popped :
  Ordered q popped -> Ordered (pop now q).2 (popped ++ option_list (pop now q).1).
Proof.
  intros H. unfold pop. pose proof (evict_ordered now q popped H) as H1. set (q1 := evict_stale now q) in *. clearbody q1. clear H.
  destruct (frames q1) as [|f rest] eqn:Ef; cbn; [by rewrite app_nil_r|].
  destruct H1 as (H1 & H2 & H3 & H4 & H5). rewrite Ef in *. unfold Ordered. cbn. rewrite <- (assoc (++)). cbn.
  split_and!; try done.
  - rewrite len_cons in H3. lia.
  - by apply Forall_cons in H4 as [_ ?].
  - cbn in H5. destruct rest; [done|]. by apply Forall_cons in H5 as [_ ?].
Qed.

Definition RunOk (r : QueueRun) : Prop :=
  Ordered (r_queue r) (r_popped r) /\ counters (stats (r_queue r)) /\ 0 <= r_offered r /\ 0 <= r_cleared r
  /\ (r_offered r <= u64_max ->
      r_offered r = gone_total (stats (r_queue r)) + r_cleared r + len (frames (r_queue r))).

Lemma Ordered_empty q : frames q = [] -> Ordered q [].
Proof. intros E. unfold Ordered. rewrite E. cbn. split_and!; try done; constructor. Qed.

Lemma reset_ok reason pending q off clr popped :
  RunOk (mkRun q off clr popped) ->
  RunOk (mkRun (request_keyframe reason (mkQueue [] None None pending (count_disconnect (len (frames q)) (stats q))))
           off clr []).
Proof.
  intros (Ho & Hc & H0 & H1 & Ha). cbn in *. pose proof (len_nonneg (frames q)).
  set (q1 := mkQueue _ _ _ _ _). destruct (request_frames reason q1) as (Ef & _ & _).
  assert (Hc1 : counters (stats q1)) by (clear Ha; subst q1; count_solve).
  destruct (request_moved reason q1 Hc1) as [Hc' He].
  split_and!; cbn; try done; [by apply Ordered_empty|]. intros Hle. specialize (Ha Hle). rewrite Ef in *. clear Ef Hc'.
  assert (gone_total (stats q1) = gone_total (stats q) + len (frames q)) by (subst q1; clear He; count_solve).
  subst q1. cbn [frames stats] in *. rewrite len_nil in *. lia.
Qed.

Lemma queue_op_ok o r : RunOk r -> RunOk (queue_op o r).
Proof.
  destruct r as [q off clr popped]. intros Hr. pose proof Hr as (Ho & Hc & H0 & H1 & Ha). cbn in *. pose proof (len_nonneg (frames q)).
  destruct o; cbn [queue_op r_queue r_offered r_cleared r_popped].
  - pose proof (enqueue_moved frame now q) as Hm. pose proof (enqueue_ordered frame now q popped Ho) as Hor.
    destruct (enqueue frame now q) as [[res|e] q']; cbn in *; [|subst q'; unfold RunOk; cbn; split_and!; try done; try lia].
    destruct (Hm Hc) as [Hc' He]. split_and!; cbn; try done; [lia|]. intros. specialize (Ha ltac:(lia)). lia.
  - pose proof (pop_moved now q) as Hm. pose proof (pop_ordered now q popped Ho) as Hor.
    destruct (pop now q) as [f q']. cbn in *. destruct (Hm Hc) as [Hc' He]. split_and!; cbn; try done. intros. specialize (Ha ltac:(lia)). lia.
  - by apply reset_ok with popped.
  - by apply reset_ok with popped.
  - split_and!; cbn; try done; [by apply Ordered_empty|lia|]. rewrite len_nil. lia.
  - destruct (request_frames reason q) as (Ef & Es & Et). destruct (request_moved reason q Hc) as [Hc' He].
    split_and!; cbn; try done; [|intros; specialize (Ha ltac:(lia)); lia].
    unfold Ordered, bounded. rewrite Ef, Es, Et. done.
  - done.
Qed.

Lemma queue_run_ok ops : RunOk (queue_run ops).
Proof.
  induction ops as [|o ops IH] using rev_ind.
  - split_and!; cbn; try done. by apply Ordered_empty.
  - unfold queue_run in *. rewrite foldl_app. cbn. by apply queue_op_ok.
Qed.

(** A queued keyframe that has not expired stays in front of deltas. *)
Lemma keyframe_stays k frame now q popped :
  Ordered q popped -> head (frames q) = Some k -> vf_keyframe k = true -> now < vf_expires_at k ->
  vf_keyframe frame = false -> head (frames (enqueue frame now q).2) = Some k.
Proof.
  intros H Hh Hk Hx Hf. unfold enqueue. destruct (validate_frame frame) as [[]|e]; [|done].
  assert (E : evict_stale now q = q).
  { unfold evict_stale. destruct q as [[|f l] ls lt pr st]; cbn in *; [done|]. injection Hh as ->.
    by rewrite (proj2 (Z.leb_gt _ _)). }
  rewrite E. destruct (_ <=? now); [done|]. destruct (is_non_monotonic frame q); [done|]. rewrite Hf.
  destruct H as (_ & _ & _ & _ & Ht). destruct (_ <=? len (frames q)).
  - destruct (remove_delta (frames q)) as [l|] eqn:Er; [|done]. destruct (remove_delta_spec _ _ Ht Er) as (_ & _ & _ & Hr).
    cbn. specialize (Hr k Hh Hk). destruct l; [done|]. by cbn in *.
  - cbn. destruct (frames q); [done|]. by cbn in *.
Qed.

(** C28. Whatever is done to a screen-video queue, what was popped since the last
    reset followed by what is queued is in strictly increasing order of sequence
    and timestamp; at most three frames are queued, all valid, a keyframe only in
    front, and deltas never push an unexpired keyframe out.  Every frame that was
    offered and not refused is counted exactly once: popped, dropped as stale, by
    overflow, as unsafe or at a reset, thrown away by [clear], or still queued. *)
Theorem video_queue_accounted ops :
  let r := queue_run ops in
  let q := r_queue r in
  StronglySorted later (r_popped r ++ frames q)
  /\ len (frames q) <= SCREEN_VIDEO_QUEUE_CAPACITY
  /\ Forall (fun f => validate_frame f = Ok tt) (frames q)
  /\ Forall (fun f => vf_keyframe f = false) (tail (frames q))
  /\ (forall k frame now, head (frames q) = Some k -> vf_keyframe k = true -> now < vf_expires_at k ->
        vf_keyframe frame = false -> head (frames (enqueue frame now q).2) = Some k)
  /\ (r_offered r <= u64_max ->
      r_offered r = dequeued (stats q) + dropped_stale (stats q) + dropped_overflow (stats q)
                    + dropped_unsafe_delta (stats q) + dropped_on_disconnect (stats q)
                    + r_cleared r + len (frames q)).
Proof.
  intros r q. destruct (queue_run_ok ops) as (Ho & _ & _ & _ & Ha). fold r in Ho, Ha. pose proof Ho as (H1 & _ & H3 & H4 & H5).
  split_and!; try done. intros. by eapply keyframe_stays.
Qed.
