(* ===== verification/Rtp.v ===== *)
(** * RTP packets of the screen video

    Models [network-webrtc/src/media/rtp.rs]: cutting an H.264 access unit into
    RTP packets and putting packets back together.  The H.264 payload format
    itself ([H264Payloader], [H264Packet] and their constants) is code of the
    [rtc] package, and an argument here. *)
From S2P Require Import Prelude VideoQueue.

Class H264Format := {
  Payloader : Type;
  payloader_default : Payloader;
  payload : Z -> bytes -> Payloader -> result (list bytes) string * Payloader;
  Depacketizer : Type;
  depacketizer_default : Depacketizer;
  depacketize : bytes -> Depacketizer -> result bytes string * Depacketizer;
  NALU_TYPE_BITMASK : Z;
  FUA_NALU_TYPE : Z;
  FUA_HEADER_SIZE : Z;
  STAPA_NALU_TYPE : Z;
  STAPA_NALU_LENGTH_SIZE : Z;
}.

Definition RTP_HEADER_BYTES : Z := 12.
Definition DEFAULT_REMOTE_WIDTH : Z := 1920.
Definition DEFAULT_REMOTE_HEIGHT : Z := 1080.
Definition RECEIVED_FRAME_TTL : Z := from_millis 250.

Inductive RtpMediaError :=
| InvalidMtu | RtpUnsupportedCodec | RtpInvalidAccessUnit | RtpTimestampOutOfRange
| Payloading (error : string) | MalformedPayload | StaleOrDiscontinuous | ReassembledFrameTooLarge.

Record Packet := mkPacket {
  pk_version : Z;
  pk_marker : bool;
  pk_payload_type : Z;
  pk_sequence : Z;
  pk_timestamp : Z;
  pk_ssrc : Z;
  pk_payload : bytes;
}.

(** [candidate != previous && candidate.wrapping_sub(previous) < 2^31] *)
Definition is_newer_timestamp (candidate previous : Z) : bool :=
  negb (candidate =? previous) && (wrap 32 (candidate - previous) <? u32_max / 2 + 1).

(** The loop of [contains_idr_nalu] with the fuel of the payload's length. *)
Fixpoint idr_loop (mask : Z) (fuel : nat) (payload : bytes) (index : Z) : option bool :=
  if len payload <=? index then Some false
  else
    match fuel with
    | O => None
    | S fuel =>
      match next_start_code payload index with
      | None => Some false
      | Some (start, start_code_len) =>
        let nalu_start := start + start_code_len in
        match payload !! Z.to_nat nalu_start with
        | Some b => if Z.land (Z_of_byte b) mask =? 5 then Some true else idr_loop mask fuel payload nalu_start
        | None => idr_loop mask fuel payload nalu_start
        end
      end
    end.

(** The units of an aggregation packet ([STAP-A]): the loop of
    [is_valid_h264_payload] over what is left of it. *)
Fixpoint stapa_loop (length_size : Z) (fuel : nat) (payload : bytes) (offset : Z) : option bool :=
  if len payload <=? offset then Some (offset =? len payload)
  else
    match fuel with
    | O => None
    | S fuel =>
      if len payload <? offset + length_size then Some false
      else
        let byte_at i := match payload !! Z.to_nat i with Some b => Z_of_byte b | None => 0 end in
        let nalu_size := Z.lor (Z.shiftl (byte_at offset) 8) (byte_at (offset + 1)) in
        let offset := offset + length_size in
        if (nalu_size =? 0) || (len payload <? offset + nalu_size) then Some false
        else stapa_loop length_size fuel payload (offset + nalu_size)
    end.

Section Rtp.
Context {HF : H264Format}.

Record RtpPacketizer := mkPacketizer {
  mtu : Z;
  payload_type : Z;
  ssrc : Z;
  next_sequence_number : Z;
  payloader : Payloader;
}.

Definition packetizer_new (mtu payload_type ssrc initial_sequence : Z) : RtpPacketizer :=
  mkPacketizer mtu payload_type ssrc initial_sequence payloader_default.

(** The packets of the payloads left, numbered from [sequence]. *)
Fixpoint number_packets (payloads : list bytes) (sequence timestamp : Z) (p : RtpPacketizer) : list Packet :=
  match payloads with
  | [] => []
  | data :: rest =>
    mkPacket 2 (bool_decide (rest = [])) (payload_type p) sequence timestamp (ssrc p) data
    :: number_packets rest (wrap 16 (sequence + 1)) timestamp p
  end.

Definition packetize (frame : EncodedVideoFrame) (p : RtpPacketizer) :
    result (list Packet) RtpMediaError * RtpPacketizer :=
  if mtu p <=? RTP_HEADER_BYTES + FUA_HEADER_SIZE then (Err InvalidMtu, p)
  else if negb (bool_decide (vf_codec frame = H264)) then (Err RtpUnsupportedCodec, p)
  else if bool_decide (vf_payload frame = []) || (MAX_ENCODED_VIDEO_FRAME_BYTES <? len (vf_payload frame))
          || negb (is_valid_annex_b (vf_payload frame))
  then (Err RtpInvalidAccessUnit, p)
  else if u32_max <? vf_timestamp frame then (Err RtpTimestampOutOfRange, p)
  else
    let '(r, pl) := payload (mtu p - RTP_HEADER_BYTES) (vf_payload frame) (payloader p) in
    let p := mkPacketizer (mtu p) (payload_type p) (ssrc p) (next_sequence_number p) pl in
    match r with
    | Err e => (Err (Payloading e), p)
    | Ok [] => (Err RtpInvalidAccessUnit, p)
    | Ok payloads =>
      (Ok (number_packets payloads (next_sequence_number p) (vf_timestamp frame) p),
       mkPacketizer (mtu p) (payload_type p) (ssrc p) (wrap 16 (next_sequence_number p + len payloads)) pl)
    end.

(** ** Reassembly *)

Record RtpReassembler := mkReassembler {
  depacketizer : Depacketizer;
  pending_payload : bytes;
  pending_timestamp : option Z;
  expected_sequence : option Z;
  last_completed_timestamp : option Z;
  next_frame_sequence : Z;
  width : Z;
  height : Z;
}.

Definition with_dimensions (w h : Z) : RtpReassembler :=
  mkReassembler depacketizer_default [] None None None 0
    (Z.min MAX_SCREEN_VIDEO_WIDTH (Z.max 1 w)) (Z.min MAX_SCREEN_VIDEO_HEIGHT (Z.max 1 h)).
Definition reassembler_new : RtpReassembler := with_dimensions DEFAULT_REMOTE_WIDTH DEFAULT_REMOTE_HEIGHT.

Definition reset_pending (r : RtpReassembler) : RtpReassembler :=
  mkReassembler depacketizer_default [] None None (last_completed_timestamp r) (next_frame_sequence r)
    (width r) (height r).
Definition reassembler_reset (r : RtpReassembler) : RtpReassembler :=
  mkReassembler depacketizer_default [] None None None (next_frame_sequence r) (width r) (height r).
Definition clear_for_endpoint_release (r : RtpReassembler) : RtpReassembler :=
  mkReassembler depacketizer_default [] None None None 0 (width r) (height r).

Definition is_valid_h264_payload (data : bytes) : bool :=
  match data with
  | [] => false
  | header :: _ =>
    let kind := Z.land (Z_of_byte header) NALU_TYPE_BITMASK in
    if (1 <=? kind) && (kind <=? 23) then 1 <? len data
    else if kind =? FUA_NALU_TYPE then FUA_HEADER_SIZE <=? len data
    else if kind =? STAPA_NALU_TYPE then
      default false (stapa_loop STAPA_NALU_LENGTH_SIZE (length data) data 1)
    else false
  end.

Definition contains_idr_nalu (data : bytes) : bool :=
  default false (idr_loop NALU_TYPE_BITMASK (length data) data 0).

(** Whether the packet continues what is pending. *)
Definition packet_continues (packet : Packet) (r : RtpReassembler) : bool :=
  match pending_timestamp r with
  | None => true
  | Some timestamp =>
    (timestamp =? pk_timestamp packet)
    && match expected_sequence r with Some expected => expected =? pk_sequence packet | None => true end
  end.

Definition push_at (packet : Packet) (now : Z) (r : RtpReassembler) :
    result (option EncodedVideoFrame) RtpMediaError * RtpReassembler :=
  if negb (pk_version packet =? 2) || negb (is_valid_h264_payload (pk_payload packet))
  then (Err MalformedPayload, reset_pending r)
  else if match last_completed_timestamp r with
          | Some completed => negb (is_newer_timestamp (pk_timestamp packet) completed)
          | None => false
          end
  then (Err StaleOrDiscontinuous, reset_pending r)
  else if negb (packet_continues packet r) then (Err StaleOrDiscontinuous, reset_pending r)
  else
    match depacketize (pk_payload packet) (depacketizer r) with
    | (Err _, _) => (Err MalformedPayload, reset_pending r)
    | (Ok data, dep) =>
      if MAX_ENCODED_VIDEO_FRAME_BYTES <? len (pending_payload r) + len data
      then (Err ReassembledFrameTooLarge, reset_pending r)
      else
        let pending := pending_payload r ++ data in
        let r := mkReassembler dep pending (Some (pk_timestamp packet))
                   (Some (wrap 16 (pk_sequence packet + 1))) (last_completed_timestamp r)
                   (next_frame_sequence r) (width r) (height r) in
        if negb (pk_marker packet) then (Ok None, r)
        else if bool_decide (pending = []) then (Err MalformedPayload, reset_pending r)
        else
          (Ok (Some (mkFrame H264 (next_frame_sequence r) (pk_timestamp packet) (width r) (height r)
                       (contains_idr_nalu pending) pending (now + RECEIVED_FRAME_TTL))),
           mkReassembler depacketizer_default [] None None (Some (pk_timestamp packet))
             (wrap 64 (next_frame_sequence r + 1)) (width r) (height r))
    end.
End Rtp.
