(* ===== verification/RtpProofs.v ===== *)
(** * Theorems of the RTP packets

    Frames come out of the reassembler only from unbroken runs of packets, what
    the packetizer cuts is put together again, and a loss in front of a frame is
    not seen. *)
From S2P Require Import Prelude VideoQueue VideoQueueProofs Rtp.

(** ** Loops end within their fuel *)

Lemma next_start_code_after payload from start n :
  0 <= from -> next_start_code payload from = Some (start, n) -> from <= start /\ 3 <= n.
Proof.
  intros Hf H. unfold next_start_code in H. destruct (first_code (drop (Z.to_nat from) payload)) as [Hc|(pre & code & post & E & Hc & Hp)].
  - by rewrite scan_none in H.
  - rewrite E, scan_finds in H by done. injection H as <- <-. pose proof (len_nonneg pre). pose proof (code_len code Hc). lia.
Qed.

Lemma idr_loop_returns mask fuel payload index :
  0 <= index -> len payload - index <= Z.of_nat fuel -> is_Some (idr_loop mask fuel payload index).
Proof.
  revert index. induction fuel as [|fuel IH]; intros index Hi Hf; cbn [idr_loop].
  - rewrite (proj2 (Z.leb_le _ _)) by lia. done.
  - destruct (_ <=? index) eqn:E; [done|]. bool_facts. destruct (next_start_code payload index) as [[start n]|] eqn:En; [|done].
    apply next_start_code_after in En as [? ?]; [|done].
    assert (is_Some (idr_loop mask fuel payload (start + n))) by (apply IH; lia).
    destruct (payload !! _); [|done]. by destruct (_ =? 5).
Qed.

Lemma stapa_loop_returns size fuel payload offset :
  0 <= size -> 0 <= offset -> len payload - offset <= Z.of_nat fuel -> is_Some (stapa_loop size fuel payload offset).
Proof.
  intros Hs. revert offset. induction fuel as [|fuel IH]; intros offset Ho Hf; cbn [stapa_loop].
  - rewrite (proj2 (Z.leb_le _ _)) by lia. done.
  - destruct (_ <=? offset) eqn:E; [done|]. bool_facts. destruct (_ <? offset + size); [done|].
    set (n := Z.lor _ _). assert (0 <= n).
    { subst n. apply Z.lor_nonneg. split; [apply Z.shiftl_nonneg|]; destruct (payload !! _); try done; apply Z_of_byte_range. }
    clearbody n. destruct (n =? 0) eqn:Ez; cbn [orb]; [done|]. bool_facts. destruct (len payload <? _) eqn:El; [done|].
    apply IH; lia.
Qed.

Section Rtp.
Context {HF : H264Format}.

(** ** Runs of packets *)

(** What the depacketizer makes of packets one after the other. *)
Fixpoint depacketize_all (l : list Packet) (d : Depacketizer) : option (bytes * Depacketizer) :=
  match l with
  | [] => Some ([], d)
  | p :: l =>
    match depacketize (pk_payload p) d with
    | (Err _, _) => None
    | (Ok data, d) =>
      match depacketize_all l d with Some (rest, d) => Some (data ++ rest, d) | None => None end
    end
  end.

Lemma depacketize_snoc l p d :
  depacketize_all (l ++ [p]) d
  = match depacketize_all l d with
    | Some (data, d) =>
      match depacketize (pk_payload p) d with (Ok more, d) => Some (data ++ more, d) | (Err _, _) => None end
    | None => None
    end.
Proof.
  revert d. induction l as [|q l IH]; intros d; cbn.
  - destruct (depacketize _ d) as [[data|e] d']; [|done]. by rewrite app_nil_r.
  - destruct (depacketize (pk_payload q) d) as [[data|e] d']; [|done]. rewrite IH.
    destruct (depacketize_all l d') as [[data2 d2]|]; [|done]. destruct (depacketize (pk_payload p) d2) as [[more|e] d3]; [|done].
    by rewrite (assoc (++)).
Qed.

(** Packets of one frame: one timestamp, consecutive sequence numbers, and the
    marker only on the last when [last] says so. *)
Fixpoint contiguous (timestamp sequence : Z) (last : bool) (l : list Packet) : Prop :=
  match l with
  | [] => True
  | p :: rest =>
    pk_timestamp p = timestamp /\ pk_sequence p = sequence
    /\ pk_marker p = (last && bool_decide (rest = []))
    /\ pk_version p = 2 /\ is_valid_h264_payload (pk_payload p) = true
    /\ contiguous timestamp (wrap 16 (sequence + 1)) last rest
  end.

Definition seq_after (sequence : Z) (l : list Packet) : Z :=
  Nat.iter (length l) (fun s => wrap 16 (s + 1)) sequence.

Lemma seq_after_cons sequence p l : seq_after sequence (p :: l) = seq_after (wrap 16 (sequence + 1)) l.
Proof. unfold seq_after. cbn [length]. by rewrite Nat.iter_succ_r. Qed.

Lemma contiguous_snoc timestamp sequence last l p :
  contiguous timestamp sequence false l ->
  pk_timestamp p = timestamp -> pk_sequence p = seq_after sequence l -> pk_marker p = last ->
  pk_version p = 2 -> is_valid_h264_payload (pk_payload p) = true ->
  contiguous timestamp sequence last (l ++ [p]).
Proof.
  revert sequence. induction l as [|q l IH]; intros sequence Hl Ht Hs Hm Hv Hp; cbn [contiguous app].
  - rewrite bool_decide_eq_true_2, andb_true_r by done. done.
  - destruct Hl as (? & ? & Hq & ? & ? & Hl). rewrite seq_after_cons in Hs. split_and!; try done; [|by apply IH].
    rewrite Hq. rewrite (bool_decide_eq_false_2 (l ++ [p] = [])) by (by destruct l). by rewrite andb_false_r.
Qed.

(** [Pending pkts r]: [r] has taken in exactly the packets [pkts] since it last
    had nothing pending. *)
Definition Pending (pkts : list Packet) (r : RtpReassembler) : Prop :=
  depacketize_all pkts depacketizer_default = Some (pending_payload r, depacketizer r)
  /\ match pkts with
     | [] => pending_timestamp r = None /\ expected_sequence r = None
     | p :: _ =>
       contiguous (pk_timestamp p) (pk_sequence p) false pkts
       /\ pending_timestamp r = Some (pk_timestamp p)
       /\ expected_sequence r = Some (seq_after (pk_sequence p) pkts)
     end.

Lemma Pending_idle r : pending_payload r = [] -> depacketizer r = depacketizer_default ->
  pending_timestamp r = None -> expected_sequence r = None -> Pending [] r.
Proof. intros E1 E2 E3 E4. unfold Pending. cbn. by rewrite E1, E2. Qed.

(** What a push does to the run of packets. *)
Lemma push_pending pkts p now r :
  Pending pkts r -> len (pending_payload r) <= MAX_ENCODED_VIDEO_FRAME_BYTES ->
  match push_at p now r with
  | (Ok None, r') => Pending (pkts ++ [p]) r' /\ len (pending_payload r') <= MAX_ENCODED_VIDEO_FRAME_BYTES
  | (Ok (Some frame), r') =>
    Pending [] r'
    /\ (forall q, head (pkts ++ [p]) = Some q -> contiguous (pk_timestamp q) (pk_sequence q) true (pkts ++ [p]))
    /\ (exists d, depacketize_all (pkts ++ [p]) depacketizer_default = Some (vf_payload frame, d))
    /\ vf_payload frame ≠ [] /\ len (vf_payload frame) <= MAX_ENCODED_VIDEO_FRAME_BYTES
    /\ vf_timestamp frame = pk_timestamp p /\ vf_sequence frame = next_frame_sequence r
    /\ vf_keyframe frame = contains_idr_nalu (vf_payload frame)
    /\ match last_completed_timestamp r with
       | Some t => is_newer_timestamp (vf_timestamp frame) t = true | None => True end
    /\ last_completed_timestamp r' = Some (pk_timestamp p)
  | (Err _, r') => Pending [] r'
  end.
Proof.
  intros [Hd Hp] Hlen. unfold push_at. destruct (negb (pk_version p =? 2) || _) eqn:Ev; [by apply Pending_idle|].
  apply orb_false_iff in Ev as [Ev Eh]. apply negb_false_iff in Ev, Eh. bool_facts.
  destruct (match last_completed_timestamp r with Some _ => _ | None => _ end) eqn:En; [by apply Pending_idle|].
  destruct (packet_continues p r) eqn:Ec; [cbn [negb]|by apply Pending_idle].
  destruct (depacketize (pk_payload p) (depacketizer r)) as [[data|e] dep] eqn:Edep; [|by apply Pending_idle].
  destruct (_ <? _ + len data) eqn:El; [by apply Pending_idle|]. bool_facts.
  assert (Hdep : depacketize_all (pkts ++ [p]) depacketizer_default = Some (pending_payload r ++ data, dep))
    by (by rewrite depacketize_snoc, Hd, Edep).
  assert (Hc : forall m, pk_marker p = m -> forall q, head (pkts ++ [p]) = Some q ->
            contiguous (pk_timestamp q) (pk_sequence q) m (pkts ++ [p])
            /\ pk_timestamp q = pk_timestamp p /\ seq_after (pk_sequence q) (pkts ++ [p]) = wrap 16 (pk_sequence p + 1)).
  { intros m Hm q. unfold packet_continues in Ec. destruct pkts as [|q0 pkts]; cbn [head app].
    - intros [= <-]. cbn [contiguous]. rewrite bool_decide_eq_true_2, andb_true_r by done. by split_and!.
    - intros [= <-]. destruct Hp as (Hcont & Ht & Hs). rewrite Ht, Hs in Ec. bool_facts.
      assert (Es : pk_sequence p = seq_after (pk_sequence q0) (q0 :: pkts)) by lia.
      split_and!; [|lia|].
      + apply (contiguous_snoc _ _ _ (q0 :: pkts)); try done.
      + unfold seq_after in *. cbn [length app] in *. rewrite length_app, Nat.add_1_r.
        rewrite Es. done. }
  destruct (pk_marker p) eqn:Em; cbn [negb].
  - destruct (bool_decide (pending_payload r ++ data = [])) eqn:Eb; [by apply Pending_idle|]. apply bool_decide_eq_false in Eb.
    cbn. split_and!; try done.
    + intros q Hq. by apply (Hc true).
    + by exists dep.
    + rewrite len_app. lia.
    + destruct (last_completed_timestamp r); [|done]. by apply negb_false_iff in En.
  - split; [|cbn; rewrite len_app; lia]. split; [done|]. destruct (pkts ++ [p]) as [|q l] eqn:El2; [by destruct pkts|].
    destruct (Hc false eq_refl q) as (H1 & H2 & H3); [done|].
    split_and!; cbn [pending_timestamp expected_sequence]; [done|congruence..].
Qed.

Inductive RtpEvent := EvPush (packet : Packet) (now : Z) | EvReset | EvRelease.

Definition rtp_event (r : RtpReassembler) (e : RtpEvent) : RtpReassembler :=
  match e with
  | EvPush packet now => (push_at packet now r).2
  | EvReset => reassembler_reset r
  | EvRelease => clear_for_endpoint_release r
  end.

Definition rtp_run (events : list RtpEvent) : RtpReassembler := foldl rtp_event reassembler_new events.

Lemma rtp_run_pending events :
  exists before pushes, events = before ++ (uncurry EvPush <$> pushes)
    /\ Pending pushes.*1 (rtp_run events)
    /\ len (pending_payload (rtp_run events)) <= MAX_ENCODED_VIDEO_FRAME_BYTES.
Proof.
  induction events as [|e events (before & pushes & E & HP & Hl)] using rev_ind; [by exists [], []|].
  unfold rtp_run in *. rewrite foldl_app. cbn. set (r := foldl rtp_event reassembler_new events) in *.
  assert (Hidle : forall r', Pending [] r' -> exists before0 pushes0,
            events ++ [e] = before0 ++ (uncurry EvPush <$> pushes0) /\ Pending pushes0.*1 r'
            /\ len (pending_payload r') <= MAX_ENCODED_VIDEO_FRAME_BYTES).
  { intros r' H. exists (events ++ [e]), []. cbn. rewrite app_nil_r. split_and!; try done.
    destruct H as [H _]. cbn in H. injection H as <- _. done. }
  destruct e as [p now| |]; cbn [rtp_event]; [|apply Hidle; by apply Pending_idle..].
  pose proof (push_pending _ p now r HP Hl) as H. destruct (push_at p now r) as [[[frame|]|err] r']; cbn.
  - apply Hidle, H.
  - destruct H as [H1 H2]. exists before, (pushes ++ [(p, now)]). rewrite E, !fmap_app. cbn. by rewrite (assoc (++)).
  - by apply Hidle.
Qed.

(** C30. A frame that comes out of the reassembler, whatever was pushed before,
    was put together from the packets pushed last, without any other in between:
    they have its timestamp, consecutive sequence numbers and well-formed
    payloads, and only the last has the marker; the frame is what the
    depacketizer makes of them from its initial state, not empty and within the
    size limit, and newer than the frame before it. *)
Theorem frames_from_unbroken_runs events packet now frame r' :
  push_at packet now (rtp_run events) = (Ok (Some frame), r') ->
  exists before pushes first,
    events = before ++ (uncurry EvPush <$> pushes)
    /\ let packets := pushes.*1 ++ [packet] in
       head packets = Some first
       /\ contiguous (vf_timestamp frame) (pk_sequence first) true packets
       /\ (exists d, depacketize_all packets depacketizer_default = Some (vf_payload frame, d))
       /\ vf_payload frame ≠ [] /\ len (vf_payload frame) <= MAX_ENCODED_VIDEO_FRAME_BYTES
       /\ vf_sequence frame = next_frame_sequence (rtp_run events)
       /\ match last_completed_timestamp (rtp_run events) with
          | Some t => is_newer_timestamp (vf_timestamp frame) t = true | None => True end
       /\ last_completed_timestamp r' = Some (vf_timestamp frame).
Proof.
  intros H. destruct (rtp_run_pending events) as (before & pushes & E & HP & Hl).
  pose proof (push_pending _ packet now _ HP Hl) as Hp. rewrite H in Hp.
  destruct Hp as (_ & Hc & Hd & Hne & Hlen & Ht & Hs & _ & Hn & Hlast).
  assert (Hh : exists first, head (pushes.*1 ++ [packet]) = Some first) by (destruct pushes; cbn; eauto).
  destruct Hh as [first Hh]. exists before, pushes, first. specialize (Hc first Hh).
  assert (Et : vf_timestamp frame = pk_timestamp first).
  { rewrite Ht. assert (Hin : packet ∈ pushes.*1 ++ [packet]) by set_solver. revert Hc Hin. clear.
    generalize (pushes.*1 ++ [packet]) as l, (pk_timestamp first) as t, (pk_sequence first) as sq. intros l t.
    induction l as [|q l IH]; intros sq Hc Hin; [set_solver|]. destruct Hc as (H1 & _ & _ & _ & _ & Hc).
    apply elem_of_cons in Hin as [->|Hin]; [done|]. by apply (IH (wrap 16 (sq + 1))). }
  rewrite Et in *. split; [done|]. intros packets. split_and!; try done. congruence.
Qed.

(** ** Whole frames *)

Fixpoint push_all (l : list Packet) (now : Z) (r : RtpReassembler) :
    list (result (option EncodedVideoFrame) RtpMediaError) * RtpReassembler :=
  match l with
  | [] => ([], r)
  | p :: l =>
    let '(o, r) := push_at p now r in
    let '(os, r) := push_all l now r in (o :: os, r)
  end.

Definition newer_than_last (timestamp : Z) (r : RtpReassembler) : Prop :=
  match last_completed_timestamp r with Some t => is_newer_timestamp timestamp t = true | None => True end.

(** An unbroken run that ends in a marker is delivered. *)
Lemma push_all_delivers l now timestamp sequence r out d :
  l ≠ [] -> contiguous timestamp sequence true l -> newer_than_last timestamp r ->
  (pending_timestamp r = None \/ (pending_timestamp r = Some timestamp /\ expected_sequence r = Some sequence)) ->
  depacketize_all l (depacketizer r) = Some (out, d) -> pending_payload r ++ out ≠ [] ->
  len (pending_payload r) + len out <= MAX_ENCODED_VIDEO_FRAME_BYTES ->
  exists r', push_all l now r
    = (replicate (length l - 1) (Ok None)
       ++ [Ok (Some (mkFrame H264 (next_frame_sequence r) timestamp (width r) (height r)
                       (contains_idr_nalu (pending_payload r ++ out)) (pending_payload r ++ out)
                       (now + RECEIVED_FRAME_TTL)))], r')
    /\ Pending [] r' /\ last_completed_timestamp r' = Some timestamp
    /\ next_frame_sequence r' = wrap 64 (next_frame_sequence r + 1) /\ width r' = width r /\ height r' = height r.
Proof.
  revert sequence r out. induction l as [|p l IH]; intros sequence r out Hne Hc Hn Hst Hd Hout Hlen; [done|].
  destruct Hc as (Ht & Hs & Hm & Hv & Hp & Hc). cbn in Hd.
  destruct (depacketize (pk_payload p) (depacketizer r)) as [[data|e] dep] eqn:Edep; [|done].
  destruct (depacketize_all l dep) as [[rest d2]|] eqn:Er; [|done]. injection Hd as <- <-.
  rewrite len_app in Hlen. pose proof (len_nonneg rest). pose proof (len_nonneg data).
  cbn [push_all]. unfold push_at at 1. rewrite Hv, Hp. cbn [negb orb Z.eqb Pos.eqb].
  rewrite Ht. unfold newer_than_last in Hn.
  replace (match last_completed_timestamp r with Some c => negb (is_newer_timestamp timestamp c) | None => false end) with false
    by (destruct (last_completed_timestamp r); [by rewrite Hn|done]).
  assert (Ec : packet_continues p r = true).
  { unfold packet_continues. destruct Hst as [->|[-> ->]]; [done|]. rewrite Ht, Hs, !Z.eqb_refl. done. }
  rewrite Ec, Edep. cbn [negb]. rewrite (proj2 (Z.ltb_ge _ _)) by lia. rewrite Hm. cbn [andb].
  destruct l as [|q l].
  - rewrite bool_decide_eq_true_2 by done. cbn [negb]. cbn in Er. injection Er as <- <-. rewrite app_nil_r in *.
    rewrite bool_decide_eq_false_2 by done. cbn [push_all length Nat.sub replicate app]. eexists. by split_and!.
  - rewrite bool_decide_eq_false_2 by done. cbn [negb].
    destruct (IH (wrap 16 (sequence + 1))
                (mkReassembler dep (pending_payload r ++ data) (Some timestamp) (Some (wrap 16 (pk_sequence p + 1)))
                   (last_completed_timestamp r) (next_frame_sequence r) (width r) (height r)) rest)
      as (r' & E & HP & HL); try done.
    + right. by rewrite Hs.
    + cbn. by rewrite <- (assoc (++)).
    + cbn. rewrite len_app. lia.
    + cbn [pending_payload next_frame_sequence width height] in E. rewrite <- (assoc (++)) in E. rewrite E. exists r'. split; [|done]. cbn [length Nat.sub]. rewrite Nat.sub_0_r. done.
Qed.

Lemma number_packets_contiguous payloads sequence timestamp p :
  Forall (fun data => is_valid_h264_payload data = true) payloads ->
  contiguous timestamp sequence true (number_packets payloads sequence timestamp p).
Proof.
  revert sequence. induction payloads as [|data rest IH]; intros sequence H; cbn [number_packets contiguous]; [done|].
  apply Forall_cons in H as [Hd Hr]. split_and!; try done; [|by apply IH].
  cbn [pk_marker andb]. destruct rest; [done|]. by rewrite !bool_decide_eq_false_2.
Qed.

Lemma number_packets_payloads payloads sequence timestamp p :
  pk_payload <$> number_packets payloads sequence timestamp p = payloads.
Proof. revert sequence. induction payloads as [|data rest IH]; intros sequence; cbn; [done|]. by rewrite IH. Qed.

(** The packets carry the payloads the format made of the access unit. *)
Lemma packetize_packets frame p packets p' :
  packetize frame p = (Ok packets, p') ->
  packets ≠ [] /\ exists payloads pl q,
    payload (mtu p - RTP_HEADER_BYTES) (vf_payload frame) (payloader p) = (Ok payloads, pl)
    /\ packets = number_packets payloads (next_sequence_number p) (vf_timestamp frame) q
    /\ next_sequence_number p' = wrap 16 (next_sequence_number p + len payloads)
    /\ 0 < len payloads /\ vf_timestamp frame <= u32_max.
Proof.
  unfold packetize. destruct (_ <=? _); [done|]. destruct (negb (bool_decide _)); [done|]. destruct (_ || _ || _); [done|].
  destruct (u32_max <? vf_timestamp frame) eqn:Et; [done|]. bool_facts.
  destruct (payload _ _ _) as [[payloads|e] pl] eqn:Ep; [|done]. destruct payloads as [|d rest]; [done|].
  intros [= <- <-]. split; [done|]. exists (d :: rest), pl, (mkPacketizer (mtu p) (payload_type p) (ssrc p) (next_sequence_number p) pl).
  split_and!; try done.
Qed.

(** The packets of a frame, pushed in order into a reassembler that has
    nothing pending and has seen no newer frame, give nothing until the last,
    which gives one frame with the sender's timestamp and the bytes that the
    H.264 format makes of its own payloads. *)
Lemma rtp_round_trip frame p packets p' now r out d :
  packetize frame p = (Ok packets, p') ->
  Forall (fun q => is_valid_h264_payload (pk_payload q) = true) packets ->
  depacketize_all packets depacketizer_default = Some (out, d) ->
  out ≠ [] -> len out <= MAX_ENCODED_VIDEO_FRAME_BYTES ->
  Pending [] r -> newer_than_last (vf_timestamp frame) r ->
  exists r', push_all packets now r
    = (replicate (length packets - 1) (Ok None)
       ++ [Ok (Some (mkFrame H264 (next_frame_sequence r) (vf_timestamp frame) (width r) (height r)
                       (contains_idr_nalu out) out (now + RECEIVED_FRAME_TTL)))], r')
    /\ Pending [] r' /\ last_completed_timestamp r' = Some (vf_timestamp frame).
Proof.
  intros Hpk Hv Hd Hne Hlen [HP [Ht _]] Hn. destruct (packetize_packets _ _ _ _ Hpk) as (Hnil & payloads & pl & q & _ & -> & _).
  cbn in HP. injection HP as Hpp Hdd.
  pose proof (push_all_delivers (number_packets payloads (next_sequence_number p) (vf_timestamp frame) q) now
                (vf_timestamp frame) (next_sequence_number p) r out d Hnil) as H. rewrite <- Hpp, <- Hdd in H.
  destruct H as (r' & H & HP & HL & _); try done; [|by left|by exists r'].
  apply number_packets_contiguous. rewrite <- (number_packets_payloads payloads (next_sequence_number p) (vf_timestamp frame) q).
  by apply Forall_fmap.
Qed.

(** Losing the first packets of a frame is not seen: what follows is delivered
    as a frame of its own. *)
Lemma front_loss_undetected lost packets now timestamp sequence r out d :
  contiguous timestamp sequence true (lost ++ packets) -> packets ≠ [] ->
  depacketize_all packets depacketizer_default = Some (out, d) ->
  out ≠ [] -> len out <= MAX_ENCODED_VIDEO_FRAME_BYTES ->
  Pending [] r -> newer_than_last timestamp r ->
  exists r' os, push_all packets now r = (os ++ [Ok (Some (mkFrame H264 (next_frame_sequence r) timestamp
                  (width r) (height r) (contains_idr_nalu out) out (now + RECEIVED_FRAME_TTL)))], r').
Proof.
  intros Hc Hnil Hd Hne Hlen [HP [Ht _]] Hn. cbn in HP. injection HP as Hpp Hdd.
  assert (Hcp : exists sq, contiguous timestamp sq true packets).
  { clear -Hc. revert sequence Hc. induction lost as [|q lost IH]; intros sequence Hc; [by exists sequence|].
    destruct Hc as (_ & _ & _ & _ & _ & Hc). by eapply IH. }
  destruct Hcp as [sq Hcp]. pose proof (push_all_delivers packets now timestamp sq r out d Hnil Hcp Hn) as H.
  rewrite <- Hpp, <- Hdd in H. destruct H as (r' & E & _); try done; [by left|]. eauto.
Qed.
End Rtp.

(** ** A format

    Each NAL unit in a packet of its own, as RFC 6184 has it for units that fit;
    units are cut at four-byte start codes. *)
Fixpoint cut_units (l : bytes) : bytes * list bytes :=
  match l with
  | [] => ([], [])
  | b :: rest =>
    if starts_with CODE4 l then
      let '(u, us) := cut_units rest in ([], drop 3 u :: us)
    else let '(u, us) := cut_units rest in (b :: u, us)
  end.

#[local] Instance single_units : H264Format := {|
  Payloader := unit;
  payloader_default := tt;
  payload := fun _ data st => (Ok (cut_units data).2, st);
  Depacketizer := unit;
  depacketizer_default := tt;
  depacketize := fun data st => (Ok (CODE4 ++ data), st);
  NALU_TYPE_BITMASK := 31;
  FUA_NALU_TYPE := 28;
  FUA_HEADER_SIZE := 2;
  STAPA_NALU_TYPE := 24;
  STAPA_NALU_LENGTH_SIZE := 2;
|}.

(** A parameter set and a picture. *)
Definition two_units : bytes :=
  CODE4 ++ [Byte.x67; Byte.x01] ++ CODE4 ++ [Byte.x65; Byte.x02; Byte.x03].
Definition two_unit_frame : EncodedVideoFrame := mkFrame H264 7 90000 640 480 true two_units 1000.

Lemma two_units_cut : is_valid_annex_b two_units = true /\ (cut_units two_units).2 = [[Byte.x67; Byte.x01]; [Byte.x65; Byte.x02; Byte.x03]].
Proof. by vm_compute. Qed.

Definition example_packets : list Packet :=
  default [] (match (packetize two_unit_frame (packetizer_new 1200 102 5 65535)).1 with Ok l => Some l | Err _ => None end).

(** Witness for C30. *)
Lemma frames_from_unbroken_runs_witness :
  exists before pushes first,
    [EvReset; EvPush (nth 0 example_packets (mkPacket 0 false 0 0 0 0 [])) 1] = before ++ (uncurry EvPush <$> pushes)
    /\ head (pushes.*1 ++ [nth 1 example_packets (mkPacket 0 false 0 0 0 0 [])]) = Some first.
Proof.
  destruct (frames_from_unbroken_runs [EvReset; EvPush (nth 0 example_packets (mkPacket 0 false 0 0 0 0 [])) 1]
              (nth 1 example_packets (mkPacket 0 false 0 0 0 0 [])) 2
              (mkFrame H264 0 90000 1920 1080 true two_units (2 + RECEIVED_FRAME_TTL))
              (mkReassembler depacketizer_default [] None None (Some 90000) 1 1920 1080)) as (before & pushes & first & H1 & H2 & _).
  - vm_compute. reflexivity.
  - exists before, pushes, first. split; assumption.
Defined.

(** The second packet of the frame alone, after the first was lost, is delivered
    as a complete keyframe without its parameter set. *)
Lemma front_loss_example :
  (push_at (nth 1 example_packets (mkPacket 0 false 0 0 0 0 [])) 2 reassembler_new).1
  = Ok (Some (mkFrame H264 0 90000 1920 1080 true (CODE4 ++ [Byte.x65; Byte.x02; Byte.x03]) (2 + RECEIVED_FRAME_TTL))).
Proof. vm_compute. reflexivity. Qed.
