(* ===== verification/ScreenVideo.v ===== *)
(** * The screen video of a WebRTC peer

    Models [network-webrtc/src/media/video.rs] with the signaling states of
    [signaling.rs]: the two queues, the packetizer and reassembler of a peer's
    screen track, the accounting of lost packets and jitter, keyframe requests
    and the adaptation target.  What the [rtc] package answers (whether it has
    the sender or receiver, and whether a packet could be written) is an
    argument. *)
From S2P Require Import Prelude VideoQueue Rtp.

(** ** Signaling ([signaling.rs]) *)

Inductive SignalingState :=
| SigNew | SigLocalOffer | SigRemoteOffer | SigLocalAnswer | SigConnected | SigRestarting | SigClosed.

#[export] Instance SignalingState_eq_dec : EqDecision SignalingState.
Proof. solve_decision. Defined.

Inductive SignalingError :=
| EmptyDescription | DescriptionTooLarge | InvalidDescription | CandidateTooLarge | InvalidCandidate
| InvalidTransition (state : SignalingState).

Inductive DescriptionType := Offer | Answer.

Record SessionDescription := mkDescription { sd_kind : DescriptionType; sd_sdp : string }.

Definition MAX_SDP_BYTES : Z := 256 * 1024.
Definition MAX_ICE_CANDIDATE_BYTES : Z := 8 * 1024.

(** [SessionDescription::new] *)
Definition description_new (kind : DescriptionType) (sdp : string) : result SessionDescription SignalingError :=
  if bool_decide (sdp = EmptyString) then Err EmptyDescription
  else if MAX_SDP_BYTES <? slen sdp then Err DescriptionTooLarge
  else if negb (String.prefix "v=0" sdp) then Err InvalidDescription
  else Ok (mkDescription kind sdp).

(** [IceCandidate::new] with the candidate line alone. *)
Definition candidate_new (candidate : string) : result string SignalingError :=
  if MAX_ICE_CANDIDATE_BYTES <? slen candidate then Err CandidateTooLarge
  else if negb (bool_decide (candidate = EmptyString)) && negb (String.prefix "candidate:" candidate)
  then Err InvalidCandidate
  else Ok candidate.

Record SignalingStateMachine := mkSignaling { sg_state : SignalingState; sg_revision : Z }.

Definition signaling_default : SignalingStateMachine := mkSignaling SigNew 0.

Definition transition (allowed : list SignalingState) (next : SignalingState) (m : SignalingStateMachine) :
    result unit SignalingError * SignalingStateMachine :=
  if bool_decide (sg_state m ∈ allowed)
  then (Ok tt, mkSignaling next (saturating_add u64_max (sg_revision m) 1))
  else (Err (InvalidTransition (sg_state m)), m).

Definition local_offer (m : SignalingStateMachine) : result unit SignalingError * SignalingStateMachine :=
  transition [SigNew; SigConnected; SigRestarting] SigLocalOffer m.
Definition remote_offer (m : SignalingStateMachine) : result unit SignalingError * SignalingStateMachine :=
  transition [SigNew; SigConnected; SigRestarting; SigLocalAnswer] SigRemoteOffer m.
Definition local_answer (m : SignalingStateMachine) : result unit SignalingError * SignalingStateMachine :=
  transition [SigRemoteOffer] SigLocalAnswer m.
Definition remote_answer (m : SignalingStateMachine) : result unit SignalingError * SignalingStateMachine :=
  transition [SigLocalOffer] SigConnected m.
Definition restart (m : SignalingStateMachine) : result unit SignalingError * SignalingStateMachine :=
  if decide (sg_state m = SigClosed) then (Err (InvalidTransition SigClosed), m)
  else (Ok tt, mkSignaling SigRestarting (saturating_add u64_max (sg_revision m) 1)).
Definition signaling_close (m : SignalingStateMachine) : SignalingStateMachine :=
  mkSignaling SigClosed (sg_revision m).

(** ** The state of the screen track *)

Definition H264_RTP_PAYLOAD_TYPE : Z := 102.
Definition H264_RTP_MTU : Z := 1200.
Definition MIN_PLI_INTERVAL : Z := from_secs 1.
Definition RTP_REORDER_WINDOW : Z := 128.

Inductive H264AdaptationReason := Steady | Congestion | Recovery.

Record H264AdaptationTarget := mkTarget {
  bitrate_kbps : Z;
  framerate : Z;
  target_width : Z;
  target_height : Z;
  target_reason : H264AdaptationReason;
}.

Definition MIN_BITRATE_KBPS : Z := 256.
Definition MAX_BITRATE_KBPS : Z := 3 * 1024.
Definition MIN_FRAMERATE : Z := 5.
Definition MAX_FRAMERATE : Z := 30.

Definition target_is_valid (t : H264AdaptationTarget) : bool :=
  let dimensions_valid :=
    ((target_width t =? 0) && (target_height t =? 0))
    || ((0 <? target_width t) && (0 <? target_height t)
        && (target_width t <=? MAX_SCREEN_VIDEO_WIDTH) && (target_height t <=? MAX_SCREEN_VIDEO_HEIGHT)) in
  (MIN_BITRATE_KBPS <=? bitrate_kbps t) && (bitrate_kbps t <=? MAX_BITRATE_KBPS)
  && (MIN_FRAMERATE <=? framerate t) && (framerate t <=? MAX_FRAMERATE) && dimensions_valid.

Inductive WebRtcError :=
| InvalidConfiguration | RtcError (error : string) | ScreenVideoAlreadyConfigured
| ScreenVideoNotConfigured | ScreenVideoNotReady | SignalingErr (error : SignalingError)
| IoError (error : string)
| VideoFrameErr (error : VideoFrameError) | RtpMediaErr (error : RtpMediaError).

Inductive MediaDirection := Sendrecv | Sendonly | Recvonly.

(** What is counted about the packets that arrive: the extended sequence
    numbers, those lost for good, and the interarrival jitter. *)
Record InboundCounters := mkInbound {
  packets_received : Z;
  packets_lost : Z;
  highest_inbound : option Z;
  finalized_inbound : option Z;
  received_sequences : gset Z;
  last_inbound_timestamp : option Z;
  last_inbound_arrival : option Z;
  jitter_rtp_units : Z;
}.

(** [sequence.wrapping_sub(highest as u16) as i16] *)
Definition i16_delta (sequence highest : Z) : Z :=
  let d := wrap 16 (sequence - wrap 16 highest) in if d <? 2 ^ 15 then d else d - 2 ^ 16.

Definition extend_inbound_sequence (sequence : Z) (c : InboundCounters) : Z :=
  match highest_inbound c with
  | None => sequence
  | Some highest =>
    let delta := i16_delta sequence highest in
    if 0 <=? delta then saturating_add u64_max highest delta else saturating_sub highest (- delta)
  end.

(** The packets of a range that are finalized: counted as lost unless received. *)
Definition finalize (highest finalized : Z) (received : gset Z) (lost : Z) : Z * gset Z * Z :=
  let lower_bound := saturating_sub highest RTP_REORDER_WINDOW in
  let finalize_through := saturating_sub lower_bound 1 in
  if finalized <? finalize_through then
    let start := saturating_add u64_max finalized 1 in
    let expected := saturating_add u64_max (saturating_sub finalize_through start) 1 in
    let got := Z.of_nat (size (filter (fun s => start <= s <= finalize_through) received)) in
    (finalize_through,
     if finalize_through =? u64_max then ∅
     else filter (fun s => saturating_add u64_max finalize_through 1 <= s) received,
     saturating_add u64_max lost (saturating_sub expected got))
  else (finalized, received, lost).

Definition observe_sequence (sequence : Z) (c : InboundCounters) : InboundCounters :=
  let extended := extend_inbound_sequence sequence c in
  match highest_inbound c, finalized_inbound c with
  | Some highest, Some finalized =>
    let highest := if highest <? extended then extended else highest in
    let received := if finalized <? extended then {[extended]} ∪ received_sequences c else received_sequences c in
    let '(finalized, received, lost) := finalize highest finalized received (packets_lost c) in
    mkInbound (packets_received c) lost (Some highest) (Some finalized) received
      (last_inbound_timestamp c) (last_inbound_arrival c) (jitter_rtp_units c)
  | _, _ =>
    mkInbound (packets_received c) (packets_lost c) (Some extended) (Some extended)
      ({[extended]} ∪ received_sequences c)
      (last_inbound_timestamp c) (last_inbound_arrival c) (jitter_rtp_units c)
  end.

(** The interarrival jitter of RFC 3550, in 90 kHz units. *)
Definition next_jitter (jitter absolute_delta : Z) : Z :=
  if jitter <=? absolute_delta then saturating_add u64_max jitter ((absolute_delta - jitter) / 16)
  else saturating_sub jitter (saturating_add u64_max (jitter - absolute_delta) 15 / 16).

Definition observe_timing (timestamp now : Z) (c : InboundCounters) : InboundCounters :=
  let set ts arrival jitter :=
    mkInbound (packets_received c) (packets_lost c) (highest_inbound c) (finalized_inbound c)
      (received_sequences c) (Some ts) (Some arrival) jitter in
  match last_inbound_timestamp c, last_inbound_arrival c with
  | Some previous_timestamp, Some previous_arrival =>
    let timestamp_delta := wrap 32 (timestamp - previous_timestamp) in
    if (0 <? timestamp_delta) && (timestamp_delta <=? u32_max / 2) then
      let ticks := Z.min (2 ^ 128 - 1) (saturating_sub now previous_arrival * 90000) / 1000000000 in
      let arrival_ticks := Z.min ticks u64_max in
      set timestamp now (next_jitter (jitter_rtp_units c) (Z.abs (arrival_ticks - timestamp_delta)))
    else c
  | _, _ => set timestamp now (jitter_rtp_units c)
  end.

Definition observe_inbound_packet (packet : Packet) (now : Z) (c : InboundCounters) : InboundCounters :=
  let c := mkInbound (saturating_add u64_max (packets_received c) 1) (packets_lost c) (highest_inbound c)
             (finalized_inbound c) (received_sequences c) (last_inbound_timestamp c)
             (last_inbound_arrival c) (jitter_rtp_units c) in
  observe_timing (pk_timestamp packet) now (observe_sequence (pk_sequence packet) c).

Definition reset_inbound_timing (c : InboundCounters) : InboundCounters :=
  mkInbound (packets_received c) (packets_lost c) None None ∅ None None 0.
Definition reset_inbound_endpoint (c : InboundCounters) : InboundCounters :=
  mkInbound (packets_received c) 0 None None ∅ None None 0.

Definition jitter_ms (c : InboundCounters) : Z := Z.min u64_max (jitter_rtp_units c * 1000) / 90000.

Section Screen.
Context {HF : H264Format}.

Record H264ScreenVideo := mkScreen {
  sender_id : option Z;
  outbound : VideoQueue;
  inbound : VideoQueue;
  packetizer : option RtpPacketizer;
  reassembler : RtpReassembler;
  accepts_inbound : bool;
  inbound_track_id : option string;
  inbound_receiver_id : option Z;
  inbound_media_ssrc : option Z;
  adaptation_target : H264AdaptationTarget;
  packets_sent : Z;
  counters_in : InboundCounters;
  frames_recovered : Z;
  recovery_pending : bool;
  last_pli_emit : option Z;
}.

Definition screen_new (sender : option Z) (ssrc : option Z) (accepts : bool) : H264ScreenVideo :=
  mkScreen sender queue_new queue_new
    ((fun s => packetizer_new H264_RTP_MTU H264_RTP_PAYLOAD_TYPE s (wrap 16 (wrap 16 s + 1))) <$> ssrc)
    reassembler_new accepts None None None
    (mkTarget MAX_BITRATE_KBPS MAX_FRAMERATE 0 0 Steady)
    0 (mkInbound 0 0 None None ∅ None None 0) 0 false None.

(** [WebRtcPeer::configure_h264_screen_video] on the [screen_video] of a peer.
    [transceiver]: whether the [rtc] peer added the transceiver; [last_sender]:
    the last sender it then has.  The operations below are on a configured
    screen video; on a peer without one those of the code that can fail return
    [ScreenVideoNotConfigured] and the others do nothing. *)
Definition configure_h264_screen_video (direction : MediaDirection) (ssrc : option Z)
    (transceiver : result unit string) (last_sender : option Z) (video : option H264ScreenVideo) :
    result unit WebRtcError * option H264ScreenVideo :=
  match video with
  | Some _ => (Err ScreenVideoAlreadyConfigured, video)
  | None =>
    let sends := match direction with Sendonly | Sendrecv => true | Recvonly => false end in
    let accepts := match direction with Recvonly | Sendrecv => true | Sendonly => false end in
    if negb (Bool.eqb sends (bool_decide (is_Some ssrc))) then (Err InvalidConfiguration, None)
    else
      match transceiver with
      | Err e => (Err (RtcError e), None)
      | Ok _ =>
        if sends then
          match last_sender with
          | None => (Err (RtcError "screen-video RTP sender was not created"), None)
          | Some id => (Ok tt, Some (screen_new (Some id) ssrc accepts))
          end
        else (Ok tt, Some (screen_new None ssrc accepts))
      end
  end.

Definition set_outbound (q : VideoQueue) (v : H264ScreenVideo) : H264ScreenVideo :=
  mkScreen (sender_id v) q (inbound v) (packetizer v) (reassembler v) (accepts_inbound v) (inbound_track_id v)
    (inbound_receiver_id v) (inbound_media_ssrc v) (adaptation_target v) (packets_sent v) (counters_in v)
    (frames_recovered v) (recovery_pending v) (last_pli_emit v).
Definition set_inbound (q : VideoQueue) (v : H264ScreenVideo) : H264ScreenVideo :=
  mkScreen (sender_id v) (outbound v) q (packetizer v) (reassembler v) (accepts_inbound v) (inbound_track_id v)
    (inbound_receiver_id v) (inbound_media_ssrc v) (adaptation_target v) (packets_sent v) (counters_in v)
    (frames_recovered v) (recovery_pending v) (last_pli_emit v).
Definition set_sending (p : option RtpPacketizer) (sent : Z) (v : H264ScreenVideo) : H264ScreenVideo :=
  mkScreen (sender_id v) (outbound v) (inbound v) p (reassembler v) (accepts_inbound v) (inbound_track_id v)
    (inbound_receiver_id v) (inbound_media_ssrc v) (adaptation_target v) sent (counters_in v)
    (frames_recovered v) (recovery_pending v) (last_pli_emit v).
Definition set_track (track : option string) (receiver ssrc : option Z) (v : H264ScreenVideo) : H264ScreenVideo :=
  mkScreen (sender_id v) (outbound v) (inbound v) (packetizer v) (reassembler v) (accepts_inbound v) track
    receiver ssrc (adaptation_target v) (packets_sent v) (counters_in v)
    (frames_recovered v) (recovery_pending v) (last_pli_emit v).
Definition set_receiving (r : RtpReassembler) (c : InboundCounters) (v : H264ScreenVideo) : H264ScreenVideo :=
  mkScreen (sender_id v) (outbound v) (inbound v) (packetizer v) r (accepts_inbound v) (inbound_track_id v)
    (inbound_receiver_id v) (inbound_media_ssrc v) (adaptation_target v) (packets_sent v) c
    (frames_recovered v) (recovery_pending v) (last_pli_emit v).
Definition set_recovery (recovered : Z) (pending : bool) (v : H264ScreenVideo) : H264ScreenVideo :=
  mkScreen (sender_id v) (outbound v) (inbound v) (packetizer v) (reassembler v) (accepts_inbound v)
    (inbound_track_id v) (inbound_receiver_id v) (inbound_media_ssrc v) (adaptation_target v) (packets_sent v)
    (counters_in v) recovered pending (last_pli_emit v).
Definition set_pli (last : option Z) (v : H264ScreenVideo) : H264ScreenVideo :=
  mkScreen (sender_id v) (outbound v) (inbound v) (packetizer v) (reassembler v) (accepts_inbound v)
    (inbound_track_id v) (inbound_receiver_id v) (inbound_media_ssrc v) (adaptation_target v) (packets_sent v)
    (counters_in v) (frames_recovered v) (recovery_pending v) last.
Definition set_target (t : H264AdaptationTarget) (v : H264ScreenVideo) : H264ScreenVideo :=
  mkScreen (sender_id v) (outbound v) (inbound v) (packetizer v) (reassembler v) (accepts_inbound v)
    (inbound_track_id v) (inbound_receiver_id v) (inbound_media_ssrc v) t (packets_sent v) (counters_in v)
    (frames_recovered v) (recovery_pending v) (last_pli_emit v).

Definition on_ice_restart (v : H264ScreenVideo) : H264ScreenVideo :=
  set_outbound (request_keyframe ReasonIceRestart (outbound v)) v.

Definition on_connection_lost (v : H264ScreenVideo) : H264ScreenVideo :=
  let v := set_inbound (on_disconnect (inbound v)) (set_outbound (on_disconnect (outbound v)) v) in
  let v := set_track None None None v in
  let v := set_receiving (reassembler_reset (reassembler v)) (reset_inbound_timing (counters_in v)) v in
  set_pli None (set_recovery (frames_recovered v) (accepts_inbound v) v).

Definition mark_recovery_needed (v : H264ScreenVideo) : H264ScreenVideo :=
  set_inbound (request_keyframe ReasonPacketLoss (inbound v)) (set_recovery (frames_recovered v) true v).

(** ** Sending *)

Definition enqueue_h264_screen_video (frame : EncodedVideoFrame) (now : Z) (v : H264ScreenVideo) :
    result VideoEnqueueResult WebRtcError * H264ScreenVideo :=
  match sender_id v with
  | None => (Err ScreenVideoNotConfigured, v)
  | Some _ =>
    let '(r, q) := enqueue frame now (outbound v) in (map_err VideoFrameErr r, set_outbound q v)
  end.

(** The packets of one frame, written until a write fails.  [write_rtp] is what the
    [rtc] sender answers for a packet; [wire] holds the packets it accepted. *)
Fixpoint write_packets (write_rtp : Packet -> result unit string) (l : list Packet) (v : H264ScreenVideo)
    (wire : list Packet) : result Z WebRtcError * H264ScreenVideo * list Packet :=
  match l with
  | [] => (Ok 0, v, wire)
  | p :: l =>
    match write_rtp p with
    | Err e => (Err (RtcError e), v, wire)
    | Ok _ =>
      let v := set_sending (packetizer v) (saturating_add u64_max (packets_sent v) 1) v in
      match write_packets write_rtp l v (wire ++ [p]) with
      | (Ok n, v, wire) => (Ok (n + 1), v, wire)
      | (Err e, v, wire) => (Err e, v, wire)
      end
    end
  end.

(** The loop of [flush_h264_screen_video]; every turn takes a frame from the
    queue.  [sender]: the [rtc] peer has the sender.  [None] when the fuel runs
    out. *)
Fixpoint flush_loop (fuel : nat) (sender : bool) (write_rtp : Packet -> result unit string) (now : Z)
    (v : H264ScreenVideo) (wire : list Packet) :
    option (result Z WebRtcError * H264ScreenVideo * list Packet) :=
  match fuel with
  | O => None
  | S fuel =>
    match pop now (outbound v) with
    | (None, q) => Some (Ok 0, set_outbound q v, wire)
    | (Some frame, q) =>
      let v := set_outbound q v in
      match packetizer v with
      | None => Some (Err ScreenVideoNotConfigured, v, wire)
      | Some pz =>
        let '(r, pz) := packetize frame pz in
        let v := set_sending (Some pz) (packets_sent v) v in
        match r with
        | Err e => Some (Err (RtpMediaErr e), v, wire)
        | Ok packets =>
          if negb sender then Some (Err ScreenVideoNotConfigured, v, wire)
          else
            match write_packets write_rtp packets v wire with
            | (Err e, v, wire) => Some (Err e, v, wire)
            | (Ok n, v, wire) =>
              match flush_loop fuel sender write_rtp now v wire with
              | Some (Ok k, v, wire) => Some (Ok (n + k), v, wire)
              | other => other
              end
            end
        end
      end
    end
  end.

Definition flush_h264_screen_video (signaling : SignalingStateMachine) (sender : bool)
    (write_rtp : Packet -> result unit string) (now : Z) (v : H264ScreenVideo) (wire : list Packet) :
    result Z WebRtcError * H264ScreenVideo * list Packet :=
  match sender_id v with
  | None => (Err ScreenVideoNotConfigured, v, wire)
  | Some _ =>
    if negb (bool_decide (sg_state signaling = SigConnected)) then (Err ScreenVideoNotReady, v, wire)
    else default (Ok 0, v, wire) (flush_loop (S (length (frames (outbound v)))) sender write_rtp now v wire)
  end.

Definition flush_pending_h264_screen_video (signaling : SignalingStateMachine) (sender : bool)
    (write_rtp : Packet -> result unit string) (now : Z) (v : H264ScreenVideo) (wire : list Packet) :
    result Z WebRtcError * H264ScreenVideo * list Packet :=
  if bool_decide (sender_id v = None) || negb (bool_decide (sg_state signaling = SigConnected))
  then (Ok 0, v, wire)
  else flush_h264_screen_video signaling sender write_rtp now v wire.

(** ** Receiving *)

Definition receive_h264_screen_video_rtp_inner (packet : Packet) (now : Z) (v : H264ScreenVideo) :
    result unit WebRtcError * H264ScreenVideo :=
  if negb (accepts_inbound v) then (Err ScreenVideoNotConfigured, v)
  else if match inbound_media_ssrc v with Some s => negb (s =? pk_ssrc packet) | None => false end
  then (Ok tt, v)
  else
    let v := set_track (inbound_track_id v) (inbound_receiver_id v)
               (Some (default (pk_ssrc packet) (inbound_media_ssrc v))) v in
    let counters := observe_inbound_packet packet now (counters_in v) in
    let '(r, rs) := push_at packet now (reassembler v) in
    let v := set_receiving rs counters v in
    match r with
    | Ok None => (Ok tt, v)
    | Ok (Some frame) =>
      let '(e, q) := enqueue frame now (inbound v) in
      let v := set_inbound q v in
      match e with
      | Ok Accepted | Ok (AcceptedAfterDropping _) =>
        (Ok tt, if recovery_pending v && vf_keyframe frame
                then set_recovery (saturating_add u64_max (frames_recovered v) 1) false v else v)
      | Ok _ => (Ok tt, v)
      | Err InvalidAccessUnit =>
        (Ok tt, mark_recovery_needed (set_receiving (reassembler_reset (reassembler v)) (counters_in v) v))
      | Err error => (Err (VideoFrameErr error), v)
      end
    | Err (MalformedPayload | StaleOrDiscontinuous | ReassembledFrameTooLarge) =>
      (Ok tt, mark_recovery_needed (set_receiving (reassembler_reset (reassembler v)) (counters_in v) v))
    | Err error => (Err (RtpMediaErr error), v)
    end.

Definition receive_h264_screen_video_rtp_for_track (track_id : string) (packet : Packet) (now : Z)
    (v : H264ScreenVideo) : result unit WebRtcError * H264ScreenVideo :=
  if bool_decide (inbound_track_id v = Some track_id)
  then receive_h264_screen_video_rtp_inner packet now v else (Ok tt, v).

Inductive TrackEvent :=
| TrackOpen (track_id : string) (receiver_id : Z) (is_h264 : bool)
| TrackGone (track_id : string).

Definition observe_screen_video_event (event : TrackEvent) (v : H264ScreenVideo) : H264ScreenVideo :=
  match event with
  | TrackOpen track_id receiver_id is_h264 =>
    if is_h264 then set_track (Some track_id) (Some receiver_id) None v else v
  | TrackGone track_id =>
    if bool_decide (inbound_track_id v = Some track_id) then
      let v := set_track None None None v in
      let v := set_receiving (reassembler_reset (reassembler v)) (reset_inbound_timing (counters_in v)) v in
      set_recovery (frames_recovered v) (accepts_inbound v) v
    else v
  end.

Definition pop_remote_h264_screen_video (now : Z) (v : H264ScreenVideo) :
    option EncodedVideoFrame * H264ScreenVideo :=
  let '(frame, q) := pop now (inbound v) in (frame, set_inbound q v).

Definition reset_h264_screen_video_decoder (v : H264ScreenVideo) : H264ScreenVideo :=
  let v := set_receiving (reassembler_reset (reassembler v)) (counters_in v) v in
  set_recovery (frames_recovered v) true (set_inbound (on_decoder_reset (inbound v)) v).

(** ** Keyframe requests *)

Definition request_h264_screen_video_keyframe (direction : MediaDirection) (v : H264ScreenVideo) :
    H264ScreenVideo :=
  let out v := set_outbound (request_keyframe ReasonPacketLoss (outbound v)) v in
  let into v := set_inbound (request_keyframe ReasonPacketLoss (inbound v)) v in
  match direction with
  | Sendonly => out v
  | Recvonly => into v
  | Sendrecv => into (out v)
  end.

(** [receiver]: the [rtc] peer still has the receiver; [written]: the RTCP packet
    could be written.  The result tells whether a request was sent. *)
Definition flush_h264_screen_video_keyframe_requests (now : Z) (receiver written : bool)
    (v : H264ScreenVideo) : bool * H264ScreenVideo :=
  let '(pending, q) := take_keyframe_request (inbound v) in
  match pending with
  | None => (false, set_inbound q v)
  | Some reason =>
    let v := set_inbound q v in
    let again := (false, set_inbound (request_keyframe reason (inbound v)) v) in
    match inbound_media_ssrc v with
    | None => again
    | Some _ =>
      if match last_pli_emit v with
         | Some last => saturating_sub now last <? MIN_PLI_INTERVAL
         | None => false
         end then again
      else
        match inbound_receiver_id v with
        | None => again
        | Some _ => if receiver && written then (true, set_pli (Some now) v) else again
        end
    end
  end.

Definition take_h264_screen_video_keyframe_request (v : H264ScreenVideo) :
    option KeyframeRequestReason * H264ScreenVideo :=
  match take_keyframe_request (outbound v) with
  | (Some reason, q) => (Some reason, set_outbound q v)
  | (None, q) =>
    let '(reason, qi) := take_keyframe_request (inbound v) in
    (reason, set_inbound qi (set_outbound q v))
  end.

Definition apply_h264_screen_video_adaptation (target : H264AdaptationTarget) (v : H264ScreenVideo) :
    result unit WebRtcError * H264ScreenVideo :=
  if negb (target_is_valid target) then (Err InvalidConfiguration, v)
  else
    match sender_id v with
    | None => (Err ScreenVideoNotConfigured, v)
    | Some _ => (Ok tt, set_target target v)
    end.

Definition h264_screen_video_adaptation (v : H264ScreenVideo) : option H264AdaptationTarget :=
  match sender_id v with Some _ => Some (adaptation_target v) | None => None end.

Definition clear_h264_screen_video (direction : MediaDirection) (v : H264ScreenVideo) : H264ScreenVideo :=
  let out v := set_outbound (clear (outbound v)) v in
  let into v :=
    let v := set_inbound (clear (inbound v)) v in
    let v := set_receiving (clear_for_endpoint_release (reassembler v))
               (reset_inbound_endpoint (counters_in v)) v in
    set_recovery (frames_recovered v) false v in
  match direction with
  | Sendonly => out v
  | Recvonly => into v
  | Sendrecv => into (out v)
  end.

(** ** Statistics *)

Record H264ScreenVideoStats := mkScreenStats {
  st_enqueued : Z;
  st_dequeued : Z;
  st_dropped : Z;
  st_keyframe_requests : Z;
  st_packets_sent : Z;
  st_packets_received : Z;
  st_packets_lost : Z;
  st_frames_recovered : Z;
  st_jitter_ms : Z;
  st_rtt_ms : Z;
  st_queue_depth : Z;
  st_queue_capacity : Z;
}.

Definition from_direction (v : H264ScreenVideo) (queue : VideoQueue) (send : bool) : H264ScreenVideoStats :=
  let s := stats queue in
  let add := saturating_add u64_max in
  mkScreenStats (enqueued s) (dequeued s)
    (add (add (add (dropped_stale s) (dropped_overflow s)) (dropped_unsafe_delta s)) (dropped_on_disconnect s))
    (keyframe_requests s)
    (if send then packets_sent v else 0)
    (if send then 0 else packets_received (counters_in v))
    (if send then 0 else packets_lost (counters_in v))
    (if send then 0 else frames_recovered v)
    (if send then 0 else jitter_ms (counters_in v))
    0 (Z.min (len (frames queue)) SCREEN_VIDEO_QUEUE_CAPACITY) SCREEN_VIDEO_QUEUE_CAPACITY.

Definition h264_screen_video_stats (direction : MediaDirection) (v : H264ScreenVideo) : H264ScreenVideoStats :=
  let out := from_direction v (outbound v) true in
  let inn := from_direction v (inbound v) false in
  let add := saturating_add u64_max in
  match direction with
  | Sendonly => out
  | Recvonly => inn
  | Sendrecv =>
    mkScreenStats (add (st_enqueued out) (st_enqueued inn)) (add (st_dequeued out) (st_dequeued inn))
      (add (st_dropped out) (st_dropped inn)) (add (st_keyframe_requests out) (st_keyframe_requests inn))
      (st_packets_sent out) (st_packets_received inn) (st_packets_lost inn) (st_frames_recovered inn)
      (Z.max (st_jitter_ms out) (st_jitter_ms inn)) (Z.max (st_rtt_ms out) (st_rtt_ms inn))
      (Z.max (st_queue_depth out) (st_queue_depth inn)) SCREEN_VIDEO_QUEUE_CAPACITY
  end.
End Screen.
