(* ===== verification/LossProofs.v ===== *)
(** * Loss accounting of the received screen video

    The receiver sees sequence numbers of sixteen bits.  Against the numbers the
    sender really used, the theorem of this file says which of them are counted
    as lost: those that had not arrived when they fell out of the reorder
    window, each once. *)
From S2P Require Import Prelude VideoQueue Rtp ScreenVideo.

(** ** What is to be counted *)

(** The number below which nothing is waited for any more. *)
Definition horizon (first peak : Z) : Z := Z.max first (peak - RTP_REORDER_WINDOW - 1).

(** The highest number so far and the numbers that arrived in time. *)
Definition arrive (first : Z) (seen : Z * gset Z) (n : Z) : Z * gset Z :=
  (Z.max seen.1 n, if horizon first seen.1 <? n then {[n]} ∪ seen.2 else seen.2).
Definition arrivals (first : Z) (ns : list Z) : Z * gset Z := foldl (arrive first) (first, {[first]}) ns.

Definition missing (first last : Z) (seen : gset Z) : Z :=
  len (filter (fun n => n ∉ seen) (seqZ (first + 1) (last - first))).
Definition lost_count (first : Z) (ns : list Z) : Z :=
  missing first (horizon first (arrivals first ns).1) (arrivals first ns).2.

(** Every number is within half the range of a sequence number of the highest
    before it. *)
Fixpoint near (peak : Z) (ns : list Z) : Prop :=
  match ns with
  | [] => True
  | n :: ns => 0 <= n <= u64_max /\ - 2 ^ 15 <= n - peak < 2 ^ 15 /\ near (Z.max peak n) ns
  end.

(** ** Counting *)

Lemma missing_split first mid last seen : first <= mid <= last ->
  missing first last seen = missing first mid seen + missing mid last seen.
Proof.
  intros H. unfold missing.
  replace (last - first) with ((mid - first) + (last - mid)) by lia. rewrite seqZ_app by lia.
  rewrite filter_app, len_app. do 4 f_equal. lia.
Qed.

Lemma filter_both {A} (P : A -> Prop) `{!forall x, Decision (P x)} (l : list A) :
  len (filter P l) + len (filter (fun x => ~ P x) l) = len l.
Proof.
  unfold len. induction l as [|x l IH]; [done|].
  rewrite !filter_cons. destruct (decide (P x)), (decide (~ P x)); cbn [length]; lia || done.
Qed.

Lemma missing_in_range first last seen : first <= last ->
  missing first last seen = last - first - Z.of_nat (size (filter (fun s => first + 1 <= s <= last) seen)).
Proof.
  intros H. unfold missing.
  assert (E : filter (fun s => first + 1 <= s <= last) seen
              = list_to_set (filter (fun n => n ∈ seen) (seqZ (first + 1) (last - first)))).
  { apply set_eq. intros x. rewrite elem_of_filter, elem_of_list_to_set, list_elem_of_filter, elem_of_seqZ. intuition lia. }
  rewrite E, size_list_to_set by apply NoDup_filter, NoDup_seqZ.
  pose proof (filter_both (fun n => n ∈ seen) (seqZ (first + 1) (last - first))) as Hb.
  unfold len in *. rewrite length_seqZ in Hb. lia.
Qed.

Lemma missing_ext first last seen seen' :
  (forall n, first < n <= last -> n ∈ seen <-> n ∈ seen') -> missing first last seen = missing first last seen'.
Proof.
  intros H. unfold missing. f_equal.
  assert (Hall : forall n, n ∈ seqZ (first + 1) (last - first) -> n ∈ seen <-> n ∈ seen').
  { intros n Hn. apply elem_of_seqZ in Hn. apply H. lia. }
  induction (seqZ (first + 1) (last - first)) as [|n l IH]; [done|]. rewrite !filter_cons.
  specialize (IH ltac:(set_solver)). pose proof (Hall n ltac:(set_solver)).
  destruct (decide (n ∉ seen)), (decide (n ∉ seen'));
    first [by rewrite IH|exact IH|tauto].
Qed.

(** The spec, one arrival at a time: nothing below the old horizon is counted
    again, and what leaves the window is counted once. *)
Lemma lost_step first peak seen n :
  let seen' := arrive first (peak, seen) n in
  missing first (horizon first seen'.1) seen'.2
  = missing first (horizon first peak) seen + missing (horizon first peak) (horizon first seen'.1) seen'.2.
Proof.
  cbn. rewrite (missing_split first (horizon first peak)) by (unfold horizon; lia). f_equal.
  apply missing_ext. intros k Hk. destruct (horizon first peak <? n) eqn:E; bool_facts; [|done]. set_solver by lia.
Qed.

Lemma missing_nonneg first last seen : 0 <= missing first last seen.
Proof. apply len_nonneg. Qed.

(** ** The counters follow the spec *)

Lemma i16_delta_exact n peak : - 2 ^ 15 <= n - peak < 2 ^ 15 -> i16_delta (wrap 16 n) peak = n - peak.
Proof.
  intros H. unfold i16_delta, wrap. rewrite <- Zminus_mod. change (2 ^ 16) with (2 * 2 ^ 15).
  destruct (decide (0 <= n - peak)).
  - rewrite Z.mod_small by lia. rewrite (proj2 (Z.ltb_lt _ _)) by lia. done.
  - rewrite <- (Z_mod_plus_full _ 1), Z.mod_small by lia. rewrite (proj2 (Z.ltb_ge _ _)) by lia. lia.
Qed.

Lemma extend_exact n peak c : highest_inbound c = Some peak -> 0 <= n <= u64_max -> - 2 ^ 15 <= n - peak < 2 ^ 15 ->
  extend_inbound_sequence (wrap 16 n) c = n.
Proof.
  intros Hh Hn Hd. unfold extend_inbound_sequence. rewrite Hh, i16_delta_exact by done.
  unfold saturating_add, saturating_sub. destruct (0 <=? n - peak) eqn:E; bool_facts; lia.
Qed.

Definition Tracks (first base : Z) (seen : Z * gset Z) (c : InboundCounters) : Prop :=
  let fin := horizon first seen.1 in
  highest_inbound c = Some seen.1 /\ finalized_inbound c = Some fin
  /\ (forall s, s ∈ received_sequences c <-> s ∈ seen.2 /\ (fin < s \/ (s = first /\ fin = first)))
  /\ (forall s, s ∈ seen.2 -> first <= s <= seen.1)
  /\ packets_lost c = Z.min u64_max (base + missing first fin seen.2)
  /\ 0 <= first /\ first <= seen.1 <= u64_max.

(** [finalize] moves the horizon and counts what is missing below it. *)
Lemma finalize_spec first peak peak' seen received lost :
  0 <= first <= peak -> peak <= peak' <= u64_max ->
  (forall s, s ∈ received <-> s ∈ seen /\ (horizon first peak < s \/ (s = first /\ horizon first peak = first))) ->
  let '(fin, received', lost') := finalize peak' (horizon first peak) received lost in
  fin = horizon first peak'
  /\ (forall s, s ∈ received' <-> s ∈ seen /\ (fin < s \/ (s = first /\ fin = first)))
  /\ (lost <= u64_max -> lost' = Z.min u64_max (lost + missing (horizon first peak) fin seen)).
Proof.
  intros Hf Hp Hr. unfold finalize, saturating_add, saturating_sub.
  assert (Et : Z.max 0 (Z.max 0 (peak' - RTP_REORDER_WINDOW) - 1) = Z.max 0 (peak' - RTP_REORDER_WINDOW - 1)) by lia.
  rewrite Et. unfold RTP_REORDER_WINDOW in *. unfold horizon, RTP_REORDER_WINDOW in *.
  destruct (_ <? _) eqn:El; bool_facts.
  - rewrite (proj2 (Z.eqb_neq _ _)) by lia.
    assert (Ef : Z.max 0 (peak' - 128 - 1) = Z.max first (peak' - 128 - 1)) by lia. rewrite Ef.
    split_and!; [done| |].
    + intros s. rewrite elem_of_filter, Hr. intuition lia.
    + intros Hl. set (a := Z.max first (peak - 128 - 1)) in *. set (b := Z.max first (peak' - 128 - 1)) in *.
      assert (Hab : 0 <= a < b /\ b < u64_max) by lia. rewrite (Z.min_r u64_max (a + 1)) by lia.
      assert (E : filter (fun s => a + 1 <= s <= b) received = filter (fun s => a + 1 <= s <= b) seen)
        by (apply set_eq; intros s; rewrite !elem_of_filter, Hr; intuition lia).
      rewrite E. pose proof (missing_nonneg a b seen) as Hm. rewrite missing_in_range in * by lia. lia.
  - replace (Z.max first (peak' - 128 - 1)) with (Z.max first (peak - 128 - 1)) by lia.
    split_and!; [done|done|]. intros Hl. unfold missing. rewrite Z.sub_diag.
    change (len (filter (fun n => n ∉ seen) (seqZ (Z.max first (peak - 128 - 1) + 1) 0))) with 0. lia.
Qed.

Lemma observe_tracks first base seen n c :
  Tracks first base seen c -> 0 <= n <= u64_max -> - 2 ^ 15 <= n - seen.1 < 2 ^ 15 ->
  Tracks first base (arrive first seen n) (observe_sequence (wrap 16 n) c).
Proof.
  destruct seen as [peak seen]. intros (Hh & Hfin & Hr & Hs & Hl & H0 & Hp) Hn Hd. cbn [fst snd] in *.
  pose proof (lost_step first peak seen n) as Hstep. cbn zeta in Hstep.
  unfold observe_sequence. rewrite (extend_exact _ peak), Hh, Hfin by done.
  assert (Emax : (if peak <? n then n else peak) = Z.max peak n) by (destruct (peak <? n) eqn:E; bool_facts; lia).
  rewrite Emax.
  pose proof (finalize_spec first peak (Z.max peak n) (arrive first (peak, seen) n).2
                (if horizon first peak <? n then {[n]} ∪ received_sequences c else received_sequences c)
                (packets_lost c) ltac:(lia) ltac:(lia)) as F.
  unfold Tracks, arrive in *. cbn [fst snd] in *.
  destruct (finalize _ _ _ _) as [[fin received'] lost'].
  destruct F as (-> & Fr & Fl).
  { intros s. destruct (horizon first peak <? n) eqn:E; bool_facts; [|by apply Hr].
    rewrite !elem_of_union, elem_of_singleton, Hr. intuition (subst; auto). }
  specialize (Fl ltac:(lia)). cbn [highest_inbound finalized_inbound received_sequences packets_lost]. split_and!; try done; try lia.
  - intros s Hin.  destruct (horizon first peak <? n) eqn:E; bool_facts.
    + apply elem_of_union in Hin as [Hin|Hin]; [apply elem_of_singleton in Hin as ->; unfold horizon in E; lia|].
      specialize (Hs s Hin). lia.
    + specialize (Hs s Hin). lia.
  - rewrite Fl, Hl, Hstep. pose proof (missing_nonneg (horizon first peak) (horizon first (Z.max peak n))
      (if horizon first peak <? n then {[n]} ∪ seen else seen)). lia.
Qed.

Lemma timing_tracks first base seen timestamp now c :
  Tracks first base seen c -> Tracks first base seen (observe_timing timestamp now c).
Proof.
  unfold observe_timing. intros H. destruct (last_inbound_timestamp c), (last_inbound_arrival c); try done.
  by destruct (_ && _).
Qed.

Lemma observe_packets_track first base arrived ns seen c :
  Tracks first base seen c -> near seen.1 ns ->
  Forall2 (fun n a => pk_sequence a.1 = wrap 16 n) ns arrived ->
  Tracks first base (foldl (arrive first) seen ns)
    (foldl (fun c a => observe_inbound_packet a.1 a.2 c) c arrived).
Proof.
  intros H Hn Hs. revert seen c H Hn. induction Hs as [|n a ns arrived Ha _ IH]; intros seen c H Hn; [done|].
  destruct Hn as (Hr & Hd & Hn). cbn [foldl]. apply IH; [|done].
  apply timing_tracks. rewrite Ha. by apply observe_tracks.
Qed.

(** The counters a new stream starts from. *)
Lemma first_tracks first c a :
  0 <= first <= u16_max -> pk_sequence a.1 = wrap 16 first -> 0 <= packets_lost c <= u64_max ->
  Tracks first (packets_lost c) (first, {[first]}) (observe_inbound_packet a.1 a.2 (reset_inbound_timing c)).
Proof.
  intros Hf Ha Hl. unfold observe_inbound_packet. apply timing_tracks. rewrite Ha.
  replace (wrap 16 first) with first by (unfold wrap, u16_max in *; rewrite Z.mod_small; lia).
  unfold observe_sequence, extend_inbound_sequence. cbn -[union singleton u64_max].
  assert (Eh : horizon first first = first) by (unfold horizon, RTP_REORDER_WINDOW; lia).
  unfold Tracks. cbn -[union singleton u64_max horizon missing]. rewrite Eh. unfold missing. rewrite Z.sub_diag.
  change (len (filter (fun n => n ∉ ({[first]} : gset Z)) (seqZ (first + 1) 0))) with 0.
  unfold u16_max, u64_max in *. split_and!; try done; try lia; intros s; set_solver by lia.
Qed.

Lemma arrivals_app first ns ms : arrivals first (ns ++ ms) = foldl (arrive first) (arrivals first ns) ms.
Proof. apply foldl_app. Qed.

Lemma lost_count_app first ns ms : lost_count first ns <= lost_count first (ns ++ ms).
Proof.
  unfold lost_count. rewrite arrivals_app. generalize (arrivals first ns) as seen.
  induction ms as [|m ms IH]; intros seen; [done|]. cbn [foldl]. etrans; [|apply IH].
  destruct seen as [peak seen]. rewrite (lost_step first peak seen m).
  pose proof (missing_nonneg (horizon first peak) (horizon first (arrive first (peak, seen) m).1) (arrive first (peak, seen) m).2). cbn [fst snd]. lia.
Qed.

(** C29. From the sixteen-bit numbers in the packets, the receiver's counters
    follow the sender's real numbers, as long as each is within half the range of
    the highest before it: the highest number is the real one, the number of lost
    packets grows by exactly those numbers after the first that had not arrived
    when they left the reorder window, it never goes down, and the numbers
    remembered stay within the window, whatever is lost, repeated or late. *)
Theorem loss_counter_exact c first ns arrived :
  0 <= packets_lost c <= u64_max -> 0 <= first <= u16_max -> near first ns ->
  Forall2 (fun n a => pk_sequence a.1 = wrap 16 n) (first :: ns) arrived ->
  let c' := foldl (fun c a => observe_inbound_packet a.1 a.2 c) (reset_inbound_timing c) arrived in
  highest_inbound c' = Some (foldl Z.max first ns)
  /\ packets_lost c' = saturating_add u64_max (packets_lost c) (lost_count first ns)
  /\ (forall k, lost_count first (take k ns) <= lost_count first ns)
  /\ (forall s, s ∈ received_sequences c' -> foldl Z.max first ns - RTP_REORDER_WINDOW - 1 <= s <= foldl Z.max first ns).
Proof.
  intros Hl Hf Hn Hs c'. inversion Hs as [|? a ? rest Ha Hrest E1 E2]; subst.
  assert (HT : Tracks first (packets_lost c) (arrivals first ns) c').
  { unfold c'. cbn [foldl]. apply observe_packets_track; [by apply first_tracks|done|done]. }
  assert (Ep : forall seen ms, (foldl (arrive first) seen ms).1 = foldl Z.max seen.1 ms).
  { intros seen ms. revert seen. induction ms as [|m ms IH]; intros seen; [done|]. cbn [foldl]. by rewrite IH. }
  destruct HT as (Hh & _ & Hr & Hin & Hlost & _ & _). unfold arrivals in Hh, Hr, Hin. rewrite Ep in Hh, Hr, Hin. cbn [fst] in *.
  split_and!; [done|done| |].
  - intros k. rewrite <- (take_drop k ns) at 2. apply lost_count_app.
  - intros s Hs'. apply Hr in Hs' as [Hs' Hor]. specialize (Hin s Hs'). unfold horizon in Hor. lia.
Qed.

(** Witness for C29. *)
Lemma loss_counter_exact_witness :
  let packet n := (mkPacket 2 true 102 (wrap 16 n) 0 5 [], 0) in
  let c := foldl (fun c a => observe_inbound_packet a.1 a.2 c) (reset_inbound_timing (mkInbound 9 3 None None ∅ None None 0))
             (packet <$> [65534; 65537; 65536; 65700; 65535; 65701]) in
  highest_inbound c = Some 65701 /\ packets_lost c = 3 + lost_count 65534 [65537; 65536; 65700; 65535; 65701]
  /\ lost_count 65534 [65537; 65536; 65700; 65535; 65701] = 36.
Proof.
  destruct (loss_counter_exact (mkInbound 9 3 None None ∅ None None 0) 65534 [65537; 65536; 65700; 65535; 65701]
              ((fun n => (mkPacket 2 true 102 (wrap 16 n) 0 5 [], 0)) <$> [65534; 65537; 65536; 65700; 65535; 65701]))
    as (H1 & H2 & _).
  - vm_compute. split; discriminate.
  - vm_compute. split; discriminate.
  - vm_compute. repeat split; discriminate.
  - repeat constructor.
  - intros packet c. split; [exact H1|]. split; [|vm_compute; reflexivity]. etransitivity; [exact H2|]. vm_compute. reflexivity.
Defined.
