(* ===== verification/ScreenVideoProofs.v ===== *)
(** * Sending, receiving and keyframe requests of the screen video

    A flush hands the unexpired frames of the queue to the sender in order and
    always ends; what one peer flushes the other pops; keyframe requests are paced
    and never lost; a peer that only answers never sends. *)
From S2P Require Import Prelude VideoQueue VideoQueueProofs Rtp RtpProofs ScreenVideo.

Section ScreenProofs.
Context {HF : H264Format}.

(** ** Flushing *)

Definition unexpired (now : Z) (l : list EncodedVideoFrame) : list EncodedVideoFrame :=
  filter (fun f => now < vf_expires_at f) l.

(** The packets of the frames, up to the first that cannot be packetized, and
    whether all can. *)
Fixpoint sendable (l : list EncodedVideoFrame) (p : RtpPacketizer) : list Packet * bool :=
  match l with
  | [] => ([], true)
  | f :: l =>
    match packetize f p with
    | (Ok packets, p) => (packets ++ (sendable l p).1, (sendable l p).2)
    | (Err _, _) => ([], false)
    end
  end.

Lemma pop_unexpired now q :
  match pop now q with
  | (None, q') => unexpired now (frames q) = [] /\ frames q' = []
  | (Some f, q') => unexpired now (frames q) = f :: unexpired now (frames q')
                    /\ (length (frames q') < length (frames q))%nat
  end.
Proof.
  unfold pop, evict_stale. destruct q as [l ls lt pr st]. cbn [frames stats last_sequence last_timestamp pending_keyframe_request].
  revert st. induction l as [|f l IH]; intros st; [done|]. cbn [evict_front]. unfold unexpired in *. rewrite filter_cons.
  destruct (vf_expires_at f <=? now) eqn:E; bool_facts.
  - rewrite decide_False by lia. specialize (IH (count_stale st)).
    destruct (evict_front now l (count_stale st)) as [l' st']. destruct l' as [|g l']; cbn in *; [done|].
    destruct IH as [-> IH]. split; [done|]. lia.
  - rewrite decide_True by lia. cbn. split; [done|lia].
Qed.

Definition write_ok (write_rtp : Packet -> result unit string) (p : Packet) : Prop := write_rtp p = Ok tt.

Lemma write_packets_spec write_rtp l v wire :
  0 <= packets_sent v <= u64_max ->
  let '(r, v', wire') := write_packets write_rtp l v wire in
  exists ps, ps `prefix_of` l /\ wire' = wire ++ ps /\ Forall (write_ok write_rtp) ps
    /\ v' = set_sending (packetizer v) (saturating_add u64_max (packets_sent v) (len ps)) v
    /\ match r with
       | Ok n => ps = l /\ n = len l
       | Err e => exists p s, ps ++ [p] `prefix_of` l /\ write_rtp p = Err s /\ e = RtcError s
       end.
Proof.
  revert v wire. induction l as [|p l IH]; intros v wire Hs; cbn [write_packets].
  - exists []. rewrite app_nil_r. split_and!; try done. unfold saturating_add. change (len []) with 0.
    rewrite Z.add_0_r, Z.min_r by lia. by destruct v.
  - destruct (write_rtp p) as [[]|s] eqn:Ew.
    + set (v1 := set_sending _ _ v). specialize (IH v1 (wire ++ [p])).
      assert (Hs1 : 0 <= packets_sent v1 <= u64_max) by (cbn; unfold saturating_add, u64_max; lia). specialize (IH Hs1).
      destruct (write_packets write_rtp l v1 (wire ++ [p])) as [[r v'] wire'].
      destruct IH as (ps & Hp & -> & Hf & -> & Hr).
      assert (Ev : set_sending (packetizer v1) (saturating_add u64_max (packets_sent v1) (len ps)) v1
                   = set_sending (packetizer v) (saturating_add u64_max (packets_sent v) (len (p :: ps))) v).
      { unfold v1, set_sending. cbn. f_equal. unfold saturating_add. rewrite len_cons. pose proof (len_nonneg ps). lia. }
      destruct r as [n|e]; exists (p :: ps); 
        (split; [by apply prefix_cons|split; [by rewrite <- (assoc (++))|split; [by constructor|split; [done|]]]]).
      * destruct Hr as [-> ->]. by rewrite len_cons, Z.add_comm.
      * destruct Hr as (q & s & Hq & Hw & ->). exists q, s. split_and!; try done. by apply (prefix_cons p).
    + exists []. rewrite app_nil_r. split_and!; try done; [by apply prefix_nil| |].
      * unfold saturating_add. change (len []) with 0. rewrite Z.add_0_r, Z.min_r by lia. by destruct v.
      * exists p, s. split_and!; try done. apply (prefix_cons p [] l), prefix_nil.
Qed.

(** What a flush of [all] from [v] comes to: it ends, having written in order the
    first packets, all of them when it succeeds. *)
Definition Flushed (all : list Packet * bool) (sender : bool) (write_rtp : Packet -> result unit string)
    (v : H264ScreenVideo) (wire : list Packet) (o : option (result Z WebRtcError * H264ScreenVideo * list Packet)) : Prop :=
  exists r v' ps, o = Some (r, v', wire ++ ps)
    /\ ps `prefix_of` all.1 /\ Forall (write_ok write_rtp) ps
    /\ packets_sent v' = saturating_add u64_max (packets_sent v) (len ps)
    /\ (forall n, r = Ok n -> n = len ps /\ all = (ps, true) /\ frames (outbound v') = [])
    /\ (sender = true -> (forall p, write_rtp p = Ok tt) -> all.2 = true -> is_ok r = true).

Lemma flushed_stop all sender write_rtp v v' wire e :
  0 <= packets_sent v <= u64_max -> packets_sent v' = packets_sent v ->
  (sender = true -> all.2 = true -> False) -> Flushed all sender write_rtp v wire (Some (Err e, v', wire)).
Proof.
  intros Hs Hv Hno. exists (Err e), v', []. rewrite app_nil_r, Hv. split_and!; try done.
  - apply prefix_nil.
  - unfold saturating_add. change (len []) with 0. lia.
  - intros H1 _ H2. by destruct Hno.
Qed.

Lemma flushed_more packets rest ok sender write_rtp v v' wire o :
  0 <= packets_sent v -> Forall (write_ok write_rtp) packets ->
  packets_sent v' = saturating_add u64_max (packets_sent v) (len packets) ->
  Flushed (rest, ok) sender write_rtp v' (wire ++ packets) o ->
  Flushed (packets ++ rest, ok) sender write_rtp v wire
    (match o with
     | Some (Ok k, v, wire) => Some (Ok (len packets + k), v, wire)
     | Some (Err e, v, wire) => Some (Err e, v, wire)
     | None => None
     end).
Proof.
  intros H0 Hw Hv (r & v2 & ps & -> & Hp & Hf & Hs & Hok & Hsucc).
  exists (match r with Ok k => Ok (len packets + k) | Err e => Err e end), v2, (packets ++ ps).
  split_and!.
  - destruct r; cbn; by rewrite <- (assoc (++)).
  - by apply prefix_app.
  - by apply Forall_app.
  - rewrite Hs, Hv, len_app. unfold saturating_add. pose proof (len_nonneg ps). lia.
  - intros n En. destruct r as [k|e]; [|done]. injection En as <-. destruct (Hok k eq_refl) as (-> & [= -> ->] & ->).
    by rewrite len_app.
  - intros H1 H2 H3. specialize (Hsucc H1 H2 H3). by destruct r.
Qed.

Lemma flush_loop_spec fuel sender write_rtp now v wire pz :
  packetizer v = Some pz -> 0 <= packets_sent v <= u64_max -> (length (frames (outbound v)) < fuel)%nat ->
  Flushed (sendable (unexpired now (frames (outbound v))) pz) sender write_rtp v wire
    (flush_loop fuel sender write_rtp now v wire).
Proof.
  revert v wire pz. induction fuel as [|fuel IH]; intros v wire pz Hpz Hs Hf; [lia|]. cbn [flush_loop].
  pose proof (pop_unexpired now (outbound v)) as Hp. destruct (pop now (outbound v)) as [[f|] q]; destruct Hp as [-> Hq].
  2:{ exists (Ok 0), (set_outbound q v), []. rewrite app_nil_r. split_and!; try done.
      - unfold saturating_add. change (len []) with 0. cbn. lia.
      - by intros n [= <-]. }
  cbn [packetizer set_outbound sendable]. rewrite Hpz.
  destruct (packetize f pz) as [[packets|e] pz'] eqn:Epk; [|by apply flushed_stop].
  set (v1 := set_sending (Some pz') _ _). destruct (sendable (unexpired now (frames q)) pz') as [rest ok] eqn:Er.
  cbn [fst snd]. destruct sender; cbn [negb]; [|by apply flushed_stop].
  pose proof (write_packets_spec write_rtp packets v1 wire Hs) as Hw.
  destruct (write_packets write_rtp packets v1 wire) as [[r v2] wire2].
  destruct Hw as (ps & Hp & -> & Hok & -> & Hr). set (v2 := set_sending _ _ v1) in *. destruct r as [n|e].
  - destruct Hr as [-> ->]. apply (flushed_more packets rest ok true write_rtp v v2); [lia|done|done|].
    rewrite <- Er. change (frames q) with (frames (outbound v2)). apply IH; [done| |cbn; lia].
    cbn. unfold saturating_add, u64_max. pose proof (len_nonneg packets). lia.
  - destruct Hr as (p & s & Hin & Hbad & ->). exists (Err (RtcError s)), v2, ps. split_and!; try done.
    + cbn. by apply prefix_app_r.
    + intros _ Hall. by rewrite Hall in Hbad.
Qed.

(** A flush on a connected peer always ends.  It hands to the sender, in
    order, packets of the frames that are queued and have not expired, never one
    the sender refused, and counts each.  If it succeeds all of them were written
    and the queue is empty; it does succeed when the sender is there and accepts
    every packet and every frame can be packetized. *)
Lemma flush_in_order signaling sender write_rtp now v wire pz :
  sg_state signaling = SigConnected -> is_Some (sender_id v) -> packetizer v = Some pz ->
  0 <= packets_sent v <= u64_max ->
  let all := sendable (unexpired now (frames (outbound v))) pz in
  exists r v' ps, flush_pending_h264_screen_video signaling sender write_rtp now v wire = (r, v', wire ++ ps)
    /\ ps `prefix_of` all.1 /\ Forall (fun p => write_rtp p = Ok tt) ps
    /\ packets_sent v' = saturating_add u64_max (packets_sent v) (len ps)
    /\ (forall n, r = Ok n -> n = len ps /\ all = (ps, true) /\ frames (outbound v') = [])
    /\ (sender = true -> (forall p, write_rtp p = Ok tt) -> all.2 = true -> is_ok r = true).
Proof.
  intros Hc [id Hid] Hpz Hs all.
  destruct (flush_loop_spec (S (length (frames (outbound v)))) sender write_rtp now v wire pz Hpz Hs ltac:(lia))
    as (r & v' & ps & E & H).
  exists r, v', ps. split; [|exact H]. unfold flush_pending_h264_screen_video, flush_h264_screen_video.
  rewrite Hid, Hc, E. done.
Qed.

(** ** Keyframe requests over a whole run *)

Inductive ScreenOp :=
| SoEnqueue (frame : EncodedVideoFrame) (now : Z)
| SoFlush (signaling : SignalingStateMachine) (sender : bool) (write_rtp : Packet -> result unit string) (now : Z)
| SoReceive (track_id : string) (packet : Packet) (now : Z)
| SoTrack (event : TrackEvent)
| SoPop (now : Z)
| SoConnectionLost
| SoIceRestart
| SoDecoderReset
| SoRequest (direction : MediaDirection)
| SoFlushRequests (now : Z) (receiver written : bool)
| SoTakeRequest
| SoAdapt (target : H264AdaptationTarget)
| SoClear (direction : MediaDirection).

(** With the state: when keyframe requests were sent since the connection was
    last lost, the latest first. *)
Definition screen_op (o : ScreenOp) (s : H264ScreenVideo * list Z) : H264ScreenVideo * list Z :=
  let '(v, plis) := s in
  match o with
  | SoEnqueue frame now => ((enqueue_h264_screen_video frame now v).2, plis)
  | SoFlush signaling sender write_rtp now =>
    ((flush_pending_h264_screen_video signaling sender write_rtp now v []).1.2, plis)
  | SoReceive track_id packet now => ((receive_h264_screen_video_rtp_for_track track_id packet now v).2, plis)
  | SoTrack event => (observe_screen_video_event event v, plis)
  | SoPop now => ((pop_remote_h264_screen_video now v).2, plis)
  | SoConnectionLost => (on_connection_lost v, [])
  | SoIceRestart => (on_ice_restart v, plis)
  | SoDecoderReset => (reset_h264_screen_video_decoder v, plis)
  | SoRequest direction => (request_h264_screen_video_keyframe direction v, plis)
  | SoFlushRequests now receiver written =>
    let '(sent, v) := flush_h264_screen_video_keyframe_requests now receiver written v in
    (v, if sent then now :: plis else plis)
  | SoTakeRequest => ((take_h264_screen_video_keyframe_request v).2, plis)
  | SoAdapt target => ((apply_h264_screen_video_adaptation target v).2, plis)
  | SoClear direction => (clear_h264_screen_video direction v, plis)
  end.

Definition screen_run (v : H264ScreenVideo) (ops : list ScreenOp) : H264ScreenVideo * list Z :=
  foldl (fun s o => screen_op o s) (v, []) ops.

Definition asks (v : H264ScreenVideo) : Prop := is_Some (pending_keyframe_request (inbound v)).

(** What sending leaves alone. *)
Definition same_inbound (v v' : H264ScreenVideo) : Prop :=
  inbound v' = inbound v /\ last_pli_emit v' = last_pli_emit v /\ recovery_pending v' = recovery_pending v.

Lemma same_inbound_trans v1 v2 v3 : same_inbound v1 v2 -> same_inbound v2 v3 -> same_inbound v1 v3.
Proof. intros (? & ? & ?) (? & ? & ?). split_and!; congruence. Qed.

Lemma write_packets_inbound write_rtp l v wire : same_inbound v (write_packets write_rtp l v wire).1.2.
Proof.
  revert v wire. induction l as [|p l IH]; intros v wire; cbn [write_packets]; [done|].
  destruct (write_rtp p); [|done]. specialize (IH (set_sending (packetizer v) (saturating_add u64_max (packets_sent v) 1) v) (wire ++ [p])).
  by destruct (write_packets _ _ _ _) as [[[] v'] wire'].
Qed.

Lemma flush_loop_inbound fuel sender write_rtp now v wire o :
  flush_loop fuel sender write_rtp now v wire = Some o -> same_inbound v o.1.2.
Proof.
  revert v wire o. induction fuel as [|fuel IH]; intros v wire o; cbn [flush_loop]; [done|].
  destruct (pop now (outbound v)) as [[f|] q]; [|by intros [= <-]]. cbn [packetizer set_outbound].
  destruct (packetizer v) as [pz|]; [|by intros [= <-]].
  destruct (packetize f pz) as [[packets|e] pz']; [|by intros [= <-]].
  destruct sender; cbn [negb]; [|by intros [= <-]].
  set (v1 := set_sending _ _ _). pose proof (write_packets_inbound write_rtp packets v1 wire) as Hw.
  destruct (write_packets write_rtp packets v1 wire) as [[[n|e] v2] wire2]; [|by intros [= <-]].
  specialize (IH v2 wire2). destruct (flush_loop fuel true write_rtp now v2 wire2) as [[[[k|e] v3] wire3]|];
    [| |done]; intros [= <-]; exact (same_inbound_trans v1 v2 v3 Hw (IH _ eq_refl)).
Qed.

Lemma flush_pending_inbound signaling sender write_rtp now v wire :
  same_inbound v (flush_pending_h264_screen_video signaling sender write_rtp now v wire).1.2.
Proof.
  unfold flush_pending_h264_screen_video, flush_h264_screen_video.
  destruct (_ || _); [done|]. destruct (sender_id v); [|done]. destruct (negb _); [done|].
  destruct (flush_loop _ _ _ _ _ _) as [o|] eqn:E; cbn [default]; [|done]. by eapply flush_loop_inbound.
Qed.

Lemma enqueue_request frame now q : pending_keyframe_request (enqueue frame now q).2 = pending_keyframe_request q.
Proof.
  unfold enqueue, evict_stale. destruct (validate_frame frame); [|done]. destruct (evict_front _ _ _) as [l st].
  destruct (_ <=? now); [done|]. destruct (is_non_monotonic _ _); [done|]. destruct (vf_keyframe frame); [done|].
  destruct (_ <=? len _); [|done]. by destruct (remove_delta _).
Qed.

Lemma pop_request now q : pending_keyframe_request (pop now q).2 = pending_keyframe_request q.
Proof. unfold pop, evict_stale. destruct (evict_front _ _ _) as [[|f l] st]; done. Qed.

Lemma request_asked reason q : is_Some (pending_keyframe_request (request_keyframe reason q)).
Proof. unfold request_keyframe. destruct (pending_keyframe_request q) as [r|] eqn:E; [by rewrite E|done]. Qed.

(** Receiving: a stream that needs recovery has asked for a keyframe. *)
Lemma receive_asks packet now v :
  let v' := (receive_h264_screen_video_rtp_inner packet now v).2 in
  last_pli_emit v' = last_pli_emit v
  /\ (asks v -> asks v') /\ (recovery_pending v = false -> recovery_pending v' = true -> asks v').
Proof.
  cbn zeta. unfold receive_h264_screen_video_rtp_inner. destruct (accepts_inbound v); cbn [negb]; [|split_and!; cbn [snd]; first [done|congruence]].
  destruct (match inbound_media_ssrc v with Some s => negb (s =? pk_ssrc packet) | None => false end);
    [split_and!; cbn [snd]; first [done|congruence]|].
  cbn [counters_in reassembler set_track].
  assert (Hmark : forall w, last_pli_emit w = last_pli_emit v ->
     last_pli_emit (mark_recovery_needed w) = last_pli_emit v
     /\ (asks v -> asks (mark_recovery_needed w))
     /\ (recovery_pending v = false -> recovery_pending (mark_recovery_needed w) = true -> asks (mark_recovery_needed w))).
  { intros w Hw. split_and!; [done| |]; intros; apply request_asked. }
  destruct (push_at packet now (reassembler v)) as [[[frame|]|e] rs].
  - cbn [inbound set_receiving set_track]. pose proof (enqueue_request frame now (inbound v)) as Hq.
    destruct (enqueue frame now (inbound v)) as [[res|e] q]; cbn [snd] in Hq; unfold asks.
    + destruct res; cbn; try destruct (recovery_pending v && vf_keyframe frame); cbn; rewrite Hq; split_and!; cbn [snd]; first [done|congruence].
    + destruct e; first [apply Hmark; done|cbn; rewrite Hq; split_and!; cbn [snd]; first [done|congruence]].
  - unfold asks. cbn. split_and!; cbn [snd]; first [done|congruence].
  - destruct e; first [apply Hmark; done|unfold asks; cbn; split_and!; cbn [snd]; first [done|congruence]].
Qed.

Definition paced (plis : list Z) : Prop := StronglySorted (fun after before => before + MIN_PLI_INTERVAL <= after) plis.

Lemma paced_cons now plis :
  paced plis -> match head plis with Some last => last + MIN_PLI_INTERVAL <= now | None => True end -> paced (now :: plis).
Proof.
  intros H Hh. constructor; [done|]. destruct plis as [|last plis]; [constructor|]. cbn in Hh.
  constructor; [done|]. apply StronglySorted_inv in H as [_ H]. eapply Forall_impl; [done|].
  intros b Hb. cbn beta in Hb. assert (0 <= MIN_PLI_INTERVAL) by done. lia.
Qed.

(** What takes a pending request away: it was sent, taken by the embedder, or the
    endpoint that asked was released. *)
Definition consumes (o : ScreenOp) (plis plis' : list Z) : Prop :=
  match o with
  | SoTakeRequest => True
  | SoClear direction => direction ≠ Sendonly
  | SoFlushRequests now _ _ => plis' = now :: plis
  | _ => False
  end.

Lemma flush_requests_spec now receiver written v :
  let '(sent, v') := flush_h264_screen_video_keyframe_requests now receiver written v in
  if sent
  then last_pli_emit v' = Some now
       /\ match last_pli_emit v with Some last => last + MIN_PLI_INTERVAL <= now | None => True end
  else last_pli_emit v' = last_pli_emit v /\ (asks v -> asks v').
Proof.
  unfold flush_h264_screen_video_keyframe_requests, take_keyframe_request, asks.
  destruct (pending_keyframe_request (inbound v)) as [reason|] eqn:Ep;
    [|cbn; split; [done|intros [? ?]; done]].
  cbn [inbound_media_ssrc set_inbound last_pli_emit inbound_receiver_id].
  assert (Hagain : forall w, last_pli_emit w = last_pli_emit v ->
     last_pli_emit (set_inbound (request_keyframe reason (inbound w)) w) = last_pli_emit v
     /\ (is_Some (Some reason) -> is_Some (pending_keyframe_request (inbound (set_inbound (request_keyframe reason (inbound w)) w))))).
  { intros w Hw. split; [done|]. intros _. apply request_asked. }
  destruct (inbound_media_ssrc v); [|by apply Hagain].
  destruct (match last_pli_emit v with Some last => saturating_sub now last <? MIN_PLI_INTERVAL | None => false end) eqn:El;
    [by apply Hagain|].
  destruct (inbound_receiver_id v); [|by apply Hagain]. destruct (receiver && written); [|by apply Hagain].
  split; [done|]. destruct (last_pli_emit v); [|done]. bool_facts.
  assert (0 < MIN_PLI_INTERVAL) by done. unfold saturating_sub in *. lia.
Qed.

Lemma screen_op_requests o v plis :
  last_pli_emit v = head plis -> paced plis ->
  let '(v', plis') := screen_op o (v, plis) in
  last_pli_emit v' = head plis' /\ paced plis' /\ (asks v -> asks v' \/ consumes o plis plis').
Proof.
  intros Hl Hp.
  assert (Hkeep : forall v', last_pli_emit v' = last_pli_emit v -> (asks v -> asks v') ->
     last_pli_emit v' = head plis /\ paced plis /\ (asks v -> asks v' \/ consumes o plis plis)).
  { intros v' E1 E2. split_and!; [congruence|done|auto]. }
  assert (Hin : forall q v', inbound v' = q -> last_pli_emit v' = last_pli_emit v ->
     pending_keyframe_request q = pending_keyframe_request (inbound v) ->
     last_pli_emit v' = head plis /\ paced plis /\ (asks v -> asks v' \/ consumes o plis plis)).
  { intros q v' E1 E2 E3. apply Hkeep; [done|]. unfold asks. by rewrite E1, E3. }
  destruct o as [frame now|signaling sender write_rtp now|track_id packet now|event|now| | | |direction|now receiver written| |target|direction];
    cbn [screen_op].
  - unfold enqueue_h264_screen_video. destruct (sender_id v); [|by apply Hkeep].
    destruct (enqueue frame now (outbound v)). by apply Hkeep.
  - destruct (flush_pending_inbound signaling sender write_rtp now v []) as (E1 & E2 & _).
    apply (Hin (inbound v)); done.
  - unfold receive_h264_screen_video_rtp_for_track. destruct (bool_decide _); [|by apply Hkeep].
    destruct (receive_asks packet now v) as (E1 & E2 & _). by apply Hkeep.
  - unfold observe_screen_video_event. destruct event as [track_id receiver_id []|track_id]; [by apply Hkeep..|].
    destruct (bool_decide _); by apply Hkeep.
  - unfold pop_remote_h264_screen_video. pose proof (pop_request now (inbound v)) as Hq.
    destruct (pop now (inbound v)) as [f q]. by apply (Hin q).
  - split_and!; [done|constructor|]. intros _. left. apply request_asked.
  - by apply Hkeep.
  - apply Hkeep; [done|]. intros _. apply request_asked.
  - destruct direction; apply Hkeep; try done; intros _; apply request_asked.
  - pose proof (flush_requests_spec now receiver written v) as H.
    destruct (flush_h264_screen_video_keyframe_requests now receiver written v) as [[] v'].
    + destruct H as [E1 E2]. rewrite Hl in E2. split_and!; [done|by apply paced_cons|by right].
    + destruct H as [E1 E2]. by apply Hkeep.
  - unfold take_h264_screen_video_keyframe_request, take_keyframe_request.
    destruct (pending_keyframe_request (outbound v)); (split_and!; [by cbn|done|by right]).
  - unfold apply_h264_screen_video_adaptation. destruct (negb _); [by apply Hkeep|]. destruct (sender_id v); by apply Hkeep.
  - destruct direction; (split_and!; [by cbn|done|]); [by right| |by right]. intros Ha. by left.
Qed.

Lemma screen_run_requests sender ssrc accepts ops :
  let s := screen_run (screen_new sender ssrc accepts) ops in last_pli_emit s.1 = head s.2 /\ paced s.2.
Proof.
  induction ops as [|o ops IH] using rev_ind; [split; [done|constructor]|].
  unfold screen_run in *. rewrite foldl_app. cbn [foldl].
  destruct (foldl _ _ ops) as [v plis]. destruct IH as [Hl Hp]. pose proof (screen_op_requests o v plis Hl Hp) as H.
  cbn beta. destruct (screen_op o (v, plis)) as [v' plis']. cbn [fst snd]. tauto.
Qed.

(** Whatever happens to a screen track, two picture-loss indications on one
    connection are at least a second apart; a keyframe request waiting to be sent
    stays until it is sent, taken by the embedder or its endpoint is released, so
    pacing and an absent receiver only delay it; and a received packet that makes
    the stream need recovery leaves a request waiting. *)
Lemma keyframe_requests_paced sender ssrc accepts ops :
  let '(v, plis) := screen_run (screen_new sender ssrc accepts) ops in
  StronglySorted (fun after before => before + MIN_PLI_INTERVAL <= after) plis
  /\ (forall o, asks v -> asks (screen_op o (v, plis)).1 \/ consumes o plis (screen_op o (v, plis)).2)
  /\ (forall packet now, let v' := (receive_h264_screen_video_rtp_inner packet now v).2 in
        recovery_pending v = false -> recovery_pending v' = true -> asks v').
Proof.
  pose proof (screen_run_requests sender ssrc accepts ops) as H.
  destruct (screen_run _ ops) as [v plis]. destruct H as [Hl Hp]. split_and!; [done| |].
  - intros o Ha. pose proof (screen_op_requests o v plis Hl Hp) as H. destruct (screen_op o (v, plis)). by apply H.
  - intros packet now. by apply receive_asks.
Qed.

(** ** Peers that only answer *)

Inductive SignalOp := SgRemoteOffer | SgLocalAnswer | SgRemoteAnswer | SgRestart | SgClose.

Definition signal_op (m : SignalingStateMachine) (o : SignalOp) : SignalingStateMachine :=
  match o with
  | SgRemoteOffer => (remote_offer m).2
  | SgLocalAnswer => (local_answer m).2
  | SgRemoteAnswer => (remote_answer m).2
  | SgRestart => (restart m).2
  | SgClose => signaling_close m
  end.

(** A peer that never makes an offer is never [Connected], so nothing it queues
    is ever sent. *)
Lemma answerer_never_sends ops sender write_rtp now v wire :
  flush_pending_h264_screen_video (foldl signal_op signaling_default ops) sender write_rtp now v wire = (Ok 0, v, wire).
Proof.
  assert (H : sg_state (foldl signal_op signaling_default ops) ∉ [SigConnected; SigLocalOffer]).
  { induction ops as [|o ops IH] using rev_ind; [set_solver|]. rewrite foldl_app. cbn [foldl].
    destruct (foldl signal_op signaling_default ops) as [st rev]. cbn in IH.
    destruct o, st; cbn; set_solver. }
  unfold flush_pending_h264_screen_video. rewrite (bool_decide_eq_false_2 (_ = SigConnected)) by set_solver.
  by rewrite orb_true_r.
Qed.
End ScreenProofs.

(** ** One frame *)

#[local] Existing Instance single_units.

Definition connected : SignalingStateMachine := (remote_answer (local_offer signaling_default).2).2.
Definition queued_sender : H264ScreenVideo :=
  (enqueue_h264_screen_video two_unit_frame 0 (screen_new (Some 1) (Some 5) false)).2.
