(* ===== verification/ScreenStream.v ===== *)
(** * A screen stream from one peer to another

    The composition of the queue, the packetizer, the reassembler and the queue of
    the other side: what one peer enqueues and flushes, the other, given the
    packets in order, pops. *)
From S2P Require Import Prelude VideoQueue VideoQueueProofs Rtp RtpProofs ScreenVideo ScreenVideoProofs.

Section Stream.
Context {HF : H264Format}.

Definition receive_all (packets : list Packet) (now : Z) (w : H264ScreenVideo) : H264ScreenVideo :=
  foldl (fun w p => (receive_h264_screen_video_rtp_inner p now w).2) w packets.

(** One frame on its way: enqueued and flushed by the sender, received and popped
    by the receiver. *)
Definition carry (signaling : SignalingStateMachine) (frame : EncodedVideoFrame) (now : Z)
    (v w : H264ScreenVideo) : option EncodedVideoFrame * H264ScreenVideo * H264ScreenVideo :=
  let v := (enqueue_h264_screen_video frame now v).2 in
  let '(_, v, wire) := flush_pending_h264_screen_video signaling true (fun _ => Ok tt) now v [] in
  let w := receive_all wire now w in
  let '(got, w) := pop_remote_h264_screen_video now w in
  (got, v, w).

Fixpoint carry_all (signaling : SignalingStateMachine) (l : list (EncodedVideoFrame * Z)) (v w : H264ScreenVideo) :
    list (option EncodedVideoFrame) :=
  match l with
  | [] => []
  | (frame, now) :: l =>
    let '(got, v, w) := carry signaling frame now v w in got :: carry_all signaling l v w
  end.

(** ** What the stream is asked to be *)

(** Frames the sender's queue takes: valid, not expired, in increasing order of
    sequence and timestamp, with timestamps less than half their range apart. *)
Fixpoint streamable (last : option EncodedVideoFrame) (l : list (EncodedVideoFrame * Z)) : Prop :=
  match l with
  | [] => True
  | (frame, now) :: l =>
    validate_frame frame = Ok tt /\ now < vf_expires_at frame
    /\ match last with
       | Some p => vf_sequence p < vf_sequence frame /\ 0 < vf_timestamp frame - vf_timestamp p < 2 ^ 31
       | None => True
       end
    /\ streamable (Some frame) l
  end.

Fixpoint depacketize_payloads (l : list bytes) (d : Depacketizer) : option bytes :=
  match l with
  | [] => Some []
  | data :: l =>
    match depacketize data d with
    | (Err _, _) => None
    | (Ok out, d) => app out <$> depacketize_payloads l d
    end
  end.

(** What the H.264 format makes of the access units: their payloads are well
    formed and depacketized one frame at a time give the access units [outs]. *)
Fixpoint carried (l : list (EncodedVideoFrame * Z)) (outs : list bytes) (pl : Payloader) : Prop :=
  match l, outs with
  | [], [] => True
  | (frame, _) :: l, out :: outs =>
    exists payloads pl',
      payload (H264_RTP_MTU - RTP_HEADER_BYTES) (vf_payload frame) pl = (Ok payloads, pl')
      /\ payloads ≠ [] /\ Forall (fun data => is_valid_h264_payload data = true) payloads
      /\ depacketize_payloads payloads depacketizer_default = Some out
      /\ is_valid_annex_b out = true /\ len out <= MAX_ENCODED_VIDEO_FRAME_BYTES
      /\ carried l outs pl'
  | _, _ => False
  end.

Fixpoint expected_frames (n : Z) (l : list (EncodedVideoFrame * Z)) (outs : list bytes) :
    list (option EncodedVideoFrame) :=
  match l, outs with
  | (frame, now) :: l, out :: outs =>
    Some (mkFrame H264 n (vf_timestamp frame) DEFAULT_REMOTE_WIDTH DEFAULT_REMOTE_HEIGHT
            (contains_idr_nalu out) out (now + RECEIVED_FRAME_TTL))
    :: expected_frames (n + 1) l outs
  | _, _ => []
  end.

(** ** The two sides between frames *)

Definition last_is (last : option EncodedVideoFrame) (q : VideoQueue) : Prop :=
  last_sequence q = vf_sequence <$> last /\ last_timestamp q = vf_timestamp <$> last.

Definition SenderIdle (last : option EncodedVideoFrame) (pl : Payloader) (s : Z) (v : H264ScreenVideo) : Prop :=
  is_Some (sender_id v) /\ frames (outbound v) = [] /\ last_is last (outbound v)
  /\ 0 <= packets_sent v <= u64_max
  /\ exists pz, packetizer v = Some pz /\ mtu pz = H264_RTP_MTU /\ payloader pz = pl /\ ssrc pz = s.

Definition ReceiverIdle (last : option Z) (n s : Z) (w : H264ScreenVideo) : Prop :=
  accepts_inbound w = true /\ (inbound_media_ssrc w = None \/ inbound_media_ssrc w = Some s)
  /\ Pending [] (reassembler w) /\ last_completed_timestamp (reassembler w) = last
  /\ next_frame_sequence (reassembler w) = n
  /\ width (reassembler w) = DEFAULT_REMOTE_WIDTH /\ height (reassembler w) = DEFAULT_REMOTE_HEIGHT
  /\ frames (inbound w) = [] /\ last_timestamp (inbound w) = last
  /\ match last_sequence (inbound w) with Some k => k < n | None => True end.

Lemma annex_b_nonempty payload : is_valid_annex_b payload = true -> payload ≠ [].
Proof. by intros H ->. Qed.

(** An empty queue takes a valid frame that is newer than the last. *)
Lemma enqueue_empty frame now q :
  validate_frame frame = Ok tt -> now < vf_expires_at frame -> frames q = [] -> is_non_monotonic frame q = false ->
  exists st, enqueue frame now q
    = (Ok Accepted, mkQueue [frame] (Some (vf_sequence frame)) (Some (vf_timestamp frame)) (pending_keyframe_request q) st).
Proof.
  intros Hv Hx Hf Hm. destruct q as [l ls lt pr st]. cbn in Hf. subst l. unfold enqueue. rewrite Hv.
  unfold evict_stale. cbn [frames evict_front]. rewrite (proj2 (Z.leb_gt _ _)) by lia.
  unfold is_non_monotonic in *. cbn in Hm |- *. rewrite Hm. destruct (vf_keyframe frame); eexists; reflexivity.
Qed.

Lemma pop_single frame now ls lt pr st : now < vf_expires_at frame ->
  pop now (mkQueue [frame] ls lt pr st) = (Some frame, mkQueue [] ls lt pr (count_dequeued st)).
Proof. intros H. unfold pop, evict_stale. cbn. by rewrite (proj2 (Z.leb_gt _ _)) by lia. Qed.

Lemma flush_one signaling frame now v pz packets pz' st ls lt pr :
  sg_state signaling = SigConnected -> is_Some (sender_id v) -> outbound v = mkQueue [frame] ls lt pr st ->
  now < vf_expires_at frame -> packetizer v = Some pz -> packetize frame pz = (Ok packets, pz') ->
  0 <= packets_sent v <= u64_max ->
  exists r v', flush_pending_h264_screen_video signaling true (fun _ => Ok tt) now v [] = (r, v', packets)
    /\ is_Some (sender_id v') /\ frames (outbound v') = [] /\ last_sequence (outbound v') = ls
    /\ last_timestamp (outbound v') = lt /\ packetizer v' = Some pz' /\ 0 <= packets_sent v' <= u64_max.
Proof.
  intros Hc [id Hid] Hq Hx Hpz Hpk Hs. unfold flush_pending_h264_screen_video, flush_h264_screen_video.
  rewrite Hid, Hc, Hq. cbn [bool_decide negb orb frames length]. cbn [flush_loop]. rewrite Hq.
  rewrite pop_single by done. cbn [packetizer set_outbound]. rewrite Hpz, Hpk. cbn [negb].
  set (v1 := set_sending (Some pz') _ _).
  pose proof (write_packets_spec (fun _ => Ok tt) packets v1 [] Hs) as Hw.
  destruct (write_packets (fun _ => Ok tt) packets v1 []) as [[r v2] wire2].
  destruct Hw as (ps & _ & -> & _ & -> & Hr). destruct r as [n|e]; [|by destruct Hr as (? & ? & _ & ? & _)].
  destruct Hr as [-> ->]. cbn. eexists _, _. split; [reflexivity|]. cbn. split_and!; try done.
  - unfold saturating_add, u64_max. pose proof (len_nonneg packets). lia.
  - unfold saturating_add. lia.
Qed.

Definition heard (s : Z) (w : H264ScreenVideo) : Prop :=
  accepts_inbound w = true /\ (inbound_media_ssrc w = None \/ inbound_media_ssrc w = Some s).

(** A packet of the stream reaches the reassembler, and a frame it completes the
    queue. *)
Lemma receive_push p now w s r rs :
  heard s w -> pk_ssrc p = s -> push_at p now (reassembler w) = (Ok r, rs) ->
  match r with Some f => exists q, enqueue f now (inbound w) = (Ok Accepted, q) | None => True end ->
  let w' := (receive_h264_screen_video_rtp_inner p now w).2 in
  heard s w' /\ reassembler w' = rs
  /\ inbound w' = match r with Some f => (enqueue f now (inbound w)).2 | None => inbound w end.
Proof.
  intros [Ha Hs] Hp Hpush Hq. cbn zeta. unfold receive_h264_screen_video_rtp_inner. rewrite Ha. cbn [negb].
  replace (match inbound_media_ssrc w with Some x => negb (x =? pk_ssrc p) | None => false end) with false
    by (destruct Hs as [->| ->]; [done|]; by rewrite Hp, Z.eqb_refl).
  cbn [reassembler counters_in set_track]. rewrite Hpush.
  assert (Ei : default (pk_ssrc p) (inbound_media_ssrc w) = s) by (by destruct Hs as [->| ->]).
  unfold heard. destruct r as [f|].
  - destruct Hq as [q Hq]. cbn [inbound set_receiving set_track]. rewrite Hq. cbn [snd].
    destruct (_ && vf_keyframe f); cbn; rewrite Ei; auto.
  - cbn. rewrite Ei. auto.
Qed.

Lemma receive_run packets now w s f rs q :
  heard s w -> Forall (fun p => pk_ssrc p = s) packets -> packets ≠ [] ->
  push_all packets now (reassembler w) = (replicate (length packets - 1) (Ok None) ++ [Ok (Some f)], rs) ->
  enqueue f now (inbound w) = (Ok Accepted, q) ->
  heard s (receive_all packets now w) /\ reassembler (receive_all packets now w) = rs
  /\ inbound (receive_all packets now w) = q.
Proof.
  revert w. induction packets as [|p packets IH]; intros w Hh Hs Hne Hpush Hq; [done|].
  apply Forall_cons in Hs as [Hp Hs]. cbn [push_all] in Hpush.
  destruct (push_at p now (reassembler w)) as [r rs1] eqn:E1.
  destruct (push_all packets now rs1) as [os rs2] eqn:E2. injection Hpush as Hr <-.
  cbn [receive_all foldl]. destruct packets as [|p2 packets].
  - cbn in Hr, E2. injection E2 as <- <-. injection Hr as ->.
    destruct (receive_push p now w s (Some f) rs1 Hh Hp E1 (ex_intro _ q Hq)) as (H1 & H2 & H3).
    cbn. rewrite Hq in H3. auto.
  - cbn [length Nat.sub replicate app] in Hr. injection Hr as -> ->.
    destruct (receive_push p now w s None rs1 Hh Hp E1 I) as (H1 & H2 & H3).
    apply IH; try done.
    + rewrite H2, E2. cbn [length Nat.sub]. by rewrite Nat.sub_0_r.
    + by rewrite H3.
Qed.

Lemma depacketize_numbered payloads sequence timestamp p d out :
  depacketize_payloads payloads d = Some out ->
  exists d', depacketize_all (number_packets payloads sequence timestamp p) d = Some (out, d').
Proof.
  revert sequence d out. induction payloads as [|data rest IH]; intros sequence d out H; cbn in H |- *.
  - injection H as <-. by exists d.
  - destruct (depacketize data d) as [[more|e] d1]; [|done].
    destruct (depacketize_payloads rest d1) as [out'|] eqn:E; [|done]. injection H as <-.
    destruct (IH (wrap 16 (sequence + 1)) d1 out' E) as [d' ->]. by exists d'.
Qed.

Lemma number_packets_ssrc payloads sequence timestamp p :
  Forall (fun q => pk_ssrc q = ssrc p) (number_packets payloads sequence timestamp p).
Proof. revert sequence. induction payloads as [|data rest IH]; intros sequence; cbn; by constructor. Qed.

Lemma newer_by_less t t' : 0 < t - t' < 2 ^ 31 -> is_newer_timestamp t t' = true.
Proof.
  intros H. unfold is_newer_timestamp, wrap. rewrite Z.mod_small by lia.
  rewrite (proj2 (Z.eqb_neq _ _)) by lia. apply Z.ltb_lt. change (u32_max / 2 + 1) with (2 ^ 31). lia.
Qed.

Lemma validate_inv frame : validate_frame frame = Ok tt ->
  vf_codec frame = H264 /\ vf_payload frame ≠ [] /\ len (vf_payload frame) <= MAX_ENCODED_VIDEO_FRAME_BYTES
  /\ vf_timestamp frame <= u32_max /\ is_valid_annex_b (vf_payload frame) = true.
Proof.
  unfold validate_frame. destruct (bool_decide (vf_codec frame = H264)) eqn:Ec; cbn [negb]; [|done].
  destruct (bool_decide (vf_payload frame = [])) eqn:Ep; [done|].
  destruct (MAX_ENCODED_VIDEO_FRAME_BYTES <? len (vf_payload frame)) eqn:El; [done|].
  destruct (u32_max <? vf_timestamp frame) eqn:Et; [done|].
  destruct (_ || _ || _ || _ || _); [done|]. destruct (is_valid_annex_b _) eqn:Ea; cbn [negb]; [|done].
  apply bool_decide_eq_true in Ec. apply bool_decide_eq_false in Ep. bool_facts. auto 10.
Qed.

(** A reassembled access unit is a valid frame. *)
Lemma received_valid n timestamp keyframe out expires :
  is_valid_annex_b out = true -> len out <= MAX_ENCODED_VIDEO_FRAME_BYTES -> timestamp <= u32_max ->
  validate_frame (mkFrame H264 n timestamp DEFAULT_REMOTE_WIDTH DEFAULT_REMOTE_HEIGHT keyframe out expires) = Ok tt.
Proof.
  intros Ha Hl Ht. unfold validate_frame. cbn [vf_codec vf_payload vf_timestamp vf_width vf_height].
  rewrite bool_decide_eq_true_2 by done. rewrite (bool_decide_eq_false_2 (out = [])) by (by apply annex_b_nonempty).
  rewrite (proj2 (Z.ltb_ge _ _)) by lia. rewrite (proj2 (Z.ltb_ge u32_max _)) by lia. by rewrite Ha.
Qed.

Lemma packetize_ok frame pz payloads pl' :
  validate_frame frame = Ok tt -> mtu pz = H264_RTP_MTU -> FUA_HEADER_SIZE < H264_RTP_MTU - RTP_HEADER_BYTES ->
  payload (H264_RTP_MTU - RTP_HEADER_BYTES) (vf_payload frame) (payloader pz) = (Ok payloads, pl') -> payloads ≠ [] ->
  exists q pz', packetize frame pz
      = (Ok (number_packets payloads (next_sequence_number pz) (vf_timestamp frame) q), pz')
    /\ ssrc q = ssrc pz /\ mtu pz' = H264_RTP_MTU /\ payloader pz' = pl' /\ ssrc pz' = ssrc pz.
Proof.
  intros Hv Hm Hf Hp Hne. destruct (validate_inv frame Hv) as (Hc & Hn & Hl & Ht & Ha).
  unfold packetize. rewrite Hm, (proj2 (Z.leb_gt _ _)) by lia. rewrite bool_decide_eq_true_2 by done. cbn [negb].
  rewrite (bool_decide_eq_false_2 (_ = [])) by done. rewrite (proj2 (Z.ltb_ge _ _)) by lia. rewrite Ha. cbn [negb orb].
  rewrite (proj2 (Z.ltb_ge u32_max _)) by lia. rewrite Hp. destruct payloads as [|data rest]; [done|].
  eexists _, _. by split.
Qed.

(** The frame that arrives: the packets, in order, through an idle receiver. *)
Lemma receiver_step payloads sequence q frame now out last n s w :
  ReceiverIdle (vf_timestamp <$> last) n s w -> ssrc q = s -> 0 <= n < u64_max -> vf_timestamp frame <= u32_max ->
  match last with Some p => 0 < vf_timestamp frame - vf_timestamp p < 2 ^ 31 | None => True end ->
  payloads ≠ [] -> Forall (fun data => is_valid_h264_payload data = true) payloads ->
  depacketize_payloads payloads depacketizer_default = Some out ->
  is_valid_annex_b out = true -> len out <= MAX_ENCODED_VIDEO_FRAME_BYTES ->
  exists w', pop_remote_h264_screen_video now
      (receive_all (number_packets payloads sequence (vf_timestamp frame) q) now w)
    = (Some (mkFrame H264 n (vf_timestamp frame) DEFAULT_REMOTE_WIDTH DEFAULT_REMOTE_HEIGHT
               (contains_idr_nalu out) out (now + RECEIVED_FRAME_TTL)), w')
    /\ ReceiverIdle (Some (vf_timestamp frame)) (n + 1) s w'.
Proof.
  intros (Ha & Hs & HP & Hlt & Hn & Hw & Hh & Hf & Hit & His) Hq Hn64 Ht Hnew Hne Hv Hd Hout Hlen.
  set (packets := number_packets payloads sequence (vf_timestamp frame) q).
  assert (Hpne : packets ≠ []) by (by destruct payloads).
  destruct (depacketize_numbered payloads sequence (vf_timestamp frame) q _ _ Hd) as [d Hdd].
  pose proof HP as (HP1 & HP2 & HP3). injection HP1 as Epp Edd.
  destruct (push_all_delivers packets now (vf_timestamp frame) sequence (reassembler w) out d) as (rs & Hpush & HPr & Hlr & Hnr & Hwr & Hhr);
    [done|by apply number_packets_contiguous| |by left|by rewrite <- Edd|rewrite <- Epp; by apply annex_b_nonempty|rewrite <- Epp; change (len []) with 0; lia|].
  { unfold newer_than_last. rewrite Hlt. destruct last as [p|]; [|done]. cbn. by apply newer_by_less. }
  rewrite Hn, Hw, Hh, <- Epp in Hpush. cbn [app] in Hpush. set (f := mkFrame H264 n _ _ _ _ _ _) in Hpush.
  destruct (enqueue_empty f now (inbound w)) as [st Hq'];
    [by apply received_valid|assert (0 < RECEIVED_FRAME_TTL) by done; cbn; lia|done| |].
  { unfold is_non_monotonic. rewrite Hit. cbn.
    rewrite (proj2 (orb_false_iff _ _)); [done|]. split.
    - destruct (last_sequence (inbound w)); [|done]. apply Z.leb_gt. lia.
    - destruct last; [|done]. cbn. apply Z.leb_gt. lia. }
  destruct (receive_run packets now w s f rs _ (conj Ha Hs)
              ltac:(rewrite <- Hq; apply number_packets_ssrc) Hpne Hpush Hq') as ([Ha' Hs'] & Hrs & Hin).
  unfold pop_remote_h264_screen_video. rewrite Hin, pop_single by (assert (0 < RECEIVED_FRAME_TTL) by done; cbn; lia).
  eexists. split; [reflexivity|]. unfold ReceiverIdle. cbn. rewrite Hrs.
  split_and!; try done; try congruence; [|lia].
  rewrite Hnr, Hn. unfold wrap. rewrite Z.mod_small; [done|]. unfold u64_max in *. lia.
Qed.

Lemma carry_step signaling frame now out last n s v w pl payloads pl' :
  sg_state signaling = SigConnected -> FUA_HEADER_SIZE < H264_RTP_MTU - RTP_HEADER_BYTES ->
  SenderIdle last pl s v -> ReceiverIdle (vf_timestamp <$> last) n s w -> 0 <= n < u64_max ->
  validate_frame frame = Ok tt -> now < vf_expires_at frame ->
  match last with
  | Some p => vf_sequence p < vf_sequence frame /\ 0 < vf_timestamp frame - vf_timestamp p < 2 ^ 31
  | None => True
  end ->
  payload (H264_RTP_MTU - RTP_HEADER_BYTES) (vf_payload frame) pl = (Ok payloads, pl') ->
  payloads ≠ [] -> Forall (fun data => is_valid_h264_payload data = true) payloads ->
  depacketize_payloads payloads depacketizer_default = Some out ->
  is_valid_annex_b out = true -> len out <= MAX_ENCODED_VIDEO_FRAME_BYTES ->
  exists v' w', carry signaling frame now v w
      = (Some (mkFrame H264 n (vf_timestamp frame) DEFAULT_REMOTE_WIDTH DEFAULT_REMOTE_HEIGHT
                 (contains_idr_nalu out) out (now + RECEIVED_FRAME_TTL)), v', w')
    /\ SenderIdle (Some frame) pl' s v' /\ ReceiverIdle (Some (vf_timestamp frame)) (n + 1) s w'.
Proof.
  intros Hc Hfua ([id Hid] & Hq & [Hls Hlt] & Hsent & pz & Hpz & Hmtu & Hpl & Hssrc) HR Hn Hv Hx Hord Hpay Hne Hval Hd Hout Hlen.
  unfold carry, enqueue_h264_screen_video. rewrite Hid.
  destruct (enqueue_empty frame now (outbound v) Hv Hx Hq) as [st ->].
  { unfold is_non_monotonic. rewrite Hls, Hlt. destruct last; [|done]. cbn. rewrite !(proj2 (Z.leb_gt _ _)) by lia. done. }
  cbn [snd]. set (v1 := set_outbound _ v).
  rewrite <- Hpl in Hpay. destruct (packetize_ok frame pz payloads pl' Hv Hmtu Hfua Hpay Hne) as (q & pz' & Hpk & Eq & Em & Ep & Es).
  destruct (flush_one signaling frame now v1 pz
              (number_packets payloads (next_sequence_number pz) (vf_timestamp frame) q) pz' st (Some (vf_sequence frame)) (Some (vf_timestamp frame))
              (pending_keyframe_request (outbound v)) Hc)
    as (r & v' & Hfl & H1 & H2 & H3 & H4 & H5 & H6); try done.
  rewrite Hfl.
  destruct (receiver_step payloads (next_sequence_number pz) q frame now out last n s w HR) as (w' & Hpop & HR'); try done.
  { congruence. }
  { by apply validate_inv. }
  { destruct last; [lia|done]. }
  rewrite Hpop. exists v', w'. split; [done|]. split; [|done]. split_and!; try done; [lia..|]. exists pz'. split_and!; congruence.
Qed.

Lemma carry_all_delivers signaling l outs last n s v w pl :
  sg_state signaling = SigConnected -> FUA_HEADER_SIZE < H264_RTP_MTU - RTP_HEADER_BYTES ->
  SenderIdle last pl s v -> ReceiverIdle (vf_timestamp <$> last) n s w -> 0 <= n -> n + len l <= u64_max ->
  streamable last l -> carried l outs pl -> carry_all signaling l v w = expected_frames n l outs.
Proof.
  intros Hc Hfua. revert outs last n v w pl. induction l as [|[frame now] l IH]; intros outs last n v w pl HS HR Hn Hlen Hstr Hcar.
  - by destruct outs.
  - destruct outs as [|out outs]; [done|]. destruct Hstr as (Hv & Hx & Hord & Hstr).
    destruct Hcar as (payloads & pl' & Hpay & Hne & Hval & Hd & Hout & Hlo & Hcar). rewrite len_cons in Hlen.
    pose proof (len_nonneg l).
    destruct (carry_step signaling frame now out last n s v w pl payloads pl' Hc Hfua HS HR) as (v' & w' & E & HS' & HR'); try done; [lia|].
    cbn [carry_all expected_frames]. rewrite E. f_equal.
    apply (IH outs (Some frame) (n + 1) v' w' pl'); try done; lia.
Qed.

End Stream.

(** ** Two frames *)

#[local] Existing Instance single_units.

Definition two_frames : list (EncodedVideoFrame * Z) :=
  [(two_unit_frame, 0);
   (mkFrame H264 8 93000 640 480 false (CODE4 ++ [Byte.x41; Byte.x05]) 1000, 40)].

