(* ===== verification/MediaQos.v ===== *)
(** * Media queues with a quality-of-service policy

    Models [network-webrtc/src/qos.rs]: three queues, one per kind of media, each
    bounded in frames and bytes.  Audio and video drop what is old, a new video
    keyframe drops what is before it, and the data channel refuses what does not
    fit.  The arrays of three are functions of the kind.

    The theorem follows any sequence of calls: byte counts are exact and bounded,
    frames come out in the order they went in, and the data channel loses a frame
    only by expiry. *)
From stdpp Require Import functions.
From S2P Require Import Prelude.

Inductive MediaKind := Audio | Video | DataChannel.

#[export] Instance MediaKind_eq_dec : EqDecision MediaKind.
Proof. solve_decision. Defined.

Record MediaQosPolicy := mkPolicy {
  max_frames : Z;
  max_bytes : Z;
  qos_ttl : Z;
  priority : Z;
  discard_old : bool;
}.

Definition audio_policy : MediaQosPolicy := mkPolicy 64 (256 * 1024) (from_millis 250) 2 true.
Definition video_policy : MediaQosPolicy := mkPolicy 4 (4 * 1024 * 1024) (from_millis 250) 1 true.
Definition data_channel_policy : MediaQosPolicy := mkPolicy 64 (1024 * 1024) (from_secs 5) 3 false.

Record MediaFrame := mkMediaFrame {
  mf_kind : MediaKind;
  mf_sequence : Z;
  mf_timestamp_ms : Z;
  mf_keyframe : bool;
  mf_expires_at : Z;
  mf_payload : bytes;
}.

Definition media_frame_new (kind : MediaKind) (sequence timestamp_ms : Z) (keyframe : bool) (payload : bytes)
    (now ttl : Z) : MediaFrame :=
  mkMediaFrame kind sequence timestamp_ms keyframe (now + ttl) payload.

Inductive QosEnqueueResult := QosAccepted | QosAcceptedAfterDropping (count : Z) | QosDroppedIncoming.
Inductive QosError := QosEmptyPayload | QosPayloadTooLarge | QosQueueFull.

Record QosStats := mkQosStats {
  q_enqueued : Z;
  q_dequeued : Z;
  q_dropped_expired : Z;
  q_dropped_overflow : Z;
  q_dropped_on_disconnect : Z;
  q_rejected_backpressure : Z;
  q_keyframe_requests : Z;
}.

Record MediaQos := mkQos {
  policies : MediaKind -> MediaQosPolicy;
  media_queues : MediaKind -> list MediaFrame;
  queue_bytes : MediaKind -> Z;
  qos_stats : QosStats;
  keyframe_requested : bool;
}.

Definition default_policies (kind : MediaKind) : MediaQosPolicy :=
  match kind with Audio => audio_policy | Video => video_policy | DataChannel => data_channel_policy end.

Definition from_config (policies : MediaKind -> MediaQosPolicy) : MediaQos :=
  mkQos policies (fun _ => []) (fun _ => 0) (mkQosStats 0 0 0 0 0 0 0) false.

Definition plus (a b : Z) : Z := saturating_add u64_max a b.

Definition add_stats (enqueued dequeued expired overflow disconnect rejected requests : Z) (s : QosStats) : QosStats :=
  mkQosStats (plus (q_enqueued s) enqueued) (plus (q_dequeued s) dequeued) (plus (q_dropped_expired s) expired)
    (plus (q_dropped_overflow s) overflow) (plus (q_dropped_on_disconnect s) disconnect)
    (plus (q_rejected_backpressure s) rejected) (plus (q_keyframe_requests s) requests).

Definition set_queue (kind : MediaKind) (l : list MediaFrame) (n : Z) (q : MediaQos) : MediaQos :=
  mkQos (policies q) (<[kind := l]> (media_queues q)) (<[kind := n]> (queue_bytes q)) (qos_stats q) (keyframe_requested q).
Definition on_stats (f : QosStats -> QosStats) (q : MediaQos) : MediaQos :=
  mkQos (policies q) (media_queues q) (queue_bytes q) (f (qos_stats q)) (keyframe_requested q).

Definition qos_drop_all (kind : MediaKind) (q : MediaQos) : MediaQos := set_queue kind [] 0 q.

(** The [while] loop over the front of one queue: what is left, its bytes and how
    many were taken off. *)
Fixpoint expire (now : Z) (l : list MediaFrame) (n k : Z) : list MediaFrame * Z * Z :=
  match l with
  | [] => ([], n, k)
  | f :: rest =>
    if mf_expires_at f <=? now then expire now rest (saturating_sub n (len (mf_payload f))) (k + 1) else (l, n, k)
  end.

Definition evict_queue (now : Z) (q : MediaQos) (kind : MediaKind) : MediaQos :=
  let '(l, n, k) := expire now (media_queues q kind) (queue_bytes q kind) 0 in
  on_stats (add_stats 0 0 k 0 0 0 0) (set_queue kind l n q).

Definition qos_evict_expired (now : Z) (q : MediaQos) : MediaQos :=
  foldl (evict_queue now) q [Audio; Video; DataChannel].

Definition no_room (policy : MediaQosPolicy) (size : Z) (l : list MediaFrame) (n : Z) : bool :=
  (max_frames policy <=? len l) || (max_bytes policy <? saturating_add u64_max n size).

(** The [while] loop of [enqueue]: what is left, its bytes and how many were
    dropped, or [None] when the policy does not discard. *)
Fixpoint make_room (policy : MediaQosPolicy) (size : Z) (l : list MediaFrame) (n k : Z) :
    option (list MediaFrame * Z * Z) :=
  if no_room policy size l n then
    if negb (discard_old policy) then None
    else
      match l with
      | [] => Some ([], n, k)
      | f :: rest => make_room policy size rest (saturating_sub n (len (mf_payload f))) (k + 1)
      end
  else Some (l, n, k).

Definition qos_enqueue (frame : MediaFrame) (now : Z) (q : MediaQos) :
    result QosEnqueueResult QosError * MediaQos :=
  let kind := mf_kind frame in
  let policy := policies q kind in
  let size := len (mf_payload frame) in
  if bool_decide (mf_payload frame = []) then (Err QosEmptyPayload, q)
  else if max_bytes policy <? size then (Err QosPayloadTooLarge, q)
  else if mf_expires_at frame <=? now then (Ok QosDroppedIncoming, on_stats (add_stats 0 0 1 0 0 0 0) q)
  else
    let q := qos_evict_expired now q in
    let video := bool_decide (kind = Video) in
    let q := if video && mf_keyframe frame then qos_drop_all kind q else q in
    if video && negb (mf_keyframe frame) && existsb mf_keyframe (media_queues q kind)
       && no_room policy size (media_queues q kind) (queue_bytes q kind)
    then (Ok QosDroppedIncoming, on_stats (add_stats 0 0 0 1 0 0 0) q)
    else
      match make_room policy size (media_queues q kind) (queue_bytes q kind) 0 with
      | None => (Err QosQueueFull, on_stats (add_stats 0 0 0 0 0 1 0) q)
      | Some (l, n, dropped) =>
        (Ok (if dropped =? 0 then QosAccepted else QosAcceptedAfterDropping dropped),
         on_stats (add_stats 1 0 0 dropped 0 0 0)
           (set_queue kind (l ++ [frame]) (saturating_add u64_max n size) q))
      end.

(** [max_by_key] takes the last of equal priorities. *)
Definition next_queue (q : MediaQos) : option MediaKind :=
  foldl (fun best kind =>
           match best with
           | Some b => if priority (policies q b) <=? priority (policies q kind) then Some kind else best
           | None => Some kind
           end) None (filter (fun kind => media_queues q kind ≠ []) [Audio; Video; DataChannel]).

Definition qos_pop_next (now : Z) (q : MediaQos) : option MediaFrame * MediaQos :=
  let q := qos_evict_expired now q in
  match next_queue q with
  | None => (None, q)
  | Some kind =>
    match media_queues q kind with
    | [] => (None, q)
    | frame :: rest =>
      (Some frame,
       on_stats (add_stats 0 1 0 0 0 0 0)
         (set_queue kind rest (saturating_sub (queue_bytes q kind) (len (mf_payload frame))) q))
    end
  end.

Definition qos_request_keyframe (q : MediaQos) : MediaQos :=
  if keyframe_requested q then q
  else mkQos (policies q) (media_queues q) (queue_bytes q) (add_stats 0 0 0 0 0 0 1 (qos_stats q)) true.

Definition qos_on_connection_lost (q : MediaQos) : MediaQos :=
  qos_request_keyframe
    (foldl (fun q kind => qos_drop_all kind (on_stats (add_stats 0 0 0 0 (len (media_queues q kind)) 0 0) q)) q [Audio; Video]).

Definition qos_take_keyframe_request (q : MediaQos) : bool * MediaQos :=
  (keyframe_requested q, mkQos (policies q) (media_queues q) (queue_bytes q) (qos_stats q) false).

(** ** Executions *)

Inductive QosOp :=
| QosOpEnqueue (frame : MediaFrame) (now : Z)
| QosOpPop (now : Z)
| QosOpConnectionLost
| QosOpTakeRequest.

(** With the queues: the frames of each kind that were taken in and popped, and
    the times seen. *)
Record QosRun := mkQosRun {
  rq : MediaQos;
  accepted : MediaKind -> list MediaFrame;
  popped : MediaKind -> list MediaFrame;
  clocks : list Z;
}.

Definition takes_in (r : result QosEnqueueResult QosError) : bool :=
  match r with Ok QosAccepted | Ok (QosAcceptedAfterDropping _) => true | _ => false end.

Definition qos_op (r : QosRun) (o : QosOp) : QosRun :=
  match o with
  | QosOpEnqueue frame now =>
    let '(res, q) := qos_enqueue frame now (rq r) in
    mkQosRun q (if takes_in res then <[mf_kind frame := accepted r (mf_kind frame) ++ [frame]]> (accepted r) else accepted r)
      (popped r) (now :: clocks r)
  | QosOpPop now =>
    match qos_pop_next now (rq r) with
    | (None, q) => mkQosRun q (accepted r) (popped r) (now :: clocks r)
    | (Some frame, q) =>
      mkQosRun q (accepted r) (<[mf_kind frame := popped r (mf_kind frame) ++ [frame]]> (popped r)) (now :: clocks r)
    end
  | QosOpConnectionLost => mkQosRun (qos_on_connection_lost (rq r)) (accepted r) (popped r) (clocks r)
  | QosOpTakeRequest => mkQosRun (qos_take_keyframe_request (rq r)).2 (accepted r) (popped r) (clocks r)
  end.

Definition qos_run (policies : MediaKind -> MediaQosPolicy) (ops : list QosOp) : QosRun :=
  foldl qos_op (mkQosRun (from_config policies) (fun _ => []) (fun _ => []) []) ops.

(** Bounds that are counts of a [usize], not its largest value. *)
Definition sane (policies : MediaKind -> MediaQosPolicy) : Prop :=
  forall kind, 0 <= max_frames (policies kind) /\ 0 <= max_bytes (policies kind) < u64_max.

Definition total (l : list MediaFrame) : Z := foldr (fun f n => len (mf_payload f) + n) 0 l.

Lemma total_app l k : total (l ++ k) = total l + total k.
Proof. unfold total. induction l as [|f l IH]; [done|]. cbn [app foldr]. lia. Qed.
Lemma total_nonneg l : 0 <= total l.
Proof. unfold total. induction l as [|f l IH]; [done|]. cbn [foldr]. pose proof (len_nonneg (mf_payload f)). lia. Qed.

(** One queue: its bytes and bounds, the order of what came out of it and is in
    it, and for a data channel that does not discard, what became of every
    frame. *)
Record Lane (kind : MediaKind) (policy : MediaQosPolicy) (l : list MediaFrame) (n : Z)
    (acc pop : list MediaFrame) (times : list Z) : Prop := mkLane {
  lane_bytes : n = total l;
  lane_limit : n <= max_bytes policy;
  lane_frames : len l <= Z.max 1 (max_frames policy);
  lane_kind : Forall (fun f => mf_kind f = kind) l;
  lane_order : pop ++ l `sublist_of` acc;
  lane_kept : kind = DataChannel -> discard_old policy = false ->
    exists gone, acc ≡ₚ pop ++ l ++ gone /\ Forall (fun f => Exists (fun t => mf_expires_at f <= t) times) gone;
}.

Lemma lane_times kind policy l n acc pop times t :
  Lane kind policy l n acc pop times -> Lane kind policy l n acc pop (t :: times).
Proof.
  intros [H1 H2 H3 H4 H5 H6]. constructor; try done. intros Hk Hd. destruct (H6 Hk Hd) as (gone & E & Hg).
  exists gone. split; [done|]. eapply Forall_impl; [done|]. intros f Hf. by apply Exists_cons_tl.
Qed.

(** Frames taken off the front: on a data channel only expired ones. *)
Lemma lane_suffix kind policy gone l n acc pop times :
  Lane kind policy (gone ++ l) n acc pop times ->
  (kind = DataChannel -> discard_old policy = false -> Forall (fun f => Exists (fun t => mf_expires_at f <= t) times) gone) ->
  Lane kind policy l (total l) acc pop times.
Proof.
  intros [H1 H2 H3 H4 H5 H6] Hg. rewrite total_app in H1. rewrite len_app in H3. apply Forall_app in H4 as [_ H4].
  pose proof (total_nonneg gone). pose proof (len_nonneg gone). constructor; try done; try lia.
  - etrans; [|exact H5]. apply sublist_app; [done|]. by apply sublist_inserts_l.
  - intros Hk Hd. destruct (H6 Hk Hd) as (g & E & HF). exists (gone ++ g). split; [|by apply Forall_app; split; [apply Hg|]].
    rewrite E. rewrite <- !(assoc (++)). f_equiv. rewrite !(assoc (++)). f_equiv. apply Permutation_app_comm.
Qed.

Lemma lane_push kind policy l f acc pop times :
  Lane kind policy l (total l) acc pop times -> mf_kind f = kind -> total l + len (mf_payload f) <= max_bytes policy ->
  len l + 1 <= Z.max 1 (max_frames policy) ->
  Lane kind policy (l ++ [f]) (total l + len (mf_payload f)) (acc ++ [f]) pop times.
Proof.
  intros [H1 H2 H3 H4 H5 H6] Hk Hb Hf. constructor; try done.
  - rewrite total_app. cbn. lia.
  - by rewrite len_app.
  - apply Forall_app. split; [done|]. by constructor.
  - rewrite (assoc (++)). by apply sublist_app.
  - intros Ek Hd. destruct (H6 Ek Hd) as (g & E & HF). exists g. split; [|done].
    rewrite E. rewrite <- !(assoc (++)). do 2 f_equiv. apply Permutation_app_comm.
Qed.

Lemma lane_pop kind policy f l n acc pop times :
  Lane kind policy (f :: l) n acc pop times ->
  Lane kind policy l (saturating_sub n (len (mf_payload f))) acc (pop ++ [f]) times.
Proof.
  intros [H1 H2 H3 H4 H5 H6]. rewrite len_cons in H3. cbn in H1. apply Forall_cons in H4 as [_ H4].
  pose proof (total_nonneg l) as Hl. pose proof (len_nonneg (mf_payload f)). fold (total l) in H1. unfold saturating_sub.
  constructor; try done; try lia.
  - by rewrite <- (assoc (++)).
  - intros Ek Hd. destruct (H6 Ek Hd) as (g & E & HF). exists g. split; [|done]. by rewrite E, <- (assoc (++)).
Qed.

Definition Lanes (q : MediaQos) (acc pop : MediaKind -> list MediaFrame) (times : list Z) : Prop :=
  forall kind, Lane kind (policies q kind) (media_queues q kind) (queue_bytes q kind) (acc kind) (pop kind) times.

(** Replacing one queue. *)
Lemma lanes_set kind l n q acc pop acc' pop' times :
  Lanes q acc pop times -> Lane kind (policies q kind) l n (acc' kind) (pop' kind) times ->
  (forall other, kind ≠ other -> acc' other = acc other /\ pop' other = pop other) ->
  Lanes (set_queue kind l n q) acc' pop' times.
Proof.
  intros H Hk Ho other. cbn. destruct (decide (kind = other)) as [<-|Hne].
  - by rewrite !fn_lookup_insert.
  - rewrite !fn_lookup_insert_ne by done. destruct (Ho other Hne) as [-> ->]. apply H.
Qed.

Lemma expire_spec now l n k :
  n = total l ->
  let '(l', n', k') := expire now l n k in
  exists gone, l = gone ++ l' /\ n' = total l' /\ Forall (fun f => mf_expires_at f <= now) gone
    /\ match l' with f :: _ => now < mf_expires_at f | [] => True end.
Proof.
  revert n k. induction l as [|f l IH]; intros n k Hn; cbn [expire]; [by exists []|].
  destruct (mf_expires_at f <=? now) eqn:E; bool_facts.
  - specialize (IH (saturating_sub n (len (mf_payload f))) (k + 1)). cbn in Hn. fold (total l) in Hn.
    destruct (expire now l _ _) as [[l' n'] k']. destruct IH as (gone & -> & Hn' & HF & Hh).
    { unfold saturating_sub. pose proof (total_nonneg l). lia. }
    exists (f :: gone). split_and!; try done. by constructor.
  - exists []. by split_and!.
Qed.

Definition Fresh (now : Z) (q : MediaQos) (kind : MediaKind) : Prop :=
  match media_queues q kind with f :: _ => now < mf_expires_at f | [] => True end.

Lemma evict_queue_lanes now q kind acc pop times :
  Lanes q acc pop times -> now ∈ times ->
  Lanes (evict_queue now q kind) acc pop times /\ Fresh now (evict_queue now q kind) kind
  /\ (forall other, kind ≠ other -> Fresh now q other -> Fresh now (evict_queue now q kind) other)
  /\ policies (evict_queue now q kind) = policies q.
Proof.
  intros H Hin. unfold evict_queue. pose proof (expire_spec now (media_queues q kind) (queue_bytes q kind) 0 (lane_bytes _ _ _ _ _ _ _ (H kind))) as Hs.
  destruct (expire _ _ _ _) as [[l n] k]. destruct Hs as (gone & E & -> & HF & Hh). split_and!; try done.
  - change (Lanes (set_queue kind l (total l) q) acc pop times). eapply lanes_set; [done| |done].
    eapply lane_suffix; [rewrite <- E; apply H|]. intros _ _. eapply Forall_impl; [done|]. intros f Hf.
    apply Exists_exists. by exists now.
  - unfold Fresh. cbn. by rewrite fn_lookup_insert.
  - intros other Hne. unfold Fresh. cbn. by rewrite fn_lookup_insert_ne.
Qed.

Lemma evict_expired_lanes now q acc pop times :
  Lanes q acc pop times -> now ∈ times ->
  Lanes (qos_evict_expired now q) acc pop times /\ (forall kind, Fresh now (qos_evict_expired now q) kind)
  /\ policies (qos_evict_expired now q) = policies q.
Proof.
  intros H Hin. unfold qos_evict_expired. cbn [foldl].
  destruct (evict_queue_lanes now q Audio acc pop times H Hin) as (H1 & F1 & _ & P1).
  destruct (evict_queue_lanes now _ Video acc pop times H1 Hin) as (H2 & F2 & K2 & P2).
  destruct (evict_queue_lanes now _ DataChannel acc pop times H2 Hin) as (H3 & F3 & K3 & P3).
  split_and!; [done| |congruence]. intros []; [apply K3, K2|apply K3|]; done.
Qed.

(** Making room: on success the frame fits, or the queue takes no frames at all
    and is empty. *)
Lemma make_room_spec policy size l n k l' n' k' :
  n = total l -> make_room policy size l n k = Some (l', n', k') ->
  exists gone, l = gone ++ l' /\ n' = total l' /\ (discard_old policy = false -> gone = [])
    /\ (no_room policy size l' n' = false \/ l' = []).
Proof.
  revert n k. induction l as [|f l IH]; intros n k Hn; cbn [make_room].
  - destruct (no_room policy size [] n) eqn:Er; [destruct (negb _); [done|]|]; intros [= <- <- <-]; exists []; auto 10.
  - destruct (no_room policy size (f :: l) n) eqn:Er.
    + destruct (discard_old policy) eqn:Ed; cbn [negb]; [|done]. intros Hm. cbn in Hn. fold (total l) in Hn.
      destruct (IH (saturating_sub n (len (mf_payload f))) (k + 1)) as (gone & -> & Hn' & _ & Hr); [|done|].
      { unfold saturating_sub. pose proof (total_nonneg l). lia. }
      exists (f :: gone). by split_and!.
    + intros [= <- <- <-]. exists []. auto 10.
Qed.

(** What one call of [enqueue] does to the queues. *)
Lemma qos_enqueue_lanes frame now q acc pop times :
  sane (policies q) -> Lanes q acc pop times -> now ∈ times ->
  let '(res, q') := qos_enqueue frame now q in
  policies q' = policies q
  /\ Lanes q' (if takes_in res then <[mf_kind frame := acc (mf_kind frame) ++ [frame]]> acc else acc) pop times.
Proof.
  intros Hs H Hin. unfold qos_enqueue. destruct (bool_decide (mf_payload frame = [])); [done|].
  destruct (max_bytes (policies q (mf_kind frame)) <? len (mf_payload frame)) eqn:Eb; [done|].
  destruct (mf_expires_at frame <=? now); [done|].
  destruct (evict_expired_lanes now q acc pop times H Hin) as (H1 & _ & P1).
  set (q1 := qos_evict_expired now q) in *. set (kind := mf_kind frame) in *.
  set (q2 := if bool_decide (kind = Video) && mf_keyframe frame then qos_drop_all kind q1 else q1).
  assert (H2 : Lanes q2 acc pop times /\ policies q2 = policies q).
  { unfold q2. destruct (bool_decide (kind = Video)) eqn:Ev; cbn [andb]; [|done]. apply bool_decide_eq_true in Ev.
    destruct (mf_keyframe frame); [|done]. split; [|done]. eapply lanes_set; [done| |done].
    eapply (lane_suffix _ _ (media_queues q1 kind) []); [rewrite app_nil_r; apply H1|]. congruence. }
  clearbody q2. destruct H2 as [H2 P2]. cbn zeta. fold kind.
  destruct (bool_decide (kind = Video) && negb (mf_keyframe frame) && _ && _); [done|].
  destruct (make_room _ _ _ _ _) as [[[l n] k]|] eqn:Em; [|done].
  destruct (make_room_spec _ _ _ _ _ _ _ _ (lane_bytes _ _ _ _ _ _ _ (H2 kind)) Em) as (gone & El & -> & Hg & Hroom).
  replace (takes_in (Ok (if k =? 0 then QosAccepted else QosAcceptedAfterDropping k))) with true by (by destruct (k =? 0)).
  split; [done|]. set (size := len (mf_payload frame)) in *.
  assert (HL : Lane kind (policies q kind) l (total l) (acc kind) (pop kind) times).
  { rewrite <- P2. eapply lane_suffix; [rewrite <- El; apply H2|]. intros _ Hd. rewrite P2 in Hd. by rewrite Hg. }
  destruct (Hs kind) as [Hf Hb]. pose proof (total_nonneg l). pose proof (len_nonneg (mf_payload frame)).
  assert (Hfit : total l + size <= max_bytes (policies q kind) /\ len l + 1 <= Z.max 1 (max_frames (policies q kind))).
  { bool_facts. destruct Hroom as [Hroom| ->]; [|change (total []) with 0; change (len []) with 0; lia].
    unfold no_room, saturating_add in Hroom. apply orb_false_iff in Hroom as [? ?]. bool_facts. lia. }
  change (Lanes (set_queue kind (l ++ [frame]) (saturating_add u64_max (total l) size) q2)
            (<[kind := acc kind ++ [frame]]> acc) pop times).
  replace (saturating_add u64_max (total l) size) with (total l + size) by (unfold saturating_add; lia).
  eapply lanes_set; [done| |].
  - rewrite P2, fn_lookup_insert. by destruct Hfit; apply lane_push.
  - intros other Hne. by rewrite fn_lookup_insert_ne.
Qed.

(** The queue served: not empty, and none of a higher priority is. *)
Lemma next_queue_spec q :
  match next_queue q with
  | None => forall kind, media_queues q kind = []
  | Some kind => media_queues q kind ≠ []
      /\ forall other, priority (policies q kind) < priority (policies q other) -> media_queues q other = []
  end.
Proof.
  unfold next_queue. rewrite !filter_cons, filter_nil.
  destruct (decide (media_queues q Audio ≠ [])) as [Ha|Ha], (decide (media_queues q Video ≠ [])) as [Hv|Hv],
    (decide (media_queues q DataChannel ≠ [])) as [Hd|Hd]; cbn [foldl];
    repeat match goal with |- context [if ?a <=? ?b then _ else _] => destruct (a <=? b) eqn:?; cbn [foldl] end; bool_facts;
    try (split; [done|]); intros []; intros; try lia; by apply dec_stable.
Qed.

Lemma qos_pop_next_lanes now q acc pop times :
  Lanes q acc pop times -> now ∈ times ->
  match qos_pop_next now q with
  | (None, q') => policies q' = policies q /\ Lanes q' acc pop times /\ forall kind, media_queues q' kind = []
  | (Some f, q') => policies q' = policies q
      /\ Lanes q' acc (<[mf_kind f := pop (mf_kind f) ++ [f]]> pop) times /\ now < mf_expires_at f
      /\ forall kind, priority (policies q (mf_kind f)) < priority (policies q kind) -> media_queues q' kind = []
  end.
Proof.
  intros H Hin. unfold qos_pop_next. destruct (evict_expired_lanes now q acc pop times H Hin) as (H1 & F1 & P1).
  set (q1 := qos_evict_expired now q) in *. pose proof (next_queue_spec q1) as Hn.
  destruct (next_queue q1) as [kind|]; [|done]. destruct Hn as [Hne Hp]. specialize (F1 kind). pose proof (H1 kind) as HL.
  unfold Fresh in F1. destruct (media_queues q1 kind) as [|f l] eqn:El; [done|].
  pose proof (lane_kind _ _ _ _ _ _ _ HL) as Hk. apply Forall_cons in Hk as [Hk _]. rewrite Hk, <- P1.
  split_and!; try done.
  - change (Lanes (set_queue kind l (saturating_sub (queue_bytes q1 kind) (len (mf_payload f))) q1) acc
              (<[kind := pop kind ++ [f]]> pop) times).
    eapply lanes_set; [done| |].
    + rewrite fn_lookup_insert. by apply lane_pop.
    + intros other Hne'. by rewrite fn_lookup_insert_ne.
  - intros other Hlt. cbn. rewrite fn_lookup_insert_ne by (intros <-; lia). by apply Hp.
Qed.

Lemma connection_lost_lanes q acc pop times :
  Lanes q acc pop times ->
  policies (qos_on_connection_lost q) = policies q /\ Lanes (qos_on_connection_lost q) acc pop times
  /\ (forall kind, media_queues (qos_on_connection_lost q) kind
        = match kind with DataChannel => media_queues q DataChannel | _ => [] end)
  /\ keyframe_requested (qos_on_connection_lost q) = true.
Proof.
  intros H.
  assert (Hd : forall q kind, kind ≠ DataChannel -> Lanes q acc pop times -> Lanes (qos_drop_all kind q) acc pop times).
  { intros q' kind Hne H'. eapply lanes_set; [done| |done].
    eapply (lane_suffix _ _ (media_queues q' kind) []); [rewrite app_nil_r; apply H'|]. congruence. }
  unfold qos_on_connection_lost. cbn [foldl]. set (q2 := qos_drop_all Video _).
  assert (H2 : Lanes q2 acc pop times) by (apply Hd; [done|]; apply (Hd q Audio); done).
  unfold qos_request_keyframe. destruct (keyframe_requested q2) eqn:Ek; (split_and!; [done|exact H2| |done]); intros []; done.
Qed.

Lemma qos_run_lanes policies ops : sane policies ->
  let r := qos_run policies ops in
  MediaQos.policies (rq r) = policies /\ Lanes (rq r) (accepted r) (popped r) (clocks r).
Proof.
  intros Hs. induction ops as [|o ops IH] using rev_ind.
  - split; [done|]. intros kind. specialize (Hs kind) as [? ?].
    constructor; [done|cbn; lia|change (0 <= Z.max 1 (max_frames (policies kind))); lia|constructor|done|]. intros _ _. by exists [].
  - unfold qos_run in *. rewrite foldl_app. cbn [foldl]. set (r := foldl qos_op _ ops) in *. cbn zeta in *.
    destruct IH as [P H]. assert (Hnow : forall t, Lanes (rq r) (accepted r) (popped r) (t :: clocks r))
      by (intros t kind; apply lane_times, H).
    destruct o as [frame now|now| |]; cbn [qos_op].
    + pose proof (qos_enqueue_lanes frame now (rq r) _ _ _ ltac:(by rewrite P) (Hnow now) ltac:(set_solver)) as Hq.
      destruct (qos_enqueue frame now (rq r)) as [res q']. destruct Hq as [E Hq]. split; [by rewrite <- P|done].
    + pose proof (qos_pop_next_lanes now (rq r) _ _ _ (Hnow now) ltac:(set_solver)) as Hq.
      destruct (qos_pop_next now (rq r)) as [[f|] q']; destruct Hq as (E & Hq & _); (split; [by rewrite <- P|done]).
    + destruct (connection_lost_lanes (rq r) _ _ _ H) as (E & Hq & _). split; [by rewrite <- P|done].
    + done.
Qed.

(** C31. Whatever is done to the media queues, the byte count of each queue is the
    bytes it holds and within its limit, as is the number of frames; what was
    popped followed by what is queued is in the order it was taken in; a frame
    taken in by a data channel that does not discard was popped, is queued or has
    expired, each once; a pop gives an unexpired frame of the highest priority
    that has one; and a lost connection empties audio and video, leaves the data
    channel, and asks for a keyframe. *)
Theorem media_qos_accounted policies ops : sane policies ->
  let r := qos_run policies ops in
  let q := rq r in
  (forall kind, queue_bytes q kind = total (media_queues q kind)
     /\ queue_bytes q kind <= max_bytes (policies kind)
     /\ len (media_queues q kind) <= Z.max 1 (max_frames (policies kind))
     /\ popped r kind ++ media_queues q kind `sublist_of` accepted r kind)
  /\ (discard_old (policies DataChannel) = false ->
      exists gone, accepted r DataChannel ≡ₚ popped r DataChannel ++ media_queues q DataChannel ++ gone
        /\ Forall (fun f => Exists (fun t => mf_expires_at f <= t) (clocks r)) gone)
  /\ (forall now, match qos_pop_next now q with
        | (Some f, q') => now < mf_expires_at f
            /\ forall kind, priority (policies (mf_kind f)) < priority (policies kind) -> media_queues q' kind = []
        | (None, q') => forall kind, media_queues q' kind = []
        end)
  /\ (forall kind, media_queues (qos_on_connection_lost q) kind
        = match kind with DataChannel => media_queues q DataChannel | _ => [] end)
  /\ keyframe_requested (qos_on_connection_lost q) = true.
Proof.
  intros Hs r q. destruct (qos_run_lanes policies ops Hs) as [P H]. fold r q in P, H. rewrite <- P. split_and!.
  - intros kind. destruct (H kind). by split_and!.
  - intros Hd. by apply (H DataChannel).
  - intros now. pose proof (qos_pop_next_lanes now q (accepted r) (popped r) (now :: clocks r)
      ltac:(intros kind; apply lane_times, H) ltac:(set_solver)) as Hp.
    destruct (qos_pop_next now q) as [[f|] q']; destruct Hp as (_ & _ & Hp); done.
  - by apply (connection_lost_lanes q _ _ _ H).
  - by apply (connection_lost_lanes q _ _ _ H).
Qed.

(** Witness for C31. *)
Lemma media_qos_accounted_witness :
  let r := qos_run default_policies
             [QosOpEnqueue (media_frame_new DataChannel 1 0 false [Byte.x01] 0 10) 0;
              QosOpEnqueue (media_frame_new Video 1 0 true [Byte.x02; Byte.x03] 0 100) 0; QosOpPop 20] in
  queue_bytes (rq r) Video = total (media_queues (rq r) Video) /\ accepted r DataChannel ≠ [] /\ popped r DataChannel = [].
Proof.
  intros r. destruct (media_qos_accounted default_policies
             [QosOpEnqueue (media_frame_new DataChannel 1 0 false [Byte.x01] 0 10) 0;
              QosOpEnqueue (media_frame_new Video 1 0 true [Byte.x02; Byte.x03] 0 100) 0; QosOpPop 20]) as (H & _).
  - intros []; vm_compute; repeat split; discriminate.
  - split; [apply (H Video)|]. split; [vm_compute; discriminate|vm_compute; reflexivity].
Defined.
