(* ===== verification/WebRtcPeer.v ===== *)
(** * A WebRTC peer

    Models the negotiation of [network-webrtc/src/peer.rs]: descriptions go to the
    [rtc] connection first and then move the signaling states of [signaling.rs].
    What the [rtc] connection answers is an argument. *)
From S2P Require Import Prelude VideoQueue Rtp ScreenVideo MediaQos.

Section Peer.
Context {HF : H264Format}.

(** [wp_closed]: the [rtc] connection was closed. *)
Record WebRtcPeer := mkPeer {
  wp_signaling : SignalingStateMachine;
  wp_qos : MediaQos;
  wp_screen_video : option H264ScreenVideo;
  wp_closed : bool;
}.

Definition peer_new (qos : MediaKind -> MediaQosPolicy) : WebRtcPeer :=
  mkPeer signaling_default (from_config qos) None false.

Definition set_signaling (m : SignalingStateMachine) (p : WebRtcPeer) : WebRtcPeer :=
  mkPeer m (wp_qos p) (wp_screen_video p) (wp_closed p).
Definition set_screen_video (v : option H264ScreenVideo) (p : WebRtcPeer) : WebRtcPeer :=
  mkPeer (wp_signaling p) (wp_qos p) v (wp_closed p).

Definition signaling_revision (p : WebRtcPeer) : Z := sg_revision (wp_signaling p).

(** A transition of the signaling states, its error as one of the peer. *)
Definition signal_step (f : SignalingStateMachine -> result unit SignalingError * SignalingStateMachine)
    (p : WebRtcPeer) : result unit WebRtcError * WebRtcPeer :=
  let '(r, m) := f (wp_signaling p) in (map_err SignalingErr r, set_signaling m p).

(** [sdp]: the local description the [rtc] connection made and took. *)
Definition create_description (kind : DescriptionType)
    (f : SignalingStateMachine -> result unit SignalingError * SignalingStateMachine)
    (sdp : result string string) (p : WebRtcPeer) : result SessionDescription WebRtcError * WebRtcPeer :=
  match sdp with
  | Err e => (Err (RtcError e), p)
  | Ok sdp =>
    match description_new kind sdp with
    | Err e => (Err (SignalingErr e), p)
    | Ok description =>
      match signal_step f p with
      | (Err e, p) => (Err e, p)
      | (Ok _, p) => (Ok description, p)
      end
    end
  end.

Definition create_offer (sdp : result string string) (p : WebRtcPeer) :
    result SessionDescription WebRtcError * WebRtcPeer := create_description Offer local_offer sdp p.
Definition create_answer (sdp : result string string) (p : WebRtcPeer) :
    result SessionDescription WebRtcError * WebRtcPeer := create_description Answer local_answer sdp p.

(** [taken]: the [rtc] connection took the remote description. *)
Definition accept_description (kind : DescriptionType)
    (f : SignalingStateMachine -> result unit SignalingError * SignalingStateMachine)
    (description : SessionDescription) (taken : result unit string) (p : WebRtcPeer) :
    result unit WebRtcError * WebRtcPeer :=
  match sd_kind description, kind with
  | Offer, Offer | Answer, Answer =>
    match taken with
    | Err e => (Err (RtcError e), p)
    | Ok _ => signal_step f p
    end
  | _, _ => (Err InvalidConfiguration, p)
  end.

Definition accept_remote_offer (description : SessionDescription) (taken : result unit string)
    (p : WebRtcPeer) : result unit WebRtcError * WebRtcPeer :=
  accept_description Offer remote_offer description taken p.
Definition accept_remote_answer (description : SessionDescription) (taken : result unit string)
    (p : WebRtcPeer) : result unit WebRtcError * WebRtcPeer :=
  accept_description Answer remote_answer description taken p.

Definition restart_ice (p : WebRtcPeer) : result unit WebRtcError * WebRtcPeer :=
  match signal_step restart p with
  | (Err e, p) => (Err e, p)
  | (Ok _, p) => (Ok tt, set_screen_video (on_ice_restart <$> wp_screen_video p) p)
  end.

Definition peer_on_connection_lost (p : WebRtcPeer) : WebRtcPeer :=
  mkPeer (wp_signaling p) (qos_on_connection_lost (wp_qos p)) (on_connection_lost <$> wp_screen_video p) (wp_closed p).

Definition peer_close (p : WebRtcPeer) : WebRtcPeer :=
  let p := peer_on_connection_lost (set_signaling (signaling_close (wp_signaling p)) p) in
  mkPeer (wp_signaling p) (wp_qos p) (wp_screen_video p) true.
End Peer.
