(* ===== verification/RealtimeWire.v ===== *)
(** * Realtime signals on the wire

    Models [network-core/src/realtime/wire.rs]: the identifiers, the envelope that
    binds a signal to a session instance, the bounds of a signal and the checks of a
    screen-share consent.  The Protocol Buffers codec of the messages and the [hex]
    package are parameters. *)
From S2P Require Import Prelude ScreenVideo.

(** ** Kinds and messages ([network-protocol/src/enums.rs], [messages.rs]) *)

Inductive RealtimeSignalKind :=
| SkUnspecified | SkWebRtcOffer | SkWebRtcAnswer | SkIceCandidate | SkIceRestart | SkWebRtcClose
| SkScreenShareConsent.

#[export] Instance RealtimeSignalKind_eq_dec : EqDecision RealtimeSignalKind.
Proof. solve_decision. Defined.

Definition signal_kind_try_from (kind : Z) : option RealtimeSignalKind :=
  if kind =? 0 then Some SkUnspecified
  else if kind =? 1 then Some SkWebRtcOffer
  else if kind =? 2 then Some SkWebRtcAnswer
  else if kind =? 3 then Some SkIceCandidate
  else if kind =? 4 then Some SkIceRestart
  else if kind =? 5 then Some SkWebRtcClose
  else if kind =? 6 then Some SkScreenShareConsent
  else None.

(** The numbers of the Relay's own enumeration, and 6 for consent. *)
Definition to_v2_signal_kind (kind : RealtimeSignalKind) : Z :=
  match kind with
  | SkWebRtcOffer => 1
  | SkWebRtcAnswer => 2
  | SkIceCandidate => 3
  | SkIceRestart => 4
  | SkWebRtcClose => 5
  | SkScreenShareConsent => 6
  | SkUnspecified => 0
  end.

Inductive ConsentDecision := DecisionUnspecified | DecisionRequest | DecisionAccept | DecisionReject | DecisionCancel.

#[export] Instance ConsentDecision_eq_dec : EqDecision ConsentDecision.
Proof. solve_decision. Defined.

Definition decision_try_from (d : Z) : option ConsentDecision :=
  if d =? 0 then Some DecisionUnspecified
  else if d =? 1 then Some DecisionRequest
  else if d =? 2 then Some DecisionAccept
  else if d =? 3 then Some DecisionReject
  else if d =? 4 then Some DecisionCancel
  else None.

Record ScreenShareConsentV2 := mkConsent {
  sc_schema_version : Z;
  sc_operation_id : string;
  sc_realtime_id : string;
  sc_issued_at_ms : Z;
  sc_expires_at_ms : Z;
  sc_decision : Z;
  sc_sender_peer_id : string;
  sc_purpose : Z;
  sc_media : Z;
  sc_requires_acceptance : bool;
  sc_action_revision : Z;
  sc_shared_session_instance_id : string;
}.

#[export] Instance ScreenShareConsentV2_eq_dec : EqDecision ScreenShareConsentV2.
Proof. solve_decision. Defined.

(** Code of other packages: [prost] on the two messages and [hex::decode]. *)
Class RealtimeCodec := {
  decode_consent : bytes -> option ScreenShareConsentV2;
  encode_consent : ScreenShareConsentV2 -> bytes;
  decode_envelope : bytes -> option (string * bytes);
  encode_envelope : string -> bytes -> bytes;
  hex_decode : string -> option bytes;
}.

(** What [prost] and the Protobuf encoding document: decoding an encoded message
    gives it back, a message with a field that is not at its default is not empty, and
    a bytes field is carried as it is. *)
Class RealtimeCodecLaws (C : RealtimeCodec) : Prop := {
  envelope_round_trip id payload : decode_envelope (encode_envelope id payload) = Some (id, payload);
  envelope_not_empty id payload : id ≠ EmptyString -> encode_envelope id payload ≠ [];
  envelope_holds id payload : len payload <= len (encode_envelope id payload);
}.

Definition MAX_REALTIME_SIGNAL_PAYLOAD_BYTES : Z := MAX_SDP_BYTES.
Definition SCREEN_SHARE_CONSENT_MAX_LIFETIME_MS : Z := 120000.
Definition SCREEN_SHARE_CONSENT_ALLOWED_FUTURE_SKEW_MS : Z := 30000.

Section Wire.
Context {RC : RealtimeCodec}.

Definition is_upper (b : byte) : bool := (65 <=? Z_of_byte b) && (Z_of_byte b <=? 90).

(** [id == id.to_ascii_lowercase()] and [hex::decode] gives sixteen bytes. *)
Definition is_instance_id (id : string) : bool :=
  (slen id =? 32) && forallb (fun b => negb (is_upper b)) (str_bytes id)
  && match hex_decode id with Some b => len b =? 16 | None => false end.

Definition validate_realtime_id (id : string) : result unit string :=
  if is_instance_id id then Ok tt else Err "realtime_id must be 32 lowercase hexadecimal characters".
Definition validate_shared_session_instance_id (id : string) : result unit string :=
  if is_instance_id id then Ok tt
  else Err "shared_session_instance_id must be 32 lowercase hexadecimal characters".

(** [registered]: whether the runtime knows the peer. *)
Definition validate_peer (registered : bool) (peer_id : string) : result unit string :=
  if bool_decide (peer_id = EmptyString) || (128 <? slen peer_id) || negb registered
  then Err "realtime peer is not registered" else Ok tt.

Definition encode_realtime_signal_payload (id : string) (payload : bytes) : result bytes string :=
  let? _ := validate_shared_session_instance_id id in
  let encoded := encode_envelope id payload in
  if MAX_REALTIME_SIGNAL_PAYLOAD_BYTES <? len encoded then Err "realtime signal envelope is outside bounds"
  else Ok encoded.

Definition decode_realtime_signal_payload (payload : bytes) : result (string * bytes) string :=
  if bool_decide (payload = []) || (MAX_REALTIME_SIGNAL_PAYLOAD_BYTES <? len payload)
  then Err "realtime signal envelope is outside bounds"
  else
    match decode_envelope payload with
    | None => Err "malformed realtime signal envelope"
    | Some (id, inner) =>
      let? _ := validate_shared_session_instance_id id in
      if MAX_REALTIME_SIGNAL_PAYLOAD_BYTES <? len inner then Err "realtime signal payload is outside bounds"
      else Ok (id, inner)
    end.

Definition validate_signal (kind : RealtimeSignalKind) (revision : Z) (payload : bytes) : result unit string :=
  if (revision =? 0) || (MAX_REALTIME_SIGNAL_PAYLOAD_BYTES <? len payload)
  then Err "WebRTC signal revision or payload is outside bounds"
  else if bool_decide (kind = SkIceCandidate) && (MAX_ICE_CANDIDATE_BYTES <? len payload)
  then Err "ICE candidate payload is outside bounds"
  else if negb (bool_decide (kind ∈ [SkWebRtcClose; SkIceRestart; SkIceCandidate])) && bool_decide (payload = [])
  then Err "WebRTC signal payload must not be empty"
  else if bool_decide (kind = SkScreenShareConsent) && (4096 <? len payload)
  then Err "screen-share consent payload is outside bounds"
  else Ok tt.

Definition differs (expected : option string) (actual : string) : bool :=
  match expected with Some e => negb (bool_decide (actual = e)) | None => false end.

Definition validate_screen_share_consent_at (payload : bytes) (realtime_id : string)
    (sender shared : option string) (now_ms : Z) : result ScreenShareConsentV2 string :=
  if bool_decide (payload = []) || (4096 <? len payload) then Err "screen-share consent payload is outside bounds"
  else
    match decode_consent payload with
    | None => Err "malformed screen-share consent"
    | Some c =>
      if negb (sc_schema_version c =? 2) then Err "unsupported screen-share consent schema version"
      else if bool_decide (sc_operation_id c = EmptyString) || (128 <? slen (sc_operation_id c))
      then Err "screen-share consent operation_id is outside bounds"
      else if negb (bool_decide (sc_realtime_id c = realtime_id))
      then Err "screen-share consent realtime_id does not match signal"
      else
        let? _ := validate_shared_session_instance_id (sc_shared_session_instance_id c) in
        if differs shared (sc_shared_session_instance_id c)
        then Err "screen-share consent session instance does not match signal"
        else if (sc_issued_at_ms c =? 0) || (sc_expires_at_ms c <=? sc_issued_at_ms c)
                || (SCREEN_SHARE_CONSENT_MAX_LIFETIME_MS <? saturating_sub (sc_expires_at_ms c) (sc_issued_at_ms c))
        then Err "screen-share consent expiration is invalid"
        else if (saturating_add u64_max now_ms SCREEN_SHARE_CONSENT_ALLOWED_FUTURE_SKEW_MS <? sc_issued_at_ms c)
                || (sc_expires_at_ms c <=? now_ms)
        then Err "screen-share consent is not fresh"
        else if bool_decide (sc_sender_peer_id c = EmptyString) || (128 <? slen (sc_sender_peer_id c))
        then Err "screen-share consent sender_peer_id is outside bounds"
        else if differs sender (sc_sender_peer_id c)
        then Err "screen-share consent sender does not match peer binding"
        else
          match decision_try_from (sc_decision c) with
          | None => Err "unknown screen-share consent decision"
          | Some DecisionUnspecified => Err "screen-share consent decision is unspecified"
          | Some _ =>
            if negb ((sc_purpose c =? 0) || (sc_purpose c =? 1)) then Err "unknown screen-share consent purpose"
            else if negb (sc_purpose c =? 1) then Err "screen-share consent purpose is unsupported"
            else if negb ((sc_media c =? 0) || (sc_media c =? 1)) then Err "unknown screen-share media kind"
            else if negb (sc_media c =? 1) then Err "screen-share media kind is unsupported"
            else if negb (sc_requires_acceptance c) || (sc_action_revision c =? 0)
            then Err "screen-share consent acceptance/revision is invalid"
            else Ok c
          end
    end.

(** A signal payload that could be wrapped with its session instance is unwrapped
    to the same instance and bytes by the receiver. *)
Lemma signal_payload_round_trip `{!RealtimeCodecLaws RC} id payload encoded :
  encode_realtime_signal_payload id payload = Ok encoded -> decode_realtime_signal_payload encoded = Ok (id, payload).
Proof.
  unfold encode_realtime_signal_payload, decode_realtime_signal_payload, validate_shared_session_instance_id.
  destruct (is_instance_id id) eqn:Hid; [cbn|done]. destruct (MAX_REALTIME_SIGNAL_PAYLOAD_BYTES <? _) eqn:Hl; [done|].
  injection 1 as <-. rewrite Hl, envelope_round_trip, Hid, bool_decide_false; cbn.
  - pose proof (envelope_holds id payload). apply Z.ltb_ge in Hl. by rewrite (proj2 (Z.ltb_ge _ _)) by lia.
  - apply envelope_not_empty. by intros ->.
Qed.
End Wire.
