(* ===== verification/Realtime.v ===== *)
(** * Realtime sessions and provisional offers

    Models the [RealtimeManager] of [network-core/src/realtime]: the sessions and
    their generations ([session.rs], [signal_apply.rs]), the screen-share offers
    that wait for a claim ([provisional.rs], [provisional_signal.rs], [claim.rs]),
    and the sections of the claiming and rejecting commands that run under the
    manager's lock ([claim_commit.rs], [claim_reject.rs], [signal_control.rs]).

    An I/O driver is a number; [drivers] holds the WebRTC peer of each.  Random
    identifiers, clocks and the answers of the [rtc] connection are arguments. *)
From S2P Require Import Prelude VideoQueue Rtp ScreenVideo MediaQos WebRtcPeer RealtimeWire.

Definition MAX_PROVISIONAL_ICE_CANDIDATES : Z := 128.
Definition MAX_PROVISIONAL_ICE_CANDIDATE_BYTES : Z := MAX_ICE_CANDIDATE_BYTES.
Definition MAX_PROVISIONAL_ICE_TOTAL_BYTES : Z := 256 * 1024.
Definition MAX_PROVISIONAL_BINDING_LIFETIME_MS : Z := 120000.
Definition MAX_PROVISIONAL_OPERATIONS : Z := 32.
Definition MAX_PROVISIONAL_REPLAY_KEYS_PER_PEER : Z := 256.
Definition PROVISIONAL_REPLAY_TTL_MS : Z := 5 * 60 * 1000.

Inductive ProvisionalBindingState := Pending | Claiming | Claimed | Terminal.

#[export] Instance ProvisionalBindingState_eq_dec : EqDecision ProvisionalBindingState.
Proof. solve_decision. Defined.

Record ProvisionalIceCandidate := mkIce { ic_revision : Z; ic_payload : bytes }.

#[export] Instance ProvisionalIceCandidate_eq_dec : EqDecision ProvisionalIceCandidate.
Proof. solve_decision. Defined.

Record ProvisionalScreenShareBinding := mkBinding {
  pb_epoch : Z;
  pb_offer_id : string;
  pb_claim_token : string;
  pb_peer_id : string;
  pb_realtime_id : string;
  pb_shared_id : string;
  pb_offer_revision : Z;
  pb_offer_payload : bytes;
  pb_ice : list ProvisionalIceCandidate;
  pb_ice_bytes : Z;
  pb_request : option ScreenShareConsentV2;
  pb_binding_expires_at_ms : Z;
  pb_effective_expires_at_ms : Z;
  pb_deadline : Z;
  pb_published : bool;
  pb_state : ProvisionalBindingState;
}.

Record ProvisionalPendingRequest := mkPendingRequest {
  pr_epoch : Z;
  pr_peer_id : string;
  pr_shared_id : string;
  pr_request : ScreenShareConsentV2;
  pr_expires_at_ms : Z;
  pr_deadline : Z;
}.

Record ProvisionalReplayKey := mkReplayKey {
  rk_sender_peer_id : string;
  rk_target_device_id : string;
  rk_realtime_id : string;
  rk_operation_id : string;
  rk_decision : Z;
  rk_action_revision : Z;
}.

#[export] Instance ProvisionalReplayKey_eq_dec : EqDecision ProvisionalReplayKey.
Proof. solve_decision. Defined.

Record ProvisionalReplayEntry := mkReplayEntry { re_key : ProvisionalReplayKey; re_expires_at_ms : Z }.

Section Realtime.
Context {HF : H264Format} {RC : RealtimeCodec}.

(** [rs_peer] is the peer of a session that has no driver. *)
Record RealtimeSession := mkRtSession {
  rs_peer_id : string;
  rs_shared_id : string;
  rs_connection : option Z;
  rs_peer : option WebRtcPeer;
  rs_driver : option Z;
  rs_revision : Z;
  rs_remote_revision : Z;
  rs_ice_revision : Z;
  rs_seen : list bytes;
}.

(** [provisional_wake] is the permit of the expiry worker's [Notify];
    [next_generation] the process-wide counter of sessions. *)
Record RealtimeManager := mkManager {
  rt_sessions : gmap string RealtimeSession;
  provisional : gmap string ProvisionalScreenShareBinding;
  provisional_requests : gmap string ProvisionalPendingRequest;
  replay_cache : gmap string (list ProvisionalReplayEntry);
  provisional_epoch : Z;
  provisional_wake : bool;
  expiry_worker_started : bool;
  session_generations : gmap string Z;
  next_generation : Z;
}.

Definition manager_default (generation : Z) : RealtimeManager :=
  mkManager ∅ ∅ ∅ ∅ 0 false false ∅ generation.

Definition set_rt_sessions (s : gmap string RealtimeSession) (g : gmap string Z) (next : Z) (m : RealtimeManager) :
    RealtimeManager :=
  mkManager s (provisional m) (provisional_requests m) (replay_cache m) (provisional_epoch m)
    (provisional_wake m) (expiry_worker_started m) g next.
Definition set_provisional (p : gmap string ProvisionalScreenShareBinding)
    (r : gmap string ProvisionalPendingRequest) (m : RealtimeManager) : RealtimeManager :=
  mkManager (rt_sessions m) p r (replay_cache m) (provisional_epoch m)
    (provisional_wake m) (expiry_worker_started m) (session_generations m) (next_generation m).
Definition set_replay (c : gmap string (list ProvisionalReplayEntry)) (m : RealtimeManager) : RealtimeManager :=
  mkManager (rt_sessions m) (provisional m) (provisional_requests m) c (provisional_epoch m)
    (provisional_wake m) (expiry_worker_started m) (session_generations m) (next_generation m).
Definition set_epoch (e : Z) (m : RealtimeManager) : RealtimeManager :=
  mkManager (rt_sessions m) (provisional m) (provisional_requests m) (replay_cache m) e
    (provisional_wake m) (expiry_worker_started m) (session_generations m) (next_generation m).
Definition set_worker (wake started : bool) (m : RealtimeManager) : RealtimeManager :=
  mkManager (rt_sessions m) (provisional m) (provisional_requests m) (replay_cache m) (provisional_epoch m)
    wake started (session_generations m) (next_generation m).

(** ** Sessions ([session.rs]) *)

Definition session_generation (realtime_id : string) (m : RealtimeManager) : option Z :=
  session_generations m !! realtime_id.

Definition insert_new_session (realtime_id : string) (session : RealtimeSession) (m : RealtimeManager) : RealtimeManager :=
  set_rt_sessions (<[realtime_id := session]> (rt_sessions m))
    (<[realtime_id := next_generation m]> (session_generations m)) (wrap 64 (next_generation m + 1)) m.

Definition insert_existing_session (realtime_id : string) (session : RealtimeSession) (m : RealtimeManager) :
    RealtimeManager :=
  match session_generations m !! realtime_id with
  | Some _ =>
    set_rt_sessions (<[realtime_id := session]> (rt_sessions m)) (session_generations m) (next_generation m) m
  | None => insert_new_session realtime_id session m
  end.

Definition remove_session (realtime_id : string) (m : RealtimeManager) : option RealtimeSession * RealtimeManager :=
  match rt_sessions m !! realtime_id with
  | None => (None, m)
  | Some session =>
    (Some session,
     set_rt_sessions (delete realtime_id (rt_sessions m)) (delete realtime_id (session_generations m))
       (next_generation m) m)
  end.

Definition wake_provisional_expiry (m : RealtimeManager) : RealtimeManager :=
  set_worker true (expiry_worker_started m) m.

(** [session.driver] as the owner of the peer, else the session's own. *)
Definition with_session_peer {A} (session : RealtimeSession)
    (operation : WebRtcPeer -> result A WebRtcError * WebRtcPeer) (drivers : gmap Z WebRtcPeer) :
    result A WebRtcError * RealtimeSession * gmap Z WebRtcPeer :=
  match rs_driver session with
  | Some d =>
    match drivers !! d with
    | Some p => let '(r, p) := operation p in (r, session, <[d := p]> drivers)
    | None => (Err (IoError "realtime I/O driver mutex was poisoned"), session, drivers)
    end
  | None =>
    match rs_peer session with
    | Some p =>
      let '(r, p) := operation p in
      (r, mkRtSession (rs_peer_id session) (rs_shared_id session) (rs_connection session) (Some p) None
            (rs_revision session) (rs_remote_revision session) (rs_ice_revision session) (rs_seen session), drivers)
    | None => (Err (IoError "realtime session has no WebRTC peer owner"), session, drivers)
    end
  end.

Definition close_session (session : RealtimeSession) (drivers : gmap Z WebRtcPeer) : gmap Z WebRtcPeer :=
  (with_session_peer session (fun p => (Ok tt, peer_close p)) drivers).2.

Definition close_driver (d : Z) (drivers : gmap Z WebRtcPeer) : gmap Z WebRtcPeer := alter peer_close d drivers.

Definition owns_driver (peer_id : string) (d : Z) (session : RealtimeSession) : bool :=
  bool_decide (rs_peer_id session = peer_id) && bool_decide (rs_driver session = Some d).

Definition take_realtime_session_if_owned (realtime_id peer_id : string) (d : Z) (m : RealtimeManager) :
    option RealtimeSession * RealtimeManager :=
  match rt_sessions m !! realtime_id with
  | Some session => if owns_driver peer_id d session then remove_session realtime_id m else (None, m)
  | None => (None, m)
  end.

(** Every WebRTC peer is closed; what was closed is left to [drivers]. *)
Definition close_all (m : RealtimeManager) (drivers : gmap Z WebRtcPeer) : RealtimeManager * gmap Z WebRtcPeer :=
  let closed := map_fold (fun _ session d => close_session session d) drivers (rt_sessions m) in
  (set_rt_sessions ∅ ∅ (next_generation m) (wake_provisional_expiry (set_provisional ∅ ∅ m)), closed).

Definition preserve_for_environment_reprobe (peer_id : string) (m : RealtimeManager) : bool :=
  bool_decide (map_Exists (fun _ session => rs_peer_id session = peer_id) (rt_sessions m)).

(** [order]: the order in which the hash map gives the sessions. *)
Fixpoint close_matching (realtime_ids : list string) (m : RealtimeManager) (drivers : gmap Z WebRtcPeer) :
    list (string * string * Z * Z * string) * RealtimeManager * gmap Z WebRtcPeer :=
  match realtime_ids with
  | [] => ([], m, drivers)
  | realtime_id :: rest =>
    let generation := default 0 (session_generation realtime_id m) in
    match remove_session realtime_id m with
    | (None, m) => close_matching rest m drivers
    | (Some session, m) =>
      let close_revision := saturating_add u64_max (rs_revision session) 1 in
      let '(closed, m, drivers) := close_matching rest m (close_session session drivers) in
      ((realtime_id, rs_peer_id session, close_revision, generation, rs_shared_id session) :: closed, m, drivers)
    end
  end.

Definition close_for_connection_session_with_hook (order : list string) (peer_id : string) (session_id : Z)
    (m : RealtimeManager) (drivers : gmap Z WebRtcPeer) :
    list (string * string * Z * Z * string) * RealtimeManager * gmap Z WebRtcPeer :=
  let m := wake_provisional_expiry
             (set_provisional (filter (fun kb => pb_peer_id kb.2 ≠ peer_id) (provisional m))
                (filter (fun kr => pr_peer_id kr.2 ≠ peer_id) (provisional_requests m)) m) in
  let matching :=
    List.filter (fun realtime_id =>
      match rt_sessions m !! realtime_id with
      | Some session => bool_decide (rs_peer_id session = peer_id) && bool_decide (rs_connection session = Some session_id)
      | None => false
      end) order in
  close_matching matching m drivers.

(** ** Provisional offers ([provisional.rs]) *)

Definition is_expired (now_ms : Z) (b : ProvisionalScreenShareBinding) : bool :=
  (pb_binding_expires_at_ms b <=? now_ms) || (pb_effective_expires_at_ms b <=? now_ms).

Definition set_ice (ice : list ProvisionalIceCandidate) (total : Z) (b : ProvisionalScreenShareBinding) :
    ProvisionalScreenShareBinding :=
  mkBinding (pb_epoch b) (pb_offer_id b) (pb_claim_token b) (pb_peer_id b) (pb_realtime_id b) (pb_shared_id b)
    (pb_offer_revision b) (pb_offer_payload b) ice total (pb_request b) (pb_binding_expires_at_ms b)
    (pb_effective_expires_at_ms b) (pb_deadline b) (pb_published b) (pb_state b).
Definition set_state (st : ProvisionalBindingState) (b : ProvisionalScreenShareBinding) : ProvisionalScreenShareBinding :=
  mkBinding (pb_epoch b) (pb_offer_id b) (pb_claim_token b) (pb_peer_id b) (pb_realtime_id b) (pb_shared_id b)
    (pb_offer_revision b) (pb_offer_payload b) (pb_ice b) (pb_ice_bytes b) (pb_request b)
    (pb_binding_expires_at_ms b) (pb_effective_expires_at_ms b) (pb_deadline b) (pb_published b) st.
Definition set_request (request : ScreenShareConsentV2) (effective deadline : Z) (b : ProvisionalScreenShareBinding) :
    ProvisionalScreenShareBinding :=
  mkBinding (pb_epoch b) (pb_offer_id b) (pb_claim_token b) (pb_peer_id b) (pb_realtime_id b) (pb_shared_id b)
    (pb_offer_revision b) (pb_offer_payload b) (pb_ice b) (pb_ice_bytes b) (Some request)
    (pb_binding_expires_at_ms b) effective deadline true (pb_state b).

Definition push_ice (revision : Z) (payload : bytes) (b : ProvisionalScreenShareBinding) :
    result ProvisionalScreenShareBinding string :=
  if negb (revision =? pb_offer_revision b) then Err "stale provisional ICE revision"
  else if MAX_PROVISIONAL_ICE_CANDIDATE_BYTES <? len payload then Err "provisional ICE candidate is outside bounds"
  else if (MAX_PROVISIONAL_ICE_CANDIDATES <=? len (pb_ice b))
          || (MAX_PROVISIONAL_ICE_TOTAL_BYTES <? saturating_add u64_max (pb_ice_bytes b) (len payload))
  then Err "provisional ICE queue is outside bounds"
  else if bool_decide (mkIce revision payload ∈ pb_ice b) then Err "replayed provisional ICE candidate"
  else Ok (set_ice (pb_ice b ++ [mkIce revision payload]) (saturating_add u64_max (pb_ice_bytes b) (len payload)) b).

Definition next_provisional_epoch (m : RealtimeManager) : Z * RealtimeManager :=
  let e := wrap 64 (provisional_epoch m + 1) in
  let e := if e =? 0 then 1 else e in
  (e, set_epoch e m).

Definition provisional_slot_count (m : RealtimeManager) : Z :=
  Z.of_nat (size (dom (provisional m) ∪ dom (provisional_requests m))).

Definition current_provisional_epoch (realtime_id : string) (m : RealtimeManager) : option Z :=
  match provisional m !! realtime_id with
  | Some b => Some (pb_epoch b)
  | None => pr_epoch <$> provisional_requests m !! realtime_id
  end.

Definition prune_replay_cache (now_ms : Z) (m : RealtimeManager) : RealtimeManager :=
  set_replay (omap (fun entries =>
      match filter (fun e => now_ms < re_expires_at_ms e) entries with [] => None | l => Some l end)
    (replay_cache m)) m.

Definition remember_provisional_action (key : ProvisionalReplayKey) (now_ms : Z) (m : RealtimeManager) :
    result unit string * RealtimeManager :=
  let m := prune_replay_cache now_ms m in
  let entries := default [] (replay_cache m !! rk_sender_peer_id key) in
  let keep entries := set_replay (<[rk_sender_peer_id key := entries]> (replay_cache m)) m in
  if bool_decide (key ∈ re_key <$> entries) then (Err "replayed provisional screen-share action", keep entries)
  else if MAX_PROVISIONAL_REPLAY_KEYS_PER_PEER <=? len entries then (Err "provisional replay cache is full", keep entries)
  else (Ok tt, keep (entries ++ [mkReplayEntry key (saturating_add u64_max now_ms PROVISIONAL_REPLAY_TTL_MS)])).

Definition max_option (a : option Z) (b : Z) : option Z := Some (match a with Some a => Z.max a b | None => b end).

Definition latest_provisional_action_revision (sender realtime_id operation_id : string) (m : RealtimeManager) :
    option Z :=
  foldl max_option None
    ((fun e => rk_action_revision (re_key e)) <$>
     filter (fun e => rk_realtime_id (re_key e) = realtime_id /\ rk_operation_id (re_key e) = operation_id)
       (default [] (replay_cache m !! sender))).

(** [Instant::now()] is [inst], in nanoseconds. *)
Definition provisional_deadline (inst now_ms expires_at_ms : Z) : Z :=
  inst + from_millis (saturating_sub expires_at_ms now_ms).

Definition prune_provisional_bindings (now_ms : Z) (m : RealtimeManager) : RealtimeManager :=
  let p := filter (fun kb => is_expired now_ms kb.2 = false) (provisional m) in
  let r := filter (fun kr => now_ms < pr_expires_at_ms kr.2) (provisional_requests m) in
  let removed := negb (bool_decide (size p = size (provisional m))) || negb (bool_decide (size r = size (provisional_requests m))) in
  let m := set_provisional p r m in
  if removed then wake_provisional_expiry m else m.

(** ** Signals of a session ([signal_apply.rs]) *)

Record OutboundSignal := mkOutbound {
  os_realtime_id : string;
  os_peer_id : string;
  os_shared_id : string;
  os_kind : RealtimeSignalKind;
  os_revision : Z;
  os_payload : bytes;
}.

Record InboundSignal := mkInboundSignal {
  is_shared_id : string;
  is_kind : RealtimeSignalKind;
  is_revision : Z;
  is_payload : bytes;
}.

Inductive RealtimeSessionState := StNegotiating | StConnected | StRestarting | StClosed | StFailed.

Record SignalOutcome := mkOutcome {
  so_peer_id : string;
  so_shared_id : string;
  so_revision : Z;
  so_generation : Z;
  so_state : option RealtimeSessionState;
  so_outbound : option OutboundSignal;
}.

(** What the [rtc] connection answers while a signal is applied. *)
Record RtcAnswers := mkAnswers {
  ra_description : result unit string;
  ra_sdp : result string string;
  ra_candidate : result unit string;
}.

Definition take_remote_closed_session (realtime_id peer_id : string) (revision : Z) (shared_id : string)
    (m : RealtimeManager) : result (RealtimeSession * Z) string * RealtimeManager :=
  match rt_sessions m !! realtime_id with
  | None => (Err "realtime session does not exist", m)
  | Some session =>
    if negb (bool_decide (rs_peer_id session = peer_id)) then (Err "realtime signal peer does not match session", m)
    else if negb (bool_decide (rs_shared_id session = shared_id))
    then (Err "realtime signal session instance does not match session", m)
    else if revision <=? rs_remote_revision session then (Err "stale realtime signaling revision", m)
    else
      match session_generation realtime_id m with
      | None => (Err "realtime session generation missing", m)
      | Some generation =>
        match remove_session realtime_id m with
        | (None, m) => (Err "realtime session does not exist", m)
        | (Some session, m) => (Ok (session, generation), m)
        end
      end
  end.

(** The checks of a signal against the session it names. *)
Definition check_signal (peer_id : string) (signal : InboundSignal) (session : RealtimeSession) : result unit string :=
  if negb (bool_decide (rs_peer_id session = peer_id)) then Err "realtime signal peer does not match session"
  else if negb (bool_decide (rs_shared_id session = is_shared_id signal))
  then Err "realtime signal session instance does not match session"
  else
    match is_kind signal with
    | SkIceCandidate =>
      if negb (is_revision signal =? rs_ice_revision session) then Err "stale realtime ICE generation"
      else if bool_decide (is_payload signal ∈ rs_seen session) then Err "replayed realtime ICE candidate"
      else Ok tt
    | _ => if is_revision signal <=? rs_remote_revision session then Err "stale realtime signaling revision" else Ok tt
    end.

Definition set_revisions (revision remote ice : Z) (seen : list bytes) (s : RealtimeSession) : RealtimeSession :=
  mkRtSession (rs_peer_id s) (rs_shared_id s) (rs_connection s) (rs_peer s) (rs_driver s) revision remote ice seen.

Definition signaling_message (e : SignalingError) : string :=
  match e with
  | EmptyDescription => "SDP description is empty"
  | DescriptionTooLarge => "SDP description exceeds the size limit"
  | InvalidDescription => "SDP description must start with v=0"
  | CandidateTooLarge => "ICE candidate exceeds the size limit"
  | InvalidCandidate => "ICE candidate has an invalid prefix"
  | InvalidTransition _ => "invalid WebRTC signaling transition"
  end.

(** The text of an error, without the parts that are formatted into it. *)
Definition webrtc_message (e : WebRtcError) : string :=
  match e with
  | RtcError e | IoError e => e
  | SignalingErr e => signaling_message e
  | _ => "WebRTC peer refused the signal"
  end.

(** A new session of a remote offer; without a pending driver it has a peer of
    its own. *)
Definition fresh_session (peer_id shared_id : string) (connection : option Z) (pending_driver : option Z) : RealtimeSession :=
  match pending_driver with
  | Some d => mkRtSession peer_id shared_id connection None (Some d) 0 0 0 []
  | None => mkRtSession peer_id shared_id connection (Some (peer_new default_policies)) None 0 0 0 []
  end.

(** The answer of a session to an offer. *)
Definition answer_offer (payload : bytes) (rtc : RtcAnswers) (session : RealtimeSession) (drivers : gmap Z WebRtcPeer) :
    result SessionDescription string * RealtimeSession * gmap Z WebRtcPeer :=
  match from_utf8 payload with
  | None => (Err "invalid utf-8 sequence", session, drivers)
  | Some sdp =>
    match description_new Offer sdp with
    | Err e => (Err (signaling_message e), session, drivers)
    | Ok description =>
      match with_session_peer session (accept_remote_offer description (ra_description rtc)) drivers with
      | (Err e, session, drivers) => (Err (webrtc_message e), session, drivers)
      | (Ok _, session, drivers) =>
        match with_session_peer session (create_answer (ra_sdp rtc)) drivers with
        | (Err e, session, drivers) => (Err (webrtc_message e), session, drivers)
        | (Ok answer, session, drivers) => (Ok answer, session, drivers)
        end
      end
    end
  end.

Definition read_revision (p : WebRtcPeer) : result Z WebRtcError * WebRtcPeer := (Ok (signaling_revision p), p).

Definition apply_offer (realtime_id peer_id : string) (signal : InboundSignal) (pending_driver connection : option Z)
    (rtc : RtcAnswers) (m : RealtimeManager) (drivers : gmap Z WebRtcPeer) :
    result SignalOutcome string * RealtimeManager * gmap Z WebRtcPeer :=
  let had_generation := bool_decide (is_Some (session_generations m !! realtime_id)) in
  let existing := rt_sessions m !! realtime_id in
  let had_existing := bool_decide (is_Some existing) in
  let m := set_rt_sessions (delete realtime_id (rt_sessions m)) (session_generations m) (next_generation m) m in
  let session := default (fresh_session peer_id (is_shared_id signal) connection pending_driver) existing in
  match answer_offer (is_payload signal) rtc session drivers with
  | (Err e, session, drivers) =>
    (Err e, if had_existing then insert_existing_session realtime_id session m else m, drivers)
  | (Ok answer, session, drivers) =>
    match with_session_peer session read_revision drivers with
    | (Err e, session, drivers) => (Err (webrtc_message e), m, drivers)
    | (Ok local_revision, session, drivers) =>
      let answer_revision := Z.max local_revision (is_revision signal) in
      let session := set_revisions answer_revision (is_revision signal) (is_revision signal) [] session in
      let m := if had_existing || had_generation then insert_existing_session realtime_id session m
               else insert_new_session realtime_id session m in
      match session_generation realtime_id m with
      | None => (Err "realtime session generation missing", m, drivers)
      | Some generation =>
        (Ok (mkOutcome (rs_peer_id session) (is_shared_id signal) answer_revision generation (Some StNegotiating)
               (Some (mkOutbound realtime_id (rs_peer_id session) (is_shared_id signal) SkWebRtcAnswer answer_revision
                        (str_bytes (sd_sdp answer))))), m, drivers)
      end
    end
  end.

Definition update_session (realtime_id : string) (session : RealtimeSession) (m : RealtimeManager) : RealtimeManager :=
  set_rt_sessions (<[realtime_id := session]> (rt_sessions m)) (session_generations m) (next_generation m) m.

Definition apply_answer (realtime_id : string) (signal : InboundSignal) (rtc : RtcAnswers) (session : RealtimeSession)
    (m : RealtimeManager) (drivers : gmap Z WebRtcPeer) : result SignalOutcome string * RealtimeManager * gmap Z WebRtcPeer :=
  let generation := default 0 (session_generation realtime_id m) in
  match from_utf8 (is_payload signal) with
  | None => (Err "invalid utf-8 sequence", m, drivers)
  | Some sdp =>
    match description_new Answer sdp with
    | Err e => (Err (signaling_message e), m, drivers)
    | Ok description =>
      match with_session_peer session (accept_remote_answer description (ra_description rtc)) drivers with
      | (Err e, session, drivers) => (Err (webrtc_message e), update_session realtime_id session m, drivers)
      | (Ok _, session, drivers) =>
        match with_session_peer session read_revision drivers with
        | (Err e, session, drivers) => (Err (webrtc_message e), update_session realtime_id session m, drivers)
        | (Ok local_revision, session, drivers) =>
          let revision := Z.max local_revision (is_revision signal) in
          let session := set_revisions revision (is_revision signal) (rs_ice_revision session) (rs_seen session) session in
          (Ok (mkOutcome (rs_peer_id session) (rs_shared_id session) revision generation (Some StConnected) None),
           update_session realtime_id session m, drivers)
        end
      end
    end
  end.

Definition apply_candidate (realtime_id : string) (signal : InboundSignal) (rtc : RtcAnswers) (session : RealtimeSession)
    (m : RealtimeManager) (drivers : gmap Z WebRtcPeer) : result SignalOutcome string * RealtimeManager * gmap Z WebRtcPeer :=
  let generation := default 0 (session_generation realtime_id m) in
  match from_utf8 (is_payload signal) with
  | None => (Err "invalid utf-8 sequence", m, drivers)
  | Some line =>
    match candidate_new line with
    | Err e => (Err (signaling_message e), m, drivers)
    | Ok _ =>
      match with_session_peer session (fun p => (map_err RtcError (ra_candidate rtc), p)) drivers with
      | (Err e, session, drivers) => (Err (webrtc_message e), update_session realtime_id session m, drivers)
      | (Ok _, session, drivers) =>
        let session := set_revisions (rs_revision session) (rs_remote_revision session) (rs_ice_revision session)
                         (is_payload signal :: rs_seen session) session in
        (Ok (mkOutcome (rs_peer_id session) (rs_shared_id session) (rs_revision session) generation None None),
         update_session realtime_id session m, drivers)
      end
    end
  end.

Definition apply_restart (realtime_id : string) (signal : InboundSignal) (rtc : RtcAnswers) (session : RealtimeSession)
    (m : RealtimeManager) (drivers : gmap Z WebRtcPeer) : result SignalOutcome string * RealtimeManager * gmap Z WebRtcPeer :=
  let generation := default 0 (session_generation realtime_id m) in
  match with_session_peer session restart_ice drivers with
  | (Err e, session, drivers) => (Err (webrtc_message e), update_session realtime_id session m, drivers)
  | (Ok _, session, drivers) =>
    match with_session_peer session (create_offer (ra_sdp rtc)) drivers with
    | (Err e, session, drivers) => (Err (webrtc_message e), update_session realtime_id session m, drivers)
    | (Ok offer, session, drivers) =>
      match with_session_peer session read_revision drivers with
      | (Err e, session, drivers) => (Err (webrtc_message e), update_session realtime_id session m, drivers)
      | (Ok local_revision, session, drivers) =>
        let revision := Z.max local_revision (is_revision signal) in
        let session := set_revisions revision (is_revision signal) revision [] session in
        (Ok (mkOutcome (rs_peer_id session) (rs_shared_id session) revision generation (Some StRestarting)
               (Some (mkOutbound realtime_id (rs_peer_id session) (rs_shared_id session) SkWebRtcOffer revision
                        (str_bytes (sd_sdp offer))))),
         update_session realtime_id session m, drivers)
      end
    end
  end.

Definition apply_signal_with_driver (realtime_id peer_id : string) (signal : InboundSignal)
    (pending_driver connection : option Z) (rtc : RtcAnswers) (m : RealtimeManager) (drivers : gmap Z WebRtcPeer) :
    result SignalOutcome string * RealtimeManager * gmap Z WebRtcPeer :=
  match validate_shared_session_instance_id (is_shared_id signal) with
  | Err e => (Err e, m, drivers)
  | Ok _ =>
    if bool_decide (is_kind signal = SkWebRtcClose) then
      match take_remote_closed_session realtime_id peer_id (is_revision signal) (is_shared_id signal) m with
      | (Err e, m) => (Err e, m, drivers)
      | (Ok (session, generation), m) =>
        (Ok (mkOutcome peer_id (is_shared_id signal) (is_revision signal) generation (Some StClosed) None), m,
         close_session session drivers)
      end
    else
      let existing := rt_sessions m !! realtime_id in
      match default (Ok tt) (check_signal peer_id signal <$> existing) with
      | Err e => (Err e, m, drivers)
      | Ok _ =>
        match is_kind signal, existing with
        | SkWebRtcOffer, _ => apply_offer realtime_id peer_id signal pending_driver connection rtc m drivers
        | (SkWebRtcAnswer | SkIceCandidate | SkIceRestart), None => (Err "realtime session does not exist", m, drivers)
        | SkWebRtcAnswer, Some session => apply_answer realtime_id signal rtc session m drivers
        | SkIceCandidate, Some session => apply_candidate realtime_id signal rtc session m drivers
        | SkIceRestart, Some session => apply_restart realtime_id signal rtc session m drivers
        | SkScreenShareConsent, _ =>
          (Err "screen-share consent must be handled before WebRTC state transitions", m, drivers)
        | _, _ => (Err "unsupported WebRTC signal kind", m, drivers)
        end
      end
  end.
End Realtime.
