(* ===== verification/RealtimeClaims.v ===== *)
(** * Claiming an incoming screen-share offer

    Models what [network-core/src/realtime] does to provisional offers under the
    manager's lock: the signals before a claim ([provisional_signal.rs]), the
    sections of the claim ([claim.rs], [claim_commit.rs]), of its rejection
    ([claim_reject.rs]) and the control signals during a claim
    ([signal_control.rs]). *)
From S2P Require Import Prelude VideoQueue Rtp ScreenVideo MediaQos WebRtcPeer RealtimeWire Realtime.

Inductive RealtimeErrorCode := RtInvalidArgument | RtIoError | RtStaleOperation | RtNoRoute.

Section Claims.
Context {HF : H264Format} {RC : RealtimeCodec}.

(** What is told to the application about an offer paired with its request. *)
Record IncomingSessionOffer := mkIncoming {
  io_offer_id : string;
  io_claim_token : string;
  io_realtime_id : string;
  io_peer_id : string;
  io_shared_id : string;
  io_expires_at_ms : Z;
  io_request : ScreenShareConsentV2;
}.

Definition incoming_offer (b : ProvisionalScreenShareBinding) (request : ScreenShareConsentV2) : IncomingSessionOffer :=
  mkIncoming (pb_offer_id b) (pb_claim_token b) (pb_realtime_id b) (pb_peer_id b) (pb_shared_id b)
    (pb_effective_expires_at_ms b) request.

(** ** Signals before a claim ([provisional_signal.rs])

    [inst] and [now_ms] are the clocks, [offer_id] and [token] the random
    identifiers drawn. *)

Definition is_live (b : ProvisionalScreenShareBinding) : bool :=
  negb (bool_decide (pb_state b ∈ [Claimed; Terminal])).

Definition new_binding (realtime_id peer_id shared_id : string) (revision : Z) (payload : bytes) (epoch : Z)
    (offer_id token : string) (inst now_ms : Z) (pending : option ProvisionalPendingRequest) : ProvisionalScreenShareBinding :=
  let expires := saturating_add u64_max now_ms MAX_PROVISIONAL_BINDING_LIFETIME_MS in
  match pending with
  | None =>
    mkBinding epoch offer_id token peer_id realtime_id shared_id revision payload [] 0 None expires expires
      (provisional_deadline inst now_ms expires) false Pending
  | Some pending =>
    let effective := Z.min expires (pr_expires_at_ms pending) in
    mkBinding (pr_epoch pending) offer_id token peer_id realtime_id shared_id revision payload [] 0
      (Some (pr_request pending)) expires effective (provisional_deadline inst now_ms effective) true Pending
  end.

Definition provisional_offer (realtime_id peer_id : string) (revision : Z) (shared_id : string) (payload : bytes)
    (offer_id token : string) (inst now_ms : Z) (m : RealtimeManager) :
    result (option IncomingSessionOffer) string * RealtimeManager :=
  match from_utf8 payload with
  | None => (Err "invalid utf-8 sequence", m)
  | Some sdp =>
    match description_new Offer sdp with
    | Err e => (Err (signaling_message e), m)
    | Ok _ =>
      match provisional m !! realtime_id with
      | Some b =>
        if bool_decide (pb_peer_id b = peer_id) && bool_decide (pb_shared_id b = shared_id)
           && (pb_offer_revision b =? revision) && bool_decide (pb_offer_payload b = payload)
        then (Ok None, m) else (Err "conflicting provisional realtime Offer", m)
      | None =>
        let pending := provisional_requests m !! realtime_id in
        let conflicts :=
          match pending with
          | Some r => negb (bool_decide (pr_peer_id r = peer_id)) || negb (bool_decide (pr_shared_id r = shared_id))
          | None => false
          end in
        if conflicts then (Err "provisional Offer conflicts with authenticated REQUEST", m)
        else if (MAX_PROVISIONAL_OPERATIONS <=? provisional_slot_count m) && bool_decide (pending = None :> option _)
        then (Err "too many provisional realtime operations", m)
        else
          let '(epoch, m) := match pending with Some r => (pr_epoch r, m) | None => next_provisional_epoch m end in
          let b := new_binding realtime_id peer_id shared_id revision payload epoch offer_id token inst now_ms pending in
          (Ok (incoming_offer b <$> pb_request b),
           wake_provisional_expiry
             (set_provisional (<[realtime_id := b]> (provisional m)) (delete realtime_id (provisional_requests m)) m))
      end
    end
  end.

Definition provisional_candidate (realtime_id peer_id : string) (revision : Z) (shared_id : string) (payload : bytes)
    (m : RealtimeManager) : result (option IncomingSessionOffer) string * RealtimeManager :=
  match provisional m !! realtime_id with
  | None => (Err "provisional realtime Offer is missing", m)
  | Some b =>
    if negb (bool_decide (pb_peer_id b = peer_id)) || negb (bool_decide (pb_shared_id b = shared_id)) || negb (is_live b)
    then (Err "provisional ICE binding mismatch", m)
    else
      match push_ice revision payload b with
      | Err e => (Err e, m)
      | Ok b => (Ok None, set_provisional (<[realtime_id := b]> (provisional m)) (provisional_requests m) m)
      end
  end.

Definition replay_key (local_device_id realtime_id peer_id : string) (c : ScreenShareConsentV2) : ProvisionalReplayKey :=
  mkReplayKey peer_id local_device_id realtime_id (sc_operation_id c) (sc_decision c) (sc_action_revision c).

Definition provisional_request (local_device_id realtime_id peer_id : string) (c : ScreenShareConsentV2)
    (inst now_ms : Z) (m : RealtimeManager) : result (option IncomingSessionOffer) string * RealtimeManager :=
  if negb (sc_action_revision c =? 1) then (Err "initial screen-share REQUEST revision is invalid", m)
  else
    let key := replay_key local_device_id realtime_id peer_id c in
    match provisional m !! realtime_id with
    | Some b =>
      if negb (bool_decide (pb_peer_id b = peer_id))
         || negb (bool_decide (pb_shared_id b = sc_shared_session_instance_id c)) || negb (is_live b)
      then (Err "screen-share REQUEST binding mismatch", m)
      else
        match pb_request b with
        | Some existing =>
          if negb (bool_decide (sc_operation_id existing = sc_operation_id c))
             || negb (sc_action_revision existing =? sc_action_revision c)
          then (Err "conflicting provisional REQUEST", m)
          else (Err "replayed provisional screen-share REQUEST", m)
        | None =>
          match remember_provisional_action key now_ms m with
          | (Err e, m) => (Err e, m)
          | (Ok _, m) =>
            let effective := Z.min (pb_effective_expires_at_ms b) (sc_expires_at_ms c) in
            let b' := set_request c effective (provisional_deadline inst now_ms effective) b in
            (Ok (if pb_published b then None else Some (incoming_offer b' c)),
             wake_provisional_expiry (set_provisional (<[realtime_id := b']> (provisional m)) (provisional_requests m) m))
          end
        end
    | None =>
      if (MAX_PROVISIONAL_OPERATIONS <=? provisional_slot_count m)
         && bool_decide (provisional_requests m !! realtime_id = None)
      then (Err "too many provisional realtime operations", m)
      else
        match provisional_requests m !! realtime_id with
        | Some existing =>
          if negb (bool_decide (pr_peer_id existing = peer_id))
             || negb (bool_decide (pr_shared_id existing = sc_shared_session_instance_id c))
             || negb (bool_decide (sc_operation_id (pr_request existing) = sc_operation_id c))
          then (Err "conflicting provisional REQUEST", m)
          else (Err "replayed provisional screen-share REQUEST", m)
        | None =>
          match remember_provisional_action key now_ms m with
          | (Err e, m) => (Err e, m)
          | (Ok _, m) =>
            let '(epoch, m) := next_provisional_epoch m in
            let r := mkPendingRequest epoch peer_id (sc_shared_session_instance_id c) c (sc_expires_at_ms c)
                       (provisional_deadline inst now_ms (sc_expires_at_ms c)) in
            (Ok None,
             wake_provisional_expiry (set_provisional (provisional m) (<[realtime_id := r]> (provisional_requests m)) m))
          end
        end
    end.

(** The next revision of an operation whose request is remembered. *)
Definition cancel_revision_ok (realtime_id peer_id : string) (c : ScreenShareConsentV2) (m : RealtimeManager) :
    result unit string :=
  match latest_provisional_action_revision peer_id realtime_id (sc_operation_id c) m with
  | None => Err "screen-share CANCEL REQUEST lane is missing"
  | Some latest =>
    let expected := saturating_add u64_max latest 1 in
    if negb (sc_action_revision c =? expected) || negb (expected =? 2)
    then Err "screen-share CANCEL action revision is not contiguous" else Ok tt
  end.

Definition provisional_cancel (local_device_id realtime_id peer_id : string) (c : ScreenShareConsentV2) (now_ms : Z)
    (m : RealtimeManager) : result (option IncomingSessionOffer) string * RealtimeManager :=
  let matches_binding :=
    match provisional m !! realtime_id with
    | Some b =>
      bool_decide (pb_peer_id b = peer_id) && bool_decide (pb_shared_id b = sc_shared_session_instance_id c)
      && match pb_request b with Some r => bool_decide (sc_operation_id r = sc_operation_id c) | None => true end
    | None => false
    end in
  let matches_request :=
    match provisional_requests m !! realtime_id with
    | Some r =>
      bool_decide (pr_peer_id r = peer_id) && bool_decide (pr_shared_id r = sc_shared_session_instance_id c)
      && bool_decide (sc_operation_id (pr_request r) = sc_operation_id c)
    | None => false
    end in
  if negb matches_binding && negb matches_request then (Err "screen-share CANCEL binding does not match", m)
  else
    match cancel_revision_ok realtime_id peer_id c m with
    | Err e => (Err e, m)
    | Ok _ =>
      match remember_provisional_action (replay_key local_device_id realtime_id peer_id c) now_ms m with
      | (Err e, m) => (Err e, m)
      | (Ok _, m) =>
        (Ok None,
         wake_provisional_expiry
           (if matches_binding then set_provisional (delete realtime_id (provisional m)) (provisional_requests m) m
            else set_provisional (provisional m) (delete realtime_id (provisional_requests m)) m))
      end
    end.

(** [read_ms]: the clock as the consent's freshness is checked. *)
Definition provisional_consent (local_device_id realtime_id peer_id shared_id : string) (payload : bytes)
    (inst now_ms read_ms : Z) (m : RealtimeManager) : result (option IncomingSessionOffer) string * RealtimeManager :=
  let expected := match provisional m !! realtime_id with Some b => pb_shared_id b | None => shared_id end in
  match validate_screen_share_consent_at payload realtime_id (Some peer_id) (Some expected) read_ms with
  | Err e => (Err e, m)
  | Ok c =>
    match decision_try_from (sc_decision c) with
    | None => (Err "unknown screen-share consent decision", m)
    | Some DecisionRequest => provisional_request local_device_id realtime_id peer_id c inst now_ms m
    | Some DecisionCancel => provisional_cancel local_device_id realtime_id peer_id c now_ms m
    | Some _ => (Err "only screen-share REQUEST/CANCEL is valid before claim", m)
    end
  end.

Definition provisional_close (realtime_id peer_id shared_id : string) (m : RealtimeManager) :
    result (option IncomingSessionOffer) string * RealtimeManager :=
  let of_binding := match provisional m !! realtime_id with
    | Some b => bool_decide (pb_peer_id b = peer_id) && bool_decide (pb_shared_id b = shared_id) | None => false end in
  let of_request := match provisional_requests m !! realtime_id with
    | Some r => bool_decide (pr_peer_id r = peer_id) && bool_decide (pr_shared_id r = shared_id) | None => false end in
  let m' := set_provisional (if of_binding then delete realtime_id (provisional m) else provisional m)
              (if of_request then delete realtime_id (provisional_requests m) else provisional_requests m) m in
  (Ok None, if of_binding || of_request then wake_provisional_expiry m' else m').

(** [handle_provisional_realtime_signal] once no session is bound to the
    identifier. *)
Definition provisional_signal (local_device_id : string) (kind : RealtimeSignalKind) (realtime_id peer_id : string)
    (revision : Z) (shared_id : string) (payload : bytes) (offer_id token : string) (inst now_ms read_ms : Z)
    (m : RealtimeManager) : result (option IncomingSessionOffer) string * RealtimeManager :=
  let m := prune_provisional_bindings now_ms m in
  match kind with
  | SkWebRtcOffer => provisional_offer realtime_id peer_id revision shared_id payload offer_id token inst now_ms m
  | SkIceCandidate => provisional_candidate realtime_id peer_id revision shared_id payload m
  | SkScreenShareConsent => provisional_consent local_device_id realtime_id peer_id shared_id payload inst now_ms read_ms m
  | SkWebRtcClose => provisional_close realtime_id peer_id shared_id m
  | SkWebRtcAnswer | SkIceRestart => (Err "Answer or ICE restart is not valid before incoming claim", m)
  | SkUnspecified => (Err "unsupported provisional realtime signal kind", m)
  end.

(** ** The claim ([claim.rs], [claim_commit.rs]) *)

Record ClaimCommand := mkClaimCommand { cc_realtime_id : string; cc_peer_id : string; cc_claim_token : string }.

(** What a claim takes from the binding. *)
Record ClaimStart := mkClaimStart {
  cs_offer : bytes;
  cs_offer_revision : Z;
  cs_ice : list ProvisionalIceCandidate;
  cs_shared_id : string;
  cs_epoch : Z;
}.

Definition claim_begin (c : ClaimCommand) (now_ms : Z) (m : RealtimeManager) :
    result ClaimStart (RealtimeErrorCode * string) * RealtimeManager :=
  let m := prune_provisional_bindings now_ms m in
  match provisional m !! cc_realtime_id c with
  | None => (Err (RtInvalidArgument, "incoming realtime offer does not exist"), m)
  | Some b =>
    if negb (bool_decide (pb_claim_token b = cc_claim_token c)) || negb (bool_decide (pb_peer_id b = cc_peer_id c))
       || negb (bool_decide (pb_state b = Pending)) || bool_decide (pb_request b = None) || is_expired now_ms b
    then (Err (RtInvalidArgument, "incoming realtime offer claim is stale or incomplete"), m)
    else
      (Ok (mkClaimStart (pb_offer_payload b) (pb_offer_revision b) (pb_ice b) (pb_shared_id b) (pb_epoch b)),
       set_provisional (<[cc_realtime_id c := set_ice [] 0 (set_state Claiming b)]> (provisional m))
         (provisional_requests m) m)
  end.

Definition claim_matches (token : string) (epoch : Z) (b : ProvisionalScreenShareBinding) : bool :=
  bool_decide (pb_claim_token b = token) && (pb_epoch b =? epoch) && bool_decide (pb_state b = Claiming).

Definition exact_claiming_binding (c : ClaimCommand) (shared_id : string) (epoch now_ms : Z) (m : RealtimeManager) : bool :=
  match provisional m !! cc_realtime_id c with
  | Some b =>
    claim_matches (cc_claim_token c) epoch b && bool_decide (pb_peer_id b = cc_peer_id c)
    && bool_decide (pb_shared_id b = shared_id) && negb (is_expired now_ms b)
  | None => false
  end.

Definition exact_claim_responder (c : ClaimCommand) (shared_id : string) (generation d : Z) (m : RealtimeManager) : bool :=
  bool_decide (session_generation (cc_realtime_id c) m = Some generation)
  && match rt_sessions m !! cc_realtime_id c with
     | Some s =>
       bool_decide (rs_peer_id s = cc_peer_id c) && bool_decide (rs_shared_id s = shared_id)
       && bool_decide (rs_driver s = Some d)
     | None => false
     end.

Definition take_provisional_claim (realtime_id token : string) (epoch : Z) (m : RealtimeManager) : bool * RealtimeManager :=
  match provisional m !! realtime_id with
  | Some b =>
    if claim_matches token epoch b
    then (true, wake_provisional_expiry (set_provisional (delete realtime_id (provisional m)) (provisional_requests m) m))
    else (false, m)
  | None => (false, m)
  end.

(** Candidates applied one after the other, up to the first that fails. *)
Fixpoint apply_candidates (realtime_id peer_id shared_id : string) (l : list ProvisionalIceCandidate)
    (rtc : ProvisionalIceCandidate -> RtcAnswers) (m : RealtimeManager) (drivers : gmap Z WebRtcPeer) :
    result unit string * RealtimeManager * gmap Z WebRtcPeer :=
  match l with
  | [] => (Ok tt, m, drivers)
  | candidate :: l =>
    match apply_signal_with_driver realtime_id peer_id
            (mkInboundSignal shared_id SkIceCandidate (ic_revision candidate) (ic_payload candidate))
            None None (rtc candidate) m drivers with
    | (Err e, m, drivers) => (Err e, m, drivers)
    | (Ok _, m, drivers) => apply_candidates realtime_id peer_id shared_id l rtc m drivers
    end
  end.

(** The section that makes the responder.  [Err (None, _)]: the claim was
    superseded and the driver is closed; [Err (Some generation, _)]: it is to be
    rolled back, with the generation then current. *)
Definition claim_apply (c : ClaimCommand) (start : ClaimStart) (d : Z) (connection : option Z) (now_ms : Z)
    (rtc : RtcAnswers) (rtc_ice : ProvisionalIceCandidate -> RtcAnswers) (m : RealtimeManager) (drivers : gmap Z WebRtcPeer) :
    result SignalOutcome (option (option Z) * string) * RealtimeManager * gmap Z WebRtcPeer :=
  if negb (exact_claiming_binding c (cs_shared_id start) (cs_epoch start) now_ms m)
  then (Err (None, "incoming realtime offer claim was superseded"), m, close_driver d drivers)
  else
    match apply_signal_with_driver (cc_realtime_id c) (cc_peer_id c)
            (mkInboundSignal (cs_shared_id start) SkWebRtcOffer (cs_offer_revision start) (cs_offer start))
            (Some d) connection rtc m drivers with
    | (Err e, m, drivers) => (Err (Some (session_generation (cc_realtime_id c) m), e), m, drivers)
    | (Ok outcome, m, drivers) =>
      match apply_candidates (cc_realtime_id c) (cc_peer_id c) (cs_shared_id start) (cs_ice start) rtc_ice m drivers with
      | (Err e, m, drivers) => (Err (Some (Some (so_generation outcome)), e), m, drivers)
      | (Ok _, m, drivers) => (Ok outcome, m, drivers)
      end
    end.

(** The loop of [commit_incoming_claim]; [None] when the fuel runs out. *)
Fixpoint commit_drain (fuel : nat) (c : ClaimCommand) (shared_id : string) (epoch : Z)
    (rtc : ProvisionalIceCandidate -> RtcAnswers) (m : RealtimeManager) (drivers : gmap Z WebRtcPeer) :
    option (result unit (RealtimeErrorCode * string) * RealtimeManager * gmap Z WebRtcPeer) :=
  match fuel with
  | O => None
  | S fuel =>
    match provisional m !! cc_realtime_id c with
    | None => Some (Err (RtStaleOperation, "incoming realtime offer claim was superseded"), m, drivers)
    | Some b =>
      if negb (claim_matches (cc_claim_token c) epoch b)
      then Some (Err (RtStaleOperation, "incoming realtime offer claim was superseded"), m, drivers)
      else
        let queued := pb_ice b in
        let m := set_provisional (<[cc_realtime_id c := set_ice [] 0 b]> (provisional m)) (provisional_requests m) m in
        match queued with
        | [] => Some (Ok tt, m, drivers)
        | _ =>
          match apply_candidates (cc_realtime_id c) (cc_peer_id c) shared_id queued rtc m drivers with
          | (Err e, m, drivers) => Some (Err (RtIoError, e), m, drivers)
          | (Ok _, m, drivers) => commit_drain fuel c shared_id epoch rtc m drivers
          end
        end
    end
  end.

(** [now_ms] and [later_ms] are read before and after the candidates. *)
Definition commit_incoming_claim (c : ClaimCommand) (shared_id : string) (epoch generation d : Z) (now_ms later_ms : Z)
    (rtc : ProvisionalIceCandidate -> RtcAnswers) (m : RealtimeManager) (drivers : gmap Z WebRtcPeer) :
    result unit (RealtimeErrorCode * string) * RealtimeManager * gmap Z WebRtcPeer :=
  if negb (exact_claiming_binding c shared_id epoch now_ms m) || negb (exact_claim_responder c shared_id generation d m)
  then (Err (RtStaleOperation, "incoming realtime offer claim was superseded or expired"), m, drivers)
  else
    match default (Ok tt, m, drivers) (commit_drain 2 c shared_id epoch rtc m drivers) with
    | (Err e, m, drivers) => (Err e, m, drivers)
    | (Ok _, m, drivers) =>
      if negb (exact_claiming_binding c shared_id epoch later_ms m) || negb (exact_claim_responder c shared_id generation d m)
      then (Err (RtStaleOperation, "incoming realtime offer claim expired during commit"), m, drivers)
      else
        (Ok tt,
         wake_provisional_expiry
           (set_provisional (delete (cc_realtime_id c) (provisional m)) (provisional_requests m) m), drivers)
    end.

Definition next_claim_close_signal (c : ClaimCommand) (shared_id : string) (answer_revision generation d : Z)
    (m : RealtimeManager) : option OutboundSignal * RealtimeManager :=
  if negb (exact_claim_responder c shared_id generation d m) then (None, m)
  else
    match rt_sessions m !! cc_realtime_id c with
    | None => (None, m)
    | Some s =>
      match checked_add u64_max (Z.max (rs_revision s) answer_revision) 1 with
      | None => (None, m)
      | Some revision =>
        (Some (mkOutbound (cc_realtime_id c) (cc_peer_id c) shared_id SkWebRtcClose revision (str_bytes "close")),
         update_session (cc_realtime_id c)
           (set_revisions revision (rs_remote_revision s) (rs_ice_revision s) (rs_seen s) s) m)
      end
    end.

(** The last section of a claim: the commit, and the close signal of a responder
    that could not be committed. *)
Definition claim_commit (c : ClaimCommand) (shared_id : string) (epoch generation d answer_revision : Z)
    (now_ms later_ms : Z) (rtc : ProvisionalIceCandidate -> RtcAnswers) (m : RealtimeManager) (drivers : gmap Z WebRtcPeer) :
    result unit (RealtimeErrorCode * string) * option OutboundSignal * RealtimeManager * gmap Z WebRtcPeer :=
  match commit_incoming_claim c shared_id epoch generation d now_ms later_ms rtc m drivers with
  | (Ok _, m, drivers) => (Ok tt, None, m, drivers)
  | (Err e, m, drivers) =>
    let '(close, m) := next_claim_close_signal c shared_id answer_revision generation d m in (Err e, close, m, drivers)
  end.

(** The session removed, when the claim's driver still owned it. *)
Definition rollback_incoming_claim (c : ClaimCommand) (shared_id : string) (epoch : Z) (generation : option Z) (d : Z)
    (m : RealtimeManager) (drivers : gmap Z WebRtcPeer) : option RealtimeSession * RealtimeManager * gmap Z WebRtcPeer :=
  let '(_, m) := take_provisional_claim (cc_realtime_id c) (cc_claim_token c) epoch m in
  let owned := match generation with Some g => exact_claim_responder c shared_id g d m | None => false end in
  let '(removed, m) :=
    if owned then take_realtime_session_if_owned (cc_realtime_id c) (cc_peer_id c) d m else (None, m) in
  (removed, m, match removed with Some session => close_session session drivers | None => close_driver d drivers end).

(** ** Rejecting and discarding ([claim_reject.rs]) *)

Definition reject_begin (c : ClaimCommand) (now_ms : Z) (m : RealtimeManager) :
    result (ScreenShareConsentV2 * string * Z) (RealtimeErrorCode * string) * RealtimeManager :=
  let m := prune_provisional_bindings now_ms m in
  match provisional m !! cc_realtime_id c with
  | None => (Err (RtInvalidArgument, "incoming realtime offer does not exist"), m)
  | Some b =>
    if negb (bool_decide (pb_claim_token b = cc_claim_token c)) || negb (bool_decide (pb_peer_id b = cc_peer_id c))
       || negb (bool_decide (pb_state b = Pending))
    then (Err (RtInvalidArgument, "incoming realtime offer rejection is stale"), m)
    else
      match pb_request b with
      | None => (Err (RtInvalidArgument, "incoming realtime request is incomplete"), m)
      | Some request => (Ok (request, pb_shared_id b, pb_offer_revision b), m)
      end
  end.

Definition reject_consent (device_id : string) (now_ms : Z) (request : ScreenShareConsentV2) : ScreenShareConsentV2 :=
  mkConsent (sc_schema_version request) (sc_operation_id request) (sc_realtime_id request) now_ms
    (Z.min (sc_expires_at_ms request) (saturating_add u64_max now_ms SCREEN_SHARE_CONSENT_MAX_LIFETIME_MS))
    3 device_id (sc_purpose request) (sc_media request) (sc_requires_acceptance request) 1
    (sc_shared_session_instance_id request).

Definition reject_mark (c : ClaimCommand) (m : RealtimeManager) : result unit (RealtimeErrorCode * string) * RealtimeManager :=
  match provisional m !! cc_realtime_id c with
  | Some b =>
    if bool_decide (pb_claim_token b = cc_claim_token c) && bool_decide (pb_peer_id b = cc_peer_id c)
       && bool_decide (pb_state b = Pending)
    then (Ok tt, set_provisional (<[cc_realtime_id c := set_state Claiming b]> (provisional m)) (provisional_requests m) m)
    else (Err (RtStaleOperation, "incoming realtime offer rejection was superseded"), m)
  | None => (Err (RtStaleOperation, "incoming realtime offer rejection was superseded"), m)
  end.

(** After the rejection was sent, or could not be. *)
Definition reject_finish (c : ClaimCommand) (m : RealtimeManager) : RealtimeManager :=
  match provisional m !! cc_realtime_id c with
  | Some b =>
    if bool_decide (pb_claim_token b = cc_claim_token c) && bool_decide (pb_state b = Claiming)
    then wake_provisional_expiry (set_provisional (delete (cc_realtime_id c) (provisional m)) (provisional_requests m) m)
    else m
  | None => m
  end.

Definition discard_incoming_offer (c : ClaimCommand) (m : RealtimeManager) :
    result unit (RealtimeErrorCode * string) * RealtimeManager :=
  match provisional m !! cc_realtime_id c with
  | None => (Ok tt, m)
  | Some b =>
    if negb (bool_decide (pb_claim_token b = cc_claim_token c)) || negb (bool_decide (pb_peer_id b = cc_peer_id c))
    then (Err (RtInvalidArgument, "incoming realtime offer discard is stale"), m)
    else (Ok tt, wake_provisional_expiry (set_provisional (delete (cc_realtime_id c) (provisional m)) (provisional_requests m) m))
  end.

(** ** Control signals during a claim ([signal_control.rs])

    The boolean tells whether the signal was handled; the session is the one to
    close. *)

Definition claiming_cancel (local_device_id realtime_id peer_id : string) (shared_id : string) (payload : bytes)
    (now_ms later_ms : Z) (b : ProvisionalScreenShareBinding) (m : RealtimeManager) :
    result (bool * option (RealtimeSession * Z)) string * RealtimeManager :=
  match validate_screen_share_consent_at payload realtime_id (Some peer_id) (Some shared_id) now_ms with
  | Err e => (Err e, m)
  | Ok c =>
    if negb (bool_decide (decision_try_from (sc_decision c) = Some DecisionCancel))
    then (Err "only screen-share CANCEL is valid while claim is in progress", m)
    else if negb match pb_request b with
                 | Some r => bool_decide (sc_operation_id r = sc_operation_id c)
                             && bool_decide (sc_shared_session_instance_id r = sc_shared_session_instance_id c)
                 | None => false
                 end
    then (Err "screen-share CANCEL binding does not match claiming operation", m)
    else
      match cancel_revision_ok realtime_id peer_id c m with
      | Err e => (Err e, m)
      | Ok _ =>
        match remember_provisional_action (replay_key local_device_id realtime_id peer_id c) later_ms m with
        | (Err e, m) => (Err e, m)
        | (Ok _, m) =>
          (Ok (true, None),
           wake_provisional_expiry (set_provisional (delete realtime_id (provisional m)) (provisional_requests m) m))
        end
      end
  end.

Definition claiming_close (realtime_id peer_id : string) (revision : Z) (shared_id : string)
    (b : ProvisionalScreenShareBinding) (m : RealtimeManager) :
    result (bool * option (RealtimeSession * Z)) string * RealtimeManager :=
  let session := rt_sessions m !! realtime_id in
  let exact :=
    match session with
    | Some s => bool_decide (rs_peer_id s = peer_id) && bool_decide (rs_shared_id s = shared_id)
                && (rs_remote_revision s <? revision)
    | None => false
    end in
  if bool_decide (is_Some session) && negb exact
  then (Err "claiming WebRTC close does not match responder binding", m)
  else
    let '(_, m) := take_provisional_claim realtime_id (pb_claim_token b) (pb_epoch b) m in
    if exact then
      match session_generation realtime_id m with
      | None => (Err "claiming responder generation missing", m)
      | Some generation =>
        match remove_session realtime_id m with
        | (None, m) => (Err "claiming responder session missing", m)
        | (Some session, m) => (Ok (true, Some (session, generation)), m)
        end
      end
    else (Ok (true, None), m).

Definition handle_claiming_control_signal (local_device_id : string) (kind : RealtimeSignalKind)
    (realtime_id peer_id : string) (revision : Z) (shared_id : string) (payload : bytes) (now_ms later_ms : Z)
    (m : RealtimeManager) : result (bool * option (RealtimeSession * Z)) string * RealtimeManager :=
  match validate_signal kind revision payload with
  | Err e => (Err e, m)
  | Ok _ =>
    match provisional m !! realtime_id with
    | None => (Ok (false, None), m)
    | Some b =>
      if negb (bool_decide (pb_peer_id b = peer_id)) || negb (bool_decide (pb_shared_id b = shared_id))
         || negb (bool_decide (pb_state b = Claiming))
      then (Ok (false, None), m)
      else
        match kind with
        | SkScreenShareConsent =>
          claiming_cancel local_device_id realtime_id peer_id shared_id payload now_ms later_ms b m
        | SkWebRtcClose => claiming_close realtime_id peer_id revision shared_id b m
        | _ => (Ok (false, None), m)
        end
    end
  end.
End Claims.
