(* ===== verification/RealtimeMedia.v ===== *)
(** * Native media endpoints

    Models [network-core/src/realtime_media]: the registry of endpoint leases and
    the operations through a lease.  A lease names an I/O driver weakly: the driver
    may be gone from [drivers] when the lease is used.  Locks are not poisoned. *)
From S2P Require Import Prelude VideoQueue Rtp ScreenVideo MediaQos WebRtcPeer RealtimeWire Realtime.

Inductive RealtimeMediaDirection := Send | Receive.

#[export] Instance RealtimeMediaDirection_eq_dec : EqDecision RealtimeMediaDirection.
Proof. solve_decision. Defined.

Inductive RealtimeMediaError :=
| RuntimeNotRunning | InvalidRealtimeId | InvalidPeerId | UnknownRealtimeSession | PeerMismatch
| DriverUnavailable | DuplicateEndpoint | StaleEndpoint | StaleGeneration | DirectionMismatch
| FrameRejected | MediaInternal.

Record SessionBinding := mkSessionBinding { sb_peer_id : string; sb_generation : Z; sb_driver : Z }.

#[export] Instance SessionBinding_eq_dec : EqDecision SessionBinding.
Proof. solve_decision. Defined.

Record EndpointLease := mkLease {
  el_realtime_id : string;
  el_peer_id : string;
  el_runtime_generation : Z;
  el_session_generation : Z;
  el_direction : RealtimeMediaDirection;
  el_driver : Z;
}.

Record RealtimeMediaRegistry := mkRegistry {
  runtime_generation : Z;
  session_bindings : gmap string SessionBinding;
  endpoints : gmap Z EndpointLease;
}.

(** ** The registry ([registry.rs]) *)

Definition registry_new (generation : Z) : RealtimeMediaRegistry := mkRegistry generation ∅ ∅.

Definition registry_invalidate_realtime (realtime_id : string) (r : RealtimeMediaRegistry) : RealtimeMediaRegistry :=
  mkRegistry (runtime_generation r) (delete realtime_id (session_bindings r))
    (filter (fun kl => el_realtime_id kl.2 ≠ realtime_id) (endpoints r)).

Definition registry_invalidate_all (r : RealtimeMediaRegistry) : RealtimeMediaRegistry :=
  mkRegistry (runtime_generation r) ∅ ∅.

Definition insert_session_binding (realtime_id : string) (b : SessionBinding) (r : RealtimeMediaRegistry) :
    RealtimeMediaRegistry :=
  mkRegistry (runtime_generation r) (<[realtime_id := b]> (session_bindings r)) (endpoints r).

(** The binding of the session, after an older one was revoked. *)
Definition rebind (realtime_id : string) (b : SessionBinding) (r : RealtimeMediaRegistry) : RealtimeMediaRegistry :=
  match session_bindings r !! realtime_id with
  | Some existing =>
    if bool_decide (existing = b) then r
    else insert_session_binding realtime_id b (registry_invalidate_realtime realtime_id r)
  | None => insert_session_binding realtime_id b r
  end.

Definition same_endpoint (realtime_id peer_id : string) (runtime session : Z) (direction : RealtimeMediaDirection)
    (l : EndpointLease) : bool :=
  bool_decide (el_realtime_id l = realtime_id) && bool_decide (el_peer_id l = peer_id)
  && (el_runtime_generation l =? runtime) && (el_session_generation l =? session)
  && bool_decide (el_direction l = direction).

(** [next] is the process-wide counter of endpoint identifiers. *)
Definition registry_create (realtime_id peer_id : string) (direction : RealtimeMediaDirection)
    (expected_generation session_generation d : Z) (next : Z) (r : RealtimeMediaRegistry) :
    result Z RealtimeMediaError * Z * RealtimeMediaRegistry :=
  if negb (expected_generation =? session_generation) then (Err StaleGeneration, next, r)
  else
    let r := rebind realtime_id (mkSessionBinding peer_id session_generation d) r in
    if existsb (fun kl => same_endpoint realtime_id peer_id (runtime_generation r) session_generation direction kl.2)
         (map_to_list (endpoints r))
    then (Err DuplicateEndpoint, next, r)
    else
      (Ok next, wrap 64 (next + 1),
       mkRegistry (runtime_generation r) (session_bindings r)
         (<[next := mkLease realtime_id peer_id (runtime_generation r) session_generation direction d]> (endpoints r))).

Definition endpoint_lease (endpoint_id : Z) (r : RealtimeMediaRegistry) : result EndpointLease RealtimeMediaError :=
  match endpoints r !! endpoint_id with
  | None => Err StaleEndpoint
  | Some l => if negb (el_runtime_generation l =? runtime_generation r) then Err StaleEndpoint else Ok l
  end.

Definition snapshot_endpoint (endpoint_id : Z) (direction : RealtimeMediaDirection) (r : RealtimeMediaRegistry) :
    result EndpointLease RealtimeMediaError :=
  let? l := endpoint_lease endpoint_id r in
  if negb (bool_decide (el_direction l = direction)) then Err DirectionMismatch else Ok l.

Definition registry_validate_endpoint (endpoint_id : Z) (realtime_id peer_id : string) (generation : Z)
    (direction : RealtimeMediaDirection) (r : RealtimeMediaRegistry) : result unit RealtimeMediaError :=
  match endpoints r !! endpoint_id with
  | None => Err StaleEndpoint
  | Some l =>
    if negb (bool_decide (el_realtime_id l = realtime_id)) || negb (bool_decide (el_peer_id l = peer_id))
    then Err PeerMismatch
    else if negb (el_session_generation l =? generation) then Err StaleGeneration
    else if negb (bool_decide (el_direction l = direction)) then Err DirectionMismatch
    else if negb (el_runtime_generation l =? runtime_generation r) then Err StaleEndpoint
    else Ok tt
  end.

Definition to_media_direction (d : RealtimeMediaDirection) : MediaDirection :=
  match d with Send => Sendonly | Receive => Recvonly end.

Definition is_ascii_hexdigit (b : byte) : bool :=
  let n := Z_of_byte b in
  ((48 <=? n) && (n <=? 57)) || ((65 <=? n) && (n <=? 70)) || ((97 <=? n) && (n <=? 102)).

Definition validate_identifiers (realtime_id peer_id : string) : result unit RealtimeMediaError :=
  if negb (slen realtime_id =? 32) || negb (forallb is_ascii_hexdigit (str_bytes realtime_id))
  then Err InvalidRealtimeId
  else if bool_decide (peer_id = EmptyString) || (128 <? slen peer_id) then Err InvalidPeerId
  else Ok tt.

Section Media.
Context {HF : H264Format} {RC : RealtimeCodec}.

Definition with_endpoint_lease {A} (l : EndpointLease)
    (operation : WebRtcPeer -> result A WebRtcError * WebRtcPeer) (drivers : gmap Z WebRtcPeer) :
    result A RealtimeMediaError * gmap Z WebRtcPeer :=
  match drivers !! el_driver l with
  | None => (Err StaleEndpoint, drivers)
  | Some p =>
    let '(r, p) := operation p in (map_err (fun _ => FrameRejected) r, <[el_driver l := p]> drivers)
  end.

(** ** The screen video of a peer *)

Definition with_screen_video {A} (f : H264ScreenVideo -> result A WebRtcError * H264ScreenVideo) (p : WebRtcPeer) :
    result A WebRtcError * WebRtcPeer :=
  match wp_screen_video p with
  | None => (Err ScreenVideoNotConfigured, p)
  | Some v => let '(r, v) := f v in (r, set_screen_video (Some v) p)
  end.

Definition peer_apply_adaptation (target : H264AdaptationTarget) (p : WebRtcPeer) : result unit WebRtcError * WebRtcPeer :=
  if negb (target_is_valid target) then (Err InvalidConfiguration, p)
  else with_screen_video (apply_h264_screen_video_adaptation target) p.

Definition peer_pop_remote (now : Z) (p : WebRtcPeer) : result (option EncodedVideoFrame) WebRtcError * WebRtcPeer :=
  match wp_screen_video p with
  | None => (Ok None, p)
  | Some v =>
    let '(frame, v) := pop_remote_h264_screen_video now v in (Ok frame, set_screen_video (Some v) p)
  end.

(** ** The endpoints ([endpoint.rs]) *)

Definition media_endpoint_driver (realtime_id peer_id : string) (m : RealtimeManager) :
    result (Z * Z) RealtimeMediaError :=
  match rt_sessions m !! realtime_id with
  | None => Err UnknownRealtimeSession
  | Some s =>
    if negb (bool_decide (rs_peer_id s = peer_id)) then Err PeerMismatch
    else
      match session_generations m !! realtime_id with
      | None => Err StaleGeneration
      | Some generation =>
        match rs_driver s with
        | None => Err DriverUnavailable
        | Some d => Ok (d, generation)
        end
      end
  end.

Definition create_endpoint (realtime_id peer_id : string) (direction : RealtimeMediaDirection) (expected : Z)
    (m : RealtimeManager) (next : Z) (r : RealtimeMediaRegistry) :
    result Z RealtimeMediaError * Z * RealtimeMediaRegistry :=
  match validate_identifiers realtime_id peer_id with
  | Err e => (Err e, next, r)
  | Ok _ =>
    match media_endpoint_driver realtime_id peer_id m with
    | Err e => (Err e, next, r)
    | Ok (d, generation) =>
      if negb (expected =? generation) then (Err StaleGeneration, next, r)
      else registry_create realtime_id peer_id direction expected generation d next r
    end
  end.

(** The lease is dropped in a second section of the registry, once the queue of
    its direction is cleared. *)
Definition release_clear (endpoint_id : Z) (r : RealtimeMediaRegistry) (drivers : gmap Z WebRtcPeer) :
    result bool RealtimeMediaError * gmap Z WebRtcPeer :=
  match endpoints r !! endpoint_id with
  | None => (Ok false, drivers)
  | Some l =>
    match drivers !! el_driver l with
    | None => (Ok true, drivers)
    | Some p =>
      let '(cleared, p) :=
        with_screen_video (fun v => (Ok tt, clear_h264_screen_video (to_media_direction (el_direction l)) v)) p in
      (match cleared with Ok _ => Ok true | Err _ => Err DriverUnavailable end, <[el_driver l := p]> drivers)
    end
  end.

Definition release_remove (endpoint_id : Z) (r : RealtimeMediaRegistry) : RealtimeMediaRegistry :=
  mkRegistry (runtime_generation r) (session_bindings r) (delete endpoint_id (endpoints r)).

Definition release_endpoint (endpoint_id : Z) (r : RealtimeMediaRegistry) (drivers : gmap Z WebRtcPeer) :
    result unit RealtimeMediaError * RealtimeMediaRegistry * gmap Z WebRtcPeer :=
  match release_clear endpoint_id r drivers with
  | (Err e, drivers) => (Err e, r, drivers)
  | (Ok false, drivers) => (Ok tt, r, drivers)
  | (Ok true, drivers) => (Ok tt, release_remove endpoint_id r, drivers)
  end.

(** An operation through a snapshot of the lease. *)
Definition through_lease {A} (lease : result EndpointLease RealtimeMediaError)
    (operation : EndpointLease -> WebRtcPeer -> result A WebRtcError * WebRtcPeer) (drivers : gmap Z WebRtcPeer) :
    result A RealtimeMediaError * gmap Z WebRtcPeer :=
  match lease with
  | Err e => (Err e, drivers)
  | Ok l => with_endpoint_lease l (operation l) drivers
  end.

Definition push_endpoint (endpoint_id : Z) (frame : EncodedVideoFrame) (now : Z) (r : RealtimeMediaRegistry)
    (drivers : gmap Z WebRtcPeer) : result VideoEnqueueResult RealtimeMediaError * gmap Z WebRtcPeer :=
  through_lease (snapshot_endpoint endpoint_id Send r)
    (fun _ => with_screen_video (enqueue_h264_screen_video frame now)) drivers.

Definition request_keyframe_endpoint (endpoint_id : Z) (r : RealtimeMediaRegistry) (drivers : gmap Z WebRtcPeer) :
    result unit RealtimeMediaError * gmap Z WebRtcPeer :=
  through_lease (endpoint_lease endpoint_id r)
    (fun l => with_screen_video (fun v =>
       (Ok tt, request_h264_screen_video_keyframe (to_media_direction (el_direction l)) v))) drivers.

Definition reset_decoder (endpoint_id : Z) (r : RealtimeMediaRegistry) (drivers : gmap Z WebRtcPeer) :
    result unit RealtimeMediaError * gmap Z WebRtcPeer :=
  through_lease (snapshot_endpoint endpoint_id Receive r)
    (fun _ => with_screen_video (fun v => (Ok tt, reset_h264_screen_video_decoder v))) drivers.

Definition apply_adaptation (endpoint_id : Z) (target : H264AdaptationTarget) (r : RealtimeMediaRegistry)
    (drivers : gmap Z WebRtcPeer) : result unit RealtimeMediaError * gmap Z WebRtcPeer :=
  through_lease (snapshot_endpoint endpoint_id Send r) (fun _ => peer_apply_adaptation target) drivers.

Definition endpoint_stats (endpoint_id : Z) (r : RealtimeMediaRegistry) (drivers : gmap Z WebRtcPeer) :
    result H264ScreenVideoStats RealtimeMediaError * gmap Z WebRtcPeer :=
  through_lease (endpoint_lease endpoint_id r)
    (fun l => with_screen_video (fun v =>
       (Ok (h264_screen_video_stats (to_media_direction (el_direction l)) v), v))) drivers.

Definition pop_endpoint (endpoint_id : Z) (now : Z) (r : RealtimeMediaRegistry) (drivers : gmap Z WebRtcPeer) :
    result (option EncodedVideoFrame) RealtimeMediaError * gmap Z WebRtcPeer :=
  through_lease (snapshot_endpoint endpoint_id Receive r) (fun _ => peer_pop_remote now) drivers.
End Media.
