(* ===== verification/RealtimeRuns.v ===== *)
(** * Runs of the realtime manager

    Models the commands, signals and tasks of [network-core/src/realtime] and of
    the media endpoints as steps on one state.  A step is what runs under one hold
    of the manager's lock, with the clocks, identifiers and answers of the [rtc]
    connection it meets; a command of several such sections is several steps, and
    the steps of other commands may come between them. *)
From S2P Require Import Prelude VideoQueue Rtp ScreenVideo MediaQos WebRtcPeer RealtimeWire Realtime RealtimeClaims.
From S2P Require Import RealtimeMedia.

Section Runs.
Context {HF : H264Format} {RC : RealtimeCodec}.

(** ** Commands and signals of a session *)

(** What a section leaves: the manager, the media registry and the drivers. *)
Record RtState := mkRt { st_manager : RealtimeManager; st_registry : RealtimeMediaRegistry; st_drivers : gmap Z WebRtcPeer }.

Definition set_st_manager (m : RealtimeManager) (s : RtState) : RtState := mkRt m (st_registry s) (st_drivers s).

(** A session taken out of the manager: its endpoints are revoked and its peer is
    closed. *)
Definition close_removed (realtime_id : string) (removed : option RealtimeSession) (m : RealtimeManager) (s : RtState) :
    RtState :=
  match removed with
  | None => set_st_manager m s
  | Some session =>
    mkRt m (registry_invalidate_realtime realtime_id (st_registry s)) (close_session session (st_drivers s))
  end.

(** [start_session] after its checks, up to the end of the section that registers
    driver [d]; [offer] is what the connection answers, the local description or the
    error of making the data channel or the description. *)
Definition start_session (realtime_id peer_id shared_id : string) (connection : option Z) (d : Z)
    (offer : result string string) (s : RtState) : result OutboundSignal (RealtimeErrorCode * string) * RtState :=
  match create_offer offer (peer_new default_policies) with
  | (Err e, _) => (Err (RtIoError, webrtc_message e), s)
  | (Ok offer, p) =>
    let revision := signaling_revision p in
    let m := st_manager s in
    match rt_sessions m !! realtime_id with
    | Some _ =>
      (Err (RtInvalidArgument, "realtime session already exists"),
       mkRt m (st_registry s) (<[d := peer_close p]> (st_drivers s)))
    | None =>
      (Ok (mkOutbound realtime_id peer_id shared_id SkWebRtcOffer revision (str_bytes (sd_sdp offer))),
       mkRt (insert_new_session realtime_id
               (mkRtSession peer_id shared_id connection None (Some d) revision 0 revision []) m)
         (st_registry s) (<[d := p]> (st_drivers s)))
    end
  end.

Definition remove_realtime_session_if_owned (realtime_id peer_id : string) (d : Z) (s : RtState) : RtState :=
  let '(removed, m) := take_realtime_session_if_owned realtime_id peer_id d (st_manager s) in
  close_removed realtime_id removed m s.

(** [start_session] when no task can be spawned: a driver that owns no session is
    closed as well. *)
Definition start_aborted (realtime_id peer_id : string) (d : Z) (s : RtState) : RtState :=
  let '(removed, m) := take_realtime_session_if_owned realtime_id peer_id d (st_manager s) in
  match removed with
  | Some _ => close_removed realtime_id removed m s
  | None => mkRt m (st_registry s) (close_driver d (st_drivers s))
  end.

Definition stop_session (realtime_id : string) (s : RtState) :
    result (OutboundSignal * Z) (RealtimeErrorCode * string) * RtState :=
  let generation := default 0 (session_generation realtime_id (st_manager s)) in
  match remove_session realtime_id (st_manager s) with
  | (None, m) => (Err (RtInvalidArgument, "realtime session does not exist"), set_st_manager m s)
  | (Some session, m) =>
    (Ok (mkOutbound realtime_id (rs_peer_id session) (rs_shared_id session) SkWebRtcClose
           (saturating_add u64_max (rs_revision session) 1) (str_bytes "close"), generation),
     close_removed realtime_id (Some session) m s)
  end.

Definition close_remote_realtime_session (realtime_id peer_id : string) (revision : Z) (shared_id : string) (s : RtState) :
    result Z string * RtState :=
  match take_remote_closed_session realtime_id peer_id revision shared_id (st_manager s) with
  | (Err e, m) => (Err e, set_st_manager m s)
  | (Ok (session, generation), m) => (Ok generation, close_removed realtime_id (Some session) m s)
  end.

(** The sessions of a connection that ended; [order] is the order of the hash map. *)
Definition close_realtime_sessions_for_session (order : list string) (peer_id : string) (session_id : Z) (s : RtState) :
    list (string * string * Z * Z * string) * RtState :=
  let '(closed, m, drivers) :=
    close_for_connection_session_with_hook order peer_id session_id (st_manager s) (st_drivers s) in
  (closed, mkRt m (foldl (fun r c => registry_invalidate_realtime c.1.1.1.1 r) (st_registry s) closed) drivers).

(** The checks every command that names a peer starts with. *)
Definition validate_command (registered : bool) (realtime_id peer_id : string) : result unit (RealtimeErrorCode * string) :=
  let? _ := map_err (pair RtInvalidArgument) (validate_realtime_id realtime_id) in
  map_err (pair RtNoRoute) (validate_peer registered peer_id).

(** What [send_signal_command] sends. *)
Definition send_signal_command (registered : bool) (realtime_id peer_id : string) (kind revision : Z) (payload : bytes)
    (now_ms : Z) (m : RealtimeManager) : result OutboundSignal (RealtimeErrorCode * string) :=
  let? _ := validate_command registered realtime_id peer_id in
  match signal_kind_try_from kind with
  | None => Err (RtInvalidArgument, "invalid WebRTC signal kind")
  | Some kind =>
    let? _ := map_err (pair RtInvalidArgument) (validate_signal kind revision payload) in
    match rt_sessions m !! realtime_id with
    | None => Err (RtInvalidArgument, "realtime session does not exist")
    | Some session =>
      let? _ :=
        if bool_decide (kind = SkScreenShareConsent) then
          map_err (pair RtInvalidArgument)
            (let? _ := validate_screen_share_consent_at payload realtime_id None (Some (rs_shared_id session)) now_ms in Ok tt)
        else Ok tt in
      let revision_is_valid :=
        if bool_decide (kind = SkScreenShareConsent) then 0 <? revision
        else if bool_decide (kind = SkIceCandidate) then revision =? rs_ice_revision session
        else rs_revision session <? revision in
      if negb (bool_decide (rs_peer_id session = peer_id)) || negb revision_is_valid
      then Err (RtInvalidArgument, "stale or mismatched realtime signaling revision")
      else Ok (mkOutbound realtime_id peer_id (rs_shared_id session) kind revision payload)
    end
  end.

(** What [forward_local_candidate] sends. *)
Definition forward_local_candidate (realtime_id peer_id : string) (candidate : string) (m : RealtimeManager) :
    option OutboundSignal :=
  match rt_sessions m !! realtime_id with
  | None => None
  | Some session =>
    if negb (bool_decide (rs_peer_id session = peer_id)) then None
    else Some (mkOutbound realtime_id peer_id (rs_shared_id session) SkIceCandidate (rs_ice_revision session)
                 (str_bytes candidate))
  end.

(** ** The expiry worker ([provisional.rs]) *)

(** A live entry: its identifier, its epoch and its deadline. *)
Definition binding_entry (m : RealtimeManager) (realtime_id : string) : option (string * Z * Z) :=
  (fun b => (realtime_id, pb_epoch b, pb_deadline b)) <$> provisional m !! realtime_id.
Definition request_entry (m : RealtimeManager) (realtime_id : string) : option (string * Z * Z) :=
  (fun r => (realtime_id, pr_epoch r, pr_deadline r)) <$> provisional_requests m !! realtime_id.

(** [min_by_key] over the deadlines. *)
Definition earlier (best : option (string * Z * Z)) (e : string * Z * Z) : option (string * Z * Z) :=
  match best with
  | Some b => if e.2 <? b.2 then Some e else Some b
  | None => Some e
  end.

(** The hash maps give the entries in the orders [bindings] and [requests]. *)
Definition next_provisional_expiry (bindings requests : list string) (m : RealtimeManager) : option (string * Z * Z) :=
  foldl earlier None (omap (binding_entry m) bindings ++ omap (request_entry m) requests).

Definition deadline_passed (realtime_id : string) (now : Z) (m : RealtimeManager) : bool :=
  match provisional m !! realtime_id with
  | Some b => pb_deadline b <=? now
  | None => match provisional_requests m !! realtime_id with Some r => pr_deadline r <=? now | None => false end
  end.

Definition expire (realtime_id : string) (epoch now now_ms : Z) (m : RealtimeManager) : RealtimeManager :=
  prune_replay_cache now_ms
    (if bool_decide (current_provisional_epoch realtime_id m = Some epoch) && deadline_passed realtime_id now m
     then set_provisional (delete realtime_id (provisional m)) (delete realtime_id (provisional_requests m)) m
     else m).

(** Where the worker is: not running, about to run, about to read the earliest
    deadline, or waiting for it and for a wake-up. *)
Inductive ExpiryWorker :=
| WorkerIdle
| WorkerSpawning
| WorkerReading
| WorkerWaiting (target : option (string * Z * Z)).

(** ** The state of a run *)

(** A claim between two of its sections. *)
Inductive ClaimOp :=
| ClaimStarted (c : ClaimCommand) (start : ClaimStart)
| ClaimApplied (c : ClaimCommand) (shared_id : string) (epoch generation d answer_revision : Z)
| ClaimAborting (c : ClaimCommand) (shared_id : string) (epoch : Z) (generation : option Z) (d : Z).

(** A committed claim, with the session that holds its identifier then. *)
Record CommittedClaim := mkCommitted {
  cm_epoch : Z;
  cm_command : ClaimCommand;
  cm_driver : Z;
  cm_generation : Z;
  cm_session : option RealtimeSession;
  cm_session_generation : option Z;
}.

(** [w_closing]: the runtime has closed every session and is yet to revoke the
    endpoints again.  The last four fields record what happened: offers told to the
    application with their epochs, committed claims, signals accepted with the
    generations of their sessions, and consent actions accepted with the time. *)
Record RtWorld := mkRtWorld {
  w_state : RtState;
  w_next_endpoint : Z;
  w_next_driver : Z;
  w_claims : gmap Z ClaimOp;
  w_worker : ExpiryWorker;
  w_wall : Z;
  w_mono : Z;
  w_closing : bool;
  w_published : list (Z * IncomingSessionOffer);
  w_commits : list CommittedClaim;
  w_accepted : list (Z * Z);
  w_actions : list (ProvisionalReplayKey * Z);
}.

Definition w_manager (w : RtWorld) : RealtimeManager := st_manager (w_state w).

Definition set_w_state (s : RtState) (w : RtWorld) : RtWorld :=
  mkRtWorld s (w_next_endpoint w) (w_next_driver w) (w_claims w) (w_worker w) (w_wall w) (w_mono w) (w_closing w)
    (w_published w) (w_commits w) (w_accepted w) (w_actions w).
Definition set_w_manager (m : RealtimeManager) (w : RtWorld) : RtWorld := set_w_state (set_st_manager m (w_state w)) w.
Definition set_w_endpoint (next : Z) (w : RtWorld) : RtWorld :=
  mkRtWorld (w_state w) next (w_next_driver w) (w_claims w) (w_worker w) (w_wall w) (w_mono w) (w_closing w)
    (w_published w) (w_commits w) (w_accepted w) (w_actions w).
Definition set_w_driver (next : Z) (w : RtWorld) : RtWorld :=
  mkRtWorld (w_state w) (w_next_endpoint w) next (w_claims w) (w_worker w) (w_wall w) (w_mono w) (w_closing w)
    (w_published w) (w_commits w) (w_accepted w) (w_actions w).
Definition set_w_claims (claims : gmap Z ClaimOp) (w : RtWorld) : RtWorld :=
  mkRtWorld (w_state w) (w_next_endpoint w) (w_next_driver w) claims (w_worker w) (w_wall w) (w_mono w) (w_closing w)
    (w_published w) (w_commits w) (w_accepted w) (w_actions w).
Definition set_w_worker (worker : ExpiryWorker) (w : RtWorld) : RtWorld :=
  mkRtWorld (w_state w) (w_next_endpoint w) (w_next_driver w) (w_claims w) worker (w_wall w) (w_mono w) (w_closing w)
    (w_published w) (w_commits w) (w_accepted w) (w_actions w).
Definition set_w_clocks (wall mono : Z) (w : RtWorld) : RtWorld :=
  mkRtWorld (w_state w) (w_next_endpoint w) (w_next_driver w) (w_claims w) (w_worker w) wall mono (w_closing w)
    (w_published w) (w_commits w) (w_accepted w) (w_actions w).
Definition set_w_closing (closing : bool) (w : RtWorld) : RtWorld :=
  mkRtWorld (w_state w) (w_next_endpoint w) (w_next_driver w) (w_claims w) (w_worker w) (w_wall w) (w_mono w) closing
    (w_published w) (w_commits w) (w_accepted w) (w_actions w).
Definition log_published (l : list (Z * IncomingSessionOffer)) (w : RtWorld) : RtWorld :=
  mkRtWorld (w_state w) (w_next_endpoint w) (w_next_driver w) (w_claims w) (w_worker w) (w_wall w) (w_mono w)
    (w_closing w) (w_published w ++ l) (w_commits w) (w_accepted w) (w_actions w).
Definition log_commit (c : CommittedClaim) (w : RtWorld) : RtWorld :=
  mkRtWorld (w_state w) (w_next_endpoint w) (w_next_driver w) (w_claims w) (w_worker w) (w_wall w) (w_mono w)
    (w_closing w) (w_published w) (w_commits w ++ [c]) (w_accepted w) (w_actions w).
Definition log_accepted (a : Z * Z) (w : RtWorld) : RtWorld :=
  mkRtWorld (w_state w) (w_next_endpoint w) (w_next_driver w) (w_claims w) (w_worker w) (w_wall w) (w_mono w)
    (w_closing w) (w_published w) (w_commits w) (w_accepted w ++ [a]) (w_actions w).
Definition log_action (a : ProvisionalReplayKey * Z) (w : RtWorld) : RtWorld :=
  mkRtWorld (w_state w) (w_next_endpoint w) (w_next_driver w) (w_claims w) (w_worker w) (w_wall w) (w_mono w)
    (w_closing w) (w_published w) (w_commits w) (w_accepted w) (w_actions w ++ [a]).

Definition world_init (generation runtime wall mono : Z) : RtWorld :=
  mkRtWorld (mkRt (manager_default generation) (registry_new runtime) ∅) 1 0 ∅ WorkerIdle wall mono false [] [] [] [].

(** ** Steps *)

(** An inbound signal of the v2 control plane after its routing. *)
Record RoutedSignal := mkRouted {
  rg_kind : RealtimeSignalKind;
  rg_realtime_id : string;
  rg_peer_id : string;
  rg_revision : Z;
  rg_shared_id : string;
  rg_payload : bytes;
}.

(** The checks every handler of a signal starts with. *)
Definition validate_routed (registered : bool) (g : RoutedSignal) : result unit string :=
  let? _ := validate_realtime_id (rg_realtime_id g) in
  let? _ := validate_shared_session_instance_id (rg_shared_id g) in
  let? _ := validate_peer registered (rg_peer_id g) in
  validate_signal (rg_kind g) (rg_revision g) (rg_payload g).

Inductive RtAction :=
| ATick (wall mono : Z)
| AStart (registered : bool) (realtime_id peer_id shared_id : string) (connection : option Z) (offer : result string string)
| AOwnedGone (realtime_id peer_id : string) (d : Z)
| AStartAborted (realtime_id peer_id : string) (d : Z)
| AStop (realtime_id : string)
| ASignal (registered : bool) (g : RoutedSignal) (with_driver : bool) (connection : option Z) (rtc : RtcAnswers)
| AControl (local_device_id : string) (g : RoutedSignal)
| AProvisional (registered : bool) (local_device_id : string) (g : RoutedSignal) (offer_id token : string)
| AClaimBegin (registered : bool) (op : Z) (c : ClaimCommand)
| AClaimNoDriver (op : Z)
| AClaimApply (op : Z) (connection : option Z) (rtc : RtcAnswers) (rtc_ice : ProvisionalIceCandidate -> RtcAnswers)
| AClaimUnsent (op : Z)
| AClaimCommit (op : Z) (rtc_ice : ProvisionalIceCandidate -> RtcAnswers)
| AClaimRollback (op : Z)
| ARejectBegin (registered : bool) (c : ClaimCommand)
| ARejectMark (c : ClaimCommand)
| ARejectFinish (c : ClaimCommand)
| ADiscard (registered : bool) (c : ClaimCommand)
| AConnectionLost (order : list string) (peer_id : string) (session_id : Z)
| AEnsureWorker
| AWorkerSpawned (spawned : bool)
| AWorkerRead (bindings requests : list string)
| AWorkerWake
| AWorkerFire
| AEndpointCreate (realtime_id peer_id : string) (direction : RealtimeMediaDirection) (expected : Z)
| AEndpointRelease (endpoint_id : Z)
| AInvalidateAll
| ACloseAll
| ADriver (d : Z) (p : WebRtcPeer)
| ADriverDropped (d : Z).

(** The apply section of [handle_realtime_signal]; a consent changes nothing and a
    close has a section of its own. *)
Definition signal_section (g : RoutedSignal) (pending : option Z) (connection : option Z) (rtc : RtcAnswers) (s : RtState) :
    result SignalOutcome string * RtState :=
  let '(r, m, drivers) :=
    apply_signal_with_driver (rg_realtime_id g) (rg_peer_id g)
      (mkInboundSignal (rg_shared_id g) (rg_kind g) (rg_revision g) (rg_payload g)) pending connection rtc
      (st_manager s) (st_drivers s) in
  (r, mkRt m (st_registry s) drivers).

(** [fresh]: the handler made a driver for the session. *)
Definition step_apply (g : RoutedSignal) (fresh : bool) (connection : option Z) (rtc : RtcAnswers) (w : RtWorld) : RtWorld :=
  let d := w_next_driver w in
  let s := w_state w in
  let s := if fresh then mkRt (st_manager s) (st_registry s) (<[d := peer_new default_policies]> (st_drivers s)) else s in
  let '(r, s) := signal_section g (if fresh then Some d else None) connection rtc s in
  let w := set_w_state s (if fresh then set_w_driver (d + 1) w else w) in
  match r with
  | Ok outcome =>
    if bool_decide (rg_kind g = SkIceCandidate) then w else log_accepted (so_generation outcome, rg_revision g) w
  | Err _ => w
  end.

Definition step_signal (g : RoutedSignal) (with_driver : bool) (connection : option Z) (rtc : RtcAnswers) (w : RtWorld) :
    RtWorld :=
  match rg_kind g with
  | SkScreenShareConsent => w
  | SkWebRtcClose =>
    let '(r, s) :=
      close_remote_realtime_session (rg_realtime_id g) (rg_peer_id g) (rg_revision g) (rg_shared_id g) (w_state w) in
    match r with
    | Ok generation => log_accepted (generation, rg_revision g) (set_w_state s w)
    | Err _ => set_w_state s w
    end
  | kind => step_apply g (with_driver && bool_decide (kind = SkWebRtcOffer)) connection rtc w
  end.

(** The consent action of an accepted signal, for the record. *)
Definition consent_key (local_device_id : string) (g : RoutedSignal) : option ProvisionalReplayKey :=
  replay_key local_device_id (rg_realtime_id g) (rg_peer_id g) <$> decode_consent (rg_payload g).

Definition log_consent (local_device_id : string) (g : RoutedSignal) (w : RtWorld) : RtWorld :=
  match rg_kind g, consent_key local_device_id g with
  | SkScreenShareConsent, Some key => log_action (key, w_wall w) w
  | _, _ => w
  end.

Definition step_provisional (local_device_id : string) (g : RoutedSignal) (offer_id token : string) (w : RtWorld) : RtWorld :=
  let '(r, m) :=
    provisional_signal local_device_id (rg_kind g) (rg_realtime_id g) (rg_peer_id g) (rg_revision g) (rg_shared_id g)
      (rg_payload g) offer_id token (w_mono w) (w_wall w) (w_wall w) (w_manager w) in
  let w := set_w_manager m w in
  match r with
  | Err _ => w
  | Ok published =>
    let w := log_consent local_device_id g w in
    match published, current_provisional_epoch (rg_realtime_id g) m with
    | Some offer, Some epoch => log_published [(epoch, offer)] w
    | _, _ => w
    end
  end.

Definition step_control (local_device_id : string) (g : RoutedSignal) (w : RtWorld) : RtWorld :=
  let '(r, m) :=
    handle_claiming_control_signal local_device_id (rg_kind g) (rg_realtime_id g) (rg_peer_id g) (rg_revision g)
      (rg_shared_id g) (rg_payload g) (w_wall w) (w_wall w) (w_manager w) in
  match r with
  | Ok (true, closed) =>
    let w := set_w_state (close_removed (rg_realtime_id g) (fst <$> closed) m (w_state w)) w in
    log_consent local_device_id g
      match closed with Some (_, generation) => log_accepted (generation, rg_revision g) w | None => w end
  | _ => set_w_manager m w
  end.

Definition step_claim_apply (op : Z) (c : ClaimCommand) (start : ClaimStart) (connection : option Z) (rtc : RtcAnswers)
    (rtc_ice : ProvisionalIceCandidate -> RtcAnswers) (w : RtWorld) : RtWorld :=
  let d := w_next_driver w in
  let '(r, m, drivers) :=
    claim_apply c start d connection (w_wall w) rtc rtc_ice (w_manager w)
      (<[d := peer_new default_policies]> (st_drivers (w_state w))) in
  let w := set_w_driver (d + 1) (set_w_state (mkRt m (st_registry (w_state w)) drivers) w) in
  let next op' := set_w_claims (<[op := op']> (w_claims w)) w in
  match r with
  | Ok outcome =>
    match so_outbound outcome with
    | Some answer =>
      log_accepted (so_generation outcome, cs_offer_revision start)
        (next (ClaimApplied c (cs_shared_id start) (cs_epoch start) (so_generation outcome) d (os_revision answer)))
    | None => next (ClaimAborting c (cs_shared_id start) (cs_epoch start) (Some (so_generation outcome)) d)
    end
  | Err (Some generation, _) => next (ClaimAborting c (cs_shared_id start) (cs_epoch start) generation d)
  | Err (None, _) => set_w_claims (delete op (w_claims w)) w
  end.

Definition step_claim (a : RtAction) (w : RtWorld) : RtWorld :=
  match a with
  | AClaimBegin _ op c =>
    match w_claims w !! op, claim_begin c (w_wall w) (w_manager w) with
    | None, (Ok start, m) => set_w_claims (<[op := ClaimStarted c start]> (w_claims w)) (set_w_manager m w)
    | None, (Err _, m) => set_w_manager m w
    | Some _, _ => w
    end
  | AClaimNoDriver op =>
    match w_claims w !! op with
    | Some (ClaimStarted c start) =>
      let '(_, m) := take_provisional_claim (cc_realtime_id c) (cc_claim_token c) (cs_epoch start) (w_manager w) in
      set_w_claims (delete op (w_claims w)) (set_w_manager m w)
    | _ => w
    end
  | AClaimApply op connection rtc rtc_ice =>
    match w_claims w !! op with
    | Some (ClaimStarted c start) => step_claim_apply op c start connection rtc rtc_ice w
    | _ => w
    end
  | AClaimUnsent op =>
    match w_claims w !! op with
    | Some (ClaimApplied c shared_id epoch generation d _) =>
      set_w_claims (<[op := ClaimAborting c shared_id epoch (Some generation) d]> (w_claims w)) w
    | _ => w
    end
  | AClaimCommit op rtc_ice =>
    match w_claims w !! op with
    | Some (ClaimApplied c shared_id epoch generation d answer_revision) =>
      let s := w_state w in
      let '(r, _, m, drivers) :=
        claim_commit c shared_id epoch generation d answer_revision (w_wall w) (w_wall w) rtc_ice (st_manager s) (st_drivers s) in
      let w := set_w_state (mkRt m (st_registry s) drivers) w in
      match r with
      | Ok _ =>
        log_commit (mkCommitted epoch c d generation (rt_sessions m !! cc_realtime_id c) (session_generation (cc_realtime_id c) m))
          (set_w_claims (delete op (w_claims w)) w)
      | Err _ => set_w_claims (<[op := ClaimAborting c shared_id epoch (Some generation) d]> (w_claims w)) w
      end
    | _ => w
    end
  | AClaimRollback op =>
    match w_claims w !! op with
    | Some (ClaimAborting c shared_id epoch generation d) =>
      let s := w_state w in
      let '(removed, m, drivers) := rollback_incoming_claim c shared_id epoch generation d (st_manager s) (st_drivers s) in
      let registry := match removed with
                      | Some _ => registry_invalidate_realtime (cc_realtime_id c) (st_registry s)
                      | None => st_registry s
                      end in
      set_w_claims (delete op (w_claims w)) (set_w_state (mkRt m registry drivers) w)
    | _ => w
    end
  | _ => w
  end.

Definition step_worker (a : RtAction) (w : RtWorld) : RtWorld :=
  let m := w_manager w in
  match a, w_worker w with
  | AEnsureWorker, WorkerIdle =>
    if expiry_worker_started m then w
    else set_w_worker WorkerSpawning (set_w_manager (set_worker (provisional_wake m) true m) w)
  | AWorkerSpawned true, WorkerSpawning => set_w_worker WorkerReading w
  | AWorkerSpawned false, WorkerSpawning =>
    set_w_worker WorkerIdle (set_w_manager (set_worker (provisional_wake m) false m) w)
  | AWorkerRead bindings requests, WorkerReading =>
    if bool_decide (list_to_set bindings = dom (provisional m)) && bool_decide (list_to_set requests = dom (provisional_requests m))
    then set_w_worker (WorkerWaiting (next_provisional_expiry bindings requests m)) w else w
  | AWorkerWake, WorkerWaiting _ =>
    if provisional_wake m
    then set_w_worker WorkerReading (set_w_manager (set_worker false (expiry_worker_started m) m) w) else w
  | AWorkerFire, WorkerWaiting (Some (realtime_id, epoch, deadline)) =>
    if deadline <=? w_mono w
    then set_w_worker WorkerReading (set_w_manager (expire realtime_id epoch (w_mono w) (w_wall w) m) w) else w
  | _, _ => w
  end.

Definition step_media (a : RtAction) (w : RtWorld) : RtWorld :=
  let s := w_state w in
  match a with
  | AEndpointCreate realtime_id peer_id direction expected =>
    let '(_, next, registry) :=
      create_endpoint realtime_id peer_id direction expected (st_manager s) (w_next_endpoint w) (st_registry s) in
    set_w_endpoint next (set_w_state (mkRt (st_manager s) registry (st_drivers s)) w)
  | AEndpointRelease endpoint_id =>
    let '(_, registry, drivers) := release_endpoint endpoint_id (st_registry s) (st_drivers s) in
    set_w_state (mkRt (st_manager s) registry drivers) w
  | AInvalidateAll =>
    set_w_closing false (set_w_state (mkRt (st_manager s) (registry_invalidate_all (st_registry s)) (st_drivers s)) w)
  | ACloseAll =>
    let '(m, drivers) := close_all (st_manager s) (st_drivers s) in
    set_w_closing true (set_w_state (mkRt m (st_registry s) drivers) w)
  | ADriver d p =>
    match st_drivers s !! d with
    | Some _ => set_w_state (mkRt (st_manager s) (st_registry s) (<[d := p]> (st_drivers s))) w
    | None => w
    end
  | ADriverDropped d =>
    if bool_decide (map_Exists (fun _ session => rs_driver session = Some d) (rt_sessions (st_manager s))) then w
    else set_w_state (mkRt (st_manager s) (st_registry s) (delete d (st_drivers s))) w
  | _ => w
  end.

Definition i64_max : Z := 2 ^ 63 - 1.

(** The checks a command or signal starts with, before its first section. *)
Definition admitted (a : RtAction) : bool :=
  match a with
  | AStart registered realtime_id peer_id _ _ _ => is_ok (validate_command registered realtime_id peer_id)
  | AStop realtime_id => is_ok (validate_realtime_id realtime_id)
  | ASignal registered g _ _ _ | AProvisional registered _ g _ _ => is_ok (validate_routed registered g)
  | AClaimBegin registered _ c | ARejectBegin registered c | ADiscard registered c =>
    is_ok (validate_command registered (cc_realtime_id c) (cc_peer_id c))
  | _ => true
  end.

Definition rt_section (a : RtAction) (w : RtWorld) : RtWorld :=
  match a with
  | ATick wall mono =>
    if (w_wall w <=? wall) && (wall <=? i64_max) && (w_mono w <=? mono) then set_w_clocks wall mono w else w
  | AStart _ realtime_id peer_id shared_id connection offer =>
    let d := w_next_driver w in
    let '(_, s) := start_session realtime_id peer_id shared_id connection d offer (w_state w) in
    set_w_driver (d + 1) (set_w_state s w)
  | AOwnedGone realtime_id peer_id d => set_w_state (remove_realtime_session_if_owned realtime_id peer_id d (w_state w)) w
  | AStartAborted realtime_id peer_id d => set_w_state (start_aborted realtime_id peer_id d (w_state w)) w
  | AStop realtime_id => set_w_state (stop_session realtime_id (w_state w)).2 w
  | ASignal _ g with_driver connection rtc => step_signal g with_driver connection rtc w
  | AControl local_device_id g => step_control local_device_id g w
  | AProvisional _ local_device_id g offer_id token => step_provisional local_device_id g offer_id token w
  | ARejectBegin _ c => set_w_manager (reject_begin c (w_wall w) (w_manager w)).2 w
  | ARejectMark c => set_w_manager (reject_mark c (w_manager w)).2 w
  | ARejectFinish c => set_w_manager (reject_finish c (w_manager w)) w
  | ADiscard _ c => set_w_manager (discard_incoming_offer c (w_manager w)).2 w
  | AConnectionLost order peer_id session_id =>
    if bool_decide (list_to_set order = dom (rt_sessions (w_manager w)))
    then set_w_state (close_realtime_sessions_for_session order peer_id session_id (w_state w)).2 w else w
  | AClaimBegin _ _ _ | AClaimNoDriver _ | AClaimApply _ _ _ _ | AClaimUnsent _ | AClaimCommit _ _ | AClaimRollback _ =>
    step_claim a w
  | AEnsureWorker | AWorkerSpawned _ | AWorkerRead _ _ | AWorkerWake | AWorkerFire => step_worker a w
  | AEndpointCreate _ _ _ _ | AEndpointRelease _ | AInvalidateAll | ACloseAll | ADriver _ _ | ADriverDropped _ =>
    step_media a w
  end.

Definition rt_step (a : RtAction) (w : RtWorld) : RtWorld := if admitted a then rt_section a w else w.
Definition rt_run (l : list RtAction) (w : RtWorld) : RtWorld := foldl (fun w a => rt_step a w) w l.

(** ** The v2 ingress ([signal.rs]) *)

(** Where a v2 signal goes, with the peer it is bound to; [source] is trimmed. *)
Definition route_v2_signal (local_device_id target source : string) (registered : string -> bool)
    (realtime_id : string) (kind revision : Z) (payload : bytes) (m : RealtimeManager) :
    result (RoutedSignal * bool) string :=
  if negb (bool_decide (target = local_device_id))
  then Err "v2 WebRTC signal target does not match local authenticated identity"
  else
    let bound := rs_peer_id <$> rt_sessions m !! realtime_id in
    let? _ :=
      if bool_decide (source = EmptyString) then Ok tt
      else
        let? _ := validate_peer (registered source) source in
        if match bound with Some b => negb (bool_decide (b = source)) | None => false end
        then Err "v2 WebRTC signal source does not match session binding" else Ok tt in
    let? peer_id :=
      match bound with
      | Some b => Ok b
      | None => if bool_decide (source = EmptyString) then Err "v2 WebRTC signal has no authenticated source" else Ok source
      end in
    if bool_decide (peer_id = EmptyString) then Err "v2 WebRTC signal has an empty established peer binding"
    else
      let? envelope := decode_realtime_signal_payload payload in
      match signal_kind_try_from kind with
      | None => Err "invalid v2 WebRTC signal kind"
      | Some kind =>
        Ok (mkRouted kind realtime_id peer_id revision envelope.1 envelope.2, bool_decide (is_Some bound))
      end.
End Runs.
