(* ===== verification/RealtimeProofs.v ===== *)
(** * What the sections of the realtime manager change

    The sessions and the provisional offers are two halves of the manager: the
    lemmas say which half a section leaves alone, and what an applied signal does to
    the sessions. *)
From S2P Require Import Prelude VideoQueue Rtp ScreenVideo MediaQos WebRtcPeer RealtimeWire Realtime RealtimeClaims.
From S2P Require Import RealtimeMedia RealtimeRuns.

Section Frames.
Context {HF : H264Format} {RC : RealtimeCodec}.
Implicit Types (m : RealtimeManager) (s : RealtimeSession) (dr : gmap Z WebRtcPeer).

(** The half of the sessions and the half of the provisional offers. *)
Definition sess m := (rt_sessions m, session_generations m, next_generation m).
Definition prov m :=
  (provisional m, provisional_requests m, replay_cache m, provisional_epoch m, provisional_wake m, expiry_worker_started m).

(** What identifies a session, and the last revision taken from its peer. *)
Definition vw s : string * string * option Z := (rs_peer_id s, rs_shared_id s, rs_driver s).
Definition ids m := (fun s => (vw s, rs_remote_revision s)) <$> rt_sessions m.

(** Some peer answers for the session. *)
Definition has_owner s dr : Prop :=
  match rs_driver s with Some d => is_Some (dr !! d) | None => is_Some (rs_peer s) end.

Lemma ids_dom m : dom (ids m) = dom (rt_sessions m).
Proof. apply dom_fmap_L. Qed.

(** ** The provisional half *)

Local Ltac frame_sess := repeat (case_match; simplify_eq/=); first [done | unfold sess; cbn; congruence].

Lemma prune_provisional_bindings_sess now m : sess (prune_provisional_bindings now m) = sess m.
Proof. unfold prune_provisional_bindings. by case_match. Qed.

Lemma remember_provisional_action_sess key now m : sess (remember_provisional_action key now m).2 = sess m.
Proof. unfold remember_provisional_action. by repeat case_match. Qed.

Lemma take_provisional_claim_sess id token epoch m : sess (take_provisional_claim id token epoch m).2 = sess m.
Proof. unfold take_provisional_claim. by repeat case_match. Qed.

Lemma expire_sess id epoch now now_ms m : sess (expire id epoch now now_ms m) = sess m.
Proof. unfold expire. by case_match. Qed.

Lemma provisional_offer_sess id peer rev shared payload oid token inst now m :
  sess (provisional_offer id peer rev shared payload oid token inst now m).2 = sess m.
Proof. unfold provisional_offer, next_provisional_epoch. frame_sess. Qed.

Lemma provisional_request_sess dev id peer c inst now m :
  sess (provisional_request dev id peer c inst now m).2 = sess m.
Proof.
  unfold provisional_request, next_provisional_epoch. pose proof (remember_provisional_action_sess (replay_key dev id peer c) now m) as Hr.
  destruct (remember_provisional_action _ _ _) as [r m1]. frame_sess.
Qed.

Lemma provisional_cancel_sess dev id peer c now m : sess (provisional_cancel dev id peer c now m).2 = sess m.
Proof.
  unfold provisional_cancel. pose proof (remember_provisional_action_sess (replay_key dev id peer c) now m) as Hr.
  destruct (remember_provisional_action _ _ _) as [r m1]. frame_sess.
Qed.

Lemma provisional_signal_sess dev kind id peer rev shared payload oid token inst now read m :
  sess (provisional_signal dev kind id peer rev shared payload oid token inst now read m).2 = sess m.
Proof.
  unfold provisional_signal. rewrite <-(prune_provisional_bindings_sess now m).
  set (m1 := prune_provisional_bindings now m).
  destruct kind; try done.
  - apply provisional_offer_sess.
  - unfold provisional_candidate. by repeat case_match.
  - unfold provisional_close. by repeat case_match.
  - unfold provisional_consent. destruct (validate_screen_share_consent_at _ _ _ _ _) as [c|]; [|done].
    destruct (decision_try_from _) as [[]|]; try done; [apply provisional_request_sess | apply provisional_cancel_sess].
Qed.

Lemma claim_begin_sess c now m : sess (claim_begin c now m).2 = sess m.
Proof.
  unfold claim_begin. rewrite <-(prune_provisional_bindings_sess now m). by repeat case_match.
Qed.

Lemma reject_begin_sess c now m : sess (reject_begin c now m).2 = sess m.
Proof. unfold reject_begin. rewrite <-(prune_provisional_bindings_sess now m). by repeat case_match. Qed.

Lemma reject_mark_sess c m : sess (reject_mark c m).2 = sess m.
Proof. unfold reject_mark. by repeat case_match. Qed.

Lemma reject_finish_sess c m : sess (reject_finish c m) = sess m.
Proof. unfold reject_finish. by repeat case_match. Qed.

Lemma discard_incoming_offer_sess c m : sess (discard_incoming_offer c m).2 = sess m.
Proof. unfold discard_incoming_offer. by repeat case_match. Qed.

Lemma claiming_cancel_sess dev id peer shared payload now later b m :
  sess (claiming_cancel dev id peer shared payload now later b m).2 = sess m.
Proof.
  unfold claiming_cancel. destruct (validate_screen_share_consent_at _ _ _ _ _) as [a|]; [|done].
  destruct (negb _); [done|]. destruct (negb _); [done|]. destruct (cancel_revision_ok _ _ _ _); [|done].
  pose proof (remember_provisional_action_sess (replay_key dev id peer a) later m) as Hr.
  destruct (remember_provisional_action _ _ _) as [r m1]. frame_sess.
Qed.

(** ** Peers of sessions *)

Lemma with_session_peer_spec {A} s (op : WebRtcPeer -> result A WebRtcError * WebRtcPeer) dr r s' dr' :
  with_session_peer s op dr = (r, s', dr') ->
  vw s' = vw s /\ rs_remote_revision s' = rs_remote_revision s /\ rs_connection s' = rs_connection s
  /\ dom dr' = dom dr /\ (is_ok r = true -> has_owner s' dr') /\ (has_owner s dr <-> has_owner s' dr').
Proof.
  unfold with_session_peer, vw, has_owner. intros H.
  destruct (rs_driver s) as [d|] eqn:Hd.
  - destruct (dr !! d) as [p|] eqn:Hp; simplify_eq/=.
    + destruct (op p) as [r1 p1]. simplify_eq/=. rewrite Hd, dom_insert_lookup_L, lookup_insert_eq by done.
      naive_solver.
    + rewrite Hd, Hp. naive_solver.
  - destruct (rs_peer s) as [p|] eqn:Hp; simplify_eq/=.
    + destruct (op p) as [r1 p1]. simplify_eq/=. naive_solver.
    + rewrite Hd, Hp. naive_solver.
Qed.

Lemma with_owner {A} s (f : WebRtcPeer -> A) dr :
  has_owner s dr -> exists a s', with_session_peer s (fun p => (Ok (f p), p)) dr = (Ok a, s', dr) /\ vw s' = vw s
    /\ rs_remote_revision s' = rs_remote_revision s.
Proof.
  unfold has_owner, with_session_peer, vw. intros H.
  destruct (rs_driver s) as [d|] eqn:Hd; destruct H as [p Hp]; rewrite Hp.
  - rewrite (insert_id dr d p) by done. eexists _, _. split_and!; [done|by rewrite Hd|done].
  - by eexists _, _.
Qed.

Lemma close_session_dom s dr : dom (close_session s dr) = dom dr.
Proof.
  unfold close_session. destruct (with_session_peer _ _ _) as [[r s'] dr'] eqn:E.
  by apply with_session_peer_spec in E as (_ & _ & _ & ? & _).
Qed.

Lemma close_driver_dom d dr : dom (close_driver d dr) = dom dr.
Proof. apply dom_alter_L. Qed.

Lemma answer_offer_spec payload rtc s dr r s' dr' :
  answer_offer payload rtc s dr = (r, s', dr') ->
  vw s' = vw s /\ rs_remote_revision s' = rs_remote_revision s /\ dom dr' = dom dr /\ (is_ok r = true -> has_owner s' dr').
Proof.
  unfold answer_offer. intros H.
  destruct (from_utf8 payload); [|by simplify_eq].
  destruct (description_new Offer _) as [desc|]; [|by simplify_eq].
  destruct (with_session_peer s _ dr) as [[r1 s1] dr1] eqn:E1.
  apply with_session_peer_spec in E1 as (? & ? & ? & ? & _). destruct r1; [|injection H as <- <- <-; by split_and!; [congruence..|]].
  destruct (with_session_peer s1 _ dr1) as [[r2 s2] dr2] eqn:E2.
  apply with_session_peer_spec in E2 as (? & ? & ? & ? & Ho & _).
  destruct r2; injection H as <- <- <-; (split_and!; [congruence..|]); [naive_solver|done].
Qed.

(** ** Applied signals *)

(** The effect of a signal on the sessions: none, a new revision of the session it
    names, or a new session. *)
Inductive signal_effect (id peer : string) (sg : InboundSignal) (pending : option Z) m (r : result SignalOutcome string) m' :
    Prop :=
| effect_none :
    ids m' = ids m -> session_generations m' = session_generations m -> next_generation m' = next_generation m ->
    (forall o, r = Ok o -> is_kind sg = SkIceCandidate) ->
    signal_effect id peer sg pending m r m'
| effect_advance v remote o :
    ids m !! id = Some (v, remote) -> v.1 = (peer, is_shared_id sg) -> remote < is_revision sg -> r = Ok o ->
    is_kind sg ≠ SkIceCandidate -> session_generations m !! id = Some (so_generation o) ->
    ids m' = <[id := (v, is_revision sg)]> (ids m) ->
    session_generations m' = session_generations m -> next_generation m' = next_generation m ->
    signal_effect id peer sg pending m r m'
| effect_new o :
    ids m !! id = None -> r = Ok o -> so_generation o = next_generation m -> is_kind sg = SkWebRtcOffer ->
    ids m' = <[id := ((peer, is_shared_id sg, pending), is_revision sg)]> (ids m) ->
    session_generations m' = <[id := next_generation m]> (session_generations m) ->
    next_generation m' = wrap 64 (next_generation m + 1) ->
    signal_effect id peer sg pending m r m'.

Lemma ids_update id s s' m :
  rt_sessions m !! id = Some s -> vw s' = vw s -> rs_remote_revision s' = rs_remote_revision s ->
  ids (update_session id s' m) = ids m.
Proof.
  intros Hs Hv Hr. unfold ids, update_session, set_rt_sessions. cbn. rewrite fmap_insert, insert_id; [done|].
  by rewrite lookup_fmap, Hs, Hv, Hr.
Qed.

Lemma ids_advance id s s' m :
  vw s' = vw s -> ids (update_session id s' m) = <[id := (vw s, rs_remote_revision s')]> (ids m).
Proof. intros Hv. unfold ids, update_session, set_rt_sessions. cbn. by rewrite fmap_insert, Hv. Qed.

Lemma check_signal_ok peer sg s :
  check_signal peer sg s = Ok tt -> is_kind sg ≠ SkIceCandidate ->
  (vw s).1 = (peer, is_shared_id sg) /\ rs_remote_revision s < is_revision sg.
Proof.
  unfold check_signal, vw. intros H Hk. repeat (case_match; simplify_eq/=); bool_facts; split; congruence || lia.
Qed.

Lemma read_revision_owned s dr :
  has_owner s dr -> exists n s', with_session_peer s read_revision dr = (Ok n, s', dr) /\ vw s' = vw s
    /\ rs_remote_revision s' = rs_remote_revision s.
Proof. apply with_owner. Qed.

Lemma fresh_session_vw peer shared conn pending :
  vw (fresh_session peer shared conn pending) = (peer, shared, pending).
Proof. by destruct pending. Qed.

(** [m] without the session, and a session put back. *)
Lemma ids_reinsert id s m next g :
  ids (set_rt_sessions (<[id := s]> (delete id (rt_sessions m))) g next m) = <[id := (vw s, rs_remote_revision s)]> (ids m).
Proof. unfold ids. cbn. by rewrite insert_delete_eq, fmap_insert. Qed.

Lemma session_has_generation id s m :
  dom (rt_sessions m) = dom (session_generations m) -> rt_sessions m !! id = Some s ->
  exists g, session_generations m !! id = Some g.
Proof. intros Hdom Hs. apply elem_of_dom. rewrite <-Hdom. by apply elem_of_dom. Qed.

Lemma apply_offer_effect id peer sg pending conn rtc m dr r m' dr' :
  dom (rt_sessions m) = dom (session_generations m) -> is_kind sg = SkWebRtcOffer ->
  default (Ok tt) (check_signal peer sg <$> rt_sessions m !! id) = Ok tt ->
  apply_offer id peer sg pending conn rtc m dr = (r, m', dr') ->
  signal_effect id peer sg pending m r m' /\ prov m' = prov m /\ dom dr' = dom dr.
Proof.
  intros Hdom Hk Hcheck H. unfold apply_offer in H.
  assert (Hg : is_Some (rt_sessions m !! id) <-> is_Some (session_generations m !! id)).
  { by rewrite <-!elem_of_dom, Hdom. }
  destruct (answer_offer _ _ _ _) as [[ra s1] dr1] eqn:Ea. apply answer_offer_spec in Ea as (Hv & Hrem & Hd & Ho).
  destruct (rt_sessions m !! id) as [s|] eqn:Hs; cbn [default fmap option_fmap option_map] in *.
  - change (vw s1 = vw s) in Hv. change (rs_remote_revision s1 = rs_remote_revision s) in Hrem.
    destruct Hg as [Hg _]. destruct Hg as [g Hg]; [by eauto|].
    destruct ra as [a|e].
    + destruct (read_revision_owned s1 dr1) as (n & s2 & E2 & Hv2 & Hrem2); [by apply Ho|].
      rewrite E2, (bool_decide_true (is_Some (Some s))) in H by eauto. cbn [orb] in H.
      unfold insert_existing_session, session_generation in H. cbn [set_rt_sessions session_generations rt_sessions] in H.
      rewrite Hg in H. cbn [set_rt_sessions session_generations rt_sessions] in H. rewrite Hg in H.
      injection H as <- <- <-. destruct (check_signal_ok peer sg s) as [Hp Hlt]; [done|by rewrite Hk|].
      split; [|done]. eapply (effect_advance _ _ _ _ _ _ _ (vw s) (rs_remote_revision s)); try done; try by rewrite Hk.
      * unfold ids. by rewrite lookup_fmap, Hs.
      * unfold ids. cbn. by rewrite insert_delete_eq, fmap_insert, <-Hv, <-Hv2.
    + rewrite (bool_decide_true (is_Some (Some s))) in H by eauto.
      unfold insert_existing_session in H. cbn [set_rt_sessions session_generations rt_sessions] in H. rewrite Hg in H.
      injection H as <- <- <-. split; [|done]. apply effect_none; try done.
      unfold ids. cbn. rewrite insert_delete_eq, fmap_insert, insert_id; [done|].
      by rewrite lookup_fmap, Hs, Hv, Hrem.
  - assert (Hg0 : session_generations m !! id = None).
    { destruct (session_generations m !! id); [|done]. destruct Hg as [_ Hg]. destruct Hg; [by eauto|done]. }
    rewrite (delete_id (rt_sessions m)) in H by done.
    destruct ra as [a|e].
    + destruct (read_revision_owned s1 dr1) as (n & s2 & E2 & Hv2 & Hrem2); [by apply Ho|].
      rewrite E2, Hg0 in H. rewrite !bool_decide_false in H by (by intros [? ?]). cbn [orb] in H.
      unfold insert_new_session, session_generation in H. cbn [set_rt_sessions session_generations rt_sessions next_generation] in H.
      rewrite lookup_insert_eq in H. injection H as <- <- <-. split; [|done].
      eapply effect_new; try done; cbn.
      * unfold ids. by rewrite lookup_fmap, Hs.
      * unfold ids. cbn. rewrite fmap_insert. rewrite fresh_session_vw in Hv. by rewrite <-Hv, <-Hv2.
    + rewrite bool_decide_false in H by (by intros [? ?]). injection H as <- <- <-. split; [|done].
      by apply effect_none.
Qed.

Lemma apply_answer_effect id peer sg pending rtc m dr s r m' dr' :
  dom (rt_sessions m) = dom (session_generations m) -> is_kind sg = SkWebRtcAnswer ->
  rt_sessions m !! id = Some s -> check_signal peer sg s = Ok tt ->
  apply_answer id sg rtc s m dr = (r, m', dr') ->
  signal_effect id peer sg pending m r m' /\ prov m' = prov m /\ dom dr' = dom dr.
Proof.
  intros Hdom Hk Hs Hcheck H. destruct (session_has_generation id s m Hdom Hs) as [g Hg].
  unfold apply_answer in H. destruct (from_utf8 _); [|injection H as <- <- <-; by split; [apply effect_none|]].
  destruct (description_new _ _); [|injection H as <- <- <-; by split; [apply effect_none|]].
  destruct (with_session_peer s _ dr) as [[r1 s1] dr1] eqn:E1.
  apply with_session_peer_spec in E1 as (Hv & Hrem & _ & Hd & Ho & _).
  destruct r1; [|injection H as <- <- <-; split; [|done]; apply effect_none; try done; by eapply ids_update].
  destruct (read_revision_owned s1 dr1) as (n & s2 & E2 & Hv2 & Hrem2); [by apply Ho|].
  rewrite E2 in H. injection H as <- <- <-. split; [|done].
  destruct (check_signal_ok peer sg s) as [Hp Hlt]; [done|by rewrite Hk|].
  eapply (effect_advance _ _ _ _ _ _ _ (vw s) (rs_remote_revision s)); try done; try by rewrite Hk.
  - unfold ids. by rewrite lookup_fmap, Hs.
  - unfold session_generation. by rewrite Hg.
  - rewrite <-Hv, <-Hv2. by apply ids_advance.
Qed.

Lemma apply_restart_effect id peer sg pending rtc m dr s r m' dr' :
  dom (rt_sessions m) = dom (session_generations m) -> is_kind sg = SkIceRestart ->
  rt_sessions m !! id = Some s -> check_signal peer sg s = Ok tt ->
  apply_restart id sg rtc s m dr = (r, m', dr') ->
  signal_effect id peer sg pending m r m' /\ prov m' = prov m /\ dom dr' = dom dr.
Proof.
  intros Hdom Hk Hs Hcheck H. destruct (session_has_generation id s m Hdom Hs) as [g Hg].
  unfold apply_restart in H.
  destruct (with_session_peer s _ dr) as [[r1 s1] dr1] eqn:E1.
  apply with_session_peer_spec in E1 as (Hv & Hrem & _ & Hd & _).
  destruct r1; [|injection H as <- <- <-; split; [|done]; apply effect_none; try done; by eapply ids_update].
  destruct (with_session_peer s1 _ dr1) as [[r2 s2] dr2] eqn:E2.
  apply with_session_peer_spec in E2 as (Hv2 & Hrem2 & _ & Hd2 & Ho & _).
  destruct r2; [|injection H as <- <- <-; split; [|split; [done|congruence]]; apply effect_none; try done;
                 apply (ids_update id s); congruence].
  destruct (read_revision_owned s2 dr2) as (n & s3 & E3 & Hv3 & Hrem3); [by apply Ho|].
  rewrite E3 in H. injection H as <- <- <-. split; [|split; [done|congruence]].
  destruct (check_signal_ok peer sg s) as [Hp Hlt]; [done|by rewrite Hk|].
  eapply (effect_advance _ _ _ _ _ _ _ (vw s) (rs_remote_revision s)); try done; try by rewrite Hk.
  - unfold ids. by rewrite lookup_fmap, Hs.
  - unfold session_generation. by rewrite Hg.
  - rewrite <-Hv, <-Hv2, <-Hv3. by apply ids_advance.
Qed.

Lemma apply_candidate_effect id peer sg pending rtc m dr s r m' dr' :
  is_kind sg = SkIceCandidate -> rt_sessions m !! id = Some s ->
  apply_candidate id sg rtc s m dr = (r, m', dr') ->
  signal_effect id peer sg pending m r m' /\ prov m' = prov m /\ dom dr' = dom dr.
Proof.
  intros Hk Hs H. unfold apply_candidate in H.
  destruct (from_utf8 _); [|injection H as <- <- <-; by split; [apply effect_none|]].
  destruct (candidate_new _); [|injection H as <- <- <-; by split; [apply effect_none|]].
  destruct (with_session_peer s _ dr) as [[r1 s1] dr1] eqn:E1.
  apply with_session_peer_spec in E1 as (Hv & Hrem & _ & Hd & _).
  destruct r1; injection H as <- <- <-; (split; [|done]); apply effect_none; try done; by eapply ids_update.
Qed.

(** What a signal other than a close does. *)
Lemma apply_signal_effect id peer sg pending conn rtc m dr r m' dr' :
  dom (rt_sessions m) = dom (session_generations m) -> is_kind sg ≠ SkWebRtcClose ->
  apply_signal_with_driver id peer sg pending conn rtc m dr = (r, m', dr') ->
  signal_effect id peer sg pending m r m' /\ prov m' = prov m /\ dom dr' = dom dr.
Proof.
  intros Hdom Hk H. unfold apply_signal_with_driver in H.
  assert (Hnone : forall e, (Err e, m, dr) = (r, m', dr') ->
    signal_effect id peer sg pending m r m' /\ prov m' = prov m /\ dom dr' = dom dr).
  { intros e He. injection He as <- <- <-. by split; [apply effect_none|]. }
  destruct (validate_shared_session_instance_id _); [|by eapply Hnone].
  rewrite bool_decide_false in H by done.
  destruct (default (Ok tt) (check_signal peer sg <$> rt_sessions m !! id)) as [[]|e] eqn:Hc; [|by eapply Hnone].
  destruct (is_kind sg) eqn:Hkind; try done; try by eapply Hnone.
  - by eapply apply_offer_effect.
  - destruct (rt_sessions m !! id) eqn:Hs; [by eapply apply_answer_effect|by eapply Hnone].
  - destruct (rt_sessions m !! id) eqn:Hs; [by eapply apply_candidate_effect|by eapply Hnone].
  - destruct (rt_sessions m !! id) eqn:Hs; [by eapply apply_restart_effect|by eapply Hnone].
Qed.

(** ** Which sessions there are *)

(** The sessions by identifier, with their generations. *)
Definition idg m : gmap string (string * string * option Z * Z) := map_zip (fst <$> ids m) (session_generations m).

(** Every session has a generation, and every generation a session. *)
Definition paired m : Prop := dom (rt_sessions m) = dom (session_generations m).

Lemma idg_lookup m id v g :
  idg m !! id = Some (v, g) <-> (exists remote, ids m !! id = Some (v, remote)) /\ session_generations m !! id = Some g.
Proof.
  unfold idg. rewrite map_lookup_zip_Some, lookup_fmap. cbn. rewrite fmap_Some. split.
  - intros [[[v' remote] [H ->]] Hg]. eauto.
  - intros [[remote H] Hg]. split; [|done]. by exists (v, remote).
Qed.

Lemma ids_session m id v remote :
  ids m !! id = Some (v, remote) <-> exists s, rt_sessions m !! id = Some s /\ vw s = v /\ rs_remote_revision s = remote.
Proof. unfold ids. rewrite lookup_fmap, fmap_Some. naive_solver. Qed.

Lemma idg_session m id s g :
  rt_sessions m !! id = Some s -> session_generations m !! id = Some g -> idg m !! id = Some (vw s, g).
Proof. intros Hs Hg. apply idg_lookup. split; [|done]. eexists. apply ids_session. eauto. Qed.

Lemma idg_none m id : rt_sessions m !! id = None -> idg m !! id = None.
Proof.
  intros Hs. destruct (idg m !! id) as [[v g]|] eqn:E; [|done].
  apply idg_lookup in E as [[remote (s & E & _)%ids_session] _]. congruence.
Qed.

Lemma idg_dom m : paired m -> dom (idg m) = dom (rt_sessions m).
Proof. intros Hp. unfold idg. rewrite dom_map_zip_with_L, dom_fmap_L, ids_dom, <-Hp. set_solver. Qed.

Lemma idg_ext m m' : ids m' = ids m -> session_generations m' = session_generations m -> idg m' = idg m.
Proof. unfold idg. congruence. Qed.

Lemma paired_ext m m' : ids m' = ids m -> session_generations m' = session_generations m -> paired m -> paired m'.
Proof. unfold paired. rewrite <-!ids_dom. congruence. Qed.

Lemma sess_ids m m' : sess m' = sess m -> ids m' = ids m /\ session_generations m' = session_generations m
  /\ next_generation m' = next_generation m.
Proof. unfold sess, ids. intros [= Hs Hg Hn]. by rewrite Hs. Qed.

Lemma sess_idg m m' : sess m' = sess m -> idg m' = idg m /\ (paired m -> paired m').
Proof. intros (Hi & Hg & _)%sess_ids. split; [by apply idg_ext|by apply paired_ext]. Qed.

(** The sessions after a section: as before, one more, or one less. *)
Inductive idg_change (pending : option Z) m m' : Prop :=
| change_none : idg m' = idg m -> idg_change pending m m'
| change_new id peer shared g :
    idg m !! id = None -> idg m' = <[id := ((peer, shared, pending), g)]> (idg m) -> idg_change pending m m'.

Lemma signal_effect_idg id peer sg pending m r m' :
  paired m -> signal_effect id peer sg pending m r m' -> idg_change pending m m' /\ paired m'.
Proof.
  intros Hp [Hi Hg _ _|v remote o Hid Hv _ _ _ _ Hi Hg _|o Hid _ _ _ Hi Hg _].
  - split; [by left; apply idg_ext|by eapply paired_ext].
  - split.
    + left. unfold idg. rewrite Hi, Hg, fmap_insert. cbn. rewrite insert_id; [done|]. by rewrite lookup_fmap, Hid.
    + unfold paired in *. rewrite <-ids_dom in *. rewrite Hi, Hg, <-Hp, dom_insert_lookup_L; [done|by rewrite Hid].
  - split.
    + eapply (change_new _ _ _ id peer (is_shared_id sg)).
      * apply idg_none. unfold ids in Hid. rewrite lookup_fmap in Hid. by apply fmap_None in Hid.
      * unfold idg. rewrite Hi, Hg, fmap_insert. symmetry. by apply map_insert_zip_with.
    + unfold paired in *. rewrite <-ids_dom in *. by rewrite Hi, Hg, !dom_insert_L, Hp.
Qed.

Lemma remove_session_spec id m :
  paired m ->
  match remove_session id m with
  | (None, m') => m' = m /\ rt_sessions m !! id = None
  | (Some s, m') =>
    rt_sessions m !! id = Some s /\ ids m' = delete id (ids m) /\ idg m' = delete id (idg m) /\ paired m' /\ prov m' = prov m
    /\ session_generations m' = delete id (session_generations m) /\ next_generation m' = next_generation m
  end.
Proof.
  intros Hp. unfold remove_session. destruct (rt_sessions m !! id) as [s|] eqn:Hs; [|done].
  assert (Hi : ids (set_rt_sessions (delete id (rt_sessions m)) (delete id (session_generations m)) (next_generation m) m)
               = delete id (ids m)) by (unfold ids; cbn; apply fmap_delete).
  split_and!; try done.
  - unfold idg. rewrite Hi. cbn. rewrite fmap_delete. symmetry. apply map_delete_zip_with.
  - unfold paired. cbn. by rewrite !dom_delete_L, Hp.
Qed.

(** The sessions, their remote revisions and their generations stay. *)
Definition keeps m m' : Prop :=
  ids m' = ids m /\ session_generations m' = session_generations m /\ next_generation m' = next_generation m.

Lemma keeps_refl m : keeps m m.
Proof. done. Qed.

Lemma keeps_trans m1 m2 m3 : keeps m1 m2 -> keeps m2 m3 -> keeps m1 m3.
Proof. unfold keeps. intuition congruence. Qed.

Lemma sess_keeps m m' : sess m' = sess m -> keeps m m'.
Proof. apply sess_ids. Qed.

Lemma keeps_paired m m' : keeps m m' -> paired m -> paired m'.
Proof. intros (? & ? & _). by apply paired_ext. Qed.

Lemma keeps_idg m m' : keeps m m' -> idg m' = idg m.
Proof. intros (? & ? & _). by apply idg_ext. Qed.

Lemma apply_candidates_spec id peer shared l rtc m dr r m' dr' :
  paired m -> apply_candidates id peer shared l rtc m dr = (r, m', dr') ->
  keeps m m' /\ prov m' = prov m /\ dom dr' = dom dr.
Proof.
  revert m dr. induction l as [|candidate l IH]; intros m dr Hp H; cbn in H; [by injection H as <- <- <-|].
  destruct (apply_signal_with_driver _ _ _ _ _ _ _ _) as [[r1 m1] dr1] eqn:E1.
  apply apply_signal_effect in E1 as (He & Hpr & Hd); [|done..].
  assert (Hs : keeps m m1) by by destruct He.
  destruct r1; [|injection H as <- <- <-; done].
  apply IH in H as (? & ? & ?); [|by eapply keeps_paired].
  split_and!; [by eapply keeps_trans|congruence..].
Qed.

(** ** The sections of a claim *)

Lemma claim_apply_effect c start d conn now rtc rtc_ice m dr r m' dr' :
  paired m -> claim_apply c start d conn now rtc rtc_ice m dr = (r, m', dr') ->
  prov m' = prov m /\ dom dr' = dom dr /\
  (m' = m /\ (exists e, r = Err (None, e)) \/
   exists r0, signal_effect (cc_realtime_id c) (cc_peer_id c)
       (mkInboundSignal (cs_shared_id start) SkWebRtcOffer (cs_offer_revision start) (cs_offer start)) (Some d) m r0 m'
     /\ match r with
        | Ok o => r0 = Ok o
        | Err (g, _) => exists g', g = Some g' /\ (forall o, r0 = Ok o -> g' = Some (so_generation o))
        end).
Proof.
  intros Hp H. unfold claim_apply in H. destruct (negb _).
  { injection H as <- <- <-. rewrite close_driver_dom. split_and!; [done..|]. left. eauto. }
  destruct (apply_signal_with_driver _ _ _ _ _ _ _ _) as [[r1 m1] dr1] eqn:E1.
  apply apply_signal_effect in E1 as (He & Hpr & Hd); [|done..].
  destruct r1 as [o|e].
  - destruct (apply_candidates _ _ _ _ _ _ _) as [[r2 m2] dr2] eqn:E2.
    apply apply_candidates_spec in E2 as (Hk & Hpr2 & Hd2); [|by eapply signal_effect_idg].
    assert (He2 : signal_effect (cc_realtime_id c) (cc_peer_id c)
       (mkInboundSignal (cs_shared_id start) SkWebRtcOffer (cs_offer_revision start) (cs_offer start)) (Some d) m (Ok o) m2).
    { destruct Hk as (Hi & Hg & Hn). destruct He as [|v remote o'|o'];
        [apply effect_none|apply (effect_advance _ _ _ _ _ _ _ v remote o')|apply (effect_new _ _ _ _ _ _ _ o')];
        first [done|congruence]. }
    destruct r2; injection H as <- <- <-; (split_and!; [congruence..|]); right; exists (Ok o); [done|].
    split; [done|]. eexists. split; [done|]. by intros ? [= <-].
  - injection H as <- <- <-. split_and!; [done..|]. right. exists (Err e). split; [done|]. by eexists.
Qed.

Lemma commit_drain_spec fuel c shared epoch rtc m dr r m' dr' :
  paired m -> commit_drain fuel c shared epoch rtc m dr = Some (r, m', dr') -> keeps m m' /\ dom dr' = dom dr.
Proof.
  revert m dr. induction fuel as [|fuel IH]; intros m dr Hp H; [done|]. cbn in H.
  destruct (provisional m !! _) as [b|]; [|by injection H as <- <- <-].
  destruct (negb _); [by injection H as <- <- <-|].
  destruct (pb_ice b) as [|i l]; [by injection H as <- <- <-|].
  destruct (apply_candidates _ _ _ _ _ _ _) as [[r2 m2] dr2] eqn:E2.
  apply apply_candidates_spec in E2 as (Hk & _ & Hd2); [|done].
  destruct r2; [|by injection H as <- <- <-].
  apply IH in H as [Hk2 Hd]; [|by eapply keeps_paired]. split; [|congruence].
  eapply keeps_trans; [|done]. eapply keeps_trans; [|done]. by apply sess_keeps.
Qed.

(** Two rounds are enough: candidates are applied under the manager's lock, so none
    is queued meanwhile. *)
Lemma commit_drain_enough fuel c shared epoch rtc m dr :
  paired m -> is_Some (commit_drain (2 + fuel) c shared epoch rtc m dr).
Proof.
  intros Hp. cbn. destruct (provisional m !! _) as [b|] eqn:Hb; [|eauto]. destruct (negb _); [eauto|].
  destruct (pb_ice b) as [|i l]; [eauto|].
  destruct (apply_candidates _ _ _ _ _ _ _) as [[r2 m2] dr2] eqn:E2.
  apply apply_candidates_spec in E2 as (_ & Hpr & _); [|done]. destruct r2; [|eauto].
  assert (provisional m2 = <[cc_realtime_id c := set_ice [] 0 b]> (provisional m)) as ->
    by exact (f_equal (fun x => x.1.1.1.1.1) Hpr).
  rewrite lookup_insert_eq. destruct (negb _); cbn; eauto.
Qed.

Lemma commit_incoming_claim_spec c shared epoch g d now later rtc m dr r m' dr' :
  paired m -> commit_incoming_claim c shared epoch g d now later rtc m dr = (r, m', dr') -> keeps m m' /\ dom dr' = dom dr.
Proof.
  intros Hp H. unfold commit_incoming_claim in H. destruct (negb _ || negb _); [by injection H as <- <- <-|].
  assert (Hdrain : forall r1 m1 dr1, default (Ok tt, m, dr) (commit_drain 2 c shared epoch rtc m dr) = (r1, m1, dr1) ->
    keeps m m1 /\ dom dr1 = dom dr).
  { intros r1 m1 dr1 E. destruct (commit_drain 2 c shared epoch rtc m dr) as [[[r2 m2] dr2]|] eqn:E2; cbn in E.
    - injection E as <- <- <-. by eapply commit_drain_spec.
    - by injection E as <- <- <-. }
  destruct (default _ _) as [[r1 m1] dr1]. destruct (Hdrain r1 m1 dr1 eq_refl) as [Hk Hd].
  destruct r1; [|by injection H as <- <- <-].
  destruct (negb _ || negb _); injection H as <- <- <-; [done|]. split; [|done].
  eapply keeps_trans; [done|]. by apply sess_keeps.
Qed.

Lemma next_claim_close_signal_keeps c shared answer g d m :
  keeps m (next_claim_close_signal c shared answer g d m).2.
Proof.
  unfold next_claim_close_signal. destruct (negb _); [done|].
  destruct (rt_sessions m !! _) as [s|] eqn:Hs; [|done]. destruct (checked_add _ _ _); [|done].
  split_and!; try done. by eapply ids_update.
Qed.

Lemma claim_commit_spec c shared epoch g d answer now later rtc m dr r close m' dr' :
  paired m -> claim_commit c shared epoch g d answer now later rtc m dr = (r, close, m', dr') ->
  keeps m m' /\ dom dr' = dom dr.
Proof.
  intros Hp H. unfold claim_commit in H.
  destruct (commit_incoming_claim _ _ _ _ _ _ _ _ _ _) as [[r1 m1] dr1] eqn:E1.
  apply commit_incoming_claim_spec in E1 as [Hk Hd]; [|done]. destruct r1; [by injection H as <- <- <- <-|].
  pose proof (next_claim_close_signal_keeps c shared answer g d m1) as Hk2.
  destruct (next_claim_close_signal _ _ _ _ _ _) as [cl m2]. injection H as <- <- <- <-.
  split; [by eapply keeps_trans|done].
Qed.

Lemma take_if_owned_spec id peer d m :
  paired m ->
  match take_realtime_session_if_owned id peer d m with
  | (None, m') => m' = m /\ (forall s, rt_sessions m !! id = Some s -> owns_driver peer d s = false)
  | (Some s, m') =>
    owns_driver peer d s = true /\ rt_sessions m !! id = Some s /\ ids m' = delete id (ids m) /\ idg m' = delete id (idg m)
    /\ paired m' /\ prov m' = prov m
    /\ session_generations m' = delete id (session_generations m) /\ next_generation m' = next_generation m
  end.
Proof.
  intros Hp. unfold take_realtime_session_if_owned. destruct (rt_sessions m !! id) as [s|] eqn:Hs; [|by split].
  destruct (owns_driver peer d s) eqn:Ho; [|split; [done|]; intros ? [= <-]; done].
  pose proof (remove_session_spec id m Hp) as H. destruct (remove_session id m) as [[s'|] m'].
  - destruct H as (Hs' & H). assert (s' = s) as -> by congruence. done.
  - destruct H. congruence.
Qed.
End Frames.
