(* ===== verification/RealtimeLeases.v ===== *)
(** * Endpoint leases and the sessions they name

    Every step keeps the leases of the media registry to sessions that are live,
    with the driver and the generation of the session, whatever the order of the
    steps. *)
From S2P Require Import Prelude VideoQueue Rtp ScreenVideo MediaQos WebRtcPeer RealtimeWire Realtime RealtimeClaims.
From S2P Require Import RealtimeMedia RealtimeRuns RealtimeProofs.

Section Leases.
Context {HF : H264Format} {RC : RealtimeCodec}.
Implicit Types (m : RealtimeManager) (dr : gmap Z WebRtcPeer) (w : RtWorld) (r : RealtimeMediaRegistry).
Implicit Types (g : gmap string (string * string * option Z * Z)).

(** A session of this peer, driver and generation is live. *)
Definition names_session g (id peer : string) (d generation : Z) : Prop :=
  exists shared, g !! id = Some ((peer, shared, Some d), generation).

Record registry_ok g r : Prop := {
  ro_leases : forall e l, endpoints r !! e = Some l ->
    el_runtime_generation l = runtime_generation r
    /\ names_session g (el_realtime_id l) (el_peer_id l) (el_driver l) (el_session_generation l);
  ro_bindings : forall id b, session_bindings r !! id = Some b ->
    names_session g id (sb_peer_id b) (sb_driver b) (sb_generation b);
  ro_unique : forall e1 e2 l1 l2, endpoints r !! e1 = Some l1 -> endpoints r !! e2 = Some l2 ->
    el_realtime_id l1 = el_realtime_id l2 -> el_direction l1 = el_direction l2 -> e1 = e2;
}.

(** Drivers are held by one session each and are alive while they are. *)
Record drivers_ok g (dr : gset Z) (next : Z) : Prop := {
  do_alive : forall id peer shared d n, g !! id = Some ((peer, shared, Some d), n) -> d ∈ dr;
  do_unique : forall id1 id2 p1 p2 s1 s2 d n1 n2,
    g !! id1 = Some ((p1, s1, Some d), n1) -> g !! id2 = Some ((p2, s2, Some d), n2) -> id1 = id2;
  do_fresh : forall d, d ∈ dr -> d < next;
}.

Record sessions_inv (m : RealtimeManager) dr (next : Z) (closing : bool) r : Prop := {
  si_paired : paired m;
  si_drivers : drivers_ok (idg m) (dom dr) next;
  si_registry : closing = false -> registry_ok (idg m) r;
}.

(** ** The registry *)

Lemma registry_ok_new g n : registry_ok g (registry_new n).
Proof. by split; intros *; cbn; rewrite lookup_empty. Qed.

Lemma registry_ok_invalidate_all g r : registry_ok g (registry_invalidate_all r).
Proof. apply registry_ok_new. Qed.

Lemma names_session_insert g id x id' peer d n :
  g !! id = None -> names_session g id' peer d n -> names_session (<[id := x]> g) id' peer d n.
Proof. intros Hid [shared H]. exists shared. rewrite lookup_insert_ne; [done|]. intros ->. congruence. Qed.

Lemma names_session_delete g id id' peer d n :
  id' ≠ id -> names_session g id' peer d n -> names_session (delete id g) id' peer d n.
Proof. intros Hid [shared H]. exists shared. by rewrite lookup_delete_ne. Qed.

Lemma registry_ok_insert g id x r : g !! id = None -> registry_ok g r -> registry_ok (<[id := x]> g) r.
Proof.
  intros Hid [Hl Hb Hu]. split; [|by eauto using names_session_insert|done].
  intros e l He. destruct (Hl e l He). eauto using names_session_insert.
Qed.

Lemma registry_ok_invalidate g id r :
  registry_ok g r -> registry_ok (delete id g) (registry_invalidate_realtime id r).
Proof.
  intros [Hl Hb Hu]. split; cbn.
  - intros e l [He Hne]%map_lookup_filter_Some. destruct (Hl e l He). eauto using names_session_delete.
  - intros id' b [Hne He]%lookup_delete_Some. eauto using names_session_delete.
  - intros e1 e2 l1 l2 [He1 _]%map_lookup_filter_Some [He2 _]%map_lookup_filter_Some. by eapply Hu.
Qed.

Lemma registry_ok_forget g id r : registry_ok g r -> registry_ok g (registry_invalidate_realtime id r).
Proof.
  intros [Hl Hb Hu]. split; cbn.
  - by intros e l [He _]%map_lookup_filter_Some; eauto.
  - by intros id' b [_ He]%lookup_delete_Some; eauto.
  - intros e1 e2 l1 l2 [He1 _]%map_lookup_filter_Some [He2 _]%map_lookup_filter_Some. by eapply Hu.
Qed.

Lemma registry_ok_bind g id b r :
  names_session g id (sb_peer_id b) (sb_driver b) (sb_generation b) -> registry_ok g r ->
  registry_ok g (rebind id b r).
Proof.
  intros Hn Hr.
  assert (Hi : forall r, registry_ok g r -> registry_ok g (insert_session_binding id b r)).
  { intros r' [Hl Hb Hu]. split; [done| |done]. cbn. intros id' b' [[<- <-]|[_ H]]%lookup_insert_Some; eauto. }
  unfold rebind. destruct (session_bindings r !! id); [|by apply Hi].
  destruct (bool_decide _); [done|]. apply Hi. by apply registry_ok_forget.
Qed.

Lemma rebind_runtime id b r : runtime_generation (rebind id b r) = runtime_generation r.
Proof. unfold rebind. by repeat case_match. Qed.

Lemma same_endpoint_true id peer rt n dir l :
  same_endpoint id peer rt n dir l = true <->
  el_realtime_id l = id /\ el_peer_id l = peer /\ el_runtime_generation l = rt /\ el_session_generation l = n
  /\ el_direction l = dir.
Proof. unfold same_endpoint. rewrite !andb_true_iff, !bool_decide_eq_true, !Z.eqb_eq. tauto. Qed.

Lemma registry_ok_create g id peer dir expected n d next r :
  names_session g id peer d n -> registry_ok g r ->
  registry_ok g (registry_create id peer dir expected n d next r).2.
Proof.
  intros Hn Hr. unfold registry_create. destruct (negb _); [done|].
  set (b := mkSessionBinding peer n d). pose proof (registry_ok_bind g id b r Hn Hr) as Hr1.
  destruct (existsb _ _) eqn:Hex; [done|]. destruct Hr1 as [Hl Hb Hu].
  assert (Hnew : forall e l, endpoints (rebind id b r) !! e = Some l -> el_realtime_id l = id -> el_direction l ≠ dir).
  { intros e l He Hid Hdir. apply not_true_iff_false in Hex. apply Hex. apply existsb_exists.
    exists (e, l). split; [by apply list_elem_of_In, elem_of_map_to_list|]. apply same_endpoint_true.
    destruct (Hl e l He) as [Hrt [shared Hs]]. destruct Hn as [shared' Hn]. rewrite Hid, Hn in Hs. by simplify_eq. }
  split; cbn [snd endpoints session_bindings runtime_generation].
  - intros e l [[<- <-]|[_ He]]%lookup_insert_Some; [|by eauto]. by split.
  - done.
  - intros e1 e2 l1 l2 [[<- <-]|[Hne1 He1]]%lookup_insert_Some [[<- <-]|[Hne2 He2]]%lookup_insert_Some Hid Hdir; cbn in *.
    + done.
    + by destruct (Hnew e2 l2).
    + by destruct (Hnew e1 l1).
    + by eapply Hu.
Qed.

Lemma registry_ok_release g e r : registry_ok g r -> registry_ok g (release_remove e r).
Proof.
  intros [Hl Hb Hu]. split; cbn; [|done|].
  - by intros e' l [_ He]%lookup_delete_Some; eauto.
  - intros e1 e2 l1 l2 [_ He1]%lookup_delete_Some [_ He2]%lookup_delete_Some. by eapply Hu.
Qed.

(** ** The drivers *)

Lemma drivers_ok_delete g id (dr : gset Z) next : drivers_ok g dr next -> drivers_ok (delete id g) dr next.
Proof.
  intros [Ha Hu Hf]. split; [| |done].
  - intros * [_ H]%lookup_delete_Some. by eapply Ha.
  - intros * [_ H1]%lookup_delete_Some [_ H2]%lookup_delete_Some. by eapply Hu.
Qed.

Lemma drivers_ok_more g (dr : gset Z) next : drivers_ok g dr next -> drivers_ok g ({[next]} ∪ dr) (next + 1).
Proof.
  intros [Ha Hu Hf]. split; [|done|].
  - intros * H%Ha. set_solver.
  - intros d [->%elem_of_singleton|Hd%Hf]%elem_of_union; lia.
Qed.

Lemma drivers_ok_new g id peer shared n (dr : gset Z) next :
  drivers_ok g dr next -> drivers_ok (<[id := ((peer, shared, Some next), n)]> g) ({[next]} ∪ dr) (next + 1).
Proof.
  intros Hd. destruct (drivers_ok_more _ _ _ Hd) as [Ha' Hu' Hf']. destruct Hd as [Ha Hu Hf].
  assert (Hnext : forall id' p s n', g !! id' ≠ Some ((p, s, Some next), n')).
  { intros * H%Ha. specialize (Hf next H). lia. }
  split; [| |done].
  - intros * [[<- [= <- <- <- <-]]|[_ H]]%lookup_insert_Some; [set_solver|by eapply Ha'].
  - intros * [[<- [= <- <- <- <-]]|[? H1]]%lookup_insert_Some [[<- H2]|[? H2]]%lookup_insert_Some; try done.
    + by destruct (Hnext _ _ _ _ H2).
    + injection H2 as <- <- <- <-. by destruct (Hnext _ _ _ _ H1).
    + by eapply Hu.
Qed.

Lemma drivers_ok_none g id peer shared n (dr : gset Z) next :
  drivers_ok g dr next -> drivers_ok (<[id := ((peer, shared, None), n)]> g) dr next.
Proof.
  intros [Ha Hu Hf]. split; [| |done].
  - intros * [[_ ?]|[_ H]]%lookup_insert_Some; [done|]. by eapply Ha.
  - intros * [[_ ?]|[_ H1]]%lookup_insert_Some [[_ ?]|[_ H2]]%lookup_insert_Some; try done. by eapply Hu.
Qed.

(** ** Sections *)

Lemma sessions_inv_same m m' dr dr' next closing r :
  sessions_inv m dr next closing r -> idg m' = idg m -> paired m' -> dom dr' = dom dr ->
  sessions_inv m' dr' next closing r.
Proof. intros [Hp Hd Hr] Hi Hp' Hdom. split; rewrite ?Hi, ?Hdom; done. Qed.

Lemma sessions_inv_sess m m' dr next closing r :
  sessions_inv m dr next closing r -> sess m' = sess m -> sessions_inv m' dr next closing r.
Proof. intros H [Hi Hp]%sess_idg. eapply sessions_inv_same; eauto. apply Hp, H. Qed.

Lemma sessions_inv_driver m dr next closing r p :
  sessions_inv m dr next closing r -> sessions_inv m (<[next := p]> dr) (next + 1) closing r.
Proof. intros [Hp Hd Hr]. split; [done| |done]. rewrite dom_insert_L. by apply drivers_ok_more. Qed.

Lemma sessions_inv_change m m' dr dr' next closing r :
  sessions_inv m dr next closing r -> idg_change None m m' -> paired m' -> dom dr' = dom dr ->
  sessions_inv m' dr' next closing r.
Proof.
  intros Hs [Hi|id peer shared n Hid Hi] Hp Hdom; [by apply (sessions_inv_same m m' dr)|].
  destruct Hs as [_ Hd Hr]. split; rewrite ?Hi, ?Hdom; [done|by apply drivers_ok_none|].
  intros Hcl. apply registry_ok_insert; auto.
Qed.

Lemma sessions_inv_change_driver m m' dr dr' next closing r :
  sessions_inv m dr next closing r -> idg_change (Some next) m m' -> paired m' -> dom dr' = {[next]} ∪ dom dr ->
  sessions_inv m' dr' (next + 1) closing r.
Proof.
  intros [_ Hd Hr] [Hi|id peer shared n Hid Hi] Hp Hdom; split; rewrite ?Hi, ?Hdom; try done.
  - by apply drivers_ok_more.
  - by apply drivers_ok_new.
  - intros Hcl. apply registry_ok_insert; auto.
Qed.

Lemma sessions_inv_remove id m m' dr dr' next closing r :
  sessions_inv m dr next closing r -> idg m' = delete id (idg m) -> paired m' -> dom dr' = dom dr ->
  sessions_inv m' dr' next closing (registry_invalidate_realtime id r).
Proof.
  intros [Hp Hd Hr] Hi Hp' Hdom. split; rewrite ?Hi, ?Hdom; [done|by apply drivers_ok_delete|].
  intros Hcl. by apply registry_ok_invalidate, Hr.
Qed.

Definition state_ok (s : RtState) (next : Z) (closing : bool) : Prop :=
  sessions_inv (st_manager s) (st_drivers s) next closing (st_registry s).

Definition world_ok w : Prop := state_ok (w_state w) (w_next_driver w) (w_closing w).

Lemma state_ok_manager s m next closing :
  state_ok s next closing -> sess m = sess (st_manager s) -> state_ok (set_st_manager m s) next closing.
Proof. apply sessions_inv_sess. Qed.

Lemma start_session_ok id peer shared conn d offer s closing :
  state_ok s d closing -> state_ok (start_session id peer shared conn d offer s).2 (d + 1) closing.
Proof.
  intros Hs. unfold start_session.
  destruct (create_offer _ _) as [[o|e] p]; cbn.
  - destruct (rt_sessions _ !! id) as [s0|] eqn:Hid; cbn.
    + by apply sessions_inv_driver.
    + apply (sessions_inv_change_driver (st_manager s) _ (st_drivers s)); [done|..].
      * eapply (change_new _ _ _ id peer shared); [by apply idg_none|].
        unfold idg, ids, insert_new_session. cbn. rewrite !fmap_insert. symmetry. by apply map_insert_zip_with.
      * unfold paired, insert_new_session. cbn. rewrite !dom_insert_L. by rewrite (si_paired _ _ _ _ _ Hs).
      * cbn. by rewrite dom_insert_L.
  - destruct Hs as [Hp Hd Hr]. split; [done| |done]. destruct Hd as [Ha Hu Hf]. split; [done..|].
    intros d' Hd'%Hf. lia.
Qed.

(** A session taken out by [take_realtime_session_if_owned], [remove_session] or a
    signal. *)
Lemma close_removed_ok id session m s next closing :
  state_ok s next closing -> idg m = delete id (idg (st_manager s)) -> paired m ->
  state_ok (close_removed id (Some session) m s) next closing.
Proof. intros Hs Hi Hp. eapply sessions_inv_remove; [done..|]. apply close_session_dom. Qed.

Lemma remove_if_owned_ok id peer d s next closing :
  state_ok s next closing -> state_ok (remove_realtime_session_if_owned id peer d s) next closing.
Proof.
  intros Hs. unfold remove_realtime_session_if_owned.
  pose proof (take_if_owned_spec id peer d (st_manager s) (si_paired _ _ _ _ _ Hs)) as H.
  destruct (take_realtime_session_if_owned _ _ _ _) as [[x|] m].
  - destruct H as (_ & _ & _ & Hi & Hp & _). by apply close_removed_ok.
  - destruct H as [-> _]. by apply state_ok_manager.
Qed.

Lemma start_aborted_ok id peer d s next closing :
  state_ok s next closing -> state_ok (start_aborted id peer d s) next closing.
Proof.
  intros Hs. unfold start_aborted.
  pose proof (take_if_owned_spec id peer d (st_manager s) (si_paired _ _ _ _ _ Hs)) as H.
  destruct (take_realtime_session_if_owned _ _ _ _) as [[x|] m].
  - destruct H as (_ & _ & _ & Hi & Hp & _). by apply close_removed_ok.
  - destruct H as [-> _]. eapply sessions_inv_same; [done..| |]; [by apply Hs|apply close_driver_dom].
Qed.

Lemma stop_session_ok id s next closing : state_ok s next closing -> state_ok (stop_session id s).2 next closing.
Proof.
  intros Hs. unfold stop_session.
  pose proof (remove_session_spec id (st_manager s) (si_paired _ _ _ _ _ Hs)) as H.
  destruct (remove_session _ _) as [[x|] m]; cbn [snd].
  - destruct H as (_ & _ & Hi & Hp & _). by apply close_removed_ok.
  - destruct H as [-> _]. by apply state_ok_manager.
Qed.

Lemma take_remote_closed_spec id peer rev shared m :
  paired m ->
  match take_remote_closed_session id peer rev shared m with
  | (Err _, m') => m' = m
  | (Ok (s, g), m') =>
    rt_sessions m !! id = Some s /\ (vw s).1 = (peer, shared) /\ rs_remote_revision s < rev
    /\ session_generations m !! id = Some g /\ ids m' = delete id (ids m) /\ idg m' = delete id (idg m) /\ paired m'
    /\ prov m' = prov m /\ session_generations m' = delete id (session_generations m)
    /\ next_generation m' = next_generation m
  end.
Proof.
  intros Hp. unfold take_remote_closed_session. destruct (rt_sessions m !! id) as [s|] eqn:Hs; [|done].
  destruct (negb _) eqn:Hpeer; [done|]. destruct (negb (bool_decide (rs_shared_id s = shared))) eqn:Hsh; [done|].
  destruct (rev <=? _) eqn:Hrev; [done|]. unfold session_generation.
  destruct (session_generations m !! id) as [g|] eqn:Hg; [|done].
  pose proof (remove_session_spec id m Hp) as H. destruct (remove_session id m) as [[s'|] m'].
  - destruct H as (Hs' & ? & ? & ? & ? & ? & ?). assert (s' = s) as -> by congruence. bool_facts.
    split_and!; try done. unfold vw; cbn; congruence.
  - by destruct H as [-> ?].
Qed.

Lemma close_remote_ok id peer rev shared s next closing :
  state_ok s next closing -> state_ok (close_remote_realtime_session id peer rev shared s).2 next closing.
Proof.
  intros Hs. unfold close_remote_realtime_session.
  pose proof (take_remote_closed_spec id peer rev shared (st_manager s) (si_paired _ _ _ _ _ Hs)) as H.
  destruct (take_remote_closed_session _ _ _ _ _) as [[[x n]|e] m]; cbn [snd].
  - destruct H as (_ & _ & _ & _ & _ & Hi & Hp & _). by apply close_removed_ok.
  - subst m. by apply state_ok_manager.
Qed.

Lemma close_matching_ok l m dr next closing r closed m' dr' :
  sessions_inv m dr next closing r -> close_matching l m dr = (closed, m', dr') ->
  sessions_inv m' dr' next closing (foldl (fun r c => registry_invalidate_realtime c.1.1.1.1 r) r closed).
Proof.
  revert m dr r closed. induction l as [|id l IH]; intros m dr r closed Hs H; cbn in H; [by injection H as <- <- <-|].
  pose proof (remove_session_spec id m (si_paired _ _ _ _ _ Hs)) as Hrm.
  destruct (remove_session id m) as [[x|] m1].
  - destruct Hrm as (_ & _ & Hi & Hp & _).
    destruct (close_matching l m1 _) as [[closed1 m2] dr2] eqn:E. injection H as <- <- <-. cbn.
    assert (Hs1 : sessions_inv m1 (close_session x dr) next closing (registry_invalidate_realtime id r)).
    { eapply sessions_inv_remove; [done..|]. apply close_session_dom. }
    by apply (IH _ _ _ _ Hs1).
  - destruct Hrm as [-> _]. by eapply IH.
Qed.

Lemma connection_lost_ok order peer n s next closing :
  state_ok s next closing -> state_ok (close_realtime_sessions_for_session order peer n s).2 next closing.
Proof.
  intros Hs. unfold close_realtime_sessions_for_session, close_for_connection_session_with_hook.
  destruct (close_matching _ _ _) as [[closed m] dr] eqn:E. eapply close_matching_ok; [|done]. by apply sessions_inv_sess with (st_manager s).
Qed.

Lemma claiming_cancel_open dev id peer shared payload now later b m s (n : Z) :
  (claiming_cancel dev id peer shared payload now later b m).1 ≠ Ok (true, Some (s, n)).
Proof. unfold claiming_cancel. by repeat case_match. Qed.

Lemma claiming_control_sess dev kind id peer rev shared payload now later m :
  paired m ->
  match handle_claiming_control_signal dev kind id peer rev shared payload now later m with
  | (Ok (true, Some (s, g)), m') =>
    rt_sessions m !! id = Some s /\ rs_remote_revision s < rev /\ session_generations m !! id = Some g
    /\ ids m' = delete id (ids m) /\ idg m' = delete id (idg m) /\ paired m'
    /\ session_generations m' = delete id (session_generations m) /\ next_generation m' = next_generation m
  | (_, m') => sess m' = sess m
  end.
Proof.
  intros Hp. unfold handle_claiming_control_signal.
  destruct (validate_signal _ _ _); [|done]. destruct (provisional m !! id) as [b|]; [|done].
  destruct (_ || _); [done|]. destruct kind; try done.
  - unfold claiming_close.
    set (exact := match rt_sessions m !! id with Some _ => _ | None => _ end).
    destruct (_ && _); [done|].
    pose proof (take_provisional_claim_sess id (pb_claim_token b) (pb_epoch b) m) as Ht.
    destruct (take_provisional_claim _ _ _ _) as [t m1]. cbn [snd] in Ht. destruct exact eqn:He; [|done].
    destruct (sess_idg _ _ Ht) as [Hi Hp1]. destruct (sess_ids _ _ Ht) as (Hids & Hg & Hn).
    unfold session_generation. destruct (session_generations m1 !! id) as [g|] eqn:Hgen; [|done].
    pose proof (remove_session_spec id m1 (Hp1 Hp)) as Hrm. destruct (remove_session id m1) as [[s|] m2].
    + destruct Hrm as (Hs & ? & ? & ? & ? & ? & ?). assert (Hs' : rt_sessions m !! id = Some s).
      { unfold sess in Ht. congruence. }
      subst exact. rewrite Hs' in He. bool_facts. split_and!; try done; congruence.
    + by destruct Hrm as [-> _].
  - pose proof (claiming_cancel_sess dev id peer shared payload now later b m) as Hc.
    pose proof (claiming_cancel_open dev id peer shared payload now later b m) as Ho.
    destruct (claiming_cancel _ _ _ _ _ _ _ _ _) as [[[[] [[s g]|]]|e] m']; try done. by destruct (Ho s g).
Qed.

Lemma step_control_ok dev x w : world_ok w -> world_ok (step_control dev x w).
Proof.
  intros Hw. unfold step_control. pose proof (claiming_control_sess dev (rg_kind x) (rg_realtime_id x) (rg_peer_id x)
    (rg_revision x) (rg_shared_id x) (rg_payload x) (w_wall w) (w_wall w) (w_manager w) (si_paired _ _ _ _ _ Hw)) as H.
  assert (Hlog : forall w0, world_ok w0 -> world_ok (log_consent dev x w0)).
  { intros w0 H0. unfold log_consent. by destruct (rg_kind x), (consent_key dev x). }
  destruct (handle_claiming_control_signal _ _ _ _ _ _ _ _ _ _) as [[[[] [[s g]|]]|e] m]; try by apply state_ok_manager.
  - destruct H as (_ & _ & _ & _ & Hi & Hp & _). apply Hlog. by apply close_removed_ok.
  - apply Hlog. by apply state_ok_manager.
Qed.

Lemma step_apply_ok x fresh conn rtc w :
  rg_kind x ≠ SkWebRtcClose -> world_ok w -> world_ok (step_apply x fresh conn rtc w).
Proof.
  intros Hk Hw. unfold step_apply, signal_section. set (s0 := if fresh then mkRt _ _ _ else _).
  assert (Hm0 : st_manager s0 = w_manager w) by by destruct fresh.
  destruct (apply_signal_with_driver _ _ _ _ _ _ _ _) as [[r m] dr] eqn:E.
  apply apply_signal_effect in E as (He & _ & Hd); [|rewrite Hm0; by apply Hw|done].
  apply signal_effect_idg in He as [Hc Hp]; [|rewrite Hm0; by apply Hw]. rewrite Hm0 in Hc.
  assert (Hs : state_ok (mkRt m (st_registry s0) dr) (if fresh then w_next_driver w + 1 else w_next_driver w) (w_closing w)).
  { destruct fresh; cbn in *.
    - eapply sessions_inv_change_driver; [done..|]. cbn. by rewrite Hd, dom_insert_L.
    - by eapply sessions_inv_change. }
  destruct r as [o|e]; [destruct (bool_decide _)|]; by destruct fresh.
Qed.

Lemma step_signal_ok x fresh conn rtc w : world_ok w -> world_ok (step_signal x fresh conn rtc w).
Proof.
  intros Hw. unfold step_signal.
  destruct (rg_kind x) eqn:Hk; try (apply step_apply_ok; [by rewrite Hk|done]); [|done].
  pose proof (close_remote_ok (rg_realtime_id x) (rg_peer_id x) (rg_revision x) (rg_shared_id x) (w_state w) _ _ Hw) as Hs.
  by destruct (close_remote_realtime_session _ _ _ _ _) as [[n|e] s].
Qed.

Lemma step_provisional_ok dev x oid token w : world_ok w -> world_ok (step_provisional dev x oid token w).
Proof.
  intros Hw. unfold step_provisional.
  pose proof (provisional_signal_sess dev (rg_kind x) (rg_realtime_id x) (rg_peer_id x) (rg_revision x) (rg_shared_id x)
    (rg_payload x) oid token (w_mono w) (w_wall w) (w_wall w) (w_manager w)) as Hs.
  destruct (provisional_signal _ _ _ _ _ _ _ _ _ _ _ _ _) as [r m]. cbn [snd] in Hs.
  assert (Hw1 : world_ok (set_w_manager m w)) by by apply state_ok_manager.
  destruct r as [published|e]; [|done]. unfold log_consent.
  by repeat case_match.
Qed.

Lemma rollback_sess c shared epoch gen d m dr :
  paired m ->
  match rollback_incoming_claim c shared epoch gen d m dr with
  | (Some s, m', dr') =>
    rt_sessions m !! cc_realtime_id c = Some s /\ ids m' = delete (cc_realtime_id c) (ids m)
    /\ idg m' = delete (cc_realtime_id c) (idg m) /\ paired m' /\ dom dr' = dom dr
    /\ session_generations m' = delete (cc_realtime_id c) (session_generations m) /\ next_generation m' = next_generation m
  | (None, m', dr') => sess m' = sess m /\ dom dr' = dom dr
  end.
Proof.
  intros Hp. unfold rollback_incoming_claim.
  pose proof (take_provisional_claim_sess (cc_realtime_id c) (cc_claim_token c) epoch m) as Ht.
  destruct (take_provisional_claim _ _ _ _) as [t m1]. cbn [snd] in Ht.
  destruct (sess_idg _ _ Ht) as [Hi Hp1]. destruct (sess_ids _ _ Ht) as (Hids & Hg & Hn).
  destruct (match gen with Some _ => _ | None => _ end); [|by rewrite close_driver_dom].
  pose proof (take_if_owned_spec (cc_realtime_id c) (cc_peer_id c) d m1 (Hp1 Hp)) as H.
  destruct (take_realtime_session_if_owned _ _ _ _) as [[s|] m2].
  - destruct H as (_ & Hs & ? & ? & ? & _ & ? & ?). rewrite close_session_dom.
    split_and!; try done; try congruence. unfold sess in Ht. congruence.
  - destruct H as [-> _]. by rewrite close_driver_dom.
Qed.

Lemma claim_apply_ok op c start conn rtc rtc_ice w :
  world_ok w -> world_ok (step_claim_apply op c start conn rtc rtc_ice w).
Proof.
  intros Hw. unfold step_claim_apply.
  destruct (claim_apply _ _ _ _ _ _ _ _ _) as [[r m] dr] eqn:E.
  apply claim_apply_effect in E as (_ & Hd & Hc); [|by apply Hw].
  assert (Hs : state_ok (mkRt m (st_registry (w_state w)) dr) (w_next_driver w + 1) (w_closing w)).
  { destruct Hc as [[-> _]|(r0 & He & _)].
    - eapply sessions_inv_same; [by apply sessions_inv_driver|done|by apply Hw|done].
    - apply signal_effect_idg in He as [Hc Hp]; [|by apply Hw].
      eapply sessions_inv_change_driver; [done..|]. cbn. by rewrite Hd, dom_insert_L. }
  destruct r as [o|[[g|] e]]; [|done..]. by destruct (so_outbound o).
Qed.

Lemma step_claim_ok a w : world_ok w -> world_ok (step_claim a w).
Proof.
  intros Hw. destruct a as [| | | | | | | |? op c|op|op conn rtc rtc_ice|op|op rtc_ice|op| | | | | | | | | | | | | | | |];
    try done; cbn [step_claim].
  - pose proof (claim_begin_sess c (w_wall w) (w_manager w)) as Hs.
    destruct (w_claims w !! op); [done|].
    destruct (claim_begin _ _ _) as [[start|e] m]; by apply state_ok_manager.
  - destruct (w_claims w !! op) as [[c start| |]|]; try done.
    pose proof (take_provisional_claim_sess (cc_realtime_id c) (cc_claim_token c) (cs_epoch start) (w_manager w)) as Ht.
    destruct (take_provisional_claim _ _ _ _) as [t m]. by apply state_ok_manager.
  - destruct (w_claims w !! op) as [[c start| |]|]; try done. by apply claim_apply_ok.
  - by destruct (w_claims w !! op) as [[]|].
  - destruct (w_claims w !! op) as [[|c shared epoch g d answer|]|]; try done.
    destruct (claim_commit _ _ _ _ _ _ _ _ _ _ _) as [[[r cl] m] dr] eqn:E.
    apply claim_commit_spec in E as [Hk Hd]; [|by apply Hw].
    assert (Hs : state_ok (mkRt m (st_registry (w_state w)) dr) (w_next_driver w) (w_closing w)).
    { eapply sessions_inv_same; [done|by apply keeps_idg|by eapply keeps_paired, Hw|done]. }
    by destruct r.
  - destruct (w_claims w !! op) as [[| |c shared epoch gen d]|]; try done.
    pose proof (rollback_sess c shared epoch gen d (w_manager w) (st_drivers (w_state w)) (si_paired _ _ _ _ _ Hw)) as H.
    unfold w_manager in H. destruct (rollback_incoming_claim _ _ _ _ _ _ _) as [[[s|] m] dr].
    + destruct H as (_ & _ & Hi & Hp & Hd & _). by eapply sessions_inv_remove.
    + destruct H as [Hs Hd]. eapply sessions_inv_same; [by apply sessions_inv_sess with (w_manager w)|done| |done].
      by apply (sess_idg _ _ Hs), Hw.
Qed.

Lemma step_worker_ok a w : world_ok w -> world_ok (step_worker a w).
Proof.
  intros Hw. unfold step_worker.
  repeat case_match; try done; (apply state_ok_manager; [done|]); first [done|apply expire_sess].
Qed.

Lemma close_all_dom m dr : dom (close_all m dr).2 = dom dr.
Proof.
  cbn. apply (map_fold_weak_ind (fun d _ => dom d = dom dr)); [done|].
  intros id s l d _ IH. by rewrite close_session_dom.
Qed.

Lemma release_clear_dom e r dr : dom (release_clear e r dr).2 = dom dr.
Proof.
  unfold release_clear. destruct (endpoints r !! e) as [l|]; [|done].
  destruct (dr !! el_driver l) as [p|] eqn:Hp; [|done]. destruct (with_screen_video _ p) as [c p']. cbn.
  by rewrite dom_insert_lookup_L.
Qed.

Lemma media_endpoint_driver_names id peer m d n :
  media_endpoint_driver id peer m = Ok (d, n) -> names_session (idg m) id peer d n.
Proof.
  unfold media_endpoint_driver. intros H. destruct (rt_sessions m !! id) as [s|] eqn:Hs; [|done].
  destruct (negb _) eqn:Hp; [done|]. destruct (session_generations m !! id) as [g|] eqn:Hg; [|done].
  destruct (rs_driver s) as [d'|] eqn:Hd; [|done]. injection H as -> ->. bool_facts.
  exists (rs_shared_id s). rewrite (idg_session m id s n) by done. unfold vw. congruence.
Qed.

Lemma step_media_ok a w : world_ok w -> world_ok (step_media a w).
Proof.
  intros Hw. destruct a; try done; cbn [step_media].
  - unfold create_endpoint. destruct (validate_identifiers _ _); [|done].
    destruct (media_endpoint_driver _ _ _) as [[d n]|] eqn:Hm; [|done]. destruct (negb _); [done|].
    destruct (registry_create _ _ _ _ _ _ _ _) as [[x next] r] eqn:E.
    destruct Hw as [Hp Hd Hr]. split; [done..|]. intros Hc. cbn. replace r with (registry_create realtime_id peer_id direction
      expected n d (w_next_endpoint w) (st_registry (w_state w))).2 by by rewrite E.
    apply registry_ok_create; [by apply media_endpoint_driver_names|auto].
  - unfold release_endpoint. pose proof (release_clear_dom endpoint_id (st_registry (w_state w)) (st_drivers (w_state w))) as Hd.
    destruct (release_clear _ _ _) as [[[]|e] dr]; cbn in Hd;
      try (eapply sessions_inv_same; [done|done|by apply Hw|done]).
    assert (Hs : state_ok (mkRt (w_manager w) (st_registry (w_state w)) dr) (w_next_driver w) (w_closing w)).
    { eapply sessions_inv_same; [done|done|by apply Hw|done]. }
    destruct Hs as [Hp Hdr Hr]. split; [done..|]. intros Hc. by apply registry_ok_release, Hr.
  - destruct Hw as [Hp Hd Hr]. split; [done..|]. intros _. apply registry_ok_invalidate_all.
  - pose proof (close_all_dom (w_manager w) (st_drivers (w_state w))) as Hd. destruct (close_all _ _) as [m dr] eqn:E.
    injection E as <- <-. destruct Hw as [_ [_ _ Hf] _]. split; [done| |done].
    cbn [snd] in Hd. cbn [w_state set_w_state set_w_closing st_drivers w_next_driver]. rewrite Hd.
    assert (Hi : idg (set_rt_sessions ∅ ∅ (next_generation (w_manager w))
      (wake_provisional_expiry (set_provisional ∅ ∅ (w_manager w)))) = ∅).
    { apply map_empty. intros id. by apply idg_none. }
    change (drivers_ok (idg (set_rt_sessions ∅ ∅ (next_generation (w_manager w))
      (wake_provisional_expiry (set_provisional ∅ ∅ (w_manager w))))) (dom (st_drivers (w_state w))) (w_next_driver w)).
    rewrite Hi. split; [..|done]; intros *; rewrite lookup_empty; done.
  - destruct (st_drivers (w_state w) !! d) eqn:Hd; [|done].
    eapply sessions_inv_same; [done|done|by apply Hw|]. cbn. by rewrite dom_insert_lookup_L.
  - destruct (bool_decide _) eqn:Hb; [done|]. apply bool_decide_eq_false in Hb.
    destruct Hw as [Hp [Ha Hu Hf] Hr]. split; [done| |done]. cbn. split; [|done|set_solver].
    intros id peer shared d' n H. specialize (Ha _ _ _ _ _ H). rewrite dom_delete_L.
    apply elem_of_difference. split; [done|]. intros ->%elem_of_singleton. apply Hb.
    apply idg_lookup in H as [[remote (s & Hs & Hv & _)%ids_session] _]. exists id, s. split; [done|]. by injection Hv.
Qed.

(** A command that is not admitted changes nothing. *)
Lemma rt_step_cases a w : rt_step a w = rt_section a w \/ rt_step a w = w.
Proof. unfold rt_step. destruct (admitted a); auto. Qed.

Lemma rt_step_ok a w : world_ok w -> world_ok (rt_step a w).
Proof.
  intros Hw. destruct (rt_step_cases a w) as [-> | ->]; [|done]. destruct a; try (apply step_claim_ok, Hw); try (apply step_worker_ok, Hw); try (apply step_media_ok, Hw);
    cbn [rt_section].
  - by destruct (_ && _).
  - pose proof (start_session_ok realtime_id peer_id shared_id connection (w_next_driver w) offer (w_state w) _ Hw) as Hs.
    by destruct (start_session _ _ _ _ _ _ _).
  - by apply remove_if_owned_ok.
  - by apply start_aborted_ok.
  - by apply stop_session_ok.
  - by apply step_signal_ok.
  - by apply step_control_ok.
  - by apply step_provisional_ok.
  - apply state_ok_manager; [done|apply reject_begin_sess].
  - apply state_ok_manager; [done|apply reject_mark_sess].
  - apply state_ok_manager; [done|apply reject_finish_sess].
  - apply state_ok_manager; [done|apply discard_incoming_offer_sess].
  - destruct (bool_decide _); [by apply connection_lost_ok|done].
Qed.

Lemma world_init_ok gen rt wall mono : world_ok (world_init gen rt wall mono).
Proof.
  split; [done|..]; cbn.
  - split; intros *; cbn; try (by rewrite lookup_empty); set_solver.
  - intros _. apply registry_ok_new.
Qed.

Lemma rt_run_ok l w : world_ok w -> world_ok (rt_run l w).
Proof. revert w. induction l as [|a l IH]; intros w Hw; [done|]. by apply IH, rt_step_ok. Qed.
End Leases.
