(* ===== verification/RealtimeOrder.v ===== *)
(** * The order of accepted signals

    Within one generation of a session the revisions of the signals it accepts
    strictly increase, whatever the interleaving of the handlers, and no two
    sessions share a generation. *)
From S2P Require Import Prelude VideoQueue Rtp ScreenVideo MediaQos WebRtcPeer RealtimeWire Realtime RealtimeClaims.
From S2P Require Import RealtimeMedia RealtimeRuns RealtimeProofs RealtimeLeases.

Section Order.
Context {HF : H264Format} {RC : RealtimeCodec}.
Implicit Types (m : RealtimeManager) (w : RtWorld).

(** The generation and the last remote revision of every session. *)
Definition grm m : gmap string (Z * Z) := map_zip (session_generations m) (snd <$> ids m).

(** The revisions accepted in generation [g], in order. *)
Definition accepted_in (g : Z) (acc : list (Z * Z)) : list Z := snd <$> filter (fun a => a.1 = g) acc.

Record order_inv (gr : gmap string (Z * Z)) (next : Z) (acc : list (Z * Z)) : Prop := {
  oi_sessions : forall id g remote, gr !! id = Some (g, remote) -> g < next;
  oi_unique : forall id1 id2 g r1 r2, gr !! id1 = Some (g, r1) -> gr !! id2 = Some (g, r2) -> id1 = id2;
  oi_logged : forall g rev, (g, rev) ∈ acc -> g < next;
  oi_bound : forall id g remote rev, gr !! id = Some (g, remote) -> (g, rev) ∈ acc -> rev <= remote;
  oi_sorted : forall g, StronglySorted Z.lt (accepted_in g acc);
}.

Lemma accepted_in_app g acc g' rev :
  accepted_in g (acc ++ [(g', rev)]) = accepted_in g acc ++ (if decide (g' = g) then [rev] else []).
Proof.
  unfold accepted_in. rewrite filter_app, fmap_app. f_equal. rewrite filter_cons. cbn. by destruct (decide (g' = g)).
Qed.

Lemma elem_of_accepted_in g acc rev : rev ∈ accepted_in g acc <-> (g, rev) ∈ acc.
Proof.
  unfold accepted_in. rewrite list_elem_of_fmap. split.
  - intros ([g' r] & -> & [Hg Hin]%list_elem_of_filter). cbn in *. by subst.
  - intros Hin. exists (g, rev). split; [done|]. by apply list_elem_of_filter.
Qed.

(** A signal accepted by a live session, which stays or goes. *)
Lemma order_inv_accept gr gr' next acc id g remote rev :
  order_inv gr next acc -> gr !! id = Some (g, remote) -> remote < rev ->
  (gr' = <[id := (g, rev)]> gr \/ gr' = delete id gr) ->
  order_inv gr' next acc /\ order_inv gr' next (acc ++ [(g, rev)]).
Proof.
  intros [H1 H2 H3 H4 H5] Hid Hlt Hgr.
  assert (Hsub : forall id' g' r', gr' !! id' = Some (g', r') ->
    (id' = id /\ g' = g /\ r' = rev) \/ (id' ≠ id /\ gr !! id' = Some (g', r'))).
  { intros id' g' r'. destruct Hgr as [-> | ->].
    - intros [[<- [= <- <-]]|[? ?]]%lookup_insert_Some; auto.
    - intros [? ?]%lookup_delete_Some; auto. }
  assert (Hold : forall id' g' r', gr' !! id' = Some (g', r') -> exists r0, gr !! id' = Some (g', r0) /\ r0 <= r').
  { intros id' g' r' [(-> & -> & ->)|[_ H]]%Hsub; eauto with lia. }
  assert (Hu : forall id1 id2 g' r1 r2, gr' !! id1 = Some (g', r1) -> gr' !! id2 = Some (g', r2) -> id1 = id2).
  { intros * (? & ? & _)%Hold (? & ? & _)%Hold. by eapply H2. }
  split; (split; [by intros * (? & ? & _)%Hold; eauto|exact Hu| | |]).
  - exact H3.
  - intros * (r0 & Hr0 & ?)%Hold Hin. specialize (H4 _ _ _ _ Hr0 Hin). lia.
  - exact H5.
  - intros g' r' [Hin|[= -> ->]%list_elem_of_singleton]%elem_of_app; eauto.
  - intros id' g' r' rev' Hl [Hin|[= -> ->]%list_elem_of_singleton]%elem_of_app.
    + apply Hold in Hl as (r0 & Hr0 & ?). specialize (H4 _ _ _ _ Hr0 Hin). lia.
    + apply Hsub in Hl as [(_ & _ & ->)|[Hne Hl]]; [lia|]. destruct Hne. by eapply H2.
  - intros g'. rewrite accepted_in_app. destruct (decide (g = g')) as [<-|]; [|by rewrite app_nil_r].
    apply sorted_snoc; [done|]. apply Forall_forall. intros y Hy%elem_of_accepted_in. specialize (H4 _ _ _ _ Hid Hy). lia.
Qed.

Lemma order_inv_new gr next acc id rev :
  order_inv gr next acc ->
  order_inv (<[id := (next, rev)]> gr) (next + 1) acc
  /\ order_inv (<[id := (next, rev)]> gr) (next + 1) (acc ++ [(next, rev)]).
Proof.
  intros [H1 H2 H3 H4 H5].
  assert (Hnext : forall rev', (next, rev') ∉ acc) by (intros rev' H%H3; lia).
  assert (Hs : forall id' g remote, <[id := (next, rev)]> gr !! id' = Some (g, remote) -> g < next + 1).
  { intros * [[<- [= <- <-]]|[_ H%H1]]%lookup_insert_Some; lia. }
  assert (Hu : forall id1 id2 g r1 r2, <[id := (next, rev)]> gr !! id1 = Some (g, r1) ->
    <[id := (next, rev)]> gr !! id2 = Some (g, r2) -> id1 = id2).
  { intros * [[<- [= <- <-]]|[_ Ha]]%lookup_insert_Some [[<- Hb]|[_ Hb]]%lookup_insert_Some; try done.
    - apply H1 in Hb. lia.
    - injection Hb as <- <-. apply H1 in Ha. lia.
    - by eapply H2. }
  split; (split; [exact Hs|exact Hu| | |]).
  - intros g r' Hin%H3. lia.
  - intros * [[<- [= <- <-]]|[_ H]]%lookup_insert_Some Hin; [by destruct (Hnext rev0)|by eapply H4].
  - exact H5.
  - intros g r' [Hin%H3|[= -> ->]%list_elem_of_singleton]%elem_of_app; lia.
  - intros id' g remote rev' [[<- [= <- <-]]|[_ H]]%lookup_insert_Some [Hin|Heq%list_elem_of_singleton]%elem_of_app.
    + by destruct (Hnext rev').
    + simplify_eq. lia.
    + by eapply H4.
    + simplify_eq. apply H1 in H. lia.
  - intros g. rewrite accepted_in_app. destruct (decide (next = g)) as [<-|]; [|by rewrite app_nil_r].
    apply sorted_snoc; [done|]. apply Forall_forall. intros y Hy%elem_of_accepted_in. by destruct (Hnext y).
Qed.

Lemma order_inv_delete gr next acc id : order_inv gr next acc -> order_inv (delete id gr) next acc.
Proof.
  intros [H1 H2 H3 H4 H5]. split; [..|done].
  - by intros * [_ H]%lookup_delete_Some; eauto.
  - intros * [_ Ha]%lookup_delete_Some [_ Hb]%lookup_delete_Some. by eapply H2.
  - done.
  - intros * [_ H]%lookup_delete_Some. by eapply H4.
Qed.

(** ** Sections *)

Lemma grm_lookup m id g remote :
  grm m !! id = Some (g, remote) <-> session_generations m !! id = Some g /\ exists v, ids m !! id = Some (v, remote).
Proof.
  unfold grm. rewrite map_lookup_zip_Some, lookup_fmap. cbn. rewrite fmap_Some. split.
  - intros [Hg [[v r] [H ->]]]. eauto.
  - intros [Hg [v H]]. split; [done|]. by exists (v, remote).
Qed.

Lemma keeps_grm m m' : keeps m m' -> grm m' = grm m /\ next_generation m' = next_generation m.
Proof. intros (Hi & Hg & Hn). unfold grm. by rewrite Hi, Hg. Qed.

Lemma removed_grm id m m' :
  ids m' = delete id (ids m) -> session_generations m' = delete id (session_generations m) -> grm m' = delete id (grm m).
Proof. intros Hi Hg. unfold grm. rewrite Hi, Hg, fmap_delete. symmetry. apply map_delete_zip_with. Qed.

Lemma session_grm m id s g :
  rt_sessions m !! id = Some s -> session_generations m !! id = Some g -> grm m !! id = Some (g, rs_remote_revision s).
Proof. intros Hs Hg. apply grm_lookup. split; [done|]. exists (vw s). apply ids_session. eauto. Qed.

(** The counter of generations has room for one more. *)
Definition has_room m : Prop := 0 <= next_generation m < 2 ^ 64 - 1.

Definition next_ok m m' : Prop :=
  next_generation m' = next_generation m \/ next_generation m' = next_generation m + 1.

Lemma next_wrap m : has_room m -> wrap 64 (next_generation m + 1) = next_generation m + 1.
Proof. unfold has_room, wrap. intros H. apply Z.mod_small. lia. Qed.

Lemma signal_effect_order id peer sg pending m r m' acc :
  has_room m -> order_inv (grm m) (next_generation m) acc -> signal_effect id peer sg pending m r m' ->
  order_inv (grm m') (next_generation m') acc /\ next_ok m m' /\
  (forall o, r = Ok o -> is_kind sg ≠ SkIceCandidate ->
    order_inv (grm m') (next_generation m') (acc ++ [(so_generation o, is_revision sg)])).
Proof.
  intros Hroom Ho [Hi Hg Hn Hice|v remote o Hid _ Hlt -> _ Hgen Hi Hg Hn|o Hid -> Hgen _ Hi Hg Hn].
  - destruct (keeps_grm m m') as [-> ->]; [done|]. split_and!; [done|by left|]. intros o ->. by intros []; eauto.
  - assert (Hgr : grm m' = <[id := (so_generation o, is_revision sg)]> (grm m)).
    { unfold grm. rewrite Hi, Hg, fmap_insert. cbn. rewrite <-(insert_id (session_generations m) id (so_generation o)) at 1 by done.
      symmetry. by apply map_insert_zip_with. }
    assert (Hl : grm m !! id = Some (so_generation o, remote)) by (apply grm_lookup; eauto).
    destruct (order_inv_accept _ (grm m') _ _ _ _ _ _ Ho Hl Hlt (or_introl Hgr)) as [Ha Hb].
    rewrite Hn. split_and!; [done|by left|]. by intros ? [= <-].
  - rewrite next_wrap in Hn by done.
    assert (Hgr : grm m' = <[id := (next_generation m, is_revision sg)]> (grm m)).
    { unfold grm. rewrite Hi, Hg, fmap_insert. cbn. symmetry. by apply map_insert_zip_with. }
    destruct (order_inv_new _ _ _ id (is_revision sg) Ho) as [Ha Hb]. rewrite Hn, Hgr.
    split_and!; [done|by right|]. intros ? [= <-]. by rewrite Hgen.
Qed.

Definition order_ok w : Prop := order_inv (grm (w_manager w)) (next_generation (w_manager w)) (w_accepted w).

(** A step that keeps the order, and uses at most one generation. *)
Definition orderly w w' : Prop := order_ok w' /\ next_ok (w_manager w) (w_manager w').

Lemma orderly_keeps w w' :
  order_ok w -> keeps (w_manager w) (w_manager w') -> w_accepted w' = w_accepted w -> orderly w w'.
Proof.
  intros Ho Hk Ha. destruct (keeps_grm _ _ Hk) as [Hg Hn]. split; [|by left]. unfold order_ok. by rewrite Hg, Hn, Ha.
Qed.

Lemma orderly_sess w w' :
  order_ok w -> sess (w_manager w') = sess (w_manager w) -> w_accepted w' = w_accepted w -> orderly w w'.
Proof. intros Ho Hs. apply orderly_keeps; [done|]. by apply sess_keeps. Qed.

Lemma orderly_removed id w w' :
  order_ok w -> ids (w_manager w') = delete id (ids (w_manager w)) ->
  session_generations (w_manager w') = delete id (session_generations (w_manager w)) ->
  next_generation (w_manager w') = next_generation (w_manager w) -> w_accepted w' = w_accepted w -> orderly w w'.
Proof.
  intros Ho Hi Hg Hn Ha. split; [|by left]. unfold order_ok. rewrite (removed_grm id (w_manager w)), Hn, Ha by done.
  by apply order_inv_delete.
Qed.

Lemma orderly_closed id s g rev w w' :
  order_ok w -> rt_sessions (w_manager w) !! id = Some s -> session_generations (w_manager w) !! id = Some g ->
  rs_remote_revision s < rev -> ids (w_manager w') = delete id (ids (w_manager w)) ->
  session_generations (w_manager w') = delete id (session_generations (w_manager w)) ->
  next_generation (w_manager w') = next_generation (w_manager w) -> w_accepted w' = w_accepted w ++ [(g, rev)] ->
  orderly w w'.
Proof.
  intros Ho Hs Hgen Hlt Hi Hg Hn Ha. split; [|by left]. unfold order_ok. rewrite Hn, Ha.
  eapply order_inv_accept; [done|by apply session_grm|done|]. right. by apply removed_grm.
Qed.

Lemma close_matching_order l m dr acc closed m' dr' :
  paired m -> order_inv (grm m) (next_generation m) acc -> close_matching l m dr = (closed, m', dr') ->
  order_inv (grm m') (next_generation m') acc /\ next_generation m' = next_generation m.
Proof.
  revert m dr closed. induction l as [|id l IH]; intros m dr closed Hp Ho H; cbn in H; [by injection H as <- <- <-|].
  pose proof (remove_session_spec id m Hp) as Hrm. destruct (remove_session id m) as [[x|] m1].
  - destruct Hrm as (_ & Hi & _ & Hp1 & _ & Hg & Hn).
    destruct (close_matching l m1 _) as [[closed1 m2] dr2] eqn:E. injection H as <- <- <-. rewrite <-Hn.
    eapply IH; [done| |done]. rewrite (removed_grm id m m1), Hn by done. by apply order_inv_delete.
  - destruct Hrm as [-> _]. by eapply IH.
Qed.

(** ** Steps *)

Lemma insert_new_session_grm id s m :
  grm (insert_new_session id s m) = <[id := (next_generation m, rs_remote_revision s)]> (grm m).
Proof. unfold grm, ids. cbn. rewrite !fmap_insert. symmetry. by apply map_insert_zip_with. Qed.

Lemma start_session_order id peer shared conn d offer s acc :
  has_room (st_manager s) -> order_inv (grm (st_manager s)) (next_generation (st_manager s)) acc ->
  let m' := st_manager (start_session id peer shared conn d offer s).2 in
  order_inv (grm m') (next_generation m') acc /\ next_ok (st_manager s) m'.
Proof.
  intros Hroom Ho. unfold start_session. cbn zeta.
  destruct (create_offer _ _) as [[o|e] p]; [|by split; [|left]].
  destruct (rt_sessions _ !! id) as [s0|]; [by split; [|left]|]. cbn [snd st_manager].
  rewrite insert_new_session_grm. unfold next_ok. cbn [insert_new_session set_rt_sessions next_generation rs_remote_revision].
  rewrite next_wrap by done. split; [by apply order_inv_new|by right].
Qed.

Lemma owned_gone_orderly id peer d w w' :
  world_ok w -> order_ok w -> w_accepted w' = w_accepted w ->
  w_manager w' = (take_realtime_session_if_owned id peer d (w_manager w)).2 -> orderly w w'.
Proof.
  intros Hw Ho Ha Hm. pose proof (take_if_owned_spec id peer d (w_manager w) (si_paired _ _ _ _ _ Hw)) as H.
  destruct (take_realtime_session_if_owned _ _ _ _) as [[x|] m]; cbn [snd] in Hm.
  - destruct H as (_ & _ & Hi & _ & _ & _ & Hg & Hn). subst m. by eapply orderly_removed.
  - destruct H as [-> _]. apply orderly_sess; [done| |done]. by rewrite Hm.
Qed.

Lemma step_apply_orderly x fresh conn rtc w :
  rg_kind x ≠ SkWebRtcClose -> world_ok w -> order_ok w -> has_room (w_manager w) -> orderly w (step_apply x fresh conn rtc w).
Proof.
  intros Hk Hw Ho Hroom. unfold step_apply, signal_section. set (s0 := if fresh then mkRt _ _ _ else _).
  assert (Hm0 : st_manager s0 = w_manager w) by by destruct fresh.
  destruct (apply_signal_with_driver _ _ _ _ _ _ _ _) as [[r m] dr] eqn:E.
  apply apply_signal_effect in E as (He & _ & _); [|rewrite Hm0; by apply Hw|done]. rewrite Hm0 in He.
  apply (signal_effect_order _ _ _ _ _ _ _ (w_accepted w)) in He as (H1 & H2 & H3); [|done..].
  destruct r as [o|e]; [destruct (bool_decide _) eqn:Hb|]; destruct fresh; try done;
    bool_facts; (split; [|done]); by apply H3.
Qed.

Lemma step_signal_orderly x fresh conn rtc w :
  world_ok w -> order_ok w -> has_room (w_manager w) -> orderly w (step_signal x fresh conn rtc w).
Proof.
  intros Hw Ho Hroom. unfold step_signal.
  destruct (rg_kind x) eqn:Hk; try (apply step_apply_orderly; [by rewrite Hk|done..]); [|by apply orderly_sess].
  unfold close_remote_realtime_session. pose proof (take_remote_closed_spec (rg_realtime_id x) (rg_peer_id x)
    (rg_revision x) (rg_shared_id x) (w_manager w) (si_paired _ _ _ _ _ Hw)) as H. unfold w_manager in H.
  destruct (take_remote_closed_session _ _ _ _ _) as [[[s n]|e] m].
  - destruct H as (Hs & _ & Hlt & Hgen & Hi & _ & _ & _ & Hg & Hn). by eapply orderly_closed.
  - subst m. by apply orderly_sess.
Qed.

Lemma log_consent_fields dev x w :
  w_manager (log_consent dev x w) = w_manager w /\ w_accepted (log_consent dev x w) = w_accepted w.
Proof. unfold log_consent. by destruct (rg_kind x), (consent_key dev x). Qed.

Lemma step_control_orderly dev x w : world_ok w -> order_ok w -> orderly w (step_control dev x w).
Proof.
  intros Hw Ho. unfold step_control. pose proof (claiming_control_sess dev (rg_kind x) (rg_realtime_id x) (rg_peer_id x)
    (rg_revision x) (rg_shared_id x) (rg_payload x) (w_wall w) (w_wall w) (w_manager w) (si_paired _ _ _ _ _ Hw)) as H.
  destruct (handle_claiming_control_signal _ _ _ _ _ _ _ _ _ _) as [[[[] [[s g]|]]|e] m]; try by apply orderly_sess.
  - destruct H as (Hs & Hlt & Hgen & Hi & _ & _ & Hg & Hn). cbn [fmap option_fmap option_map fst].
    set (w1 := log_accepted _ _). destruct (log_consent_fields dev x w1) as [Hm Ha].
    eapply orderly_closed; rewrite ?Hm, ?Ha; done.
  - set (w1 := set_w_state _ _). destruct (log_consent_fields dev x w1) as [Hm Ha].
    apply orderly_sess; [done|by rewrite Hm|done].
Qed.

Lemma step_provisional_orderly dev x oid token w : order_ok w -> orderly w (step_provisional dev x oid token w).
Proof.
  intros Ho. unfold step_provisional.
  pose proof (provisional_signal_sess dev (rg_kind x) (rg_realtime_id x) (rg_peer_id x) (rg_revision x) (rg_shared_id x)
    (rg_payload x) oid token (w_mono w) (w_wall w) (w_wall w) (w_manager w)) as Hs.
  destruct (provisional_signal _ _ _ _ _ _ _ _ _ _ _ _ _) as [r m]. cbn [snd] in Hs.
  destruct (log_consent_fields dev x (set_w_manager m w)) as [Hm Ha].
  destruct r as [published|e]; [|by apply orderly_sess].
  repeat case_match; (apply orderly_sess; [done|exact (eq_trans (f_equal sess Hm) Hs)|exact Ha]).
Qed.

Lemma step_claim_apply_orderly op c start conn rtc rtc_ice w :
  world_ok w -> order_ok w -> has_room (w_manager w) -> orderly w (step_claim_apply op c start conn rtc rtc_ice w).
Proof.
  intros Hw Ho Hroom. unfold step_claim_apply.
  destruct (claim_apply _ _ _ _ _ _ _ _ _) as [[r m] dr] eqn:E.
  apply claim_apply_effect in E as (_ & _ & [[-> [e ->]]|(r0 & He & Hr)]); [by apply orderly_sess| |by apply Hw].
  apply (signal_effect_order _ _ _ _ _ _ _ (w_accepted w)) in He as (H1 & H2 & H3); [|done..].
  destruct r as [o|[[g|] e]]; [|done..]. destruct (so_outbound o); [|done].
  split; [|done]. by apply (H3 o).
Qed.

Lemma step_claim_orderly a w : world_ok w -> order_ok w -> has_room (w_manager w) -> orderly w (step_claim a w).
Proof.
  intros Hw Ho Hroom.
  destruct a as [| | | | | | | |? op c|op|op conn rtc rtc_ice|op|op rtc_ice|op| | | | | | | | | | | | | | | |];
    try by apply orderly_sess; cbn [step_claim].
  - pose proof (claim_begin_sess c (w_wall w) (w_manager w)) as Hs. cbn [step_claim].
    destruct (w_claims w !! op); [by apply orderly_sess|].
    destruct (claim_begin _ _ _) as [[start|e] m]; by apply orderly_sess.
  - cbn [step_claim]. destruct (w_claims w !! op) as [[c start| |]|]; try by apply orderly_sess.
    pose proof (take_provisional_claim_sess (cc_realtime_id c) (cc_claim_token c) (cs_epoch start) (w_manager w)) as Ht.
    destruct (take_provisional_claim _ _ _ _) as [t m]. by apply orderly_sess.
  - cbn [step_claim]. destruct (w_claims w !! op) as [[c start| |]|]; try by apply orderly_sess.
    by apply step_claim_apply_orderly.
  - cbn [step_claim]. destruct (w_claims w !! op) as [[]|]; by apply orderly_sess.
  - cbn [step_claim]. destruct (w_claims w !! op) as [[|c shared epoch g d answer|]|]; try by apply orderly_sess.
    destruct (claim_commit _ _ _ _ _ _ _ _ _ _ _) as [[[r cl] m] dr] eqn:E.
    apply claim_commit_spec in E as [Hk Hd]; [|by apply Hw]. destruct r; by apply orderly_keeps.
  - cbn [step_claim]. destruct (w_claims w !! op) as [[| |c shared epoch gen d]|]; try by apply orderly_sess.
    pose proof (rollback_sess c shared epoch gen d (w_manager w) (st_drivers (w_state w)) (si_paired _ _ _ _ _ Hw)) as H.
    unfold w_manager in H. destruct (rollback_incoming_claim _ _ _ _ _ _ _) as [[[s|] m] dr].
    + destruct H as (_ & Hi & _ & _ & _ & Hg & Hn). by eapply orderly_removed.
    + destruct H as [Hs _]. by apply orderly_sess.
Qed.

Lemma step_worker_orderly a w : order_ok w -> orderly w (step_worker a w).
Proof.
  intros Ho. unfold step_worker. repeat case_match; (apply orderly_sess; [done| |done]); first [done|apply expire_sess].
Qed.

Lemma step_media_orderly a w : order_ok w -> orderly w (step_media a w).
Proof.
  intros Ho. destruct a; try by apply orderly_sess; cbn [step_media].
  - cbn [step_media]. destruct (create_endpoint _ _ _ _ _ _ _) as [[x next] r]. by apply orderly_sess.
  - cbn [step_media]. destruct (release_endpoint _ _ _) as [[x r] dr]. by apply orderly_sess.
  - split; [|by left]. destruct Ho as [_ _ Hl _ Hsort]. unfold order_ok.
    assert (Hg : grm (w_manager (step_media ACloseAll w)) = ∅).
    { apply map_empty. intros id. destruct (grm _ !! id) as [[g rem]|] eqn:E; [|done].
      apply grm_lookup in E as [E _]. done. }
    rewrite Hg. split; [..|exact Hl| |exact Hsort]; intros *; by rewrite lookup_empty.
  - cbn [step_media]. destruct (st_drivers _ !! d); by apply orderly_sess.
  - cbn [step_media]. destruct (bool_decide _); by apply orderly_sess.
Qed.

Lemma rt_step_orderly a w : world_ok w -> order_ok w -> has_room (w_manager w) -> orderly w (rt_step a w).
Proof.
  intros Hw Ho Hroom. destruct (rt_step_cases a w) as [-> | ->]; [|by apply orderly_sess].
  destruct a; try (by apply step_claim_orderly); try (by apply step_worker_orderly); try (by apply step_media_orderly);
    cbn [rt_section].
  - destruct (_ && _); by apply orderly_sess.
  - pose proof (start_session_order realtime_id peer_id shared_id connection (w_next_driver w) offer (w_state w) _ Hroom Ho) as Hs.
    by destruct (start_session _ _ _ _ _ _ _).
  - apply (owned_gone_orderly realtime_id peer_id d); [done..|]. unfold remove_realtime_session_if_owned.
    by destruct (take_realtime_session_if_owned _ _ _ _) as [[x|] m].
  - apply (owned_gone_orderly realtime_id peer_id d); [done..|]. unfold start_aborted, w_manager.
    by destruct (take_realtime_session_if_owned _ _ _ _) as [[x|] m].
  - unfold stop_session. pose proof (remove_session_spec realtime_id (w_manager w) (si_paired _ _ _ _ _ Hw)) as H.
    unfold w_manager in H. destruct (remove_session _ _) as [[x|] m].
    + destruct H as (_ & Hi & _ & _ & _ & Hg & Hn). by eapply orderly_removed.
    + destruct H as [-> _]. by apply orderly_sess.
  - by apply step_signal_orderly.
  - by apply step_control_orderly.
  - by apply step_provisional_orderly.
  - apply orderly_sess; [done|apply reject_begin_sess|done].
  - apply orderly_sess; [done|apply reject_mark_sess|done].
  - apply orderly_sess; [done|apply reject_finish_sess|done].
  - apply orderly_sess; [done|apply discard_incoming_offer_sess|done].
  - destruct (bool_decide _); [|by apply orderly_sess].
    unfold close_realtime_sessions_for_session, close_for_connection_session_with_hook.
    destruct (close_matching _ _ _) as [[closed m] dr] eqn:E.
    apply (close_matching_order _ _ _ (w_accepted w)) in E as [H1 H2]; [|by apply Hw|done]. split; [done|by left].
Qed.

Lemma world_init_order gen rt wall mono : order_ok (world_init gen rt wall mono).
Proof.
  assert (Hg : grm (w_manager (world_init gen rt wall mono)) = ∅).
  { apply map_empty. intros id. destruct (grm _ !! id) as [[g rem]|] eqn:E; [|done].
    apply grm_lookup in E as [E _]. done. }
  unfold order_ok. rewrite Hg. split; intros *; rewrite ?lookup_empty; try done; [by intros []%not_elem_of_nil|constructor].
Qed.

Lemma rt_run_order l w :
  world_ok w -> order_ok w -> 0 <= next_generation (w_manager w) -> next_generation (w_manager w) + len l < 2 ^ 64 ->
  order_ok (rt_run l w).
Proof.
  revert w. induction l as [|a l IH]; intros w Hw Ho H0 Hlen; [done|]. unfold len in *. cbn [length] in Hlen.
  assert (Hroom : has_room (w_manager w)) by (unfold has_room; lia).
  destruct (rt_step_orderly a w Hw Ho Hroom) as [Ho' Hn]. destruct Hn; apply IH; try done; try lia; by apply rt_step_ok.
Qed.
End Order.
