(* ===== verification/RealtimeShares.v ===== *)
(** * Offers, requests and claims

    What the sections do to the provisional half of the manager, as sequences of a
    few changes; the invariants of the later files are proved change by change. *)
From S2P Require Import Prelude VideoQueue Rtp ScreenVideo MediaQos WebRtcPeer RealtimeWire Realtime RealtimeClaims.
From S2P Require Import RealtimeMedia RealtimeRuns RealtimeProofs RealtimeLeases.

Section Shares.
Context {HF : H264Format} {RC : RealtimeCodec}.
Implicit Types (m : RealtimeManager) (b : ProvisionalScreenShareBinding).

(** The provisional half of the manager, without the flag of the worker. *)
Record PView := mkPView {
  pv_bindings : gmap string ProvisionalScreenShareBinding;
  pv_requests : gmap string ProvisionalPendingRequest;
  pv_replay : gmap string (list ProvisionalReplayEntry);
  pv_epoch : Z;
  pv_wake : bool;
}.

Definition pview m : PView :=
  mkPView (provisional m) (provisional_requests m) (replay_cache m) (provisional_epoch m) (provisional_wake m).

Definition fresh_epoch (e : Z) : Z := let e := wrap 64 (e + 1) in if e =? 0 then 1 else e.

(** The actions remembered of a peer. *)
Definition remembered (c : gmap string (list ProvisionalReplayEntry)) (sender : string) : list ProvisionalReplayEntry :=
  default [] (c !! sender).

Definition ice_bytes (l : list ProvisionalIceCandidate) : Z := foldr (fun i n => len (ic_payload i) + n) 0 l.

(** The queue of candidates is bounded, counted exactly and without repetitions. *)
Definition ice_ok (revision : Z) (l : list ProvisionalIceCandidate) (total : Z) : Prop :=
  len l <= MAX_PROVISIONAL_ICE_CANDIDATES /\ total = ice_bytes l /\ total <= MAX_PROVISIONAL_ICE_TOTAL_BYTES /\ NoDup l
  /\ Forall (fun i => ic_revision i = revision /\ len (ic_payload i) <= MAX_PROVISIONAL_ICE_CANDIDATE_BYTES) l.

(** A request belongs to the offer: same peer, session instance and identifier. *)
Definition request_ok (id peer shared : string) (c : ScreenShareConsentV2) : Prop :=
  sc_realtime_id c = id /\ sc_sender_peer_id c = peer /\ sc_shared_session_instance_id c = shared
  /\ decision_try_from (sc_decision c) = Some DecisionRequest.

Record binding_ok (id : string) b : Prop := {
  bo_id : pb_realtime_id b = id;
  bo_state : pb_state b = Pending \/ pb_state b = Claiming;
  bo_ice : ice_ok (pb_offer_revision b) (pb_ice b) (pb_ice_bytes b);
  bo_request : forall c, pb_request b = Some c -> request_ok id (pb_peer_id b) (pb_shared_id b) c;
  bo_published : pb_published b = bool_decide (is_Some (pb_request b));
  bo_expiry : pb_effective_expires_at_ms b <= pb_binding_expires_at_ms b;
}.

(** What stays when only the queue of candidates or the state changes. *)
Definition binding_kept b b' : Prop :=
  pb_epoch b' = pb_epoch b /\ pb_offer_id b' = pb_offer_id b /\ pb_claim_token b' = pb_claim_token b
  /\ pb_peer_id b' = pb_peer_id b /\ pb_shared_id b' = pb_shared_id b /\ pb_request b' = pb_request b
  /\ pb_deadline b' = pb_deadline b /\ pb_published b' = pb_published b /\ pb_realtime_id b' = pb_realtime_id b
  /\ (pb_state b = Claiming -> pb_state b' = Claiming).

(** One change at time [now], with the offers it publishes, the consent actions it
    accepts and the epochs it uses. *)
Inductive pstep (now : Z) (v : PView) :
    list (Z * IncomingSessionOffer) -> list (ProvisionalReplayKey * Z) -> Z -> PView -> Prop :=
| ps_drop p r wake :
    p ⊆ pv_bindings v -> r ⊆ pv_requests v -> (wake = true \/ wake = pv_wake v) ->
    pstep now v [] [] 0 (mkPView p r (pv_replay v) (pv_epoch v) wake)
| ps_prune c :
    (forall sender, remembered c sender = filter (fun e => now < re_expires_at_ms e) (remembered (pv_replay v) sender)) ->
    pstep now v [] [] 0 (mkPView (pv_bindings v) (pv_requests v) c (pv_epoch v) (pv_wake v))
| ps_remember key :
    key ∉ re_key <$> remembered (pv_replay v) (rk_sender_peer_id key) ->
    len (remembered (pv_replay v) (rk_sender_peer_id key)) < MAX_PROVISIONAL_REPLAY_KEYS_PER_PEER ->
    pstep now v [] [(key, now)] 0
      (mkPView (pv_bindings v) (pv_requests v)
         (<[rk_sender_peer_id key := remembered (pv_replay v) (rk_sender_peer_id key)
              ++ [mkReplayEntry key (saturating_add u64_max now PROVISIONAL_REPLAY_TTL_MS)]]> (pv_replay v))
         (pv_epoch v) (pv_wake v))
| ps_bind id b :
    pv_bindings v !! id = None -> pv_requests v !! id = None ->
    Z.of_nat (size (dom (pv_bindings v) ∪ dom (pv_requests v))) < MAX_PROVISIONAL_OPERATIONS ->
    pb_epoch b = fresh_epoch (pv_epoch v) -> pb_request b = None -> binding_ok id b ->
    pstep now v [] [] 1 (mkPView (<[id := b]> (pv_bindings v)) (pv_requests v) (pv_replay v) (pb_epoch b) true)
| ps_bind_request id b r :
    pv_bindings v !! id = None -> pv_requests v !! id = Some r ->
    pb_epoch b = pr_epoch r -> pb_request b = Some (pr_request r) -> pb_peer_id b = pr_peer_id r ->
    pb_shared_id b = pr_shared_id r ->
    (request_ok id (pr_peer_id r) (pr_shared_id r) (pr_request r) -> binding_ok id b) ->
    pstep now v [(pb_epoch b, incoming_offer b (pr_request r))] [] 0
      (mkPView (<[id := b]> (pv_bindings v)) (delete id (pv_requests v)) (pv_replay v) (pv_epoch v) true)
| ps_update id b b' :
    pv_bindings v !! id = Some b -> binding_kept b b' -> (binding_ok id b -> binding_ok id b') ->
    pstep now v [] [] 0 (mkPView (<[id := b']> (pv_bindings v)) (pv_requests v) (pv_replay v) (pv_epoch v) (pv_wake v))
| ps_attach id b c effective deadline :
    pv_bindings v !! id = Some b -> pb_request b = None -> effective <= pb_effective_expires_at_ms b ->
    request_ok id (pb_peer_id b) (pb_shared_id b) c ->
    pstep now v (if pb_published b then [] else [(pb_epoch b, incoming_offer (set_request c effective deadline b) c)]) [] 0
      (mkPView (<[id := set_request c effective deadline b]> (pv_bindings v)) (pv_requests v) (pv_replay v) (pv_epoch v) true)
| ps_pend id r :
    pv_bindings v !! id = None -> pv_requests v !! id = None ->
    Z.of_nat (size (dom (pv_bindings v) ∪ dom (pv_requests v))) < MAX_PROVISIONAL_OPERATIONS ->
    pr_epoch r = fresh_epoch (pv_epoch v) -> request_ok id (pr_peer_id r) (pr_shared_id r) (pr_request r) ->
    pstep now v [] [] 1 (mkPView (pv_bindings v) (<[id := r]> (pv_requests v)) (pv_replay v) (pr_epoch r) true).

Inductive psteps (now : Z) (v : PView) :
    list (Z * IncomingSessionOffer) -> list (ProvisionalReplayKey * Z) -> Z -> PView -> Prop :=
| psteps_nil : psteps now v [] [] 0 v
| psteps_snoc pub1 acts1 n1 v1 pub2 acts2 n2 v2 :
    psteps now v pub1 acts1 n1 v1 -> pstep now v1 pub2 acts2 n2 v2 -> psteps now v (pub1 ++ pub2) (acts1 ++ acts2) (n1 + n2) v2.

Lemma psteps_one now v pub acts n v' : pstep now v pub acts n v' -> psteps now v pub acts n v'.
Proof. intros H. exact (psteps_snoc now v [] [] 0 v pub acts n v' (psteps_nil now v) H). Qed.

Lemma psteps_trans now v1 v2 v3 pub1 acts1 n1 pub2 acts2 n2 :
  psteps now v1 pub1 acts1 n1 v2 -> psteps now v2 pub2 acts2 n2 v3 -> psteps now v1 (pub1 ++ pub2) (acts1 ++ acts2) (n1 + n2) v3.
Proof.
  intros H1 H2. induction H2 as [|pub2 acts2 n2 v2' pub3 acts3 n3 v3 H2 IH H3].
  - by rewrite !app_nil_r, Z.add_0_r.
  - rewrite !app_assoc, Z.add_assoc. by eapply psteps_snoc.
Qed.

Lemma psteps_quiet now v1 v2 v3 pub acts n :
  psteps now v1 [] [] 0 v2 -> psteps now v2 pub acts n v3 -> psteps now v1 pub acts n v3.
Proof. intros H1 H2. exact (psteps_trans now v1 v2 v3 [] [] 0 pub acts n H1 H2). Qed.

Lemma prov_pview m m' : prov m' = prov m -> pview m' = pview m.
Proof. unfold prov, pview. intros [= -> -> -> -> -> _]. done. Qed.

Lemma pview_same now m m' : pview m' = pview m -> psteps now (pview m) [] [] 0 (pview m').
Proof. intros ->. constructor. Qed.

(** ** Primitive sections *)

Lemma drop_psteps now m m' p r :
  p ⊆ provisional m -> r ⊆ provisional_requests m ->
  (pview m' = mkPView p r (replay_cache m) (provisional_epoch m) true
   \/ pview m' = mkPView p r (replay_cache m) (provisional_epoch m) (provisional_wake m)) ->
  psteps now (pview m) [] [] 0 (pview m').
Proof. intros Hp Hr [-> | ->]; apply psteps_one, (ps_drop now (pview m)); auto. Qed.

Lemma delete_binding_psteps now id m :
  psteps now (pview m) [] [] 0
    (pview (wake_provisional_expiry (set_provisional (delete id (provisional m)) (provisional_requests m) m))).
Proof. eapply drop_psteps; [apply delete_subseteq|done|by left]. Qed.

Lemma prune_psteps now now' m : psteps now (pview m) [] [] 0 (pview (prune_provisional_bindings now' m)).
Proof.
  unfold prune_provisional_bindings.
  set (p := filter (fun kb : string * ProvisionalScreenShareBinding => is_expired now' kb.2 = false) (provisional m)).
  set (r := filter (fun kr : string * ProvisionalPendingRequest => now' < pr_expires_at_ms kr.2) (provisional_requests m)).
  apply (drop_psteps now m _ p r); [apply map_filter_subseteq..|]. case_match; auto.
Qed.

Lemma prune_replay_remembered now m sender :
  remembered (replay_cache (prune_replay_cache now m)) sender
  = filter (fun e => now < re_expires_at_ms e) (remembered (replay_cache m) sender).
Proof.
  unfold remembered, prune_replay_cache. cbn. rewrite lookup_omap.
  destruct (replay_cache m !! sender) as [l|]; [|done]. cbn. by destruct (filter _ l).
Qed.

Lemma prune_replay_psteps now m : psteps now (pview m) [] [] 0 (pview (prune_replay_cache now m)).
Proof. apply psteps_one, (ps_prune now (pview m)). intros sender. apply prune_replay_remembered. Qed.

Lemma remembered_insert c sender l sender' :
  remembered (<[sender := l]> c) sender' = if decide (sender' = sender) then l else remembered c sender'.
Proof.
  unfold remembered. destruct (decide (sender' = sender)) as [->|]; [by rewrite lookup_insert_eq|by rewrite lookup_insert_ne].
Qed.

Lemma remember_psteps key now m :
  match remember_provisional_action key now m with
  | (Ok _, m') => psteps now (pview m) [] [(key, now)] 0 (pview m')
  | (Err _, m') => psteps now (pview m) [] [] 0 (pview m')
  end.
Proof.
  unfold remember_provisional_action. set (m1 := prune_replay_cache now m).
  set (entries := default [] (replay_cache m1 !! rk_sender_peer_id key)).
  assert (Hkeep : psteps now (pview m) [] [] 0 (pview (set_replay (<[rk_sender_peer_id key := entries]> (replay_cache m1)) m1))).
  { apply psteps_one, (ps_prune now (pview m)). intros sender. cbn [pv_replay pview set_replay replay_cache].
    rewrite <-prune_replay_remembered.
    fold m1. rewrite remembered_insert. destruct (decide (sender = _)) as [->|]; done. }
  destruct (bool_decide _) eqn:Hin; [done|]. destruct (_ <=? len _) eqn:Hfull; [done|]. bool_facts.
  eapply psteps_quiet; [apply prune_replay_psteps|]. fold m1.
  apply psteps_one, (ps_remember now (pview m1)); [exact Hin|exact Hfull].
Qed.

(** ** Signals before a claim *)

Local Ltac goal_if := match goal with |- context [if ?c then _ else _] => destruct c end.

(** What a handled signal tells the application, with the epoch. *)
Definition told {E} (id : string) (r : result (option IncomingSessionOffer) E) m' : list (Z * IncomingSessionOffer) :=
  match r, current_provisional_epoch id m' with
  | Ok (Some offer), Some epoch => [(epoch, offer)]
  | _, _ => []
  end.

Lemma current_epoch_binding id m b :
  provisional m !! id = Some b -> current_provisional_epoch id m = Some (pb_epoch b).
Proof. intros H. unfold current_provisional_epoch. by rewrite H. Qed.

Lemma ice_ok_nil revision : ice_ok revision [] 0.
Proof. unfold ice_ok. split_and!; done || constructor. Qed.

Lemma new_binding_ok id peer rev shared payload epoch oid token inst now pending :
  (forall r, pending = Some r -> request_ok id peer shared (pr_request r)) ->
  binding_ok id (new_binding id peer shared rev payload epoch oid token inst now pending).
Proof.
  intros Hr. destruct pending as [r|]; split; cbn; try done; try (by left); try apply ice_ok_nil.
  - intros c [= <-]. by apply Hr.
  - apply Z.le_min_l.
Qed.

Lemma fresh_epoch_spec m : next_provisional_epoch m = (fresh_epoch (provisional_epoch m), set_epoch (fresh_epoch (provisional_epoch m)) m).
Proof. done. Qed.

Lemma provisional_offer_psteps id peer rev shared payload oid token inst now m :
  exists n, 0 <= n <= 1 /\
  match provisional_offer id peer rev shared payload oid token inst now m with
  | (r, m') => psteps now (pview m) (told id r m') [] n (pview m')
  end.
Proof.
  unfold provisional_offer.
  assert (Hsame : forall e : string, exists n, 0 <= n <= 1 /\ psteps now (pview m) (told id (Err e) m) [] n (pview m)).
  { intros e. exists 0. split; [lia|constructor]. }
  destruct (from_utf8 payload); [|apply Hsame]. destruct (description_new Offer _); [|apply Hsame].
  destruct (provisional m !! id) as [b|] eqn:Hb.
  { destruct (_ && _); [|apply Hsame]. exists 0. split; [lia|constructor]. }
  destruct (provisional_requests m !! id) as [r|] eqn:Hr.
  - destruct (negb _ || negb _) eqn:Hc; [apply Hsame|]. rewrite bool_decide_false, andb_false_r by done. cbn zeta beta iota.
    exists 0. split; [lia|]. set (b := new_binding _ _ _ _ _ _ _ _ _ _ _). unfold told.
    rewrite (current_epoch_binding id _ b) by (cbn; apply lookup_insert_eq). bool_facts.
    apply psteps_one, (ps_bind_request now (pview m) id b r); try done; try (cbn; congruence).
    intros Hreq. apply new_binding_ok. intros ? [= <-]. congruence.
  - cbn [orb negb]. rewrite bool_decide_true, andb_true_r by done. destruct (_ <=? _) eqn:Hslots; [apply Hsame|].
    rewrite fresh_epoch_spec. exists 1. split; [lia|]. set (b := new_binding _ _ _ _ _ _ _ _ _ _ _).
    cbn [set_epoch provisional provisional_requests]. rewrite (delete_id (provisional_requests m)) by done.
    apply psteps_one, (ps_bind now (pview m) id b); try done.
    + apply Z.leb_gt in Hslots. exact Hslots.
    + by apply new_binding_ok.
Qed.

Lemma push_ice_kept rev payload b b' id :
  push_ice rev payload b = Ok b' -> binding_kept b b' /\ (binding_ok id b -> binding_ok id b').
Proof.
  unfold push_ice. intros H. destruct (negb _) eqn:H1; [done|]. destruct (_ <? len _) eqn:H2; [done|].
  destruct (_ || _) eqn:H3; [done|]. destruct (bool_decide _) eqn:H4; [done|]. injection H as <-. bool_facts.
  split; [done|]. intros [Hid Hst (Hl & Ht & Hm & Hnd & Hf) Hr Hp He]. split; try done. cbn.
  assert (Hsum : ice_bytes (pb_ice b ++ [mkIce rev payload]) = ice_bytes (pb_ice b) + len payload).
  { unfold ice_bytes. rewrite foldr_app. cbn. clear. induction (pb_ice b); cbn; lia. }
  assert (0 <= ice_bytes (pb_ice b)).
  { unfold ice_bytes, len. clear. induction (pb_ice b); cbn; lia. }
  assert (Hsat : saturating_add u64_max (pb_ice_bytes b) (len payload) = pb_ice_bytes b + len payload).
  { unfold saturating_add, u64_max, MAX_PROVISIONAL_ICE_TOTAL_BYTES, MAX_PROVISIONAL_ICE_CANDIDATE_BYTES, MAX_ICE_CANDIDATE_BYTES, len in *. lia. }
  unfold ice_ok. rewrite Hsat in *. rewrite Hsum. split_and!; [|lia|lia| |].
  - unfold len in *. rewrite length_app. cbn. lia.
  - apply NoDup_app. split_and!; [done| |apply NoDup_singleton]. intros i Hi ->%list_elem_of_singleton. done.
  - apply Forall_app. split; [done|]. repeat constructor; cbn; lia.
Qed.

Lemma provisional_candidate_psteps id peer rev shared payload now m :
  match provisional_candidate id peer rev shared payload m with
  | (r, m') => psteps now (pview m) (told id r m') [] 0 (pview m')
  end.
Proof.
  unfold provisional_candidate. destruct (provisional m !! id) as [b|] eqn:Hb; [|constructor].
  destruct (_ || _); [constructor|]. destruct (push_ice rev payload b) as [b'|e] eqn:Hp; [|constructor].
  destruct (push_ice_kept _ _ _ _ id Hp) as [Hk Ho]. by apply psteps_one, (ps_update now (pview m) id b b').
Qed.

(** The consent actions accepted when a handler answers [r]. *)
Definition noted {A E} (r : result A E) (key : ProvisionalReplayKey) (now : Z) : list (ProvisionalReplayKey * Z) :=
  match r with Ok _ => [(key, now)] | Err _ => [] end.

(** Remembering an action leaves the offers and requests. *)
Lemma remember_entries key now m :
  let m' := (remember_provisional_action key now m).2 in
  provisional m' = provisional m /\ provisional_requests m' = provisional_requests m
  /\ provisional_epoch m' = provisional_epoch m.
Proof. unfold remember_provisional_action. by repeat case_match. Qed.

Lemma provisional_request_psteps dev id peer c inst now m :
  request_ok id peer (sc_shared_session_instance_id c) c ->
  exists n, 0 <= n <= 1 /\
  match provisional_request dev id peer c inst now m with
  | (r, m') => psteps now (pview m) (told id r m') (noted r (replay_key dev id peer c) now) n (pview m')
  end.
Proof.
  intros Hc. unfold provisional_request. set (key := replay_key dev id peer c).
  assert (Hsame : forall e : string, exists n, 0 <= n <= 1 /\
    psteps now (pview m) (told id (Err e) m) (noted (Err e : result (option IncomingSessionOffer) string) key now) n (pview m)).
  { intros e. exists 0. split; [lia|constructor]. }
  pose proof (remember_psteps key now m) as Hrem. pose proof (remember_entries key now m) as Hent.
  destruct (negb _); [apply Hsame|].
  destruct (provisional m !! id) as [b|] eqn:Hb.
  - destruct (negb _ || negb _ || negb _) eqn:Hmis; [apply Hsame|].
    destruct (pb_request b) as [existing|] eqn:Hreq; [goal_if; apply Hsame|].
    destruct (remember_provisional_action key now m) as [[u|e] m1]; cbn [snd] in Hent;
      [|exists 0; split; [lia|]; exact Hrem].
    destruct Hent as (Hp & Hr & He). exists 0. split; [lia|]. bool_facts.
    set (effective := Z.min _ _). set (deadline := provisional_deadline _ _ _).
    unfold told. rewrite (current_epoch_binding id _ (set_request c effective deadline b)) by (cbn; apply lookup_insert_eq).
    assert (Hattach : psteps now (pview m1)
      (if pb_published b then [] else [(pb_epoch b, incoming_offer (set_request c effective deadline b) c)]) [] 0
      (pview (wake_provisional_expiry (set_provisional (<[id := set_request c effective deadline b]> (provisional m1))
        (provisional_requests m1) m1)))).
    { apply psteps_one, (ps_attach now (pview m1) id b c); [by cbn; rewrite Hp|done|apply Z.le_min_l|congruence]. }
    pose proof (psteps_trans _ _ _ _ _ _ _ _ _ _ Hrem Hattach) as Hall. cbn [app Z.add] in Hall. by destruct (pb_published b).
  - destruct (_ && _) eqn:Hslots; [apply Hsame|].
    destruct (provisional_requests m !! id) as [existing|] eqn:Hreq; [goal_if; apply Hsame|].
    destruct (remember_provisional_action key now m) as [[u|e] m1]; cbn [snd] in Hent;
      [|exists 0; split; [lia|]; exact Hrem].
    destruct Hent as (Hp & Hr & He). rewrite fresh_epoch_spec. exists 1. split; [lia|].
    rewrite bool_decide_true, andb_true_r in Hslots by done. apply Z.leb_gt in Hslots.
    set (r := mkPendingRequest _ _ _ _ _ _).
    apply (psteps_trans now _ (pview m1) _ [] [(key, now)] 0 [] [] 1); [exact Hrem|].
    apply psteps_one, (ps_pend now (pview m1) id r); cbn; try done; rewrite ?Hp, ?Hr; done.
Qed.

Lemma provisional_cancel_psteps dev id peer c now m :
  match provisional_cancel dev id peer c now m with
  | (r, m') => psteps now (pview m) (told id r m') (noted r (replay_key dev id peer c) now) 0 (pview m')
  end.
Proof.
  unfold provisional_cancel. set (key := replay_key dev id peer c). set (mb := match provisional m !! id with Some _ => _ | None => _ end).
  set (mr := match provisional_requests m !! id with Some _ => _ | None => _ end).
  pose proof (remember_psteps key now m) as Hrem.
  destruct (_ && _); [constructor|]. destruct (cancel_revision_ok _ _ _ _); [|constructor].
  destruct (remember_provisional_action key now m) as [[u|e] m1]; [|exact Hrem].
  apply (psteps_trans now _ (pview m1) _ [] [(key, now)] 0 [] [] 0); [exact Hrem|].
  destruct mb; eapply drop_psteps; [apply delete_subseteq|done|by left|done|apply delete_subseteq|by left].
Qed.

Lemma validated_consent payload id sender shared now c :
  validate_screen_share_consent_at payload id (Some sender) (Some shared) now = Ok c ->
  decode_consent payload = Some c /\ sc_realtime_id c = id /\ sc_sender_peer_id c = sender
  /\ sc_shared_session_instance_id c = shared /\ now < sc_expires_at_ms c.
Proof.
  unfold validate_screen_share_consent_at, differs. intros H. repeat (case_match; try done);
    simplify_eq/=; bool_facts; done.
Qed.

Lemma provisional_consent_psteps dev id peer shared payload inst now read m :
  exists n, 0 <= n <= 1 /\
  match provisional_consent dev id peer shared payload inst now read m with
  | (r, m') =>
    psteps now (pview m) (told id r m')
      (match decode_consent payload with Some c => noted r (replay_key dev id peer c) now | None => [] end) n (pview m')
  end.
Proof.
  unfold provisional_consent. set (expected := match provisional m !! id with Some _ => _ | None => _ end).
  assert (Hsame : forall e : string, exists n, 0 <= n <= 1 /\
    psteps now (pview m) (told id (Err e) m) (match decode_consent payload with
      | Some c => noted (Err e : result (option IncomingSessionOffer) string) (replay_key dev id peer c) now | None => [] end) n (pview m)).
  { intros e. exists 0. split; [lia|]. destruct (decode_consent payload); constructor. }
  destruct (validate_screen_share_consent_at _ _ _ _ _) as [c|e] eqn:Hv; [|apply Hsame].
  apply validated_consent in Hv as (Hdec & Hid & Hsender & Hshared & _).
  destruct (decision_try_from (sc_decision c)) as [[]|] eqn:Hd; try apply Hsame; rewrite Hdec.
  - apply provisional_request_psteps. by split_and!.
  - exists 0. split; [lia|]. apply provisional_cancel_psteps.
Qed.

Lemma provisional_close_psteps id peer shared now m :
  match provisional_close id peer shared m with
  | (r, m') => psteps now (pview m) (told id r m') [] 0 (pview m')
  end.
Proof.
  unfold provisional_close.
  set (ob := match provisional m !! id with Some _ => _ | None => _ end).
  set (orq := match provisional_requests m !! id with Some _ => _ | None => _ end).
  assert (Hb : (if ob then delete id (provisional m) else provisional m) ⊆ provisional m).
  { destruct ob; [apply delete_subseteq|done]. }
  assert (Hr : (if orq then delete id (provisional_requests m) else provisional_requests m) ⊆ provisional_requests m).
  { destruct orq; [apply delete_subseteq|done]. }
  apply (drop_psteps now m _ _ _ Hb Hr). destruct (_ || _); auto.
Qed.

Lemma provisional_signal_psteps dev g oid token inst now read m :
  exists n, 0 <= n <= 1 /\
  match provisional_signal dev (rg_kind g) (rg_realtime_id g) (rg_peer_id g) (rg_revision g) (rg_shared_id g) (rg_payload g)
          oid token inst now read m with
  | (r, m') =>
    psteps now (pview m) (told (rg_realtime_id g) r m')
      (match rg_kind g, consent_key dev g with SkScreenShareConsent, Some key => noted r key now | _, _ => [] end) n (pview m')
  end.
Proof.
  unfold provisional_signal, consent_key. pose proof (prune_psteps now now m) as Hprune.
  set (m1 := prune_provisional_bindings now m) in *.
  destruct (rg_kind g); try (exists 0; split; [lia|]; exact Hprune).
  - destruct (provisional_offer_psteps (rg_realtime_id g) (rg_peer_id g) (rg_revision g) (rg_shared_id g) (rg_payload g)
      oid token inst now m1) as (n & Hn & H). exists n. split; [done|]. destruct (provisional_offer _ _ _ _ _ _ _ _ _ _).
    by eapply psteps_quiet.
  - exists 0. split; [lia|]. pose proof (provisional_candidate_psteps (rg_realtime_id g) (rg_peer_id g) (rg_revision g)
      (rg_shared_id g) (rg_payload g) now m1) as H. destruct (provisional_candidate _ _ _ _ _ _). by eapply psteps_quiet.
  - exists 0. split; [lia|]. pose proof (provisional_close_psteps (rg_realtime_id g) (rg_peer_id g) (rg_shared_id g) now m1) as H.
    destruct (provisional_close _ _ _ _). by eapply psteps_quiet.
  - destruct (provisional_consent_psteps dev (rg_realtime_id g) (rg_peer_id g) (rg_shared_id g) (rg_payload g) inst now read m1)
      as (n & Hn & H). exists n. split; [done|]. destruct (provisional_consent _ _ _ _ _ _ _ _ _) as [r m2].
    destruct (decode_consent (rg_payload g)); by eapply psteps_quiet.
Qed.

(** ** Claims, rejections and the worker *)

(** Sections that publish nothing, accept no action and use no epoch. *)
Definition quiet (now : Z) m m' : Prop := psteps now (pview m) [] [] 0 (pview m').

Lemma quiet_trans now m1 m2 m3 : quiet now m1 m2 -> quiet now m2 m3 -> quiet now m1 m3.
Proof. apply psteps_quiet. Qed.

Lemma quiet_prov now m m' : prov m' = prov m -> quiet now m m'.
Proof. intros H. by apply pview_same, prov_pview. Qed.

Lemma quiet_refl now m : quiet now m m.
Proof. by apply quiet_prov. Qed.

(** A binding replaced by one with another state or an empty queue. *)
Lemma quiet_state now id b m st ice total :
  provisional m !! id = Some b -> st = pb_state b \/ st = Claiming ->
  (ice = [] /\ total = 0) \/ (ice = pb_ice b /\ total = pb_ice_bytes b) ->
  quiet now m (set_provisional (<[id := set_ice ice total (set_state st b)]> (provisional m)) (provisional_requests m) m).
Proof.
  intros Hb Hst Hice. apply psteps_one, (ps_update now (pview m) id b); [done| |].
  { unfold binding_kept. cbn. split_and!; try done. intros Hc. destruct Hst; congruence. }
  intros [Hid Hs Hi Hr Hp He]. split; cbn; try done.
  - destruct Hst as [-> | ->]; auto.
  - destruct Hice as [[-> ->]|[-> ->]]; [apply ice_ok_nil|done].
Qed.

Lemma take_provisional_claim_quiet now id token epoch m : quiet now m (take_provisional_claim id token epoch m).2.
Proof.
  unfold take_provisional_claim. destruct (provisional m !! id) as [b|]; [|apply quiet_refl].
  destruct (claim_matches _ _ _); [apply delete_binding_psteps|apply quiet_refl].
Qed.

Lemma claim_begin_quiet now c m : quiet now m (claim_begin c now m).2.
Proof.
  unfold claim_begin. eapply quiet_trans; [apply (prune_psteps now now)|].
  set (m1 := prune_provisional_bindings now m).
  destruct (provisional m1 !! cc_realtime_id c) as [b|] eqn:Hb; [|apply quiet_refl].
  destruct (negb _ || _ || _ || _ || _); [apply quiet_refl|]. by apply (quiet_state now _ b); auto.
Qed.

Lemma reject_begin_quiet now c m : quiet now m (reject_begin c now m).2.
Proof.
  unfold reject_begin. eapply quiet_trans; [apply (prune_psteps now now)|]. repeat case_match; apply quiet_refl.
Qed.

Lemma reject_mark_quiet now c m : quiet now m (reject_mark c m).2.
Proof.
  unfold reject_mark. destruct (provisional m !! cc_realtime_id c) as [b|] eqn:Hb; [|apply quiet_refl].
  destruct (_ && _); [|apply quiet_refl].
  assert (Hs : set_state Claiming b = set_ice (pb_ice b) (pb_ice_bytes b) (set_state Claiming b)) by done.
  rewrite Hs. apply quiet_state; auto.
Qed.

Lemma reject_finish_quiet now c m : quiet now m (reject_finish c m).
Proof.
  unfold reject_finish. destruct (provisional m !! cc_realtime_id c) as [b|]; [|apply quiet_refl].
  destruct (_ && _); [apply delete_binding_psteps|apply quiet_refl].
Qed.

Lemma discard_quiet now c m : quiet now m (discard_incoming_offer c m).2.
Proof.
  unfold discard_incoming_offer. destruct (provisional m !! cc_realtime_id c) as [b|]; [|apply quiet_refl].
  destruct (_ || _); [apply quiet_refl|apply delete_binding_psteps].
Qed.

Lemma expire_quiet now id epoch inst m : quiet now m (expire id epoch inst now m).
Proof.
  unfold expire. eapply quiet_trans; [|apply prune_replay_psteps].
  destruct (_ && _); [|apply quiet_refl]. eapply drop_psteps; [apply delete_subseteq|apply delete_subseteq|by right].
Qed.

Lemma commit_drain_quiet now fuel c shared epoch rtc m dr r m' dr' :
  paired m -> commit_drain fuel c shared epoch rtc m dr = Some (r, m', dr') -> quiet now m m'.
Proof.
  revert m dr. induction fuel as [|fuel IH]; intros m dr Hp H; [done|]. cbn in H.
  destruct (provisional m !! _) as [b|] eqn:Hb; [|injection H as <- <- <-; apply quiet_refl].
  destruct (negb _); [injection H as <- <- <-; apply quiet_refl|].
  set (m1 := set_provisional _ _ m) in H.
  assert (Hq : quiet now m m1).
  { unfold m1. assert (Hs : set_ice [] 0 b = set_ice [] 0 (set_state (pb_state b) b)) by done.
    rewrite Hs. apply quiet_state; auto. }
  destruct (pb_ice b) as [|i l]; [by injection H as <- <- <-|].
  destruct (apply_candidates _ _ _ _ _ _ _) as [[r2 m2] dr2] eqn:E2.
  apply apply_candidates_spec in E2 as (Hk & Hpr & _); [|done].
  assert (Hq2 : quiet now m m2) by (eapply quiet_trans; [done|by apply quiet_prov]).
  destruct r2; [|by injection H as <- <- <-].
  eapply quiet_trans; [done|]. eapply IH; [|done]. by eapply keeps_paired.
Qed.

Lemma claim_commit_quiet now c shared epoch g d answer t1 t2 rtc m dr r close m' dr' :
  paired m -> claim_commit c shared epoch g d answer t1 t2 rtc m dr = (r, close, m', dr') -> quiet now m m'.
Proof.
  intros Hp H. unfold claim_commit in H.
  destruct (commit_incoming_claim _ _ _ _ _ _ _ _ _ _) as [[r1 m1] dr1] eqn:E1.
  assert (Hq : quiet now m m1).
  { unfold commit_incoming_claim in E1. destruct (negb _ || negb _); [injection E1 as <- <- <-; apply quiet_refl|].
    destruct (commit_drain 2 c shared epoch rtc m dr) as [[[r2 m2] dr2]|] eqn:E2; cbn [default from_option id] in E1.
    - assert (Hq : quiet now m m2) by by eapply commit_drain_quiet.
      destruct r2; [|by injection E1 as <- <- <-]. destruct (negb _ || negb _); [by injection E1 as <- <- <-|].
      injection E1 as <- <- <-. eapply quiet_trans; [done|apply delete_binding_psteps].
    - destruct (negb _ || negb _); injection E1 as <- <- <-; [apply quiet_refl|apply delete_binding_psteps]. }
  destruct r1; [by injection H as <- <- <- <-|].
  assert (Hn : prov (next_claim_close_signal c shared answer g d m1).2 = prov m1).
  { unfold next_claim_close_signal. by repeat case_match. }
  destruct (next_claim_close_signal _ _ _ _ _ _) as [cl m2]. injection H as <- <- <- <-.
  eapply quiet_trans; [done|]. by apply quiet_prov.
Qed.

Lemma rollback_quiet now c shared epoch gen d m dr :
  paired m -> quiet now m (rollback_incoming_claim c shared epoch gen d m dr).1.2.
Proof.
  intros Hp. unfold rollback_incoming_claim.
  pose proof (take_provisional_claim_sess (cc_realtime_id c) (cc_claim_token c) epoch m) as Ht.
  pose proof (take_provisional_claim_quiet now (cc_realtime_id c) (cc_claim_token c) epoch m) as Hq.
  destruct (take_provisional_claim _ _ _ _) as [t m1]. cbn [snd] in *. destruct (sess_idg _ _ Ht) as [_ Hp1].
  destruct (match gen with Some _ => _ | None => _ end); [|done].
  pose proof (take_if_owned_spec (cc_realtime_id c) (cc_peer_id c) d m1 (Hp1 Hp)) as H.
  destruct (take_realtime_session_if_owned _ _ _ _) as [[s|] m2]; cbn [fst snd].
  - destruct H as (_ & _ & _ & _ & _ & Hpr & _). eapply quiet_trans; [done|by apply quiet_prov].
  - by destruct H as [-> _].
Qed.

Lemma remove_session_prov id m : prov (remove_session id m).2 = prov m.
Proof. unfold remove_session. by case_match. Qed.

Lemma close_matching_prov l m dr closed m' dr' :
  close_matching l m dr = (closed, m', dr') -> prov m' = prov m.
Proof.
  revert m dr closed. induction l as [|id l IH]; intros m dr closed H; cbn in H; [by injection H as <- <- <-|].
  pose proof (remove_session_prov id m) as Hrm.
  destruct (remove_session id m) as [[x|] m1]; cbn [snd] in Hrm.
  - destruct (close_matching l m1 _) as [[closed1 m2] dr2] eqn:E. injection H as <- <- <-. rewrite <-Hrm. by eapply IH.
  - rewrite <-Hrm. by eapply IH.
Qed.

Lemma connection_lost_quiet now order peer n s :
  quiet now (st_manager s) (st_manager (close_realtime_sessions_for_session order peer n s).2).
Proof.
  unfold close_realtime_sessions_for_session, close_for_connection_session_with_hook.
  destruct (close_matching _ _ _) as [[closed m] dr] eqn:E. apply close_matching_prov in E. cbn [snd st_manager].
  eapply quiet_trans; [|by apply quiet_prov].
  set (p := filter (fun kb : string * ProvisionalScreenShareBinding => pb_peer_id kb.2 ≠ peer) (provisional (st_manager s))).
  set (r := filter (fun kr : string * ProvisionalPendingRequest => pr_peer_id kr.2 ≠ peer) (provisional_requests (st_manager s))).
  apply (drop_psteps now (st_manager s) _ p r); [apply map_filter_subseteq..|by left].
Qed.

(** A control signal during a claim; a consent it handles is accepted. *)
Lemma claiming_control_psteps dev g now m :
  paired m ->
  match handle_claiming_control_signal dev (rg_kind g) (rg_realtime_id g) (rg_peer_id g) (rg_revision g) (rg_shared_id g)
          (rg_payload g) now now m with
  | (Ok (true, _), m') =>
    psteps now (pview m) [] (match rg_kind g, consent_key dev g with SkScreenShareConsent, Some key => [(key, now)] | _, _ => [] end)
      0 (pview m')
  | (_, m') => quiet now m m'
  end.
Proof.
  intros Hp. unfold handle_claiming_control_signal.
  destruct (validate_signal _ _ _); [|apply quiet_refl].
  destruct (provisional m !! rg_realtime_id g) as [b|]; [|apply quiet_refl].
  destruct (negb _ || negb _ || negb _); [apply quiet_refl|].
  destruct (rg_kind g); try apply quiet_refl.
  - unfold claiming_close. set (exact := match rt_sessions m !! _ with Some _ => _ | None => _ end).
    destruct (_ && _); [apply quiet_refl|].
    pose proof (take_provisional_claim_quiet now (rg_realtime_id g) (pb_claim_token b) (pb_epoch b) m) as Hq.
    destruct (take_provisional_claim _ _ _ _) as [t m1]. destruct exact; [|exact Hq].
    destruct (session_generation _ m1); [|exact Hq].
    pose proof (remove_session_prov (rg_realtime_id g) m1) as Hrm.
    destruct (remove_session _ m1) as [[x|] m2]; cbn [snd] in *; (eapply quiet_trans; [exact Hq|by apply quiet_prov]).
  - unfold claiming_cancel, consent_key.
    destruct (validate_screen_share_consent_at _ _ _ _ _) as [c|e] eqn:Hv; [|apply quiet_refl].
    apply validated_consent in Hv as (Hdec & _). rewrite Hdec. cbn [fmap option_fmap option_map].
    destruct (negb _); [apply quiet_refl|]. destruct (negb _); [apply quiet_refl|].
    destruct (cancel_revision_ok _ _ _ _); [|apply quiet_refl].
    set (key := replay_key _ _ _ _). pose proof (remember_psteps key now m) as Hrem.
    destruct (remember_provisional_action key now m) as [[u|e] m1]; [|exact Hrem].
    apply (psteps_trans now _ (pview m1) _ [] [(key, now)] 0 [] [] 0); [exact Hrem|apply delete_binding_psteps].
Qed.
End Shares.
