(* ===== verification/RealtimePairing.v ===== *)
(** * Pairing offers with requests

    The invariants of the provisional offers along a run: their bounds, the pairing
    of an offer with the request of the same peer and session instance, that an
    offer is told to the application once and claimed at most once, and that a
    consent action is accepted once. *)
From S2P Require Import Prelude VideoQueue Rtp ScreenVideo MediaQos WebRtcPeer RealtimeWire Realtime RealtimeClaims.
From S2P Require Import RealtimeMedia RealtimeRuns RealtimeProofs RealtimeLeases RealtimeShares.

Section Pairing.
Context {HF : H264Format} {RC : RealtimeCodec}.
Implicit Types (m : RealtimeManager) (w : RtWorld) (v : PView).

(** ** Steps as changes *)

(** A step is a sequence of changes at the time of the clock; what it publishes and
    accepts is recorded. *)
Definition advances w w' : Prop :=
  exists pub acts n, 0 <= n <= 1
    /\ psteps (w_wall w) (pview (w_manager w)) pub acts n (pview (w_manager w'))
    /\ w_published w' = w_published w ++ pub /\ w_actions w' = w_actions w ++ acts.

Lemma advances_quiet w w' :
  quiet (w_wall w) (w_manager w) (w_manager w') -> w_published w' = w_published w -> w_actions w' = w_actions w ->
  advances w w'.
Proof. intros Hq Hp Ha. exists [], [], 0. rewrite !app_nil_r. split_and!; done || lia. Qed.

Lemma advances_prov w w' :
  prov (w_manager w') = prov (w_manager w) -> w_published w' = w_published w -> w_actions w' = w_actions w -> advances w w'.
Proof. intros Hp. by apply advances_quiet, quiet_prov. Qed.

Lemma step_provisional_advances dev x oid token w : advances w (step_provisional dev x oid token w).
Proof.
  unfold step_provisional.
  destruct (provisional_signal_psteps dev x oid token (w_mono w) (w_wall w) (w_wall w) (w_manager w)) as (n & Hn & H).
  destruct (provisional_signal _ _ _ _ _ _ _ _ _ _ _ _ _) as [r m]. unfold told in H.
  exists (told (rg_realtime_id x) r m),
    (match rg_kind x, consent_key dev x with SkScreenShareConsent, Some key => noted r key (w_wall w) | _, _ => [] end), n.
  unfold told, log_consent, noted in *. destruct r as [published|e].
  - destruct published as [o|], (current_provisional_epoch (rg_realtime_id x) m), (rg_kind x), (consent_key dev x);
      cbn in *; rewrite ?app_nil_r; split_and!; done || lia.
  - destruct (rg_kind x), (consent_key dev x); cbn in *; rewrite ?app_nil_r; split_and!; done || lia.
Qed.

Lemma step_control_advances dev x w : world_ok w -> advances w (step_control dev x w).
Proof.
  intros Hw. unfold step_control.
  pose proof (claiming_control_psteps dev x (w_wall w) (w_manager w) (si_paired _ _ _ _ _ Hw)) as H.
  destruct (handle_claiming_control_signal _ _ _ _ _ _ _ _ _ _) as [[[[] closed]|e] m]; [|by apply advances_quiet..].
  exists [], (match rg_kind x, consent_key dev x with SkScreenShareConsent, Some key => [(key, w_wall w)] | _, _ => [] end), 0.
  unfold log_consent. destruct closed as [[s g]|], (rg_kind x), (consent_key dev x); cbn in *; rewrite ?app_nil_r;
    split_and!; done || lia.
Qed.

Lemma step_apply_prov x fresh conn rtc w :
  rg_kind x ≠ SkWebRtcClose -> world_ok w -> prov (w_manager (step_apply x fresh conn rtc w)) = prov (w_manager w).
Proof.
  intros Hk Hw. unfold step_apply, signal_section. set (s0 := if fresh then mkRt _ _ _ else _).
  assert (Hm0 : st_manager s0 = w_manager w) by by destruct fresh.
  destruct (apply_signal_with_driver _ _ _ _ _ _ _ _) as [[r m] dr] eqn:E.
  apply apply_signal_effect in E as (_ & Hp & _); [|rewrite Hm0; by apply Hw|done]. rewrite Hm0 in Hp.
  by destruct r as [o|e]; [destruct (bool_decide _)|]; destruct fresh.
Qed.

Lemma step_signal_advances x fresh conn rtc w : world_ok w -> advances w (step_signal x fresh conn rtc w).
Proof.
  intros Hw.
  assert (Hlogs : w_published (step_signal x fresh conn rtc w) = w_published w
    /\ w_actions (step_signal x fresh conn rtc w) = w_actions w).
  { unfold step_signal, step_apply. repeat case_match; done. }
  destruct Hlogs as [Hl1 Hl2]. apply advances_prov; [|done..]. clear Hl1 Hl2. unfold step_signal.
  destruct (rg_kind x) eqn:Hk; try (apply step_apply_prov; [by rewrite Hk|done]); [|done].
  unfold close_remote_realtime_session. pose proof (take_remote_closed_spec (rg_realtime_id x) (rg_peer_id x)
    (rg_revision x) (rg_shared_id x) (w_manager w) (si_paired _ _ _ _ _ Hw)) as H. unfold w_manager in H.
  destruct (take_remote_closed_session _ _ _ _ _) as [[[s n]|e] m]; [|by subst m].
  by destruct H as (_ & _ & _ & _ & _ & _ & _ & Hp & _).
Qed.

Lemma step_claim_advances a w : world_ok w -> advances w (step_claim a w).
Proof.
  intros Hw.
  destruct a as [| | | | | | | |? op c|op|op conn rtc rtc_ice|op|op rtc_ice|op| | | | | | | | | | | | | | | |];
    try by apply advances_prov.
  - cbn [step_claim]. pose proof (claim_begin_quiet (w_wall w) c (w_manager w)) as Hq.
    destruct (w_claims w !! op); [by apply advances_prov|].
    destruct (claim_begin _ _ _) as [[start|e] m]; by apply advances_quiet.
  - cbn [step_claim]. destruct (w_claims w !! op) as [[c start| |]|]; try by apply advances_prov.
    pose proof (take_provisional_claim_quiet (w_wall w) (cc_realtime_id c) (cc_claim_token c) (cs_epoch start) (w_manager w)) as Ht.
    destruct (take_provisional_claim _ _ _ _) as [t m]. by apply advances_quiet.
  - cbn [step_claim]. destruct (w_claims w !! op) as [[c start| |]|]; try by apply advances_prov.
    unfold step_claim_apply. destruct (claim_apply _ _ _ _ _ _ _ _ _) as [[r m] dr] eqn:E.
    apply claim_apply_effect in E as (Hp & _ & _); [|by apply Hw].
    destruct r as [o|[[g|] e]]; [destruct (so_outbound o)|..]; by apply advances_prov.
  - cbn [step_claim]. destruct (w_claims w !! op) as [[]|]; by apply advances_prov.
  - cbn [step_claim]. destruct (w_claims w !! op) as [[|c shared epoch g d answer|]|]; try by apply advances_prov.
    destruct (claim_commit _ _ _ _ _ _ _ _ _ _ _) as [[[r cl] m] dr] eqn:E.
    apply (claim_commit_quiet (w_wall w)) in E; [|by apply Hw]. destruct r; by apply advances_quiet.
  - cbn [step_claim]. destruct (w_claims w !! op) as [[| |c shared epoch gen d]|]; try by apply advances_prov.
    pose proof (rollback_quiet (w_wall w) c shared epoch gen d (w_manager w) (st_drivers (w_state w)) (si_paired _ _ _ _ _ Hw)) as H.
    unfold w_manager in H. destruct (rollback_incoming_claim _ _ _ _ _ _ _) as [[removed m] dr]. by apply advances_quiet.
Qed.

Lemma step_worker_advances a w : a ≠ AWorkerWake -> advances w (step_worker a w).
Proof.
  intros Ha. unfold step_worker. destruct a; try by apply advances_prov.
  - destruct (w_worker w); try by apply advances_prov. destruct (expiry_worker_started _); [by apply advances_prov|].
    by apply advances_quiet; [apply pview_same|..].
  - destruct spawned, (w_worker w); try by apply advances_prov. by apply advances_quiet; [apply pview_same|..].
  - destruct (w_worker w); try by apply advances_prov. destruct (_ && _); by apply advances_prov.
  - destruct (w_worker w) as [| | |[[[id epoch] deadline]|]]; try by apply advances_prov.
    destruct (_ <=? _); [|by apply advances_prov]. apply advances_quiet; [apply expire_quiet|done..].
Qed.

Lemma step_media_advances a w : advances w (step_media a w).
Proof.
  destruct a; try by apply advances_prov; cbn [step_media].
  - cbn [step_media]. destruct (create_endpoint _ _ _ _ _ _ _) as [[x next] r]. by apply advances_prov.
  - cbn [step_media]. destruct (release_endpoint _ _ _) as [[x r] dr]. by apply advances_prov.
  - apply advances_quiet; [|done..].
    eapply drop_psteps; [apply map_empty_subseteq|apply map_empty_subseteq|by left].
  - cbn [step_media]. destruct (st_drivers _ !! d); by apply advances_prov.
  - cbn [step_media]. destruct (bool_decide _); by apply advances_prov.
Qed.

Lemma take_if_owned_prov id peer d m : prov (take_realtime_session_if_owned id peer d m).2 = prov m.
Proof.
  unfold take_realtime_session_if_owned. destruct (rt_sessions m !! id); [|done].
  destruct (owns_driver _ _ _); [apply remove_session_prov|done].
Qed.

Lemma rt_step_advances a w : world_ok w -> a ≠ AWorkerWake -> advances w (rt_step a w).
Proof.
  intros Hw Ha. destruct (rt_step_cases a w) as [-> | ->]; [|by apply advances_prov].
  destruct a; try (by apply step_claim_advances); try (by apply step_worker_advances); try (by apply step_media_advances);
    cbn [rt_section].
  - destruct (_ && _); by apply advances_prov.
  - unfold start_session. destruct (create_offer _ _) as [[o|e] p]; [|by apply advances_prov].
    destruct (rt_sessions _ !! _); by apply advances_prov.
  - unfold remove_realtime_session_if_owned. pose proof (take_if_owned_prov realtime_id peer_id d (w_manager w)) as H.
    unfold w_manager in H. destruct (take_realtime_session_if_owned _ _ _ _) as [[x|] m]; by apply advances_prov.
  - unfold start_aborted. pose proof (take_if_owned_prov realtime_id peer_id d (w_manager w)) as H.
    unfold w_manager in H. destruct (take_realtime_session_if_owned _ _ _ _) as [[x|] m]; by apply advances_prov.
  - unfold stop_session. pose proof (remove_session_prov realtime_id (w_manager w)) as H.
    unfold w_manager in H. destruct (remove_session _ _) as [[x|] m]; by apply advances_prov.
  - by apply step_signal_advances.
  - by apply step_control_advances.
  - by apply step_provisional_advances.
  - apply advances_quiet; [apply reject_begin_quiet|done..].
  - apply advances_quiet; [apply reject_mark_quiet|done..].
  - apply advances_quiet; [apply reject_finish_quiet|done..].
  - apply advances_quiet; [apply discard_quiet|done..].
  - destruct (bool_decide _); [|by apply advances_prov]. apply advances_quiet; [apply connection_lost_quiet|done..].
Qed.

(** ** Bounds *)

(** The entries that hold a slot. *)
Definition slots v : gset string := dom (pv_bindings v) ∪ dom (pv_requests v).

Record bounds_inv v : Prop := {
  bi_bindings : forall id b, pv_bindings v !! id = Some b -> binding_ok id b;
  bi_requests : forall id r, pv_requests v !! id = Some r -> request_ok id (pr_peer_id r) (pr_shared_id r) (pr_request r);
  bi_disjoint : forall id b r, pv_bindings v !! id = Some b -> pv_requests v !! id = Some r -> False;
  bi_slots : Z.of_nat (size (slots v)) <= MAX_PROVISIONAL_OPERATIONS;
  bi_replay : forall sender, len (remembered (pv_replay v) sender) <= MAX_PROVISIONAL_REPLAY_KEYS_PER_PEER;
}.

Lemma slots_mono v v' :
  slots v' ⊆ slots v -> Z.of_nat (size (slots v)) <= MAX_PROVISIONAL_OPERATIONS ->
  Z.of_nat (size (slots v')) <= MAX_PROVISIONAL_OPERATIONS.
Proof. intros H%subseteq_size. lia. Qed.

Lemma slots_add v v' id :
  slots v' ⊆ {[id]} ∪ slots v -> Z.of_nat (size (slots v)) < MAX_PROVISIONAL_OPERATIONS ->
  Z.of_nat (size (slots v')) <= MAX_PROVISIONAL_OPERATIONS.
Proof.
  intros H%subseteq_size Hlt. assert (size ({[id]} ∪ slots v) <= 1 + size (slots v))%nat; [|lia].
  rewrite size_union_alt, size_singleton. pose proof (subseteq_size (slots v ∖ {[id]}) (slots v) ltac:(set_solver)). lia.
Qed.

Lemma set_request_ok id b c effective deadline :
  effective <= pb_effective_expires_at_ms b -> request_ok id (pb_peer_id b) (pb_shared_id b) c -> binding_ok id b ->
  binding_ok id (set_request c effective deadline b).
Proof.
  intros Heff Hc [Hid Hs Hi Hr Hp He]. split; try done; cbn; [|lia]. by intros ? [= <-].
Qed.

Lemma len_filter_le (P : ProvisionalReplayEntry -> Prop) `{!forall x, Decision (P x)} l : len (filter P l) <= len l.
Proof. unfold len. pose proof (length_filter P l). lia. Qed.

Lemma pstep_bounds now v pub acts n v' : pstep now v pub acts n v' -> bounds_inv v -> bounds_inv v'.
Proof.
  intros H [Hb Hr Hd Hs Hc].
  destruct H as [p r wake Hp Hq _|c Hrem|key Hin Hlen|id b Hnb Hnr Hslots He Hreq Hok|id b r Hnb Hnr He Hreq Hpeer Hsh Hok
    |id b b' Hl Hk Hok|id b c eff dl Hl Hreq Heff Hcok|id r Hnb Hnr Hslots He Hok].
  - split; cbn; try done.
    + intros id b H%(lookup_weaken _ (pv_bindings v)); auto.
    + intros id r' H%(lookup_weaken _ (pv_requests v)); auto.
    + intros id b r' H%(lookup_weaken _ (pv_bindings v)) H'%(lookup_weaken _ (pv_requests v)); eauto.
    + eapply slots_mono; [|done]. unfold slots. cbn. apply subseteq_dom in Hp, Hq. set_solver.
  - split; cbn; try done. intros sender. rewrite Hrem. etrans; [apply len_filter_le|done].
  - split; cbn; try done. intros sender. rewrite remembered_insert. destruct (decide _) as [->|]; [|done].
    unfold len in *. rewrite length_app. cbn. lia.
  - split; cbn; try done.
    + intros id' b' [[<- <-]|[_ H]]%lookup_insert_Some; auto.
    + intros id' b' r [[<- <-]|[_ H]]%lookup_insert_Some H'; [congruence|eauto].
    + eapply (slots_add v _ id); [|done]. unfold slots. cbn. rewrite dom_insert_L. set_solver.
  - split; cbn; try done.
    + intros id' b' [[<- <-]|[_ H]]%lookup_insert_Some; auto.
    + intros id' r' [_ H]%lookup_delete_Some; auto.
    + intros id' b' r' [[<- <-]|[_ H]]%lookup_insert_Some [Hne H']%lookup_delete_Some; [done|eauto].
    + eapply slots_mono; [|done]. unfold slots. cbn. rewrite dom_insert_L, dom_delete_L.
      assert (id ∈ dom (pv_requests v)) by by apply elem_of_dom. set_solver.
  - split; cbn; try done.
    + intros id' b0 [[<- <-]|[_ H]]%lookup_insert_Some; auto.
    + intros id' b0 r' [[<- <-]|[_ H]]%lookup_insert_Some H'; eauto.
    + eapply slots_mono; [|done]. unfold slots. cbn. rewrite dom_insert_lookup_L; [done|by rewrite Hl].
  - split; cbn; try done.
    + intros id' b0 [[<- <-]|[_ H]]%lookup_insert_Some; auto using set_request_ok.
    + intros id' b0 r' [[<- <-]|[_ H]]%lookup_insert_Some H'; eauto.
    + eapply slots_mono; [|done]. unfold slots. cbn. rewrite dom_insert_lookup_L; [done|by rewrite Hl].
  - split; cbn; try done.
    + intros id' r' [[<- <-]|[_ H]]%lookup_insert_Some; auto.
    + intros id' b' r' H [[<- <-]|[_ H']]%lookup_insert_Some; [congruence|eauto].
    + eapply (slots_add v _ id); [|done]. unfold slots. cbn. rewrite dom_insert_L. set_solver.
Qed.

Lemma psteps_bounds now v pub acts n v' : psteps now v pub acts n v' -> bounds_inv v -> bounds_inv v'.
Proof. induction 1; eauto using pstep_bounds. Qed.

Lemma wake_step_pview w :
  pview (w_manager (rt_step AWorkerWake w)) = pview (w_manager w)
  \/ pview (w_manager (rt_step AWorkerWake w))
     = mkPView (provisional (w_manager w)) (provisional_requests (w_manager w)) (replay_cache (w_manager w))
         (provisional_epoch (w_manager w)) false.
Proof. cbn. unfold step_worker. destruct (w_worker w); auto. destruct (provisional_wake _); auto. Qed.

Lemma rt_run_bounds l w :
  world_ok w -> bounds_inv (pview (w_manager w)) -> bounds_inv (pview (w_manager (rt_run l w))).
Proof.
  revert w. induction l as [|a l IH]; intros w Hw Hb; [done|]. apply IH; [by apply rt_step_ok|].
  assert (Hcase : a = AWorkerWake \/ a ≠ AWorkerWake) by (destruct a; auto).
  destruct Hcase as [->|Ha].
  - destruct (wake_step_pview w) as [-> | ->]; [done|]. by destruct Hb.
  - destruct (rt_step_advances a w Hw Ha) as (pub & acts & n & _ & Hps & _). by eapply psteps_bounds.
Qed.

Lemma world_init_bounds gen rt wall mono : bounds_inv (pview (w_manager (world_init gen rt wall mono))).
Proof. split; cbn; intros *; rewrite ?lookup_empty; done. Qed.

(** ** Epochs *)

Definition entry_epoch v (id : string) (e : Z) : Prop :=
  (exists b, pv_bindings v !! id = Some b /\ pb_epoch b = e) \/ (exists r, pv_requests v !! id = Some r /\ pr_epoch r = e).

(** The offer told to the application is that of the binding. *)
Definition offer_of (b : ProvisionalScreenShareBinding) (o : IncomingSessionOffer) : Prop :=
  io_realtime_id o = pb_realtime_id b /\ io_peer_id o = pb_peer_id b /\ io_shared_id o = pb_shared_id b
  /\ io_claim_token o = pb_claim_token b.

(** An offer told to the application comes with a request of its own peer. *)
Definition offer_ok (o : IncomingSessionOffer) : Prop :=
  request_ok (io_realtime_id o) (io_peer_id o) (io_shared_id o) (io_request o).

Record pair_inv v (pub : list (Z * IncomingSessionOffer)) : Prop := {
  pi_zero : 0 <= pv_epoch v;
  pi_epochs : forall id e, entry_epoch v id e -> 1 <= e <= pv_epoch v;
  pi_unique : forall id1 id2 e, entry_epoch v id1 e -> entry_epoch v id2 e -> id1 = id2;
  pi_told : forall e o, (e, o) ∈ pub -> 1 <= e <= pv_epoch v /\ offer_ok o;
  pi_once : NoDup pub.*1;
  pi_binding : forall id b, pv_bindings v !! id = Some b ->
    if pb_published b then exists o, (pb_epoch b, o) ∈ pub /\ offer_of b o else pb_epoch b ∉ pub.*1;
  pi_request : forall id r, pv_requests v !! id = Some r -> pr_epoch r ∉ pub.*1;
}.

Lemma told_epoch (pub : list (Z * IncomingSessionOffer)) e : e ∈ pub.*1 -> exists o, (e, o) ∈ pub.
Proof. intros ([e' o] & -> & H)%list_elem_of_fmap. eauto. Qed.

Lemma fresh_epoch_room e : 0 <= e -> e + 1 < 2 ^ 64 -> fresh_epoch e = e + 1.
Proof. intros H0 H. unfold fresh_epoch, wrap. rewrite Z.mod_small by lia. case_match; lia. Qed.

(** Changes that use no epoch keep the epochs of the entries that stay. *)
Lemma pstep_old now v pub acts n v' id e :
  pstep now v pub acts n v' -> n = 0 -> entry_epoch v' id e -> entry_epoch v id e.
Proof.
  intros H Hn He. destruct H as [p r wake Hp Hq _|c Hrem|key Hin Hlen|id0 b|id0 b r Hnb Hnr Heb _ _ _ _
    |id0 b b' Hl Hk Hok|id0 b c eff dl Hl _ _ _|id0 r]; try done; destruct He as [(b1 & H1 & <-)|(r1 & H1 & <-)]; cbn in H1.
  - left. eapply lookup_weaken in H1; [|done]. eauto.
  - right. eapply lookup_weaken in H1; [|done]. eauto.
  - apply lookup_insert_Some in H1 as [[<- <-]|[_ H1]]; [right; eauto|left; eauto].
  - apply lookup_delete_Some in H1 as [_ H1]. right. eauto.
  - apply lookup_insert_Some in H1 as [[<- <-]|[_ H1]]; [|left; eauto]. left. destruct Hk as [Hk _]. eauto.
  - right. eauto.
  - apply lookup_insert_Some in H1 as [[<- <-]|[_ H1]]; [|left; eauto]. left. eauto.
  - right. eauto.
Qed.

Lemma psteps_pos now v pub acts n v' : psteps now v pub acts n v' -> 0 <= n.
Proof. induction 1 as [|? ? ? ? ? ? ? ? ? IH H2]; [lia|]. destruct H2; lia. Qed.

Lemma psteps_zero now v pub1 acts1 n1 v1 pub2 acts2 n2 v2 :
  psteps now v pub1 acts1 n1 v1 -> pstep now v1 pub2 acts2 n2 v2 -> n1 + n2 = 0 -> n1 = 0 /\ n2 = 0.
Proof. intros H1%psteps_pos H2 Hn. destruct H2; lia. Qed.

Lemma psteps_old now v pub acts n v' id e :
  psteps now v pub acts n v' -> n = 0 -> entry_epoch v' id e -> entry_epoch v id e.
Proof.
  intros H. induction H as [|pub1 acts1 n1 v1 pub2 acts2 n2 v2 H1 IH H2]; [done|]. intros Hn He.
  destruct (psteps_zero _ _ _ _ _ _ _ _ _ _ H1 H2 Hn) as [-> ->].
  apply IH; [done|]. by eapply pstep_old.
Qed.

Lemma psteps_requests now v pub acts n v' : psteps now v pub acts n v' -> n = 0 -> pv_requests v' ⊆ pv_requests v.
Proof.
  intros H. induction H as [|pub1 acts1 n1 v1 pub2 acts2 n2 v2 H1 IH H2]; [done|]. intros Hn.
  destruct (psteps_zero _ _ _ _ _ _ _ _ _ _ H1 H2 Hn) as [-> Hn2]. specialize (IH eq_refl).
  destruct H2; cbn in *; try done; (etrans; [|done]); [done|apply delete_subseteq].
Qed.

Lemma quiet_requests now m m' : quiet now m m' -> provisional_requests m' ⊆ provisional_requests m.
Proof. intros H. by apply (psteps_requests _ _ _ _ _ _ H). Qed.

Lemma offer_of_kept b b' o : binding_kept b b' -> offer_of b o -> offer_of b' o.
Proof. unfold binding_kept, offer_of. intuition congruence. Qed.

(** Entries may go, and bindings change what does not matter here. *)
Lemma pair_inv_same v v' pub :
  pair_inv v pub -> pv_epoch v' = pv_epoch v -> (forall id e, entry_epoch v' id e -> entry_epoch v id e) ->
  (forall id b', pv_bindings v' !! id = Some b' -> exists b, pv_bindings v !! id = Some b /\ binding_kept b b') ->
  pv_requests v' ⊆ pv_requests v -> pair_inv v' pub.
Proof.
  intros [H0 He Hu Ht Ho Hb Hr] Hep Hold Hk Hsub. split; rewrite ?Hep; eauto.
  - intros id b' (b & Hl & Hkept)%Hk. specialize (Hb id b Hl). pose proof Hkept as (-> & _ & _ & _ & _ & _ & _ & -> & _).
    destruct (pb_published b); [|done]. destruct Hb as (o & Hin & Hof). eauto using offer_of_kept.
  - intros id r H. eapply Hr, lookup_weaken; eauto.
Qed.

(** A live entry becomes a binding whose offer is told to the application. *)
Lemma pair_inv_publish v v' pub id b o :
  pair_inv v pub -> pv_epoch v' = pv_epoch v -> (forall id e, entry_epoch v' id e -> entry_epoch v id e) ->
  entry_epoch v id (pb_epoch b) -> pb_epoch b ∉ pub.*1 -> pb_published b = true -> offer_of b o -> offer_ok o ->
  pv_bindings v' = <[id := b]> (pv_bindings v) -> pv_requests v' ⊆ pv_requests v -> pv_requests v' !! id = None ->
  pair_inv v' (pub ++ [(pb_epoch b, o)]).
Proof.
  intros [H0 He Hu Ht Ho Hb Hr] Hep Hold Hlive Hnew Hpub Hof Hok Hbs Hsub Hnone.
  assert (Hother : forall id' e, entry_epoch v id' e -> id' ≠ id -> e ≠ pb_epoch b).
  { intros id' e Hl Hne ->. destruct Hne. by eapply Hu. }
  split; rewrite ?Hep; eauto.
  - intros e o' [Hin|Heq%list_elem_of_singleton]%elem_of_app; [by apply Ht|]. injection Heq as -> ->. eauto.
  - rewrite fmap_app. apply NoDup_app. cbn. split_and!; [done| |apply NoDup_singleton].
    intros x Hx ->%list_elem_of_singleton. done.
  - intros id' b' H. rewrite Hbs in H. apply lookup_insert_Some in H as [[<- <-]|[Hne H]].
    + rewrite Hpub. exists o. split; [|done]. apply elem_of_app. right. by apply list_elem_of_singleton.
    + specialize (Hb id' b' H). assert (Hne' : pb_epoch b' ≠ pb_epoch b) by (eapply Hother; [left|]; eauto).
      destruct (pb_published b').
      * destruct Hb as (o' & Hin & Hof'). exists o'. split; [|done]. apply elem_of_app. auto.
      * rewrite fmap_app, not_elem_of_app. split; [done|]. cbn. by rewrite list_elem_of_singleton.
  - intros id' r H. assert (Hne : id' ≠ id) by congruence. eapply lookup_weaken in H; [|done].
    rewrite fmap_app, not_elem_of_app. split; [by eapply Hr|]. cbn. rewrite list_elem_of_singleton.
    eapply Hother; [right|]; eauto.
Qed.

(** A new entry takes the next epoch. *)
Lemma pair_inv_fresh v v' pub id :
  pair_inv v pub -> pv_epoch v' = pv_epoch v + 1 ->
  (forall id' e, entry_epoch v' id' e -> id' = id /\ e = pv_epoch v + 1 \/ id' ≠ id /\ entry_epoch v id' e) ->
  (forall id' b, pv_bindings v' !! id' = Some b ->
    pv_bindings v !! id' = Some b \/ pb_epoch b = pv_epoch v + 1 /\ pb_published b = false) ->
  (forall id' r, pv_requests v' !! id' = Some r -> pv_requests v !! id' = Some r \/ pr_epoch r = pv_epoch v + 1) ->
  pair_inv v' pub.
Proof.
  intros [H0 He Hu Ht Ho Hb Hr] Hep Hold Hbs Hrs.
  assert (Hnew : pv_epoch v + 1 ∉ pub.*1).
  { intros (o & [Hle _]%Ht)%told_epoch. lia. }
  split; rewrite ?Hep; try done.
  - lia.
  - intros id' e [[-> ->]|[_ H%He]]%Hold; lia.
  - intros id1 id2 e [[-> ->]|[Hn1 H1]]%Hold [[-> He2]|[Hn2 H2]]%Hold; try done.
    + apply He in H2. lia.
    + subst e. apply He in H1. lia.
    + by eapply Hu.
  - intros e o [Hle Hok]%Ht. split; [lia|done].
  - intros id' b [H|[-> ->]]%Hbs; [by apply Hb in H|done].
  - intros id' r [H| ->]%Hrs; eauto.
Qed.

Lemma pstep_pairs now v pub0 pub acts n v' :
  pstep now v pub acts n v' -> bounds_inv v -> pair_inv v pub0 -> pv_epoch v + n < 2 ^ 64 ->
  pair_inv v' (pub0 ++ pub) /\ pv_epoch v' = pv_epoch v + n.
Proof.
  intros H [Hbok Hrok Hdis _ _] Hp Hroom. pose proof (fun id e Hn => pstep_old _ _ _ _ _ _ id e H Hn) as Hold.
  assert (H0 : 0 <= pv_epoch v) by apply Hp.
  destruct H as [p r wake Hsp Hsr _|c Hrem|key Hin Hlen|id b Hnb Hnr Hslots He Hreq Hok|id b r Hnb Hnr He Hreq Hpeer Hsh Hok
    |id b b' Hl Hk Hok|id b c eff dl Hl Hreq Heff Hcok|id r Hnb Hnr Hslots He Hok]; rewrite ?app_nil_r, ?Z.add_0_r in *.
  - split; [|done]. apply (pair_inv_same v); [done|done|intros *; by apply Hold| |done]. cbn. intros id b Hb%(lookup_weaken _ (pv_bindings v)); [|done].
    exists b. split; [done|]. by unfold binding_kept.
  - split; [|done]. apply (pair_inv_same v); [done|done|intros *; by apply Hold| |done]. cbn. intros id b Hb. exists b. split; [done|]. by unfold binding_kept.
  - split; [|done]. apply (pair_inv_same v); [done|done|intros *; by apply Hold| |done]. cbn. intros id b Hb. exists b. split; [done|]. by unfold binding_kept.
  - rewrite fresh_epoch_room in He by lia. split; [|done]. apply (pair_inv_fresh v _ pub0 id); cbn; try done.
    + unfold entry_epoch. cbn. intros id' e [(b' & [[<- <-]|[Hne H]]%lookup_insert_Some & <-)|(r' & H & <-)]; [by left|right..].
      * split; [done|]. left. eauto.
      * split; [congruence|]. right. eauto.
    + intros id' b' [[<- <-]|[Hne H]]%lookup_insert_Some; [|by left]. right. split; [done|].
      rewrite (bo_published _ _ Hok), Hreq. apply bool_decide_false. by intros [].
    + intros id' r' H. by left.
  - split; [|done]. pose proof (Hrok id r Hnr) as Hrq. specialize (Hok Hrq).
    apply (pair_inv_publish v _ pub0 id); cbn; try done.
    + intros *. by apply Hold.
    + right. eauto.
    + rewrite He. by eapply pi_request.
    + by rewrite (bo_published _ _ Hok), Hreq, bool_decide_true.
    + unfold offer_ok. cbn. rewrite (bo_id _ _ Hok), Hpeer, Hsh. done.
    + apply delete_subseteq.
    + apply lookup_delete_eq.
  - split; [|done]. apply (pair_inv_same v); [done|done|intros *; by apply Hold| |done]. cbn.
    intros id' b0 [[<- <-]|[_ H]]%lookup_insert_Some; [by eauto|]. exists b0. split; [done|]. by unfold binding_kept.
  - pose proof (Hbok id b Hl) as Hb. assert (Hpub : pb_published b = false).
    { rewrite (bo_published _ _ Hb), Hreq. apply bool_decide_false. by intros []. }
    rewrite Hpub. split; [|done].
    apply (pair_inv_publish v _ pub0 id (set_request c eff dl b)); cbn; try done.
    + intros *. by apply Hold.
    + left. eauto.
    + pose proof (pi_binding _ _ Hp id b Hl) as Hx. by rewrite Hpub in Hx.
    + unfold offer_ok. cbn. by rewrite (bo_id _ _ Hb).
    + destruct (pv_requests v !! id) eqn:E; [|done]. destruct (Hdis _ _ _ Hl E).
  - rewrite fresh_epoch_room in He by lia. split; [|done]. apply (pair_inv_fresh v _ pub0 id); cbn; try done.
    + unfold entry_epoch. cbn. intros id' e [(b' & H & <-)|(r' & [[<- <-]|[Hne H]]%lookup_insert_Some & <-)].
      * right. split; [congruence|]. left. eauto.
      * by left.
      * right. split; [done|]. right. eauto.
    + intros id' b' H. by left.
    + intros id' r' [[<- <-]|[Hne H]]%lookup_insert_Some; [by right|by left].
Qed.

Lemma psteps_pairs now v pub0 pub acts n v' :
  psteps now v pub acts n v' -> bounds_inv v -> pair_inv v pub0 -> pv_epoch v + n < 2 ^ 64 ->
  pair_inv v' (pub0 ++ pub) /\ pv_epoch v' = pv_epoch v + n.
Proof.
  intros H Hb Hp. induction H as [|pub1 acts1 n1 v1 pub2 acts2 n2 v2 H1 IH H2]; intros Hroom.
  - by rewrite app_nil_r, Z.add_0_r.
  - assert (0 <= n2) by (destruct H2; lia).
    destruct IH as [Hp1 He1]; [lia|]. rewrite app_assoc.
    destruct (pstep_pairs _ _ _ _ _ _ _ H2 (psteps_bounds _ _ _ _ _ _ H1 Hb) Hp1) as [Hp2 He2]; [lia|]. split; [done|lia].
Qed.

(** An entry keeps its epoch, or its epoch is newer than every one before. *)
Lemma pstep_entry now v pub acts n v' id e :
  pstep now v pub acts n v' -> 0 <= pv_epoch v -> pv_epoch v + n < 2 ^ 64 ->
  entry_epoch v' id e -> entry_epoch v id e \/ pv_epoch v < e.
Proof.
  intros H H0 Hroom He. assert (Hn : n = 0 \/ n = 1) by (destruct H; auto).
  destruct Hn as [-> | ->]; [left; by eapply pstep_old|].
  inversion H as [| | |id0 b Hnb Hnr Hslots Hep Hreq Hok| | | |id0 r Hnb Hnr Hslots Hep Hok]; subst;
    rewrite fresh_epoch_room in Hep by lia; destruct He as [(b1 & H1 & <-)|(r1 & H1 & <-)]; cbn in H1.
  - apply lookup_insert_Some in H1 as [[<- <-]|[_ H1]]; [right; lia|left; left; eauto].
  - left. right. eauto.
  - left. left. eauto.
  - apply lookup_insert_Some in H1 as [[<- <-]|[_ H1]]; [right; lia|left; right; eauto].
Qed.

Lemma psteps_entry now v pub0 pub acts n v' id e :
  psteps now v pub acts n v' -> bounds_inv v -> pair_inv v pub0 -> pv_epoch v + n < 2 ^ 64 ->
  entry_epoch v' id e -> entry_epoch v id e \/ pv_epoch v < e.
Proof.
  intros H Hb Hp. induction H as [|pub1 acts1 n1 v1 pub2 acts2 n2 v2 H1 IH H2]; intros Hroom He; [by left|].
  assert (0 <= n2) by (destruct H2; lia).
  destruct (psteps_pairs _ _ _ _ _ _ _ H1 Hb Hp) as [Hp1 He1]; [lia|].
  pose proof (psteps_pos _ _ _ _ _ _ H1).
  destruct (pstep_entry _ _ _ _ _ _ id e H2 (pi_zero _ _ Hp1)) as [Hl|Hl]; [lia|done| |right; lia].
  apply IH; [lia|done].
Qed.

(** ** Claims *)

(** The offer of epoch [e] was told to the application, with this token. *)
Definition claim_told (pub : list (Z * IncomingSessionOffer)) (c : ClaimCommand) (shared : string) (e : Z) : Prop :=
  exists o, (e, o) ∈ pub /\ io_realtime_id o = cc_realtime_id c /\ io_peer_id o = cc_peer_id c /\ io_shared_id o = shared
    /\ io_claim_token o = cc_claim_token c.

Definition op_told (pub : list (Z * IncomingSessionOffer)) (op : ClaimOp) : Prop :=
  match op with
  | ClaimStarted c start => claim_told pub c (cs_shared_id start) (cs_epoch start)
  | ClaimApplied c shared e _ _ _ | ClaimAborting c shared e _ _ => claim_told pub c shared e
  end.

(** The session of a committed claim is that of the offer, with the claim's driver. *)
Definition commit_ok (pub : list (Z * IncomingSessionOffer)) (cm : CommittedClaim) : Prop :=
  exists s, cm_session cm = Some s /\ claim_told pub (cm_command cm) (rs_shared_id s) (cm_epoch cm)
    /\ rs_peer_id s = cc_peer_id (cm_command cm) /\ rs_driver s = Some (cm_driver cm)
    /\ cm_session_generation cm = Some (cm_generation cm).

Record claims_inv v pub (ops : gmap Z ClaimOp) (commits : list CommittedClaim) : Prop := {
  ci_ops : forall i op, ops !! i = Some op -> op_told pub op;
  ci_commits : forall cm, cm ∈ commits -> commit_ok pub cm;
  ci_once : NoDup (cm_epoch <$> commits);
  ci_gone : forall cm id, cm ∈ commits -> ~ entry_epoch v id (cm_epoch cm);
}.

Lemma claim_told_app pub pub' c shared e : claim_told pub c shared e -> claim_told (pub ++ pub') c shared e.
Proof. intros (o & Hin & H). exists o. split; [|done]. apply elem_of_app. auto. Qed.

Lemma op_told_app pub pub' op : op_told pub op -> op_told (pub ++ pub') op.
Proof. destruct op; apply claim_told_app. Qed.

Lemma commit_ok_app pub pub' cm : commit_ok pub cm -> commit_ok (pub ++ pub') cm.
Proof. intros (s & Hs & Ht & H). exists s. auto using claim_told_app. Qed.

Lemma commit_epoch v pub cm : pair_inv v pub -> commit_ok pub cm -> cm_epoch cm <= pv_epoch v.
Proof. intros Hp (s & _ & (o & Hin & _) & _). apply (pi_told _ _ Hp) in Hin. lia. Qed.

(** Changes of the offers keep the claims. *)
Lemma claims_inv_psteps now v pub0 pub acts n v' ops commits :
  psteps now v pub acts n v' -> bounds_inv v -> pair_inv v pub0 -> pv_epoch v + n < 2 ^ 64 ->
  claims_inv v pub0 ops commits -> claims_inv v' (pub0 ++ pub) ops commits.
Proof.
  intros H Hb Hp Hroom [Ho Hc Hn Hg]. split; [by eauto using op_told_app|by eauto using commit_ok_app|done|].
  intros cm id Hin He. destruct (psteps_entry _ _ _ _ _ _ _ _ _ H Hb Hp Hroom He) as [Hl|Hl].
  - by eapply Hg.
  - pose proof (commit_epoch _ _ _ Hp (Hc cm Hin)). lia.
Qed.

Lemma claims_inv_insert v pub ops commits i op :
  claims_inv v pub ops commits -> op_told pub op -> claims_inv v pub (<[i := op]> ops) commits.
Proof.
  intros [Ho Hc Hn Hg] Hop. split; try done. intros j op' [[<- <-]|[_ H]]%lookup_insert_Some; eauto.
Qed.

Lemma claims_inv_delete v pub ops commits i : claims_inv v pub ops commits -> claims_inv v pub (delete i ops) commits.
Proof. intros [Ho Hc Hn Hg]. split; try done. intros j op' [_ H]%lookup_delete_Some; eauto. Qed.

Lemma claims_inv_commit v pub ops commits cm :
  claims_inv v pub ops commits -> commit_ok pub cm -> cm_epoch cm ∉ cm_epoch <$> commits ->
  (forall id, ~ entry_epoch v id (cm_epoch cm)) -> claims_inv v pub ops (commits ++ [cm]).
Proof.
  intros [Ho Hc Hn Hg] Hok Hnew Hgone. split; [done|..].
  - intros cm' [H| ->%list_elem_of_singleton]%elem_of_app; auto.
  - rewrite fmap_app. apply NoDup_app. cbn. split_and!; [done| |apply NoDup_singleton].
    intros x Hx ->%list_elem_of_singleton. done.
  - intros cm' id [H| ->%list_elem_of_singleton]%elem_of_app; eauto.
Qed.

(** What a started and a committed claim found. *)
Lemma claim_begin_told now c m pub start m' :
  claim_begin c now m = (Ok start, m') -> bounds_inv (pview m) -> pair_inv (pview m) pub ->
  claim_told pub c (cs_shared_id start) (cs_epoch start).
Proof.
  unfold claim_begin. intros H Hb Hp. set (m1 := prune_provisional_bindings now m) in H.
  destruct (provisional m1 !! cc_realtime_id c) as [b|] eqn:Hl; [|done].
  destruct (_ || is_expired now b) eqn:Hc; [done|]. injection H as <- <-. bool_facts.
  assert (Hl' : pv_bindings (pview m) !! cc_realtime_id c = Some b).
  { revert Hl. unfold m1, prune_provisional_bindings. intros Hl. cbn. destruct (negb _ || negb _); cbn in Hl;
      by apply map_lookup_filter_Some in Hl as [Hl _]. }
  pose proof (bi_bindings _ Hb _ _ Hl') as Hok. pose proof (pi_binding _ _ Hp _ _ Hl') as Hpub.
  rewrite (bo_published _ _ Hok), bool_decide_true in Hpub by (destruct (pb_request b); [eauto|done]).
  destruct Hpub as (o & Hin & Hid & Hpeer & Hsh & Htok). exists o. rewrite (bo_id _ _ Hok) in Hid. cbn.
  split_and!; congruence.
Qed.

Lemma exact_responder_true c shared g d m :
  exact_claim_responder c shared g d m = true ->
  exists s, rt_sessions m !! cc_realtime_id c = Some s /\ rs_peer_id s = cc_peer_id c /\ rs_shared_id s = shared
    /\ rs_driver s = Some d /\ session_generation (cc_realtime_id c) m = Some g.
Proof.
  unfold exact_claim_responder. intros [Hg H]%andb_true_iff.
  destruct (rt_sessions m !! cc_realtime_id c) as [s|]; [|done]. bool_facts. by exists s.
Qed.

Lemma claim_commit_ok_found c shared epoch g d answer t1 t2 rtc m dr close m' dr' :
  claim_commit c shared epoch g d answer t1 t2 rtc m dr = (Ok tt, close, m', dr') ->
  (exists b, provisional m !! cc_realtime_id c = Some b /\ pb_epoch b = epoch) /\ provisional m' !! cc_realtime_id c = None
  /\ exists s, rt_sessions m' !! cc_realtime_id c = Some s /\ rs_peer_id s = cc_peer_id c /\ rs_shared_id s = shared
    /\ rs_driver s = Some d /\ session_generation (cc_realtime_id c) m' = Some g.
Proof.
  unfold claim_commit, commit_incoming_claim. intros H. destruct (negb (exact_claiming_binding _ _ _ t1 m) || _) eqn:H1.
  { destruct (next_claim_close_signal _ _ _ _ _ _). done. }
  destruct (default _ _) as [[r1 m1] dr1]. destruct r1 as [[]|e]; [|by destruct (next_claim_close_signal _ _ _ _ _ _)].
  destruct (negb (exact_claiming_binding _ _ _ t2 m1) || _) eqn:H2; [by destruct (next_claim_close_signal _ _ _ _ _ _)|].
  injection H as <- <- <-. bool_facts. split_and!.
  - unfold exact_claiming_binding, claim_matches in *. destruct (provisional m !! _) as [b|]; [|done]. bool_facts. eauto.
  - cbn. apply lookup_delete_eq.
  - by apply exact_responder_true in H0.
Qed.

(** ** Runs *)

Record pairing_inv w : Prop := {
  pg_bounds : bounds_inv (pview (w_manager w));
  pg_pairs : pair_inv (pview (w_manager w)) (w_published w);
  pg_claims : claims_inv (pview (w_manager w)) (w_published w) (w_claims w) (w_commits w);
}.

(** The epochs have room for one more. *)
Definition epoch_room w : Prop := provisional_epoch (w_manager w) + 1 < 2 ^ 64.

Definition epoch_step w w' : Prop :=
  provisional_epoch (w_manager w) <= provisional_epoch (w_manager w') <= provisional_epoch (w_manager w) + 1.

Lemma advances_pairing w w' :
  pairing_inv w -> epoch_room w -> advances w w' ->
  claims_inv (pview (w_manager w')) (w_published w') (w_claims w) (w_commits w)
  /\ bounds_inv (pview (w_manager w')) /\ pair_inv (pview (w_manager w')) (w_published w') /\ epoch_step w w'.
Proof.
  intros [Hb Hp Hc] Hroom (pub & acts & n & Hn & H & Hpub & _). unfold epoch_room in Hroom.
  assert (Hr : pv_epoch (pview (w_manager w)) + n < 2 ^ 64) by (cbn; lia).
  rewrite Hpub. destruct (psteps_pairs _ _ _ _ _ _ _ H Hb Hp Hr) as [Hp' He]. cbn in He.
  split_and!; [by eapply claims_inv_psteps|by eapply psteps_bounds|done|unfold epoch_step; lia].
Qed.

Lemma step_claim_pairing a w :
  world_ok w -> pairing_inv w -> epoch_room w -> pairing_inv (step_claim a w) /\ epoch_step w (step_claim a w).
Proof.
  intros Hw Hi Hroom. pose proof (step_claim_advances a w Hw) as Ha.
  destruct (advances_pairing _ _ Hi Hroom Ha) as (Hc & Hb & Hp & He). split; [|done]. split; [done..|].
  pose proof Hi as [Hb0 Hp0 Hc0]. clear Ha.
  destruct a as [| | | | | | | |? op c|op|op conn rtc rtc_ice|op|op rtc_ice|op| | | | | | | | | | | | | | | |]; try done;
    cbn [step_claim] in *.
  - destruct (w_claims w !! op); [done|].
    destruct (claim_begin c (w_wall w) (w_manager w)) as [[start|e] m] eqn:E; [|done].
    apply claims_inv_insert; [done|]. by eapply claim_begin_told.
  - destruct (w_claims w !! op) as [[c start| |]|]; try done.
    destruct (take_provisional_claim _ _ _ _) as [t m]. by apply claims_inv_delete.
  - destruct (w_claims w !! op) as [[c start| |]|] eqn:Hop; try done. pose proof (ci_ops _ _ _ _ Hc0 _ _ Hop) as Ht.
    unfold step_claim_apply in *. destruct (claim_apply _ _ _ _ _ _ _ _ _) as [[r m] dr].
    destruct r as [o|[[g|] e]]; [destruct (so_outbound o)|..];
      first [by apply claims_inv_insert|by apply claims_inv_delete].
  - destruct (w_claims w !! op) as [[|c shared e g d answer|]|] eqn:Hop; try done.
    pose proof (ci_ops _ _ _ _ Hc0 _ _ Hop) as Ht. by apply claims_inv_insert.
  - destruct (w_claims w !! op) as [[|c shared e g d answer|]|] eqn:Hop; try done.
    pose proof (ci_ops _ _ _ _ Hc0 _ _ Hop) as Ht.
    destruct (claim_commit _ _ _ _ _ _ _ _ _ _ _) as [[[r cl] m] dr] eqn:E.
    destruct r as [[]|err]; [|by apply claims_inv_insert].
    pose proof (claim_commit_quiet (w_wall w) _ _ _ _ _ _ _ _ _ _ _ _ _ _ _ (si_paired _ _ _ _ _ Hw) E) as Hq.
    apply claim_commit_ok_found in E as ((b & Hbl & Heb) & Hnone & s & Hs & Hpeer & Hsh & Hdr & Hgen).
    assert (Hlive : entry_epoch (pview (w_manager w)) (cc_realtime_id c) e) by (left; eauto).
    apply claims_inv_commit; [by apply claims_inv_delete|..]; cbn.
    + exists s. subst shared. by split_and!.
    + intros (cm & -> & Hin)%list_elem_of_fmap. by eapply (ci_gone _ _ _ _ Hc0).
    + intros id He'. pose proof (psteps_old _ _ _ _ _ _ id e Hq eq_refl He') as Hold.
      assert (id = cc_realtime_id c) as -> by (by eapply (pi_unique _ _ Hp0)).
      destruct He' as [(b' & Hb' & _)|(r' & Hr' & _)]; [cbn in Hb'; congruence|].
      eapply (bi_disjoint _ Hb0); [exact Hbl|]. cbn in Hr'. exact (lookup_weaken _ _ _ _ Hr' (quiet_requests _ _ _ Hq)).
  - destruct (w_claims w !! op) as [[| |c shared e gen d]|]; try done.
    destruct (rollback_incoming_claim _ _ _ _ _ _ _) as [[removed m] dr]. by apply claims_inv_delete.
Qed.

Lemma rt_step_claims a w :
  (match a with AClaimBegin _ _ _ | AClaimNoDriver _ | AClaimApply _ _ _ _ | AClaimUnsent _ | AClaimCommit _ _ | AClaimRollback _ => False
   | _ => True end) ->
  w_claims (rt_step a w) = w_claims w /\ w_commits (rt_step a w) = w_commits w.
Proof.
  intros Ha. destruct (rt_step_cases a w) as [-> | ->]; [|done]. destruct a; try done; cbn [rt_section];
    unfold step_signal, step_apply, step_control, step_provisional, log_consent, step_worker, step_media;
    repeat case_match; done.
Qed.

Lemma rt_step_pairing a w :
  world_ok w -> pairing_inv w -> epoch_room w -> pairing_inv (rt_step a w) /\ epoch_step w (rt_step a w).
Proof.
  intros Hw Hi Hroom.
  assert (Hcase : a = AWorkerWake \/ a ≠ AWorkerWake) by (destruct a; auto).
  destruct Hcase as [->|Ha].
  - assert (Hl : w_published (rt_step AWorkerWake w) = w_published w /\ w_claims (rt_step AWorkerWake w) = w_claims w
      /\ w_commits (rt_step AWorkerWake w) = w_commits w).
    { cbn. unfold step_worker. by repeat case_match. }
    destruct Hl as (Hl1 & Hl2 & Hl3). destruct Hi as [[] [] []].
    destruct (wake_step_pview w) as [Hv|Hv]; (split; [split; rewrite ?Hl1, ?Hl2, ?Hl3, Hv; done|]);
      assert (He : provisional_epoch (w_manager (rt_step AWorkerWake w)) = provisional_epoch (w_manager w))
        by exact (f_equal pv_epoch Hv); unfold epoch_step; lia.
  - pose proof (rt_step_advances a w Hw Ha) as Hadv. destruct (advances_pairing _ _ Hi Hroom Hadv) as (Hc & Hb & Hp & He).
    destruct (match a with AClaimBegin _ _ _ | AClaimNoDriver _ | AClaimApply _ _ _ _ | AClaimUnsent _ | AClaimCommit _ _
      | AClaimRollback _ => true | _ => false end) eqn:Hk.
    + destruct (rt_step_cases a w) as [-> | ->]; [|split; [done|unfold epoch_step; lia]].
      destruct a; try done; by apply step_claim_pairing.
    + destruct (rt_step_claims a w) as [H1 H2]; [by destruct a|]. split; [|done]. split; [done..|]. by rewrite H1, H2.
Qed.

Lemma world_init_pairing gen rt wall mono : pairing_inv (world_init gen rt wall mono).
Proof.
  assert (Hne : forall id e, ~ entry_epoch (pview (w_manager (world_init gen rt wall mono))) id e).
  { intros id e [(b & H & _)|(r & H & _)]; done. }
  split; [apply world_init_bounds|..].
  - split; try done; try (by intros *; cbn; rewrite ?lookup_empty); try (by intros * H; destruct (Hne _ _ H)).
    + by intros e o []%not_elem_of_nil.
    + constructor.
  - split; try done; try (by intros *; cbn; rewrite ?lookup_empty).
    + by intros cm []%not_elem_of_nil.
    + constructor.
Qed.

Lemma rt_run_pairing l w :
  world_ok w -> pairing_inv w -> provisional_epoch (w_manager w) + len l < 2 ^ 64 -> pairing_inv (rt_run l w).
Proof.
  revert w. induction l as [|a l IH]; intros w Hw Hi Hlen; [done|]. unfold len in *. cbn [length] in Hlen.
  destruct (rt_step_pairing a w Hw Hi) as [Hi' He]; [unfold epoch_room; lia|].
  apply IH; [by apply rt_step_ok|done|]. unfold epoch_step in He. lia.
Qed.
End Pairing.
