(* ===== verification/RealtimeExpiry.v ===== *)
(** * Replayed consent and expired offers

    A consent action is not accepted again while it is remembered, and the expiry
    worker never sleeps past a deadline: left alone it removes exactly the entries
    that are due. *)
From S2P Require Import Prelude VideoQueue Rtp ScreenVideo MediaQos WebRtcPeer RealtimeWire Realtime RealtimeClaims.
From S2P Require Import RealtimeMedia RealtimeRuns RealtimeProofs RealtimeLeases RealtimeShares RealtimePairing.

Section Expiry.
Context {HF : H264Format} {RC : RealtimeCodec}.
Implicit Types (m : RealtimeManager) (w : RtWorld) (v : PView).

(** ** Replays *)

Record replay_inv (wall : Z) v (acts : list (ProvisionalReplayKey * Z)) : Prop := {
  ri_kept : forall key t, (key, t) ∈ acts -> t <= wall /\
    (wall < t + PROVISIONAL_REPLAY_TTL_MS ->
     mkReplayEntry key (t + PROVISIONAL_REPLAY_TTL_MS) ∈ remembered (pv_replay v) (rk_sender_peer_id key));
  ri_spaced : forall i j key t1 t2, (i < j)%nat -> acts !! i = Some (key, t1) -> acts !! j = Some (key, t2) ->
    t1 + PROVISIONAL_REPLAY_TTL_MS <= t2;
}.

Lemma replay_inv_same wall v v' acts : replay_inv wall v acts -> pv_replay v' = pv_replay v -> replay_inv wall v' acts.
Proof. intros [H1 H2] He. split; [|done]. by rewrite He. Qed.

Lemma pstep_replay wall v acts0 pub acts n v' :
  pstep wall v pub acts n v' -> 0 <= wall <= i64_max -> replay_inv wall v acts0 -> replay_inv wall v' (acts0 ++ acts).
Proof.
  intros H Hwall Hi.
  destruct H as [p r wake Hp Hq _|c Hrem|key Hin Hlen|id b Hnb Hnr Hslots He Hreq Hok|id b r Hnb Hnr He Hreq Hpeer Hsh Hok
    |id b b' Hl Hk Hok|id b c eff dl Hl Hreq Heff Hcok|id r Hnb Hnr Hslots He Hok]; rewrite ?app_nil_r;
    try (by eapply replay_inv_same).
  - destruct Hi as [H1 H2]. split; [|done]. intros key t [Hle Hin]%H1. split; [done|]. intros Hlt. cbn. rewrite Hrem.
    apply list_elem_of_filter. cbn. auto.
  - destruct Hi as [H1 H2]. cbn.
    assert (Hsat : saturating_add u64_max wall PROVISIONAL_REPLAY_TTL_MS = wall + PROVISIONAL_REPLAY_TTL_MS).
    { unfold saturating_add, u64_max, PROVISIONAL_REPLAY_TTL_MS, i64_max in *. lia. }
    rewrite Hsat. split; cbn.
    + intros key' t [Hold|[= -> ->]%list_elem_of_singleton]%elem_of_app.
      * apply H1 in Hold as [Hle Hmem]. split; [done|]. intros Hlt. rewrite remembered_insert.
        destruct (decide _) as [Heq|]; [|by apply Hmem]. apply elem_of_app. left. rewrite <-Heq. by apply Hmem.
      * split; [lia|]. intros _. rewrite remembered_insert, decide_True by done. apply elem_of_app. right. by left.
    + intros i j key' t1 t2 Hij Hi Hj.
      apply lookup_app_Some in Hj as [Hj|[Hlen' Hj]].
      * rewrite lookup_app_l in Hi by (apply lookup_lt_Some in Hj; lia). by eapply H2.
      * apply list_lookup_singleton_Some in Hj as [Hj0 [= <- <-]].
        rewrite lookup_app_l in Hi by lia. apply list_elem_of_lookup_2, H1 in Hi as [Hle Hmem].
        destruct (decide (t1 + PROVISIONAL_REPLAY_TTL_MS <= wall)) as [|Hn]; [done|]. destruct Hin.
        apply list_elem_of_fmap. eexists. split; [|apply Hmem; lia]. done.
Qed.

Lemma psteps_replay wall v acts0 pub acts n v' :
  psteps wall v pub acts n v' -> 0 <= wall <= i64_max -> replay_inv wall v acts0 -> replay_inv wall v' (acts0 ++ acts).
Proof.
  intros H Hwall Hi. induction H as [|pub1 acts1 n1 v1 pub2 acts2 n2 v2 H1 IH H2]; [by rewrite app_nil_r|].
  rewrite app_assoc. by eapply pstep_replay.
Qed.

Definition replay_ok w : Prop :=
  0 <= w_wall w <= i64_max /\ replay_inv (w_wall w) (pview (w_manager w)) (w_actions w).

Lemma rt_step_clock a w :
  match a with ATick _ _ => True | _ => w_wall (rt_step a w) = w_wall w /\ w_mono (rt_step a w) = w_mono w end.
Proof.
  destruct (rt_step_cases a w) as [-> | ->]; [|by destruct a]. destruct a; try done; cbn [rt_section];
    unfold step_signal, step_apply, step_control, step_provisional, log_consent, step_worker, step_media, step_claim,
      step_claim_apply;
    repeat case_match; done.
Qed.

Lemma rt_step_replay a w : world_ok w -> replay_ok w -> replay_ok (rt_step a w).
Proof.
  intros Hw [Hwall Hi].
  assert (Hcase : a = AWorkerWake \/ (exists t1 t2, a = ATick t1 t2) \/ a ≠ AWorkerWake /\ (forall t1 t2, a ≠ ATick t1 t2)).
  { destruct a; eauto; right; right; by split. }
  destruct Hcase as [->|[(t1 & t2 & ->)|[Ha Hb]]].
  - destruct (rt_step_clock AWorkerWake w) as [Hc _]. split; [by rewrite Hc|]. rewrite Hc.
    assert (Hl : w_actions (rt_step AWorkerWake w) = w_actions w) by (cbn; unfold step_worker; by repeat case_match).
    rewrite Hl. destruct (wake_step_pview w) as [-> | ->]; [done|]. by eapply replay_inv_same.
  - cbn [rt_step admitted rt_section]. destruct (_ && _) eqn:Hc; [|done]. destruct Hi as [Hkept Hsp]. bool_facts.
    split; [cbn; lia|]. split; [|done]. cbn. intros key t [Hle Hm]%Hkept. split; [lia|]. intros Hlt. apply Hm. lia.
  - destruct (rt_step_advances a w Hw Ha) as (pub & acts & n & _ & Hps & _ & Hacts).
    pose proof (rt_step_clock a w) as Hc. destruct a; try (by destruct (Hb wall mono)); destruct Hc as [Hc _];
      (split; [by rewrite Hc|]); rewrite Hc, Hacts; by eapply psteps_replay.
Qed.

Lemma rt_run_replay l w : world_ok w -> replay_ok w -> replay_ok (rt_run l w).
Proof. revert w. induction l as [|a l IH]; intros w Hw Hr; [done|]. apply IH; [by apply rt_step_ok|by apply rt_step_replay]. Qed.

(** ** The expiry worker *)

Definition has_deadline v (id : string) (dl : Z) : Prop :=
  (exists b, pv_bindings v !! id = Some b /\ pb_deadline b = dl) \/ (exists r, pv_requests v !! id = Some r /\ pr_deadline r = dl).

(** Without a wake-up, deadlines only go away. *)
Lemma pstep_deadlines now v pub acts n v' :
  pstep now v pub acts n v' ->
  pv_wake v' = true \/ pv_wake v' = pv_wake v /\ forall id dl, has_deadline v' id dl -> has_deadline v id dl.
Proof.
  intros [p r wake Hp Hq [-> | ->]|c Hrem|key Hin Hlen|id b|id b r|id b b' Hl Hk Hok|id b c eff dl|id r]; try (by left);
    right; (split; [done|]); try done; intros id' dl' [(b1 & H1 & <-)|(r1 & H1 & <-)]; cbn in H1.
  - left. eapply lookup_weaken in H1; [|done]. eauto.
  - right. eapply lookup_weaken in H1; [|done]. eauto.
  - apply lookup_insert_Some in H1 as [[<- <-]|[_ H1]]; [|left; eauto]. left.
    destruct Hk as (_ & _ & _ & _ & _ & _ & Hk & _). eauto.
  - right. eauto.
Qed.

Lemma psteps_deadlines now v pub acts n v' :
  psteps now v pub acts n v' ->
  pv_wake v' = true \/ pv_wake v' = pv_wake v /\ forall id dl, has_deadline v' id dl -> has_deadline v id dl.
Proof.
  induction 1 as [|pub1 acts1 n1 v1 pub2 acts2 n2 v2 H1 IH H2]; [by right|].
  destruct (pstep_deadlines _ _ _ _ _ _ H2) as [Hw|[Hw Hd]]; [by left|].
  destruct IH as [IH|[IH Hd1]]; [left; congruence|]. right. split; [congruence|eauto].
Qed.

Definition sleeps_well v (target : option (string * Z * Z)) : Prop :=
  pv_wake v = true \/ forall id dl, has_deadline v id dl -> exists e, target = Some e /\ e.2 <= dl.

Definition worker_ok w : Prop :=
  match w_worker w with WorkerWaiting target => sleeps_well (pview (w_manager w)) target | _ => True end.

Lemma earlier_min l best :
  match foldl earlier best l with
  | None => best = None /\ l = []
  | Some e => (best = Some e \/ e ∈ l) /\ (forall x, best = Some x \/ x ∈ l -> e.2 <= x.2)
  end.
Proof.
  revert best. induction l as [|x l IH]; intros best; cbn.
  - destruct best; [|done]. split; [by left|]. intros y [[= <-]|[]%not_elem_of_nil]. lia.
  - specialize (IH (earlier best x)). destruct (foldl earlier (earlier best x) l) as [e|].
    + destruct IH as [Hin Hmin]. unfold earlier in *. destruct best as [b|].
      * destruct (x.2 <? b.2) eqn:Hc; bool_facts.
        -- split; [destruct Hin as [[= ->]|Hin]; right; [by left|by right]|].
           assert (e.2 <= x.2) by (apply Hmin; auto).
           intros y [[= <-]|[-> |Hy]%elem_of_cons]; [lia|lia|apply Hmin; auto].
        -- split; [destruct Hin as [[= ->]|Hin]; [by left|right; by right]|].
           assert (e.2 <= b.2) by (apply Hmin; auto).
           intros y [[= <-]|[-> |Hy]%elem_of_cons]; [lia|lia|apply Hmin; auto].
      * split; [destruct Hin as [[= ->]|Hin]; right; [by left|by right]|].
        intros y [?|[-> |Hy]%elem_of_cons]; [done|apply Hmin; auto|apply Hmin; auto].
    + destruct IH as [IH _]. unfold earlier in IH. by repeat case_match.
Qed.

(** The entry the worker waits for. *)
Definition live_entry v (e : string * Z * Z) : Prop :=
  (exists b, pv_bindings v !! e.1.1 = Some b /\ pb_epoch b = e.1.2 /\ pb_deadline b = e.2)
  \/ (exists r, pv_requests v !! e.1.1 = Some r /\ pr_epoch r = e.1.2 /\ pr_deadline r = e.2).

Lemma next_expiry_spec bindings requests m :
  list_to_set bindings = dom (provisional m) -> list_to_set requests = dom (provisional_requests m) ->
  match next_provisional_expiry bindings requests m with
  | None => forall id dl, ~ has_deadline (pview m) id dl
  | Some e => live_entry (pview m) e /\ forall id dl, has_deadline (pview m) id dl -> e.2 <= dl
  end.
Proof.
  intros Hb Hr. unfold next_provisional_expiry.
  set (l := omap (binding_entry m) bindings ++ omap (request_entry m) requests).
  assert (Hin : forall id dl, has_deadline (pview m) id dl -> exists e, e ∈ l /\ e.2 = dl).
  { intros id dl [(b & H & <-)|(r & H & <-)]; cbn in H.
    - exists (id, pb_epoch b, pb_deadline b). split; [|done]. apply elem_of_app. left. apply list_elem_of_omap.
      exists id. split; [|unfold binding_entry; by rewrite H]. apply (elem_of_list_to_set (C:=gset string)). rewrite Hb. by apply elem_of_dom.
    - exists (id, pr_epoch r, pr_deadline r). split; [|done]. apply elem_of_app. right. apply list_elem_of_omap.
      exists id. split; [|unfold request_entry; by rewrite H]. apply (elem_of_list_to_set (C:=gset string)). rewrite Hr. by apply elem_of_dom. }
  assert (Hout : forall e, e ∈ l -> live_entry (pview m) e).
  { intros e [(id & _ & H)%list_elem_of_omap|(id & _ & H)%list_elem_of_omap]%elem_of_app.
    - unfold binding_entry in H. apply fmap_Some in H as (b & Hl & ->). left. by exists b.
    - unfold request_entry in H. apply fmap_Some in H as (b & Hl & ->). right. by exists b. }
  pose proof (earlier_min l None) as H. destruct (foldl earlier None l) as [e|].
  - destruct H as [[?|He] Hmin]; [done|]. split; [by apply Hout|]. intros id dl (x & Hx & <-)%Hin. apply Hmin. auto.
  - destruct H as [_ Hl]. intros id dl (x & Hx & _)%Hin. rewrite Hl in Hx. by apply not_elem_of_nil in Hx.
Qed.

Lemma worker_ok_advances w w' : worker_ok w -> advances w w' -> w_worker w' = w_worker w -> worker_ok w'.
Proof.
  intros Hw (pub & acts & n & _ & H & _) He. unfold worker_ok in *. rewrite He. destruct (w_worker w) as [| | |target]; try done.
  unfold sleeps_well in *. destruct (psteps_deadlines _ _ _ _ _ _ H) as [Hk|[Hk Hd]]; [by left|].
  destruct Hw as [Hw|Hw]; [left; congruence|right]. intros id dl Hl%Hd. eauto.
Qed.

Lemma rt_step_worker a w :
  match a with AEnsureWorker | AWorkerSpawned _ | AWorkerRead _ _ | AWorkerWake | AWorkerFire => True
  | _ => w_worker (rt_step a w) = w_worker w end.
Proof.
  destruct (rt_step_cases a w) as [-> | ->]; [|by destruct a]. destruct a; try done; cbn [rt_section];
    unfold step_signal, step_apply, step_control, step_provisional, log_consent, step_media, step_claim, step_claim_apply;
    repeat case_match; done.
Qed.

Lemma read_sleeps_well bindings requests m :
  list_to_set bindings = dom (provisional m) -> list_to_set requests = dom (provisional_requests m) ->
  sleeps_well (pview m) (next_provisional_expiry bindings requests m).
Proof.
  intros Hb Hr. right. pose proof (next_expiry_spec bindings requests m Hb Hr) as H.
  destruct (next_provisional_expiry _ _ _) as [e|].
  - destruct H as [_ H]. intros id dl Hd%H. eauto.
  - intros id dl Hd. by destruct (H id dl).
Qed.

Lemma rt_step_worker_ok a w : world_ok w -> worker_ok w -> worker_ok (rt_step a w).
Proof.
  intros Hw Hk. pose proof (rt_step_worker a w) as Hs. pose proof (fun Ha => rt_step_advances a w Hw Ha) as Ha.
  destruct a; try (eapply worker_ok_advances; [done|by apply Ha|done]); cbn [rt_step admitted rt_section step_worker]; clear Ha Hs.
  - unfold step_worker. destruct (w_worker w) eqn:E; try (unfold worker_ok in *; by rewrite E in *).
    destruct (expiry_worker_started _); [|done]. unfold worker_ok. by rewrite E.
  - unfold step_worker. destruct spawned, (w_worker w) eqn:E; unfold worker_ok in *; cbn; rewrite ?E in *; done.
  - unfold step_worker. destruct (w_worker w) eqn:E; try (unfold worker_ok in *; by rewrite E in *).
    destruct (_ && _) eqn:Hc; [|unfold worker_ok; by rewrite E]. bool_facts. by apply read_sleeps_well.
  - unfold step_worker. destruct (w_worker w) eqn:E; try (unfold worker_ok in *; by rewrite E in *).
    destruct (provisional_wake _); [done|]. unfold worker_ok in *. by rewrite E in *.
  - unfold step_worker. destruct (w_worker w) as [| | |[[[id e] dl]|]] eqn:E; try (unfold worker_ok in *; by rewrite E in *).
    destruct (_ <=? _); [done|]. unfold worker_ok in *. by rewrite E in *.
Qed.

Lemma rt_run_worker_ok l w : world_ok w -> worker_ok w -> worker_ok (rt_run l w).
Proof. revert w. induction l as [|a l IH]; intros w Hw Hk; [done|]. apply IH; [by apply rt_step_ok|by apply rt_step_worker_ok]. Qed.

(** ** The worker on its own *)

Definition is_worker_action (a : RtAction) : bool :=
  match a with AWorkerRead _ _ | AWorkerWake | AWorkerFire => true | _ => false end.

(** Only entries that are due at [mono] have gone. *)
Definition due_gone (mono : Z) v v' : Prop :=
  (forall id dl, has_deadline v' id dl -> has_deadline v id dl)
  /\ (forall id dl, has_deadline v id dl -> mono < dl -> has_deadline v' id dl).

Lemma due_gone_trans mono v1 v2 v3 : due_gone mono v1 v2 -> due_gone mono v2 v3 -> due_gone mono v1 v3.
Proof. intros [H1 H2] [H3 H4]. split; eauto. Qed.

Lemma due_gone_ext mono v v' :
  pv_bindings v' = pv_bindings v -> pv_requests v' = pv_requests v -> due_gone mono v v'.
Proof. intros Hb Hr. unfold due_gone, has_deadline. rewrite Hb, Hr. by split; eauto. Qed.

Lemma expire_due_gone id e mono wall m :
  bounds_inv (pview m) -> due_gone mono (pview m) (pview (expire id e mono wall m)).
Proof.
  intros Hb. unfold expire. destruct (_ && _) eqn:Hc; [|by apply due_gone_ext].
  apply andb_true_iff in Hc as [_ Hc]. unfold deadline_passed in Hc. split.
  - intros id' dl [(b & H & <-)|(r & H & <-)]; cbn in H; apply lookup_delete_Some in H as [_ H]; [left|right]; eauto.
  - intros id' dl [(b & H & <-)|(r & H & <-)] Hlt; cbn in H.
    + left. exists b. split; [|done]. cbn. rewrite lookup_delete_ne; [done|]. intros ->. rewrite H in Hc. bool_facts. lia.
    + right. exists r. split; [|done]. cbn. rewrite lookup_delete_ne; [done|]. intros ->.
      destruct (provisional m !! id') eqn:Hp; [by eapply (bi_disjoint _ Hb)|]. rewrite H in Hc. bool_facts. lia.
Qed.

Lemma expire_live id e dl mono wall m :
  bounds_inv (pview m) -> live_entry (pview m) (id, e, dl) -> dl <= mono ->
  (size (slots (pview (expire id e mono wall m))) < size (slots (pview m)))%nat.
Proof.
  intros Hb Hl Hle.
  assert (Hc : bool_decide (current_provisional_epoch id m = Some e) && deadline_passed id mono m = true).
  { apply andb_true_iff. unfold current_provisional_epoch, deadline_passed. destruct Hl as [(b & H & He & Hd)|(r & H & He & Hd)];
      cbn in *; rewrite ?H.
    - split; [apply bool_decide_eq_true; congruence|]. apply Z.leb_le. lia.
    - destruct (provisional m !! id) eqn:Hp; [by destruct (bi_disjoint _ Hb _ _ _ Hp H)|]. cbn.
      split; [apply bool_decide_eq_true; congruence|]. apply Z.leb_le. lia. }
  unfold expire. rewrite Hc. apply subset_size. unfold slots. cbn. rewrite !dom_delete_L.
  assert (id ∈ dom (provisional m) ∪ dom (provisional_requests m)).
  { apply elem_of_union. destruct Hl as [(b & H & _)|(r & H & _)]; [left|right]; by apply elem_of_dom. }
  set_solver.
Qed.

(** Reading from where it is, the worker ends with no entry that is due. *)
Lemma worker_reading_clears n w :
  (size (slots (pview (w_manager w))) <= n)%nat -> bounds_inv (pview (w_manager w)) -> w_worker w = WorkerReading ->
  exists l, forallb is_worker_action l = true /\ due_gone (w_mono w) (pview (w_manager w)) (pview (w_manager (rt_run l w)))
    /\ forall id dl, has_deadline (pview (w_manager (rt_run l w))) id dl -> w_mono w < dl.
Proof.
  revert w. induction n as [n IH] using lt_wf_ind. intros w Hn Hb Hk.
  set (bl := elements (dom (provisional (w_manager w)))). set (rl := elements (dom (provisional_requests (w_manager w)))).
  assert (Hbl : list_to_set bl = dom (provisional (w_manager w))) by apply list_to_set_elements_L.
  assert (Hrl : list_to_set rl = dom (provisional_requests (w_manager w))) by apply list_to_set_elements_L.
  set (target := next_provisional_expiry bl rl (w_manager w)).
  assert (Hread : rt_step (AWorkerRead bl rl) w = set_w_worker (WorkerWaiting target) w).
  { cbn. unfold step_worker. by rewrite Hk, !bool_decide_true. }
  pose proof (next_expiry_spec bl rl (w_manager w) Hbl Hrl) as Hspec. fold target in Hspec.
  assert (Hstop : (forall id dl, has_deadline (pview (w_manager w)) id dl -> w_mono w < dl) ->
    exists l, forallb is_worker_action l = true /\ due_gone (w_mono w) (pview (w_manager w)) (pview (w_manager (rt_run l w)))
      /\ forall id dl, has_deadline (pview (w_manager (rt_run l w))) id dl -> w_mono w < dl).
  { intros H. exists []. by split_and!. }
  destruct target as [[[id e] dl]|] eqn:Ht; [|apply Hstop; intros id dl H; by destruct (Hspec id dl)].
  destruct Hspec as [Hlive Hmin]. destruct (decide (dl <= w_mono w)) as [Hle|Hgt].
  - assert (Hfire : rt_step AWorkerFire (set_w_worker (WorkerWaiting (Some (id, e, dl))) w)
      = set_w_worker WorkerReading (set_w_manager (expire id e (w_mono w) (w_wall w) (w_manager w)) w)).
    { cbn. by rewrite (proj2 (Z.leb_le _ _) Hle). }
    set (w1 := set_w_worker WorkerReading _) in Hfire.
    pose proof (expire_live id e dl (w_mono w) (w_wall w) (w_manager w) Hb Hlive Hle) as Hsize.
    destruct (IH (size (slots (pview (w_manager w1)))) ltac:(cbn in *; lia) w1) as (l & Hl & Hgone & Hall);
      [done|by eapply psteps_bounds, Hb; apply (expire_quiet (w_wall w))|done|].
    exists (AWorkerRead bl rl :: AWorkerFire :: l).
    assert (Hrun : rt_run (AWorkerRead bl rl :: AWorkerFire :: l) w = rt_run l w1).
    { change (rt_run l (rt_step AWorkerFire (rt_step (AWorkerRead bl rl) w)) = rt_run l w1). by rewrite Hread, Hfire. }
    rewrite Hrun. split_and!; [done| |exact Hall].
    eapply due_gone_trans; [|exact Hgone]. by apply expire_due_gone.
  - apply Hstop. intros id' dl' H%Hmin. cbn in H. lia.
Qed.

Definition worker_runs w : Prop :=
  match w_worker w with WorkerReading | WorkerWaiting _ => True | _ => False end.

Lemma worker_clears w :
  bounds_inv (pview (w_manager w)) -> worker_ok w -> worker_runs w ->
  exists l, forallb is_worker_action l = true /\ due_gone (w_mono w) (pview (w_manager w)) (pview (w_manager (rt_run l w)))
    /\ forall id dl, has_deadline (pview (w_manager (rt_run l w))) id dl -> w_mono w < dl.
Proof.
  intros Hb Hok Hr. unfold worker_ok, worker_runs in *. destruct (w_worker w) as [| | |target] eqn:Hk; try done.
  { by eapply worker_reading_clears. }
  assert (Hthen : forall a w1, rt_step a w = w1 -> is_worker_action a = true -> w_worker w1 = WorkerReading ->
    w_mono w1 = w_mono w -> bounds_inv (pview (w_manager w1)) -> due_gone (w_mono w) (pview (w_manager w)) (pview (w_manager w1)) ->
    exists l, forallb is_worker_action l = true /\ due_gone (w_mono w) (pview (w_manager w)) (pview (w_manager (rt_run l w)))
      /\ forall id dl, has_deadline (pview (w_manager (rt_run l w))) id dl -> w_mono w < dl).
  { intros a w1 <- Ha Hk1 Hm Hb1 Hgone.
    destruct (worker_reading_clears _ _ (Nat.le_refl _) Hb1 Hk1) as (l & Hl & Hg & Hall). rewrite Hm in Hg, Hall.
    exists (a :: l). split_and!; [cbn; by rewrite Ha|by eapply due_gone_trans|exact Hall]. }
  destruct (provisional_wake (w_manager w)) eqn:Hwake.
  - eapply (Hthen AWorkerWake); [cbn; unfold step_worker; by rewrite Hk, Hwake|done..| |].
    + by destruct Hb.
    + by apply due_gone_ext.
  - destruct Hok as [Hok|Hok]; [cbn in Hok; congruence|].
    destruct target as [[[id e] dl]|].
    + destruct (decide (dl <= w_mono w)) as [Hle|Hgt].
      * eapply (Hthen AWorkerFire); [cbn; unfold step_worker; by rewrite Hk, (proj2 (Z.leb_le _ _) Hle)|done..| |].
        -- eapply psteps_bounds, Hb. apply (expire_quiet (w_wall w)).
        -- by apply expire_due_gone.
      * exists []. split_and!; [done|done|]. intros id' dl' (x & [= <-] & H)%Hok. cbn in H. lia.
    + exists []. split_and!; [done|done|]. by intros id' dl' (x & ? & _)%Hok.
Qed.
End Expiry.
