(* ===== verification/RealtimeRollback.v ===== *)
(** * Claims that fail

    A claim that cannot be committed is rolled back: then no session holds its
    driver and no offer of its epoch is left, whatever the other handlers did in the
    meantime. *)
From S2P Require Import Prelude VideoQueue Rtp ScreenVideo MediaQos WebRtcPeer RealtimeWire Realtime RealtimeClaims.
From S2P Require Import RealtimeMedia RealtimeRuns RealtimeProofs RealtimeLeases RealtimeShares RealtimePairing.

Section Rollback.
Context {HF : H264Format} {RC : RealtimeCodec}.
Implicit Types (m : RealtimeManager) (w : RtWorld) (v : PView).
Implicit Types (g : gmap string (string * string * option Z * Z)).

(** ** Sessions of old drivers *)

(** A session that holds a driver made before [next] was there before. *)
Definition old_drivers (next : Z) g g' : Prop :=
  forall id p s d n, g' !! id = Some ((p, s, Some d), n) -> d < next -> g !! id = Some ((p, s, Some d), n).

Lemma old_refl next g : old_drivers next g g.
Proof. by intros id p s d n. Qed.

Lemma old_insert next g id p s n pending :
  pending = None \/ pending = Some next -> old_drivers next g (<[id := ((p, s, pending), n)]> g).
Proof.
  intros Hp id' p' s' d n' [[<- Heq]|[_ H]]%lookup_insert_Some Hlt; [|done]. injection Heq as -> -> Hd ->.
  destruct Hp; simplify_eq. lia.
Qed.

Lemma old_delete next g id : old_drivers next g (delete id g).
Proof. by intros id' p s d n [_ H]%lookup_delete_Some. Qed.

Lemma old_change next pending m m' :
  pending = None \/ pending = Some next -> idg_change pending m m' -> old_drivers next (idg m) (idg m').
Proof. intros Hp [-> |id p s n _ ->]; [apply old_refl|by apply old_insert]. Qed.

Definition old w w' : Prop := old_drivers (w_next_driver w) (idg (w_manager w)) (idg (w_manager w')).

Lemma old_keeps w w' : keeps (w_manager w) (w_manager w') -> old w w'.
Proof. intros H. unfold old. rewrite (keeps_idg _ _ H). apply old_refl. Qed.

Lemma old_sess w w' : sess (w_manager w') = sess (w_manager w) -> old w w'.
Proof. intros H. by apply old_keeps, sess_keeps. Qed.

Lemma old_removed id w w' : idg (w_manager w') = delete id (idg (w_manager w)) -> old w w'.
Proof. intros H. unfold old. rewrite H. apply old_delete. Qed.

Lemma close_matching_old next l m dr closed m' dr' :
  paired m -> close_matching l m dr = (closed, m', dr') -> old_drivers next (idg m) (idg m').
Proof.
  revert m dr closed. induction l as [|id l IH]; intros m dr closed Hp H; cbn in H; [injection H as <- <- <-; apply old_refl|].
  pose proof (remove_session_spec id m Hp) as Hrm. destruct (remove_session id m) as [[x|] m1].
  - destruct Hrm as (_ & _ & Hi & Hp1 & _). destruct (close_matching l m1 _) as [[closed1 m2] dr2] eqn:E.
    injection H as <- <- <-. intros id' p s d n H Hlt. pose proof (IH _ _ _ Hp1 E id' p s d n H Hlt) as H1.
    rewrite Hi in H1. by apply lookup_delete_Some in H1 as [_ H1].
  - destruct Hrm as [-> _]. by eapply IH.
Qed.

Lemma step_signal_old x fresh conn rtc w : world_ok w -> old w (step_signal x fresh conn rtc w).
Proof.
  intros Hw.
  assert (Happly : forall fresh, rg_kind x ≠ SkWebRtcClose -> old w (step_apply x fresh conn rtc w)).
  { intros fr Hk. unfold step_apply, signal_section. set (s0 := if fr then mkRt _ _ _ else _).
    assert (Hm0 : st_manager s0 = w_manager w) by by destruct fr.
    destruct (apply_signal_with_driver _ _ _ _ _ _ _ _) as [[r m] dr] eqn:E.
    apply apply_signal_effect in E as (He & _ & _); [|rewrite Hm0; by apply Hw|done]. rewrite Hm0 in He.
    apply signal_effect_idg in He as [Hc _]; [|by apply Hw].
    assert (Hold : old_drivers (w_next_driver w) (idg (w_manager w)) (idg m)) by (eapply old_change, Hc; destruct fr; auto).
    by destruct r as [o|e]; [destruct (bool_decide _)|]; destruct fr. }
  unfold step_signal. destruct (rg_kind x) eqn:Hk; try (by apply Happly); [|by apply old_sess].
  unfold close_remote_realtime_session. pose proof (take_remote_closed_spec (rg_realtime_id x) (rg_peer_id x)
    (rg_revision x) (rg_shared_id x) (w_manager w) (si_paired _ _ _ _ _ Hw)) as H. unfold w_manager in H.
  destruct (take_remote_closed_session _ _ _ _ _) as [[[s n]|e] m]; [|subst m; by apply old_sess].
  destruct H as (_ & _ & _ & _ & _ & Hi & _). by apply (old_removed (rg_realtime_id x)).
Qed.

Lemma log_consent_state dev x w : w_manager (log_consent dev x w) = w_manager w.
Proof. unfold log_consent. by destruct (rg_kind x), (consent_key dev x). Qed.

Lemma step_control_old dev x w : world_ok w -> old w (step_control dev x w).
Proof.
  intros Hw. unfold step_control. pose proof (claiming_control_sess dev (rg_kind x) (rg_realtime_id x) (rg_peer_id x)
    (rg_revision x) (rg_shared_id x) (rg_payload x) (w_wall w) (w_wall w) (w_manager w) (si_paired _ _ _ _ _ Hw)) as H.
  destruct (handle_claiming_control_signal _ _ _ _ _ _ _ _ _ _) as [[[[] [[s g]|]]|e] m]; try by apply old_sess.
  - destruct H as (_ & _ & _ & _ & Hi & _). apply (old_removed (rg_realtime_id x)). by rewrite log_consent_state.
  - apply old_sess. by rewrite log_consent_state.
Qed.

Lemma step_provisional_old dev x oid token w : old w (step_provisional dev x oid token w).
Proof.
  apply old_sess. unfold step_provisional.
  pose proof (provisional_signal_sess dev (rg_kind x) (rg_realtime_id x) (rg_peer_id x) (rg_revision x) (rg_shared_id x)
    (rg_payload x) oid token (w_mono w) (w_wall w) (w_wall w) (w_manager w)) as Hs.
  destruct (provisional_signal _ _ _ _ _ _ _ _ _ _ _ _ _) as [r m]. cbn [snd] in Hs. rewrite <-Hs.
  pose proof (log_consent_state dev x (set_w_manager m w)) as Hl.
  repeat case_match; try done; exact (f_equal sess Hl).
Qed.

Lemma step_claim_old a w : world_ok w -> old w (step_claim a w).
Proof.
  intros Hw.
  destruct a as [| | | | | | | |? op c|op|op conn rtc rtc_ice|op|op rtc_ice|op| | | | | | | | | | | | | | | |];
    try by apply old_sess.
  - cbn [step_claim]. pose proof (claim_begin_sess c (w_wall w) (w_manager w)) as Hs.
    destruct (w_claims w !! op); [by apply old_sess|]. destruct (claim_begin _ _ _) as [[start|e] m]; by apply old_sess.
  - cbn [step_claim]. destruct (w_claims w !! op) as [[c start| |]|]; try by apply old_sess.
    pose proof (take_provisional_claim_sess (cc_realtime_id c) (cc_claim_token c) (cs_epoch start) (w_manager w)) as Ht.
    destruct (take_provisional_claim _ _ _ _) as [t m]. by apply old_sess.
  - cbn [step_claim]. destruct (w_claims w !! op) as [[c start| |]|]; try by apply old_sess.
    unfold step_claim_apply. destruct (claim_apply _ _ _ _ _ _ _ _ _) as [[r m] dr] eqn:E.
    apply claim_apply_effect in E as (_ & _ & Hc); [|by apply Hw].
    assert (Hold : old_drivers (w_next_driver w) (idg (w_manager w)) (idg m)).
    { destruct Hc as [[-> _]|(r0 & He & _)]; [apply old_refl|].
      apply signal_effect_idg in He as [Hc _]; [|by apply Hw]. eapply old_change, Hc. auto. }
    by destruct r as [o|[[g|] e]]; [destruct (so_outbound o)|..].
  - cbn [step_claim]. destruct (w_claims w !! op) as [[]|]; by apply old_sess.
  - cbn [step_claim]. destruct (w_claims w !! op) as [[|c shared epoch g d answer|]|]; try by apply old_sess.
    destruct (claim_commit _ _ _ _ _ _ _ _ _ _ _) as [[[r cl] m] dr] eqn:E.
    apply claim_commit_spec in E as [Hk Hd]; [|by apply Hw]. destruct r; by apply old_keeps.
  - cbn [step_claim]. destruct (w_claims w !! op) as [[| |c shared epoch gen d]|]; try by apply old_sess.
    pose proof (rollback_sess c shared epoch gen d (w_manager w) (st_drivers (w_state w)) (si_paired _ _ _ _ _ Hw)) as H.
    unfold w_manager in H. destruct (rollback_incoming_claim _ _ _ _ _ _ _) as [[[s|] m] dr].
    + destruct H as (_ & _ & Hi & _). by eapply old_removed.
    + destruct H as [Hs _]. by apply old_sess.
Qed.

Lemma rt_step_old a w : world_ok w -> old w (rt_step a w).
Proof.
  intros Hw. destruct (rt_step_cases a w) as [-> | ->]; [|by apply old_sess].
  destruct a; try (by apply step_claim_old); cbn [rt_section].
  - destruct (_ && _); by apply old_sess.
  - unfold start_session. destruct (create_offer _ _) as [[o|e] p]; [|by apply old_sess].
    destruct (rt_sessions _ !! _) eqn:Hn; [by apply old_sess|]. unfold old. cbn [w_manager w_state set_w_state set_w_driver st_manager].
    unfold idg, ids, insert_new_session. cbn. rewrite !fmap_insert. cbn.
    rewrite <-(map_insert_zip_with (fun a b => (a, b))). apply old_insert. auto.
  - unfold remove_realtime_session_if_owned.
    pose proof (take_if_owned_spec realtime_id peer_id d (w_manager w) (si_paired _ _ _ _ _ Hw)) as H. unfold w_manager in H.
    destruct (take_realtime_session_if_owned _ _ _ _) as [[x|] m].
    + destruct H as (_ & _ & _ & Hi & _). by eapply old_removed.
    + destruct H as [-> _]. by apply old_sess.
  - unfold start_aborted.
    pose proof (take_if_owned_spec realtime_id peer_id d (w_manager w) (si_paired _ _ _ _ _ Hw)) as H. unfold w_manager in H.
    destruct (take_realtime_session_if_owned _ _ _ _) as [[x|] m].
    + destruct H as (_ & _ & _ & Hi & _). by eapply old_removed.
    + destruct H as [-> _]. by apply old_sess.
  - unfold stop_session. pose proof (remove_session_spec realtime_id (w_manager w) (si_paired _ _ _ _ _ Hw)) as H.
    unfold w_manager in H. destruct (remove_session _ _) as [[x|] m].
    + destruct H as (_ & _ & Hi & _). by eapply old_removed.
    + destruct H as [-> _]. by apply old_sess.
  - by apply step_signal_old.
  - by apply step_control_old.
  - by apply step_provisional_old.
  - apply old_sess, reject_begin_sess.
  - apply old_sess, reject_mark_sess.
  - apply old_sess, reject_finish_sess.
  - apply old_sess, discard_incoming_offer_sess.
  - destruct (bool_decide _); [|by apply old_sess].
    unfold close_realtime_sessions_for_session, close_for_connection_session_with_hook.
    destruct (close_matching _ _ _) as [[closed m] dr] eqn:E.
    apply (close_matching_old (w_next_driver w)) in E; [done|by apply Hw].
  - apply old_sess. unfold step_worker. repeat case_match; done.
  - apply old_sess. unfold step_worker. repeat case_match; done.
  - apply old_sess. unfold step_worker. repeat case_match; done.
  - apply old_sess. unfold step_worker. repeat case_match; done.
  - apply old_sess. unfold step_worker. repeat case_match; first [done|apply expire_sess].
  - cbn [step_media]. destruct (create_endpoint _ _ _ _ _ _ _) as [[x next] r]. by apply old_sess.
  - cbn [step_media]. destruct (release_endpoint _ _ _) as [[x r] dr]. by apply old_sess.
  - by apply old_sess.
  - intros id p s d n H. exfalso. apply idg_lookup in H as [_ H]. done.
  - cbn [step_media]. destruct (st_drivers _ !! d); by apply old_sess.
  - cbn [step_media]. destruct (bool_decide _); by apply old_sess.
Qed.

(** ** Claims in progress *)

Definition op_command (op : ClaimOp) : ClaimCommand :=
  match op with ClaimStarted c _ | ClaimApplied c _ _ _ _ _ | ClaimAborting c _ _ _ _ => c end.
Definition op_epoch (op : ClaimOp) : Z :=
  match op with ClaimStarted _ start => cs_epoch start | ClaimApplied _ _ e _ _ _ | ClaimAborting _ _ e _ _ => e end.
Definition op_shared (op : ClaimOp) : string :=
  match op with ClaimStarted _ start => cs_shared_id start | ClaimApplied _ s _ _ _ _ | ClaimAborting _ s _ _ _ => s end.
(** The driver of the claim and the generation it would roll back. *)
Definition op_driver (op : ClaimOp) : option (Z * option Z) :=
  match op with
  | ClaimStarted _ _ => None
  | ClaimApplied _ _ _ g d _ => Some (d, Some g)
  | ClaimAborting _ _ _ g d => Some (d, g)
  end.

(** A session that holds the driver of a claim is the claim's. *)
Definition op_owns g (next : Z) (op : ClaimOp) : Prop :=
  forall d gen, op_driver op = Some (d, gen) -> d < next /\
    forall id p s n, g !! id = Some ((p, s, Some d), n) ->
      id = cc_realtime_id (op_command op) /\ p = cc_peer_id (op_command op) /\ s = op_shared op /\ gen = Some n.

(** The offer of a claim, while it is there, is being claimed. *)
Definition op_claiming v (op : ClaimOp) : Prop :=
  forall id b, pv_bindings v !! id = Some b -> pb_epoch b = op_epoch op -> pb_state b = Claiming.

Definition ops_inv w : Prop :=
  forall i op, w_claims w !! i = Some op -> op_owns (idg (w_manager w)) (w_next_driver w) op /\ op_claiming (pview (w_manager w)) op.

Lemma pstep_claiming now v pub0 pub acts n v' op :
  pstep now v pub acts n v' -> pair_inv v pub0 -> pv_epoch v + n < 2 ^ 64 -> op_epoch op ∈ pub0.*1 ->
  op_claiming v op -> op_claiming v' op.
Proof.
  intros H Hp Hroom Hin Hc. assert (H0 : 0 <= pv_epoch v) by apply Hp.
  assert (Hle : op_epoch op <= pv_epoch v) by (apply told_epoch in Hin as (o & Hin%(pi_told _ _ Hp)); lia).
  destruct H as [p r wake Hsp Hsr _|c Hrem|key Hk Hlen|id b Hnb Hnr Hslots He Hreq Hok|id b r Hnb Hnr He Hreq Hpeer Hsh Hok
    |id b b' Hl Hk Hok|id b c eff dl Hl Hreq Heff Hcok|id r Hnb Hnr Hslots He Hok]; unfold op_claiming in *; cbn; try done.
  - intros id b H. eapply lookup_weaken in H; [|done]. by eapply Hc.
  - rewrite fresh_epoch_room in He by lia. intros id' b' [[<- <-]|[_ H]]%lookup_insert_Some Heq; [lia|by eapply Hc].
  - intros id' b' [[<- <-]|[_ H]]%lookup_insert_Some Heq; [|by eapply Hc].
    destruct (pi_request _ _ Hp _ _ Hnr). by rewrite <-He, Heq.
  - intros id' b0 [[<- <-]|[_ H]]%lookup_insert_Some Heq; [|by eapply Hc].
    destruct Hk as (Hke & _ & _ & _ & _ & _ & _ & _ & _ & Hst). apply Hst. eapply Hc; [done|]. congruence.
  - intros id' b0 [[<- <-]|[_ H]]%lookup_insert_Some Heq; [|by eapply Hc]. cbn in *. by eapply Hc.
Qed.

Lemma psteps_claiming now v pub0 pub acts n v' op :
  psteps now v pub acts n v' -> bounds_inv v -> pair_inv v pub0 -> pv_epoch v + n < 2 ^ 64 -> op_epoch op ∈ pub0.*1 ->
  op_claiming v op -> op_claiming v' op.
Proof.
  intros H Hb Hp. induction H as [|pub1 acts1 n1 v1 pub2 acts2 n2 v2 H1 IH H2]; intros Hroom Hin Hc; [done|].
  assert (0 <= n2) by (destruct H2; lia).
  destruct (psteps_pairs _ _ _ _ _ _ _ H1 Hb Hp) as [Hp1 He1]; [lia|].
  eapply pstep_claiming; [done|exact Hp1|lia| |apply IH; [lia|done..]].
  rewrite fmap_app. apply elem_of_app. by left.
Qed.

Lemma op_told_epoch pub op : op_told pub op -> op_epoch op ∈ pub.*1.
Proof. destruct op; intros (o & Hin & _); apply list_elem_of_fmap; by eexists (_, o). Qed.

(** What a step does to a claim that stays. *)
Lemma op_owns_step a w op : world_ok w -> op_owns (idg (w_manager w)) (w_next_driver w) op ->
  w_next_driver w <= w_next_driver (rt_step a w) -> op_owns (idg (w_manager (rt_step a w))) (w_next_driver (rt_step a w)) op.
Proof.
  intros Hw Ho Hle d gen Hd. destruct (Ho d gen Hd) as [Hlt Hs]. split; [lia|].
  intros id p s n H. apply Hs. by apply (rt_step_old a w Hw).
Qed.

Lemma rt_step_next_driver a w : w_next_driver w <= w_next_driver (rt_step a w).
Proof.
  destruct (rt_step_cases a w) as [-> | ->]; [|done]. destruct a; cbn [rt_section];
    unfold step_signal, step_apply, step_control, step_provisional, log_consent, step_worker, step_media, step_claim,
      step_claim_apply;
    repeat case_match; cbn; lia.
Qed.

Lemma op_claiming_step a w op :
  world_ok w -> pairing_inv w -> epoch_room w -> op_told (w_published w) op ->
  op_claiming (pview (w_manager w)) op -> op_claiming (pview (w_manager (rt_step a w))) op.
Proof.
  intros Hw [Hb Hp Hc] Hroom Ht Ho.
  assert (Hcase : a = AWorkerWake \/ a ≠ AWorkerWake) by (destruct a; auto).
  destruct Hcase as [->|Ha].
  - destruct (wake_step_pview w) as [-> | ->]; done.
  - destruct (rt_step_advances a w Hw Ha) as (pub & acts & n & Hn & H & _). unfold epoch_room in Hroom.
    eapply psteps_claiming; [done|done|done|cbn; lia|by apply op_told_epoch|done].
Qed.

(** The claim of a started operation, and the driver of one that was applied. *)
Lemma claim_begin_claiming c now m start m' pub :
  claim_begin c now m = (Ok start, m') -> pair_inv (pview m) pub -> op_claiming (pview m') (ClaimStarted c start).
Proof.
  unfold claim_begin. intros H Hp. set (m1 := prune_provisional_bindings now m) in H.
  assert (Hsub : forall id b, provisional m1 !! id = Some b -> entry_epoch (pview m) id (pb_epoch b)).
  { intros id b Hl. left. exists b. split; [|done]. revert Hl. unfold m1, prune_provisional_bindings.
    destruct (negb _ || negb _); cbn; by intros [Hl _]%map_lookup_filter_Some. }
  destruct (provisional m1 !! cc_realtime_id c) as [b|] eqn:Hl; [|done].
  destruct (_ || is_expired now b); [done|]. injection H as <- <-.
  intros id b' H He. cbn in H, He. apply lookup_insert_Some in H as [[<- <-]|[Hne H]]; [done|].
  destruct Hne. eapply (pi_unique _ _ Hp); [by apply Hsub|]. rewrite <-He. by apply Hsub.
Qed.

Lemma fresh_driver_free w id p s n : world_ok w -> idg (w_manager w) !! id ≠ Some ((p, s, Some (w_next_driver w)), n).
Proof.
  intros [_ [Ha _ Hf] _] H. apply Ha, Hf in H. lia.
Qed.

Lemma claim_apply_owns c start conn rtc rtc_ice w dr r m dr' gen :
  world_ok w -> claim_apply c start (w_next_driver w) conn (w_wall w) rtc rtc_ice (w_manager w) dr = (r, m, dr') ->
  match r with Ok o => gen = Some (so_generation o) | Err (g, _) => g = Some gen end ->
  forall id p s n, idg m !! id = Some ((p, s, Some (w_next_driver w)), n) ->
    id = cc_realtime_id c /\ p = cc_peer_id c /\ s = cs_shared_id start /\ gen = Some n.
Proof.
  intros Hw E Hgen id p s n Hid. apply claim_apply_effect in E as (_ & _ & Hc); [|by apply Hw].
  destruct Hc as [[-> [e ->]]|(r0 & He & Hr)]; [by destruct (fresh_driver_free w id p s n Hw)|].
  destruct He as [Hi Hg _ _|v remote o Hl _ _ _ _ _ Hi Hg _|o Hl -> Hso _ Hi Hg Hn].
  - assert (idg m = idg (w_manager w)) as Heq by by apply idg_ext. rewrite Heq in Hid.
    by destruct (fresh_driver_free w id p s n Hw).
  - apply idg_lookup in Hid as [[rem Hid] Hn]. rewrite Hi, lookup_insert_Some in Hid. rewrite Hg in Hn.
    assert (Hold : exists rem', ids (w_manager w) !! id = Some ((p, s, Some (w_next_driver w)), rem')).
    { destruct Hid as [[<- [= -> _]]|[_ Hid]]; eauto. }
    destruct (fresh_driver_free w id p s n Hw). by apply idg_lookup.
  - apply idg_lookup in Hid as [[rem Hid] Hgn]. rewrite Hi, lookup_insert_Some in Hid. rewrite Hg in Hgn.
    destruct Hid as [[<- [= <- <- _]]|[Hne Hid]].
    + split_and!; [done..|]. rewrite lookup_insert_eq in Hgn. injection Hgn as <-.
      destruct r as [o'|[g' e]]; [congruence|]. destruct Hr as (g'' & -> & Hr). injection Hgen as ->. rewrite (Hr o) by done. congruence.
    + rewrite lookup_insert_ne in Hgn by done. destruct (fresh_driver_free w id p s n Hw). apply idg_lookup. eauto.
Qed.

Local Ltac claims_cbn H :=
  cbn [w_claims set_w_claims log_accepted log_commit set_w_manager set_w_state set_w_driver] in H.

Lemma rt_step_ops a w :
  world_ok w -> pairing_inv w -> epoch_room w -> ops_inv w -> ops_inv (rt_step a w).
Proof.
  intros Hw Hp Hroom Ho. pose proof (rt_step_next_driver a w) as Hnext.
  assert (Hstay : forall i op, w_claims w !! i = Some op ->
    op_owns (idg (w_manager (rt_step a w))) (w_next_driver (rt_step a w)) op /\ op_claiming (pview (w_manager (rt_step a w))) op).
  { intros i op Hi. destruct (Ho i op Hi) as [H1 H2]. split; [by apply op_owns_step|].
    apply op_claiming_step; try done. by eapply (ci_ops _ _ _ _ (pg_claims _ Hp)). }
  destruct (match a with AClaimBegin _ _ _ | AClaimNoDriver _ | AClaimApply _ _ _ _ | AClaimUnsent _ | AClaimCommit _ _
      | AClaimRollback _ => true | _ => false end) eqn:Hk.
  2: { destruct (rt_step_claims a w) as [H1 _]; [by destruct a|]. intros i op Hi. rewrite H1 in Hi. by apply Hstay in Hi. }
  intros i op Hi. destruct (rt_step_cases a w) as [E0|E0]; rewrite E0 in Hi, Hstay, Hnext |- *; [|by apply Ho in Hi].
  clear E0. destruct a as [| | | | | | | |? j c|j|j conn rtc rtc_ice|j|j rtc_ice|j| | | | | | | | | | | | | | | |]; try done;
    cbn [rt_section step_claim] in *.
  - destruct (w_claims w !! j) eqn:Hj; [by eapply Hstay|].
    destruct (claim_begin c (w_wall w) (w_manager w)) as [[start|e] m] eqn:E; [|by eapply Hstay].
    claims_cbn Hi; apply lookup_insert_Some in Hi as [[<- <-]|[_ Hi]]; [|by eapply Hstay].
    split; [by intros d gen ?|]. by eapply claim_begin_claiming, Hp.
  - destruct (w_claims w !! j) as [[c start| |]|]; try by eapply Hstay.
    destruct (take_provisional_claim _ _ _ _) as [t m]. claims_cbn Hi; apply lookup_delete_Some in Hi as [_ Hi]. by eapply Hstay.
  - destruct (w_claims w !! j) as [[c start| |]|] eqn:Hj; try by eapply Hstay. destruct (Hstay _ _ Hj) as [_ Hcl].
    unfold step_claim_apply in *. destruct (claim_apply _ _ _ _ _ _ _ _ _) as [[r m] dr] eqn:E.
    assert (Hown : forall gen op', match r with Ok o => gen = Some (so_generation o) | Err (g, _) => g = Some gen end ->
      op_driver op' = Some (w_next_driver w, gen) -> op_command op' = c -> op_shared op' = cs_shared_id start ->
      op_owns (idg m) (w_next_driver w + 1) op').
    { intros gen op' Hg Hd Hc Hs d gen' Hd'. rewrite Hd in Hd'. injection Hd' as <- <-. split; [lia|].
      rewrite Hc, Hs. by eapply claim_apply_owns. }
    destruct r as [o|[[g|] e]]; [destruct (so_outbound o)|..].
    + claims_cbn Hi; apply lookup_insert_Some in Hi as [[<- <-]|[_ Hi]]; [|by eapply Hstay]. split; [by eapply Hown|exact Hcl].
    + claims_cbn Hi; apply lookup_insert_Some in Hi as [[<- <-]|[_ Hi]]; [|by eapply Hstay]. split; [by eapply Hown|exact Hcl].
    + claims_cbn Hi; apply lookup_insert_Some in Hi as [[<- <-]|[_ Hi]]; [|by eapply Hstay]. split; [by eapply Hown|exact Hcl].
    + claims_cbn Hi; apply lookup_delete_Some in Hi as [_ Hi]. by eapply Hstay.
  - destruct (w_claims w !! j) as [[|c shared e g d answer|]|] eqn:Hj; try by eapply Hstay.
    claims_cbn Hi; apply lookup_insert_Some in Hi as [[<- <-]|[_ Hi]]; [|by eapply Hstay]. exact (Hstay _ _ Hj).
  - destruct (w_claims w !! j) as [[|c shared e g d answer|]|] eqn:Hj; try by eapply Hstay.
    destruct (claim_commit _ _ _ _ _ _ _ _ _ _ _) as [[[r cl] m] dr]. destruct r.
    + claims_cbn Hi; apply lookup_delete_Some in Hi as [_ Hi]. by eapply Hstay.
    + claims_cbn Hi; apply lookup_insert_Some in Hi as [[<- <-]|[_ Hi]]; [|by eapply Hstay]. exact (Hstay _ _ Hj).
  - destruct (w_claims w !! j) as [[| |c shared e gen d]|]; try by eapply Hstay.
    destruct (rollback_incoming_claim _ _ _ _ _ _ _) as [[removed m] dr]. claims_cbn Hi; apply lookup_delete_Some in Hi as [_ Hi]. by eapply Hstay.
Qed.

Lemma rt_run_ops l w :
  world_ok w -> pairing_inv w -> ops_inv w -> provisional_epoch (w_manager w) + len l < 2 ^ 64 ->
  ops_inv (rt_run l w).
Proof.
  revert w. induction l as [|a l IH]; intros w Hw Hp Ho Hlen; [done|]. unfold len in *. cbn [length] in Hlen.
  assert (Hroom : epoch_room w) by (unfold epoch_room; lia).
  destruct (rt_step_pairing a w Hw Hp Hroom) as [Hp' He]. unfold epoch_step in He.
  apply IH; [by apply rt_step_ok|done|by apply rt_step_ops|lia].
Qed.

(** ** The rollback *)

Lemma peer_close_closed p : wp_closed (peer_close p) = true.
Proof. done. Qed.

Lemma close_session_closed s d dr p :
  rs_driver s = Some d -> close_session s dr !! d = Some p -> wp_closed p = true.
Proof.
  unfold close_session, with_session_peer. intros ->. destruct (dr !! d) as [p0|] eqn:Hp; cbn; [|congruence].
  rewrite lookup_insert_eq. by intros [= <-].
Qed.

Lemma close_driver_closed d dr p : close_driver d dr !! d = Some p -> wp_closed p = true.
Proof. unfold close_driver. rewrite lookup_alter_eq. destruct (dr !! d); cbn; [|done]. by intros [= <-]. Qed.

(** The binding of a claim, while it is there, is the one a rollback removes. *)
Lemma claim_binding_matches w i c shared e gen d id b :
  pairing_inv w -> ops_inv w -> w_claims w !! i = Some (ClaimAborting c shared e gen d) ->
  provisional (w_manager w) !! id = Some b -> pb_epoch b = e ->
  id = cc_realtime_id c /\ claim_matches (cc_claim_token c) e b = true.
Proof.
  intros [Hb Hp Hc] Ho Hi Hl He. destruct (Ho _ _ Hi) as [_ Hst]. specialize (Hst id b Hl He).
  destruct (ci_ops _ _ _ _ Hc _ _ Hi) as (o & Hin & Hid & Hpeer & Hsh & Htok).
  pose proof (pi_binding _ _ Hp id b Hl) as Hpub. pose proof (bi_bindings _ Hb id b Hl) as Hok. rewrite He in Hpub.
  destruct (pb_published b); [|by destruct Hpub; apply list_elem_of_fmap; exists (e, o)].
  destruct Hpub as (o' & Hin' & Hid' & _ & _ & Htok').
  assert (o' = o) as ->.
  { pose proof (pi_once _ _ Hp) as Hnd. apply (elem_of_list_to_map (M:=gmap Z)) in Hin, Hin'; [congruence|done..]. }
  rewrite (bo_id _ _ Hok) in Hid'. split; [congruence|]. unfold claim_matches.
  rewrite !bool_decide_true by congruence. rewrite (proj2 (Z.eqb_eq _ _)) by done. done.
Qed.

Lemma take_claim_gone now id token e m b :
  provisional m !! id = Some b -> claim_matches token e b = true ->
  provisional (take_provisional_claim id token e m).2 !! id = None /\ quiet now m (take_provisional_claim id token e m).2.
Proof.
  intros Hl Hc. split; [|apply take_provisional_claim_quiet]. unfold take_provisional_claim. rewrite Hl, Hc.
  apply lookup_delete_eq.
Qed.

Lemma rollback_no_binding w i c shared e gen d m' dr' removed :
  world_ok w -> pairing_inv w -> ops_inv w -> w_claims w !! i = Some (ClaimAborting c shared e gen d) ->
  rollback_incoming_claim c shared e gen d (w_manager w) (st_drivers (w_state w)) = (removed, m', dr') ->
  forall id, ~ entry_epoch (pview m') id e.
Proof.
  intros Hw Hp Ho Hi E id He.
  pose proof (rollback_quiet 0 c shared e gen d (w_manager w) (st_drivers (w_state w)) (si_paired _ _ _ _ _ Hw)) as Hq.
  rewrite E in Hq. cbn [fst snd] in Hq. pose proof (psteps_old _ _ _ _ _ _ id e Hq eq_refl He) as Hold.
  destruct (ci_ops _ _ _ _ (pg_claims _ Hp) _ _ Hi) as (o & Hin & _).
  assert (Htold : e ∈ (w_published w).*1) by (apply list_elem_of_fmap; by exists (e, o)).
  destruct Hold as [(b & Hl & Heb)|(r & Hl & <-)]; [|by destruct (pi_request _ _ (pg_pairs _ Hp) _ _ Hl)].
  cbn in Hl. destruct (claim_binding_matches w i c shared e gen d id b Hp Ho Hi Hl Heb) as [-> Hm].
  assert (Hgone : provisional m' !! cc_realtime_id c = None).
  { unfold rollback_incoming_claim in E.
    destruct (take_claim_gone 0 _ _ _ _ _ Hl Hm) as [Hnone _]. destruct (take_provisional_claim _ _ _ _) as [t m1]. cbn [snd] in Hnone.
    destruct (match gen with Some _ => _ | None => _ end); [|by injection E as <- <- <-].
    pose proof (take_if_owned_prov (cc_realtime_id c) (cc_peer_id c) d m1) as Hpr.
    destruct (take_realtime_session_if_owned _ _ _ _) as [x m2]. injection E as <- <- <-. cbn [snd] in Hpr.
    apply prov_pview in Hpr. apply (f_equal pv_bindings) in Hpr. cbn in Hpr. by rewrite Hpr. }
  destruct He as [(b' & Hl' & _)|(r' & Hl' & _)]; cbn in Hl'; [congruence|].
  eapply (bi_disjoint _ (pg_bounds _ Hp)); [exact Hl|]. exact (lookup_weaken _ _ _ _ Hl' (quiet_requests _ _ _ Hq)).
Qed.

Lemma rollback_no_session w i c shared e gen d m' dr' removed :
  world_ok w -> ops_inv w -> w_claims w !! i = Some (ClaimAborting c shared e gen d) ->
  rollback_incoming_claim c shared e gen d (w_manager w) (st_drivers (w_state w)) = (removed, m', dr') ->
  (forall id s, rt_sessions m' !! id = Some s -> rs_driver s ≠ Some d)
  /\ (forall p, dr' !! d = Some p -> wp_closed p = true).
Proof.
  intros Hw Ho Hi E. destruct (Ho _ _ Hi) as [Hown _]. destruct (Hown d gen eq_refl) as [_ Hs]. cbn in Hs.
  unfold rollback_incoming_claim in E.
  pose proof (take_provisional_claim_sess (cc_realtime_id c) (cc_claim_token c) e (w_manager w)) as Ht.
  destruct (take_provisional_claim _ _ _ _) as [t m1]. cbn [snd] in Ht. destruct (sess_idg _ _ Ht) as [Hidg Hp1].
  specialize (Hp1 (si_paired _ _ _ _ _ Hw)).
  assert (Hfound : forall id s, rt_sessions m1 !! id = Some s -> rs_driver s = Some d ->
    id = cc_realtime_id c /\ (match gen with Some g => exact_claim_responder c shared g d m1 | None => false end) = true).
  { intros id s Hl Hd. destruct (session_has_generation id s m1 Hp1 Hl) as [n Hn].
    pose proof (idg_session m1 id s n Hl Hn) as Hx. rewrite Hidg in Hx. unfold vw in Hx. rewrite Hd in Hx.
    destruct (Hs _ _ _ _ Hx) as (-> & Hpe & Hsh & ->). split; [done|]. unfold exact_claim_responder, session_generation.
    by rewrite Hl, Hn, !bool_decide_true. }
  destruct (match gen with Some g => exact_claim_responder c shared g d m1 | None => false end).
  - pose proof (take_if_owned_spec (cc_realtime_id c) (cc_peer_id c) d m1 Hp1) as H.
    destruct (take_realtime_session_if_owned _ _ _ _) as [[x|] m2]; injection E as <- <- <-.
    + destruct H as (Hox & Hx & Hids & _). unfold owns_driver in Hox. bool_facts. split; [|by intros p; apply close_session_closed].
      intros id s Hl Hd. assert (Hm : ids m2 !! id = Some (vw s, rs_remote_revision s)) by (apply ids_session; eauto).
      rewrite Hids in Hm. apply lookup_delete_Some in Hm as [Hne Hm]. apply ids_session in Hm as (s' & Hl' & Hv & _).
      destruct (Hfound id s' Hl') as [-> _]; [|done]. injection Hv as _ _ Hv. congruence.
    + destruct H as [-> Hnot]. split; [|by intros p; apply close_driver_closed].
      intros id s Hl Hd. destruct (Hfound id s Hl Hd) as [-> Hexact]. specialize (Hnot s Hl). unfold owns_driver in Hnot.
      rewrite Hd, (bool_decide_true (Some d = Some d)), andb_true_r in Hnot by done.
      destruct (session_has_generation _ s m1 Hp1 Hl) as [n Hn]. pose proof (idg_session m1 _ s n Hl Hn) as Hx.
      rewrite Hidg in Hx. unfold vw in Hx. rewrite Hd in Hx. destruct (Hs _ _ _ _ Hx) as (_ & Hpe & _).
      rewrite bool_decide_true in Hnot; done.
  - injection E as <- <- <-. split; [|by intros p; apply close_driver_closed].
    intros id s Hl Hd. by destruct (Hfound id s Hl Hd).
Qed.
End Rollback.
