(* ===== verification/RealtimeTheorems.v ===== *)
(** * What the realtime sessions guarantee

    The theorems about runs of the realtime manager, each with a run that meets its
    hypotheses. *)
From S2P Require Import Prelude VideoQueue Rtp ScreenVideo MediaQos WebRtcPeer RealtimeWire Realtime RealtimeClaims.
From S2P Require Import RealtimeMedia RealtimeRuns RealtimeProofs RealtimeLeases RealtimeOrder RealtimeShares RealtimePairing RealtimeExpiry RealtimeRollback.

Section Theorems.
Context {HF : H264Format} {RC : RealtimeCodec}.

Lemma realtime_run_ok l gen rt wall mono : world_ok (rt_run l (world_init gen rt wall mono)).
Proof. apply rt_run_ok, world_init_ok. Qed.

Lemma run_bounds l gen rt wall mono : bounds_inv (pview (w_manager (rt_run l (world_init gen rt wall mono)))).
Proof. apply rt_run_bounds; [apply world_init_ok|apply world_init_bounds]. Qed.

Lemma run_pairing l gen rt wall mono :
  len l < 2 ^ 64 -> pairing_inv (rt_run l (world_init gen rt wall mono)).
Proof. intros Hl. apply rt_run_pairing; [apply world_init_ok|apply world_init_pairing|done]. Qed.

Lemma run_ops l gen rt wall mono : len l < 2 ^ 64 -> ops_inv (rt_run l (world_init gen rt wall mono)).
Proof. intros Hl. apply rt_run_ops; [apply world_init_ok|apply world_init_pairing| |done]. by intros i op. Qed.

(** C21. Whatever the order of commands, signals, I/O failures and endpoint calls,
    a lease of the media registry names a live session: same peer, same driver and
    the generation the session has now, with the driver alive and held by no other
    session; and each session has at most one lease per direction.  (Between the
    closing of all sessions and the last revocation at shutdown leases may be
    stale.) *)
Theorem media_leases_live l gen rt wall mono e lease :
  let w := rt_run l (world_init gen rt wall mono) in
  w_closing w = false -> endpoints (st_registry (w_state w)) !! e = Some lease ->
  (exists s, rt_sessions (w_manager w) !! el_realtime_id lease = Some s /\ rs_peer_id s = el_peer_id lease
     /\ rs_driver s = Some (el_driver lease)
     /\ session_generation (el_realtime_id lease) (w_manager w) = Some (el_session_generation lease))
  /\ is_Some (st_drivers (w_state w) !! el_driver lease)
  /\ (forall id s, rt_sessions (w_manager w) !! id = Some s -> rs_driver s = Some (el_driver lease) ->
        id = el_realtime_id lease)
  /\ (forall e' lease', endpoints (st_registry (w_state w)) !! e' = Some lease' ->
        el_realtime_id lease' = el_realtime_id lease -> el_direction lease' = el_direction lease -> e' = e).
Proof.
  intros w Hcl He. pose proof (realtime_run_ok l gen rt wall mono) as [Hp [Ha Hu _] Hr]. fold w in Hp, Ha, Hu, Hr.
  destruct (Hr Hcl) as [Hl _ Huniq]. destruct (Hl e lease He) as [_ [shared Hs]].
  pose proof Hs as [[rem (s & Hs' & Hv & _)%ids_session] Hg]%idg_lookup. injection Hv as Hv1 Hv2 Hv3.
  split_and!.
  - by exists s.
  - apply elem_of_dom. by eapply Ha.
  - intros id s' Hl' Hd. destruct (session_has_generation id s' _ Hp Hl') as [n Hn].
    eapply Hu; [|exact Hs]. rewrite (idg_session _ id s' n) by done. unfold vw. by rewrite Hd.
  - intros e' lease' He' Hid Hdir. by eapply Huniq.
Qed.

(** C20. An offer is told to the application at most once, and only with a request of
    the same peer, session instance and identifier.  A claim is committed at most
    once per offer, only for an offer that was told to the application, with its
    token, and the session that then holds the identifier is the claim's own: the
    peer and session instance of the offer, the driver and the generation of the
    claim. *)
Theorem incoming_claims_settled l gen rt wall mono :
  len l < 2 ^ 64 ->
  let w := rt_run l (world_init gen rt wall mono) in
  NoDup (w_published w).*1 /\ NoDup (cm_epoch <$> w_commits w)
  /\ (forall e o, (e, o) ∈ w_published w ->
        sc_realtime_id (io_request o) = io_realtime_id o /\ sc_sender_peer_id (io_request o) = io_peer_id o
        /\ sc_shared_session_instance_id (io_request o) = io_shared_id o
        /\ decision_try_from (sc_decision (io_request o)) = Some DecisionRequest)
  /\ (forall cm, cm ∈ w_commits w ->
        exists o s, (cm_epoch cm, o) ∈ w_published w /\ cm_session cm = Some s
          /\ io_realtime_id o = cc_realtime_id (cm_command cm) /\ io_claim_token o = cc_claim_token (cm_command cm)
          /\ rs_peer_id s = io_peer_id o /\ rs_shared_id s = io_shared_id o
          /\ rs_driver s = Some (cm_driver cm) /\ cm_session_generation cm = Some (cm_generation cm)).
Proof.
  intros Hl w. pose proof (run_pairing l gen rt wall mono Hl) as [Hb Hp Hc]. fold w in Hb, Hp, Hc. split_and!.
  - apply Hp.
  - apply Hc.
  - intros e o [_ Ho]%(pi_told _ _ Hp). exact Ho.
  - intros cm (s & Hs & (o & Hin & Hid & Hpeer & Hsh & Htok) & Hpeer' & Hd & Hg)%(ci_commits _ _ _ _ Hc).
    exists o, s. split_and!; congruence.
Qed.

(** C25. Rolling back a claim that was not committed leaves nothing of it: no session
    holds its driver, the driver's peer is closed, and neither an offer nor a request
    of its epoch is left, whatever happened since the claim began. *)
Theorem failed_claims_rolled_back l gen rt wall mono op c shared e generation d :
  len l < 2 ^ 64 ->
  let w := rt_run l (world_init gen rt wall mono) in
  w_claims w !! op = Some (ClaimAborting c shared e generation d) ->
  let w' := rt_step (AClaimRollback op) w in
  (forall id s, rt_sessions (w_manager w') !! id = Some s -> rs_driver s ≠ Some d)
  /\ (forall p, st_drivers (w_state w') !! d = Some p -> wp_closed p = true)
  /\ (forall id b, provisional (w_manager w') !! id = Some b -> pb_epoch b ≠ e)
  /\ (forall id r, provisional_requests (w_manager w') !! id = Some r -> pr_epoch r ≠ e)
  /\ w_claims w' !! op = None.
Proof.
  intros Hl w Hop w'. pose proof (realtime_run_ok l gen rt wall mono) as Hw. pose proof (run_pairing l gen rt wall mono Hl) as Hp.
  pose proof (run_ops l gen rt wall mono Hl) as Ho. fold w in Hw, Hp, Ho. subst w'. cbn [rt_step admitted rt_section step_claim]. rewrite Hop.
  change (st_manager (w_state w)) with (w_manager w).
  destruct (rollback_incoming_claim _ _ _ _ _ _ _) as [[removed m] dr] eqn:E.
  destruct (rollback_no_session w op c shared e generation d m dr removed Hw Ho Hop E) as [Hs Hd].
  pose proof (rollback_no_binding w op c shared e generation d m dr removed Hw Hp Ho Hop E) as Hb.
  split_and!; [exact Hs|exact Hd| | |apply lookup_delete_eq].
  - intros id b Hx He. destruct (Hb id). left. eauto.
  - intros id r Hx He. destruct (Hb id). right. eauto.
Qed.

(** C23. The state kept for offers that nobody claimed is bounded, whatever peers
    send: at most 32 identifiers, at most 128 candidates of at most 8 KiB and 256 KiB
    per offer, counted exactly and without repetition, all of the offer's revision;
    at most 256 remembered actions per peer.  An identifier is never both an offer
    and a request, and an offer has been told to the application exactly when it has
    its request. *)
Theorem provisional_bounded l gen rt wall mono :
  let m := w_manager (rt_run l (world_init gen rt wall mono)) in
  provisional_slot_count m <= MAX_PROVISIONAL_OPERATIONS
  /\ (forall sender entries, replay_cache m !! sender = Some entries -> len entries <= MAX_PROVISIONAL_REPLAY_KEYS_PER_PEER)
  /\ forall id b, provisional m !! id = Some b ->
       (pb_state b = Pending \/ pb_state b = Claiming) /\ provisional_requests m !! id = None
       /\ pb_published b = bool_decide (is_Some (pb_request b))
       /\ pb_effective_expires_at_ms b <= pb_binding_expires_at_ms b
       /\ len (pb_ice b) <= MAX_PROVISIONAL_ICE_CANDIDATES /\ NoDup (pb_ice b)
       /\ pb_ice_bytes b = ice_bytes (pb_ice b) /\ pb_ice_bytes b <= MAX_PROVISIONAL_ICE_TOTAL_BYTES
       /\ forall i, i ∈ pb_ice b -> ic_revision i = pb_offer_revision b /\ len (ic_payload i) <= MAX_PROVISIONAL_ICE_CANDIDATE_BYTES.
Proof.
  intros m. pose proof (run_bounds l gen rt wall mono) as [Hb _ Hd Hs Hr]. fold m in Hb, Hd, Hs, Hr. split_and!.
  - exact Hs.
  - intros sender entries H. specialize (Hr sender). unfold remembered in Hr. cbn in Hr. by rewrite H in Hr.
  - intros id b Hl. destruct (Hb id b Hl) as [_ Hst (H1 & H2 & H3 & H4 & H5) _ Hpub He]. split_and!; try done.
    + destruct (provisional_requests m !! id) eqn:E; [|done]. by destruct (Hd id b _ Hl E).
    + intros i Hi. rewrite Forall_forall in H5. by apply H5.
Qed.



(** C26. The expiry worker does not oversleep: once it runs, it can by its own steps
    reach a state in which the offers and requests left are exactly those whose
    deadline has not passed. *)
Theorem expiry_worker_clears l gen rt wall mono :
  let w := rt_run l (world_init gen rt wall mono) in
  worker_runs w ->
  exists l', forallb is_worker_action l' = true /\
    forall id dl, has_deadline (pview (w_manager (rt_run l' w))) id dl
      <-> has_deadline (pview (w_manager w)) id dl /\ w_mono w < dl.
Proof.
  intros w Hr. assert (Hk : worker_ok w) by (apply rt_run_worker_ok; [apply world_init_ok|done]).
  destruct (worker_clears w (run_bounds l gen rt wall mono) Hk Hr) as (l' & Hl' & [H1 H2] & H3).
  exists l'. split; [done|]. intros id dl. split; [by eauto|]. intros [Ha Hb]. auto.
Qed.
End Theorems.

(** ** A run

    An offer and its request arrive, the application claims the offer, and the claim
    is committed; the codec knows the two messages of the run. *)

#[local] Instance example_format : H264Format := {|
  Payloader := unit;
  payloader_default := tt;
  payload := fun _ data st => (Ok [data], st);
  Depacketizer := unit;
  depacketizer_default := tt;
  depacketize := fun data st => (Ok data, st);
  NALU_TYPE_BITMASK := 31;
  FUA_NALU_TYPE := 28;
  FUA_HEADER_SIZE := 2;
  STAPA_NALU_TYPE := 24;
  STAPA_NALU_LENGTH_SIZE := 2;
|}.

Definition example_id : string := "0123456789abcdef0123456789abcdef".
Definition example_instance : string := "00112233445566778899aabbccddeeff".

Definition example_request : ScreenShareConsentV2 :=
  mkConsent 2 "operation" example_id 1000 61000 1 "peer" 1 1 true 1 example_instance.
(** The same action, issued again five minutes later. *)
Definition example_late_request : ScreenShareConsentV2 :=
  mkConsent 2 "operation" example_id 310000 361000 1 "peer" 1 1 true 1 example_instance.

#[local] Instance example_codec : RealtimeCodec := {|
  decode_consent := fun b =>
    match b with [Byte.x01] => Some example_request | [Byte.x02] => Some example_late_request | _ => None end;
  encode_consent := fun _ => [Byte.x01];
  decode_envelope := fun b => Some (example_instance, b);
  encode_envelope := fun _ b => b;
  hex_decode := fun s => if slen s =? 32 then Some (replicate 16 Byte.x00) else None;
|}.

Definition example_answers : RtcAnswers := mkAnswers (Ok tt) (Ok "v=0 answer"%string) (Ok tt).
Definition example_offer : RoutedSignal := mkRouted SkWebRtcOffer example_id "peer" 1 example_instance (str_bytes "v=0 offer").
Definition example_candidate : RoutedSignal :=
  mkRouted SkIceCandidate example_id "peer" 1 example_instance (str_bytes "candidate:1").
Definition example_consent : RoutedSignal := mkRouted SkScreenShareConsent example_id "peer" 1 example_instance [Byte.x01].
Definition example_claim : ClaimCommand := mkClaimCommand example_id "peer" "token".

Definition example_pair : list RtAction :=
  [AProvisional true "device" example_offer "offer" "token"; AProvisional true "device" example_candidate "x" "y";
   AProvisional true "device" example_consent "x" "y"].
Definition example_commit : list RtAction :=
  example_pair ++ [AClaimBegin true 0 example_claim; AClaimApply 0 None example_answers (fun _ => example_answers);
    AEndpointCreate example_id "peer" Receive 1; AClaimCommit 0 (fun _ => example_answers)].
(** The claim fails after the session was registered. *)
Definition example_abort : list RtAction :=
  example_pair ++ [AClaimBegin true 0 example_claim; AClaimApply 0 None example_answers (fun _ => example_answers); AClaimUnsent 0].
#[local] Abbreviation example_run l := (rt_run l (world_init 1 1 2000 0)).

Lemma media_leases_live_witness :
  exists s, rt_sessions (w_manager (example_run example_commit)) !! example_id = Some s
    /\ rs_driver s = Some 0 /\ session_generation example_id (w_manager (example_run example_commit)) = Some 1.
Proof.
  assert (Hc : w_closing (example_run example_commit) = false) by (vm_compute; reflexivity).
  assert (He : endpoints (st_registry (w_state (example_run example_commit))) !! 1
               = Some (mkLease example_id "peer" 1 1 Receive 0)) by (vm_compute; reflexivity).
  destruct (media_leases_live example_commit 1 1 2000 0 1 _ Hc He) as [(s & Hs & _ & Hd & Hg) _].
  exists s. split; [exact Hs|]. split; [exact Hd|exact Hg].
Defined.

Lemma incoming_claims_settled_witness :
  NoDup (cm_epoch <$> w_commits (example_run example_commit))
  /\ cm_epoch <$> w_commits (example_run example_commit) = [1].
Proof.
  split; [|vm_compute; reflexivity].
  assert (Hl : len example_commit < 2 ^ 64) by (vm_compute; reflexivity).
  exact (proj1 (proj2 (incoming_claims_settled example_commit 1 1 2000 0 Hl))).
Defined.

Lemma failed_claims_rolled_back_witness :
  is_Some (rt_sessions (w_manager (example_run example_abort)) !! example_id)
  /\ forall id s, rt_sessions (w_manager (rt_step (AClaimRollback 0) (example_run example_abort))) !! id = Some s ->
       rs_driver s ≠ Some 0.
Proof.
  split; [vm_compute; eauto|].
  assert (Hl : len example_abort < 2 ^ 64) by (vm_compute; reflexivity).
  assert (Hop : w_claims (example_run example_abort) !! 0 = Some (ClaimAborting example_claim example_instance 1 (Some 1) 0))
    by (vm_compute; reflexivity).
  exact (proj1 (failed_claims_rolled_back example_abort 1 1 2000 0 0 example_claim example_instance 1 (Some 1) 0 Hl Hop)).
Defined.


(** The offer is withdrawn; another pair with the same action is refused at once and
    accepted when five minutes have passed. *)
Definition example_withdrawn (revision : Z) : RtAction :=
  AProvisional true "device" (mkRouted SkWebRtcClose example_id "peer" revision example_instance []) "x" "y".
Definition example_again : list RtAction :=
  example_pair ++ [example_withdrawn 2] ++ example_pair ++ [example_withdrawn 2; ATick 320000 0;
    AProvisional true "device" example_offer "offer" "token";
    AProvisional true "device" (mkRouted SkScreenShareConsent example_id "peer" 1 example_instance [Byte.x02]) "x" "y"].


Definition example_expiry : list RtAction :=
  [AEnsureWorker; AWorkerSpawned true] ++ example_pair ++ [ATick 200000 (from_secs 200)].

Lemma expiry_worker_clears_witness :
  is_Some (provisional (w_manager (example_run example_expiry)) !! example_id)
  /\ exists l', forallb is_worker_action l' = true /\
       forall id dl, has_deadline (pview (w_manager (rt_run l' (example_run example_expiry)))) id dl
         <-> has_deadline (pview (w_manager (example_run example_expiry))) id dl /\ w_mono (example_run example_expiry) < dl.
Proof.
  split; [vm_compute; eauto|].
  assert (Hr : worker_runs (example_run example_expiry)) by (vm_compute; exact I).
  exact (expiry_worker_clears example_expiry 1 1 2000 0 Hr).
Defined.
